(* ===== verification/_CoqProject ===== *)
-Q . S2P
Prelude.v
Types.v
RiskGates.v
OrderManagerCore.v
PositionLedger.v
BookStore.v
SpscQueue.v
FramePool.v
Simdjson.v
Decode.v
KalshiParser.v
ParserSpec.v
Router.v
Shard.v
Pipeline.v
PipelineStop.v
Nlohmann.v
StringSearch.v
OmsAdapter.v
OrderTransport.v
OrderManager.v
OmsLifecycle.v
PaperTrading.v
Strategy.v
Config.v
WsClient.v
AuthSigner.v
WsFeed.v
FeedProgress.v
MarketData.v
Engine.v
Trader.v
Process.v
