(* ===== verification/Prelude.v ===== *)
(** * Verification of the trading engine

    The program under src/cpp is a trading engine for prediction markets.  This library
    models all of it except the pieces listed at the end, and proves what its parts promise.

    ** The program and how its parts interact

    A feed worker (adapters/ws) connects to the exchange with a signed request, subscribes
    the configured channels and hands every message to the sink of the live pipeline.  The
    sink (ingest) copies a message into a slot of the frame pool and pushes a reference to
    it into a single-producer single-consumer ring.  The main thread pumps the ring: the
    router (router, decode) extracts market and sequence number, hashes the market to a
    shard and pushes the frame into the ring of that shard.  A shard worker (shards) parses
    the frame (parsers), applies the event to the books of its markets and gives it to the
    strategy (strategy), whose order intents pass the shard risk gate and go to the order
    manager (oms).  The order manager validates and tracks an intent, queues it, and its
    worker passes it through the global and the portfolio gate and sends it over the order
    transport, the exchange's or the paper one; updates that come back move the tracked
    orders along their lifecycle and reach the position ledger, which the gates read.
    The configuration (config) and main (apps/trader) put the parts together.

    ** Files

    - Prelude: record update, machine integers, [outcome], sums over maps, automation.
    - Types: the enumerations and structs of include/trading/internal.
    - RiskGates: oms/global_risk_gate.cpp, oms/portfolio_risk_gate.cpp,
      strategy/shard_risk_gate.cpp.
    - OrderManagerCore: oms/order_manager_core.cpp, tracked orders as a state machine.
    - PositionLedger: oms/position_ledger_core.cpp and position_ledger.cpp.
    - BookStore: shards/book_store.cpp, order books with buffering before the snapshot.
    - SpscQueue: ingest/spsc_frame_queue.hpp and the ring of router/shard_dispatch.cpp.
    - FramePool: ingest/frame_pool.cpp, slots with generations.
    - Simdjson: the interface of the simdjson library the decoders use.
    - Decode: decode/dispatch.cpp and the Kalshi and Polymarket extractors.
    - KalshiParser: parsers/exchanges/kalshi/parser.cpp and polymarket/parser.cpp.
    - ParserSpec: a description of the Kalshi messages, which that parser computes.
    - Router: router/router.cpp and shard_dispatch.cpp.
    - Shard: shards/shard.cpp and message_parser.cpp.
    - Pipeline: pipeline/live_pipeline.cpp and ingest/ws_message_sink.cpp.
    - PipelineStop: the run and stop of shards/shard.cpp and the stop of
      pipeline/live_pipeline.cpp at their program points.
    - Nlohmann: the interface of the nlohmann::json library.
    - StringSearch: find, rfind and substr of std::string.
    - OmsAdapter: adapters/exchanges/kalshi/oms_adapter.cpp.
    - OrderTransport: oms/paper_order_transport.cpp and ws_order_transport.cpp.
    - OrderManager: oms/order_manager.cpp, every critical section and their interleaving.
    - OmsLifecycle: run and stop of oms/order_manager.cpp at their program points, while
      other threads submit.
    - PaperTrading: order manager, adapter, paper transport and ledger put together.
    - Strategy: strategy/strategy_runner.cpp and the sinks, filters and providers around it.
    - Config: config/trader_config.cpp.
    - WsClient: adapters/ws/client.cpp.
    - AuthSigner: adapters/exchanges/kalshi/auth_signer.cpp and the two ws_adapter.cpp.
    - WsFeed: adapters/ws/session.cpp and feed_runner.cpp.
    - FeedProgress: feed_runner.cpp over reads that block (recv_text of client.cpp).
    - MarketData: the threads of WsFeed, Pipeline, Router and Shard as one system.
    - Engine: that system with the strategies behind the shards and the order manager they
      share.
    - Trader: apps/trader/main.cpp, core/app.cpp and engine/runtime.cpp.
    - Process: the signal handlers, the loop and the end of apps/trader/main.cpp.

    ** How the code is rendered

    A struct is a Record whose fields keep their names behind the initials of the struct, an
    enumeration an Inductive type, a map a [gmap].  An operation that mutates an object is a
    function from its state to its state and result; [x <| f := v |>] is an assignment.  A
    function that returns false with an error message, or throws, returns an [outcome].
    Unsigned arithmetic wraps explicitly ([u64], [u32]); signed arithmetic is written with
    the wrapping operators of [machine_scope], and the theorems that need it state the
    bounds under which nothing overflows.  Readings of the clock are arguments.  What one
    part promises another is a type class: the interfaces of the source (IOrderTransport,
    IExchangeOmsAdapter, IOrderEventSink, IShardEventHandler, IStrategy, IWsTransport, ...)
    and the third-party libraries, whose documented behaviour is a class of laws with a
    concrete instance next to it, so that no theorem rests on laws nothing satisfies.

    Threads are step relations: the ring ([spsc_step]) and the ingest path ([ingest_step])
    are split at their shared accesses, the order manager ([om_step]) at its critical
    sections ([life_step] adds the program points of its loop and of stop, as [shards_step]
    does for the shards), the feed ([feed_step]) at its calls, main ([process_step]) at the
    installation of its handlers and the points of its loop; [md_step] interleaves feed,
    ingest and shards, and [engine_step] these with the handlers of the shards, split at
    their shared accesses, and the order manager.  [live_step] is [feed_step] restricted to
    what can happen when a read blocks: claims about what was done hold of [feed_step],
    claims about what will be done are made of [live_step].  Ghost fields record what
    happened.

    ** What is proved

    - Orders: whatever the interleaving of submitters, worker and exchange, the live orders
      that were sent stay within the global limits (OrderManager.live_orders_within_limits);
      intents are processed once and in order; the sink sees exactly the applied updates;
      an order is never lost and follows its lifecycle (OrderManagerCore.order_lifecycle);
      a submission is accepted exactly when it should be (submission_decided); the exchange
      ids in the core are exactly those the applied updates reported (core_reachable_wf).
      The drain of a batch terminates (batch_drains); stop returns wherever the worker is
      when it is called, and nothing is sent, applied or accepted after it
      (OmsLifecycle.oms_stop_completes, oms_stop_is_final).
    - Engine, end to end: every intent the order manager processes is a decision a strategy
      made on an event of the feed and the shard gate allowed, in order and at most once
      (Engine.engine_orders_traceable); an intent is offered to the sink exactly when the
      gate allows it on the state at its snapshot, whatever other threads do before the
      submit (Strategy.gate_guards_sink).
    - Positions: positions are those of the fill history, with no overflow under stated
      bounds (PositionLedger.ledger_matches_history), and a fill of an order the portfolio
      gate allowed stays within its limits.
    - Market data: a live book refines the sum of the accepted deltas, buffering before the
      snapshot is equivalent to delivery after it, markets do not influence each other, and
      the book of a shard is that of the parsed messages of the market (BookStore, Shard);
      through all threads from the socket on, these messages arrive in order and at most
      once (MarketData.market_data_end_to_end).  Starting is all or nothing
      (Pipeline.start_all_or_nothing); stopping the shards returns, loses no event
      that was popped and leaves what [pipeline_stop] says (PipelineStop).
    - Transport of messages: the rings refine a bounded FIFO and deliver in order under
      concurrency, the frame pool hands a slot to one holder and never revives a released
      reference, ingest and dispatch keep the order of every market (SpscQueue, FramePool,
      Router, Pipeline).
    - Texts: the parser accepts exactly the messages that stand for an event and answers
      that event (ParserSpec.kalshi_parse_exact); requests and counts are read back as they
      were written, updates are well formed, the paper transport's answers are understood
      (KalshiParser, OmsAdapter, OrderTransport).
    - Paper mode, end to end: an allowed order fills exactly, a refused one has no effect.
    - Configuration: a document loads to exactly the defaults overridden by its keys, and
      every result is within the bounds the engine relies on (Config).
    - Feed: messages reach the sink in order over fully subscribed connections, and a
      connection is authenticated for the target it requests (WsFeed); [stop] completes
      because it closes the session the worker may be reading from, and failures are
      recovered from while the exchange is reachable (FeedProgress).
    - Process: the outcome of startup on every path (Trader.startup_decided), and that the
      process, once its handlers are installed, runs until SIGINT or SIGTERM and then ends
      with nothing left running, unless another signal kills it
      (Process.process_ends_on_signal).

    ** Fuel and bounds

    Loops of the source are structural recursions on what they consume; only [pump_loop]
    has a counter, the parameter max_frames of the source.  Generations of frames and
    64-bit counters wrap; theorems that depend on it bound the number of steps.

    ** Not modelled

    Log output (adapters/logging, apps/logger), which has no effect on the state; signals
    during startup, before main comes to install its handlers; sleeping and the passage of
    time (a silent peer is a read that does not return); the time connecting, writing and
    closing take: they are taken to return, and so are the calls of the order manager on its
    transport, whose read blocks in the live mode as the feed's does; memory
    exhaustion; weak memory beyond the stale reads of the ring indices; accessors that only
    return a member.  simdjson, nlohmann::json, Boost.Beast and OpenSSL are interfaces.
    Calls of the feed on its transport are atomic, although the source does not serialise
    close with them.  The theorems about the order manager and the engine are about one
    session from a start on an empty queue: a restart that finds intents of the previous
    session in the queue sends them untracked (OmsLifecycle.leftover_sent_untracked), so
    they do not extend over it. *)
From stdpp Require Export gmap strings list fin_maps.
From Stdlib Require Export ZArith Lia.

#[export] Set Default Goal Selector "!".
#[export] Set Warnings "-clear-no-such-hyp".
#[global] Open Scope Z_scope.

(** ** Functional record update

    The C++ code mutates the fields of structs in place.  A [Settable] instance
    gives the eta expansion of a record, from which the setter of a field is
    computed; [x <| f := v |>] is the record after [x.f = v] and
    [x <| f ::= g |>] the one after [x.f = g(x.f)]. *)
Class Settable (T : Type) := settable_eta : T → T.
Class Setter {T A : Type} (proj : T → A) := set_field : (A → A) → T → T.
Arguments set_field {T A} proj {_} f x /.

Ltac derive_setter :=
  lazymatch goal with
  | |- @Setter ?T ?A ?proj =>
    let inst := constr:(_ : Settable T) in
    let eta := eval hnf in inst in
    exact (fun (f : A → A) (x : T) =>
      ltac:(let b := eval cbv beta in (eta x) in
            let p := eval pattern (proj x) in b in
            lazymatch p with
            | ?g _ => let r := eval cbv beta in (g (f (proj x))) in exact r
            end))
  end.

#[export] Hint Extern 0 (Setter _) => derive_setter : typeclass_instances.

Declare Scope update_scope.
Notation "x <| proj := v |>" := (set_field proj (λ _, v) x)
  (at level 1, left associativity, proj at level 11, v at level 200) : update_scope.
Notation "x <| proj ::= f |>" := (set_field proj f x)
  (at level 1, left associativity, proj at level 11, f at level 200) : update_scope.
#[global] Open Scope update_scope.

(** ** Machine integers

    An unsigned [w]-bit C++ integer is a [Z] in [0, 2^w); its arithmetic wraps.
    A [std::int64_t] is a [Z] in [-2^63, 2^63).  Signed overflow is undefined in
    C++; the model gives it the two's complement result, and the bounds theorems
    show under which inputs no operation of the code overflows. *)
Definition u64 (z : Z) : Z := z `mod` 18446744073709551616.
Definition u32 (z : Z) : Z := z `mod` 4294967296.
Definition s64 (z : Z) : Z := (z + 9223372036854775808) `mod` 18446744073709551616 - 9223372036854775808.

Definition in_u64 (z : Z) : Prop := 0 ≤ z < 18446744073709551616.
Definition in_s64 (z : Z) : Prop := -9223372036854775808 ≤ z < 9223372036854775808.

#[export] Instance in_u64_dec z : Decision (in_u64 z).
Proof. unfold in_u64. apply _. Defined.
#[export] Instance in_s64_dec z : Decision (in_s64 z).
Proof. unfold in_s64. apply _. Defined.

Declare Scope machine_scope.
Delimit Scope machine_scope with machine.
Notation "a ⊞ b" := (s64 (a + b)) (at level 50, left associativity) : machine_scope.
Notation "a ⊟ b" := (s64 (a - b)) (at level 50, left associativity) : machine_scope.
Notation "a ⊠ b" := (s64 (a * b)) (at level 40, left associativity) : machine_scope.

(** [++counter] on a [std::uint64_t] or [std::size_t]. *)
Definition u64_inc (z : Z) : Z := u64 (z + 1).

(** ** Error values

    A C++ function [bool f(..., std::string& error_message)] is a function to
    [outcome A]: [Ok a] when it returns [true], [Err msg] when it returns [false]
    with [error_message = msg].  A function that may throw has the same type,
    the message being [what()] of the exception. *)
Inductive outcome (A : Type) : Type :=
  | Ok (a : A)
  | Err (msg : string).
Arguments Ok {A} a.
Arguments Err {A} msg.

Definition is_ok {A} (o : outcome A) : bool :=
  match o with Ok _ => true | Err _ => false end.

(** ** Sums over finite maps: the loops [for (auto& [k, v] : map) acc += f(k, v)] *)
Section sum_map_def.
Context {K V : Type} `{Countable K}.

Definition sum_map (f : K → V → Z) (m : gmap K V) : Z :=
  map_fold (λ k v acc, f k v + acc) 0 m.
End sum_map_def.

(** ** Automation *)
Create HintDb trading.
Create HintDb machine.

(** Case analysis on every test of the code that occurs in the goal or in a
    hypothesis, followed by the equations this gives. *)
Ltac split_cases := repeat (case_decide || case_match); simplify_eq/=.

(** ** Machine integer lemmas *)
Lemma s64_small z : in_s64 z → s64 z = z.
Proof. unfold s64, in_s64. intros. rewrite Z.mod_small; lia. Qed.

Lemma u64_small z : in_u64 z → u64 z = z.
Proof. unfold u64, in_u64. intros. rewrite Z.mod_small; lia. Qed.

Lemma u64_range z : in_u64 (u64 z).
Proof. unfold u64, in_u64. apply Z.mod_pos_bound. lia. Qed.

Lemma s64_range z : in_s64 (s64 z).
Proof. unfold s64, in_s64. pose proof (Z.mod_pos_bound (z + 9223372036854775808) 18446744073709551616). lia. Qed.

Lemma u64_nonneg z : 0 ≤ u64 z.
Proof. destruct (u64_range z). lia. Qed.

(** Wrapping is a ring congruence: an inner wrap can be dropped. *)
Lemma s64_shift z k : s64 (z + k * 18446744073709551616) = s64 z.
Proof.
  unfold s64. f_equal.
  replace (z + k * 18446744073709551616 + 9223372036854775808)
    with (z + 9223372036854775808 + k * 18446744073709551616) by lia.
  apply Z_mod_plus_full.
Qed.

Lemma s64_decomp z : ∃ k, s64 z = z + k * 18446744073709551616.
Proof.
  exists (- ((z + 9223372036854775808) `div` 18446744073709551616)).
  unfold s64. rewrite Z.mod_eq by lia. lia.
Qed.

Lemma s64_s64_add a b : s64 (s64 a + b) = s64 (a + b).
Proof.
  destruct (s64_decomp a) as [k ->].
  replace (a + k * 18446744073709551616 + b)
    with (a + b + k * 18446744073709551616) by lia.
  apply s64_shift.
Qed.

Lemma u64_u64_add a b : u64 (u64 a + b) = u64 (a + b).
Proof. unfold u64. by rewrite Zplus_mod_idemp_l. Qed.

#[export] Hint Resolve u64_range s64_range u64_nonneg : machine.

Lemma u64_inc_small z : 0 ≤ z < 18446744073709551615 → u64_inc z = z + 1.
Proof. intros. apply u64_small. unfold in_u64. lia. Qed.

(** ** Lemmas on sums over maps *)
Section sum_map.
Context {K V : Type} `{Countable K}.
Implicit Types (f g : K → V → Z) (m : gmap K V).

Lemma sum_map_empty f : sum_map f (∅ : gmap K V) = 0.
Proof. apply map_fold_empty. Qed.

Lemma sum_map_insert f m k v :
  m !! k = None → sum_map f (<[k:=v]> m) = f k v + sum_map f m.
Proof.
  intros Hk. unfold sum_map. rewrite map_fold_insert_L; [done| |done].
  intros. lia.
Qed.

Lemma sum_map_delete f m k v :
  m !! k = Some v → sum_map f m = f k v + sum_map f (delete k m).
Proof.
  intros Hk. rewrite <-(insert_delete_id m k v) at 1 by done.
  by rewrite sum_map_insert by apply lookup_delete_eq.
Qed.

(** The sum after a slot of the map is overwritten. *)
Lemma sum_map_update f m k v v' :
  m !! k = Some v → sum_map f (<[k:=v']> m) = sum_map f m - f k v + f k v'.
Proof.
  intros Hk. rewrite (sum_map_delete f m k v) by done.
  rewrite (sum_map_delete f (<[k:=v']> m) k v') by apply lookup_insert_eq.
  rewrite delete_insert_eq. lia.
Qed.

(** The sum after [m\[k\] = v], whether or not [k] was present. *)
Lemma sum_map_assign f m k v d :
  f k d = 0 → sum_map f (<[k:=v]> m) = sum_map f m - f k (default d (m !! k)) + f k v.
Proof.
  intros Hd. destruct (m !! k) as [v0|] eqn:Hk; simpl.
  - by apply sum_map_update.
  - rewrite sum_map_insert by done. lia.
Qed.

Lemma sum_map_ext f g m :
  (∀ k v, m !! k = Some v → f k v = g k v) → sum_map f m = sum_map g m.
Proof.
  induction m as [|k v m Hk IH] using map_ind; intros Hfg.
  { by rewrite !sum_map_empty. }
  rewrite !sum_map_insert by done. f_equal.
  - apply Hfg, lookup_insert_eq.
  - apply IH. intros k' v' Hk'. apply Hfg.
    rewrite lookup_insert_ne by congruence. done.
Qed.

Lemma sum_map_mono f g m :
  (∀ k v, m !! k = Some v → f k v ≤ g k v) → sum_map f m ≤ sum_map g m.
Proof.
  induction m as [|k v m Hk IH] using map_ind; intros Hfg.
  { by rewrite !sum_map_empty. }
  rewrite !sum_map_insert by done.
  apply Z.add_le_mono.
  - apply Hfg, lookup_insert_eq.
  - apply IH. intros k' v' Hk'. apply Hfg.
    rewrite lookup_insert_ne by congruence. done.
Qed.

Lemma sum_map_zero m : sum_map (λ _ _, 0) m = 0.
Proof.
  induction m as [|k v m Hk IH] using map_ind; [apply sum_map_empty|].
  by rewrite sum_map_insert.
Qed.

Lemma sum_map_nonneg f m :
  (∀ k v, m !! k = Some v → 0 ≤ f k v) → 0 ≤ sum_map f m.
Proof. intros Hf. rewrite <-(sum_map_zero m). by apply sum_map_mono. Qed.

(** A term of a sum of non-negative terms is at most the sum. *)
Lemma sum_map_term_le f m k v :
  (∀ k v, m !! k = Some v → 0 ≤ f k v) → m !! k = Some v → f k v ≤ sum_map f m.
Proof.
  intros Hf Hk. rewrite (sum_map_delete f m k v) by done.
  enough (0 ≤ sum_map f (delete k m)) by lia.
  apply sum_map_nonneg. intros k' v' Hk'. apply lookup_delete_Some in Hk' as [_ Hk'].
  eauto.
Qed.

Lemma sum_map_size m : sum_map (λ _ _, 1) m = Z.of_nat (size m).
Proof.
  induction m as [|k v m Hk IH] using map_ind; [done|].
  rewrite sum_map_insert, map_size_insert_None by done. lia.
Qed.

Lemma sum_map_add f g m :
  sum_map (λ k v, f k v + g k v) m = sum_map f m + sum_map g m.
Proof.
  induction m as [|k v m Hk IH] using map_ind; [done|].
  rewrite !sum_map_insert by done. lia.
Qed.

(** The machine loop, which wraps at every addition, computes the wrapped sum. *)
Lemma map_fold_s64 f m :
  map_fold (λ k v acc, s64 (acc + f k v)) 0 m = s64 (sum_map f m).
Proof.
  unfold sum_map. induction m as [|k v m Hk Hfold IH] using map_first_key_ind.
  { done. }
  rewrite !map_fold_insert_first_key by done. rewrite IH, s64_s64_add. f_equal. lia.
Qed.

Lemma map_fold_u64 f m :
  map_fold (λ k v acc, u64 (acc + f k v)) 0 m = u64 (sum_map f m).
Proof.
  unfold sum_map. induction m as [|k v m Hk Hfold IH] using map_first_key_ind.
  { done. }
  rewrite !map_fold_insert_first_key by done. rewrite IH, u64_u64_add. f_equal. lia.
Qed.
End sum_map.
