(* ===== verification/Types.v ===== *)
(** * Shared vocabulary of the engine

    The enumerations, identifiers and structs of
    src/cpp/include/trading/internal: market_types.hpp, normalized_event.hpp,
    oms_types.hpp and router_frame.hpp.  An enumerator [E::kX] is [E_kX]; the
    fields of a struct keep their name behind the initials of the struct.
    [std::variant] is an inductive type, [std::optional] is [option]. *)
From S2P Require Import Prelude.

(** ** market_types.hpp *)
Abbreviation MarketId := Z (only parsing).
Abbreviation SequenceId := Z (only parsing).
Abbreviation PriceTicks := Z (only parsing).
Abbreviation QtyLots := Z (only parsing).
Abbreviation TimestampNs := Z (only parsing).

Inductive ExchangeId :=
  | ExchangeId_kUnknown | ExchangeId_kKalshi | ExchangeId_kPolymarket.

Inductive EventType :=
  | EventType_kUnknown | EventType_kSnapshot | EventType_kDelta | EventType_kTrade
  | EventType_kHeartbeat | EventType_kStatus.

Inductive Side := Side_kUnknown | Side_kBid | Side_kAsk | Side_kBuy | Side_kSell.

(** ** normalized_event.hpp *)
Record EventMeta := mkEventMeta {
  em_exchange : ExchangeId;
  em_market_id : MarketId;
  em_sequence_id : SequenceId;
  em_recv_ns : TimestampNs;
  em_exchange_ts_ns : TimestampNs;
}.

Record Level := mkLevel { lv_price_ticks : PriceTicks; lv_qty_lots : QtyLots }.

Record SnapshotData := mkSnapshotData { sn_bids : list Level; sn_asks : list Level }.

Record DeltaData := mkDeltaData {
  dd_side : Side;
  dd_price_ticks : PriceTicks;
  dd_delta_qty_lots : QtyLots;
}.

Record TradeData := mkTradeData {
  td_price_ticks : PriceTicks;
  td_qty_lots : QtyLots;
  td_aggressor : Side;
  td_trade_id : option string;
}.

Inductive EventData :=
  | EventData_monostate
  | EventData_Snapshot (s : SnapshotData)
  | EventData_Delta (d : DeltaData)
  | EventData_Trade (t : TradeData).

Record NormalizedEvent := mkNormalizedEvent {
  ne_type : EventType;
  ne_meta : EventMeta;
  ne_market_ticker : string;
  ne_raw_sequence_id : option SequenceId;
  ne_data : EventData;
  ne_raw_payload : string;
}.

Definition effective_sequence_id (e : NormalizedEvent) : option SequenceId :=
  match ne_raw_sequence_id e with
  | Some s => Some s
  | None =>
    if decide (em_sequence_id (ne_meta e) ≠ 0) then Some (em_sequence_id (ne_meta e))
    else None
  end.

(** ** oms_types.hpp *)
Abbreviation OrderRequestId := Z (only parsing).
Abbreviation ClientOrderId := string (only parsing).
Abbreviation ExchangeOrderId := string (only parsing).

Inductive OmsAction :=
  | OmsAction_kUnknown | OmsAction_kPlace | OmsAction_kCancel | OmsAction_kReplace.

Inductive OmsTimeInForce :=
  | OmsTimeInForce_kUnknown | OmsTimeInForce_kGtc | OmsTimeInForce_kIoc | OmsTimeInForce_kFok.

Inductive OmsOrderStatus :=
  | OmsOrderStatus_kUnknown | OmsOrderStatus_kAccepted | OmsOrderStatus_kRejected
  | OmsOrderStatus_kCanceled | OmsOrderStatus_kPartiallyFilled | OmsOrderStatus_kFilled
  | OmsOrderStatus_kReplaced.

Inductive OmsLiquidity := OmsLiquidity_kUnknown | OmsLiquidity_kMaker | OmsLiquidity_kTaker.

Record OrderIntent := mkOrderIntent {
  oi_exchange : ExchangeId;
  oi_action : OmsAction;
  oi_client_order_id : ClientOrderId;
  oi_target_client_order_id : option ClientOrderId;
  oi_target_exchange_order_id : option ExchangeOrderId;
  oi_market_ticker : string;
  oi_side : Side;
  oi_qty_lots : QtyLots;
  oi_limit_price_ticks : option PriceTicks;
  oi_time_in_force : OmsTimeInForce;
  oi_intent_ts_ns : TimestampNs;
}.

Record OrderAck := mkOrderAck {
  oa_client_order_id : ClientOrderId;
  oa_exchange_order_id : option ExchangeOrderId;
  oa_market_ticker : string;
  oa_accepted_qty_lots : QtyLots;
}.

Record OrderReject := mkOrderReject {
  or_client_order_id : ClientOrderId;
  or_exchange_order_id : option ExchangeOrderId;
  or_reason_code : string;
  or_reason_message : string;
}.

Record OrderFill := mkOrderFill {
  of_client_order_id : ClientOrderId;
  of_exchange_order_id : option ExchangeOrderId;
  of_market_ticker : string;
  of_fill_qty_lots : QtyLots;
  of_fill_price_ticks : PriceTicks;
  of_side : Side;
  of_liquidity : OmsLiquidity;
}.

Inductive OmsUpdateData :=
  | OmsUpdateData_monostate
  | OmsUpdateData_Ack (a : OrderAck)
  | OmsUpdateData_Reject (r : OrderReject)
  | OmsUpdateData_Fill (f : OrderFill).

Record OrderStateUpdate := mkOrderStateUpdate {
  ou_exchange : ExchangeId;
  ou_status : OmsOrderStatus;
  ou_client_order_id : ClientOrderId;
  ou_exchange_order_id : option ExchangeOrderId;
  ou_market_ticker : string;
  ou_recv_ts_ns : TimestampNs;
  ou_data : OmsUpdateData;
  ou_raw_payload : string;
}.

(** ** router_frame.hpp; [raw_payload_view] views the payload of the routed frame *)
Record RouterFrame := mkRouterFrame {
  rf_exchange : ExchangeId;
  rf_market_ticker : string;
  rf_sequence_id : option SequenceId;
  rf_recv_ns : TimestampNs;
  rf_raw_payload_view : string;
}.

(** ** Decidable equality and record update *)
#[export] Instance ExchangeId_eq_dec : EqDecision ExchangeId.
Proof. solve_decision. Defined.
#[export] Instance EventType_eq_dec : EqDecision EventType.
Proof. solve_decision. Defined.
#[export] Instance Side_eq_dec : EqDecision Side.
Proof. solve_decision. Defined.
#[export] Instance OmsAction_eq_dec : EqDecision OmsAction.
Proof. solve_decision. Defined.
#[export] Instance OmsTimeInForce_eq_dec : EqDecision OmsTimeInForce.
Proof. solve_decision. Defined.
#[export] Instance OmsOrderStatus_eq_dec : EqDecision OmsOrderStatus.
Proof. solve_decision. Defined.
#[export] Instance OmsLiquidity_eq_dec : EqDecision OmsLiquidity.
Proof. solve_decision. Defined.
#[export] Instance Level_eq_dec : EqDecision Level.
Proof. solve_decision. Defined.
#[export] Instance DeltaData_eq_dec : EqDecision DeltaData.
Proof. solve_decision. Defined.
#[export] Instance OrderIntent_eq_dec : EqDecision OrderIntent.
Proof. solve_decision. Defined.
#[export] Instance OrderFill_eq_dec : EqDecision OrderFill.
Proof. solve_decision. Defined.

(** The enumeration order, used to key maps by exchange. *)
Definition exchange_code (e : ExchangeId) : Z :=
  match e with
  | ExchangeId_kUnknown => 0 | ExchangeId_kKalshi => 1 | ExchangeId_kPolymarket => 2
  end.
Definition exchange_decode (z : Z) : ExchangeId :=
  if decide (z = 1) then ExchangeId_kKalshi
  else if decide (z = 2) then ExchangeId_kPolymarket else ExchangeId_kUnknown.
#[export] Instance ExchangeId_countable : Countable ExchangeId.
Proof. apply (inj_countable' exchange_code exchange_decode). by intros []. Defined.

#[export] Instance OrderIntent_settable : Settable OrderIntent := λ x,
  mkOrderIntent (oi_exchange x) (oi_action x) (oi_client_order_id x)
    (oi_target_client_order_id x) (oi_target_exchange_order_id x) (oi_market_ticker x)
    (oi_side x) (oi_qty_lots x) (oi_limit_price_ticks x) (oi_time_in_force x)
    (oi_intent_ts_ns x).
#[export] Instance OrderFill_settable : Settable OrderFill := λ x,
  mkOrderFill (of_client_order_id x) (of_exchange_order_id x) (of_market_ticker x)
    (of_fill_qty_lots x) (of_fill_price_ticks x) (of_side x) (of_liquidity x).
#[export] Instance OrderStateUpdate_settable : Settable OrderStateUpdate := λ x,
  mkOrderStateUpdate (ou_exchange x) (ou_status x) (ou_client_order_id x)
    (ou_exchange_order_id x) (ou_market_ticker x) (ou_recv_ts_ns x) (ou_data x)
    (ou_raw_payload x).
#[export] Instance EventMeta_settable : Settable EventMeta := λ x,
  mkEventMeta (em_exchange x) (em_market_id x) (em_sequence_id x) (em_recv_ns x)
    (em_exchange_ts_ns x).
#[export] Instance NormalizedEvent_settable : Settable NormalizedEvent := λ x,
  mkNormalizedEvent (ne_type x) (ne_meta x) (ne_market_ticker x) (ne_raw_sequence_id x)
    (ne_data x) (ne_raw_payload x).

(** ** A concrete order, used by the examples of the other files *)
Definition demo_intent (side : Side) (qty : Z) : OrderIntent :=
  mkOrderIntent ExchangeId_kKalshi OmsAction_kPlace "c1" None None "MKT" side qty (Some 50)
    OmsTimeInForce_kUnknown 5.
