(* ===== verification/RiskGates.v ===== *)
(** * The three risk gates

    [GlobalRiskGate] (src/cpp/src/oms/global_risk_gate.cpp) limits the number and
    outstanding quantity of in-flight orders, [PortfolioRiskGate]
    (src/cpp/src/oms/portfolio_risk_gate.cpp) limits positions and realised losses,
    [ShardRiskGate] (src/cpp/src/strategy/shard_risk_gate.cpp) is the per-shard check
    in front of the order manager.  Every limit is disabled by the value 0.  A gate
    holds only its configuration, so [evaluate] is a pure function of the
    configuration, the intent and the snapshot. *)
From S2P Require Import Prelude.
From S2P Require Import Types.
Local Open Scope machine_scope.

(** ** oms/global_risk_gate *)
Record GlobalRiskConfig := mkGlobalRiskConfig {
  gc_max_active_orders_global : Z;
  gc_max_active_orders_per_market : Z;
  gc_max_outstanding_qty_global : QtyLots;
  gc_max_outstanding_qty_per_market : QtyLots;
}.

Record GlobalRiskSnapshot := mkGlobalRiskSnapshot {
  gs_active_orders_global : Z;
  gs_active_orders_market : Z;
  gs_outstanding_qty_global : QtyLots;
  gs_outstanding_qty_market : QtyLots;
}.

Inductive GlobalRiskRejectCode :=
  | GlobalRisk_kNone
  | GlobalRisk_kActiveOrdersGlobalLimit
  | GlobalRisk_kActiveOrdersMarketLimit
  | GlobalRisk_kOutstandingQtyGlobalLimit
  | GlobalRisk_kOutstandingQtyMarketLimit.

Record GlobalRiskDecision := mkGlobalRiskDecision {
  gd_allow : bool;
  gd_code : GlobalRiskRejectCode;
  gd_reason_message : string;
}.

Definition global_allow_decision : GlobalRiskDecision :=
  mkGlobalRiskDecision true GlobalRisk_kNone "".

Definition global_reject (code : GlobalRiskRejectCode) (reason_message : string)
    : GlobalRiskDecision :=
  mkGlobalRiskDecision false code reason_message.

Definition clamp_non_negative (value : QtyLots) : QtyLots := Z.max value 0.

Definition global_evaluate (config : GlobalRiskConfig) (intent : OrderIntent)
    (snapshot : GlobalRiskSnapshot) : GlobalRiskDecision :=
  if decide (oi_action intent = OmsAction_kCancel) then global_allow_decision
  else if decide (oi_action intent ≠ OmsAction_kPlace ∧ oi_action intent ≠ OmsAction_kReplace)
  then global_allow_decision
  else if decide (gc_max_active_orders_global config > 0 ∧
                  gc_max_active_orders_global config ≤ gs_active_orders_global snapshot)
  then global_reject GlobalRisk_kActiveOrdersGlobalLimit
         "global risk reject: max_active_orders_global exceeded"
  else if decide (gc_max_active_orders_per_market config > 0 ∧
                  gc_max_active_orders_per_market config ≤ gs_active_orders_market snapshot)
  then global_reject GlobalRisk_kActiveOrdersMarketLimit
         "global risk reject: max_active_orders_per_market exceeded"
  else
    let intent_qty := clamp_non_negative (oi_qty_lots intent) in
    if decide (gc_max_outstanding_qty_global config > 0 ∧
               gs_outstanding_qty_global snapshot ⊞ intent_qty
               > gc_max_outstanding_qty_global config)
    then global_reject GlobalRisk_kOutstandingQtyGlobalLimit
           "global risk reject: max_outstanding_qty_global exceeded"
    else if decide (gc_max_outstanding_qty_per_market config > 0 ∧
                    gs_outstanding_qty_market snapshot ⊞ intent_qty
                    > gc_max_outstanding_qty_per_market config)
    then global_reject GlobalRisk_kOutstandingQtyMarketLimit
           "global risk reject: max_outstanding_qty_per_market exceeded"
    else global_allow_decision.

Definition global_reject_code_name (code : GlobalRiskRejectCode) : string :=
  match code with
  | GlobalRisk_kNone => "none"
  | GlobalRisk_kActiveOrdersGlobalLimit => "active_orders_global_limit"
  | GlobalRisk_kActiveOrdersMarketLimit => "active_orders_market_limit"
  | GlobalRisk_kOutstandingQtyGlobalLimit => "outstanding_qty_global_limit"
  | GlobalRisk_kOutstandingQtyMarketLimit => "outstanding_qty_market_limit"
  end.

(** ** Quantity helpers shared (textually) by the portfolio and the shard gate *)
Definition llabs_qty (value : QtyLots) : QtyLots := s64 (Z.abs value).

Definition signed_intent_qty (intent : OrderIntent) : QtyLots :=
  if decide (oi_qty_lots intent ≤ 0) then 0
  else match oi_side intent with
       | Side_kBuy | Side_kBid => oi_qty_lots intent
       | Side_kSell | Side_kAsk => s64 (- oi_qty_lots intent)
       | Side_kUnknown => 0
       end.

(** ** oms/portfolio_risk_gate *)
Record PortfolioRiskConfig := mkPortfolioRiskConfig {
  pc_max_abs_net_position_per_market : QtyLots;
  pc_max_abs_position_gross_global : QtyLots;
  pc_min_realized_pnl_ticks : Z;
  pc_enforce_realized_pnl_floor : bool;
}.

Record PortfolioRiskSnapshot := mkPortfolioRiskSnapshot {
  ps_net_position_market : QtyLots;
  ps_gross_position_global : QtyLots;
  ps_realized_pnl_ticks_total : Z;
}.

Inductive PortfolioRiskRejectCode :=
  | PortfolioRisk_kNone
  | PortfolioRisk_kInvalidIntent
  | PortfolioRisk_kAbsNetPositionMarketLimit
  | PortfolioRisk_kAbsPositionGrossGlobalLimit
  | PortfolioRisk_kRealizedPnlFloor.

Record PortfolioRiskDecision := mkPortfolioRiskDecision {
  pd_allow : bool;
  pd_code : PortfolioRiskRejectCode;
  pd_reason_message : string;
}.

Definition portfolio_allow_decision : PortfolioRiskDecision :=
  mkPortfolioRiskDecision true PortfolioRisk_kNone "".

Definition portfolio_reject (code : PortfolioRiskRejectCode) (reason_message : string)
    : PortfolioRiskDecision :=
  mkPortfolioRiskDecision false code reason_message.

Definition portfolio_evaluate (config : PortfolioRiskConfig) (intent : OrderIntent)
    (snapshot : PortfolioRiskSnapshot) : PortfolioRiskDecision :=
  if decide (oi_action intent = OmsAction_kCancel) then portfolio_allow_decision
  else if decide (oi_action intent ≠ OmsAction_kPlace ∧ oi_action intent ≠ OmsAction_kReplace)
  then portfolio_allow_decision
  else if decide (pc_enforce_realized_pnl_floor config = true ∧
                  ps_realized_pnl_ticks_total snapshot < pc_min_realized_pnl_ticks config)
  then portfolio_reject PortfolioRisk_kRealizedPnlFloor
         "portfolio risk reject: realized_pnl_ticks_total breached floor"
  else
    let intent_delta := signed_intent_qty intent in
    if decide (intent_delta = 0)
    then portfolio_reject PortfolioRisk_kInvalidIntent
           "portfolio risk reject: side/qty is invalid"
    else
      let projected_market_position := ps_net_position_market snapshot ⊞ intent_delta in
      if decide (pc_max_abs_net_position_per_market config > 0 ∧
                 llabs_qty projected_market_position
                 > pc_max_abs_net_position_per_market config)
      then portfolio_reject PortfolioRisk_kAbsNetPositionMarketLimit
             "portfolio risk reject: max_abs_net_position_per_market exceeded"
      else
        let projected_gross_global :=
          ps_gross_position_global snapshot ⊟ llabs_qty (ps_net_position_market snapshot)
          ⊞ llabs_qty projected_market_position in
        if decide (pc_max_abs_position_gross_global config > 0 ∧
                   projected_gross_global > pc_max_abs_position_gross_global config)
        then portfolio_reject PortfolioRisk_kAbsPositionGrossGlobalLimit
               "portfolio risk reject: max_abs_position_gross_global exceeded"
        else portfolio_allow_decision.

Definition portfolio_reject_code_name (code : PortfolioRiskRejectCode) : string :=
  match code with
  | PortfolioRisk_kNone => "none"
  | PortfolioRisk_kInvalidIntent => "invalid_intent"
  | PortfolioRisk_kAbsNetPositionMarketLimit => "abs_net_position_market_limit"
  | PortfolioRisk_kAbsPositionGrossGlobalLimit => "abs_position_gross_global_limit"
  | PortfolioRisk_kRealizedPnlFloor => "realized_pnl_floor"
  end.

(** ** strategy/shard_risk_gate *)
Record ShardRiskConfig := mkShardRiskConfig {
  sc_max_open_orders_per_market : Z;
  sc_max_working_qty_per_market : QtyLots;
  sc_max_abs_net_position_per_market : QtyLots;
}.

Record ShardRiskSnapshot := mkShardRiskSnapshot {
  ss_open_orders_market : Z;
  ss_working_qty_market : QtyLots;
  ss_net_position_market : QtyLots;
}.

Inductive ShardRiskRejectCode :=
  | ShardRisk_kNone
  | ShardRisk_kInvalidIntent
  | ShardRisk_kOpenOrdersPerMarketLimit
  | ShardRisk_kWorkingQtyPerMarketLimit
  | ShardRisk_kAbsNetPositionPerMarketLimit.

Record ShardRiskDecision := mkShardRiskDecision {
  sd_allow : bool;
  sd_code : ShardRiskRejectCode;
  sd_reason_message : string;
}.

Definition shard_allow_decision : ShardRiskDecision :=
  mkShardRiskDecision true ShardRisk_kNone "".

Definition shard_reject (code : ShardRiskRejectCode) (reason_message : string)
    : ShardRiskDecision :=
  mkShardRiskDecision false code reason_message.

Definition shard_evaluate (config : ShardRiskConfig) (intent : OrderIntent)
    (snapshot : ShardRiskSnapshot) : ShardRiskDecision :=
  if decide (oi_action intent = OmsAction_kCancel) then shard_allow_decision
  else if decide (oi_action intent ≠ OmsAction_kPlace ∧ oi_action intent ≠ OmsAction_kReplace)
  then shard_reject ShardRisk_kInvalidIntent "shard risk reject: action is invalid"
  else
    let intent_signed_qty := signed_intent_qty intent in
    if decide (intent_signed_qty = 0)
    then shard_reject ShardRisk_kInvalidIntent "shard risk reject: side/qty is invalid"
    else if decide (sc_max_open_orders_per_market config > 0 ∧
                    u64 (ss_open_orders_market snapshot + 1)
                    > sc_max_open_orders_per_market config)
    then shard_reject ShardRisk_kOpenOrdersPerMarketLimit
           "shard risk reject: max_open_orders_per_market exceeded"
    else if decide (sc_max_working_qty_per_market config > 0 ∧
                    ss_working_qty_market snapshot ⊞ oi_qty_lots intent
                    > sc_max_working_qty_per_market config)
    then shard_reject ShardRisk_kWorkingQtyPerMarketLimit
           "shard risk reject: max_working_qty_per_market exceeded"
    else
      let projected_net_position := ss_net_position_market snapshot ⊞ intent_signed_qty in
      if decide (sc_max_abs_net_position_per_market config > 0 ∧
                 llabs_qty projected_net_position
                 > sc_max_abs_net_position_per_market config)
      then shard_reject ShardRisk_kAbsNetPositionPerMarketLimit
             "shard risk reject: max_abs_net_position_per_market exceeded"
      else shard_allow_decision.

Definition shard_reject_code_name (code : ShardRiskRejectCode) : string :=
  match code with
  | ShardRisk_kNone => "none"
  | ShardRisk_kInvalidIntent => "invalid_intent"
  | ShardRisk_kOpenOrdersPerMarketLimit => "open_orders_per_market_limit"
  | ShardRisk_kWorkingQtyPerMarketLimit => "working_qty_per_market_limit"
  | ShardRisk_kAbsNetPositionPerMarketLimit => "abs_net_position_per_market_limit"
  end.

(** An order-creating intent, the only kind the gates restrict. *)
Definition creates_order (intent : OrderIntent) : Prop :=
  oi_action intent = OmsAction_kPlace ∨ oi_action intent = OmsAction_kReplace.
#[export] Instance creates_order_dec intent : Decision (creates_order intent).
Proof. unfold creates_order. apply _. Defined.

(** ** What an allowing decision means *)
Definition portfolio_admissible (config : PortfolioRiskConfig) (intent : OrderIntent)
    (snapshot : PortfolioRiskSnapshot) : Prop :=
  let projected := ps_net_position_market snapshot ⊞ signed_intent_qty intent in
  (pc_enforce_realized_pnl_floor config = true →
     pc_min_realized_pnl_ticks config ≤ ps_realized_pnl_ticks_total snapshot) ∧
  signed_intent_qty intent ≠ 0 ∧
  (0 < pc_max_abs_net_position_per_market config →
     llabs_qty projected ≤ pc_max_abs_net_position_per_market config) ∧
  (0 < pc_max_abs_position_gross_global config →
     ps_gross_position_global snapshot ⊟ llabs_qty (ps_net_position_market snapshot)
       ⊞ llabs_qty projected ≤ pc_max_abs_position_gross_global config).

Lemma portfolio_allow_iff config intent snapshot :
  pd_allow (portfolio_evaluate config intent snapshot) = true ↔
  (creates_order intent → portfolio_admissible config intent snapshot).
Proof.
  unfold portfolio_evaluate, portfolio_admissible, creates_order. cbv zeta.
  destruct (decide (oi_action intent = OmsAction_kCancel)) as [Ha|Ha].
  { simpl. split; [intros _ [?|?]; congruence|done]. }
  destruct (decide (_ ∧ _)) as [Hb|Hb] at 1.
  { simpl. split; [intros _ [?|?]; naive_solver|done]. }
  assert (oi_action intent = OmsAction_kPlace ∨ oi_action intent = OmsAction_kReplace) as Hc.
  { destruct (oi_action intent); naive_solver. }
  destruct (pc_enforce_realized_pnl_floor config); repeat case_decide; simpl; split; try done;
    try (intros Hadm; exfalso; destruct (Hadm Hc) as (Hfl & Hsd & Hnet & Hgr));
    try (intros _ _; split_and!; try done; intros); destruct_and?; try done;
    try specialize (Hfl ltac:(done)); try specialize (Hnet ltac:(lia));
    try specialize (Hgr ltac:(lia)); lia.
Qed.
