(* ===== verification/OrderManagerCore.v ===== *)
(** * OrderManagerCore: the in-flight order book of the OMS

    Model of src/cpp/src/oms/order_manager_core.cpp and its header.  The core keeps
    the tracked orders by client order id, the index from exchange order ids, and the
    reject and transition counters.  The caller serialises every call with
    [core_mutex_], so an operation is one state transformer; readings of the steady
    clock are arguments.

    Definitions first (data, operations, the step relation of the component), then
    the well-formedness invariant, the lifecycle of orders, the decision procedure
    of submissions and the accounting of the risk snapshot. *)
From S2P Require Import Prelude.
From S2P Require Import Types.
From S2P Require Import RiskGates.
Local Open Scope machine_scope.

(** ** Data *)
Inductive InFlightStatus :=
  | InFlight_kPending | InFlight_kAccepted | InFlight_kPartiallyFilled | InFlight_kFilled
  | InFlight_kCanceled | InFlight_kRejected | InFlight_kReplaced.

#[export] Instance InFlightStatus_eq_dec : EqDecision InFlightStatus.
Proof. solve_decision. Defined.

Record InFlightOrder := mkInFlightOrder {
  fo_request_id : OrderRequestId;
  fo_last_action : OmsAction;
  fo_status : InFlightStatus;
  fo_client_order_id : ClientOrderId;
  fo_exchange_order_id : option ExchangeOrderId;
  fo_replace_target_client_order_id : option ClientOrderId;
  fo_market_ticker : string;
  fo_side : Side;
  fo_requested_qty_lots : QtyLots;
  fo_filled_qty_lots : QtyLots;
  fo_created_ts_ns : TimestampNs;
  fo_last_update_ts_ns : TimestampNs;
}.

(** [InFlightOrderSnapshot], the public copy of an order, has the same fields. *)
Record InFlightOrderSnapshot := mkInFlightOrderSnapshot {
  fs_request_id : OrderRequestId;
  fs_last_action : OmsAction;
  fs_status : InFlightStatus;
  fs_client_order_id : ClientOrderId;
  fs_exchange_order_id : option ExchangeOrderId;
  fs_replace_target_client_order_id : option ClientOrderId;
  fs_market_ticker : string;
  fs_side : Side;
  fs_requested_qty_lots : QtyLots;
  fs_filled_qty_lots : QtyLots;
  fs_created_ts_ns : TimestampNs;
  fs_last_update_ts_ns : TimestampNs;
}.

Record OrderManagerCore := mkOrderManagerCore {
  omc_global_risk_config : GlobalRiskConfig;
  omc_portfolio_risk_config : PortfolioRiskConfig;
  omc_in_flight_orders : gmap string InFlightOrder;
  omc_exchange_to_client : gmap string string;
  omc_risk_reject_count : Z;
  omc_portfolio_risk_reject_count : Z;
  omc_transition_applied_count : Z;
  omc_transition_reject_count : Z;
  omc_unknown_order_update_count : Z;
  omc_policy_reject_count : Z;
}.

Record OrderManagerCoreStats := mkOrderManagerCoreStats {
  cs_risk_reject_count : Z;
  cs_portfolio_risk_reject_count : Z;
  cs_transition_applied_count : Z;
  cs_transition_reject_count : Z;
  cs_unknown_order_update_count : Z;
  cs_policy_reject_count : Z;
  cs_tracked_order_count : Z;
  cs_active_order_count : Z;
}.

#[export] Instance InFlightOrder_settable : Settable InFlightOrder := λ x,
  mkInFlightOrder (fo_request_id x) (fo_last_action x) (fo_status x) (fo_client_order_id x)
    (fo_exchange_order_id x) (fo_replace_target_client_order_id x) (fo_market_ticker x)
    (fo_side x) (fo_requested_qty_lots x) (fo_filled_qty_lots x) (fo_created_ts_ns x)
    (fo_last_update_ts_ns x).
#[export] Instance OrderManagerCore_settable : Settable OrderManagerCore := λ x,
  mkOrderManagerCore (omc_global_risk_config x) (omc_portfolio_risk_config x)
    (omc_in_flight_orders x) (omc_exchange_to_client x) (omc_risk_reject_count x)
    (omc_portfolio_risk_reject_count x) (omc_transition_applied_count x)
    (omc_transition_reject_count x) (omc_unknown_order_update_count x)
    (omc_policy_reject_count x).

(** ** Operations *)
Definition core_init (g : GlobalRiskConfig) (p : PortfolioRiskConfig) : OrderManagerCore :=
  mkOrderManagerCore g p ∅ ∅ 0 0 0 0 0 0.

Definition core_reset (c : OrderManagerCore) : OrderManagerCore :=
  c <| omc_in_flight_orders := ∅ |>
    <| omc_exchange_to_client := ∅ |>
    <| omc_risk_reject_count := 0 |>
    <| omc_portfolio_risk_reject_count := 0 |>
    <| omc_transition_applied_count := 0 |>
    <| omc_transition_reject_count := 0 |>
    <| omc_unknown_order_update_count := 0 |>
    <| omc_policy_reject_count := 0 |>.

Definition is_terminal_state (status : InFlightStatus) : bool :=
  match status with
  | InFlight_kFilled | InFlight_kCanceled | InFlight_kRejected => true
  | InFlight_kPending | InFlight_kAccepted | InFlight_kPartiallyFilled
  | InFlight_kReplaced => false
  end.

Definition to_in_flight_status (status : OmsOrderStatus) : option InFlightStatus :=
  match status with
  | OmsOrderStatus_kAccepted => Some InFlight_kAccepted
  | OmsOrderStatus_kRejected => Some InFlight_kRejected
  | OmsOrderStatus_kCanceled => Some InFlight_kCanceled
  | OmsOrderStatus_kPartiallyFilled => Some InFlight_kPartiallyFilled
  | OmsOrderStatus_kFilled => Some InFlight_kFilled
  | OmsOrderStatus_kReplaced => Some InFlight_kReplaced
  | OmsOrderStatus_kUnknown => None
  end.

Definition can_transition (current next : InFlightStatus) : bool :=
  if decide (current = next) then true else
  match current with
  | InFlight_kPending =>
    bool_decide (next = InFlight_kAccepted) || bool_decide (next = InFlight_kPartiallyFilled)
    || bool_decide (next = InFlight_kFilled) || bool_decide (next = InFlight_kCanceled)
    || bool_decide (next = InFlight_kRejected)
  | InFlight_kAccepted =>
    bool_decide (next = InFlight_kPartiallyFilled) || bool_decide (next = InFlight_kFilled)
    || bool_decide (next = InFlight_kCanceled) || bool_decide (next = InFlight_kRejected)
    || bool_decide (next = InFlight_kReplaced)
  | InFlight_kPartiallyFilled =>
    bool_decide (next = InFlight_kFilled) || bool_decide (next = InFlight_kCanceled)
    || bool_decide (next = InFlight_kRejected) || bool_decide (next = InFlight_kReplaced)
  | InFlight_kReplaced =>
    bool_decide (next = InFlight_kAccepted) || bool_decide (next = InFlight_kPartiallyFilled)
    || bool_decide (next = InFlight_kFilled) || bool_decide (next = InFlight_kCanceled)
    || bool_decide (next = InFlight_kRejected)
  | InFlight_kFilled | InFlight_kCanceled | InFlight_kRejected => false
  end.

Definition outstanding_qty (order : InFlightOrder) : QtyLots :=
  if decide (fo_requested_qty_lots order ≤ 0) then 0
  else if decide (fo_filled_qty_lots order ≤ 0) then fo_requested_qty_lots order
  else if decide (fo_requested_qty_lots order ≤ fo_filled_qty_lots order) then 0
  else fo_requested_qty_lots order ⊟ fo_filled_qty_lots order.

(** [to_timestamp_ns]: a clock reading in nanoseconds, 0 when it is not positive. *)
Definition to_timestamp_ns (elapsed : Z) : TimestampNs :=
  if decide (elapsed > 0) then elapsed else 0.

Definition core_stats (c : OrderManagerCore) : OrderManagerCoreStats :=
  let active_count :=
    map_fold (λ _ order acc, u64 (acc + if is_terminal_state (fo_status order) then 0 else 1))
      0 (omc_in_flight_orders c) in
  mkOrderManagerCoreStats (omc_risk_reject_count c) (omc_portfolio_risk_reject_count c)
    (omc_transition_applied_count c) (omc_transition_reject_count c)
    (omc_unknown_order_update_count c) (omc_policy_reject_count c)
    (Z.of_nat (size (omc_in_flight_orders c))) active_count.

Definition in_flight_order (c : OrderManagerCore) (client_order_id : string)
    : option InFlightOrderSnapshot :=
  match omc_in_flight_orders c !! client_order_id with
  | None => None
  | Some order =>
    Some (mkInFlightOrderSnapshot (fo_request_id order) (fo_last_action order)
            (fo_status order) (fo_client_order_id order) (fo_exchange_order_id order)
            (fo_replace_target_client_order_id order) (fo_market_ticker order) (fo_side order)
            (fo_requested_qty_lots order) (fo_filled_qty_lots order) (fo_created_ts_ns order)
            (fo_last_update_ts_ns order))
  end.

Definition policy_fail (c : OrderManagerCore) (msg : string)
    : OrderManagerCore * outcome unit :=
  (c <| omc_policy_reject_count ::= u64_inc |>, Err msg).

(** The tail of [validate_and_track_submission], once the target id is resolved. *)
Definition track_target (c : OrderManagerCore) (request_id : OrderRequestId)
    (intent : OrderIntent) (resolved_target_id : ClientOrderId)
    : OrderManagerCore * outcome unit :=
  let cid := oi_client_order_id intent in
  match omc_in_flight_orders c !! resolved_target_id with
  | None => policy_fail c "OMS target order is not tracked"
  | Some target =>
    if is_terminal_state (fo_status target)
    then policy_fail c "OMS target order is terminal"
    else if decide (oi_action intent = OmsAction_kReplace) then
      if decide (resolved_target_id = cid)
      then policy_fail c "OMS replace requires a new client_order_id"
      else if decide (is_Some (omc_in_flight_orders c !! cid))
      then policy_fail c "OMS replace client_order_id already exists"
      else if decide (oi_market_ticker intent ≠ "" ∧ fo_market_ticker target ≠ "" ∧
                      oi_market_ticker intent ≠ fo_market_ticker target)
      then policy_fail c "OMS replace target market mismatch"
      else
        let order :=
          mkInFlightOrder request_id (oi_action intent) InFlight_kPending cid None
            (Some resolved_target_id)
            (if decide (oi_market_ticker intent ≠ "") then oi_market_ticker intent
             else fo_market_ticker target)
            (if decide (oi_side intent ≠ Side_kUnknown) then oi_side intent else fo_side target)
            (if decide (oi_qty_lots intent > 0) then oi_qty_lots intent
             else fo_requested_qty_lots target)
            0 (oi_intent_ts_ns intent) 0 in
        (c <| omc_in_flight_orders ::= <[cid := order]> |>, Ok tt)
    else (c, Ok tt)
  end.

(** The middle part: the target ids of a cancel or replace are resolved. *)
Definition resolve_and_track (c : OrderManagerCore) (request_id : OrderRequestId)
    (intent : OrderIntent) : OrderManagerCore * outcome unit :=
  let target_by_client_id :=
    match oi_target_client_order_id intent with
    | Some target => Some target
    | None =>
      if decide (oi_action intent = OmsAction_kCancel) then Some (oi_client_order_id intent)
      else None
    end in
  let exchange_lookup :=
    match oi_target_exchange_order_id intent with
    | None => Ok None
    | Some eid =>
      match omc_exchange_to_client c !! eid with
      | None => Err "OMS target_exchange_order_id is unknown"
      | Some target => Ok (Some target)
      end
    end in
  match exchange_lookup with
  | Err msg => policy_fail c msg
  | Ok target_by_exchange_id =>
    match target_by_client_id, target_by_exchange_id with
    | Some t1, Some t2 =>
      if decide (t1 ≠ t2)
      then policy_fail c "OMS target ids resolve to different orders"
      else track_target c request_id intent t1
    | Some t, None | None, Some t => track_target c request_id intent t
    | None, None => policy_fail c "OMS intent is missing a resolvable target order"
    end
  end.

Definition validate_and_track_submission (c : OrderManagerCore) (request_id : OrderRequestId)
    (intent : OrderIntent) : OrderManagerCore * outcome unit :=
  let cid := oi_client_order_id intent in
  if decide (cid = "") then policy_fail c "Order intent must include client_order_id"
  else if decide (oi_action intent = OmsAction_kPlace) then
    if decide (is_Some (omc_in_flight_orders c !! cid))
    then policy_fail c "Order intent reuses an existing client_order_id"
    else
      let order :=
        mkInFlightOrder request_id (oi_action intent) InFlight_kPending cid None None
          (oi_market_ticker intent) (oi_side intent) (oi_qty_lots intent) 0
          (oi_intent_ts_ns intent) 0 in
      (c <| omc_in_flight_orders ::= <[cid := order]> |>, Ok tt)
  else if decide (oi_action intent ≠ OmsAction_kCancel ∧ oi_action intent ≠ OmsAction_kReplace)
  then policy_fail c "Unsupported OMS action for policy validation"
  else
    resolve_and_track c request_id intent.

(** The loop of [build_risk_snapshot] over the unordered map of tracked orders. *)
Definition risk_snapshot_step (market_ticker skip_client_order_id : string)
    (client_order_id : string) (order : InFlightOrder) (snapshot : GlobalRiskSnapshot)
    : GlobalRiskSnapshot :=
  if decide (skip_client_order_id ≠ "" ∧ client_order_id = skip_client_order_id)
  then snapshot
  else if is_terminal_state (fo_status order) then snapshot
  else
    let in_market := bool_decide (market_ticker ≠ "" ∧ fo_market_ticker order = market_ticker) in
    mkGlobalRiskSnapshot
      (u64_inc (gs_active_orders_global snapshot))
      (if in_market then u64_inc (gs_active_orders_market snapshot)
       else gs_active_orders_market snapshot)
      (gs_outstanding_qty_global snapshot ⊞ outstanding_qty order)
      (if in_market then gs_outstanding_qty_market snapshot ⊞ outstanding_qty order
       else gs_outstanding_qty_market snapshot).

Definition build_risk_snapshot (c : OrderManagerCore)
    (market_ticker skip_client_order_id : string) : GlobalRiskSnapshot :=
  map_fold (risk_snapshot_step market_ticker skip_client_order_id)
    (mkGlobalRiskSnapshot 0 0 0 0) (omc_in_flight_orders c).

(** Returns the decision only when it rejects; the caller's [error_message] is then
    [gd_reason_message]. *)
Definition evaluate_global_risk (c : OrderManagerCore) (intent : OrderIntent)
    : OrderManagerCore * option GlobalRiskDecision :=
  let snapshot := build_risk_snapshot c (oi_market_ticker intent) (oi_client_order_id intent) in
  let decision := global_evaluate (omc_global_risk_config c) intent snapshot in
  if gd_allow decision then (c, None)
  else (c <| omc_risk_reject_count ::= u64_inc |>, Some decision).

Definition evaluate_portfolio_risk (c : OrderManagerCore) (intent : OrderIntent)
    (snapshot : PortfolioRiskSnapshot) : OrderManagerCore * option PortfolioRiskDecision :=
  let decision := portfolio_evaluate (omc_portfolio_risk_config c) intent snapshot in
  if pd_allow decision then (c, None)
  else (c <| omc_portfolio_risk_reject_count ::= u64_inc |>, Some decision).

Definition make_global_risk_reject_update (intent : OrderIntent)
    (decision : GlobalRiskDecision) (clock : Z) : OrderStateUpdate :=
  mkOrderStateUpdate (oi_exchange intent) OmsOrderStatus_kRejected (oi_client_order_id intent)
    None (oi_market_ticker intent) (to_timestamp_ns clock)
    (OmsUpdateData_Reject
       (mkOrderReject (oi_client_order_id intent) None
          (global_reject_code_name (gd_code decision)) (gd_reason_message decision)))
    "".

Definition make_portfolio_risk_reject_update (intent : OrderIntent)
    (decision : PortfolioRiskDecision) (clock : Z) : OrderStateUpdate :=
  mkOrderStateUpdate (oi_exchange intent) OmsOrderStatus_kRejected (oi_client_order_id intent)
    None (oi_market_ticker intent) (to_timestamp_ns clock)
    (OmsUpdateData_Reject
       (mkOrderReject (oi_client_order_id intent) None
          (portfolio_reject_code_name (pd_code decision)) (pd_reason_message decision)))
    "".

(** The order an update is about: by client id, else by exchange id. *)
Definition find_update_order (c : OrderManagerCore) (update : OrderStateUpdate)
    : option (string * InFlightOrder) :=
  match omc_in_flight_orders c !! ou_client_order_id update with
  | Some order => Some (ou_client_order_id update, order)
  | None =>
    match ou_exchange_order_id update with
    | None => None
    | Some eid =>
      match omc_exchange_to_client c !! eid with
      | None => None
      | Some cid =>
        match omc_in_flight_orders c !! cid with
        | Some order => Some (cid, order)
        | None => None
        end
      end
    end
  end.

(** The fill branch of [apply_update_transition]: the order and the fill exchange
    their known sides, then the filled quantity moves. *)
Definition apply_fill_to_order (next : InFlightStatus) (order : InFlightOrder)
    (fill : OrderFill) : InFlightOrder * OrderFill :=
  let fill :=
    if decide (of_side fill = Side_kUnknown ∧ fo_side order ≠ Side_kUnknown)
    then fill <| of_side := fo_side order |> else fill in
  let order :=
    if decide (fo_side order = Side_kUnknown ∧ of_side fill ≠ Side_kUnknown)
    then order <| fo_side := of_side fill |> else order in
  let order :=
    if decide (next = InFlight_kFilled ∧ fo_requested_qty_lots order > 0)
    then order <| fo_filled_qty_lots := fo_requested_qty_lots order |>
    else if decide (of_fill_qty_lots fill > fo_filled_qty_lots order)
    then order <| fo_filled_qty_lots := of_fill_qty_lots fill |>
    else order in
  (order, fill).

Definition apply_update_data (next : InFlightStatus) (order : InFlightOrder)
    (data : OmsUpdateData) : InFlightOrder * OmsUpdateData :=
  match data with
  | OmsUpdateData_Fill fill =>
    let '(order, fill) := apply_fill_to_order next order fill in
    (order, OmsUpdateData_Fill fill)
  | data => (order, data)
  end.

(** The unconditional part of an applied transition: status, time stamp, market. *)
Definition stamp_order (next_status : InFlightStatus) (update : OrderStateUpdate) (clock : Z)
    (order : InFlightOrder) : InFlightOrder :=
  let order := order <| fo_status := next_status |> in
  let order :=
    order <| fo_last_update_ts_ns :=
               if decide (ou_recv_ts_ns update ≠ 0) then ou_recv_ts_ns update
               else to_timestamp_ns clock |> in
  if decide (ou_market_ticker update ≠ "")
  then order <| fo_market_ticker := ou_market_ticker update |> else order.

(** A non-empty exchange id is recorded in the order and in the index. *)
Definition index_exchange_id (index : gmap string string) (update : OrderStateUpdate)
    (order : InFlightOrder) : InFlightOrder * gmap string string :=
  match ou_exchange_order_id update with
  | Some eid =>
    if decide (eid ≠ "")
    then (order <| fo_exchange_order_id := Some eid |>,
          <[eid := fo_client_order_id order]> index)
    else (order, index)
  | None => (order, index)
  end.

(** [apply_update_transition]; [Ok] carries the update as the call leaves it (a fill
    may have received the side of the order). *)
Definition apply_update_transition (c : OrderManagerCore) (update : OrderStateUpdate)
    (clock : Z) : OrderManagerCore * outcome OrderStateUpdate :=
  match to_in_flight_status (ou_status update) with
  | None =>
    (c <| omc_transition_reject_count ::= u64_inc |>, Err "Unsupported OMS transition status")
  | Some next_status =>
    match find_update_order c update with
    | None =>
      (c <| omc_unknown_order_update_count ::= u64_inc |>,
       Err "Order update does not match an in-flight order")
    | Some (key, order) =>
      if can_transition (fo_status order) next_status then
        let order := stamp_order next_status update clock order in
        let '(order, index) := index_exchange_id (omc_exchange_to_client c) update order in
        let '(order, data) := apply_update_data next_status order (ou_data update) in
        (c <| omc_in_flight_orders ::= <[key := order]> |>
           <| omc_exchange_to_client := index |>
           <| omc_transition_applied_count ::= u64_inc |>,
         Ok (update <| ou_data := data |>))
      else
        (c <| omc_transition_reject_count ::= u64_inc |>,
         Err "Rejected OMS transition for in-flight order")
    end
  end.

(** ** The component as a state machine: the calls the order manager makes *)
Inductive core_step : OrderManagerCore → OrderManagerCore → Prop :=
  | core_step_submit c request_id intent :
      core_step c (validate_and_track_submission c request_id intent).1
  | core_step_global c intent :
      core_step c (evaluate_global_risk c intent).1
  | core_step_portfolio c intent snapshot :
      core_step c (evaluate_portfolio_risk c intent snapshot).1
  | core_step_update c update clock :
      core_step c (apply_update_transition c update clock).1.

(** One edge of the order lifecycle. *)
Definition status_edge (s s' : InFlightStatus) : Prop := can_transition s s' = true.

(** ** What an operation leaves of the tracked orders *)

(** The fields of an order that no later call changes. *)
Definition same_identity (o o' : InFlightOrder) : Prop :=
  fo_request_id o' = fo_request_id o ∧ fo_last_action o' = fo_last_action o ∧
  fo_client_order_id o' = fo_client_order_id o ∧
  fo_replace_target_client_order_id o' = fo_replace_target_client_order_id o ∧
  fo_requested_qty_lots o' = fo_requested_qty_lots o ∧
  fo_created_ts_ns o' = fo_created_ts_ns o.

#[export] Instance same_identity_preorder : PreOrder same_identity.
Proof.
  split; unfold same_identity.
  - intros o. by split_and!.
  - intros o1 o2 o3 H1 H2. destruct_and!. split_and!; congruence.
Qed.

(** The shape of a core.  What exactly the index and the orders say about exchange ids is
    [ids_recorded], relative to the ids the updates reported. *)
Record core_wf (c : OrderManagerCore) : Prop := {
  wf_key k o : omc_in_flight_orders c !! k = Some o → fo_client_order_id o = k ∧ k ≠ "";
  wf_index e k : omc_exchange_to_client c !! e = Some k → is_Some (omc_in_flight_orders c !! k);
  wf_exchange_id k o e :
    omc_in_flight_orders c !! k = Some o → fo_exchange_order_id o = Some e →
    e ≠ "" ∧ is_Some (omc_exchange_to_client c !! e);
  wf_origin k o :
    omc_in_flight_orders c !! k = Some o →
    (fo_last_action o = OmsAction_kPlace ∧ fo_replace_target_client_order_id o = None) ∨
    (fo_last_action o = OmsAction_kReplace ∧
     ∃ t, fo_replace_target_client_order_id o = Some t ∧ t ≠ k ∧
          is_Some (omc_in_flight_orders c !! t));
  wf_filled k o : omc_in_flight_orders c !! k = Some o → 0 ≤ fo_filled_qty_lots o;
}.

(** The fill branch touches the side and the filled quantity only. *)
Lemma apply_fill_to_order_spec next o f o' f' :
  apply_fill_to_order next o f = (o', f') →
  same_identity o o' ∧ fo_status o' = fo_status o ∧
  fo_exchange_order_id o' = fo_exchange_order_id o ∧
  (0 ≤ fo_filled_qty_lots o → 0 ≤ fo_filled_qty_lots o') ∧
  (next ≠ InFlight_kFilled → fo_filled_qty_lots o ≤ fo_filled_qty_lots o') ∧
  f' = f <| of_side := of_side f' |>.
Proof.
  unfold apply_fill_to_order, same_identity. destruct f.
  intros [= <- <-]. repeat case_decide; simpl in *; split_and!; try done;
    intros; (lia || tauto).
Qed.

Lemma apply_update_data_spec next o d o' d' :
  apply_update_data next o d = (o', d') →
  same_identity o o' ∧ fo_status o' = fo_status o ∧
  fo_exchange_order_id o' = fo_exchange_order_id o ∧
  (0 ≤ fo_filled_qty_lots o → 0 ≤ fo_filled_qty_lots o') ∧
  (next ≠ InFlight_kFilled → fo_filled_qty_lots o ≤ fo_filled_qty_lots o').
Proof.
  unfold apply_update_data. destruct d as [|a|r|f]; try (intros [= <- <-]; by split_and!).
  destruct (apply_fill_to_order next o f) as [o4 f'] eqn:Hf. intros [= <- <-].
  apply apply_fill_to_order_spec in Hf. destruct_and!. by split_and!.
Qed.

Lemma stamp_order_spec next u clock o :
  same_identity o (stamp_order next u clock o) ∧ fo_status (stamp_order next u clock o) = next ∧
  fo_exchange_order_id (stamp_order next u clock o) = fo_exchange_order_id o ∧
  fo_filled_qty_lots (stamp_order next u clock o) = fo_filled_qty_lots o.
Proof. unfold stamp_order, same_identity. case_decide; by split_and!. Qed.

Lemma index_exchange_id_spec index u o o' index' :
  index_exchange_id index u o = (o', index') →
  same_identity o o' ∧ fo_status o' = fo_status o ∧
  fo_filled_qty_lots o' = fo_filled_qty_lots o ∧
  ((index' = index ∧ fo_exchange_order_id o' = fo_exchange_order_id o) ∨
   (∃ e, e ≠ "" ∧ fo_exchange_order_id o' = Some e ∧
         index' = <[e := fo_client_order_id o]> index)).
Proof.
  unfold index_exchange_id, same_identity. intros H. split_cases; naive_solver.
Qed.

(** Every call of [apply_update_transition] either fails and keeps the order book, or
    moves exactly one tracked order along an edge of the lifecycle. *)
Lemma apply_update_transition_inv c u clock c' r :
  apply_update_transition c u clock = (c', r) →
  omc_global_risk_config c' = omc_global_risk_config c ∧
  omc_portfolio_risk_config c' = omc_portfolio_risk_config c ∧
  ((∃ msg, r = Err msg ∧ omc_in_flight_orders c' = omc_in_flight_orders c ∧
           omc_exchange_to_client c' = omc_exchange_to_client c) ∨
   (∃ k o o' u', r = Ok u' ∧ find_update_order c u = Some (k, o) ∧
     omc_in_flight_orders c !! k = Some o ∧
     omc_in_flight_orders c' = <[k:=o']> (omc_in_flight_orders c) ∧
     same_identity o o' ∧ status_edge (fo_status o) (fo_status o') ∧
     to_in_flight_status (ou_status u) = Some (fo_status o') ∧
     (0 ≤ fo_filled_qty_lots o → 0 ≤ fo_filled_qty_lots o') ∧
     (fo_status o' ≠ InFlight_kFilled → fo_filled_qty_lots o ≤ fo_filled_qty_lots o') ∧
     ((omc_exchange_to_client c' = omc_exchange_to_client c ∧
       fo_exchange_order_id o' = fo_exchange_order_id o) ∨
      (∃ e, e ≠ "" ∧ fo_exchange_order_id o' = Some e ∧
            omc_exchange_to_client c' =
              <[e := fo_client_order_id o]> (omc_exchange_to_client c))))).
Proof.
  unfold apply_update_transition.
  destruct (to_in_flight_status (ou_status u)) as [next|] eqn:Hnext; [|naive_solver].
  destruct (find_update_order c u) as [[k o]|] eqn:Hfind; [|naive_solver].
  destruct (can_transition (fo_status o) next) eqn:Hcan; [|naive_solver].
  assert (omc_in_flight_orders c !! k = Some o) as Hk.
  { unfold find_update_order in Hfind. split_cases; done. }
  destruct (stamp_order_spec next u clock o) as ([Hid2 Hcid2] & Hst2 & Hex2 & Hfl2).
  destruct (index_exchange_id _ u (stamp_order next u clock o)) as [o3 index] eqn:Hix.
  apply index_exchange_id_spec in Hix as (Hid3 & Hst3 & Hfl3 & Hdx).
  assert (same_identity o o3) as Hid by (etrans; [by split|done]).
  destruct Hcid2 as (_ & Hcid2 & _). rewrite Hcid2, Hex2 in Hdx. rewrite Hst2 in Hst3.
  rewrite Hfl2 in Hfl3. clear Hid2 Hcid2 Hst2 Hex2 Hfl2 Hid3.
  destruct (apply_update_data next o3 (ou_data u)) as [o4 d] eqn:Hd.
  apply apply_update_data_spec in Hd as (Hid4 & Hst4 & Hex4 & Hnn & Hmono).
  intros [= <- <-]; simpl. split; [done|]. split; [done|]. right.
  exists k, o, o4, (u <| ou_data := d |>).
  unfold status_edge. rewrite Hst4, Hst3, Hex4. rewrite Hfl3 in Hnn, Hmono.
  split_and!; try done. by etrans.
Qed.

(** ** Which submissions are accepted, and what they track *)

(** The order id [t] an intent targets: every id the intent names must lead to [t];
    a cancel that names no client id names its own. *)
Definition resolves_target (c : OrderManagerCore) (intent : OrderIntent) (t : string) : Prop :=
  match oi_target_client_order_id intent with
  | Some t' => t = t'
  | None => oi_action intent = OmsAction_kCancel → t = oi_client_order_id intent
  end ∧
  match oi_target_exchange_order_id intent with
  | Some e => omc_exchange_to_client c !! e = Some t
  | None => True
  end ∧
  (oi_action intent = OmsAction_kCancel ∨ is_Some (oi_target_client_order_id intent) ∨
   is_Some (oi_target_exchange_order_id intent)).

Definition live_target (c : OrderManagerCore) (intent : OrderIntent) (t : string)
    (o : InFlightOrder) : Prop :=
  resolves_target c intent t ∧ omc_in_flight_orders c !! t = Some o ∧
  is_terminal_state (fo_status o) = false.

Definition same_market (a b : string) : Prop := a = "" ∨ b = "" ∨ a = b.

Definition acceptable (c : OrderManagerCore) (intent : OrderIntent) : Prop :=
  oi_client_order_id intent ≠ "" ∧
  match oi_action intent with
  | OmsAction_kPlace => omc_in_flight_orders c !! oi_client_order_id intent = None
  | OmsAction_kCancel => ∃ t o, live_target c intent t o
  | OmsAction_kReplace =>
    omc_in_flight_orders c !! oi_client_order_id intent = None ∧
    ∃ t o, live_target c intent t o ∧ same_market (oi_market_ticker intent) (fo_market_ticker o)
  | OmsAction_kUnknown => False
  end.

(** The order a successful place or replace starts to track. *)
Definition tracked_as (c : OrderManagerCore) (request_id : Z) (intent : OrderIntent)
    (o : InFlightOrder) : Prop :=
  fo_request_id o = request_id ∧ fo_last_action o = oi_action intent ∧
  fo_status o = InFlight_kPending ∧ fo_client_order_id o = oi_client_order_id intent ∧
  fo_exchange_order_id o = None ∧ fo_filled_qty_lots o = 0 ∧
  fo_created_ts_ns o = oi_intent_ts_ns intent ∧
  (oi_qty_lots intent > 0 → fo_requested_qty_lots o = oi_qty_lots intent) ∧
  (oi_side intent ≠ Side_kUnknown → fo_side o = oi_side intent) ∧
  (oi_market_ticker intent ≠ "" → fo_market_ticker o = oi_market_ticker intent) ∧
  match oi_action intent with
  | OmsAction_kReplace =>
    ∃ t target, live_target c intent t target ∧ t ≠ oi_client_order_id intent ∧
      fo_replace_target_client_order_id o = Some t ∧
      (oi_qty_lots intent ≤ 0 → fo_requested_qty_lots o = fo_requested_qty_lots target)
  | _ => fo_replace_target_client_order_id o = None ∧
         fo_requested_qty_lots o = oi_qty_lots intent
  end.

Lemma resolves_target_unique c intent t1 t2 :
  resolves_target c intent t1 → resolves_target c intent t2 → t1 = t2.
Proof.
  unfold resolves_target. intros H1 H2.
  destruct (oi_target_client_order_id intent), (oi_target_exchange_order_id intent),
    (oi_action intent); unfold is_Some in *; naive_solver.
Qed.

(** The outcome of a submission, on every branch. *)
Definition submission_outcome (c : OrderManagerCore) (request_id : Z) (intent : OrderIntent)
    (res : OrderManagerCore * outcome unit) : Prop :=
  (acceptable c intent ∧ res.2 = Ok tt ∧
   (if decide (oi_action intent = OmsAction_kCancel) then res.1 = c
    else ∃ o, tracked_as c request_id intent o ∧
              res.1 = c <| omc_in_flight_orders ::= <[oi_client_order_id intent := o]> |>)) ∨
  (¬ acceptable c intent ∧ (∃ msg, res.2 = Err msg) ∧
   res.1 = c <| omc_policy_reject_count ::= u64_inc |>).

Lemma policy_fail_outcome c request_id intent msg :
  ¬ acceptable c intent →
  submission_outcome c request_id intent (policy_fail c msg).
Proof. intros Hacc. right. split; [done|]. split; [by eexists|done]. Qed.

Lemma track_target_not_live c intent t :
  resolves_target c intent t →
  (∀ o, omc_in_flight_orders c !! t = Some o → is_terminal_state (fo_status o) = true) →
  (oi_action intent = OmsAction_kCancel ∨ oi_action intent = OmsAction_kReplace) →
  ¬ acceptable c intent.
Proof.
  intros Hres Hdead Hact [_ Hacc].
  assert (∃ t' o, live_target c intent t' o) as (t' & o & Hr & Ho & Ht).
  { destruct Hact as [Hact|Hact]; rewrite Hact in Hacc; naive_solver. }
  rewrite (resolves_target_unique _ _ _ _ Hr Hres) in Ho. apply Hdead in Ho. congruence.
Qed.

Lemma replace_acceptable_inv c intent t target :
  oi_action intent = OmsAction_kReplace → live_target c intent t target →
  acceptable c intent →
  omc_in_flight_orders c !! oi_client_order_id intent = None ∧
  same_market (oi_market_ticker intent) (fo_market_ticker target).
Proof.
  intros Hrep (Hres & Ht & _) [_ Hacc]. rewrite Hrep in Hacc.
  destruct Hacc as (Hn & t' & o' & (Hr & Ho & _) & Hm).
  rewrite (resolves_target_unique _ _ _ _ Hr Hres) in Ho. by simplify_eq.
Qed.

Lemma track_target_outcome c request_id intent t :
  oi_client_order_id intent ≠ "" →
  (oi_action intent = OmsAction_kCancel ∨ oi_action intent = OmsAction_kReplace) →
  resolves_target c intent t →
  submission_outcome c request_id intent (track_target c request_id intent t).
Proof.
  intros Hcid Hact Hres. unfold track_target.
  destruct (omc_in_flight_orders c !! t) as [target|] eqn:Ht;
    [|apply policy_fail_outcome, (track_target_not_live _ _ t); naive_solver].
  destruct (is_terminal_state (fo_status target)) eqn:Hterm;
    [apply policy_fail_outcome, (track_target_not_live _ _ t); naive_solver|].
  assert (live_target c intent t target) as Hlive by done.
  destruct (decide (oi_action intent = OmsAction_kReplace)) as [Hrep|Hrep].
  2: { left. destruct Hact as [Hact|?]; [|done]. unfold acceptable. rewrite Hact.
       split; [split; [done|by exists t, target]|done]. }
  destruct (decide (t = oi_client_order_id intent)) as [->|Hne].
  { apply policy_fail_outcome. intros [??]%(replace_acceptable_inv _ _ _ _ Hrep Hlive). congruence. }
  destruct (decide (is_Some _)) as [[o Ho]|Hnone].
  { apply policy_fail_outcome. intros [??]%(replace_acceptable_inv _ _ _ _ Hrep Hlive). congruence. }
  apply eq_None_not_Some in Hnone.
  destruct (decide (_ ∧ _)) as [(? & ? & ?)|Hm].
  { apply policy_fail_outcome.
    intros [_ [?|[?|?]]]%(replace_acceptable_inv _ _ _ _ Hrep Hlive); done. }
  left. unfold acceptable, tracked_as. rewrite Hrep.
  split; [split; [done|]; split; [done|]; exists t, target; split; [done|]|].
  { unfold same_market. destruct (decide (oi_market_ticker intent = "")); [by left|].
    destruct (decide (fo_market_ticker target = "")); [by right; left|].
    destruct (decide (oi_market_ticker intent = fo_market_ticker target)); tauto. }
  split; [done|]. eexists. split; [|reflexivity]. simpl.
  split_and!; try done; try (intros; by rewrite decide_True).
  exists t, target. split_and!; try done. intros. rewrite decide_False by lia. done.
Qed.

Lemma resolve_target_outcome c request_id intent :
  oi_client_order_id intent ≠ "" →
  (oi_action intent = OmsAction_kCancel ∨ oi_action intent = OmsAction_kReplace) →
  submission_outcome c request_id intent (resolve_and_track c request_id intent).
Proof.
  intros Hcid Hact. unfold resolve_and_track.
  assert ((∀ t, ¬ resolves_target c intent t) → ¬ acceptable c intent) as Hfail.
  { intros Hno [_ Hacc]. unfold live_target in Hacc.
    destruct Hact as [Hact|Hact]; rewrite Hact in Hacc; naive_solver. }
  destruct (oi_target_client_order_id intent) as [t1|] eqn:Ht1,
    (oi_target_exchange_order_id intent) as [e|] eqn:He;
    try (destruct (omc_exchange_to_client c !! e) as [t2|] eqn:Hidx);
    repeat case_decide;
    first [apply policy_fail_outcome, Hfail | apply track_target_outcome; [done..|]];
    unfold resolves_target; rewrite Ht1, He; unfold is_Some; naive_solver.
Qed.

Lemma validate_outcome c request_id intent :
  submission_outcome c request_id intent (validate_and_track_submission c request_id intent).
Proof.
  unfold validate_and_track_submission.
  destruct (decide (oi_client_order_id intent = "")) as [|Hcid].
  { apply policy_fail_outcome. by intros []. }
  destruct (oi_action intent) eqn:Hact; simpl.
  - apply policy_fail_outcome. intros [_ Hacc]. by rewrite Hact in Hacc.
  - destruct (decide (is_Some _)) as [[o Ho]|Hnone].
    { apply policy_fail_outcome. intros [_ Hacc]. rewrite Hact in Hacc. congruence. }
    left. unfold acceptable, tracked_as. rewrite Hact.
    split; [split; [done|by apply eq_None_not_Some]|]. split; [done|].
    eexists. split; [|reflexivity]. by split_and!.
  - apply resolve_target_outcome; auto.
  - apply resolve_target_outcome; auto.
Qed.

(** ** The well-formedness invariant *)
Lemma core_wf_init g p : core_wf (core_init g p).
Proof. split; intros *; simpl; by rewrite lookup_empty. Qed.

(** Only the order map and the index matter for well-formedness. *)
Lemma core_wf_same_maps c c' :
  omc_in_flight_orders c' = omc_in_flight_orders c →
  omc_exchange_to_client c' = omc_exchange_to_client c →
  core_wf c → core_wf c'.
Proof. intros Ho Hx [???? ?]. split; rewrite ?Ho, ?Hx; eauto. Qed.

Lemma core_wf_track c request_id intent o :
  core_wf c → oi_client_order_id intent ≠ "" → oi_action intent ≠ OmsAction_kCancel →
  acceptable c intent → tracked_as c request_id intent o →
  core_wf (c <| omc_in_flight_orders ::= <[oi_client_order_id intent := o]> |>).
Proof.
  intros [Hkey Hidx Hexch Horig Hfil] Hne Hact [_ Hacc]
    (_ & Hla & _ & Hcid & Hnoex & Hfill & _ & _ & _ & _ & Htgt).
  assert (omc_in_flight_orders c !! oi_client_order_id intent = None) as Hfresh.
  { destruct (oi_action intent); naive_solver. }
  split; simpl; intros *.
  - intros [[<- <-]|[? ?%Hkey]]%lookup_insert_Some; naive_solver.
  - intros ?%Hidx. rewrite lookup_insert_is_Some'. naive_solver.
  - intros [[<- <-]|[? ?]]%lookup_insert_Some ?; [congruence|eauto].
  - intros [[<- <-]|[? Hk%Horig]]%lookup_insert_Some.
    + rewrite Hla. destruct (oi_action intent); [naive_solver..|].
      right. split; [done|]. destruct Htgt as (t & tg & (_ & Ht & _) & Hne' & Heq & _).
      exists t. rewrite lookup_insert_ne by done. eauto.
    + destruct Hk as [?|(? & t & ? & ? & ?)]; [by left|].
      right. split; [done|]. exists t. rewrite lookup_insert_is_Some'. eauto.
  - intros [[<- <-]|[? ?]]%lookup_insert_Some; [lia|eauto].
Qed.

Lemma core_wf_update c u clock :
  core_wf c → core_wf (apply_update_transition c u clock).1.
Proof.
  intros Hwf. destruct (apply_update_transition c u clock) as [c' r] eqn:Heq. simpl.
  apply apply_update_transition_inv in Heq as
    (_ & _ & [(msg & _ & Ho & Hx)|(k & o & o' & u' & _ & _ & Hk & Ho & Hid & _ & _ & Hnn & _ & Hx)]).
  { by apply (core_wf_same_maps c). }
  destruct Hwf as [Hkey Hidx Hexch Horig Hfil].
  destruct Hid as (_ & Hla & Hcid & Htgt & _).
  assert (∀ k', is_Some (omc_in_flight_orders c !! k') → is_Some (omc_in_flight_orders c' !! k'))
    as Hdom by (intros; rewrite Ho, lookup_insert_is_Some'; auto).
  assert (∀ e, is_Some (omc_exchange_to_client c !! e) → is_Some (omc_exchange_to_client c' !! e))
    as Hdx.
  { destruct Hx as [[-> _]|(e & _ & _ & ->)]; [done|].
    intros. rewrite lookup_insert_is_Some'. auto. }
  split; intros *.
  - rewrite Ho. intros [[<- <-]|[? ?%Hkey]]%lookup_insert_Some; [|naive_solver].
    rewrite Hcid. by apply Hkey.
  - destruct Hx as [[-> _]|(e' & _ & _ & ->)]; [eauto|].
    intros [[<- <-]|[? ?]]%lookup_insert_Some; [|eauto].
    apply Hdom. rewrite (proj1 (Hkey k o Hk)). eauto.
  - rewrite Ho. intros [[<- <-]|[? Hk']]%lookup_insert_Some He.
    + destruct Hx as [[Hx Hex]|(e' & ? & Hex & ->)].
      * rewrite Hex in He. rewrite Hx. eauto.
      * rewrite Hex in He. simplify_eq. rewrite lookup_insert_eq. eauto.
    + destruct (Hexch _ _ _ Hk' He). eauto.
  - rewrite Ho at 1. intros [[<- <-]|[? Hk']]%lookup_insert_Some.
    + rewrite Hla, Htgt. destruct (Horig _ _ Hk) as [?|(? & t & ? & ? & ?)]; naive_solver.
    + destruct (Horig _ _ Hk') as [?|(? & t & ? & ? & ?)]; naive_solver.
  - rewrite Ho. intros [[<- <-]|[? ?]]%lookup_insert_Some; eauto.
Qed.

Lemma core_step_wf c c' : core_step c c' → core_wf c → core_wf c'.
Proof.
  destruct 1 as [c rid intent|c intent|c intent s|c u clock]; intros Hwf.
  - destruct (validate_outcome c rid intent) as [(Hacc & _ & Hc)|(_ & _ & ->)];
      [|by apply (core_wf_same_maps c)].
    case_decide; [by rewrite Hc|]. destruct Hc as (o & Ho & ->).
    apply core_wf_track with rid; try done. by apply Hacc.
  - unfold evaluate_global_risk. case_match; by apply (core_wf_same_maps c).
  - unfold evaluate_portfolio_risk. case_match; by apply (core_wf_same_maps c).
  - by apply core_wf_update.
Qed.

(** ** Which exchange ids were reported for which order

    An applied update with a non-empty exchange id reports that id for the order the
    update was matched to.  [core_history g p h c]: the calls of a session lead from the
    constructed (or reset) core to [c], and [h] lists the reports in order. *)
Definition reported (k : string) (update : OrderStateUpdate) : list (string * string) :=
  match ou_exchange_order_id update with
  | Some e => if decide (e ≠ "") then [(e, k)] else []
  | None => []
  end.

Definition report (c : OrderManagerCore) (update : OrderStateUpdate) (clock : Z)
    : list (string * string) :=
  match (apply_update_transition c update clock).2, find_update_order c update with
  | Ok _, Some (k, _) => reported k update
  | _, _ => []
  end.

Inductive core_history (g : GlobalRiskConfig) (p : PortfolioRiskConfig)
    : list (string * string) → OrderManagerCore → Prop :=
  | history_init : core_history g p [] (core_init g p)
  | history_submit h c request_id intent :
      core_history g p h c →
      core_history g p h (validate_and_track_submission c request_id intent).1
  | history_global h c intent :
      core_history g p h c → core_history g p h (evaluate_global_risk c intent).1
  | history_portfolio h c intent snapshot :
      core_history g p h c →
      core_history g p h (evaluate_portfolio_risk c intent snapshot).1
  | history_update h c update clock :
      core_history g p h c →
      core_history g p (h ++ report c update clock) (apply_update_transition c update clock).1.

(** The order that reported the id [e] last, and the id last reported for the order [k]. *)
Definition last_reporter (e : string) (h : list (string * string)) : option string :=
  snd <$> last (filter (λ r, r.1 = e) h).

Definition last_reported_id (k : string) (h : list (string * string)) : option string :=
  fst <$> last (filter (λ r, r.2 = k) h).

(** No exchange id was reported for two different orders. *)
Definition ids_distinct (h : list (string * string)) : Prop :=
  ∀ e k1 k2, (e, k1) ∈ h → (e, k2) ∈ h → k1 = k2.

Lemma last_reporter_snoc e h e' k :
  last_reporter e (h ++ [(e', k)]) = if decide (e' = e) then Some k else last_reporter e h.
Proof.
  unfold last_reporter. rewrite filter_app, filter_cons, filter_nil. simpl.
  case_decide; [by rewrite last_snoc|by rewrite app_nil_r].
Qed.

Lemma last_reported_id_snoc k h e k' :
  last_reported_id k (h ++ [(e, k')]) =
  if decide (k' = k) then Some e else last_reported_id k h.
Proof.
  unfold last_reported_id. rewrite filter_app, filter_cons, filter_nil. simpl.
  case_decide; [by rewrite last_snoc|by rewrite app_nil_r].
Qed.

Lemma last_reporter_elem e h k : last_reporter e h = Some k → (e, k) ∈ h.
Proof.
  unfold last_reporter. rewrite fmap_Some. intros ([e' k'] & Hl & ->).
  apply last_Some_elem_of, list_elem_of_filter in Hl as [<- Hin]. done.
Qed.

Lemma last_reported_id_elem e h k : last_reported_id k h = Some e → (e, k) ∈ h.
Proof.
  unfold last_reported_id. rewrite fmap_Some. intros ([e' k'] & Hl & ->).
  apply last_Some_elem_of, list_elem_of_filter in Hl as [<- Hin]. done.
Qed.

Lemma last_reporter_is_Some e h k : (e, k) ∈ h → is_Some (last_reporter e h).
Proof.
  intros Hin. unfold last_reporter. rewrite fmap_is_Some, last_is_Some. intros Hnil.
  assert ((e, k) ∈ filter (λ r : string * string, r.1 = e) h) as H
    by (apply list_elem_of_filter; done).
  rewrite Hnil in H. by apply not_elem_of_nil in H.
Qed.

(** What the two indexes of the core say about the reports. *)
Record ids_recorded (h : list (string * string)) (c : OrderManagerCore) : Prop := {
  ir_index e : omc_exchange_to_client c !! e = last_reporter e h;
  ir_order k o : omc_in_flight_orders c !! k = Some o →
    fo_exchange_order_id o = last_reported_id k h;
  ir_tracked e k : (e, k) ∈ h → is_Some (omc_in_flight_orders c !! k);
}.

Lemma ids_recorded_same_maps h c c' :
  omc_in_flight_orders c' = omc_in_flight_orders c →
  omc_exchange_to_client c' = omc_exchange_to_client c →
  ids_recorded h c → ids_recorded h c'.
Proof. intros Ho Hx [???]. split; rewrite ?Ho, ?Hx; eauto. Qed.

Lemma ids_recorded_submit h c rid intent :
  ids_recorded h c → ids_recorded h (validate_and_track_submission c rid intent).1.
Proof.
  intros Hir. destruct (validate_outcome c rid intent) as [(Hacc & _ & Hc)|(_ & _ & ->)];
    [|by apply (ids_recorded_same_maps h c)].
  case_decide as Hact; [by rewrite Hc|]. destruct Hc as (o & Ho & ->).
  assert (omc_in_flight_orders c !! oi_client_order_id intent = None) as Hfresh.
  { destruct Hacc as [_ Hacc]. destruct (oi_action intent); naive_solver. }
  destruct Hir as [Hi Hord Htr]. split; simpl; [done|..].
  - intros k o' [[<- <-]|[? ?]]%lookup_insert_Some; [|eauto].
    destruct Ho as (_ & _ & _ & _ & -> & _). symmetry.
    apply eq_None_not_Some. intros [e [? ?]%last_reported_id_elem%Htr]. congruence.
  - intros e k Hin. rewrite lookup_insert_is_Some'. eauto.
Qed.

(** An applied update leaves the ids as it found them, or records the one it reports. *)
Lemma apply_update_ids c u clock k o u' :
  find_update_order c u = Some (k, o) → fo_client_order_id o = k →
  (apply_update_transition c u clock).2 = Ok u' →
  ∃ o', omc_in_flight_orders (apply_update_transition c u clock).1
          = <[k := o']> (omc_in_flight_orders c) ∧
  ((reported k u = [] ∧ fo_exchange_order_id o' = fo_exchange_order_id o ∧
    omc_exchange_to_client (apply_update_transition c u clock).1 = omc_exchange_to_client c) ∨
   (∃ e, reported k u = [(e, k)] ∧ fo_exchange_order_id o' = Some e ∧
    omc_exchange_to_client (apply_update_transition c u clock).1
      = <[e := k]> (omc_exchange_to_client c))).
Proof.
  intros Hfind Hcid. unfold apply_update_transition. rewrite Hfind.
  destruct (to_in_flight_status (ou_status u)) as [next|]; [|done].
  destruct (can_transition (fo_status o) next); [|done].
  destruct (stamp_order_spec next u clock o) as ((_ & _ & Hc2 & _) & _ & Hex2 & _).
  unfold index_exchange_id, reported.
  destruct (ou_exchange_order_id u) as [e|]; [case_decide|];
    (match goal with |- context [apply_update_data next ?a ?d] =>
       destruct (apply_update_data next a d) as [o4 d'] eqn:Hd end);
    apply apply_update_data_spec in Hd as (_ & _ & Hex4 & _); intros _; exists o4;
    (split; [done|]); simpl in *; rewrite Hex4, ?Hex2, ?Hc2, ?Hcid; [right; by exists e|by left..].
Qed.

Lemma ids_recorded_update h c u clock :
  core_wf c → ids_recorded h c →
  ids_recorded (h ++ report c u clock) (apply_update_transition c u clock).1.
Proof.
  intros Hwf Hir. unfold report.
  destruct (apply_update_transition c u clock) as [c' [u'|msg]] eqn:Heq; simpl.
  2: { apply apply_update_transition_inv in Heq as (_ & _ & [(? & _ & Ho & Hx)|Hok]);
         [|naive_solver].
       rewrite app_nil_r. by apply (ids_recorded_same_maps h c). }
  pose proof Heq as Hinv.
  apply apply_update_transition_inv in Hinv as (_ & _ & [(? & ? & _)|Hok]); [done|].
  destruct Hok as (k & o & _ & _ & _ & Hfind & Hk & _). rewrite Hfind.
  destruct (apply_update_ids c u clock k o u') as (o' & Ho & Hx);
    [done|by apply Hwf|by rewrite Heq|]. rewrite Heq in Ho, Hx. simpl in Ho, Hx.
  destruct Hir as [Hi Hord Htr].
  destruct Hx as [(-> & Hex & Hx)|(e & -> & Hex & Hx)].
  - rewrite app_nil_r. split; rewrite ?Hx, ?Ho; [done|..].
    + intros k' o1 [[<- <-]|[? ?]]%lookup_insert_Some; [rewrite Hex|]; eauto.
    + intros e k' Hin. rewrite lookup_insert_is_Some'. eauto.
  - split; rewrite ?Hx, ?Ho.
    + intros e'. rewrite last_reporter_snoc. case_decide as He.
      * subst. by rewrite lookup_insert_eq.
      * by rewrite lookup_insert_ne.
    + intros k' o1 [[<- <-]|[? ?]]%lookup_insert_Some; rewrite last_reported_id_snoc.
      * by rewrite decide_True.
      * rewrite decide_False by done. eauto.
    + intros e' k' [Hin|Hin%list_elem_of_singleton]%elem_of_app;
        rewrite lookup_insert_is_Some'; [eauto|]. simplify_eq. eauto.
Qed.

(** The reachable cores are the ones with a history. *)
Lemma core_history_rtc g p h c : core_history g p h c → rtc core_step (core_init g p) c.
Proof.
  induction 1; [done|..]; (eapply rtc_r; [done|]); constructor.
Qed.

Lemma core_rtc_history g p c :
  rtc core_step (core_init g p) c → ∃ h, core_history g p h c.
Proof.
  revert c. apply rtc_ind_r.
  - exists []. constructor.
  - intros c c' _ Hs [h Hh]. destruct Hs; eexists; by constructor.
Qed.

Lemma core_history_recorded g p h c :
  core_history g p h c → core_wf c ∧ ids_recorded h c.
Proof.
  induction 1 as [|h c rid i _ [Hwf Hir]|h c i _ [Hwf Hir]|h c i s _ [Hwf Hir]|h c u t _ [Hwf Hir]].
  - split; [apply core_wf_init|]. split; [done|..]; intros *.
    + simpl. by rewrite lookup_empty.
    + by intros ?%not_elem_of_nil.
  - split; [by apply (core_step_wf c), Hwf; constructor|by apply ids_recorded_submit].
  - split; [by apply (core_step_wf c), Hwf; constructor|].
    unfold evaluate_global_risk. case_match; by apply (ids_recorded_same_maps h c).
  - split; [by apply (core_step_wf c), Hwf; constructor|].
    unfold evaluate_portfolio_risk. case_match; by apply (ids_recorded_same_maps h c).
  - split; [by apply (core_step_wf c), Hwf; constructor|by apply ids_recorded_update].
Qed.

(** C10: every core reached from the constructed (or reset) one by submissions, gate
    evaluations and updates (each reachable core has such a history, [core_rtc_history])
    is well formed: each order is filed under its own non-empty
    client id, comes from a place (without target) or from a replace of another tracked
    order, and its filled quantity is not negative.  The two records of exchange ids say
    exactly what the applied updates reported ([h], oldest first): the index maps an id
    to the order that reported it last and nothing else, it only names tracked orders,
    and an order carries the id last reported for it.  When the exchange never uses one
    id for two orders, the index leads from the id an order carries to that very order. *)
Theorem core_reachable_wf g p h c :
  core_history g p h c →
  rtc core_step (core_init g p) c ∧ core_wf c ∧
  (∀ e, omc_exchange_to_client c !! e = last_reporter e h) ∧
  (∀ k o, omc_in_flight_orders c !! k = Some o →
          fo_exchange_order_id o = last_reported_id k h) ∧
  (ids_distinct h → ∀ k o e,
     omc_in_flight_orders c !! k = Some o → fo_exchange_order_id o = Some e →
     omc_exchange_to_client c !! e = Some k).
Proof.
  intros Hh. split; [by eapply core_history_rtc|].
  destruct (core_history_recorded _ _ _ _ Hh) as [Hwf [Hi Hord Htr]].
  split_and!; try done.
  intros Hd k o e Hk He. rewrite Hi. rewrite (Hord _ _ Hk) in He.
  apply last_reported_id_elem in He. destruct (last_reporter_is_Some _ _ _ He) as [k' Hk'].
  rewrite Hk'. f_equal. eapply Hd; [by apply last_reporter_elem|done].
Qed.

(** ** The lifecycle of an order *)
Lemma core_step_order c c' k o :
  core_step c c' → core_wf c → omc_in_flight_orders c !! k = Some o →
  ∃ o', omc_in_flight_orders c' !! k = Some o' ∧ same_identity o o' ∧
        (status_edge (fo_status o) (fo_status o')).
Proof.
  assert (status_edge (fo_status o) (fo_status o)) as Hrefl.
  { unfold status_edge, can_transition. by rewrite decide_True. }
  destruct 1 as [c rid intent|c intent|c intent s|c u clock]; intros Hwf Hk.
  - destruct (validate_outcome c rid intent) as [(Hacc & _ & Hc)|(_ & _ & ->)]; [|by exists o].
    case_decide as Hact; [rewrite Hc; by exists o|]. destruct Hc as (o' & Ho & ->). simpl.
    assert (omc_in_flight_orders c !! oi_client_order_id intent = None) as Hfresh.
    { destruct Hacc as [_ Hacc]. destruct (oi_action intent); naive_solver. }
    rewrite lookup_insert_ne by congruence. by exists o.
  - unfold evaluate_global_risk. case_match; by exists o.
  - unfold evaluate_portfolio_risk. case_match; by exists o.
  - destruct (apply_update_transition c u clock) as [c' r] eqn:Heq. simpl.
    apply apply_update_transition_inv in Heq as (_ & _ & [(msg & _ & -> & _)|
      (k' & o' & o'' & u' & _ & _ & Hk' & -> & Hid & Hedge & _)]); [by exists o|].
    destruct (decide (k = k')) as [->|].
    + rewrite lookup_insert_eq. simplify_eq. by eexists.
    + rewrite lookup_insert_ne by done. by exists o.
Qed.

Lemma terminal_edge s s' : is_terminal_state s = true → status_edge s s' → s' = s.
Proof. destruct s, s'; done. Qed.

Lemma terminal_path s s' : rtc status_edge s s' → is_terminal_state s = true → s' = s.
Proof. induction 1 as [|s1 s2 s3 H12 _ IH]; [done|]. intros Ht.
  pose proof (terminal_edge _ _ Ht H12). subst s2. auto.
Qed.

Lemma not_back_to_pending s s' : s ≠ InFlight_kPending → rtc status_edge s s' → s' ≠ InFlight_kPending.
Proof. intros Hs. induction 1 as [|s1 s2 s3 H12 _ IH]; [done|]. apply IH. by destruct s1, s2. Qed.

Lemma core_steps_order c c' k o :
  rtc core_step c c' → core_wf c → omc_in_flight_orders c !! k = Some o →
  ∃ o', omc_in_flight_orders c' !! k = Some o' ∧ same_identity o o' ∧
        rtc status_edge (fo_status o) (fo_status o').
Proof.
  intros Hr. revert o. induction Hr as [c|c1 c2 c3 Hs _ IH]; intros o Hwf Hk.
  { eexists. split; [done|]. split; [done|apply rtc_refl]. }
  destruct (core_step_order _ _ _ _ Hs Hwf Hk) as (o2 & Hk2 & Hid & He).
  destruct (IH o2) as (o3 & Hk3 & Hid3 & He3); [by apply (core_step_wf c1)|done|].
  exists o3. split_and!; [done|by etrans|by eapply rtc_l].
Qed.

(** C2: between resets no tracked order is ever lost or re-identified, and its status
    only follows edges of the lifecycle: a filled, canceled or rejected order keeps
    its status forever and an order that left [kPending] never returns to it. *)
Theorem order_lifecycle c c' k o :
  core_wf c → rtc core_step c c' → omc_in_flight_orders c !! k = Some o →
  ∃ o', omc_in_flight_orders c' !! k = Some o' ∧ same_identity o o' ∧
    rtc status_edge (fo_status o) (fo_status o') ∧
    (is_terminal_state (fo_status o) = true → fo_status o' = fo_status o) ∧
    (fo_status o ≠ InFlight_kPending → fo_status o' ≠ InFlight_kPending).
Proof.
  intros Hwf Hr Hk. destruct (core_steps_order _ _ _ _ Hr Hwf Hk) as (o' & Hk' & Hid & He).
  exists o'. split_and!; [done..| |].
  - by apply terminal_path.
  - intros. by eapply not_back_to_pending.
Qed.

(** C9: a submission succeeds exactly for acceptable intents (fresh non-empty id;
    cancels and replaces with one consistent, tracked, non-terminal target; replaces
    in the market of the target); success tracks exactly the new pending order (a
    cancel tracks nothing), failure changes nothing but the policy reject counter. *)
Theorem submission_decided c request_id intent :
  submission_outcome c request_id intent (validate_and_track_submission c request_id intent) ∧
  ((validate_and_track_submission c request_id intent).2 = Ok tt ↔ acceptable c intent).
Proof.
  pose proof (validate_outcome c request_id intent) as Hout. split; [done|].
  destruct Hout as [(Hacc & -> & _)|(Hacc & [msg ->] & _)]; split; try done.
Qed.

(** ** Exposure: what the risk snapshot and the statistics count *)

(** The sum of [w] over the selected orders that are not terminal. *)
Definition exposure (sel : string → InFlightOrder → bool) (w : InFlightOrder → Z)
    (orders : gmap string InFlightOrder) : Z :=
  sum_map (λ k o, if sel k o && negb (is_terminal_state (fo_status o)) then w o else 0) orders.

Definition not_skipped (skip k : string) : bool := negb (bool_decide (skip ≠ "" ∧ k = skip)).
Definition of_market (ticker : string) (o : InFlightOrder) : bool :=
  bool_decide (ticker ≠ "" ∧ fo_market_ticker o = ticker).

Lemma build_risk_snapshot_exposure c ticker skip :
  build_risk_snapshot c ticker skip =
    mkGlobalRiskSnapshot
      (u64 (exposure (λ k _, not_skipped skip k) (λ _, 1) (omc_in_flight_orders c)))
      (u64 (exposure (λ k o, not_skipped skip k && of_market ticker o) (λ _, 1)
              (omc_in_flight_orders c)))
      (s64 (exposure (λ k _, not_skipped skip k) outstanding_qty (omc_in_flight_orders c)))
      (s64 (exposure (λ k o, not_skipped skip k && of_market ticker o) outstanding_qty
              (omc_in_flight_orders c))).
Proof.
  unfold build_risk_snapshot, exposure, sum_map.
  induction (omc_in_flight_orders c) as [|k o m Hk Hfk IH] using map_first_key_ind; [done|].
  rewrite !map_fold_insert_first_key by done. rewrite IH. clear IH.
  unfold risk_snapshot_step, not_skipped, of_market, u64_inc.
  destruct (decide (skip ≠ "" ∧ k = skip)) as [Hs|Hs];
    [rewrite (bool_decide_eq_true_2 _ Hs)|rewrite (bool_decide_eq_false_2 _ Hs)];
    simpl; rewrite ?Z.add_0_l; [done|].
  destruct (is_terminal_state (fo_status o)); simpl;
    rewrite ?andb_false_r; rewrite ?Z.add_0_l; [done|].
  destruct (bool_decide (ticker ≠ "" ∧ fo_market_ticker o = ticker)); simpl;
    rewrite ?s64_s64_add, ?u64_u64_add, ?Z.add_0_l; f_equal; f_equal; lia.
Qed.

Lemma core_stats_active c :
  cs_active_order_count (core_stats c)
  = u64 (exposure (λ _ _, true) (λ _, 1) (omc_in_flight_orders c)).
Proof.
  unfold core_stats, exposure. simpl. rewrite map_fold_u64. f_equal.
  apply sum_map_ext. intros k o _. by destruct (is_terminal_state _).
Qed.

Lemma outstanding_qty_range o :
  in_s64 (fo_requested_qty_lots o) → 0 ≤ outstanding_qty o ≤ Z.max 0 (fo_requested_qty_lots o).
Proof.
  unfold outstanding_qty, in_s64. intros. repeat case_decide; try lia.
  rewrite s64_small by (unfold in_s64; lia). lia.
Qed.

Lemma exposure_nonneg sel w m :
  (∀ k o, m !! k = Some o → 0 ≤ w o) → 0 ≤ exposure sel w m.
Proof.
  intros Hw. apply sum_map_nonneg. intros k o Hk. case_match; [by eapply Hw|done].
Qed.

Lemma exposure_mono sel sel' w m :
  (∀ k o, m !! k = Some o → 0 ≤ w o) →
  (∀ k o, m !! k = Some o → is_terminal_state (fo_status o) = false →
          sel k o = true → sel' k o = true) →
  exposure sel w m ≤ exposure sel' w m.
Proof.
  intros Hw Hsel. apply sum_map_mono. intros k o Hk.
  pose proof (Hw k o Hk). pose proof (Hsel k o Hk).
  destruct (is_terminal_state (fo_status o)); rewrite ?andb_false_r; simpl; [done|].
  destruct (sel k o), (sel' k o); simpl in *; lia.
Qed.

Lemma exposure_count_le sel m : exposure sel (λ _, 1) m ≤ Z.of_nat (size m).
Proof.
  rewrite <-(sum_map_size m). apply sum_map_mono. intros. case_match; lia.
Qed.

(** The selected exposure, one order singled out. *)
Lemma exposure_split sel w m k o :
  m !! k = Some o →
  exposure sel w m =
    (if sel k o && negb (is_terminal_state (fo_status o)) then w o else 0)
    + exposure sel w (delete k m).
Proof. intros Hk. unfold exposure. by rewrite (sum_map_delete _ m k o Hk). Qed.

Lemma exposure_skip sel w m k :
  k ≠ "" →
  exposure (λ k' o, not_skipped k k' && sel k' o) w m = exposure sel w (delete k m).
Proof.
  intros Hne. unfold exposure, not_skipped.
  destruct (m !! k) as [o|] eqn:Hk.
  - rewrite (sum_map_delete _ m k o Hk). rewrite bool_decide_eq_true_2 by done. simpl.
    apply sum_map_ext. intros k' o' [Hkk _]%lookup_delete_Some.
    by rewrite bool_decide_eq_false_2 by naive_solver.
  - rewrite delete_id by done. apply sum_map_ext. intros k' o' Hk'.
    by rewrite bool_decide_eq_false_2 by naive_solver.
Qed.

Lemma exposure_ext sel sel' w m :
  (∀ k o, m !! k = Some o → sel k o = sel' k o) → exposure sel w m = exposure sel' w m.
Proof. intros Hs. apply sum_map_ext. intros k o Hk. by rewrite (Hs k o Hk). Qed.

(** What an order-creating intent that passes the global gate has established. *)
Lemma evaluate_global_risk_allow c intent c' :
  evaluate_global_risk c intent = (c', None) → creates_order intent →
  oi_client_order_id intent ≠ "" →
  Z.of_nat (size (omc_in_flight_orders c)) < 18446744073709551616 →
  let rest := delete (oi_client_order_id intent) (omc_in_flight_orders c) in
  let cfg := omc_global_risk_config c in
  let in_mkt := λ (_ : string), of_market (oi_market_ticker intent) in
  c' = c ∧
  (gc_max_active_orders_global cfg > 0 →
   exposure (λ _ _, true) (λ _, 1) rest < gc_max_active_orders_global cfg) ∧
  (gc_max_active_orders_per_market cfg > 0 →
   exposure in_mkt (λ _, 1) rest < gc_max_active_orders_per_market cfg) ∧
  (gc_max_outstanding_qty_global cfg > 0 →
   s64 (exposure (λ _ _, true) outstanding_qty rest + clamp_non_negative (oi_qty_lots intent))
   ≤ gc_max_outstanding_qty_global cfg) ∧
  (gc_max_outstanding_qty_per_market cfg > 0 →
   s64 (exposure in_mkt outstanding_qty rest + clamp_non_negative (oi_qty_lots intent))
   ≤ gc_max_outstanding_qty_per_market cfg).
Proof.
  intros Heval Hcr Hne Hsz rest cfg in_mkt. unfold evaluate_global_risk in Heval.
  set (snap := build_risk_snapshot c _ _) in Heval.
  destruct (gd_allow (global_evaluate _ intent snap)) eqn:Hallow; [|done]. simplify_eq.
  split; [done|].
  assert (∀ sel, u64 (exposure sel (λ _, 1) rest) = exposure sel (λ _, 1) rest) as Hu.
  { intros sel. apply u64_small. split; [apply exposure_nonneg; lia|].
    eapply Z.le_lt_trans; [apply exposure_count_le|].
    eapply Z.le_lt_trans; [|exact Hsz]. apply inj_le. unfold rest.
    destruct (decide (is_Some (omc_in_flight_orders c' !! oi_client_order_id intent))).
    + rewrite map_size_delete_Some by done. lia.
    + rewrite map_size_delete_None by (by apply eq_None_not_Some). lia. }
  assert (snap = mkGlobalRiskSnapshot (exposure (λ _ _, true) (λ _, 1) rest)
    (exposure in_mkt (λ _, 1) rest) (s64 (exposure (λ _ _, true) outstanding_qty rest))
    (s64 (exposure in_mkt outstanding_qty rest))) as Hsnap.
  { unfold snap. rewrite build_risk_snapshot_exposure.
    rewrite (exposure_ext _ (λ k o, not_skipped (oi_client_order_id intent) k && true) (λ _, 1))
      by (intros; by rewrite andb_true_r).
    rewrite (exposure_ext _ (λ k o, not_skipped (oi_client_order_id intent) k && true) outstanding_qty)
      by (intros; by rewrite andb_true_r).
    rewrite !exposure_skip by done. unfold rest, in_mkt. by rewrite !Hu. }
  clearbody snap. subst snap. unfold global_evaluate in Hallow. simpl in Hallow.
  destruct Hcr as [Hcr|Hcr]; rewrite Hcr in Hallow; simpl in Hallow;
    repeat case_decide; try done; rewrite ?s64_s64_add in *;
    split_and!; intros; unfold cfg in *; lia.
Qed.

(** ** Exposure only shrinks, except through the gate *)

(** The effect of one call on the order map. *)
Lemma core_step_cases c c' :
  core_step c c' →
  omc_global_risk_config c' = omc_global_risk_config c ∧
  (omc_in_flight_orders c' = omc_in_flight_orders c ∨
   (∃ k o o', omc_in_flight_orders c !! k = Some o ∧
      omc_in_flight_orders c' = <[k:=o']> (omc_in_flight_orders c) ∧
      same_identity o o' ∧ status_edge (fo_status o) (fo_status o') ∧
      (fo_status o' ≠ InFlight_kFilled → fo_filled_qty_lots o ≤ fo_filled_qty_lots o')) ∨
   (∃ k o, omc_in_flight_orders c !! k = None ∧
      omc_in_flight_orders c' = <[k:=o]> (omc_in_flight_orders c))).
Proof.
  destruct 1 as [c rid intent|c intent|c intent snap|c u clock].
  - destruct (validate_outcome c rid intent) as [(Hacc & _ & Hc)|(_ & _ & ->)]; [|auto].
    case_decide as Hact; [rewrite Hc; auto|]. destruct Hc as (o & _ & ->). split; [done|].
    right. right. eexists _, o. split; [|reflexivity].
    destruct Hacc as [_ Hacc]. destruct (oi_action intent); naive_solver.
  - unfold evaluate_global_risk. case_match; auto.
  - unfold evaluate_portfolio_risk. case_match; auto.
  - destruct (apply_update_transition c u clock) as [c' r] eqn:Heq. simpl.
    apply apply_update_transition_inv in Heq as (Hcfg & _ & [(msg & _ & Ho & _)|
      (k & o & o' & u' & _ & _ & Hk & Ho & Hid & Hedge & _ & _ & Hfill & _)]); [auto|].
    split; [done|]. right. left. by exists k, o, o'.
Qed.

(** The lots requested by all tracked orders, and the size below which neither the
    counters nor the sums of the risk snapshot wrap. *)
Definition requested_total (c : OrderManagerCore) : Z :=
  sum_map (λ _ o, Z.max 0 (fo_requested_qty_lots o)) (omc_in_flight_orders c).

Definition core_bounded (c : OrderManagerCore) : Prop :=
  Z.of_nat (size (omc_in_flight_orders c)) < 18446744073709551616 ∧
  requested_total c < 9223372036854775808.

Lemma core_bounded_mono c c' : core_step c c' → core_bounded c' → core_bounded c.
Proof.
  intros (_ & [Ho|[(k & o & o' & Hk & Ho & Hid & _)|(k & o & Hk & Ho)]])%core_step_cases;
    unfold core_bounded, requested_total; rewrite Ho; [done|..].
  - rewrite map_size_insert_Some by done. rewrite (sum_map_update _ _ _ _ o' Hk).
    destruct Hid as (_ & _ & _ & _ & -> & _). intros [??]. split; lia.
  - rewrite map_size_insert_None, sum_map_insert by done. lia.
Qed.

Lemma core_bounded_requested c k o :
  core_bounded c → omc_in_flight_orders c !! k = Some o →
  fo_requested_qty_lots o < 9223372036854775808.
Proof.
  intros [_ Hb] Hk. unfold requested_total in Hb.
  pose proof (sum_map_term_le (λ _ o, Z.max 0 (fo_requested_qty_lots o)) _ _ _
    ltac:(intros; simpl; lia) Hk). simpl in *. lia.
Qed.

Lemma outstanding_le o :
  fo_requested_qty_lots o < 9223372036854775808 →
  0 ≤ outstanding_qty o ≤ Z.max 0 (fo_requested_qty_lots o).
Proof.
  unfold outstanding_qty. intros. repeat case_decide; try lia.
  rewrite s64_small by (unfold in_s64; lia). lia.
Qed.

(** A weight of orders that no step of a live order increases. *)
Definition shrinking (w : InFlightOrder → Z) : Prop :=
  ∀ o, fo_requested_qty_lots o < 9223372036854775808 → 0 ≤ w o ∧
  ∀ o', same_identity o o' → fo_filled_qty_lots o ≤ fo_filled_qty_lots o' → w o' ≤ w o.

Lemma shrinking_one : shrinking (λ _, 1).
Proof. unfold shrinking. intros. split; intros; lia. Qed.

Lemma shrinking_outstanding : shrinking outstanding_qty.
Proof.
  intros o Hreq. split; [by apply outstanding_le|].
  intros o' (_ & _ & _ & _ & Hr & _) Hfill. unfold outstanding_qty. rewrite Hr.
  repeat case_decide; try lia; rewrite ?s64_small by (unfold in_s64; lia); lia.
Qed.

(** The live exposure of a set of tracked orders does not grow. *)
Lemma exposure_step (R : gset string) w c c' :
  shrinking w → core_step c c' → core_bounded c →
  (∀ k, k ∈ R → is_Some (omc_in_flight_orders c !! k)) →
  exposure (λ k _, bool_decide (k ∈ R)) w (omc_in_flight_orders c')
  ≤ exposure (λ k _, bool_decide (k ∈ R)) w (omc_in_flight_orders c).
Proof.
  intros Hw Hstep Hb HR.
  apply core_step_cases in Hstep as (_ & [->|[(k & o & o' & Hk & -> & Hid & He & Hf)|
    (k & o & Hk & ->)]]); [done|..].
  - rewrite (exposure_split _ _ _ k o Hk).
    rewrite (exposure_split _ _ (<[k:=o']> _) k o') by apply lookup_insert_eq.
    rewrite delete_insert_eq. apply Z.add_le_mono_r.
    destruct (Hw o) as [Hnn Hle]; [by eapply core_bounded_requested|].
    destruct (is_terminal_state (fo_status o)) eqn:Ht.
    { rewrite (terminal_edge _ _ Ht He), Ht. simpl. by rewrite !andb_false_r. }
    destruct (is_terminal_state (fo_status o')) eqn:Ht'; simpl;
      rewrite ?andb_false_r, ?andb_true_r; destruct (bool_decide (k ∈ R)); try done.
    apply Hle; [done|]. apply Hf. intros Hst. by rewrite Hst in Ht'.
  - unfold exposure. rewrite sum_map_insert by done.
    rewrite bool_decide_eq_false_2; [simpl; lia|].
    intros [x Hx]%HR. congruence.
Qed.

Lemma core_step_dom c c' k :
  core_step c c' → is_Some (omc_in_flight_orders c !! k) → is_Some (omc_in_flight_orders c' !! k).
Proof.
  intros (_ & [->|[(? & ? & ? & _ & -> & _)|(? & ? & _ & ->)]])%core_step_cases; [done|..];
    rewrite lookup_insert_is_Some'; auto.
Qed.

(** An order-creating intent that passes the global gate leaves the whole live exposure,
    its own order included, within the limits. *)
Lemma gate_pass_exposure c intent c' o :
  evaluate_global_risk c intent = (c', None) → creates_order intent → core_bounded c →
  oi_client_order_id intent ≠ "" → 0 < oi_qty_lots intent →
  omc_in_flight_orders c !! oi_client_order_id intent = Some o →
  fo_requested_qty_lots o = oi_qty_lots intent →
  let cfg := omc_global_risk_config c in
  c' = c ∧
  (gc_max_active_orders_global cfg > 0 →
   exposure (λ _ _, true) (λ _, 1) (omc_in_flight_orders c) ≤ gc_max_active_orders_global cfg) ∧
  (gc_max_outstanding_qty_global cfg > 0 →
   exposure (λ _ _, true) outstanding_qty (omc_in_flight_orders c)
   ≤ gc_max_outstanding_qty_global cfg).
Proof.
  intros Heval Hcr Hb Hne Hqty Ho Hreq cfg. unfold cfg. clear cfg. pose proof Hb as [Hsz Htot].
  destruct (evaluate_global_risk_allow _ _ _ Heval Hcr Hne Hsz) as (-> & Hcnt & _ & Hq & _).
  split; [done|]. rewrite !(exposure_split _ _ _ _ o Ho).
  unfold requested_total in Htot. rewrite (sum_map_delete _ _ _ _ Ho), Hreq in Htot.
  split; intros Hpos.
  - specialize (Hcnt Hpos). destruct (is_terminal_state (fo_status o)); simpl; lia.
  - specialize (Hq Hpos). unfold clamp_non_negative in Hq.
    set (rest := delete _ _) in *.
    assert (0 ≤ exposure (λ _ _, true) outstanding_qty rest
            ≤ sum_map (λ _ o, Z.max 0 (fo_requested_qty_lots o)) rest) as Hrest.
    { assert (∀ k o', rest !! k = Some o' → fo_requested_qty_lots o' < 9223372036854775808) as Hr.
      { intros k o' [_ Hk]%lookup_delete_Some. by eapply core_bounded_requested. }
      split; [apply exposure_nonneg; intros k o' Hk; by apply outstanding_le, (Hr k)|].
      apply sum_map_mono. intros k o' Hk. pose proof (outstanding_le o' (Hr _ _ Hk)).
      case_match; lia. }
    rewrite s64_small in Hq by (unfold in_s64; lia).
    pose proof (outstanding_le o ltac:(lia)). destruct (is_terminal_state (fo_status o)); simpl; lia.
Qed.

(** ** Concrete runs *)
Definition demo_core : OrderManagerCore :=
  core_init (mkGlobalRiskConfig 2 1 100 50) (mkPortfolioRiskConfig 0 0 0 false).

Definition demo_tracked : OrderManagerCore :=
  (validate_and_track_submission demo_core 1 (demo_intent Side_kBuy 5)).1.

Definition demo_reject : OrderStateUpdate :=
  mkOrderStateUpdate ExchangeId_kKalshi OmsOrderStatus_kRejected "c1" (Some "ex-1") "MKT" 9
    OmsUpdateData_monostate "".

(** Two orders, and the exchange reports the same id for both: the index then leads to
    the later one. *)
Definition demo_second : OrderIntent :=
  (demo_intent Side_kBuy 5) <| oi_client_order_id := "c2" |>.

Definition demo_two_tracked : OrderManagerCore :=
  (validate_and_track_submission (apply_update_transition demo_tracked demo_reject 3).1
     2 demo_second).1.

Lemma core_reachable_wf_witness :
  let c := (apply_update_transition demo_two_tracked
              (demo_reject <| ou_client_order_id := "c2" |>) 4).1 in
  core_wf c ∧ omc_exchange_to_client c !! "ex-1" = Some "c2" ∧
  (fo_exchange_order_id <$> omc_in_flight_orders c !! "c1") = Some (Some "ex-1").
Proof.
  intros c.
  destruct (core_reachable_wf (mkGlobalRiskConfig 2 1 100 50) (mkPortfolioRiskConfig 0 0 0 false)
    ((([] ++ report demo_tracked demo_reject 3)) ++
     report demo_two_tracked (demo_reject <| ou_client_order_id := "c2" |>) 4) c)
    as (_ & Hwf & Hindex & _).
  - apply history_update, history_submit, history_update, history_submit, history_init.
  - split; [exact Hwf|]. split; [rewrite Hindex|]; vm_compute; reflexivity.
Defined.

Definition demo_order : InFlightOrder :=
  mkInFlightOrder 1 OmsAction_kPlace InFlight_kPending "c1" None None "MKT" Side_kBuy 5 0 5 0.

Lemma order_lifecycle_witness :
  ∃ o',
    omc_in_flight_orders (apply_update_transition demo_tracked demo_reject 3).1 !! "c1" = Some o' ∧
    same_identity demo_order o' ∧ rtc status_edge InFlight_kPending (fo_status o').
Proof.
  destruct (order_lifecycle demo_tracked
    (apply_update_transition demo_tracked demo_reject 3).1 "c1" demo_order)
    as (o' & Ho & Hid & He & _).
  - apply (core_step_wf demo_core); [apply core_step_submit|apply core_wf_init].
  - apply rtc_once, core_step_update.
  - vm_compute. reflexivity.
  - by exists o'.
Defined.
