(* ===== verification/PositionLedger.v ===== *)
(** * PositionLedger: positions and realised profit from fills

    Model of src/cpp/src/oms/position_ledger_core.cpp and position_ledger.cpp.  The
    ledger is the order-event sink of the OMS and the provider of the portfolio risk
    snapshot; its mutex makes every public call atomic.

    After the definitions, the file relates the ledger to the history of the fills
    it accepted: quantities are exact sums, the average price stays between the
    prices paid, and realised profit equals cash flow up to the rounding of the
    averages.  The bounds [max_price] and [max_qty] under which no [std::int64_t]
    operation overflows are explicit. *)
From S2P Require Import Prelude.
From S2P Require Import Types.
From S2P Require Import RiskGates.
Local Open Scope machine_scope.

(** ** Data *)
Abbreviation MarketKey := (ExchangeId * string)%type (only parsing).

Record MarketPositionState := mkMarketPositionState {
  mp_exchange : ExchangeId;
  mp_market_ticker : string;
  mp_net_qty_lots : QtyLots;
  mp_avg_open_price_ticks : PriceTicks;
  mp_has_open_price : bool;
  mp_bought_qty_lots : QtyLots;
  mp_sold_qty_lots : QtyLots;
  mp_closed_qty_lots : QtyLots;
  mp_realized_pnl_ticks : Z;
  mp_fill_count : Z;
  mp_last_fill_ts_ns : TimestampNs;
}.

Record PositionLedgerCore := mkPositionLedgerCore {
  pl_positions : gmap (ExchangeId * string) MarketPositionState;
  pl_processed_fill_count : Z;
  pl_ignored_update_count : Z;
  pl_rejected_fill_count : Z;
  pl_closed_position_count : Z;
  pl_realized_pnl_ticks_total : Z;
}.

Record PositionSnapshot := mkPositionSnapshot {
  po_exchange : ExchangeId;
  po_market_ticker : string;
  po_net_qty_lots : QtyLots;
  po_avg_open_price_ticks : option PriceTicks;
  po_bought_qty_lots : QtyLots;
  po_sold_qty_lots : QtyLots;
  po_closed_qty_lots : QtyLots;
  po_realized_pnl_ticks : Z;
  po_fill_count : Z;
  po_last_fill_ts_ns : TimestampNs;
}.

Record PositionLedgerStats := mkPositionLedgerStats {
  ls_processed_fill_count : Z;
  ls_ignored_update_count : Z;
  ls_rejected_fill_count : Z;
  ls_tracked_market_count : Z;
  ls_open_position_count : Z;
  ls_closed_position_count : Z;
  ls_realized_pnl_ticks_total : Z;
}.

(** The locked wrapper: the core and the last error. *)
Record PositionLedger := mkPositionLedger {
  pw_core : PositionLedgerCore;
  pw_last_error : string;
}.

#[export] Instance MarketPositionState_settable : Settable MarketPositionState := λ x,
  mkMarketPositionState (mp_exchange x) (mp_market_ticker x) (mp_net_qty_lots x)
    (mp_avg_open_price_ticks x) (mp_has_open_price x) (mp_bought_qty_lots x)
    (mp_sold_qty_lots x) (mp_closed_qty_lots x) (mp_realized_pnl_ticks x) (mp_fill_count x)
    (mp_last_fill_ts_ns x).
#[export] Instance PositionLedgerCore_settable : Settable PositionLedgerCore := λ x,
  mkPositionLedgerCore (pl_positions x) (pl_processed_fill_count x) (pl_ignored_update_count x)
    (pl_rejected_fill_count x) (pl_closed_position_count x) (pl_realized_pnl_ticks_total x).

(** ** Operations *)
Definition position_default : MarketPositionState :=
  mkMarketPositionState ExchangeId_kUnknown "" 0 0 false 0 0 0 0 0 0.

Definition ledger_init : PositionLedgerCore := mkPositionLedgerCore ∅ 0 0 0 0 0.

Definition abs_qty (value : QtyLots) : QtyLots :=
  if decide (0 ≤ value) then value else s64 (- value).

Definition side_to_signed_qty (side : Side) (qty_lots : QtyLots) : QtyLots :=
  match side with
  | Side_kBuy | Side_kBid => qty_lots
  | Side_kSell | Side_kAsk => s64 (- qty_lots)
  | Side_kUnknown => 0
  end.

(** A fill that extends (or opens) a position of the same direction. *)
Definition extend_position (position : MarketPositionState) (signed_fill_qty : QtyLots)
    (fill_price_ticks : PriceTicks) : MarketPositionState :=
  let old_net_qty := mp_net_qty_lots position in
  let old_abs := abs_qty old_net_qty in
  let fill_abs := abs_qty signed_fill_qty in
  let new_abs := old_abs ⊞ fill_abs in
  let weighted_notional :=
    (mp_avg_open_price_ticks position ⊠ old_abs) ⊞ (fill_price_ticks ⊠ fill_abs) in
  position <| mp_avg_open_price_ticks := s64 (Z.quot weighted_notional new_abs) |>
           <| mp_net_qty_lots := old_net_qty ⊞ signed_fill_qty |>
           <| mp_has_open_price := true |>.

(** The profit of the closing part of a fill against the position. *)
Definition closing_pnl (position : MarketPositionState) (signed_fill_qty : QtyLots)
    (fill_price_ticks : PriceTicks) : Z :=
  let old_net_qty := mp_net_qty_lots position in
  let closed_qty := Z.min (abs_qty old_net_qty) (abs_qty signed_fill_qty) in
  if decide (old_net_qty > 0)
  then (fill_price_ticks ⊟ mp_avg_open_price_ticks position) ⊠ closed_qty
  else (mp_avg_open_price_ticks position ⊟ fill_price_ticks) ⊠ closed_qty.

(** A fill against the position: close, reduce or flip. *)
Definition close_position (position : MarketPositionState) (signed_fill_qty : QtyLots)
    (fill_price_ticks : PriceTicks) : MarketPositionState :=
  let old_net_qty := mp_net_qty_lots position in
  let closed_qty := Z.min (abs_qty old_net_qty) (abs_qty signed_fill_qty) in
  let pnl_ticks := closing_pnl position signed_fill_qty fill_price_ticks in
  let position :=
    position <| mp_realized_pnl_ticks ::= λ r, r ⊞ pnl_ticks |>
             <| mp_closed_qty_lots ::= λ q, q ⊞ closed_qty |>
             <| mp_net_qty_lots := old_net_qty ⊞ signed_fill_qty |> in
  let net := mp_net_qty_lots position in
  if decide (net = 0) then position <| mp_has_open_price := false |>
  else if decide ((old_net_qty > 0 ∧ net < 0) ∨ (old_net_qty < 0 ∧ net > 0))
  then position <| mp_avg_open_price_ticks := fill_price_ticks |>
                <| mp_has_open_price := true |>
  else position.

(** The bookkeeping every accepted fill does first. *)
Definition touch_position (exchange : ExchangeId) (market_ticker : string)
    (recv_ts_ns : TimestampNs) (signed_fill_qty fill_qty_lots : QtyLots)
    (position : MarketPositionState) : MarketPositionState :=
  let position :=
    position <| mp_exchange := exchange |> <| mp_market_ticker := market_ticker |>
             <| mp_fill_count ::= u64_inc |> <| mp_last_fill_ts_ns := recv_ts_ns |> in
  if decide (signed_fill_qty > 0)
  then position <| mp_bought_qty_lots ::= λ q, q ⊞ fill_qty_lots |>
  else position <| mp_sold_qty_lots ::= λ q, q ⊞ fill_qty_lots |>.

Definition same_direction (old_net_qty signed_fill_qty : QtyLots) : Prop :=
  (old_net_qty > 0 ∧ signed_fill_qty > 0) ∨ (old_net_qty < 0 ∧ signed_fill_qty < 0).
#[export] Instance same_direction_dec a b : Decision (same_direction a b).
Proof. unfold same_direction. apply _. Defined.

Definition reject_fill (l : PositionLedgerCore) (msg : string)
    : PositionLedgerCore * outcome unit :=
  (l <| pl_rejected_fill_count ::= u64_inc |>, Err msg).

Definition apply_fill (l : PositionLedgerCore) (update : OrderStateUpdate) (fill : OrderFill)
    : PositionLedgerCore * outcome unit :=
  let market_ticker :=
    if decide (of_market_ticker fill = "") then ou_market_ticker update
    else of_market_ticker fill in
  if decide (market_ticker = "") then reject_fill l "Fill update is missing market_ticker"
  else if decide (of_fill_qty_lots fill ≤ 0)
  then reject_fill l "Fill update has non-positive fill_qty_lots"
  else
    let signed_fill_qty := side_to_signed_qty (of_side fill) (of_fill_qty_lots fill) in
    if decide (signed_fill_qty = 0) then reject_fill l "Fill update has unknown side"
    else
      let key := (ou_exchange update, market_ticker) in
      let position := default position_default (pl_positions l !! key) in
      let position :=
        touch_position (ou_exchange update) market_ticker (ou_recv_ts_ns update)
          signed_fill_qty (of_fill_qty_lots fill) position in
      let old_net_qty := mp_net_qty_lots position in
      if decide (old_net_qty = 0) then
        let position :=
          position <| mp_net_qty_lots := signed_fill_qty |>
                   <| mp_avg_open_price_ticks := of_fill_price_ticks fill |>
                   <| mp_has_open_price := true |> in
        (l <| pl_positions ::= <[key := position]> |>
           <| pl_processed_fill_count ::= u64_inc |>, Ok tt)
      else if decide (same_direction old_net_qty signed_fill_qty) then
        let position := extend_position position signed_fill_qty (of_fill_price_ticks fill) in
        (l <| pl_positions ::= <[key := position]> |>
           <| pl_processed_fill_count ::= u64_inc |>, Ok tt)
      else
        let pnl_ticks := closing_pnl position signed_fill_qty (of_fill_price_ticks fill) in
        let position := close_position position signed_fill_qty (of_fill_price_ticks fill) in
        let l := l <| pl_positions ::= <[key := position]> |>
                   <| pl_realized_pnl_ticks_total ::= λ r, r ⊞ pnl_ticks |> in
        let l :=
          if decide (mp_net_qty_lots position = 0)
          then l <| pl_closed_position_count ::= u64_inc |> else l in
        (l <| pl_processed_fill_count ::= u64_inc |>, Ok tt).

Definition ledger_on_order_update (l : PositionLedgerCore) (update : OrderStateUpdate)
    : PositionLedgerCore * outcome unit :=
  if decide (ou_status update ≠ OmsOrderStatus_kFilled ∧
             ou_status update ≠ OmsOrderStatus_kPartiallyFilled)
  then (l <| pl_ignored_update_count ::= u64_inc |>, Ok tt)
  else
    match ou_data update with
    | OmsUpdateData_Fill fill => apply_fill l update fill
    | _ => reject_fill l "Fill status update is missing OrderFill payload"
    end.

Definition market_position (l : PositionLedgerCore) (exchange : ExchangeId)
    (market_ticker : string) : option PositionSnapshot :=
  match pl_positions l !! (exchange, market_ticker) with
  | None => None
  | Some p =>
    Some (mkPositionSnapshot (mp_exchange p) (mp_market_ticker p) (mp_net_qty_lots p)
            (if mp_has_open_price p then Some (mp_avg_open_price_ticks p) else None)
            (mp_bought_qty_lots p) (mp_sold_qty_lots p) (mp_closed_qty_lots p)
            (mp_realized_pnl_ticks p) (mp_fill_count p) (mp_last_fill_ts_ns p))
  end.

Definition portfolio_risk_snapshot (l : PositionLedgerCore) (exchange : ExchangeId)
    (market_ticker : string) : PortfolioRiskSnapshot :=
  let net_position_market :=
    match pl_positions l !! (exchange, market_ticker) with
    | Some p => mp_net_qty_lots p
    | None => 0
    end in
  map_fold (λ key p snapshot,
      if decide (key.1 ≠ exchange) then snapshot
      else mkPortfolioRiskSnapshot (ps_net_position_market snapshot)
             (ps_gross_position_global snapshot ⊞ abs_qty (mp_net_qty_lots p))
             (ps_realized_pnl_ticks_total snapshot ⊞ mp_realized_pnl_ticks p))
    (mkPortfolioRiskSnapshot net_position_market 0 0) (pl_positions l).

Definition ledger_stats (l : PositionLedgerCore) : PositionLedgerStats :=
  let open_position_count :=
    map_fold (λ _ p acc, u64 (acc + if decide (mp_net_qty_lots p ≠ 0) then 1 else 0))
      0 (pl_positions l) in
  mkPositionLedgerStats (pl_processed_fill_count l) (pl_ignored_update_count l)
    (pl_rejected_fill_count l) (Z.of_nat (size (pl_positions l))) open_position_count
    (pl_closed_position_count l) (pl_realized_pnl_ticks_total l).

(** position_ledger.cpp: the wrapper keeps the message of the last failure. *)
Definition position_ledger_on_order_update (w : PositionLedger) (update : OrderStateUpdate)
    : PositionLedger * bool :=
  match ledger_on_order_update (pw_core w) update with
  | (core, Ok _) => (mkPositionLedger core (pw_last_error w), true)
  | (core, Err msg) => (mkPositionLedger core msg, false)
  end.

Definition snapshot_for (w : PositionLedger) (exchange : ExchangeId) (market_ticker : string)
    : PortfolioRiskSnapshot :=
  portfolio_risk_snapshot (pw_core w) exchange market_ticker.

Definition position_ledger_market_position (w : PositionLedger) (exchange : ExchangeId)
    (market_ticker : string) : option PositionSnapshot :=
  market_position (pw_core w) exchange market_ticker.

Definition position_ledger_stats (w : PositionLedger) : PositionLedgerStats :=
  ledger_stats (pw_core w).

(** A run of the ledger over a sequence of updates. *)
Definition ledger_run (l : PositionLedgerCore) (updates : list OrderStateUpdate)
    : PositionLedgerCore :=
  foldl (λ l u, (ledger_on_order_update l u).1) l updates.

(** ** Fills, and the history of a market

    [fill_of] reads off an update the market, signed quantity and price of the fill
    the ledger books for it, [None] when it books none. *)
Definition fill_of (u : OrderStateUpdate) : option (ExchangeId * string * Z * Z) :=
  match ou_data u with
  | OmsUpdateData_Fill f =>
    let ticker := if decide (of_market_ticker f = "") then ou_market_ticker u
                  else of_market_ticker f in
    if decide ((ou_status u = OmsOrderStatus_kFilled ∨ ou_status u = OmsOrderStatus_kPartiallyFilled) ∧
               ticker ≠ "" ∧ 0 < of_fill_qty_lots f ∧ of_side f ≠ Side_kUnknown)
    then Some (ou_exchange u, ticker,
               match of_side f with
               | Side_kBuy | Side_kBid => of_fill_qty_lots f
               | _ => - of_fill_qty_lots f
               end, of_fill_price_ticks f)
    else None
  | _ => None
  end.

(** The booked fills of one market, latest first. *)
Fixpoint history (key : ExchangeId * string) (updates_rev : list OrderStateUpdate)
    : list (Z * Z) :=
  match updates_rev with
  | [] => []
  | u :: us =>
    match fill_of u with
    | Some (ex, tk, q, p) =>
      if decide ((ex, tk) = key) then (q, p) :: history key us else history key us
    | None => history key us
    end
  end.

Fixpoint net_of (h : list (Z * Z)) : Z :=
  match h with [] => 0 | (q, _) :: h => q + net_of h end.
Fixpoint bought_of (h : list (Z * Z)) : Z :=
  match h with [] => 0 | (q, _) :: h => Z.max q 0 + bought_of h end.
Fixpoint sold_of (h : list (Z * Z)) : Z :=
  match h with [] => 0 | (q, _) :: h => Z.max (- q) 0 + sold_of h end.
(** Cash received minus cash paid. *)
Fixpoint cash_of (h : list (Z * Z)) : Z :=
  match h with [] => 0 | (q, p) :: h => - (q * p) + cash_of h end.
(** The most that rounding the average price can have moved: at every fill, less than
    one tick per lot then open. *)
Fixpoint rounding_of (h : list (Z * Z)) : Z :=
  match h with [] => 0 | (q, p) :: h' => Z.abs (net_of h) + rounding_of h' end.
Definition traded_of (h : list (Z * Z)) : Z := bought_of h + sold_of h.

(** ** Arithmetic of a single fill *)
Lemma abs_qty_abs z : in_s64 (Z.abs z) → abs_qty z = Z.abs z.
Proof.
  unfold abs_qty, in_s64. intros. case_decide; [lia|]. rewrite s64_small; unfold in_s64; lia.
Qed.

Lemma traded_of_nonneg h : 0 ≤ bought_of h ∧ 0 ≤ sold_of h.
Proof. induction h as [|[q p] h IH]; simpl; lia. Qed.

Lemma net_of_split h : net_of h = bought_of h - sold_of h.
Proof. induction h as [|[q p] h IH]; simpl; lia. Qed.

(** Truncating division keeps an average between the bounds of its terms. *)
Lemma quot_between lo hi w n :
  0 < n → lo * n ≤ w ≤ hi * n → lo ≤ Z.quot w n ≤ hi.
Proof.
  intros Hn Hw. pose proof (Z.quot_rem' w n) as Heq.
  pose proof (Z.rem_bound_abs w n ltac:(lia)) as Hr. split; nia.
Qed.

Lemma quot_rounding w n : 0 < n → Z.abs (w - n * Z.quot w n) ≤ n.
Proof.
  intros Hn. pose proof (Z.quot_rem' w n). pose proof (Z.rem_bound_abs w n ltac:(lia)). lia.
Qed.

Lemma abs_mul_le a p b : Z.abs a ≤ p → 0 ≤ b → Z.abs (a * b) ≤ p * b.
Proof.
  intros Ha Hb. rewrite Z.abs_mul, (Z.abs_eq b) by done. by apply Z.mul_le_mono_nonneg_r.
Qed.

(** What [apply_fill] makes of the position it looked up. *)
Definition booked_position (exchange : ExchangeId) (market_ticker : string)
    (recv_ts_ns q price : Z) (position : MarketPositionState) : MarketPositionState :=
  let position := touch_position exchange market_ticker recv_ts_ns q (Z.abs q) position in
  if decide (mp_net_qty_lots position = 0) then
    position <| mp_net_qty_lots := q |> <| mp_avg_open_price_ticks := price |>
             <| mp_has_open_price := true |>
  else if decide (same_direction (mp_net_qty_lots position) q)
  then extend_position position q price
  else close_position position q price.

Section bounded.
(** All prices are at most [max_price] in absolute value and at most [max_qty] lots
    are traded; their product leaves room for one bit in a [std::int64_t]. *)
Context (max_price max_qty : Z).

Definition ledger_bounds : Prop :=
  0 ≤ max_price ∧ 0 ≤ max_qty < 9223372036854775808 ∧
  2 * max_price * max_qty < 9223372036854775808.

Definition history_bounded (h : list (Z * Z)) : Prop :=
  Forall (λ '(q, p), q ≠ 0 ∧ Z.abs p ≤ max_price) h ∧ traded_of h ≤ max_qty.

Record position_matches (h : list (Z * Z)) (p : MarketPositionState) : Prop := {
  pm_net : mp_net_qty_lots p = net_of h;
  pm_bought : mp_bought_qty_lots p = bought_of h;
  pm_sold : mp_sold_qty_lots p = sold_of h;
  pm_closed : mp_closed_qty_lots p = Z.min (bought_of h) (sold_of h);
  pm_count : mp_fill_count p = u64 (Z.of_nat (length h));
  pm_open : mp_has_open_price p = bool_decide (net_of h ≠ 0);
  pm_avg lo hi :
    Forall (λ '(_, price), lo ≤ price ≤ hi) h → net_of h ≠ 0 →
    lo ≤ mp_avg_open_price_ticks p ≤ hi;
  pm_pnl : Z.abs (mp_realized_pnl_ticks p) ≤ 2 * max_price * mp_closed_qty_lots p;
  pm_cash :
    Z.abs (mp_realized_pnl_ticks p
           - (cash_of h + net_of h * mp_avg_open_price_ticks p)) ≤ rounding_of h;
}.

Lemma position_matches_default : position_matches [] position_default.
Proof. split; simpl; intros; reflexivity || done || lia. Qed.

Hypothesis Hbounds : ledger_bounds.

Lemma history_bounded_avg h p :
  history_bounded h → position_matches h p → net_of h ≠ 0 →
  Z.abs (mp_avg_open_price_ticks p) ≤ max_price.
Proof.
  intros [Hall _] Hm Hne.
  destruct (pm_avg _ _ Hm (- max_price) max_price) as [??]; [|done|lia].
  eapply Forall_impl; [exact Hall|]. intros [q pr] [_ ?]. lia.
Qed.

Lemma extend_matches h p q price :
  position_matches h p → history_bounded ((q, price) :: h) →
  same_direction (net_of h) q →
  ∀ p1, mp_net_qty_lots p1 = mp_net_qty_lots p →
    mp_avg_open_price_ticks p1 = mp_avg_open_price_ticks p →
  mp_net_qty_lots (extend_position p1 q price) = net_of h + q ∧
  mp_avg_open_price_ticks (extend_position p1 q price) =
    Z.quot (mp_avg_open_price_ticks p * Z.abs (net_of h) + price * Z.abs q)
      (Z.abs (net_of h + q)).
Proof.
  intros Hm Hh Hdir p1 Hn1 Ha1.
  destruct Hh as [[[Hq Hpr] Hall']%Forall_cons Htr].
  pose proof (traded_of_nonneg h). pose proof (net_of_split h).
  unfold traded_of in Htr. simpl in Htr. destruct Hbounds as (HP & HQ & HPQ).
  assert (Z.abs (mp_avg_open_price_ticks p) ≤ max_price) as Havg.
  { apply (history_bounded_avg h); [split; [done|unfold traded_of; lia]|done|].
    unfold same_direction in Hdir. lia. }
  assert (Z.abs (net_of h + q) = Z.abs (net_of h) + Z.abs q) as Habs
    by (unfold same_direction in Hdir; lia).
  assert (0 ≤ Z.abs (net_of h) + Z.abs q ≤ max_qty) as Hle by lia.
  set (a := mp_avg_open_price_ticks p) in *.
  pose proof (abs_mul_le a max_price (Z.abs (net_of h)) Havg ltac:(lia)) as HaA.
  pose proof (abs_mul_le price max_price (Z.abs q) Hpr ltac:(lia)) as HpF.
  assert (max_price * Z.abs (net_of h) + max_price * Z.abs q ≤ max_price * max_qty) as Hsum.
  { rewrite <-Z.mul_add_distr_l. apply Z.mul_le_mono_nonneg_l; lia. }
  assert (0 ≤ max_price * Z.abs (net_of h) ∧ 0 ≤ max_price * Z.abs q) as [Hn0 Hq0]
    by (split; apply Z.mul_nonneg_nonneg; lia).
  assert (2 * max_price * max_qty = 2 * (max_price * max_qty)) as Hassoc by lia.
  unfold extend_position. simpl. rewrite Hn1, Ha1, (pm_net _ _ Hm). fold a.
  rewrite !abs_qty_abs by (unfold in_s64; lia).
  rewrite (s64_small (a * _)), (s64_small (price * _)) by (unfold in_s64; lia).
  rewrite (s64_small (a * _ + _)), (s64_small (Z.abs _ + _)), (s64_small (net_of h + q))
    by (unfold in_s64; lia).
  split; [done|]. rewrite Habs. apply s64_small.
  assert (1 ≤ Z.abs (net_of h) + Z.abs q) as H1 by lia.
  pose proof (quot_between (- max_price) max_price (a * Z.abs (net_of h) + price * Z.abs q)
    (Z.abs (net_of h) + Z.abs q) ltac:(lia) ltac:(lia)) as Hquot.
  assert (max_price * 1 ≤ max_price * max_qty) by (apply Z.mul_le_mono_nonneg_l; lia).
  unfold in_s64. lia.
Qed.

Lemma history_bounded_tail q price h :
  history_bounded ((q, price) :: h) → history_bounded h.
Proof.
  intros [[_ ?]%Forall_cons Htr]. split; [done|].
  unfold traded_of in *. simpl in Htr. lia.
Qed.

(** The closing part of a fill, free of overflow. *)
Lemma closing_pnl_exact h p q price :
  position_matches h p → history_bounded ((q, price) :: h) →
  net_of h ≠ 0 →
  ∀ p1, mp_net_qty_lots p1 = mp_net_qty_lots p →
    mp_avg_open_price_ticks p1 = mp_avg_open_price_ticks p →
  let closed := Z.min (Z.abs (net_of h)) (Z.abs q) in
  closing_pnl p1 q price = Z.sgn (net_of h) * (price - mp_avg_open_price_ticks p) * closed ∧
  Z.abs (closing_pnl p1 q price) ≤ 2 * max_price * closed.
Proof.
  intros Hm Hh Hne p1 Hn1 Ha1 closed.
  pose proof (history_bounded_avg h p (history_bounded_tail _ _ _ Hh) Hm Hne) as Havg.
  destruct Hh as [[[Hq Hpr] _]%Forall_cons Htr].
  pose proof (traded_of_nonneg h). pose proof (net_of_split h).
  unfold traded_of in Htr. simpl in Htr. destruct Hbounds as (HP & HQ & HPQ).
  set (a := mp_avg_open_price_ticks p) in *.
  assert (1 ≤ closed ≤ max_qty) as Hc by lia.
  assert (2 * max_price * 1 ≤ 2 * max_price * max_qty) as HP1
    by (apply Z.mul_le_mono_nonneg_l; lia).
  assert (2 * max_price * closed ≤ 2 * max_price * max_qty) as HPc
    by (apply Z.mul_le_mono_nonneg_l; lia).
  pose proof (abs_mul_le (price - a) (2 * max_price) closed ltac:(lia) ltac:(lia)) as Hu.
  pose proof (abs_mul_le (a - price) (2 * max_price) closed ltac:(lia) ltac:(lia)) as Hd.
  unfold closing_pnl. rewrite Hn1, Ha1, (pm_net _ _ Hm). fold a.
  rewrite !abs_qty_abs by (unfold in_s64; lia). fold closed.
  rewrite (s64_small (price - a)), (s64_small (a - price)) by (unfold in_s64; lia).
  rewrite (s64_small (_ * _)), (s64_small (_ * _)) by (unfold in_s64; lia).
  case_decide.
  - rewrite Z.sgn_pos by lia. lia.
  - rewrite Z.sgn_neg by lia. lia.
Qed.

(** A position that has booked the counts of a fill but not yet its price effect. *)
Record position_touched (h : list (Z * Z)) (q price : Z) (p p1 : MarketPositionState) : Prop := {
  pt_net : mp_net_qty_lots p1 = mp_net_qty_lots p;
  pt_avg : mp_avg_open_price_ticks p1 = mp_avg_open_price_ticks p;
  pt_has_open : mp_has_open_price p1 = mp_has_open_price p;
  pt_realized : mp_realized_pnl_ticks p1 = mp_realized_pnl_ticks p;
  pt_closed : mp_closed_qty_lots p1 = mp_closed_qty_lots p;
  pt_bought : mp_bought_qty_lots p1 = bought_of ((q, price) :: h);
  pt_sold : mp_sold_qty_lots p1 = sold_of ((q, price) :: h);
  pt_count : mp_fill_count p1 = u64 (Z.of_nat (length ((q, price) :: h)));
}.

Lemma touch_touched ex tk ts h p q price :
  position_matches h p → history_bounded ((q, price) :: h) →
  position_touched h q price p (touch_position ex tk ts q (Z.abs q) p).
Proof.
  intros Hm [[[Hq _] _]%Forall_cons Htr].
  pose proof (traded_of_nonneg h). destruct Hbounds as (HP & HQ & HPQ).
  unfold traded_of in Htr. simpl in Htr.
  assert (u64_inc (mp_fill_count p) = u64 (Z.of_nat (S (length h)))) as Hcount.
  { rewrite (pm_count _ _ Hm). unfold u64_inc. rewrite u64_u64_add. f_equal. lia. }
  unfold touch_position.
  case_decide; split; simpl; try done.
  - rewrite (pm_bought _ _ Hm), s64_small by (unfold in_s64; lia). lia.
  - rewrite (pm_sold _ _ Hm). lia.
  - rewrite (pm_bought _ _ Hm). lia.
  - rewrite (pm_sold _ _ Hm), s64_small by (unfold in_s64; lia). lia.
Qed.

Lemma open_booked h p p1 q price :
  position_matches h p → history_bounded ((q, price) :: h) →
  position_touched h q price p p1 → net_of h = 0 →
  position_matches ((q, price) :: h)
    (p1 <| mp_net_qty_lots := q |> <| mp_avg_open_price_ticks := price |>
        <| mp_has_open_price := true |>).
Proof.
  intros Hm [[[Hq _] _]%Forall_cons _] Ht Hz. pose proof (net_of_split h).
  split; simpl; rewrite ?(pt_bought _ _ _ _ _ Ht), ?(pt_sold _ _ _ _ _ Ht),
    ?(pt_count _ _ _ _ _ Ht), ?(pt_closed _ _ _ _ _ Ht), ?(pt_realized _ _ _ _ _ Ht); simpl.
  - lia.
  - done.
  - done.
  - rewrite (pm_closed _ _ Hm). lia.
  - done.
  - rewrite bool_decide_true; [done|lia].
  - intros lo hi [Hp _]%Forall_cons _. done.
  - apply (pm_pnl _ _ Hm).
  - pose proof (pm_cash _ _ Hm) as Hc. rewrite Hz in Hc. rewrite Hz. lia.
Qed.

Lemma extend_booked h p p1 q price :
  position_matches h p → history_bounded ((q, price) :: h) →
  position_touched h q price p p1 → same_direction (net_of h) q →
  position_matches ((q, price) :: h) (extend_position p1 q price).
Proof.
  intros Hm Hh Ht Hdir.
  destruct (extend_matches h p q price Hm Hh Hdir p1 (pt_net _ _ _ _ _ Ht)
              (pt_avg _ _ _ _ _ Ht)) as [Hnet Havg].
  pose proof (net_of_split h). unfold same_direction in Hdir.
  set (n := Z.abs (net_of h + q)) in *.
  set (w := mp_avg_open_price_ticks p * Z.abs (net_of h) + price * Z.abs q) in *.
  assert (n = Z.abs (net_of h) + Z.abs q) as Hn by lia.
  split; rewrite ?Hnet, ?Havg; simpl;
    rewrite ?(pt_bought _ _ _ _ _ Ht), ?(pt_sold _ _ _ _ _ Ht),
    ?(pt_count _ _ _ _ _ Ht), ?(pt_closed _ _ _ _ _ Ht), ?(pt_realized _ _ _ _ _ Ht); simpl.
  - lia.
  - done.
  - done.
  - rewrite (pm_closed _ _ Hm). lia.
  - done.
  - rewrite bool_decide_true; [done|lia].
  - intros lo hi [Hp Hall]%Forall_cons _.
    destruct (pm_avg _ _ Hm lo hi Hall ltac:(lia)) as [Hlo Hhi].
    apply quot_between; [lia|]. unfold w. rewrite Hn, !Z.mul_add_distr_l.
    split; apply Z.add_le_mono; apply Z.mul_le_mono_nonneg_r; lia.
  - apply (pm_pnl _ _ Hm).
  - pose proof (pm_cash _ _ Hm) as Hc. pose proof (quot_rounding w n ltac:(lia)) as Hr.
    replace (Z.abs (q + net_of h)) with n by lia.
    destruct Hdir as [[??]|[??]]; unfold n in *;
      rewrite ?(Z.abs_eq (net_of h + q)), ?(Z.abs_neq (net_of h + q)) in Hr |- * by lia;
      unfold w in Hr |- *;
      rewrite ?(Z.abs_eq (net_of h)), ?(Z.abs_neq (net_of h)), ?(Z.abs_eq q), ?(Z.abs_neq q)
        in Hr |- * by lia; lia.
Qed.

(** [close_position], field by field, when nothing overflows. *)
Lemma close_fields p1 q price :
  in_s64 (Z.abs (mp_net_qty_lots p1)) → in_s64 (Z.abs q) →
  in_s64 (mp_net_qty_lots p1 + q) →
  let closed := Z.min (Z.abs (mp_net_qty_lots p1)) (Z.abs q) in
  let net := mp_net_qty_lots p1 + q in
  let p2 := close_position p1 q price in
  mp_net_qty_lots p2 = net ∧
  mp_bought_qty_lots p2 = mp_bought_qty_lots p1 ∧
  mp_sold_qty_lots p2 = mp_sold_qty_lots p1 ∧
  mp_fill_count p2 = mp_fill_count p1 ∧
  mp_closed_qty_lots p2 = mp_closed_qty_lots p1 ⊞ closed ∧
  mp_realized_pnl_ticks p2 = mp_realized_pnl_ticks p1 ⊞ closing_pnl p1 q price ∧
  (net = 0 → mp_has_open_price p2 = false) ∧
  (net ≠ 0 → Z.sgn net = Z.sgn (mp_net_qty_lots p1) →
     mp_has_open_price p2 = mp_has_open_price p1 ∧
     mp_avg_open_price_ticks p2 = mp_avg_open_price_ticks p1) ∧
  (net ≠ 0 → Z.sgn net = - Z.sgn (mp_net_qty_lots p1) →
     mp_has_open_price p2 = true ∧ mp_avg_open_price_ticks p2 = price).
Proof.
  intros Hn Hq Hs closed net p2. unfold p2, close_position.
  rewrite !abs_qty_abs, !(s64_small (mp_net_qty_lots p1 + q)) by done. simpl.
  fold closed net.
  repeat case_decide; simpl; split_and!; done || lia.
Qed.

(** The profit of a closing fill is the cash it moves less the change of the open
    position's cost. *)
Lemma closing_cash net q price a a' :
  net ≠ 0 → ¬ same_direction net q →
  (net + q ≠ 0 → Z.sgn (net + q) = Z.sgn net → a' = a) →
  (net + q ≠ 0 → Z.sgn (net + q) = - Z.sgn net → a' = price) →
  Z.sgn net * (price - a) * Z.min (Z.abs net) (Z.abs q) = - (q * price) + (net + q) * a' - net * a.
Proof.
  unfold same_direction. intros Hne Hdir Hsame Hflip.
  assert (Z.sgn net = 1 ∧ 0 < net ∨ Z.sgn net = -1 ∧ net < 0) as [[-> Hn]|[-> Hn]] by lia.
  - rewrite (Z.abs_eq net), (Z.abs_neq q) by lia.
    destruct (Z.lt_trichotomy net (- q)) as [E|[E|E]].
    + rewrite Z.min_l, Hflip by lia. lia.
    + replace q with (- net) by lia. rewrite Z.opp_involutive, Z.min_id. lia.
    + rewrite Z.min_r, Hsame by lia. lia.
  - rewrite (Z.abs_neq net), (Z.abs_eq q) by lia.
    destruct (Z.lt_trichotomy (- net) q) as [E|[E|E]].
    + rewrite Z.min_l, Hflip by lia. lia.
    + replace q with (- net) by lia. rewrite Z.min_id. lia.
    + rewrite Z.min_r, Hsame by lia. lia.
Qed.

Lemma close_booked h p p1 q price :
  position_matches h p → history_bounded ((q, price) :: h) →
  position_touched h q price p p1 → net_of h ≠ 0 → ¬ same_direction (net_of h) q →
  position_matches ((q, price) :: h) (close_position p1 q price).
Proof.
  intros Hm Hh Ht Hne Hdir.
  destruct (closing_pnl_exact h p q price Hm Hh Hne p1 (pt_net _ _ _ _ _ Ht)
              (pt_avg _ _ _ _ _ Ht)) as [Hpnl Hpnlb].
  pose proof (history_bounded_tail _ _ _ Hh) as Hh'.
  destruct Hh as [[[Hq Hpr] Hall]%Forall_cons Htr].
  pose proof (net_of_split h) as Hsplit. pose proof (traded_of_nonneg h) as Hnn.
  unfold traded_of in Htr. simpl in Htr. pose proof Hdir as Hdir'. unfold same_direction in Hdir'.
  destruct Hbounds as (HP & HQ & HPQ).
  assert (mp_net_qty_lots p1 = net_of h) as Hn1
    by (rewrite (pt_net _ _ _ _ _ Ht); apply (pm_net _ _ Hm)).
  destruct (close_fields p1 q price) as (Hnet & Hb & Hs & Hcnt & Hcl & Hr & Hz & Hsame & Hflip);
    [rewrite ?Hn1; unfold in_s64; lia..|].
  rewrite Hn1, (pt_closed _ _ _ _ _ Ht), (pm_closed _ _ Hm), (s64_small (_ + _)) in Hcl
    by (unfold in_s64; lia).
  set (closed := Z.min (Z.abs (net_of h)) (Z.abs q)) in *.
  assert (2 * max_price * (Z.min (bought_of h) (sold_of h) + closed) ≤ 2 * max_price * max_qty)
    as HPc by (apply Z.mul_le_mono_nonneg_l; lia).
  pose proof (pm_pnl _ _ Hm) as Hrb. rewrite (pm_closed _ _ Hm) in Hrb.
  rewrite Z.mul_add_distr_l in HPc.
  rewrite (pt_realized _ _ _ _ _ Ht), (s64_small (_ + _)) in Hr by (unfold in_s64; lia).
  rewrite Hn1 in *. rewrite (pt_avg _ _ _ _ _ Ht) in Hsame.
  pose proof (pm_cash _ _ Hm) as Hc.
  assert (net_of h + q ≠ 0 → Z.sgn (net_of h + q) ≠ Z.sgn (net_of h) →
    mp_has_open_price (close_position p1 q price) = true ∧
    mp_avg_open_price_ticks (close_position p1 q price) = price) as Hflip'.
  { intros E E'. apply (Hflip E). clear -E E' Hne. lia. }
  split; simpl.
  - rewrite Hnet. apply Z.add_comm.
  - rewrite Hb. apply (pt_bought _ _ _ _ _ Ht).
  - rewrite Hs. apply (pt_sold _ _ _ _ _ Ht).
  - rewrite Hcl. unfold closed. clear -Hdir' Hsplit Hnn Hne. lia.
  - rewrite Hcnt. apply (pt_count _ _ _ _ _ Ht).
  - destruct (decide (net_of h + q = 0)) as [E|E].
    { rewrite Hz by done. rewrite bool_decide_false; [done|]. clear -E. lia. }
    rewrite bool_decide_true by (clear -E; lia).
    destruct (decide (Z.sgn (net_of h + q) = Z.sgn (net_of h))) as [E'|E'].
    + destruct (Hsame E E') as [-> _]. rewrite (pt_has_open _ _ _ _ _ Ht), (pm_open _ _ Hm).
      by apply bool_decide_true.
    + by destruct (Hflip' E E') as [-> _].
  - intros lo hi [Hp Hlo]%Forall_cons Hne'. rewrite Z.add_comm in Hne'.
    destruct (decide (Z.sgn (net_of h + q) = Z.sgn (net_of h))) as [E'|E'].
    + destruct (Hsame Hne' E') as [_ ->]. by apply (pm_avg _ _ Hm).
    + by destruct (Hflip' Hne' E') as [_ ->].
  - rewrite Hr, Hcl, Z.mul_add_distr_l. etrans; [apply Z.abs_triangle|]. by apply Z.add_le_mono.
  - unfold closed in Hpnl. rewrite Hr, Hpnl, (closing_cash _ q price _ _ Hne Hdir (λ E E', proj2 (Hsame E E'))
                         (λ E E', proj2 (Hflip E E'))).
    clear -Hc. lia.
Qed.

Lemma booked_matches ex tk ts h p q price :
  position_matches h p → history_bounded ((q, price) :: h) →
  position_matches ((q, price) :: h) (booked_position ex tk ts q price p).
Proof.
  intros Hm Hh. pose proof (touch_touched ex tk ts h p q price Hm Hh) as Ht.
  unfold booked_position. rewrite (pt_net _ _ _ _ _ Ht), (pm_net _ _ Hm).
  case_decide; [by apply (open_booked h p)|].
  case_decide; [by apply (extend_booked h p)|by apply (close_booked h p)].
Qed.
End bounded.

(** ** What one update does to the ledger *)
Lemma fill_of_signed u ex tk q price :
  fill_of u = Some (ex, tk, q, price) → in_s64 (Z.abs q) →
  ∃ f, ou_data u = OmsUpdateData_Fill f ∧ of_fill_price_ticks f = price ∧
    of_fill_qty_lots f = Z.abs q ∧ q ≠ 0 ∧ ex = ou_exchange u ∧
    tk = (if decide (of_market_ticker f = "") then ou_market_ticker u else of_market_ticker f) ∧
    tk ≠ "" ∧ side_to_signed_qty (of_side f) (of_fill_qty_lots f) = q ∧
    (ou_status u = OmsOrderStatus_kFilled ∨ ou_status u = OmsOrderStatus_kPartiallyFilled).
Proof.
  unfold fill_of. intros Hf Hq. destruct (ou_data u) as [| | |f]; try done.
  case_decide as Hc; [|done]. destruct Hc as (Hst & Htk & Hpos & Hside).
  injection Hf as <- <- Hq' <-. exists f.
  unfold side_to_signed_qty, in_s64 in *.
  destruct (of_side f); try done; subst q;
    rewrite ?s64_small by (unfold in_s64; lia); split_and!; done || lia.
Qed.

Lemma fill_of_none u l :
  fill_of u = None →
  pl_positions (ledger_on_order_update l u).1 = pl_positions l ∧
  pl_realized_pnl_ticks_total (ledger_on_order_update l u).1 = pl_realized_pnl_ticks_total l.
Proof.
  intros Hf. unfold ledger_on_order_update.
  case_decide as Hst; [done|]. destruct (ou_data u) as [| | |f] eqn:Hd; try done.
  unfold apply_fill.
  set (tk := if decide (of_market_ticker f = "") then ou_market_ticker u else of_market_ticker f).
  cbv zeta. destruct (decide (tk = "")) as [|Htk]; [done|].
  destruct (decide (of_fill_qty_lots f ≤ 0)) as [|Hq]; [done|].
  destruct (decide (side_to_signed_qty _ _ = 0)) as [|Hs]; [done|]. exfalso. unfold fill_of in Hf.
  rewrite Hd, decide_True in Hf; [done|]. split_and!.
  - destruct (decide (ou_status u = OmsOrderStatus_kFilled)); [by left|].
    destruct (decide (ou_status u = OmsOrderStatus_kPartiallyFilled)); [by right|naive_solver].
  - done.
  - lia.
  - intros E. by rewrite E in Hs.
Qed.

(** A booked fill replaces the position of its market by [booked_position] and no other. *)
Lemma fill_of_some u l ex tk q price :
  fill_of u = Some (ex, tk, q, price) → in_s64 (Z.abs q) →
  pl_positions (ledger_on_order_update l u).1 =
    <[(ex, tk) := booked_position ex tk (ou_recv_ts_ns u) q price
                    (default position_default (pl_positions l !! (ex, tk)))]> (pl_positions l) ∧
  (ledger_on_order_update l u).2 = Ok tt.
Proof.
  intros Hf Hq. destruct (fill_of_signed _ _ _ _ _ Hf Hq)
    as (f & Hd & <- & Hqa & Hne & -> & -> & Htk & Hsg & Hst).
  unfold ledger_on_order_update. rewrite decide_False by naive_solver. rewrite Hd.
  unfold apply_fill. rewrite decide_False by done. rewrite decide_False by lia.
  rewrite Hsg, decide_False by done. rewrite Hqa. unfold booked_position. cbv zeta.
  set (tk := if decide (of_market_ticker f = "") then ou_market_ticker u else of_market_ticker f).
  set (p1 := touch_position _ _ _ _ _ _).
  destruct (decide (mp_net_qty_lots p1 = 0)); [done|].
  destruct (decide (same_direction (mp_net_qty_lots p1) q)); [done|].
  by destruct (decide (mp_net_qty_lots (close_position _ _ _) = 0)).
Qed.

Lemma history_cons key u us :
  history key (u :: us) =
    match fill_of u with
    | Some (ex, tk, q, p) =>
      if decide ((ex, tk) = key) then (q, p) :: history key us else history key us
    | None => history key us
    end.
Proof. done. Qed.

Lemma ledger_run_snoc l us u :
  ledger_run l (us ++ [u]) = (ledger_on_order_update (ledger_run l us) u).1.
Proof. unfold ledger_run. by rewrite foldl_app. Qed.

Section history_run.
Context (max_price max_qty : Z).
Hypothesis Hbounds : ledger_bounds max_price max_qty.

Lemma history_bounded_qty q price h :
  history_bounded max_price max_qty ((q, price) :: h) → in_s64 (Z.abs q).
Proof.
  intros [_ Htr]. unfold traded_of in Htr. simpl in Htr. pose proof (traded_of_nonneg h).
  destruct Hbounds. unfold in_s64. lia.
Qed.

Lemma run_matches us :
  (∀ key, history_bounded max_price max_qty (history key (rev us))) →
  ∀ key, position_matches max_price (history key (rev us))
    (default position_default (pl_positions (ledger_run ledger_init us) !! key)).
Proof.
  induction us as [|u us IH] using rev_ind; intros Hh key.
  { apply position_matches_default. }
  rewrite rev_app_distr in Hh |- *. cbn [rev app] in Hh |- *. rewrite ledger_run_snoc.
  assert (∀ key, history_bounded max_price max_qty (history key (rev us))) as Hh'.
  { intros key'. specialize (Hh key'). rewrite history_cons in Hh.
    destruct (fill_of u) as [[[[ex tk] q] p]|]; [|done].
    case_decide; [by apply history_bounded_tail in Hh|done]. }
  specialize (IH Hh'). pose proof (Hh key) as Hk. rewrite history_cons in Hk |- *.
  destruct (fill_of u) as [[[[ex tk] q] p]|] eqn:Hf.
  2: { destruct (fill_of_none u (ledger_run ledger_init us) Hf) as [-> _]. apply IH. }
  assert (in_s64 (Z.abs q)) as Hq.
  { specialize (Hh (ex, tk)). rewrite history_cons, Hf, decide_True in Hh by done.
    by apply history_bounded_qty in Hh. }
  destruct (fill_of_some u (ledger_run ledger_init us) _ _ _ _ Hf Hq) as [-> _].
  case_decide as E.
  - subst key. rewrite lookup_insert_eq. simpl. by eapply booked_matches.
  - rewrite lookup_insert_ne by done. apply IH.
Qed.
End history_run.

(** ** Profit totals and counters *)
Definition realized_of (positions : gmap (ExchangeId * string) MarketPositionState) : Z :=
  sum_map (λ _ p, mp_realized_pnl_ticks p) positions.

Definition handled_count (l : PositionLedgerCore) : Z :=
  pl_processed_fill_count l + pl_ignored_update_count l + pl_rejected_fill_count l.

Lemma booked_realized p1 q price :
  mp_realized_pnl_ticks (close_position p1 q price) =
    mp_realized_pnl_ticks p1 ⊞ closing_pnl p1 q price ∧
  mp_realized_pnl_ticks (extend_position p1 q price) = mp_realized_pnl_ticks p1.
Proof. unfold close_position. cbv zeta. split; [|done]. by repeat case_decide. Qed.

Lemma touch_realized ex tk ts sq q p :
  mp_realized_pnl_ticks (touch_position ex tk ts sq q p) = mp_realized_pnl_ticks p.
Proof. unfold touch_position. by case_decide. Qed.

(** One update: which counter it moves, and the total against the positions. *)
Lemma ledger_step_accounting l u :
  let l' := (ledger_on_order_update l u).1 in
  u64 (handled_count l') = u64 (handled_count l + 1) ∧
  (pl_realized_pnl_ticks_total l = s64 (realized_of (pl_positions l)) →
   pl_realized_pnl_ticks_total l' = s64 (realized_of (pl_positions l'))).
Proof.
  assert (∀ a b c, u64 (u64_inc a + b + c) = u64 (a + b + c + 1) ∧
                   u64 (a + u64_inc b + c) = u64 (a + b + c + 1) ∧
                   u64 (a + b + u64_inc c) = u64 (a + b + c + 1)) as Hinc.
  { intros a b c. unfold u64_inc, u64. split_and!.
    - rewrite <-Z.add_assoc, Zplus_mod_idemp_l. f_equal. lia.
    - rewrite (Z.add_comm a), <-Z.add_assoc, Zplus_mod_idemp_l. f_equal. lia.
    - rewrite Zplus_mod_idemp_r. f_equal. lia. }
  unfold ledger_on_order_update, reject_fill.
  case_decide; [split; [apply Hinc|done]|].
  destruct (ou_data u) as [| | |f]; try (split; [apply Hinc|done]).
  unfold apply_fill, reject_fill.
  set (tk := if decide (of_market_ticker f = "") then ou_market_ticker u else of_market_ticker f).
  cbv zeta. destruct (decide (tk = "")); [split; [apply Hinc|done]|].
  destruct (decide (of_fill_qty_lots f ≤ 0)); [split; [apply Hinc|done]|].
  destruct (decide (side_to_signed_qty _ _ = 0)); [split; [apply Hinc|done]|].
  set (p := default position_default _). set (p1 := touch_position _ _ _ _ _ _).
  assert (mp_realized_pnl_ticks p1 = mp_realized_pnl_ticks p) as Hp1 by apply touch_realized.
  set (sq := side_to_signed_qty _ _) in *. set (price := of_fill_price_ticks f) in *.
  destruct (booked_realized p1 sq price) as [Hcl Hex].
  assert (∀ v, realized_of (<[(ou_exchange u, tk) := v]> (pl_positions l)) =
    realized_of (pl_positions l) - mp_realized_pnl_ticks p + mp_realized_pnl_ticks v) as Hsum.
  { intros v. unfold realized_of. by rewrite (sum_map_assign _ _ _ _ position_default). }
  destruct (decide (mp_net_qty_lots p1 = 0)).
  { split; [apply Hinc|]. simpl. intros ->. rewrite Hsum. simpl. f_equal. lia. }
  destruct (decide (same_direction _ _)).
  { split; [apply Hinc|]. simpl. intros ->. rewrite Hsum, Hex. f_equal. lia. }
  destruct (decide (mp_net_qty_lots (close_position _ _ _) = 0));
    (split; [apply Hinc|]); simpl; intros ->; rewrite Hsum, Hcl, s64_s64_add, Hp1;
    set (r := mp_realized_pnl_ticks p); set (pnl := closing_pnl p1 sq price);
    destruct (s64_decomp (r + pnl)) as [k ->];
    replace (_ - r + _) with (realized_of (pl_positions l) + pnl + k * 18446744073709551616) by lia;
    by rewrite s64_shift.
Qed.

Lemma ledger_run_accounting us :
  let l := ledger_run ledger_init us in
  pl_realized_pnl_ticks_total l = s64 (realized_of (pl_positions l)) ∧
  u64 (handled_count l) = u64 (Z.of_nat (length us)).
Proof.
  induction us as [|u us [IHr IHc]] using rev_ind; [done|].
  cbv zeta. rewrite ledger_run_snoc.
  destruct (ledger_step_accounting (ledger_run ledger_init us) u) as [Hc Hr].
  split; [by apply Hr|].
  rewrite Hc, <-u64_u64_add, IHc, u64_u64_add, length_app. simpl. f_equal. lia.
Qed.

(** ** The snapshot the portfolio gate sees *)
Definition on_exchange (exchange : ExchangeId) (w : MarketPositionState → Z)
    (key : ExchangeId * string) (p : MarketPositionState) : Z :=
  if decide (key.1 = exchange) then w p else 0.

Definition gross_of (l : PositionLedgerCore) (exchange : ExchangeId) : Z :=
  sum_map (on_exchange exchange (λ p, Z.abs (mp_net_qty_lots p))) (pl_positions l).

Definition net_position (l : PositionLedgerCore) (key : ExchangeId * string) : Z :=
  mp_net_qty_lots (default position_default (pl_positions l !! key)).

Lemma portfolio_risk_snapshot_sums l exchange market_ticker :
  portfolio_risk_snapshot l exchange market_ticker =
    mkPortfolioRiskSnapshot (net_position l (exchange, market_ticker))
      (s64 (sum_map (on_exchange exchange (λ p, abs_qty (mp_net_qty_lots p))) (pl_positions l)))
      (s64 (sum_map (on_exchange exchange mp_realized_pnl_ticks) (pl_positions l))).
Proof.
  unfold portfolio_risk_snapshot.
  replace (match pl_positions l !! (exchange, market_ticker) with
           | Some p => mp_net_qty_lots p | None => 0 end)
    with (net_position l (exchange, market_ticker))
    by (unfold net_position; by destruct (pl_positions l !! _)).
  generalize (net_position l (exchange, market_ticker)) as n. intros n.
  unfold sum_map. generalize (pl_positions l) as m. intros m.
  induction m as [|k p m Hk Hfold IH] using map_first_key_ind; [done|].
  rewrite !map_fold_insert_first_key, IH by done.
  assert (∀ w, on_exchange exchange w k p = if decide (k.1 = exchange) then w p else 0) as Hk'
    by done.
  rewrite !Hk'. destruct (decide (k.1 = exchange)) as [E|E].
  - rewrite decide_False by naive_solver. simpl. rewrite !s64_s64_add.
    f_equal; by rewrite Z.add_comm.
  - by rewrite decide_True by done.
Qed.

(** While a position fits its type the sum is that of the absolute positions. *)
Lemma gross_term_le l exchange tk :
  Z.abs (net_position l (exchange, tk)) ≤ gross_of l exchange.
Proof.
  unfold net_position, gross_of.
  assert (∀ k p, pl_positions l !! k = Some p →
    0 ≤ on_exchange exchange (λ p, Z.abs (mp_net_qty_lots p)) k p) as Hnn.
  { intros k p _. unfold on_exchange. case_decide; lia. }
  destruct (pl_positions l !! (exchange, tk)) as [p|] eqn:Hp; simpl.
  - pose proof (sum_map_term_le _ _ _ _ Hnn Hp) as Hle. unfold on_exchange at 1 in Hle.
    rewrite decide_True in Hle by done. done.
  - by apply sum_map_nonneg.
Qed.

Lemma gross_of_exact l exchange :
  in_s64 (gross_of l exchange) →
  s64 (sum_map (on_exchange exchange (λ p, abs_qty (mp_net_qty_lots p))) (pl_positions l)) =
    gross_of l exchange.
Proof.
  intros Hg. rewrite <-(s64_small (gross_of l exchange)) by done. f_equal.
  apply sum_map_ext. intros [ex tk] p Hp. unfold on_exchange. simpl.
  case_decide as E; [|done]. subst ex. apply abs_qty_abs.
  pose proof (gross_term_le l exchange tk) as Hle. unfold net_position in Hle.
  rewrite Hp in Hle. simpl in Hle. unfold in_s64 in *. lia.
Qed.

Lemma booked_net ex tk ts q price p :
  in_s64 (mp_net_qty_lots p + q) → in_s64 q →
  mp_net_qty_lots (booked_position ex tk ts q price p) = mp_net_qty_lots p + q.
Proof.
  intros Hs Hq. unfold booked_position.
  assert (mp_net_qty_lots (touch_position ex tk ts q (Z.abs q) p) = mp_net_qty_lots p) as Ht
    by (unfold touch_position; by case_decide).
  rewrite Ht. destruct (decide (mp_net_qty_lots p = 0)) as [->|]; [simpl; lia|].
  destruct (decide (same_direction _ _)).
  - simpl. by rewrite Ht, s64_small.
  - unfold close_position. cbv zeta. simpl. rewrite Ht.
    repeat case_decide; simpl; by rewrite s64_small.
Qed.

(** ** The properties of the ledger *)

(** C3: when the traded quantity of every market and the prices stay within bounds
    whose product fits a [std::int64_t], then after any sequence of updates the
    position of every market is the one its fills determine: net, bought, sold and
    closed quantities are exact, the average price exists exactly for open positions
    and lies between the prices paid, and realised profit equals cash flow plus the
    cost of the open position up to the rounding of the averages. *)
Theorem ledger_matches_history max_price max_qty us key :
  ledger_bounds max_price max_qty →
  (∀ key, history_bounded max_price max_qty (history key (rev us))) →
  position_matches max_price (history key (rev us))
    (default position_default (pl_positions (ledger_run ledger_init us) !! key)).
Proof. intros Hb Hh. by eapply run_matches. Qed.

(** C37: over any sequence of updates, whatever their contents, the ledger-wide profit
    is the (wrapped) sum of the per-market profits, and every update is counted as
    exactly one of processed, ignored and rejected. *)
Theorem ledger_accounting us :
  let l := ledger_run ledger_init us in
  pl_realized_pnl_ticks_total l = s64 (realized_of (pl_positions l)) ∧
  u64 (handled_count l) = u64 (Z.of_nat (length us)).
Proof. apply ledger_run_accounting. Qed.

(** The position after a fill that is part of an intent the portfolio gate allowed. *)
Lemma partial_fill_abs net d q :
  (0 < q ≤ d ∨ d ≤ q < 0) → Z.abs (net + q) ≤ Z.max (Z.abs net) (Z.abs (net + d)).
Proof. lia. Qed.

Lemma gross_of_assign l l' ex tk v :
  pl_positions l' = <[(ex, tk) := v]> (pl_positions l) →
  net_position l' (ex, tk) = mp_net_qty_lots v ∧
  gross_of l' ex = gross_of l ex - Z.abs (net_position l (ex, tk)) + Z.abs (mp_net_qty_lots v).
Proof.
  intros Hl. unfold net_position, gross_of. rewrite Hl, lookup_insert_eq. split; [done|].
  rewrite (sum_map_assign _ _ _ _ position_default).
  - unfold on_exchange at 2 3. simpl. by rewrite !decide_True by done.
  - unfold on_exchange. simpl. by case_decide.
Qed.

(** C8: the portfolio gate keeps the ledger within its limits.  If the gate, fed with
    the ledger's own snapshot, allows an order-creating intent, then a fill of any
    part of that order in that market leaves the market's net position and the
    exchange's gross position within the configured limits, or no larger than they
    were before the fill. *)
Theorem allowed_fill_within_limits config intent l u ex tk q price :
  creates_order intent →
  pd_allow (portfolio_evaluate config intent (portfolio_risk_snapshot l ex tk)) = true →
  gross_of l ex + oi_qty_lots intent < 9223372036854775808 →
  fill_of u = Some (ex, tk, q, price) →
  (0 < q ≤ signed_intent_qty intent ∨ signed_intent_qty intent ≤ q < 0) →
  let l' := (ledger_on_order_update l u).1 in
  (0 < pc_max_abs_net_position_per_market config →
     Z.abs (net_position l' (ex, tk)) ≤
       Z.max (pc_max_abs_net_position_per_market config) (Z.abs (net_position l (ex, tk)))) ∧
  (0 < pc_max_abs_position_gross_global config →
     gross_of l' ex ≤ Z.max (pc_max_abs_position_gross_global config) (gross_of l ex)).
Proof.
  intros Hcr Hallow Hroom Hf Hpart l'.
  apply portfolio_allow_iff in Hallow; [|done]. rewrite portfolio_risk_snapshot_sums in Hallow.
  destruct Hallow as (_ & _ & Hnet & Hgross). simpl in Hnet, Hgross.
  pose proof (gross_term_le l ex tk) as Hterm.
  set (n := net_position l (ex, tk)) in *. set (d := signed_intent_qty intent) in *.
  assert (0 < oi_qty_lots intent ∧ Z.abs d = oi_qty_lots intent) as [Hqpos Hd].
  { unfold d, signed_intent_qty in *. case_decide; [lia|]. split; [lia|].
    destruct (oi_side intent); rewrite ?s64_small by (unfold in_s64; lia); lia. }
  assert (in_s64 (gross_of l ex)) as Hg by (unfold in_s64; lia).
  rewrite (gross_of_exact l ex Hg) in Hgross. unfold llabs_qty in Hnet, Hgross.
  rewrite (s64_small (n + d)) in Hnet, Hgross by (unfold in_s64; lia).
  rewrite (s64_small (Z.abs (n + d))) in Hnet, Hgross by (unfold in_s64; lia).
  rewrite (s64_small (Z.abs n)) in Hgross by (unfold in_s64; lia).
  rewrite (s64_small (_ - _)), (s64_small (_ + _)) in Hgross by (unfold in_s64; lia).
  destruct (fill_of_some u l ex tk q price Hf) as [Hpos _]; [unfold in_s64; lia|].
  apply gross_of_assign in Hpos as [Hn' Hg'].
  rewrite booked_net in Hn', Hg' by (fold n; unfold in_s64; fold (net_position l (ex, tk)); lia).
  change (mp_net_qty_lots (default position_default (pl_positions l !! (ex, tk)))) with n
    in Hn', Hg'.
  fold l' in Hn', Hg'. fold n in Hg'. rewrite Hn', Hg'.
  pose proof (partial_fill_abs n d q Hpart). split; intros; lia.
Qed.

(** ** Concrete runs *)
Definition demo_fill (side : Side) (qty price : Z) : OrderStateUpdate :=
  mkOrderStateUpdate ExchangeId_kKalshi OmsOrderStatus_kFilled "c1" None "MKT" 7
    (OmsUpdateData_Fill (mkOrderFill "c1" None "MKT" qty price side OmsLiquidity_kUnknown)) "".

(** Open 10 lots at 40, close 4 at 55, then sell 10 more at 60: the position flips. *)
Definition demo_fills : list OrderStateUpdate :=
  [demo_fill Side_kBuy 10 40; demo_fill Side_kSell 4 55; demo_fill Side_kSell 10 60].

Lemma ledger_matches_history_witness :
  position_matches 100 [(-10, 60); (-4, 55); (10, 40)]
    (default position_default
       (pl_positions (ledger_run ledger_init demo_fills) !! (ExchangeId_kKalshi, "MKT"))).
Proof.
  apply (ledger_matches_history 100 1000 demo_fills (ExchangeId_kKalshi, "MKT")).
  - unfold ledger_bounds. lia.
  - intros key. simpl. unfold history_bounded.
    case_decide; (split; [repeat constructor; lia|vm_compute; discriminate]).
Defined.

Lemma allowed_fill_within_limits_witness :
  let l := ledger_run ledger_init [demo_fill Side_kBuy 10 40] in
  let l' := (ledger_on_order_update l (demo_fill Side_kBuy 3 41)).1 in
  (0 < 15 → Z.abs (net_position l' (ExchangeId_kKalshi, "MKT")) ≤ 15 `max` 10) ∧
  (0 < 15 → gross_of l' ExchangeId_kKalshi ≤ 15 `max` 10).
Proof.
  apply (allowed_fill_within_limits (mkPortfolioRiskConfig 15 15 0 false)
           (demo_intent Side_kBuy 5) (ledger_run ledger_init [demo_fill Side_kBuy 10 40])
           (demo_fill Side_kBuy 3 41) ExchangeId_kKalshi "MKT" 3 41).
  - left. reflexivity.
  - vm_compute. reflexivity.
  - vm_compute. reflexivity.
  - reflexivity.
  - left. split; vm_compute; [reflexivity|discriminate].
Defined.
