(* ===== verification/BookStore.v ===== *)
(** * BookStore: the order books of a shard

    Model of src/cpp/src/shards/book_store.cpp and book_store.hpp.  A book is rebuilt
    from a snapshot and the deltas after it; deltas that arrive before the first
    snapshot are buffered (at most [kMaxPendingDeltas]) and replayed; a replay that
    fails, or a buffer that overflows, leaves the book desynchronised until the next
    snapshot.  [std::map] levels are finite maps from price to quantity (the order of
    the levels is not used by this component), [std::deque] is a list. *)
From Stdlib Require Import Sorting.Sorted.
From S2P Require Import Prelude.
From S2P Require Import Types.
Local Open Scope machine_scope.

(** ** Data *)
Record PendingDelta := mkPendingDelta {
  pe_sequence_id : option SequenceId;
  pe_delta : DeltaData;
}.

Record BookState := mkBookState {
  bk_market_ticker : string;
  bk_last_seq_id : option SequenceId;
  bk_has_snapshot : bool;
  bk_desynced : bool;
  bk_bids : gmap Z Z;
  bk_asks : gmap Z Z;
  bk_pending_deltas : list PendingDelta;
  bk_last_trade : option TradeData;
  bk_snapshot_count : Z;
  bk_delta_count : Z;
  bk_trade_count : Z;
  bk_buffered_delta_count : Z;
  bk_replayed_delta_count : Z;
  bk_dropped_pending_delta_count : Z;
  bk_desync_count : Z;
  bk_stale_sequence_count : Z;
  bk_apply_reject_count : Z;
}.

#[export] Instance BookState_settable : Settable BookState := λ x,
  mkBookState (bk_market_ticker x) (bk_last_seq_id x) (bk_has_snapshot x) (bk_desynced x)
    (bk_bids x) (bk_asks x) (bk_pending_deltas x) (bk_last_trade x) (bk_snapshot_count x)
    (bk_delta_count x) (bk_trade_count x) (bk_buffered_delta_count x)
    (bk_replayed_delta_count x) (bk_dropped_pending_delta_count x) (bk_desync_count x)
    (bk_stale_sequence_count x) (bk_apply_reject_count x).

(** The books of the store, by market ticker. *)
Abbreviation BookStore := (gmap string BookState) (only parsing).

(** ** Operations *)
Definition kMaxPendingDeltas : Z := 512.

Definition book_default : BookState :=
  mkBookState "" None false false ∅ ∅ [] None 0 0 0 0 0 0 0 0 0.

Definition mark_desynced (book : BookState) (dropped_pending_count : Z) : BookState :=
  let book := if bk_desynced book then book else book <| bk_desync_count ::= u64_inc |> in
  book <| bk_desynced := true |>
       <| bk_has_snapshot := false |>
       <| bk_last_seq_id := None |>
       <| bk_bids := ∅ |>
       <| bk_asks := ∅ |>
       <| bk_pending_deltas := [] |>
       <| bk_dropped_pending_delta_count ::= λ n, u64 (n + dropped_pending_count) |>.

Definition advance_sequence_if_present (book : BookState) (sequence_id : option SequenceId)
    : BookState * bool :=
  match sequence_id with
  | None => (book, true)
  | Some next_seq =>
    match bk_last_seq_id book with
    | Some last_seq =>
      if decide (next_seq ≤ last_seq)
      then (book <| bk_stale_sequence_count ::= u64_inc |>, false)
      else (book <| bk_last_seq_id := Some next_seq |>, true)
    | None => (book <| bk_last_seq_id := Some next_seq |>, true)
    end
  end.

(** One side of a snapshot: levels are written in order until an invalid one. *)
Fixpoint write_levels (m : gmap Z Z) (levels : list Level) : gmap Z Z * bool :=
  match levels with
  | [] => (m, true)
  | level :: levels =>
    if decide (lv_price_ticks level < 0 ∨ lv_qty_lots level ≤ 0) then (m, false)
    else write_levels (<[lv_price_ticks level := lv_qty_lots level]> m) levels
  end.

Definition apply_snapshot_data (book : BookState) (snapshot : SnapshotData)
    : BookState * bool :=
  let book := book <| bk_bids := ∅ |> <| bk_asks := ∅ |> in
  let '(bids, bids_ok) := write_levels (bk_bids book) (sn_bids snapshot) in
  let book := book <| bk_bids := bids |> in
  if bids_ok then
    let '(asks, asks_ok) := write_levels (bk_asks book) (sn_asks snapshot) in
    (book <| bk_asks := asks |>, asks_ok)
  else (book, false).

(** The update of one level: absent counts as 0, and a level that is not positive is
    erased. *)
Definition update_level (levels : gmap Z Z) (price delta_qty : Z) : gmap Z Z :=
  let existing_qty := default 0 (levels !! price) in
  let updated_qty := existing_qty ⊞ delta_qty in
  if decide (updated_qty ≤ 0) then delete price levels else <[price := updated_qty]> levels.

Definition apply_delta_data (book : BookState) (delta : DeltaData) : BookState * bool :=
  if decide (dd_price_ticks delta < 0) then (book, false)
  else
    match dd_side delta with
    | Side_kBid | Side_kBuy =>
      (book <| bk_bids ::= λ m, update_level m (dd_price_ticks delta) (dd_delta_qty_lots delta) |>,
       true)
    | Side_kAsk | Side_kSell =>
      (book <| bk_asks ::= λ m, update_level m (dd_price_ticks delta) (dd_delta_qty_lots delta) |>,
       true)
    | Side_kUnknown => (book, false)
    end.

(** The loop of [replay_pending_deltas]; the first argument is the queue still to be
    replayed, which the loop pops from the front. *)
Fixpoint replay_loop (pending : list PendingDelta) (book : BookState) : BookState * bool :=
  match pending with
  | [] => (book <| bk_pending_deltas := [] |>, true)
  | entry :: rest =>
    let book := book <| bk_pending_deltas := rest |> in
    let '(book, advanced) := advance_sequence_if_present book (pe_sequence_id entry) in
    if advanced then
      let '(book, applied) := apply_delta_data book (pe_delta entry) in
      if applied then
        replay_loop rest
          (book <| bk_delta_count ::= u64_inc |> <| bk_replayed_delta_count ::= u64_inc |>)
      else (mark_desynced book (Z.of_nat (length rest) + 1), false)
    else replay_loop rest (book <| bk_dropped_pending_delta_count ::= u64_inc |>)
  end.

Definition replay_pending_deltas (book : BookState) : BookState * bool :=
  replay_loop (bk_pending_deltas book) book.

Definition reject_event (book : BookState) : BookState * bool :=
  (book <| bk_apply_reject_count ::= u64_inc |>, false).

(** The three cases of the switch of [BookStore::apply] that do work. *)
Definition apply_snapshot_event (book : BookState) (event : NormalizedEvent)
    : BookState * bool :=
  match ne_data event with
  | EventData_Snapshot snapshot =>
    let '(book, ok) := apply_snapshot_data book snapshot in
    if ok then
      let book :=
        book <| bk_has_snapshot := true |>
             <| bk_desynced := false |>
             <| bk_last_seq_id := effective_sequence_id event |>
             <| bk_snapshot_count ::= u64_inc |> in
      let '(book, replayed) := replay_pending_deltas book in
      if replayed then (book, true) else reject_event book
    else reject_event book
  | _ => reject_event book
  end.

Definition apply_delta_event (book : BookState) (event : NormalizedEvent)
    : BookState * bool :=
  match ne_data event with
  | EventData_Delta delta =>
    if bk_desynced book then reject_event book
    else if negb (bk_has_snapshot book) then
      if decide (kMaxPendingDeltas ≤ Z.of_nat (length (bk_pending_deltas book))) then
        reject_event
          (mark_desynced book (u64 (Z.of_nat (length (bk_pending_deltas book)) + 1)))
      else
        (book <| bk_pending_deltas ::= λ q, q ++ [mkPendingDelta (effective_sequence_id event) delta] |>
              <| bk_buffered_delta_count ::= u64_inc |>, true)
    else
      let '(book, advanced) := advance_sequence_if_present book (effective_sequence_id event) in
      if advanced then
        let '(book, applied) := apply_delta_data book delta in
        if applied then (book <| bk_delta_count ::= u64_inc |>, true) else reject_event book
      else reject_event book
  | _ => reject_event book
  end.

Definition apply_trade_event (book : BookState) (event : NormalizedEvent)
    : BookState * bool :=
  match ne_data event with
  | EventData_Trade trade =>
    if bk_desynced book then reject_event book
    else
      let '(book, advanced) := advance_sequence_if_present book (effective_sequence_id event) in
      if advanced
      then (book <| bk_last_trade := Some trade |> <| bk_trade_count ::= u64_inc |>, true)
      else reject_event book
  | _ => reject_event book
  end.

Definition apply_book_event (book : BookState) (event : NormalizedEvent) : BookState * bool :=
  match ne_type event with
  | EventType_kSnapshot => apply_snapshot_event book event
  | EventType_kDelta => apply_delta_event book event
  | EventType_kTrade => apply_trade_event book event
  | EventType_kHeartbeat | EventType_kStatus | EventType_kUnknown => reject_event book
  end.

Definition store_apply (books : BookStore) (event : NormalizedEvent) : BookStore * bool :=
  let ticker := ne_market_ticker event in
  if decide (ticker = "" ∨ ne_type event = EventType_kUnknown) then (books, false)
  else
    let book := default (book_default <| bk_market_ticker := ticker |>) (books !! ticker) in
    let '(book, ok) := apply_book_event book event in
    (<[ticker := book]> books, ok).

Definition store_find (books : BookStore) (market_ticker : string) : option BookState :=
  books !! market_ticker.

Definition store_size (books : BookStore) : Z := Z.of_nat (size books).

(** A run of the store over a sequence of events. *)
Definition store_run (books : BookStore) (events : list NormalizedEvent) : BookStore :=
  foldl (λ b e, (store_apply b e).1) books events.

(** ** The invariant of a book *)
Definition levels_ok (m : gmap Z Z) : Prop := map_Forall (λ price qty, 0 ≤ price ∧ 0 < qty) m.

Record book_wf (b : BookState) : Prop := {
  bw_bids : levels_ok (bk_bids b);
  bw_asks : levels_ok (bk_asks b);
  bw_pending : Z.of_nat (length (bk_pending_deltas b)) ≤ kMaxPendingDeltas;
  bw_live : bk_has_snapshot b = true → bk_desynced b = false ∧ bk_pending_deltas b = [];
  bw_desynced : bk_desynced b = true → bk_last_seq_id b = None ∧ bk_pending_deltas b = [];
}.

Definition store_wf (books : BookStore) : Prop :=
  map_Forall (λ ticker b, ticker ≠ "" ∧ bk_market_ticker b = ticker ∧ book_wf b) books.

Lemma levels_ok_empty : levels_ok ∅.
Proof. apply map_Forall_empty. Qed.

Lemma write_levels_ok m levels : levels_ok m → levels_ok (write_levels m levels).1.
Proof.
  revert m. induction levels as [|l ls IH]; intros m Hm; simpl; [done|].
  case_decide; [done|]. apply IH, map_Forall_insert_2; [lia|done].
Qed.

Lemma update_level_ok m price d :
  0 ≤ price → levels_ok m → levels_ok (update_level m price d).
Proof.
  intros Hp Hm. unfold update_level. case_decide.
  - by apply map_Forall_delete.
  - apply map_Forall_insert_2; [lia|done].
Qed.

#[export] Hint Resolve levels_ok_empty write_levels_ok update_level_ok : trading.

(** What each helper keeps of the book.  [same_frame] are the fields that only
    [apply_snapshot_event] and [mark_desynced] write. *)
Definition same_frame (b b' : BookState) : Prop :=
  bk_market_ticker b' = bk_market_ticker b ∧ bk_has_snapshot b' = bk_has_snapshot b ∧
  bk_desynced b' = bk_desynced b ∧ bk_pending_deltas b' = bk_pending_deltas b.

Lemma advance_spec b s :
  let '(b', ok) := advance_sequence_if_present b s in
  same_frame b b' ∧ bk_bids b' = bk_bids b ∧ bk_asks b' = bk_asks b ∧
  bk_last_trade b' = bk_last_trade b ∧
  bk_apply_reject_count b' = bk_apply_reject_count b ∧
  bk_delta_count b' = bk_delta_count b ∧ bk_snapshot_count b' = bk_snapshot_count b ∧
  if ok
  then bk_last_seq_id b' = match s with Some n => Some n | None => bk_last_seq_id b end ∧
       (∀ n l, s = Some n → bk_last_seq_id b = Some l → l < n) ∧
       bk_stale_sequence_count b' = bk_stale_sequence_count b
  else bk_last_seq_id b' = bk_last_seq_id b ∧
       (∃ n l, s = Some n ∧ bk_last_seq_id b = Some l ∧ n ≤ l) ∧
       bk_stale_sequence_count b' = u64_inc (bk_stale_sequence_count b).
Proof.
  unfold advance_sequence_if_present, same_frame.
  destruct s as [n|]; [destruct (bk_last_seq_id b) as [l|] eqn:Hl; [case_decide|]|];
    simpl; split_and!; try done; try (intros; simplify_eq; lia); eauto.
Qed.

Definition delta_valid (d : DeltaData) : Prop := 0 ≤ dd_price_ticks d ∧ dd_side d ≠ Side_kUnknown.
#[export] Instance delta_valid_dec d : Decision (delta_valid d).
Proof. unfold delta_valid. apply _. Defined.

(** The levels after a valid delta. *)
Definition delta_levels (d : DeltaData) (bids asks : gmap Z Z) : gmap Z Z * gmap Z Z :=
  match dd_side d with
  | Side_kBid | Side_kBuy => (update_level bids (dd_price_ticks d) (dd_delta_qty_lots d), asks)
  | _ => (bids, update_level asks (dd_price_ticks d) (dd_delta_qty_lots d))
  end.

Lemma apply_delta_data_eq b d :
  apply_delta_data b d =
    if decide (delta_valid d)
    then (b <| bk_bids := (delta_levels d (bk_bids b) (bk_asks b)).1 |>
            <| bk_asks := (delta_levels d (bk_bids b) (bk_asks b)).2 |>, true)
    else (b, false).
Proof.
  unfold apply_delta_data, delta_levels, delta_valid. destruct b, d as [[] price q]; simpl;
    repeat case_decide; try done; naive_solver lia.
Qed.

Lemma delta_levels_ok d bids asks :
  0 ≤ dd_price_ticks d → levels_ok bids → levels_ok asks →
  levels_ok (delta_levels d bids asks).1 ∧ levels_ok (delta_levels d bids asks).2.
Proof. intros. unfold delta_levels. destruct (dd_side d); simpl; split; auto with trading. Qed.

Lemma mark_desynced_wf b n : book_wf (mark_desynced b n).
Proof. unfold mark_desynced. destruct (bk_desynced b); split; simpl; done || apply levels_ok_empty. Qed.

Lemma mark_desynced_ticker b n : bk_market_ticker (mark_desynced b n) = bk_market_ticker b.
Proof. unfold mark_desynced. by destruct (bk_desynced b). Qed.

Lemma replay_loop_wf pending b :
  bk_has_snapshot b = true → bk_desynced b = false →
  levels_ok (bk_bids b) → levels_ok (bk_asks b) →
  book_wf (replay_loop pending b).1 ∧
  bk_market_ticker (replay_loop pending b).1 = bk_market_ticker b.
Proof.
  revert b. induction pending as [|e rest IH]; intros b Hs Hd Hb Ha; simpl.
  { split; [|done]. split; simpl; done || (intros; congruence). }
  pose proof (advance_spec (b <| bk_pending_deltas := rest |>) (pe_sequence_id e)) as Hadv.
  destruct (advance_sequence_if_present _ _) as [b1 ok].
  destruct Hadv as ((Htk & Hs1 & Hd1 & _) & Hb1 & Ha1 & _). simpl in *.
  destruct ok.
  2: { rewrite <-Htk.
       match goal with |- book_wf (replay_loop _ ?b2).1 ∧ _ => apply (IH b2) end;
         simpl; by rewrite ?Hs1, ?Hd1, ?Hb1, ?Ha1. }
  rewrite apply_delta_data_eq. case_decide as Hv.
  - rewrite <-Htk. destruct (delta_levels_ok (pe_delta e) (bk_bids b1) (bk_asks b1)) as [Hb2 Ha2];
      [apply Hv|by rewrite Hb1|by rewrite Ha1|].
    match goal with |- book_wf (replay_loop _ ?b2).1 ∧ _ => apply (IH b2) end;
      simpl; by rewrite ?Hs1, ?Hd1.
  - split; [apply mark_desynced_wf|]. rewrite <-Htk. apply mark_desynced_ticker.
Qed.

Lemma reject_wf b : book_wf b → book_wf (reject_event b).1.
Proof. by intros [?????]; split. Qed.

Lemma reject_ticker b : bk_market_ticker (reject_event b).1 = bk_market_ticker b.
Proof. done. Qed.

Lemma apply_snapshot_data_spec b s :
  let '(b', ok) := apply_snapshot_data b s in
  same_frame b b' ∧ levels_ok (bk_bids b') ∧ levels_ok (bk_asks b') ∧
  bk_last_seq_id b' = bk_last_seq_id b ∧
  b' = b <| bk_bids := bk_bids b' |> <| bk_asks := bk_asks b' |>.
Proof.
  unfold apply_snapshot_data, same_frame. simpl.
  pose proof (write_levels_ok ∅ (sn_bids s) levels_ok_empty) as Hb.
  pose proof (write_levels_ok ∅ (sn_asks s) levels_ok_empty) as Ha.
  destruct (write_levels ∅ (sn_bids s)) as [bids []];
    [destruct (write_levels ∅ (sn_asks s)) as [asks ok]|]; simpl in *;
    split_and!; done || apply levels_ok_empty.
Qed.

Lemma apply_snapshot_event_wf b e :
  book_wf b →
  book_wf (apply_snapshot_event b e).1 ∧
  bk_market_ticker (apply_snapshot_event b e).1 = bk_market_ticker b.
Proof.
  intros Hwf. unfold apply_snapshot_event.
  destruct (ne_data e); try (split; [by apply reject_wf|done]).
  pose proof (apply_snapshot_data_spec b s) as Hspec.
  destruct (apply_snapshot_data b s) as [b1 ok].
  destruct Hspec as ((Htk & Hs & Hd & Hp) & Hb & Ha & Hl & _). destruct ok.
  - unfold replay_pending_deltas.
    match goal with |- context [replay_loop ?q ?b2] =>
      destruct (replay_loop_wf q b2) as [Hwf2 Htk2]; [done..|];
      destruct (replay_loop q b2) as [b3 []] end;
      simpl in *; (split; [by try apply reject_wf|congruence]).
  - split; [|done]. apply reject_wf. destruct Hwf as [_ _ Hpend Hlive Hdes].
    split; rewrite ?Hs, ?Hd, ?Hp, ?Hl; done.
Qed.

Lemma apply_delta_event_wf b e :
  book_wf b →
  book_wf (apply_delta_event b e).1 ∧
  bk_market_ticker (apply_delta_event b e).1 = bk_market_ticker b.
Proof.
  intros Hwf. unfold apply_delta_event.
  destruct (ne_data e); try (split; [by apply reject_wf|done]).
  destruct (bk_desynced b) eqn:Hd; [split; [by apply reject_wf|done]|].
  destruct (bk_has_snapshot b) eqn:Hs; simpl.
  2: { case_decide as Hlen.
       { split; [apply reject_wf, mark_desynced_wf|]. by rewrite reject_ticker, mark_desynced_ticker. }
       destruct Hwf as [Hb Ha _ _ _]. split; [|done].
       split; simpl; try done; try congruence.
       rewrite length_app. simpl. unfold kMaxPendingDeltas in *. lia. }
  pose proof (advance_spec b (effective_sequence_id e)) as Hadv.
  destruct (advance_sequence_if_present _ _) as [b1 ok].
  destruct Hadv as ((Htk & Hs1 & Hd1 & Hp1) & Hb1 & Ha1 & _ & _ & _ & _ & Hseq).
  assert (book_wf b1) as Hwf1.
  { destruct Hwf as [Hb Ha Hp Hl _]. split; rewrite ?Hb1, ?Ha1, ?Hp1, ?Hs1, ?Hd1; try done.
    congruence. }
  destruct ok; [|split; [by apply reject_wf|done]].
  rewrite apply_delta_data_eq. case_decide as Hv; [|split; [by apply reject_wf|done]].
  split; [|done]. destruct Hwf1 as [Hb Ha Hp Hl Hdes].
  destruct (delta_levels_ok d (bk_bids b1) (bk_asks b1)); [apply Hv|done..|]. by split.
Qed.

Lemma apply_trade_event_wf b e :
  book_wf b →
  book_wf (apply_trade_event b e).1 ∧
  bk_market_ticker (apply_trade_event b e).1 = bk_market_ticker b.
Proof.
  intros Hwf. unfold apply_trade_event.
  destruct (ne_data e); try (split; [by apply reject_wf|done]).
  destruct (bk_desynced b) eqn:Hd; [split; [by apply reject_wf|done]|].
  pose proof (advance_spec b (effective_sequence_id e)) as Hadv.
  destruct (advance_sequence_if_present _ _) as [b1 ok].
  destruct Hadv as ((Htk & Hs1 & Hd1 & Hp1) & Hb1 & Ha1 & _).
  assert (book_wf b1) as Hwf1.
  { destruct Hwf as [Hb Ha Hp Hl _]. split; rewrite ?Hb1, ?Ha1, ?Hp1, ?Hs1, ?Hd1; try done.
    congruence. }
  destruct ok; (split; [|done]); [|by apply reject_wf]. by destruct Hwf1.
Qed.

Lemma apply_book_event_wf b e :
  book_wf b →
  book_wf (apply_book_event b e).1 ∧
  bk_market_ticker (apply_book_event b e).1 = bk_market_ticker b.
Proof.
  intros Hwf. unfold apply_book_event.
  destruct (ne_type e); auto using apply_snapshot_event_wf, apply_delta_event_wf,
    apply_trade_event_wf; (split; [by apply reject_wf|done]).
Qed.

Lemma book_default_wf ticker : book_wf (book_default <| bk_market_ticker := ticker |>).
Proof. split; simpl; done || apply levels_ok_empty. Qed.

Lemma store_apply_wf books e : store_wf books → store_wf (store_apply books e).1.
Proof.
  intros Hwf. unfold store_apply. case_decide as Hskip; [done|].
  set (b := default _ _).
  assert (book_wf b ∧ bk_market_ticker b = ne_market_ticker e) as [Hb Htk].
  { unfold b. destruct (books !! ne_market_ticker e) as [b0|] eqn:Hl; simpl.
    - apply Hwf in Hl. naive_solver.
    - split; [apply book_default_wf|done]. }
  destruct (apply_book_event_wf b e Hb) as [Hb' Htk'].
  destruct (apply_book_event b e) as [b' ok]. simpl in *.
  apply map_Forall_insert_2; [|done]. split_and!; [tauto|congruence|done].
Qed.

Lemma store_run_snoc books es e :
  store_run books (es ++ [e]) = (store_apply (store_run books es) e).1.
Proof. unfold store_run. by rewrite foldl_app. Qed.

Lemma store_run_cons books e es :
  store_run books (e :: es) = store_run (store_apply books e).1 es.
Proof. done. Qed.

Lemma store_run_wf books es : store_wf books → store_wf (store_run books es).
Proof.
  revert books. induction es as [|e es IH]; intros books Hwf; [done|].
  rewrite store_run_cons. by apply IH, store_apply_wf.
Qed.

(** ** What deltas do to a live book

    [BookView] is the part of a book its readers see; [view_delta] is the effect of a
    valid delta on it. *)
Record BookView := mkBookView {
  vw_bids : gmap Z Z;
  vw_asks : gmap Z Z;
  vw_last_seq_id : option SequenceId;
  vw_has_snapshot : bool;
  vw_desynced : bool;
  vw_delta_count : Z;
  vw_stale_sequence_count : Z;
}.

Definition view (b : BookState) : BookView :=
  mkBookView (bk_bids b) (bk_asks b) (bk_last_seq_id b) (bk_has_snapshot b) (bk_desynced b)
    (bk_delta_count b) (bk_stale_sequence_count b).

Definition seq_fresh (last seq : option Z) : bool :=
  match seq, last with
  | Some n, Some l => bool_decide (l < n)
  | _, _ => true
  end.

Definition view_delta (v : BookView) (seq : option SequenceId) (d : DeltaData) : BookView :=
  if seq_fresh (vw_last_seq_id v) seq then
    let '(bids, asks) := delta_levels d (vw_bids v) (vw_asks v) in
    mkBookView bids asks (match seq with Some n => Some n | None => vw_last_seq_id v end)
      (vw_has_snapshot v) (vw_desynced v) (u64_inc (vw_delta_count v)) (vw_stale_sequence_count v)
  else
    mkBookView (vw_bids v) (vw_asks v) (vw_last_seq_id v) (vw_has_snapshot v) (vw_desynced v)
      (vw_delta_count v) (u64_inc (vw_stale_sequence_count v)).

Lemma advance_view b s :
  let '(b', ok) := advance_sequence_if_present b s in
  ok = seq_fresh (bk_last_seq_id b) s ∧
  view b' = if ok
            then mkBookView (bk_bids b) (bk_asks b)
                   (match s with Some n => Some n | None => bk_last_seq_id b end)
                   (bk_has_snapshot b) (bk_desynced b) (bk_delta_count b)
                   (bk_stale_sequence_count b)
            else mkBookView (bk_bids b) (bk_asks b) (bk_last_seq_id b) (bk_has_snapshot b)
                   (bk_desynced b) (bk_delta_count b) (u64_inc (bk_stale_sequence_count b)).
Proof.
  unfold advance_sequence_if_present, seq_fresh, view.
  destruct s as [n|]; [|done]. destruct (bk_last_seq_id b) as [l|] eqn:Hl; [|by rewrite ?Hl].
  case_decide; simpl.
  - rewrite bool_decide_false by lia. by rewrite Hl.
  - by rewrite bool_decide_true by lia.
Qed.

(** The two places of the code that apply a delta agree on the view. *)
Lemma advance_apply_view b s d b1 ok :
  advance_sequence_if_present b s = (b1, ok) → delta_valid d →
  view_delta (view b) s d =
    if ok then view ((apply_delta_data b1 d).1 <| bk_delta_count ::= u64_inc |>) else view b1.
Proof.
  intros Hadv Hv. pose proof (advance_view b s) as Hview. rewrite Hadv in Hview.
  destruct Hview as [-> Hview]. unfold view_delta. simpl.
  destruct (seq_fresh (bk_last_seq_id b) s); [|done].
  rewrite apply_delta_data_eq, decide_True by done. unfold view in *. simpl.
  injection Hview as -> -> -> -> -> -> ->.
  by destruct (delta_levels d (bk_bids b) (bk_asks b)).
Qed.

Lemma replay_loop_view pending b :
  Forall (λ p, delta_valid (pe_delta p)) pending →
  view (replay_loop pending b).1 =
    foldl (λ v p, view_delta v (pe_sequence_id p) (pe_delta p)) (view b) pending ∧
  (replay_loop pending b).2 = true.
Proof.
  revert b. induction pending as [|p rest IH]; intros b Hall; simpl; [done|].
  apply Forall_cons in Hall as [Hv Hall].
  destruct (advance_sequence_if_present _ (pe_sequence_id p)) as [b1 ok] eqn:Hadv.
  pose proof (advance_apply_view _ _ (pe_delta p) _ _ Hadv Hv) as Hstep.
  change (view_delta (view b) (pe_sequence_id p) (pe_delta p) = if ok then
    view ((apply_delta_data b1 (pe_delta p)).1 <| bk_delta_count ::= u64_inc |>) else view b1)
    in Hstep.
  rewrite Hstep. destruct ok.
  - rewrite apply_delta_data_eq, decide_True by done. cbn [fst].
    match goal with |- context [replay_loop rest ?b2] => by destruct (IH b2 Hall) as [-> ->] end.
  - match goal with |- context [replay_loop rest ?b2] => by destruct (IH b2 Hall) as [-> ->] end.
Qed.

(** A delta event of a market with a usable payload. *)
Definition is_delta_event (ticker : string) (e : NormalizedEvent) (d : DeltaData) : Prop :=
  ne_market_ticker e = ticker ∧ ne_type e = EventType_kDelta ∧ ne_data e = EventData_Delta d ∧
  delta_valid d.

Lemma live_delta_view b e d ticker :
  is_delta_event ticker e d → bk_desynced b = false → bk_has_snapshot b = true →
  view (apply_book_event b e).1 = view_delta (view b) (effective_sequence_id e) d.
Proof.
  intros (_ & Hty & Hd & Hv) Hdes Hs. unfold apply_book_event, apply_delta_event.
  rewrite Hty, Hd, Hdes, Hs. cbn [negb].
  destruct (advance_sequence_if_present _ _) as [b1 ok] eqn:Hadv.
  rewrite (advance_apply_view _ _ _ _ _ Hadv Hv). destruct ok; [|done].
  rewrite apply_delta_data_eq. by rewrite decide_True.
Qed.

Lemma view_delta_live v s d :
  vw_has_snapshot (view_delta v s d) = vw_has_snapshot v ∧
  vw_desynced (view_delta v s d) = vw_desynced v.
Proof.
  unfold view_delta. destruct (seq_fresh _ _); [|done].
  by destruct (delta_levels d (vw_bids v) (vw_asks v)).
Qed.

(** ** One book and its events *)
Definition book_run (b : BookState) (events : list NormalizedEvent) : BookState :=
  foldl (λ b e, (apply_book_event b e).1) b events.

Lemma book_run_cons b e es : book_run b (e :: es) = book_run (apply_book_event b e).1 es.
Proof. done. Qed.

Definition new_book (ticker : string) : BookState := book_default <| bk_market_ticker := ticker |>.

Definition book_of (books : BookStore) (ticker : string) : BookState :=
  default (new_book ticker) (store_find books ticker).

(** The events [store_apply] hands to the book of a market. *)
Definition concerns (ticker : string) (e : NormalizedEvent) : Prop :=
  ne_market_ticker e = ticker ∧ ne_type e ≠ EventType_kUnknown.
#[export] Instance concerns_dec ticker e : Decision (concerns ticker e).
Proof. unfold concerns. apply _. Defined.

Lemma store_apply_book books e ticker :
  ticker ≠ "" →
  book_of (store_apply books e).1 ticker =
    if decide (concerns ticker e) then (apply_book_event (book_of books ticker) e).1
    else book_of books ticker.
Proof.
  intros Hne. unfold store_apply, concerns, book_of, store_find.
  destruct (decide (ne_market_ticker e = "" ∨ ne_type e = EventType_kUnknown)) as [Hskip|Hskip].
  { rewrite decide_False; [done|]. intros [<- ?]. naive_solver. }
  change (book_default <| bk_market_ticker := ne_market_ticker e |>)
    with (new_book (ne_market_ticker e)).
  destruct (apply_book_event _ e) as [b' ok] eqn:Hb. simpl.
  destruct (decide (ne_market_ticker e = ticker)) as [<-|Hother].
  - rewrite lookup_insert_eq, decide_True by tauto. by rewrite Hb.
  - rewrite lookup_insert_ne by done. rewrite decide_False; [done|tauto].
Qed.

Lemma store_run_book books es ticker :
  ticker ≠ "" →
  book_of (store_run books es) ticker =
    book_run (book_of books ticker) (filter (concerns ticker) es).
Proof.
  intros Hne. revert books. induction es as [|e es IH]; intros books; [done|].
  rewrite store_run_cons, IH, store_apply_book, filter_cons by done. by case_decide.
Qed.

(** ** Buffering before the first snapshot *)
Lemma buffer_deltas b es ds ticker :
  Forall2 (is_delta_event ticker) es ds →
  bk_desynced b = false → bk_has_snapshot b = false →
  Z.of_nat (length (bk_pending_deltas b)) + Z.of_nat (length es) ≤ kMaxPendingDeltas →
  view (book_run b es) = view b ∧
  bk_pending_deltas (book_run b es) =
    bk_pending_deltas b ++ zip_with (λ e d, mkPendingDelta (effective_sequence_id e) d) es ds.
Proof.
  intros Hall. revert b. induction Hall as [|e d es ds (_ & Hty & Hd & Hv) _ IH];
    intros b Hdes Hs Hlen.
  { by rewrite app_nil_r. }
  rewrite book_run_cons. unfold apply_book_event, apply_delta_event.
  rewrite Hty, Hd, Hdes, Hs. cbn [negb].
  simpl in Hlen. rewrite decide_False by lia. cbn [fst].
  match goal with |- view (book_run ?b2 _) = _ ∧ _ =>
    destruct (IH b2) as [Hview Hpend]; [done..| |] end.
  { simpl. rewrite length_app. simpl. lia. }
  rewrite Hview, Hpend. simpl. by rewrite <-app_assoc.
Qed.

Definition level_valid (l : Level) : Prop := 0 ≤ lv_price_ticks l ∧ 0 < lv_qty_lots l.

(** The levels a side of a snapshot describes: the last entry of a price counts. *)
Definition levels_of (m : gmap Z Z) (levels : list Level) : gmap Z Z :=
  foldl (λ m l, <[lv_price_ticks l := lv_qty_lots l]> m) m levels.

Lemma write_levels_valid m levels :
  Forall level_valid levels → write_levels m levels = (levels_of m levels, true).
Proof.
  intros Hall. revert m. induction Hall as [|l ls [Hp Hq] _ IH]; intros m; simpl; [done|].
  rewrite decide_False by lia. apply IH.
Qed.

Definition is_snapshot_event (ticker : string) (e : NormalizedEvent) (s : SnapshotData) : Prop :=
  ne_market_ticker e = ticker ∧ ne_type e = EventType_kSnapshot ∧
  ne_data e = EventData_Snapshot s ∧
  Forall level_valid (sn_bids s) ∧ Forall level_valid (sn_asks s).

Lemma snapshot_view b e s ticker :
  is_snapshot_event ticker e s →
  Forall (λ p, delta_valid (pe_delta p)) (bk_pending_deltas b) →
  view (apply_book_event b e).1 =
    foldl (λ v p, view_delta v (pe_sequence_id p) (pe_delta p))
      (mkBookView (levels_of ∅ (sn_bids s)) (levels_of ∅ (sn_asks s)) (effective_sequence_id e)
         true false (bk_delta_count b) (bk_stale_sequence_count b))
      (bk_pending_deltas b) ∧
  (apply_book_event b e).2 = true.
Proof.
  intros (_ & Hty & Hd & Hbids & Hasks) Hpend.
  unfold apply_book_event, apply_snapshot_event, apply_snapshot_data. rewrite Hty, Hd. simpl.
  rewrite (write_levels_valid _ _ Hbids), (write_levels_valid _ _ Hasks). simpl.
  unfold replay_pending_deltas. simpl.
  match goal with |- context [replay_loop ?q ?b2] =>
    destruct (replay_loop_view q b2 Hpend) as [Hview Hok]; destruct (replay_loop q b2) as [b3 ok] end.
  simpl in Hview, Hok. subst ok. done.
Qed.

Lemma live_deltas_view b es ds ticker :
  Forall2 (is_delta_event ticker) es ds → bk_desynced b = false → bk_has_snapshot b = true →
  view (book_run b es) =
    foldl (λ v p, view_delta v (pe_sequence_id p) (pe_delta p)) (view b)
      (zip_with (λ e d, mkPendingDelta (effective_sequence_id e) d) es ds).
Proof.
  intros Hall. revert b. induction Hall as [|e d es ds Hd _ IH]; intros b Hdes Hs; [done|].
  pose proof (live_delta_view b e d ticker Hd Hdes Hs) as Hview.
  destruct (view_delta_live (view b) (effective_sequence_id e) d) as [Hs' Hdes'].
  rewrite <-Hview in Hs', Hdes'. simpl in Hs', Hdes'. simpl. rewrite <-Hview.
  apply IH; congruence.
Qed.

Lemma zip_pending_valid ticker es ds :
  Forall2 (is_delta_event ticker) es ds →
  Forall (λ p, delta_valid (pe_delta p))
    (zip_with (λ e d, mkPendingDelta (effective_sequence_id e) d) es ds).
Proof. induction 1 as [|e d es ds (_ & _ & _ & Hv) _ IH]; simpl; by constructor. Qed.

(** ** A live book between snapshots *)
Definition live (b : BookState) : Prop := book_wf b ∧ bk_has_snapshot b = true.

(** The events of a run that [apply] accepted. *)
Fixpoint accepted (b : BookState) (events : list NormalizedEvent) : list NormalizedEvent :=
  match events with
  | [] => []
  | e :: events =>
    let '(b, ok) := apply_book_event b e in
    if ok then e :: accepted b events else accepted b events
  end.

Definition delta_of (e : NormalizedEvent) : option DeltaData :=
  match ne_type e, ne_data e with
  | EventType_kDelta, EventData_Delta d => Some d
  | _, _ => None
  end.

Definition not_snapshot (e : NormalizedEvent) : Prop := ne_type e ≠ EventType_kSnapshot.

(** One event that is not a snapshot, on a live book: the book stays live, accepted
    sequence numbers are fresh, and only an accepted delta touches the levels. *)
Definition live_step_post (b : BookState) (e : NormalizedEvent) (b' : BookState) (ok : bool) : Prop :=
  bk_has_snapshot b' = true ∧
  (∀ l, bk_last_seq_id b = Some l → ∃ l', bk_last_seq_id b' = Some l' ∧ l ≤ l') ∧
  (ok = true → ∀ n, effective_sequence_id e = Some n →
     bk_last_seq_id b' = Some n ∧ ∀ l, bk_last_seq_id b = Some l → l < n) ∧
  (bk_bids b', bk_asks b') =
    match delta_of e with
    | Some d => if ok then delta_levels d (bk_bids b) (bk_asks b) else (bk_bids b, bk_asks b)
    | None => (bk_bids b, bk_asks b)
    end.

Lemma reject_live_post b e :
  bk_has_snapshot b = true → live_step_post b e (reject_event b).1 false.
Proof.
  intros Hs. split_and!; simpl; [done| |done|by destruct (delta_of e)].
  intros l Hl. exists l. split; [done|lia].
Qed.

Lemma advance_last b s b1 ok :
  advance_sequence_if_present b s = (b1, ok) →
  (∀ l, bk_last_seq_id b = Some l → ∃ l', bk_last_seq_id b1 = Some l' ∧ l ≤ l') ∧
  (ok = true → ∀ n, s = Some n → bk_last_seq_id b1 = Some n ∧
     ∀ l, bk_last_seq_id b = Some l → l < n).
Proof.
  intros Hadv. pose proof (advance_spec b s) as H. rewrite Hadv in H.
  destruct H as (_ & _ & _ & _ & _ & _ & _ & H). destruct ok.
  - destruct H as (Hl & Hlt & _). split.
    + intros l Hb. destruct s as [n|]; [|exists l; split; [congruence|lia]].
      exists n. specialize (Hlt n l). rewrite Hl. split; [done|].
      specialize (Hlt eq_refl Hb). lia.
    + intros _ n ->. split; [done|]. intros l Hb. by apply Hlt.
  - destruct H as (-> & _ & _). split; [|done]. intros l Hl. exists l. split; [done|lia].
Qed.

Lemma live_step b e b' ok :
  live b → not_snapshot e → apply_book_event b e = (b', ok) → live_step_post b e b' ok.
Proof.
  intros [Hwf Hs] Hns Hev. destruct (bw_live _ Hwf Hs) as [Hdes _].
  unfold apply_book_event in Hev.
  assert (∀ b0, reject_event b0 = (b', ok) → b' = (reject_event b0).1 ∧ ok = false) as Hrej
    by (intros b0 [= <- <-]; done).
  destruct (ne_type e) eqn:Hty; try done;
    try (apply Hrej in Hev as [-> ->]; by apply reject_live_post).
  - unfold apply_delta_event in Hev.
    destruct (ne_data e) as [| |d|] eqn:Hd;
      try (apply Hrej in Hev as [-> ->]; by apply reject_live_post).
    rewrite Hdes, Hs in Hev. cbn [negb] in Hev.
    destruct (advance_sequence_if_present _ _) as [b1 adv] eqn:Hadv.
    destruct (advance_last _ _ _ _ Hadv) as [Hmono Hfresh].
    pose proof (advance_spec b (effective_sequence_id e)) as H. rewrite Hadv in H.
    destruct H as ((_ & Hs1 & _) & Hb1 & Ha1 & _).
    unfold live_step_post. assert (delta_of e = Some d) as -> by (unfold delta_of; by rewrite Hty, Hd).
    destruct adv; [|apply Hrej in Hev as [-> ->]; simpl; split_and!; congruence || done].
    rewrite apply_delta_data_eq in Hev. case_decide.
    + injection Hev as <- <-. simpl. rewrite Hb1, Ha1.
      split_and!; [congruence|done|auto|by rewrite <-surjective_pairing].
    + apply Hrej in Hev as [-> ->]. simpl. split_and!; congruence || done.
  - unfold apply_trade_event in Hev.
    destruct (ne_data e) as [| | |t] eqn:Hd;
      try (apply Hrej in Hev as [-> ->]; by apply reject_live_post).
    rewrite Hdes in Hev.
    destruct (advance_sequence_if_present _ _) as [b1 adv] eqn:Hadv.
    destruct (advance_last _ _ _ _ Hadv) as [Hmono Hfresh].
    pose proof (advance_spec b (effective_sequence_id e)) as H. rewrite Hadv in H.
    destruct H as ((_ & Hs1 & _) & Hb1 & Ha1 & _).
    unfold live_step_post. assert (delta_of e = None) as -> by (unfold delta_of; by rewrite Hty).
    destruct adv; [injection Hev as <- <-|apply Hrej in Hev as [-> ->]]; simpl;
      rewrite Hb1, Ha1; split_and!; auto; congruence.
Qed.

Lemma live_step_live b e b' ok :
  live b → not_snapshot e → apply_book_event b e = (b', ok) → live b'.
Proof.
  intros Hl Hns Hev. split; [|by apply (live_step b e b' ok)].
  destruct (apply_book_event_wf b e (proj1 Hl)) as [Hwf _]. by rewrite Hev in Hwf.
Qed.

(** ** Depth: the book as a total function *)
Definition depth (b : BookState) (bid : bool) (price : Z) : Z :=
  default 0 ((if bid then bk_bids b else bk_asks b) !! price).

Definition is_bid (d : DeltaData) : bool :=
  match dd_side d with Side_kBid | Side_kBuy => true | _ => false end.

(** The specification of a delta: the quantity at its price moves, not below 0. *)
Definition spec_delta (f : bool → Z → Z) (d : DeltaData) : bool → Z → Z := λ bid price,
  if decide (bid = is_bid d ∧ price = dd_price_ticks d)
  then Z.max 0 (f bid price + dd_delta_qty_lots d) else f bid price.

Lemma update_level_depth m price d p :
  in_s64 (default 0 (m !! price) + d) →
  default 0 (update_level m price d !! p) =
    if decide (p = price) then Z.max 0 (default 0 (m !! price) + d) else default 0 (m !! p).
Proof.
  intros Hin. unfold update_level. rewrite (s64_small _ Hin).
  destruct (decide (p = price)) as [->|Hne]; case_decide.
  - rewrite lookup_delete_eq. simpl. lia.
  - rewrite lookup_insert_eq. simpl. lia.
  - by rewrite lookup_delete_ne.
  - by rewrite lookup_insert_ne.
Qed.

Lemma delta_levels_depth b b' d bid p :
  (bk_bids b', bk_asks b') = delta_levels d (bk_bids b) (bk_asks b) →
  in_s64 (depth b (is_bid d) (dd_price_ticks d) + dd_delta_qty_lots d) →
  depth b' bid p = spec_delta (depth b) d bid p.
Proof.
  unfold delta_levels, depth, spec_delta, is_bid. intros Hlv Hin.
  destruct (dd_side d), bid; injection Hlv as Hb Ha;
    rewrite ?Hb, ?Ha, ?update_level_depth by done;
    repeat case_decide; naive_solver.
Qed.

Lemma spec_deltas_ext ds f g :
  (∀ bid p, f bid p = g bid p) →
  ∀ bid p, foldl spec_delta f ds bid p = foldl spec_delta g ds bid p.
Proof.
  revert f g. induction ds as [|d ds IH]; intros f g Hfg bid p; simpl; [done|].
  apply IH. intros. unfold spec_delta. case_decide; by rewrite Hfg.
Qed.

Lemma depth_nonneg b bid p : book_wf b → 0 ≤ depth b bid p.
Proof.
  intros Hwf. unfold depth.
  destruct ((if bid then bk_bids b else bk_asks b) !! p) as [q|] eqn:Hq; simpl; [|lia].
  destruct bid; [apply (bw_bids _ Hwf) in Hq|apply (bw_asks _ Hwf) in Hq]; lia.
Qed.

Section bounded_run.
Context (max_delta : Z).

Lemma accepted_delta_bounds e b d :
  book_wf b → (∀ bid p, depth b bid p + max_delta < 9223372036854775808) →
  (∀ d, delta_of e = Some d → Z.abs (dd_delta_qty_lots d) ≤ max_delta) →
  delta_of e = Some d →
  in_s64 (depth b (is_bid d) (dd_price_ticks d) + dd_delta_qty_lots d).
Proof.
  intros Hwf Hroom Hd He. specialize (Hd d He).
  pose proof (depth_nonneg b (is_bid d) (dd_price_ticks d) Hwf).
  specialize (Hroom (is_bid d) (dd_price_ticks d)). unfold in_s64. lia.
Qed.

Lemma live_run_depth es b max_level :
  live b → Forall not_snapshot es →
  Forall (λ e, ∀ d, delta_of e = Some d → Z.abs (dd_delta_qty_lots d) ≤ max_delta) es →
  0 ≤ max_delta → (∀ bid p, depth b bid p ≤ max_level) →
  max_level + Z.of_nat (length es) * max_delta < 9223372036854775808 →
  ∀ bid p, depth (book_run b es) bid p =
    foldl spec_delta (depth b) (omap delta_of (accepted b es)) bid p.
Proof.
  intros Hlive Hns Hd Hm. revert b max_level Hlive.
  induction es as [|e es IH]; intros b max_level Hlive Hlvl Hroom bid p; [done|].
  apply Forall_cons in Hns as [Hns1 Hns]. apply Forall_cons in Hd as [Hd1 Hd].
  rewrite book_run_cons. cbn [accepted].
  destruct (apply_book_event b e) as [b' ok] eqn:Hev. cbn [fst].
  pose proof (live_step_live _ _ _ _ Hlive Hns1 Hev) as Hlive'.
  destruct (live_step _ _ _ _ Hlive Hns1 Hev) as (_ & _ & _ & Hlv).
  cbn [length] in Hroom.
  assert (∀ d, delta_of e = Some d → ok = true →
    ∀ bid p, depth b' bid p = spec_delta (depth b) d bid p) as Hspec.
  { intros d Hde -> bid' p'. rewrite Hde in Hlv. apply delta_levels_depth; [done|].
    eapply accepted_delta_bounds; [apply Hlive| |exact Hd1|exact Hde].
    intros bid0 p0. specialize (Hlvl bid0 p0). nia. }
  assert (delta_of e = None ∨ ok = false → ∀ bid p, depth b' bid p = depth b bid p) as Hsame.
  { intros Hcase bid' p'.
    assert ((bk_bids b', bk_asks b') = (bk_bids b, bk_asks b)) as Heq
      by (destruct Hcase as [Hc|Hc]; rewrite Hc in Hlv; destruct (delta_of e); done).
    injection Heq as Hb Ha. unfold depth. by rewrite Hb, Ha. }
  assert (∀ bid p, depth b' bid p ≤ max_level + max_delta) as Hlvl'.
  { intros bid' p'. pose proof (Hlvl bid' p'). pose proof (depth_nonneg b bid' p' (proj1 Hlive)).
    destruct (delta_of e) as [d|] eqn:Hde, ok; rewrite ?Hsame by auto; try lia.
    rewrite (Hspec d) by done. unfold spec_delta. specialize (Hd1 d eq_refl).
    case_decide; lia. }
  rewrite (IH Hns Hd b' (max_level + max_delta) Hlive' Hlvl') by lia.
  destruct ok; [|by apply spec_deltas_ext; auto].
  cbn [omap list_omap]. destruct (delta_of e) as [d|] eqn:Hde; simpl.
  - apply spec_deltas_ext. by apply Hspec.
  - apply spec_deltas_ext. auto.
Qed.
End bounded_run.

Lemma accepted_sequences es b :
  live b → Forall not_snapshot es →
  Forall (λ n, ∀ l, bk_last_seq_id b = Some l → l < n)
    (omap effective_sequence_id (accepted b es)) ∧
  StronglySorted Z.lt (omap effective_sequence_id (accepted b es)) ∧ live (book_run b es).
Proof.
  revert b. induction es as [|e es IH]; intros b Hlive Hns.
  { split_and!; [constructor|constructor|done]. }
  apply Forall_cons in Hns as [Hns1 Hns]. rewrite book_run_cons. cbn [accepted].
  destruct (apply_book_event b e) as [b' ok] eqn:Hev. cbn [fst].
  pose proof (live_step_live _ _ _ _ Hlive Hns1 Hev) as Hlive'.
  destruct (live_step _ _ _ _ Hlive Hns1 Hev) as (_ & Hmono & Hfresh & _).
  destruct (IH b' Hlive' Hns) as (Hall & Hsorted & Hend).
  assert (Forall (λ n, ∀ l, bk_last_seq_id b = Some l → l < n)
    (omap effective_sequence_id (accepted b' es))) as Hall'.
  { eapply Forall_impl; [exact Hall|]. intros n Hn l Hl.
    destruct (Hmono l Hl) as (l' & Hl' & Hle). specialize (Hn l' Hl'). lia. }
  destruct ok; [|by split_and!].
  cbn [omap list_omap]. destruct (effective_sequence_id e) as [n|] eqn:Hn; [|by split_and!].
  destruct (Hfresh eq_refl n eq_refl) as [Hl' Hlt].
  split_and!; [by constructor| |done]. constructor; [done|].
  eapply Forall_impl; [exact Hall|]. intros n' Hn'. by apply Hn'.
Qed.

(** ** The properties of the book store *)

(** C13: every store reached by any events from the empty one is well formed: books are
    filed under their own non-empty ticker, levels have non-negative prices and
    positive quantities, the buffer holds at most [kMaxPendingDeltas] deltas and is
    empty once the book is live or desynchronised, and a desynchronised book is not
    live and has no sequence number. *)
Theorem store_reachable_wf es : store_wf (store_run ∅ es).
Proof. apply store_run_wf, map_Forall_empty. Qed.

(** Markets are isolated: after any events, the book of a market is the one its
    own events (in their order, those of unknown type skipped) produce alone. *)
Theorem market_isolation books es ticker :
  ticker ≠ "" →
  book_of (store_run books es) ticker =
    book_run (book_of books ticker) (filter (concerns ticker) es).
Proof. apply store_run_book. Qed.

(** C12: buffering is transparent: deltas that arrive before the first snapshot, at most
    [kMaxPendingDeltas] of them, lead to the same levels, sequence number and counts of
    applied and stale deltas as if they had arrived after it. *)
Theorem buffered_replay_equiv books ticker snap s es ds :
  ticker ≠ "" → store_find books ticker = None →
  is_snapshot_event ticker snap s → Forall2 (is_delta_event ticker) es ds →
  Z.of_nat (length es) ≤ kMaxPendingDeltas →
  view (book_of (store_run books (es ++ [snap])) ticker) =
  view (book_of (store_run books (snap :: es)) ticker).
Proof.
  intros Hne Hnone Hsnap Hds Hlen.
  assert (filter (concerns ticker) es = es) as Hes.
  { clear -Hds. induction Hds as [|e d es ds (? & Hty & _) _ IH]; [done|].
    rewrite filter_cons, decide_True, IH; [done|]. split; [done|]. by rewrite Hty. }
  assert (concerns ticker snap) as Hcs.
  { destruct Hsnap as (? & Hty & _). split; [done|]. by rewrite Hty. }
  rewrite !store_run_book, filter_app, !filter_cons, Hes, filter_nil, !decide_True by done.
  unfold book_of. rewrite Hnone. cbn [default from_option]. set (b := new_book ticker).
  destruct (buffer_deltas b es ds ticker Hds eq_refl eq_refl Hlen) as [Hview Hpend].
  unfold book_run at 1. rewrite foldl_app. fold (book_run b es). cbn [foldl].
  destruct (snapshot_view (book_run b es) snap s ticker Hsnap) as [-> _].
  { rewrite Hpend. apply (zip_pending_valid ticker), Hds. }
  rewrite book_run_cons.
  destruct (snapshot_view b snap s ticker Hsnap) as [Hsv _]; [constructor|].
  injection Hview as _ _ _ _ _ Hdc Hsc. simpl in Hsv.
  rewrite (live_deltas_view _ es ds ticker Hds); [| |].
  - by rewrite Hsv, Hpend, Hdc, Hsc.
  - by injection Hsv.
  - by injection Hsv.
Qed.

(** C33: on a live book, as long as no snapshot arrives, the sequence numbers of the
    accepted events are strictly increasing and above the last one of the book, and
    the book stays live. *)
Theorem accepted_sequences_increasing b es :
  live b → Forall not_snapshot es →
  StronglySorted Z.lt (omap effective_sequence_id (accepted b es)) ∧
  Forall (λ n, ∀ l, bk_last_seq_id b = Some l → l < n)
    (omap effective_sequence_id (accepted b es)) ∧
  live (book_run b es).
Proof. intros Hl Hns. destruct (accepted_sequences es b Hl Hns) as (? & ? & ?). done. Qed.

(** C4: the levels of a live book refine the depth specification: while quantities fit
    a [std::int64_t], the quantity at every price of either side is the one obtained
    by adding the accepted deltas in order, cut off at 0. *)
Theorem live_book_refines_depth b es max_level max_delta :
  live b → Forall not_snapshot es →
  Forall (λ e, ∀ d, delta_of e = Some d → Z.abs (dd_delta_qty_lots d) ≤ max_delta) es →
  0 ≤ max_delta → (∀ bid p, depth b bid p ≤ max_level) →
  max_level + Z.of_nat (length es) * max_delta < 9223372036854775808 →
  ∀ bid p, depth (book_run b es) bid p =
    foldl spec_delta (depth b) (omap delta_of (accepted b es)) bid p.
Proof. intros. by eapply live_run_depth. Qed.

(** A snapshot with an invalid level is rejected, but not without effect: a live
    book loses the levels it had and keeps only the part of the snapshot before the
    invalid level, still counts as having a snapshot and keeps its sequence number. *)
Theorem rejected_snapshot_keeps_live b e s good bad rest :
  live b → ne_type e = EventType_kSnapshot → ne_data e = EventData_Snapshot s →
  sn_bids s = good ++ bad :: rest → Forall level_valid good → ¬ level_valid bad →
  let '(b', ok) := apply_book_event b e in
  ok = false ∧ live b' ∧ bk_last_seq_id b' = bk_last_seq_id b ∧
  bk_bids b' = levels_of ∅ good ∧ bk_asks b' = ∅.
Proof.
  intros [Hwf Hs] Hty Hd Hbids Hgood Hbad.
  destruct (apply_book_event_wf b e Hwf) as [Hwf' _].
  assert (∀ m, write_levels m (sn_bids s) = (levels_of m good, false)) as Hw.
  { rewrite Hbids. clear -Hgood Hbad.
    induction Hgood as [|l ls [Hp Hq] _ IH]; intros m; simpl.
    - unfold level_valid in Hbad. rewrite decide_True by lia. done.
    - rewrite decide_False by lia. apply IH. }
  unfold live. unfold apply_book_event, apply_snapshot_event, apply_snapshot_data in *.
  rewrite Hty, Hd in *. cbn in Hwf' |- *. rewrite Hw in *. cbn in Hwf' |- *. done.
Qed.

(** ** Concrete runs *)
Definition demo_event (ticker : string) (ty : EventType) (seq : Z) (data : EventData)
    : NormalizedEvent :=
  mkNormalizedEvent ty (mkEventMeta ExchangeId_kKalshi 0 seq 1 0) ticker None data "".

Definition demo_delta (ticker : string) (seq : Z) (side : Side) (price qty : Z) : NormalizedEvent :=
  demo_event ticker EventType_kDelta seq (EventData_Delta (mkDeltaData side price qty)).

Definition demo_snapshot_data : SnapshotData :=
  mkSnapshotData [mkLevel 40 10; mkLevel 39 5] [mkLevel 60 7].

Definition demo_snapshot : NormalizedEvent :=
  demo_event "MKT" EventType_kSnapshot 10 (EventData_Snapshot demo_snapshot_data).

Definition demo_book : BookState := book_run (new_book "MKT") [demo_snapshot].

(** A stale delta, a fresh one, another market's and a gap in the sequence numbers. *)
Definition demo_events : list NormalizedEvent :=
  [demo_delta "MKT" 9 Side_kBid 40 1; demo_delta "MKT" 11 Side_kBid 40 (-4);
   demo_delta "MKT" 15 Side_kAsk 60 (-9)].

Lemma demo_book_live : live demo_book.
Proof.
  split; [|reflexivity]. unfold demo_book. rewrite book_run_cons.
  apply apply_book_event_wf, book_default_wf.
Qed.

Lemma market_isolation_witness :
  book_of (store_run ∅ (demo_delta "OTHER" 3 Side_kBid 1 1 :: demo_snapshot :: demo_events)) "MKT" =
    book_run demo_book demo_events.
Proof.
  rewrite (market_isolation ∅ _ "MKT"); [vm_compute; reflexivity|discriminate].
Defined.

Lemma buffered_replay_equiv_witness :
  view (book_of (store_run ∅ (demo_events ++ [demo_snapshot])) "MKT") =
  view (book_of (store_run ∅ (demo_snapshot :: demo_events)) "MKT").
Proof.
  apply (buffered_replay_equiv ∅ "MKT" demo_snapshot demo_snapshot_data demo_events
           [mkDeltaData Side_kBid 40 1; mkDeltaData Side_kBid 40 (-4);
            mkDeltaData Side_kAsk 60 (-9)]).
  - discriminate.
  - reflexivity.
  - repeat split; repeat constructor; simpl; lia.
  - repeat constructor; simpl; done || lia.
  - vm_compute. discriminate.
Defined.

Lemma accepted_sequences_increasing_witness :
  StronglySorted Z.lt [11; 15] ∧ live (book_run demo_book demo_events).
Proof.
  destruct (accepted_sequences_increasing demo_book demo_events demo_book_live) as (Hs & _ & Hl).
  - repeat constructor; discriminate.
  - split; [exact Hs|exact Hl].
Defined.

Lemma demo_depth_le bid p : depth demo_book bid p ≤ 100.
Proof.
  assert (bk_bids demo_book = <[39:=5]> {[40:=10]} ∧ bk_asks demo_book = {[60:=7]}) as [Hb Ha]
    by (vm_compute; split; reflexivity).
  unfold depth. rewrite Hb, Ha. destruct bid.
  - rewrite lookup_insert, lookup_singleton. repeat case_decide; simpl; lia.
  - rewrite lookup_singleton. case_decide; simpl; lia.
Qed.

Lemma live_book_refines_depth_witness :
  depth (book_run demo_book demo_events) true 40 = 6 ∧
  depth (book_run demo_book demo_events) false 60 = 0.
Proof.
  assert (∀ bid p, depth (book_run demo_book demo_events) bid p =
    foldl spec_delta (depth demo_book) (omap delta_of (accepted demo_book demo_events)) bid p) as Hrun.
  { apply (live_book_refines_depth demo_book demo_events 100 100 demo_book_live).
    - repeat constructor; discriminate.
    - repeat constructor; simpl; intros d [= <-]; simpl; lia.
    - lia.
    - apply demo_depth_le.
    - simpl. lia. }
  rewrite !Hrun. split; vm_compute; reflexivity.
Defined.

Lemma rejected_snapshot_keeps_live_witness :
  let e := demo_event "MKT" EventType_kSnapshot 12
             (EventData_Snapshot (mkSnapshotData [mkLevel 50 0] [mkLevel 60 7])) in
  let '(b', ok) := apply_book_event demo_book e in
  ok = false ∧ live b' ∧ bk_last_seq_id b' = Some 10 ∧ bk_bids b' = ∅ ∧ bk_asks b' = ∅.
Proof.
  apply (rejected_snapshot_keeps_live demo_book
           (demo_event "MKT" EventType_kSnapshot 12
              (EventData_Snapshot (mkSnapshotData [mkLevel 50 0] [mkLevel 60 7])))
           (mkSnapshotData [mkLevel 50 0] [mkLevel 60 7]) [] (mkLevel 50 0) [] demo_book_live).
  - reflexivity.
  - reflexivity.
  - reflexivity.
  - constructor.
  - unfold level_valid. simpl. lia.
Defined.
