(* ===== verification/SpscQueue.v ===== *)
(** * The single-producer single-consumer rings

    Model of SpscFrameQueue (src/cpp/include/trading/ingest/spsc_frame_queue.hpp) and
    SpscRoutedEventQueue (src/cpp/src/router/shard_dispatch.cpp), which are the same
    algorithm at two element types.  A consumer copies a [FrameRef] out of its slot and
    moves a [RoutedEvent] out of it; [after_read] is what the read leaves in the slot.

    The first part treats the calls as atomic and shows that the ring refines a bounded
    FIFO.  The second part splits the calls at their atomic accesses and lets producer
    and consumer interleave. *)
From S2P Require Import Prelude.

(** ** The ring and its calls *)
Record SpscQueue (A : Type) := mkSpscQueue {
  q_capacity : Z;
  q_buffer : list A;
  q_head : Z;
  q_tail : Z;
}.
Arguments mkSpscQueue {A} _ _ _ _.
Arguments q_capacity {A} _.
Arguments q_buffer {A} _.
Arguments q_head {A} _.
Arguments q_tail {A} _.

#[export] Instance SpscQueue_settable A : Settable (SpscQueue A) := λ x,
  mkSpscQueue (q_capacity x) (q_buffer x) (q_head x) (q_tail x).

Definition kMinCapacity : Z := 2.

Definition queue_init {A} (value_init : A) (capacity : Z) : SpscQueue A :=
  let capacity := if decide (capacity < kMinCapacity) then kMinCapacity else capacity in
  mkSpscQueue capacity (replicate (Z.to_nat capacity) value_init) 0 0.

Definition increment (capacity index : Z) : Z := u64 (index + 1) `mod` capacity.

Definition try_push {A} (q : SpscQueue A) (x : A) : SpscQueue A * bool :=
  let head := q_head q in
  let next_head := increment (q_capacity q) head in
  if decide (next_head = q_tail q) then (q, false)
  else (q <| q_buffer ::= <[Z.to_nat head := x]> |> <| q_head := next_head |>, true).

Definition try_pop {A} (after_read : A → A) (q : SpscQueue A) : SpscQueue A * option A :=
  let tail := q_tail q in
  if decide (tail = q_head q) then (q, None)
  else
    match q_buffer q !! Z.to_nat tail with
    | Some x =>
      (q <| q_buffer ::= <[Z.to_nat tail := after_read x]> |>
         <| q_tail := increment (q_capacity q) tail |>, Some x)
    | None => (q, None)
    end.

(** ** The abstract queue *)
Definition fifo_push {A} (bound : Z) (l : list A) (x : A) : list A * bool :=
  if decide (Z.of_nat (length l) < bound) then (l ++ [x], true) else (l, false).

Definition fifo_pop {A} (l : list A) : list A * option A :=
  match l with [] => ([], None) | x :: l => (l, Some x) end.

(** ** The calls of the two threads, split at their shared accesses

    [sq_pushed] and [sq_popped] record the values whose publication is complete.  A load
    of the other thread's index may return an older value, but never one older than a
    value it returned before: [sq_tail_seen] and [sq_head_seen] count the publications
    the producer and the consumer have observed. *)
Inductive producer_state (A : Type) :=
  | ProducerIdle
  | ProducerChecked (x : A)
  | ProducerWritten (x : A).
Arguments ProducerIdle {A}.
Arguments ProducerChecked {A} x.
Arguments ProducerWritten {A} x.

Inductive consumer_state (A : Type) :=
  | ConsumerIdle
  | ConsumerChecked
  | ConsumerRead (x : A).
Arguments ConsumerIdle {A}.
Arguments ConsumerChecked {A}.
Arguments ConsumerRead {A} x.

Record spsc_state (A : Type) := mkSpscState {
  sq_queue : SpscQueue A;
  sq_producer : producer_state A;
  sq_consumer : consumer_state A;
  sq_pushed : list A;
  sq_popped : list A;
  sq_tail_seen : Z;
  sq_head_seen : Z;
}.
Arguments mkSpscState {A} _ _ _ _ _ _ _.
Arguments sq_queue {A} _.
Arguments sq_producer {A} _.
Arguments sq_consumer {A} _.
Arguments sq_pushed {A} _.
Arguments sq_popped {A} _.
Arguments sq_tail_seen {A} _.
Arguments sq_head_seen {A} _.

#[export] Instance spsc_state_settable A : Settable (spsc_state A) := λ x,
  mkSpscState (sq_queue x) (sq_producer x) (sq_consumer x) (sq_pushed x) (sq_popped x)
    (sq_tail_seen x) (sq_head_seen x).

Definition count {A} (l : list A) : Z := Z.of_nat (length l).

(** The value a load of an index returns that observes [n] publications. *)
Definition index_after (capacity n : Z) : Z := n `mod` capacity.

Section steps.
Context {A : Type} (after_read : A → A).

Inductive spsc_step : spsc_state A → spsc_state A → Prop :=
  (** [try_push]: load both indices, the ring is full: return [false] *)
  | spsc_push_full s n :
      sq_producer s = ProducerIdle → sq_tail_seen s ≤ n ≤ count (sq_popped s) →
      increment (q_capacity (sq_queue s)) (q_head (sq_queue s)) =
        index_after (q_capacity (sq_queue s)) n →
      spsc_step s (s <| sq_tail_seen := n |>)
  (** [try_push]: load both indices, there is room *)
  | spsc_push_check s x n :
      sq_producer s = ProducerIdle → sq_tail_seen s ≤ n ≤ count (sq_popped s) →
      increment (q_capacity (sq_queue s)) (q_head (sq_queue s)) ≠
        index_after (q_capacity (sq_queue s)) n →
      spsc_step s (s <| sq_tail_seen := n |> <| sq_producer := ProducerChecked x |>)
  (** [try_push]: [buffer_[head] = x] *)
  | spsc_push_write s x :
      sq_producer s = ProducerChecked x →
      spsc_step s
        (s <| sq_producer := ProducerWritten x |>
           <| sq_queue ::= λ q, q <| q_buffer ::= <[Z.to_nat (q_head q) := x]> |> |>)
  (** [try_push]: [head_.store(next_head)], return [true] *)
  | spsc_push_publish s x :
      sq_producer s = ProducerWritten x →
      spsc_step s
        (s <| sq_producer := ProducerIdle |>
           <| sq_queue ::= λ q, q <| q_head := increment (q_capacity q) (q_head q) |> |>
           <| sq_pushed ::= λ l, l ++ [x] |>)
  (** [try_pop]: load both indices, the ring is empty: return [false] *)
  | spsc_pop_empty s n :
      sq_consumer s = ConsumerIdle → sq_head_seen s ≤ n ≤ count (sq_pushed s) →
      q_tail (sq_queue s) = index_after (q_capacity (sq_queue s)) n →
      spsc_step s (s <| sq_head_seen := n |>)
  (** [try_pop]: load both indices, there is an element *)
  | spsc_pop_check s n :
      sq_consumer s = ConsumerIdle → sq_head_seen s ≤ n ≤ count (sq_pushed s) →
      q_tail (sq_queue s) ≠ index_after (q_capacity (sq_queue s)) n →
      spsc_step s (s <| sq_head_seen := n |> <| sq_consumer := ConsumerChecked |>)
  (** [try_pop]: read (or move from) [buffer_[tail]] *)
  | spsc_pop_read s x :
      sq_consumer s = ConsumerChecked →
      q_buffer (sq_queue s) !! Z.to_nat (q_tail (sq_queue s)) = Some x →
      spsc_step s
        (s <| sq_consumer := ConsumerRead x |>
           <| sq_queue ::= λ q, q <| q_buffer ::= <[Z.to_nat (q_tail q) := after_read x]> |> |>)
  (** [try_pop]: [tail_.store(increment(tail))], return [true] *)
  | spsc_pop_publish s x :
      sq_consumer s = ConsumerRead x →
      spsc_step s
        (s <| sq_consumer := ConsumerIdle |>
           <| sq_queue ::= λ q, q <| q_tail := increment (q_capacity q) (q_tail q) |> |>
           <| sq_popped ::= λ l, l ++ [x] |>).
End steps.

Definition spsc_init {A} (value_init : A) (capacity : Z) : spsc_state A :=
  mkSpscState (queue_init value_init capacity) ProducerIdle ConsumerIdle [] [] 0 0.

(** ** Indices modulo the capacity *)
Lemma mod_inj_near capacity a b :
  0 < capacity → - capacity < a - b < capacity → a `mod` capacity = b `mod` capacity → a = b.
Proof.
  intros Hc Hab Heq. pose proof (Z.div_mod a capacity ltac:(lia)).
  pose proof (Z.div_mod b capacity ltac:(lia)).
  assert (-1 < a `div` capacity - b `div` capacity < 1)
    by (split; apply (Z.mul_lt_mono_pos_l capacity); lia).
  replace (a `div` capacity) with (b `div` capacity) in * by lia. lia.
Qed.

Lemma increment_index capacity n :
  1 < capacity < 18446744073709551616 →
  increment capacity (n `mod` capacity) = (n + 1) `mod` capacity.
Proof.
  intros Hc. unfold increment. pose proof (Z.mod_pos_bound n capacity ltac:(lia)).
  rewrite u64_small by (unfold in_u64; lia). by rewrite Zplus_mod_idemp_l.
Qed.

(** ** The elements between two positions of the ring *)
Fixpoint slice {A} (buffer : list A) (capacity from : Z) (n : nat) : list A :=
  match n with
  | O => []
  | S n => option_list (buffer !! Z.to_nat (from `mod` capacity))
             ++ slice buffer capacity (from + 1) n
  end.

Section slice.
Context {A : Type} (capacity : Z) (Hcap : 0 < capacity).
Implicit Types (buffer : list A).

Lemma slice_mod buffer a b n :
  a `mod` capacity = b `mod` capacity → slice buffer capacity a n = slice buffer capacity b n.
Proof.
  revert a b. induction n as [|n IH]; intros a b Hab; simpl; [done|].
  rewrite Hab. f_equal. apply IH. by rewrite <-Zplus_mod_idemp_l, Hab, Zplus_mod_idemp_l.
Qed.

Lemma slice_snoc buffer from n :
  slice buffer capacity from (S n) =
    slice buffer capacity from n
      ++ option_list (buffer !! Z.to_nat ((from + Z.of_nat n) `mod` capacity)).
Proof.
  revert from. induction n as [|n IH]; intros from.
  { simpl. by rewrite app_nil_r, Z.add_0_r. }
  change (slice buffer capacity from (S (S n))) with
    (option_list (buffer !! Z.to_nat (from `mod` capacity)) ++ slice buffer capacity (from + 1) (S n)).
  rewrite IH. replace (from + 1 + Z.of_nat n) with (from + Z.of_nat (S n)) by lia.
  cbn [slice]. by rewrite <-app_assoc.
Qed.

Lemma slice_insert_ne buffer from n k x :
  0 ≤ k - from < capacity → Z.of_nat n ≤ k - from →
  slice (<[Z.to_nat (k `mod` capacity) := x]> buffer) capacity from n =
    slice buffer capacity from n.
Proof.
  revert from. induction n as [|n IH]; intros from Hk Hn; simpl; [done|].
  rewrite IH by lia. f_equal. rewrite list_lookup_insert_ne; [done|].
  pose proof (Z.mod_pos_bound from capacity Hcap). pose proof (Z.mod_pos_bound k capacity Hcap).
  intros Heq%Z2Nat.inj; [|lia..]. apply mod_inj_near in Heq; lia.
Qed.

(** A slot behind the slice is not read either. *)
Lemma slice_insert_behind buffer from n k x :
  k < from → from + Z.of_nat n - k ≤ capacity →
  slice (<[Z.to_nat (k `mod` capacity) := x]> buffer) capacity from n =
    slice buffer capacity from n.
Proof.
  intros Hk Hn. rewrite <-(Z_mod_plus_full k 1 capacity), Z.mul_1_l.
  apply slice_insert_ne; lia.
Qed.

Lemma slot_in_range buffer n :
  Z.of_nat (length buffer) = capacity →
  is_Some (buffer !! Z.to_nat (n `mod` capacity)).
Proof.
  intros Hlen. apply lookup_lt_is_Some. pose proof (Z.mod_pos_bound n capacity Hcap). lia.
Qed.

Lemma slice_length buffer from n :
  Z.of_nat (length buffer) = capacity → length (slice buffer capacity from n) = n.
Proof.
  intros Hlen. revert from. induction n as [|n IH]; intros from; simpl; [done|].
  destruct (slot_in_range buffer from Hlen) as [x ->]. simpl. by rewrite IH.
Qed.
End slice.

(** ** The ring as a bounded FIFO *)
Record queue_wf {A} (q : SpscQueue A) : Prop := {
  qw_capacity : 2 ≤ q_capacity q < 18446744073709551616;
  qw_buffer : Z.of_nat (length (q_buffer q)) = q_capacity q;
  qw_head : 0 ≤ q_head q < q_capacity q;
  qw_tail : 0 ≤ q_tail q < q_capacity q;
}.

Definition queue_length {A} (q : SpscQueue A) : Z :=
  (q_head q - q_tail q) `mod` q_capacity q.

Definition contents {A} (q : SpscQueue A) : list A :=
  slice (q_buffer q) (q_capacity q) (q_tail q) (Z.to_nat (queue_length q)).

Lemma queue_length_bound {A} (q : SpscQueue A) :
  queue_wf q → 0 ≤ queue_length q < q_capacity q.
Proof. intros [? _ _ _]. apply Z.mod_pos_bound. lia. Qed.

Lemma head_from_length {A} (q : SpscQueue A) :
  queue_wf q → (q_tail q + queue_length q) `mod` q_capacity q = q_head q.
Proof.
  intros [Hc _ Hh _]. unfold queue_length. rewrite Zplus_mod_idemp_r.
  replace (q_tail q + (q_head q - q_tail q)) with (q_head q) by lia. by apply Z.mod_small.
Qed.

Lemma contents_length {A} (q : SpscQueue A) :
  queue_wf q → Z.of_nat (length (contents q)) = queue_length q.
Proof.
  intros Hwf. pose proof (queue_length_bound q Hwf). destruct Hwf as [Hc Hb _ _].
  unfold contents. rewrite slice_length by lia. lia.
Qed.

Lemma increment_wf capacity i :
  2 ≤ capacity < 18446744073709551616 → 0 ≤ i < capacity →
  increment capacity i = (i + 1) `mod` capacity ∧ 0 ≤ increment capacity i < capacity.
Proof.
  intros Hc Hi. rewrite <-(Z.mod_small i capacity) at 1 by lia.
  rewrite <-(Z.mod_small i capacity) at 3 4 by lia.
  rewrite increment_index by lia. split; [done|]. apply Z.mod_pos_bound. lia.
Qed.

Lemma queue_init_wf {A} (d : A) capacity :
  capacity < 18446744073709551616 →
  queue_wf (queue_init d capacity) ∧ contents (queue_init d capacity) = [] ∧
  q_capacity (queue_init d capacity) = Z.max 2 capacity.
Proof.
  intros Hc. unfold queue_init, kMinCapacity.
  assert (∀ c, 0 < c → contents (mkSpscQueue c (replicate (Z.to_nat c) d) 0 0) = []) as Hnil.
  { intros c Hpos. unfold contents, queue_length. cbn [q_head q_tail q_capacity q_buffer].
    by rewrite Z.sub_diag, Z.mod_0_l by lia. }
  case_decide; (split_and!; [split; simpl; rewrite ?length_replicate; lia|apply Hnil; lia|simpl; lia]).
Qed.

(** The ring is full exactly when it holds [capacity - 1] elements. *)
Lemma push_full_iff {A} (q : SpscQueue A) :
  queue_wf q →
  increment (q_capacity q) (q_head q) = q_tail q ↔ queue_length q = q_capacity q - 1.
Proof.
  intros Hwf. pose proof (queue_length_bound q Hwf). pose proof (head_from_length q Hwf) as Hhd.
  destruct Hwf as [Hc _ Hh Ht]. destruct (increment_wf _ _ Hc Hh) as [-> _].
  rewrite <-Hhd, Zplus_mod_idemp_l. rewrite <-(Z.mod_small (q_tail q) (q_capacity q)) at 2 by lia.
  split.
  - intros Heq. rewrite <-(Z_mod_plus_full (q_tail q) 1) in Heq.
    apply mod_inj_near in Heq; lia.
  - intros ->. replace (_ + _ + 1) with (q_tail q + 1 * q_capacity q) by lia.
    apply Z_mod_plus_full.
Qed.

Lemma push_refines {A} (q : SpscQueue A) x :
  queue_wf q →
  queue_wf (try_push q x).1 ∧ q_capacity (try_push q x).1 = q_capacity q ∧
  (contents (try_push q x).1, (try_push q x).2) = fifo_push (q_capacity q - 1) (contents q) x.
Proof.
  intros Hwf. unfold try_push, fifo_push. rewrite (contents_length q Hwf).
  pose proof (queue_length_bound q Hwf) as Hlen. pose proof (head_from_length q Hwf) as Hhd.
  case_decide as Hfull.
  { apply push_full_iff in Hfull; [|done]. by rewrite decide_False by lia. }
  assert (queue_length q ≠ q_capacity q - 1) as Hnf by (intros E; by apply push_full_iff in E).
  rewrite decide_True by lia. pose proof Hwf as [Hc Hb Hh Ht].
  destruct (increment_wf _ _ Hc Hh) as [Hinc Hir]. simpl.
  split_and!; [split; simpl; rewrite ?length_insert; lia|done|]. f_equal.
  assert (queue_length (mkSpscQueue (q_capacity q) (<[Z.to_nat (q_head q):=x]> (q_buffer q))
    (increment (q_capacity q) (q_head q)) (q_tail q)) = queue_length q + 1) as Hlen'.
  { unfold queue_length at 1. simpl. rewrite Hinc, Zminus_mod_idemp_l.
    replace (q_head q + 1 - q_tail q) with (q_head q - q_tail q + 1) by lia.
    rewrite <-Zplus_mod_idemp_l. fold (queue_length q). apply Z.mod_small. lia. }
  unfold contents at 1. rewrite Hlen'. simpl.
  replace (Z.to_nat (queue_length q + 1)) with (S (Z.to_nat (queue_length q))) by lia.
  rewrite slice_snoc, Z2Nat.id, Hhd, list_lookup_insert_eq by lia. f_equal.
  rewrite <-Hhd. rewrite slice_insert_ne by lia. done.
Qed.

Lemma pop_refines {A} (after_read : A → A) (q : SpscQueue A) :
  queue_wf q →
  queue_wf (try_pop after_read q).1 ∧ q_capacity (try_pop after_read q).1 = q_capacity q ∧
  (contents (try_pop after_read q).1, (try_pop after_read q).2) = fifo_pop (contents q).
Proof.
  intros Hwf. unfold try_pop.
  pose proof (queue_length_bound q Hwf) as Hlen. pose proof (head_from_length q Hwf) as Hhd.
  pose proof Hwf as [Hc Hb Hh Ht]. case_decide as Hempty.
  { assert (contents q = []) as Hnil.
    { unfold contents, queue_length. rewrite Hempty, Z.sub_diag. by rewrite Z.mod_0_l by lia. }
    cbn [fst snd]. rewrite Hnil. by split_and!. }
  assert (0 < queue_length q) as Hpos.
  { destruct (decide (queue_length q = 0)) as [E|]; [|lia]. exfalso.
    rewrite E, Z.add_0_r, Z.mod_small in Hhd by lia. done. }
  destruct (slot_in_range (q_capacity q) ltac:(lia) (q_buffer q) (q_tail q) Hb) as [x Hx].
  pose proof Hx as Hx'. rewrite Z.mod_small in Hx' by lia. rewrite Hx'.
  destruct (increment_wf _ _ Hc Ht) as [Hinc Hir]. simpl.
  split_and!; [split; simpl; rewrite ?length_insert; lia|done|].
  unfold contents at 2. replace (Z.to_nat (queue_length q)) with (S (Z.to_nat (queue_length q - 1))) by lia.
  cbn [slice]. rewrite Hx. cbn [option_list app fifo_pop].
  unfold contents. set (q' := mkSpscQueue _ _ _ _).
  assert (queue_length q' = queue_length q - 1) as Hlen'.
  { unfold queue_length at 1, q'. simpl. rewrite Hinc, Zminus_mod_idemp_r.
    replace (q_head q - (q_tail q + 1)) with (q_head q - q_tail q - 1) by lia.
    rewrite <-Zminus_mod_idemp_l. fold (queue_length q). apply Z.mod_small. lia. }
  rewrite Hlen'. unfold q'. simpl. rewrite Hinc.
  rewrite (slice_mod _ _ ((q_tail q + 1) `mod` q_capacity q) (q_tail q + 1))
    by (rewrite Z.mod_mod by lia; done).
  rewrite <-(Z.mod_small (q_tail q) (q_capacity q)) at 1 by lia.
  f_equal. apply slice_insert_behind; lia.
Qed.

(** ** Sequences of calls *)
Inductive queue_op (A : Type) := OpPush (x : A) | OpPop.
Arguments OpPush {A} x.
Arguments OpPop {A}.

(** What a call returns: a push whether it succeeded, a pop the element it got. *)
Abbreviation queue_reply A := (bool + option A)%type (only parsing).

Definition ring_call {A} (after_read : A → A) (q : SpscQueue A) (op : queue_op A)
    : SpscQueue A * queue_reply A :=
  match op with
  | OpPush x => let '(q, ok) := try_push q x in (q, inl ok)
  | OpPop => let '(q, r) := try_pop after_read q in (q, inr r)
  end.

Definition fifo_call {A} (bound : Z) (l : list A) (op : queue_op A) : list A * queue_reply A :=
  match op with
  | OpPush x => let '(l, ok) := fifo_push bound l x in (l, inl ok)
  | OpPop => let '(l, r) := fifo_pop l in (l, inr r)
  end.

Fixpoint replies {S O R : Type} (call : S → O → S * R) (s : S) (ops : list O) : list R :=
  match ops with
  | [] => []
  | op :: ops => let '(s, r) := call s op in r :: replies call s ops
  end.

Lemma ring_call_refines {A} (after_read : A → A) (q : SpscQueue A) op :
  queue_wf q →
  queue_wf (ring_call after_read q op).1 ∧
  q_capacity (ring_call after_read q op).1 = q_capacity q ∧
  (contents (ring_call after_read q op).1, (ring_call after_read q op).2) =
    fifo_call (q_capacity q - 1) (contents q) op.
Proof.
  intros Hwf. destruct op as [x|]; simpl.
  - destruct (push_refines q x Hwf) as (Hwf' & Hc & Hout).
    destruct (try_push q x) as [q' ok], (fifo_push _ _ x) as [l' ok']. by simplify_eq/=.
  - destruct (pop_refines after_read q Hwf) as (Hwf' & Hc & Hout).
    destruct (try_pop after_read q) as [q' r], (fifo_pop (contents q)) as [l' r'].
    by simplify_eq/=.
Qed.

Lemma replies_refine {A} (after_read : A → A) (q : SpscQueue A) ops :
  queue_wf q →
  replies (ring_call after_read) q ops =
    replies (fifo_call (q_capacity q - 1)) (contents q) ops.
Proof.
  revert q. induction ops as [|op ops IH]; intros q Hwf; simpl; [done|].
  destruct (ring_call_refines after_read q op Hwf) as (Hwf' & Hc & Hout).
  rewrite <-Hout. destruct (ring_call after_read q op) as [q' r]. simpl in *.
  by rewrite IH, Hc.
Qed.

(** C24: the ring is a bounded FIFO.  For every capacity a [std::size_t] can hold and
    every sequence of pushes and pops, each call returns what it returns on an abstract
    queue that holds at most [max(2, capacity) - 1] elements; what a read leaves behind
    in its slot is never seen. *)
Theorem ring_refines_fifo {A} (after_read : A → A) (value_init : A) capacity ops :
  0 ≤ capacity < 18446744073709551616 →
  replies (ring_call after_read) (queue_init value_init capacity) ops =
    replies (fifo_call (Z.max 2 capacity - 1)) [] ops.
Proof.
  intros Hc. destruct (queue_init_wf value_init capacity) as (Hwf & Hnil & Hcap); [lia|].
  by rewrite replies_refine, Hcap, Hnil.
Qed.

(** ** Producer and consumer interleaved *)
Definition read_frontier {A} (s : spsc_state A) : Z :=
  match sq_consumer s with
  | ConsumerRead _ => count (sq_popped s) + 1
  | _ => count (sq_popped s)
  end.

Record spsc_inv {A} (s : spsc_state A) : Prop := {
  si_capacity : 2 ≤ q_capacity (sq_queue s) < 18446744073709551616;
  si_buffer : Z.of_nat (length (q_buffer (sq_queue s))) = q_capacity (sq_queue s);
  si_head : q_head (sq_queue s) = count (sq_pushed s) `mod` q_capacity (sq_queue s);
  si_tail : q_tail (sq_queue s) = count (sq_popped s) `mod` q_capacity (sq_queue s);
  si_tail_seen : 0 ≤ sq_tail_seen s ≤ count (sq_popped s);
  si_head_seen : count (sq_popped s) ≤ sq_head_seen s ≤ count (sq_pushed s);
  si_room : count (sq_pushed s) - sq_tail_seen s ≤ q_capacity (sq_queue s) - 1;
  si_producer : sq_producer s ≠ ProducerIdle →
    count (sq_pushed s) - sq_tail_seen s ≤ q_capacity (sq_queue s) - 2;
  si_consumer : sq_consumer s ≠ ConsumerIdle → count (sq_popped s) < sq_head_seen s;
  si_fifo : sq_popped s = take (length (sq_popped s)) (sq_pushed s);
  si_slice :
    slice (q_buffer (sq_queue s)) (q_capacity (sq_queue s)) (read_frontier s)
      (Z.to_nat (count (sq_pushed s) - read_frontier s)) =
    drop (Z.to_nat (read_frontier s)) (sq_pushed s);
  si_written x : sq_producer s = ProducerWritten x →
    q_buffer (sq_queue s) !! Z.to_nat (q_head (sq_queue s)) = Some x;
  si_read x : sq_consumer s = ConsumerRead x →
    sq_pushed s !! length (sq_popped s) = Some x;
}.

Lemma count_snoc {A} (l : list A) x : count (l ++ [x]) = count l + 1.
Proof. unfold count. rewrite length_app. simpl. lia. Qed.

Lemma count_nonneg {A} (l : list A) : 0 ≤ count l.
Proof. unfold count. lia. Qed.

Lemma spsc_init_inv {A} (d : A) capacity :
  capacity < 18446744073709551616 → spsc_inv (spsc_init d capacity).
Proof.
  intros Hc. destruct (queue_init_wf d capacity Hc) as ([Hcap Hb _ _] & _ & Hmax).
  split; unfold count; cbn [spsc_init sq_queue sq_producer sq_consumer sq_pushed sq_popped
    sq_tail_seen sq_head_seen length Z.of_nat]; rewrite ?Z.mod_0_l by lia; try done; lia.
Qed.

Section preservation.
Context {A : Type} (after_read : A → A).
Implicit Types (s : spsc_state A).

(** The positions still to be read lie before the next one to be written. *)
Lemma frontier_bounds s :
  spsc_inv s →
  count (sq_popped s) ≤ read_frontier s ≤ count (sq_pushed s) ∧
  count (sq_pushed s) - count (sq_popped s) ≤ q_capacity (sq_queue s) - 1.
Proof.
  intros [? ? ? ? Hts Hhs Hroom _ Hcons _ _ _ _]. unfold read_frontier.
  destruct (sq_consumer s); [lia|lia|]. specialize (Hcons ltac:(done)). lia.
Qed.

Lemma head_slot_apart s n :
  spsc_inv s → sq_producer s ≠ ProducerIdle → count (sq_popped s) ≤ n < count (sq_pushed s) →
  q_head (sq_queue s) ≠ n `mod` q_capacity (sq_queue s).
Proof.
  intros [Hc ? Hh ? Hts ? ? Hprod _ _ _ _ _] Hp Hn. rewrite Hh. specialize (Hprod Hp).
  intros Heq. apply mod_inj_near in Heq; lia.
Qed.

Lemma push_write_inv s x :
  spsc_inv s → sq_producer s = ProducerChecked x →
  spsc_inv (s <| sq_producer := ProducerWritten x |>
              <| sq_queue ::= λ q, q <| q_buffer ::= <[Z.to_nat (q_head q) := x]> |> |>).
Proof.
  intros Hinv Hp. pose proof (frontier_bounds s Hinv) as [Hfr Hlen].
  destruct Hinv as [Hc Hb Hh Ht Hts Hhs Hroom Hprod Hcons Hfifo Hslice Hwr Hrd].
  specialize (Hprod ltac:(by rewrite Hp)).
  split; simpl; rewrite ?length_insert; try done.
  - change (read_frontier _) with (read_frontier s). rewrite Hh, slice_insert_ne; [done|lia..].
  - intros x' [= ->]. apply list_lookup_insert_eq.
    pose proof (Z.mod_pos_bound (count (sq_pushed s)) (q_capacity (sq_queue s))). lia.
Qed.

Lemma push_publish_inv s x :
  spsc_inv s → sq_producer s = ProducerWritten x →
  spsc_inv (s <| sq_producer := ProducerIdle |>
              <| sq_queue ::= λ q, q <| q_head := increment (q_capacity q) (q_head q) |> |>
              <| sq_pushed ::= λ l, l ++ [x] |>).
Proof.
  intros Hinv Hp. pose proof (frontier_bounds s Hinv) as [Hfr Hlen].
  destruct Hinv as [Hc Hb Hh Ht Hts Hhs Hroom Hprod Hcons Hfifo Hslice Hwr Hrd].
  specialize (Hprod ltac:(by rewrite Hp)). specialize (Hwr x Hp).
  pose proof (count_nonneg (sq_popped s)).
  split; simpl; rewrite ?count_snoc; try done; try lia.
  - rewrite Hh. apply increment_index. lia.
  - rewrite take_app_le; [done|]. unfold count in *. lia.
  - change (read_frontier _) with (read_frontier s).
    replace (Z.to_nat (count (sq_pushed s) + 1 - read_frontier s))
      with (S (Z.to_nat (count (sq_pushed s) - read_frontier s))) by lia.
    rewrite slice_snoc, Hslice, Z2Nat.id by lia.
    replace (read_frontier s + (count (sq_pushed s) - read_frontier s))
      with (count (sq_pushed s)) by lia.
    rewrite <-Hh, Hwr, drop_app_le; [done|]. unfold count in *. lia.
  - intros y Hy. specialize (Hrd y Hy). by apply lookup_app_l_Some.
Qed.

Lemma pop_read_inv s x :
  spsc_inv s → sq_consumer s = ConsumerChecked →
  q_buffer (sq_queue s) !! Z.to_nat (q_tail (sq_queue s)) = Some x →
  spsc_inv (s <| sq_consumer := ConsumerRead x |>
              <| sq_queue ::= λ q, q <| q_buffer ::= <[Z.to_nat (q_tail q) := after_read x]> |> |>).
Proof.
  intros Hinv Hcs Hx. pose proof (frontier_bounds s Hinv) as [Hfr Hlen].
  pose proof (head_slot_apart s (count (sq_popped s)) Hinv) as Hapart.
  destruct Hinv as [Hc Hb Hh Ht Hts Hhs Hroom Hprod Hcons Hfifo Hslice Hwr Hrd].
  specialize (Hcons ltac:(by rewrite Hcs)).
  unfold read_frontier in Hslice, Hfr. rewrite Hcs in Hslice, Hfr.
  set (T := count (sq_popped s)) in *. set (H := count (sq_pushed s)) in *.
  replace (Z.to_nat (H - T)) with (S (Z.to_nat (H - (T + 1)))) in Hslice by lia.
  cbn [slice] in Hslice. rewrite <-Ht, Hx in Hslice. cbn [option_list app] in Hslice.
  symmetry in Hslice.
  assert (sq_pushed s !! Z.to_nat T = Some x) as Hpx.
  { rewrite <-(Nat.add_0_r (Z.to_nat T)), <-lookup_drop, Hslice. done. }
  assert (drop (Z.to_nat (T + 1)) (sq_pushed s) =
    slice (q_buffer (sq_queue s)) (q_capacity (sq_queue s)) (T + 1) (Z.to_nat (H - (T + 1))))
    as Hdrop.
  { replace (Z.to_nat (T + 1)) with (Z.to_nat T + 1)%nat by lia.
    by rewrite <-drop_drop, Hslice. }
  split; simpl; rewrite ?length_insert; try done.
  - unfold read_frontier. simpl. fold T H. rewrite Ht, slice_insert_behind by lia. done.
  - intros y Hy. rewrite list_lookup_insert_ne; [by apply Hwr|].
    pose proof (Z.mod_pos_bound T (q_capacity (sq_queue s)) ltac:(lia)).
    pose proof (Z.mod_pos_bound H (q_capacity (sq_queue s)) ltac:(lia)).
    rewrite Ht, Hh. intros Heq%Z2Nat.inj; [|lia..].
    apply Hapart; [by rewrite Hy|lia|congruence].
  - intros y [= ->]. unfold T, count in Hpx. by rewrite Nat2Z.id in Hpx.
Qed.

Lemma pop_publish_inv s x :
  spsc_inv s → sq_consumer s = ConsumerRead x →
  spsc_inv (s <| sq_consumer := ConsumerIdle |>
              <| sq_queue ::= λ q, q <| q_tail := increment (q_capacity q) (q_tail q) |> |>
              <| sq_popped ::= λ l, l ++ [x] |>).
Proof.
  intros Hinv Hcs. pose proof (frontier_bounds s Hinv) as [Hfr Hlen].
  destruct Hinv as [Hc Hb Hh Ht Hts Hhs Hroom Hprod Hcons Hfifo Hslice Hwr Hrd].
  specialize (Hcons ltac:(by rewrite Hcs)). specialize (Hrd x Hcs).
  unfold read_frontier in Hslice. rewrite Hcs in Hslice.
  split; simpl; rewrite ?count_snoc; try done; try lia.
  - rewrite Ht. apply increment_index. lia.
  - rewrite length_app, Nat.add_1_r, (take_S_r _ _ x Hrd). by rewrite <-Hfifo.
  - unfold read_frontier. simpl. by rewrite count_snoc.
Qed.

Lemma spsc_step_inv s s' : spsc_step after_read s s' → spsc_inv s → spsc_inv s'.
Proof.
  destruct 1 as [s n Hp Hn Heq|s x n Hp Hn Hneq|s x Hp|s x Hp|s n Hcs Hn Heq|s n Hcs Hn Hneq|s x Hcs Hx|s x Hcs];
    intros Hinv; eauto using push_write_inv, push_publish_inv, pop_read_inv, pop_publish_inv.
  - destruct Hinv. split; simpl; try done; lia.
  - destruct Hinv as [Hc Hb Hh Ht Hts Hhs Hroom Hprod Hcons Hfifo Hslice Hwr Hrd].
    assert (count (sq_pushed s) - n ≤ q_capacity (sq_queue s) - 2) as Hroom'.
    { destruct (decide (count (sq_pushed s) - n = q_capacity (sq_queue s) - 1)) as [E|]; [|lia].
      exfalso. apply Hneq. unfold index_after. rewrite Hh, increment_index by lia.
      rewrite <-(Z_mod_plus_full n 1). f_equal. lia. }
    split; simpl; try done; lia.
  - destruct Hinv as [? ? ? ? ? ? ? ? ? ? Hslice ? ?].
    split; simpl; try done; lia.
  - destruct Hinv as [Hc Hb Hh Ht Hts Hhs Hroom Hprod Hcons Hfifo Hslice Hwr Hrd].
    assert (n ≠ count (sq_popped s)) as Hnt.
    { intros ->. apply Hneq. by rewrite Ht. }
    unfold read_frontier in Hslice. rewrite Hcs in Hslice.
    split; simpl; try done; lia.
Qed.
End preservation.

Lemma spsc_reachable_inv {A} (after_read : A → A) (d : A) capacity s :
  capacity < 18446744073709551616 → rtc (spsc_step after_read) (spsc_init d capacity) s →
  spsc_inv s.
Proof.
  intros Hc Hr. pose proof (spsc_init_inv d capacity Hc) as Hinv. revert Hinv.
  induction Hr as [s|s1 s2 s3 H12 _ IH]; [done|]. intros Hinv. by apply IH, (spsc_step_inv after_read s1).
Qed.

(** C16: one producer and one consumer, however their accesses interleave and however
    stale the index of the other side they load is: the consumer receives exactly the
    values pushed, in order, without loss or duplication; fewer than [capacity]
    elements are in flight; and while the producer is about to write its slot the
    consumer is not between check and publication of the same slot. *)
Theorem spsc_delivers_in_order {A} (after_read : A → A) (d : A) capacity s :
  capacity < 18446744073709551616 → rtc (spsc_step after_read) (spsc_init d capacity) s →
  sq_popped s = take (length (sq_popped s)) (sq_pushed s) ∧
  0 ≤ count (sq_pushed s) - count (sq_popped s) < q_capacity (sq_queue s) ∧
  (sq_producer s ≠ ProducerIdle → sq_consumer s ≠ ConsumerIdle →
   q_head (sq_queue s) ≠ q_tail (sq_queue s)).
Proof.
  intros Hc Hr. pose proof (spsc_reachable_inv after_read d capacity s Hc Hr) as Hinv.
  pose proof (frontier_bounds s Hinv) as [Hfr Hlen]. split_and!; [apply Hinv|lia|lia|].
  intros Hp Hcs. rewrite (si_tail _ Hinv). apply head_slot_apart; [done..|].
  pose proof (si_consumer _ Hinv Hcs). pose proof (si_head_seen _ Hinv). lia.
Qed.

(** A call made while the other side is idle is the atomic call of the first part. *)
Lemma push_is_run {A} (after_read : A → A) (s : spsc_state A) x :
  spsc_inv s → sq_producer s = ProducerIdle →
  ∃ s', rtc (spsc_step after_read) s s' ∧ sq_producer s' = ProducerIdle ∧
    sq_queue s' = (try_push (sq_queue s) x).1 ∧
    sq_pushed s' = (if (try_push (sq_queue s) x).2 then sq_pushed s ++ [x] else sq_pushed s) ∧
    sq_popped s' = sq_popped s ∧ sq_consumer s' = sq_consumer s.
Proof.
  intros Hinv Hp. pose proof (si_tail_seen _ Hinv). pose proof (si_tail _ Hinv) as Ht.
  unfold try_push. case_decide as Hfull.
  - exists (s <| sq_tail_seen := count (sq_popped s) |>). split_and!; try done.
    apply rtc_once, spsc_push_full; [done|lia|]. unfold index_after. congruence.
  - eexists. split.
    { eapply rtc_l; [apply (spsc_push_check _ s x (count (sq_popped s))); [done|lia|]|].
      { unfold index_after. congruence. }
      eapply rtc_l; [by apply (spsc_push_write _ _ x)|].
      apply rtc_once. by apply (spsc_push_publish _ _ x). }
    by split_and!.
Qed.

Lemma pop_is_run {A} (after_read : A → A) (s : spsc_state A) :
  spsc_inv s → sq_consumer s = ConsumerIdle →
  ∃ s', rtc (spsc_step after_read) s s' ∧ sq_consumer s' = ConsumerIdle ∧
    sq_queue s' = (try_pop after_read (sq_queue s)).1 ∧
    sq_popped s' = sq_popped s ++ option_list (try_pop after_read (sq_queue s)).2 ∧
    sq_pushed s' = sq_pushed s ∧ sq_producer s' = sq_producer s.
Proof.
  intros Hinv Hcs. pose proof (si_head_seen _ Hinv). pose proof (si_head _ Hinv) as Hh.
  pose proof (si_capacity _ Hinv) as Hc.
  destruct (slot_in_range (q_capacity (sq_queue s)) ltac:(lia) (q_buffer (sq_queue s))
    (count (sq_popped s)) (si_buffer _ Hinv)) as [x Hx].
  rewrite <-(si_tail _ Hinv) in Hx. unfold try_pop. case_decide as Hempty.
  - exists (s <| sq_head_seen := count (sq_pushed s) |>). simpl. rewrite app_nil_r.
    split_and!; try done. apply rtc_once, spsc_pop_empty; [done|lia|]. unfold index_after. congruence.
  - rewrite Hx. eexists. split.
    { eapply rtc_l; [apply (spsc_pop_check _ s (count (sq_pushed s))); [done|lia|]|].
      { unfold index_after. congruence. }
      eapply rtc_l; [by apply (spsc_pop_read _ _ x)|].
      apply rtc_once. by apply (spsc_pop_publish _ _ x). }
    by split_and!.
Qed.

(** ** Concrete runs *)
Lemma ring_refines_fifo_witness :
  replies (ring_call (λ _, 0)) (queue_init 0 3)
    [OpPush 1; OpPush 2; OpPush 3; OpPop; OpPush 4; OpPop; OpPop; OpPop] =
  [inl true; inl true; inl false; inr (Some 1); inl true; inr (Some 2); inr (Some 4); inr None].
Proof.
  rewrite (ring_refines_fifo (λ _, 0) 0 3) by lia. reflexivity.
Defined.

(** The producer has pushed 7 and is writing 8 while the consumer reads 7. *)
Definition demo_spsc : spsc_state Z :=
  mkSpscState (mkSpscQueue 3 [7; 0; 0] 1 0) (ProducerChecked 8) ConsumerChecked [7] [] 0 1.

Lemma demo_spsc_reachable : rtc (spsc_step (λ x, x)) (spsc_init 0 3) demo_spsc.
Proof.
  eapply rtc_l; [apply (spsc_push_check _ _ 7 0); [done|vm_compute; done|vm_compute; done]|].
  eapply rtc_l; [by apply (spsc_push_write _ _ 7)|].
  eapply rtc_l; [by apply (spsc_push_publish _ _ 7)|].
  eapply rtc_l; [apply (spsc_push_check _ _ 8 0); [done|vm_compute; done|vm_compute; done]|].
  eapply rtc_l; [apply (spsc_pop_check _ _ 1); [done|vm_compute; done|vm_compute; done]|].
  apply rtc_refl.
Qed.

Lemma spsc_delivers_in_order_witness :
  sq_popped demo_spsc = take 0 (sq_pushed demo_spsc) ∧ q_head (sq_queue demo_spsc) ≠ q_tail (sq_queue demo_spsc).
Proof.
  destruct (spsc_delivers_in_order (λ x, x) 0 3 demo_spsc) as (Hf & _ & Hr).
  - lia.
  - apply demo_spsc_reachable.
  - split; [exact Hf|]. apply Hr; discriminate.
Defined.
