(* ===== verification/FramePool.v ===== *)
(** * FramePool: reusable frame slots with generations

    Model of src/cpp/src/ingest/frame_pool.cpp, frame_pool.hpp, frame_handle.hpp and
    raw_frame.hpp.  Every public call holds the pool's mutex and is one atomic step.
    [free_slots_] is used as a stack; the list keeps its top (the vector's back) first.
    [frame] returns a pointer into the pool: here the index of the slot. *)
From S2P Require Import Prelude.

(** ** Data *)
Record RawFrame := mkRawFrame {
  fr_recv_timestamp : Z;
  fr_source : string;
  fr_payload : string;
  fr_market_ticker : string;
  fr_seq_id : option Z;
}.

Record FrameRef := mkFrameRef {
  re_recv_timestamp_ns : Z;
  re_generation : Z;
  re_mono_timestamp_ns : Z;
  re_slot : Z;
  re_payload_size : Z;
}.

Record FramePool := mkFramePool {
  fp_slot_count : Z;
  fp_slots : list RawFrame;
  fp_generations : list Z;
  fp_in_use : list bool;
  fp_free_slots : list Z;
}.

#[export] Instance RawFrame_settable : Settable RawFrame := λ x,
  mkRawFrame (fr_recv_timestamp x) (fr_source x) (fr_payload x) (fr_market_ticker x) (fr_seq_id x).
#[export] Instance FrameRef_settable : Settable FrameRef := λ x,
  mkFrameRef (re_recv_timestamp_ns x) (re_generation x) (re_mono_timestamp_ns x) (re_slot x)
    (re_payload_size x).
#[export] Instance FramePool_settable : Settable FramePool := λ x,
  mkFramePool (fp_slot_count x) (fp_slots x) (fp_generations x) (fp_in_use x) (fp_free_slots x).

(** ** Operations *)
Definition kInitialGeneration : Z := 1.

Definition raw_frame_default : RawFrame := mkRawFrame 0 "" "" "" None.
Definition frame_ref_default : FrameRef := mkFrameRef 0 0 0 0 0.

(** The constructor; [slot_count_] is the capacity cut to 32 bits. *)
Definition frame_pool_init (capacity : Z) : FramePool :=
  let slot_count := u32 capacity in
  mkFramePool slot_count
    (replicate (Z.to_nat capacity) raw_frame_default)
    (replicate (Z.to_nat capacity) kInitialGeneration)
    (replicate (Z.to_nat capacity) false)
    (replicate (Z.to_nat (capacity - slot_count)) 0 ++ seqZ 0 slot_count).

Definition slot_at {A} (l : list A) (d : A) (slot : Z) : A := default d (l !! Z.to_nat slot).

Definition acquire (pool : FramePool) (timestamp_ns : Z) : FramePool * option FrameRef :=
  match fp_free_slots pool with
  | [] => (pool, None)
  | slot :: free =>
    let pool :=
      pool <| fp_free_slots := free |>
           <| fp_in_use ::= <[Z.to_nat slot := true]> |>
           <| fp_slots ::= <[Z.to_nat slot := raw_frame_default]> |> in
    let pool :=
      if decide (slot_at (fp_generations pool) 0 slot = 0)
      then pool <| fp_generations ::= <[Z.to_nat slot := kInitialGeneration]> |> else pool in
    (pool, Some (mkFrameRef timestamp_ns (slot_at (fp_generations pool) 0 slot) timestamp_ns slot 0))
  end.

(** The checks [release] and [frame] share. *)
Definition ref_ok (pool : FramePool) (ref : FrameRef) : Prop :=
  re_slot ref < fp_slot_count pool ∧ slot_at (fp_in_use pool) false (re_slot ref) = true ∧
  re_generation ref = slot_at (fp_generations pool) 0 (re_slot ref).
#[export] Instance ref_ok_dec pool ref : Decision (ref_ok pool ref).
Proof. unfold ref_ok. apply _. Defined.

Definition next_generation (g : Z) : Z :=
  if decide (u64_inc g = 0) then kInitialGeneration else u64_inc g.

Definition release (pool : FramePool) (ref : FrameRef) : FramePool * bool :=
  if decide (ref_ok pool ref) then
    let slot := re_slot ref in
    (pool <| fp_in_use ::= <[Z.to_nat slot := false]> |>
          <| fp_generations ::= <[Z.to_nat slot := next_generation (slot_at (fp_generations pool) 0 slot)]> |>
          <| fp_free_slots ::= cons slot |>, true)
  else (pool, false).

Definition frame (pool : FramePool) (ref : FrameRef) : option Z :=
  if decide (ref_ok pool ref) then Some (re_slot ref) else None.

Definition capacity (pool : FramePool) : Z := Z.of_nat (length (fp_slots pool)).
Definition available (pool : FramePool) : Z := Z.of_nat (length (fp_free_slots pool)).

(** Writing and reading through the pointer [frame] returned. *)
Definition write_frame (pool : FramePool) (slot : Z) (f : RawFrame) : FramePool :=
  pool <| fp_slots ::= <[Z.to_nat slot := f]> |>.
Definition read_frame (pool : FramePool) (slot : Z) : RawFrame :=
  slot_at (fp_slots pool) raw_frame_default slot.

(** ** The invariant of the pool *)
Lemma slot_at_insert {A} (l : list A) d k j v :
  0 ≤ k < Z.of_nat (length l) → 0 ≤ j →
  slot_at (<[Z.to_nat k := v]> l) d j = if decide (j = k) then v else slot_at l d j.
Proof.
  intros Hk Hj. unfold slot_at. case_decide as E.
  - subst j. rewrite list_lookup_insert_eq by lia. done.
  - rewrite list_lookup_insert_ne by lia. done.
Qed.

Lemma slot_at_replicate {A} n (x : A) k :
  0 ≤ k < Z.of_nat n → slot_at (replicate n x) x k = x.
Proof. intros Hk. unfold slot_at. by rewrite lookup_replicate_2 by lia. Qed.

Record pool_wf (p : FramePool) : Prop := {
  pw_count : 0 ≤ fp_slot_count p < 4294967296;
  pw_slots : Z.of_nat (length (fp_slots p)) = fp_slot_count p;
  pw_generations : Z.of_nat (length (fp_generations p)) = fp_slot_count p;
  pw_in_use : Z.of_nat (length (fp_in_use p)) = fp_slot_count p;
  pw_nodup : NoDup (fp_free_slots p);
  pw_free k : k ∈ fp_free_slots p ↔
    0 ≤ k < fp_slot_count p ∧ slot_at (fp_in_use p) false k = false;
  pw_generation k : 0 ≤ k < fp_slot_count p →
    1 ≤ slot_at (fp_generations p) 0 k < 18446744073709551616;
}.

(** A reference the pool would accept, with an index in range. *)
Definition live_ref (p : FramePool) (r : FrameRef) : Prop := 0 ≤ re_slot r ∧ ref_ok p r.

Lemma frame_pool_init_wf n :
  0 ≤ n < 4294967296 → pool_wf (frame_pool_init n).
Proof.
  intros Hn. assert (u32 n = n) as Hu by (unfold u32; apply Z.mod_small; lia).
  unfold frame_pool_init. rewrite Hu, Z.sub_diag. simpl.
  split; simpl; rewrite ?length_replicate; try lia.
  - apply NoDup_seqZ.
  - intros k. rewrite elem_of_seqZ. split; [|lia].
    intros Hk. split; [lia|]. apply slot_at_replicate. lia.
  - intros k Hk. unfold slot_at, kInitialGeneration. rewrite lookup_replicate_2 by lia. simpl. lia.
Qed.

Lemma acquire_spec p ts p' r :
  pool_wf p → acquire p ts = (p', Some r) →
  pool_wf p' ∧ live_ref p' r ∧ re_slot r ∈ fp_free_slots p ∧
  fp_slot_count p' = fp_slot_count p ∧ fp_free_slots p = re_slot r :: fp_free_slots p' ∧
  fp_generations p' = fp_generations p ∧
  fp_slots p' = <[Z.to_nat (re_slot r) := raw_frame_default]> (fp_slots p) ∧
  (∀ j, 0 ≤ j → slot_at (fp_in_use p') false j =
     if decide (j = re_slot r) then true else slot_at (fp_in_use p) false j).
Proof.
  intros Hwf. unfold acquire. destruct (fp_free_slots p) as [|slot free] eqn:Hfree; [done|].
  assert (0 ≤ slot < fp_slot_count p ∧ slot_at (fp_in_use p) false slot = false) as [Hr Huse].
  { apply (pw_free _ Hwf). rewrite Hfree. left. }
  pose proof (pw_generation _ Hwf slot Hr) as Hg. simpl.
  rewrite decide_False by lia. simpl. intros [= <- <-]. simpl.
  pose proof (pw_in_use _ Hwf) as Hlu. pose proof (pw_nodup _ Hwf) as Hnd.
  rewrite Hfree, NoDup_cons in Hnd. destruct Hnd as [Hni Hnd].
  assert (∀ j, 0 ≤ j → slot_at (<[Z.to_nat slot:=true]> (fp_in_use p)) false j =
    if decide (j = slot) then true else slot_at (fp_in_use p) false j) as Hin.
  { intros j Hj. apply slot_at_insert; lia. }
  split; [|split; [|split; [left|by split_and!]]].
  - destruct Hwf as [Hc Hs Hg' Hu Hnd' Hf Hgen]. split; simpl; rewrite ?length_insert; try done.
    intros k. rewrite Hfree in Hf. specialize (Hf k). rewrite elem_of_cons in Hf. split.
    + intros Hk. destruct (proj1 Hf ltac:(auto)) as [Hkr Hku]. split; [done|].
      rewrite Hin by lia. rewrite decide_False; [done|]. intros ->. done.
    + intros [Hkr Hku]. rewrite Hin in Hku by lia. case_decide; [done|].
      destruct (proj2 Hf ltac:(auto)); [done|done].
  - split; [simpl; lia|]. split; [simpl; lia|]. simpl. split; [|done].
    rewrite Hin by lia. by rewrite decide_True by done.
Qed.

Lemma release_spec p r :
  pool_wf p → live_ref p r →
  let p' := (release p r).1 in
  (release p r).2 = true ∧ pool_wf p' ∧
  fp_slot_count p' = fp_slot_count p ∧ fp_free_slots p' = re_slot r :: fp_free_slots p ∧
  fp_slots p' = fp_slots p ∧
  (∀ j, 0 ≤ j → slot_at (fp_generations p') 0 j =
     if decide (j = re_slot r) then next_generation (re_generation r)
     else slot_at (fp_generations p) 0 j) ∧
  (∀ j, 0 ≤ j → slot_at (fp_in_use p') false j =
     if decide (j = re_slot r) then false else slot_at (fp_in_use p) false j).
Proof.
  intros Hwf [Hnn Hok]. cbv zeta. unfold release. rewrite decide_True by done.
  pose proof Hok as (Hlt & Huse & Hgen). cbn [fst snd].
  pose proof (pw_in_use _ Hwf) as Hlu. pose proof (pw_generations _ Hwf) as Hlg.
  assert (∀ j v, 0 ≤ j → slot_at (<[Z.to_nat (re_slot r):=v]> (fp_in_use p)) false j =
    if decide (j = re_slot r) then v else slot_at (fp_in_use p) false j) as Hin.
  { intros j v Hj. apply slot_at_insert; lia. }
  assert (∀ j v, 0 ≤ j → slot_at (<[Z.to_nat (re_slot r):=v]> (fp_generations p)) 0 j =
    if decide (j = re_slot r) then v else slot_at (fp_generations p) 0 j) as Hgn.
  { intros j v Hj. apply slot_at_insert; lia. }
  rewrite <-Hgen. simpl. split_and!; try done; [|intros; by apply Hgn|intros; by apply Hin].
  pose proof (pw_generation _ Hwf (re_slot r) ltac:(lia)) as Hg. rewrite <-Hgen in Hg.
  destruct Hwf as [Hc Hs _ _ Hnd Hf Hgs]. split; simpl; rewrite ?length_insert; try done.
  - apply NoDup_cons. split; [|done]. intros Hin'. apply Hf in Hin' as [_ ?]. congruence.
  - intros k. rewrite elem_of_cons, Hf. destruct (decide (k = re_slot r)) as [->|Hne].
    + split; [|auto]. intros _. split; [lia|]. rewrite Hin by lia. by rewrite decide_True.
    + split.
      * intros [?|[??]]; [done|]. split; [done|]. rewrite Hin by lia. by rewrite decide_False.
      * intros [? Hu]. rewrite Hin, decide_False in Hu by (done || lia). auto.
  - intros k Hk. rewrite Hgn by lia. case_decide; [|by apply Hgs].
    unfold next_generation, u64_inc, kInitialGeneration. pose proof (u64_range (re_generation r + 1)).
    unfold in_u64 in *. case_decide; lia.
Qed.

Lemma release_dead p r : ¬ ref_ok p r → release p r = (p, false) ∧ frame p r = None.
Proof. intros Hn. unfold release, frame. by rewrite !decide_False. Qed.

(** ** Sequences of calls *)
Inductive pool_op :=
  | PoolAcquire (timestamp_ns : Z)
  | PoolRelease (r : FrameRef)
  | PoolWrite (slot : Z) (f : RawFrame).

Definition pool_call (p : FramePool) (op : pool_op) : FramePool :=
  match op with
  | PoolAcquire ts => (acquire p ts).1
  | PoolRelease r => (release p r).1
  | PoolWrite slot f => write_frame p slot f
  end.

Definition pool_run (p : FramePool) (ops : list pool_op) : FramePool := foldl pool_call p ops.

(** Slot indices are unsigned. *)
Definition op_typed (op : pool_op) : Prop :=
  match op with PoolRelease r => 0 ≤ re_slot r | _ => True end.

Lemma acquire_none p ts p' : acquire p ts = (p', None) → p' = p.
Proof. unfold acquire. destruct (fp_free_slots p); [by intros [= <-]|done]. Qed.

Lemma write_frame_wf p slot f : pool_wf p → pool_wf (write_frame p slot f).
Proof. intros []. split; simpl; rewrite ?length_insert; done. Qed.

Lemma pool_call_wf p op : op_typed op → pool_wf p → pool_wf (pool_call p op).
Proof.
  destruct op as [ts|r|slot f]; simpl; intros Hty Hwf.
  - destruct (acquire p ts) as [p' [r|]] eqn:Hacq; simpl.
    + by apply (acquire_spec p ts p' r) in Hacq as [? _].
    + by rewrite (acquire_none _ _ _ Hacq).
  - destruct (decide (ref_ok p r)).
    + by apply release_spec.
    + by rewrite (proj1 (release_dead p r ltac:(done))).
  - by apply write_frame_wf.
Qed.

Lemma pool_run_wf p ops : Forall op_typed ops → pool_wf p → pool_wf (pool_run p ops).
Proof.
  intros Hty. revert p. induction Hty as [|op ops Hop _ IH]; intros p Hwf; [done|].
  by apply IH, pool_call_wf.
Qed.

(** ** Generations

    A slot's generation runs through 1, ..., 2^64 - 1 and starts over. *)
Definition generation_after (g k : Z) : Z := (g - 1 + k) `mod` 18446744073709551615 + 1.

Lemma generation_after_0 g : 1 ≤ g < 18446744073709551616 → generation_after g 0 = g.
Proof. intros Hg. unfold generation_after. rewrite Z.add_0_r, Z.mod_small; lia. Qed.

Lemma next_generation_after g k :
  next_generation (generation_after g k) = generation_after g (k + 1).
Proof.
  unfold next_generation, generation_after, u64_inc, u64, kInitialGeneration.
  pose proof (Z.mod_pos_bound (g - 1 + k) 18446744073709551615 ltac:(lia)) as Hr.
  rewrite Z.add_assoc, <-(Zplus_mod_idemp_l (g - 1 + k) 1).
  set (m := (g - 1 + k) `mod` 18446744073709551615) in *.
  destruct (decide (m = 18446744073709551614)) as [->|Hne]; [done|].
  rewrite !Z.mod_small by lia. rewrite decide_False by lia. done.
Qed.

Lemma generation_after_ne g k :
  1 ≤ g < 18446744073709551616 → 0 < k < 18446744073709551615 → generation_after g k ≠ g.
Proof.
  intros Hg Hk Heq. unfold generation_after in Heq.
  assert ((g - 1 + k) `mod` 18446744073709551615 = (g - 1) `mod` 18446744073709551615) as Hm
    by (rewrite (Z.mod_small (g - 1)); lia).
  pose proof (Z.div_mod (g - 1 + k) 18446744073709551615 ltac:(lia)).
  pose proof (Z.div_mod (g - 1) 18446744073709551615 ltac:(lia)). lia.
Qed.

Lemma pool_call_generation p op slot :
  op_typed op → pool_wf p → 0 ≤ slot < fp_slot_count p →
  fp_slot_count (pool_call p op) = fp_slot_count p ∧
  (slot_at (fp_generations (pool_call p op)) 0 slot = slot_at (fp_generations p) 0 slot ∨
   slot_at (fp_generations (pool_call p op)) 0 slot =
     next_generation (slot_at (fp_generations p) 0 slot)).
Proof.
  destruct op as [ts|r|s f]; simpl; intros Hty Hwf Hs; [| |by auto].
  - destruct (acquire p ts) as [p' [r|]] eqn:Hacq; simpl.
    + apply acquire_spec in Hacq as (_ & _ & _ & Hc & _ & Hg & _); [|done]. rewrite Hg. auto.
    + rewrite (acquire_none _ _ _ Hacq). auto.
  - destruct (decide (ref_ok p r)) as [Hok|Hno].
    + destruct (release_spec p r Hwf (conj Hty Hok)) as (_ & _ & Hc & _ & _ & Hg & _).
      split; [done|]. rewrite Hg by lia. case_decide as E; [|auto].
      right. destruct Hok as (_ & _ & ->). by rewrite E.
    + rewrite (proj1 (release_dead p r Hno)). auto.
Qed.

Lemma pool_run_generation p ops slot :
  Forall op_typed ops → pool_wf p → 0 ≤ slot < fp_slot_count p →
  ∀ g j, 0 ≤ j → slot_at (fp_generations p) 0 slot = generation_after g j →
  ∃ k, j ≤ k ≤ j + Z.of_nat (length ops) ∧
    slot_at (fp_generations (pool_run p ops)) 0 slot = generation_after g k.
Proof.
  intros Hty. revert p. induction Hty as [|op ops Hop _ IH]; intros p Hwf Hs g j Hj Hg.
  { exists j. split; [simpl; lia|done]. }
  destruct (pool_call_generation p op slot Hop Hwf Hs) as [Hc Hcase].
  cbn [pool_run foldl length]. fold (pool_run (pool_call p op) ops).
  assert (pool_wf (pool_call p op)) as Hwf' by by apply pool_call_wf.
  destruct Hcase as [Hsame|Hnext].
  - destruct (IH _ Hwf' ltac:(lia) g j Hj ltac:(congruence)) as (k & Hk & Heq).
    exists k. split; [lia|done].
  - rewrite Hg, next_generation_after in Hnext.
    destruct (IH _ Hwf' ltac:(lia) g (j + 1) ltac:(lia) Hnext) as (k & Hk & Heq).
    exists k. split; [lia|done].
Qed.

(** ** The properties of the pool *)

(** C23: a slot has one owner.  In every state reached from a new pool, an acquired
    reference is live, its slot is none of those of the references that were live
    before, which stay live, and its frame is empty. *)
Theorem acquire_exclusive n ops ts p' r' :
  0 ≤ n < 4294967296 → Forall op_typed ops →
  acquire (pool_run (frame_pool_init n) ops) ts = (p', Some r') →
  live_ref p' r' ∧ read_frame p' (re_slot r') = raw_frame_default ∧
  ∀ r, live_ref (pool_run (frame_pool_init n) ops) r →
    re_slot r ≠ re_slot r' ∧ live_ref p' r ∧
    read_frame p' (re_slot r) = read_frame (pool_run (frame_pool_init n) ops) (re_slot r).
Proof.
  intros Hn Hty Hacq. set (p := pool_run _ _) in *.
  assert (pool_wf p) as Hwf by (apply pool_run_wf; [done|by apply frame_pool_init_wf]).
  apply acquire_spec in Hacq as (_ & Hlive & Hfree & Hc & _ & Hg & Hs & Hu); [|done].
  apply (pw_free _ Hwf) in Hfree as [Hr Huse].
  pose proof (pw_slots _ Hwf) as Hls. unfold read_frame. rewrite Hs.
  split; [done|]. split.
  { rewrite slot_at_insert by lia. by rewrite decide_True. }
  intros r (Hnn & Hlt & Hinuse & Hgen).
  assert (re_slot r ≠ re_slot r') as Hne by (intros E; rewrite E in Hinuse; congruence).
  split; [done|]. split.
  - split; [done|]. split; [lia|]. rewrite Hu, Hg by done. by rewrite decide_False.
  - rewrite slot_at_insert by lia. by rewrite decide_False.
Qed.

(** C22: a released reference is dead for good: through any fewer than 2^64 - 2 further
    calls, releasing it again fails and changes nothing and its frame cannot be
    reached, even when the slot has been reused. *)
Theorem released_ref_stays_dead n ops r ops' :
  0 ≤ n < 4294967296 → Forall op_typed ops → Forall op_typed ops' →
  live_ref (pool_run (frame_pool_init n) ops) r →
  Z.of_nat (length ops') < 18446744073709551614 →
  let p' := pool_run (release (pool_run (frame_pool_init n) ops) r).1 ops' in
  release p' r = (p', false) ∧ frame p' r = None.
Proof.
  intros Hn Hty Hty' Hlive Hlen p'. apply release_dead. intros (_ & _ & Hgen).
  set (p := pool_run (frame_pool_init n) ops) in *.
  assert (pool_wf p) as Hwf by (apply pool_run_wf; [done|by apply frame_pool_init_wf]).
  destruct (release_spec p r Hwf Hlive) as (_ & Hwf1 & Hc & _ & _ & Hg & _).
  pose proof Hlive as (Hnn & Hlt & _ & Hgr).
  pose proof (pw_generation _ Hwf (re_slot r) ltac:(lia)) as Hrange. rewrite <-Hgr in Hrange.
  assert (slot_at (fp_generations (release p r).1) 0 (re_slot r) =
    generation_after (re_generation r) 1) as Hg1.
  { rewrite Hg, decide_True by done. rewrite <-(generation_after_0 (re_generation r)) at 1 by done.
    apply next_generation_after. }
  destruct (pool_run_generation _ ops' (re_slot r) Hty' Hwf1 ltac:(lia) _ 1 ltac:(lia) Hg1)
    as (k & Hk & Heq).
  apply (generation_after_ne (re_generation r) k); [done|lia|]. unfold p' in Hgen. congruence.
Qed.

(** ** Concrete runs *)
Definition demo_ref : FrameRef := mkFrameRef 5 1 5 0 0.

Lemma acquire_exclusive_witness :
  ∃ p' r', acquire (pool_run (frame_pool_init 2) [PoolAcquire 5]) 6 = (p', Some r') ∧
    live_ref p' r' ∧ re_slot demo_ref ≠ re_slot r' ∧ live_ref p' demo_ref.
Proof.
  eexists _, _. split; [reflexivity|].
  destruct (acquire_exclusive 2 [PoolAcquire 5] 6
    (acquire (pool_run (frame_pool_init 2) [PoolAcquire 5]) 6).1 (mkFrameRef 6 1 6 1 0))
    as (Hl & _ & Hr).
  - lia.
  - repeat constructor.
  - reflexivity.
  - destruct (Hr demo_ref) as (Hne & Hl' & _).
    { split; [done|]. split; [vm_compute; reflexivity|]. split; vm_compute; reflexivity. }
    split; [exact Hl|]. split; [exact Hne|exact Hl'].
Defined.

Lemma released_ref_stays_dead_witness :
  let p := pool_run (frame_pool_init 2) [PoolAcquire 5] in
  let p' := pool_run (release p demo_ref).1 [PoolAcquire 6] in
  release p' demo_ref = (p', false) ∧ frame p' demo_ref = None.
Proof.
  apply (released_ref_stays_dead 2 [PoolAcquire 5] demo_ref [PoolAcquire 6]).
  - lia.
  - repeat constructor.
  - repeat constructor.
  - split; [done|]. split; [vm_compute; reflexivity|]. split; vm_compute; reflexivity.
  - simpl. lia.
Defined.

(** ** The references in circulation

    [held_inv p l]: [l] are exactly the references to the slots in use. *)
Record held_inv (p : FramePool) (l : list FrameRef) : Prop := {
  hi_wf : pool_wf p;
  hi_live : Forall (live_ref p) l;
  hi_nodup : NoDup (re_slot <$> l);
  hi_count : Z.of_nat (length l) + available p = fp_slot_count p;
}.

#[export] Instance held_inv_proper p : Proper ((≡ₚ) ==> iff) (held_inv p).
Proof.
  intros l1 l2 Hl. split; intros [Hwf Hlive Hnd Hc]; split; try done.
  - by rewrite <-Hl.
  - by rewrite <-Hl.
  - by rewrite <-Hl.
  - by rewrite Hl.
  - by rewrite Hl.
  - by rewrite Hl.
Qed.

Lemma held_init n : 0 ≤ n < 4294967296 → held_inv (frame_pool_init n) [].
Proof.
  intros Hn. split; [by apply frame_pool_init_wf|constructor|constructor|].
  unfold available, frame_pool_init. simpl.
  assert (u32 n = n) as -> by (unfold u32; apply Z.mod_small; lia).
  rewrite Z.sub_diag. simpl. rewrite length_seqZ. lia.
Qed.

Lemma held_acquire p l ts p' r :
  held_inv p l → acquire p ts = (p', Some r) →
  held_inv p' (r :: l) ∧
  ∀ r', r' ∈ l → read_frame p' (re_slot r') = read_frame p (re_slot r').
Proof.
  intros [Hwf Hlive Hnd Hc] Hacq.
  apply acquire_spec in Hacq as (Hwf' & Hr & Hfree & Hsc & Hf & Hg & Hs & Hu); [|done].
  apply (pw_free _ Hwf) in Hfree as [Hrange Hfreeu].
  rewrite Forall_forall in Hlive.
  assert (∀ r', r' ∈ l → re_slot r' ≠ re_slot r) as Hne.
  { intros r' (_ & _ & Hu' & _)%Hlive E. rewrite E in Hu'. congruence. }
  split; [split|].
  - done.
  - constructor; [done|]. apply Forall_forall. intros r' Hr'.
    destruct (Hlive r' Hr') as (Hnn & Hlt & Hu' & Hg'). split; [done|].
    split; [lia|]. rewrite Hu, Hg by done. by rewrite decide_False by by apply Hne.
  - simpl. apply NoDup_cons. split; [|done].
    intros (r' & E & Hr')%list_elem_of_fmap. by apply (Hne r').
  - unfold available in *. rewrite Hf in Hc. simpl in *. lia.
  - intros r' Hr'. destruct (Hlive r' Hr') as (Hnn & _). unfold read_frame. rewrite Hs.
    pose proof (pw_slots _ Hwf). rewrite slot_at_insert by lia.
    by rewrite decide_False by by apply Hne.
Qed.

Lemma held_release p l r :
  held_inv p (r :: l) →
  (release p r).2 = true ∧ held_inv (release p r).1 l ∧
  ∀ slot, read_frame (release p r).1 slot = read_frame p slot.
Proof.
  intros [Hwf [Hr Hlive]%Forall_cons Hnd Hc]. simpl in Hnd. apply NoDup_cons in Hnd as [Hni Hnd].
  destruct (release_spec p r Hwf Hr) as (Hok & Hwf' & Hsc & Hf & Hs & Hg & Hu).
  rewrite Forall_forall in Hlive. split; [done|]. split; [split|].
  - done.
  - apply Forall_forall. intros r' Hr'.
    assert (re_slot r' ≠ re_slot r) as Hne.
    { intros E. apply Hni. rewrite <-E. by apply list_elem_of_fmap_2. }
    destruct (Hlive r' Hr') as (Hnn & Hlt & Hu' & Hg'). split; [done|].
    split; [lia|]. rewrite Hu, Hg by done. by rewrite !decide_False.
  - done.
  - unfold available in *. rewrite Hf, Hsc. simpl in *. lia.
  - intros slot. unfold read_frame. by rewrite Hs.
Qed.

Lemma held_write p l r f :
  held_inv p (r :: l) →
  held_inv (write_frame p (re_slot r) f) (r :: l) ∧
  frame p r = Some (re_slot r) ∧
  read_frame (write_frame p (re_slot r) f) (re_slot r) = f ∧
  ∀ r', r' ∈ l → read_frame (write_frame p (re_slot r) f) (re_slot r') = read_frame p (re_slot r').
Proof.
  intros [Hwf Hall Hnd Hc]. pose proof Hall as [(Hnn & Hok) Hlive]%Forall_cons.
  pose proof (pw_slots _ Hwf) as Hls. pose proof (proj1 Hok) as Hlt.
  split; [by split; [apply write_frame_wf|..]|]. split; [unfold frame; by rewrite decide_True|].
  unfold read_frame, write_frame. simpl. split.
  - rewrite slot_at_insert by lia. by rewrite decide_True.
  - intros r' Hr'. rewrite Forall_forall in Hlive. destruct (Hlive r' Hr') as [Hnn' _].
    rewrite slot_at_insert by lia. rewrite decide_False; [done|].
    simpl in Hnd. apply NoDup_cons in Hnd as [Hni _]. intros E. apply Hni. rewrite <-E.
    by apply list_elem_of_fmap_2.
Qed.

Lemma held_resize p l r n :
  held_inv p (r :: l) → held_inv p ((r <| re_payload_size := n |>) :: l).
Proof. intros [Hwf [Hr Hl]%Forall_cons Hnd Hc]. split; [done| |done|done]. by constructor. Qed.
