(* ===== verification/Simdjson.v ===== *)
(** * The JSON reader the feed handlers call

    simdjson is a third-party library; its on-demand interface is a type class with the
    operations the sources use and nothing else.  [sj_parse] stands for
    [parser.iterate(text)] followed by [get_object()]; [None] is an error code.  A lookup
    is a function of the object and the key: it does not depend on earlier ones, which
    is what the "unordered" lookups document.  The last part gives a concrete reader,
    used to evaluate the model on examples. *)
From S2P Require Import Prelude.

(** A finite IEEE double: [mantissa * 2 ^ exponent]. *)
Record Double := mkDouble { db_mantissa : Z; db_exponent : Z }.

(** [std::modf]: the integer part, rounded towards zero, and whether there is a
    fraction. *)
Definition double_integer_part (d : Double) : Z :=
  if decide (0 ≤ db_exponent d) then db_mantissa d * 2 ^ db_exponent d
  else Z.quot (db_mantissa d) (2 ^ (- db_exponent d)).

Definition double_has_fraction (d : Double) : bool :=
  if decide (0 ≤ db_exponent d) then false
  else negb (bool_decide (Z.rem (db_mantissa d) (2 ^ (- db_exponent d)) = 0)).

Definition double_negative (d : Double) : bool := bool_decide (db_mantissa d < 0).

Class SimdJson := {
  sj_object : Type;
  sj_value : Type;
  sj_array : Type;
  sj_iterator : Type;
  sj_parse : string → option sj_object;
  (** [object::find_field_unordered(key)] *)
  sj_find_field_unordered : sj_object → string → option sj_value;
  (** [value::get_string()], [get_int64()], ... *)
  sj_value_string : sj_value → option string;
  sj_value_int64 : sj_value → option Z;
  sj_value_uint64 : sj_value → option Z;
  sj_value_double : sj_value → option Double;
  sj_value_object : sj_value → option sj_object;
  sj_value_array : sj_value → option sj_array;
  (** the values a range-for over an array visits *)
  sj_array_values : sj_array → list sj_value;
  (** [array::begin()], [*iter] and [++iter], the last with its error check *)
  sj_array_begin : sj_array → option sj_iterator;
  sj_deref : sj_iterator → option sj_value;
  sj_next : sj_iterator → option sj_iterator;
}.

(** The integers an accessor returns fit their C++ type. *)
Class SimdJsonTyped `{SimdJson} : Prop := {
  sj_int64_typed v z : sj_value_int64 v = Some z → in_s64 z;
  sj_uint64_typed v z : sj_value_uint64 v = Some z → in_u64 z;
}.

(** ** A concrete reader *)
Local Set Warnings "-register-all".
Inductive json :=
  | JInt (z : Z)
  | JFloat (d : Double)
  | JText (s : string)
  | JList (l : list json)
  | JDict (l : list (string * json)).

Definition dict_find (l : list (string * json)) (key : string) : option json :=
  snd <$> List.find (λ kv, String.eqb (fst kv) key) l.

Section reader.
Context (documents : string → option (list (string * json))).

Definition list_reader : SimdJson := {|
  sj_object := list (string * json);
  sj_value := json;
  sj_array := list json;
  sj_iterator := list json;
  sj_parse := documents;
  sj_find_field_unordered := dict_find;
  sj_value_string v := match v with JText s => Some s | _ => None end;
  sj_value_int64 v :=
    match v with JInt z => if bool_decide (in_s64 z) then Some z else None | _ => None end;
  sj_value_uint64 v :=
    match v with JInt z => if bool_decide (in_u64 z) then Some z else None | _ => None end;
  sj_value_double v := match v with JFloat d => Some d | _ => None end;
  sj_value_object v := match v with JDict d => Some d | _ => None end;
  sj_value_array v := match v with JList l => Some l | _ => None end;
  sj_array_values l := l;
  sj_array_begin l := Some l;
  sj_deref i := head i;
  sj_next i := match i with _ :: (_ :: _) as l => Some l | _ => None end;
|}.
End reader.

(** One document, a Kalshi delta message, under the text ["delta"]. *)
Definition demo_document : list (string * json) :=
  [("type", JText "orderbook_delta"); ("seq", JInt 7);
   ("msg", JDict [("market_ticker", JText "MKT"); ("price", JInt 40); ("delta", JInt (-3));
                  ("side", JText "yes")])].

Definition demo_reader : SimdJson :=
  list_reader (λ text, if String.eqb text "delta" then Some demo_document else None).
