(* ===== verification/Decode.v ===== *)
(** * Decoding the routing fields of a frame

    Model of src/cpp/src/decode: the exchange-specific extractors and
    [resolve_decoder].  The extractor reads just enough of the payload to route it: the
    message type, the market ticker and, when present, a sequence number. *)
From S2P Require Import Prelude.
From S2P Require Import Simdjson.
From S2P Require Import FramePool.

(** ** Data (extracted_fields.hpp, dispatch.hpp) *)
Inductive DecodeStatus :=
  | DecodeStatus_kOk | DecodeStatus_kMissingField | DecodeStatus_kUnsupportedMessage.

#[export] Instance DecodeStatus_eq_dec : EqDecision DecodeStatus.
Proof. solve_decision. Defined.

Record ExtractedFields := mkExtractedFields {
  ef_status : DecodeStatus;
  ef_market_ticker : string;
  ef_seq_id : option Z;
  ef_recv_timestamp : Z;
  ef_source : string;
}.

Definition extracted_ok (f : ExtractedFields) : bool :=
  bool_decide (ef_status f = DecodeStatus_kOk).

(** [decode::ExchangeId] *)
Inductive DecodeExchange := DecodeExchange_kKalshi | DecodeExchange_kPolymarket.

(** ** The Kalshi extractor *)
Definition kTypeOrderbookSnapshot : string := "orderbook_snapshot".
Definition kTypeOrderbookDelta : string := "orderbook_delta".
Definition kTypeTrade : string := "trade".

Section kalshi.
Context `{SimdJson}.

Definition get_string (obj : sj_object) (key : string) : option string :=
  sj_find_field_unordered obj key ≫= sj_value_string.

(** An unsigned reading, else a signed one that is not negative. *)
Definition get_uint64 (obj : sj_object) (key : string) : option Z :=
  match sj_find_field_unordered obj key ≫= sj_value_uint64 with
  | Some value => Some value
  | None =>
    match sj_find_field_unordered obj key ≫= sj_value_int64 with
    | Some value => if decide (value < 0) then None else Some value
    | None => None
    end
  end.

Definition get_object (obj : sj_object) (key : string) : option sj_object :=
  sj_find_field_unordered obj key ≫= sj_value_object.

(** The first of several readings that succeeds: [a || b] on [out] parameters. *)
Definition or_else {A} (a b : option A) : option A :=
  match a with Some x => Some x | None => b end.

Definition extract_sequence (root msg : sj_object) : option Z :=
  or_else (get_uint64 root "seq")
    (or_else (get_uint64 root "seq_id")
       (or_else (get_uint64 msg "seq") (get_uint64 msg "seq_id"))).

Definition known_type (type : string) : bool :=
  String.eqb type kTypeOrderbookSnapshot || String.eqb type kTypeOrderbookDelta
  || String.eqb type kTypeTrade.

Definition kalshi_extract (frame : RawFrame) : ExtractedFields :=
  let fields status :=
    mkExtractedFields status (fr_market_ticker frame) (fr_seq_id frame)
      (fr_recv_timestamp frame) (fr_source frame) in
  if decide (fr_market_ticker frame ≠ "") then fields DecodeStatus_kOk
  else
    match sj_parse (fr_payload frame) with
    | None => fields DecodeStatus_kMissingField
    | Some root =>
      match get_string root "type" with
      | None => fields DecodeStatus_kMissingField
      | Some type =>
        if negb (known_type type) then fields DecodeStatus_kUnsupportedMessage
        else
          match get_object root "msg" with
          | None => fields DecodeStatus_kMissingField
          | Some msg =>
            match get_string msg "market_ticker" with
            | None => fields DecodeStatus_kMissingField
            | Some market_ticker =>
              if decide (market_ticker = "") then fields DecodeStatus_kMissingField
              else
                mkExtractedFields DecodeStatus_kOk market_ticker
                  (or_else (extract_sequence root msg) (fr_seq_id frame))
                  (fr_recv_timestamp frame) (fr_source frame)
            end
          end
      end
    end.

(** ** The Polymarket extractor (a stub in the sources) and the dispatch *)
Definition polymarket_extract (frame : RawFrame) : ExtractedFields :=
  mkExtractedFields DecodeStatus_kMissingField "" None (fr_recv_timestamp frame) (fr_source frame).

Definition resolve_decoder (exchange : DecodeExchange) : RawFrame → ExtractedFields :=
  match exchange with
  | DecodeExchange_kKalshi => kalshi_extract
  | DecodeExchange_kPolymarket => polymarket_extract
  end.

(** A frame is decoded only with a non-empty ticker, whichever decoder is used. *)
Lemma decoded_ticker exchange frame :
  extracted_ok (resolve_decoder exchange frame) = true →
  ef_market_ticker (resolve_decoder exchange frame) ≠ "".
Proof.
  destruct exchange; [|done]. simpl. unfold kalshi_extract, extracted_ok.
  repeat case_match; simpl; try done; by case_decide || auto.
Qed.
End kalshi.
