(* ===== verification/KalshiParser.v ===== *)
(** * Parsing Kalshi messages into normalized events

    Model of src/cpp/src/parsers/exchanges/kalshi/parser.cpp, of the Polymarket stub
    parser and of parse_result.hpp.  [strict_field_validation_] has no setter and is
    [true]; it stays a parameter of the message parsers as in the source. *)
From Stdlib Require Import Ascii.
From S2P Require Import Prelude.
From S2P Require Import Types.
From S2P Require Import Simdjson.
From S2P Require Import FramePool.
From S2P Require Import Decode.
From S2P Require Import BookStore.

(** ** parse_result.hpp *)
Inductive ParseError :=
  | ParseError_kNone | ParseError_kInvalidJson | ParseError_kMissingField
  | ParseError_kInvalidField | ParseError_kUnsupportedMessageType.

Inductive ParseResult (A : Type) := ParseSuccess (a : A) | ParseFailure (e : ParseError).
Arguments ParseSuccess {A} a.
Arguments ParseFailure {A} e.

(** ** Decimal strings *)
Definition is_digit (c : ascii) : bool :=
  bool_decide (48 ≤ Z.of_nat (nat_of_ascii c) ≤ 57).
Definition digit_value (c : ascii) : Z := Z.of_nat (nat_of_ascii c) - 48.

Fixpoint all_chars (p : ascii → bool) (s : string) : bool :=
  match s with
  | EmptyString => true
  | String c s => p c && all_chars p s
  end.

(** [std::from_chars] on a string of digits, without its range check. *)
Fixpoint decimal_value (acc : Z) (s : string) : Z :=
  match s with
  | EmptyString => acc
  | String c s => decimal_value (10 * acc + digit_value c) s
  end.

(** [value.find('.')] with the two [substr] calls. *)
Fixpoint split_at_dot (s : string) : string * option string :=
  match s with
  | EmptyString => (EmptyString, None)
  | String c s =>
    if decide (c = "."%char) then (EmptyString, Some s)
    else let '(int_part, frac) := split_at_dot s in (String c int_part, frac)
  end.

Definition starts_with_minus (s : string) : bool :=
  match s with String c _ => bool_decide (c = "-"%char) | EmptyString => false end.

Definition parse_non_negative_decimal_string_to_int64 (value : string) : option Z :=
  if decide (value = "") then None
  else if starts_with_minus value then None
  else
    let '(int_part, frac) := split_at_dot value in
    let frac_part := default "" frac in
    if decide (int_part = "") then None
    else if negb (all_chars is_digit int_part) then None
    else if negb (all_chars (λ c, bool_decide (c = "0"%char)) frac_part) then None
    else
      let parsed := decimal_value 0 int_part in
      if decide (18446744073709551615 < parsed) then None
      else if decide (9223372036854775807 < parsed) then None
      else Some parsed.

Section parser.
Context `{SimdJson}.

(** ** Field readers: a lookup followed by a typed access *)
Definition get_string (obj : sj_object) (key : string) : option string :=
  sj_find_field_unordered obj key ≫= sj_value_string.

Definition get_int64 (obj : sj_object) (key : string) : option Z :=
  sj_find_field_unordered obj key ≫= sj_value_int64.

Definition get_uint64 (obj : sj_object) (key : string) : option Z :=
  match sj_find_field_unordered obj key ≫= sj_value_uint64 with
  | Some value => Some value
  | None =>
    match get_int64 obj key with
    | Some signed_value => if decide (signed_value < 0) then None else Some signed_value
    | None => None
    end
  end.

Definition get_object (obj : sj_object) (key : string) : option sj_object :=
  sj_find_field_unordered obj key ≫= sj_value_object.

Definition get_array (obj : sj_object) (key : string) : option sj_array :=
  sj_find_field_unordered obj key ≫= sj_value_array.

Definition get_lot_count (msg : sj_object) : option Z :=
  match or_else (get_int64 msg "count") (get_int64 msg "count_fp") with
  | Some out => if decide (0 ≤ out) then Some out else None
  | None =>
    match sj_find_field_unordered msg "count_fp" ≫= sj_value_double with
    | Some count =>
      if double_negative count then None
      else if double_has_fraction count then None
      (* static_cast<double>(INT64_MAX) is 2^63 *)
      else if decide (9223372036854775808 < double_integer_part count) then None
      else Some (s64 (double_integer_part count))
    | None =>
      match get_string msg "count_fp" with
      | Some text => parse_non_negative_decimal_string_to_int64 text
      | None => None
      end
    end
  end.

Definition parse_book_side (side_token : string) : Side :=
  if String.eqb side_token "yes" || String.eqb side_token "bid" then Side_kBid
  else if String.eqb side_token "no" || String.eqb side_token "ask" then Side_kAsk
  else Side_kUnknown.

Definition parse_trade_side (side_token : string) : Side :=
  if String.eqb side_token "yes" || String.eqb side_token "buy" then Side_kBuy
  else if String.eqb side_token "no" || String.eqb side_token "sell" then Side_kSell
  else Side_kUnknown.

Definition set_sequence (event : NormalizedEvent) (seq : Z) : NormalizedEvent :=
  event <| ne_raw_sequence_id := Some seq |>
        <| ne_meta ::= λ meta, meta <| em_sequence_id := seq |> |>.

Definition set_sequence_from_root (root : sj_object) (event : NormalizedEvent)
    : NormalizedEvent :=
  match or_else (get_uint64 root "seq") (get_uint64 root "seq_id") with
  | Some seq => set_sequence event seq
  | None => event
  end.

Definition set_sequence_from_msg (msg : sj_object) (event : NormalizedEvent)
    : NormalizedEvent :=
  match or_else (get_uint64 msg "seq") (get_uint64 msg "seq_id") with
  | Some seq => set_sequence event seq
  | None =>
    match ne_raw_sequence_id event with
    | Some seq => event <| ne_meta ::= λ meta, meta <| em_sequence_id := seq |> |>
    | None => event
    end
  end.

(** One [[price, qty]] entry of a side. *)
Definition parse_level (level_val : sj_value) : option Level :=
  match sj_value_array level_val with
  | None => None
  | Some level_arr =>
    match sj_array_begin level_arr with
    | None => None
    | Some iter =>
      match sj_deref iter ≫= sj_value_int64 with
      | None => None
      | Some price =>
        match sj_next iter with
        | None => None
        | Some iter =>
          match sj_deref iter ≫= sj_value_int64 with
          | None => None
          | Some qty =>
            if decide (price < 0 ∨ qty < 0) then None else Some (mkLevel price qty)
          end
        end
      end
    end
  end.

Fixpoint parse_levels (arr : list sj_value) : option (list Level) :=
  match arr with
  | [] => Some []
  | level_val :: arr =>
    match parse_level level_val with
    | None => None
    | Some level =>
      match parse_levels arr with
      | None => None
      | Some levels => Some (level :: levels)
      end
    end
  end.

(** ** The three message types *)
Definition parse_snapshot (msg : sj_object) (event : NormalizedEvent)
    : ParseResult NormalizedEvent :=
  match ne_raw_sequence_id event with
  | None => ParseFailure ParseError_kMissingField
  | Some _ =>
    let event := event <| ne_type := EventType_kSnapshot |> in
    match get_array msg "yes" with
    | None => ParseFailure ParseError_kMissingField
    | Some yes_levels =>
      match parse_levels (sj_array_values yes_levels) with
      | None => ParseFailure ParseError_kInvalidField
      | Some bids =>
        match get_array msg "no" with
        | None => ParseFailure ParseError_kMissingField
        | Some no_levels =>
          match parse_levels (sj_array_values no_levels) with
          | None => ParseFailure ParseError_kInvalidField
          | Some asks =>
            ParseSuccess (event <| ne_data := EventData_Snapshot (mkSnapshotData bids asks) |>)
          end
        end
      end
    end
  end.

Definition parse_delta (msg : sj_object) (event : NormalizedEvent)
    (strict_field_validation : bool) : ParseResult NormalizedEvent :=
  match ne_raw_sequence_id event with
  | None => ParseFailure ParseError_kMissingField
  | Some _ =>
    let event := event <| ne_type := EventType_kDelta |> in
    match get_int64 msg "price", get_int64 msg "delta" with
    | Some price, Some delta_qty =>
      if decide (price < 0) then ParseFailure ParseError_kInvalidField
      else
        match get_string msg "side" with
        | None => ParseFailure ParseError_kMissingField
        | Some side_token =>
          let side := parse_book_side side_token in
          if decide (side = Side_kUnknown ∧ strict_field_validation = true)
          then ParseFailure ParseError_kInvalidField
          else
            ParseSuccess (event <| ne_data := EventData_Delta (mkDeltaData side price delta_qty) |>)
        end
    | _, _ => ParseFailure ParseError_kMissingField
    end
  end.

Definition parse_trade (msg : sj_object) (event : NormalizedEvent)
    (strict_field_validation : bool) : ParseResult NormalizedEvent :=
  let event := set_sequence_from_msg msg event in
  let event := event <| ne_type := EventType_kTrade |> in
  match or_else (get_int64 msg "yes_price") (get_int64 msg "price"), get_lot_count msg with
  | Some price, Some qty =>
    if decide (price < 0 ∨ qty < 0) then ParseFailure ParseError_kInvalidField
    else
      let with_aggressor aggressor :=
        ParseSuccess
          (event <| ne_data := EventData_Trade
                      (mkTradeData price qty aggressor (get_string msg "trade_id")) |>) in
      match get_string msg "taker_side" with
      | None =>
        if strict_field_validation then ParseFailure ParseError_kMissingField
        else with_aggressor Side_kUnknown
      | Some taker_side =>
        let aggressor := parse_trade_side taker_side in
        if decide (aggressor = Side_kUnknown ∧ strict_field_validation = true)
        then ParseFailure ParseError_kInvalidField
        else with_aggressor aggressor
      end
  | _, _ => ParseFailure ParseError_kMissingField
  end.

Definition strict_field_validation_ : bool := true.

(** The event [parse] starts from: meta data of the frame, then the root's sequence. *)
Definition base_event (frame : RouterFrame) : NormalizedEvent :=
  mkNormalizedEvent EventType_kUnknown
    (mkEventMeta ExchangeId_kKalshi 0 (default 0 (rf_sequence_id frame)) (rf_recv_ns frame) 0)
    (rf_market_ticker frame) (rf_sequence_id frame) EventData_monostate
    (rf_raw_payload_view frame).

Definition kalshi_parse (frame : RouterFrame) : ParseResult NormalizedEvent :=
  match sj_parse (rf_raw_payload_view frame) with
  | None => ParseFailure ParseError_kInvalidJson
  | Some obj =>
    match get_string obj "type" with
    | None => ParseFailure ParseError_kMissingField
    | Some type =>
      let event := set_sequence_from_root obj (base_event frame) in
      if known_type type then
        match get_object obj "msg" with
        | None => ParseFailure ParseError_kMissingField
        | Some msg =>
          if String.eqb type kTypeOrderbookSnapshot then parse_snapshot msg event
          else if String.eqb type kTypeOrderbookDelta
          then parse_delta msg event strict_field_validation_
          else parse_trade msg event strict_field_validation_
        end
      else ParseFailure ParseError_kUnsupportedMessageType
    end
  end.

Definition polymarket_parse (frame : RouterFrame) : ParseResult NormalizedEvent :=
  ParseFailure ParseError_kUnsupportedMessageType.

(** ** parser_concept.hpp and parser_adapter.hpp *)
Class ExchangeParser (P : Type) := {
  kExchangeId : P → ExchangeId;
  exchange_parse : P → RouterFrame → ParseResult NormalizedEvent;
}.

(** The parser classes have no state but the constant [strict_field_validation_]. *)
Inductive KalshiExchangeParser := mkKalshiExchangeParser.
Inductive PolymarketExchangeParser := mkPolymarketExchangeParser.

#[export] Instance kalshi_exchange_parser : ExchangeParser KalshiExchangeParser := {|
  kExchangeId _ := ExchangeId_kKalshi;
  exchange_parse _ := kalshi_parse;
|}.
#[export] Instance polymarket_exchange_parser : ExchangeParser PolymarketExchangeParser := {|
  kExchangeId _ := ExchangeId_kPolymarket;
  exchange_parse _ := polymarket_parse;
|}.

Record ParserAdapter (P : Type) := mkParserAdapter { ad_parser : P }.
Arguments mkParserAdapter {P} _.
Arguments ad_parser {P} _.

Definition adapter_parse `{!ExchangeParser P} (a : ParserAdapter P) (frame : RouterFrame)
    : ParseResult NormalizedEvent :=
  exchange_parse (ad_parser a) frame.
Definition adapter_exchange_id `{!ExchangeParser P} (a : ParserAdapter P) : ExchangeId :=
  kExchangeId (ad_parser a).
End parser.

(** ** What a successful parse guarantees *)
Definition payload_ok (e : NormalizedEvent) : Prop :=
  match ne_type e, ne_data e with
  | EventType_kSnapshot, EventData_Snapshot s =>
    is_Some (ne_raw_sequence_id e) ∧
    Forall (λ l, 0 ≤ lv_price_ticks l ∧ 0 ≤ lv_qty_lots l) (sn_bids s ++ sn_asks s)
  | EventType_kDelta, EventData_Delta d => is_Some (ne_raw_sequence_id e) ∧ delta_valid d
  | EventType_kTrade, EventData_Trade t =>
    0 ≤ td_price_ticks t ∧ 0 ≤ td_qty_lots t ∧ td_aggressor t ≠ Side_kUnknown
  | _, _ => False
  end.

(** The fields of an event that come from the frame, and the sequence numbers. *)
Definition frame_fields (frame : RouterFrame) (e : NormalizedEvent) : Prop :=
  ne_market_ticker e = rf_market_ticker frame ∧
  ne_raw_payload e = rf_raw_payload_view frame ∧
  em_exchange (ne_meta e) = ExchangeId_kKalshi ∧ em_recv_ns (ne_meta e) = rf_recv_ns frame ∧
  (∀ s, ne_raw_sequence_id e = Some s → em_sequence_id (ne_meta e) = s).

Section parser_properties.
Context `{SimdJson}.

Lemma parse_levels_nonneg arr levels :
  parse_levels arr = Some levels →
  Forall (λ l, 0 ≤ lv_price_ticks l ∧ 0 ≤ lv_qty_lots l) levels.
Proof.
  revert levels. induction arr as [|v arr IH]; intros levels; simpl.
  { by intros [= <-]. }
  destruct (parse_level v) as [l|] eqn:Hl; [|done].
  destruct (parse_levels arr) as [ls|]; [|done]. intros [= <-]. constructor; [|by apply IH].
  unfold parse_level in Hl. repeat case_match; simplify_eq/=. lia.
Qed.

Lemma parse_snapshot_ok msg e e' frame :
  parse_snapshot msg e = ParseSuccess e' → frame_fields frame e →
  payload_ok e' ∧ frame_fields frame e' ∧ ne_raw_sequence_id e' = ne_raw_sequence_id e.
Proof.
  unfold parse_snapshot. intros Hp Hf.
  destruct (ne_raw_sequence_id e) as [s|] eqn:Hs; [|done].
  destruct (get_array msg "yes"); [|done]. destruct (parse_levels _) as [bids|] eqn:Hb; [|done].
  destruct (get_array msg "no") as [no|]; [|done].
  destruct (parse_levels (sj_array_values no)) as [asks|] eqn:Ha; [|done]. injection Hp as <-.
  split; [|split; [exact Hf|exact Hs]].
  unfold payload_ok. simpl. rewrite Hs. split; [done|].
  apply Forall_app; eauto using parse_levels_nonneg.
Qed.

Lemma parse_delta_ok msg e e' frame :
  parse_delta msg e true = ParseSuccess e' → frame_fields frame e →
  payload_ok e' ∧ frame_fields frame e' ∧ ne_raw_sequence_id e' = ne_raw_sequence_id e.
Proof.
  unfold parse_delta. intros Hp Hf.
  destruct (ne_raw_sequence_id e) as [s|] eqn:Hs; [|done].
  destruct (get_int64 msg "price") as [price|]; [|done].
  destruct (get_int64 msg "delta") as [d|]; [|done].
  case_decide; [done|]. destruct (get_string msg "side") as [tok|]; [|done].
  case_decide as Hside; [done|]. injection Hp as <-.
  split; [|split; [exact Hf|exact Hs]].
  unfold payload_ok, delta_valid. simpl. rewrite Hs. split; [done|]. split; [lia|]. tauto.
Qed.

Lemma set_sequence_from_msg_fields msg e frame :
  frame_fields frame e → frame_fields frame (set_sequence_from_msg msg e).
Proof.
  intros (? & ? & ? & ? & Hseq). unfold set_sequence_from_msg.
  destruct (or_else _ _); [by split_and!; simpl; try done; intros ? [= <-]|].
  destruct (ne_raw_sequence_id e) eqn:Hs; split_and!; simpl; try done; congruence.
Qed.

Lemma parse_trade_ok msg e e' frame :
  parse_trade msg e true = ParseSuccess e' → frame_fields frame e →
  payload_ok e' ∧ frame_fields frame e'.
Proof.
  unfold parse_trade. intros Hp Hf. apply (set_sequence_from_msg_fields msg) in Hf.
  set (e1 := set_sequence_from_msg msg e) in *.
  destruct (or_else _ _) as [price|]; [|done]. destruct (get_lot_count msg) as [qty|]; [|done].
  case_decide; [done|]. destruct (get_string msg "taker_side") as [tok|]; [|done].
  case_decide as Hside; [done|]. injection Hp as <-.
  split; [|exact Hf]. unfold payload_ok. simpl. split; [lia|]. split; [lia|]. tauto.
Qed.

Lemma base_event_fields obj frame :
  frame_fields frame (set_sequence_from_root obj (base_event frame)).
Proof.
  unfold set_sequence_from_root. destruct (or_else _ _).
  - split_and!; try done. simpl. by intros ? [= <-].
  - split_and!; try done. simpl. by intros s ->.
Qed.

Lemma parse_not_trade frame e :
  kalshi_parse frame = ParseSuccess e → ne_type e ≠ EventType_kTrade →
  ∃ obj, sj_parse (rf_raw_payload_view frame) = Some obj ∧
    ne_raw_sequence_id e =
      ne_raw_sequence_id (set_sequence_from_root obj (base_event frame)).
Proof.
  unfold kalshi_parse. intros Hp Hty.
  destruct (sj_parse _) as [obj|]; [|done]. exists obj. split; [done|].
  destruct (get_string obj "type") as [type|]; [|done].
  pose proof (base_event_fields obj frame) as Hf.
  destruct (known_type type); [|done]. destruct (get_object obj "msg") as [msg|]; [|done].
  destruct (String.eqb type kTypeOrderbookSnapshot).
  { by destruct (parse_snapshot_ok _ _ _ frame Hp Hf) as (_ & _ & ?). }
  destruct (String.eqb type kTypeOrderbookDelta).
  { by destruct (parse_delta_ok _ _ _ frame Hp Hf) as (_ & _ & ?). }
  destruct (parse_trade_ok _ _ _ frame Hp Hf) as [Hok _]. exfalso.
  clear -Hp Hty. unfold parse_trade in Hp.
  repeat case_match; try done; by simplify_eq/=.
Qed.

(** A message the Kalshi parser accepts is well formed: the ticker, the payload, the
    exchange and the receive time are those of the frame, both sequence fields agree,
    snapshots and deltas have a sequence number, prices and quantities are not negative
    and sides are known. *)
Theorem kalshi_parse_ok frame e :
  kalshi_parse frame = ParseSuccess e → frame_fields frame e ∧ payload_ok e.
Proof.
  unfold kalshi_parse. intros Hp.
  destruct (sj_parse _) as [obj|]; [|done].
  destruct (get_string obj "type") as [type|]; [|done].
  pose proof (base_event_fields obj frame) as Hf.
  destruct (known_type type); [|done]. destruct (get_object obj "msg") as [msg|]; [|done].
  destruct (String.eqb type kTypeOrderbookSnapshot).
  { by destruct (parse_snapshot_ok _ _ _ frame Hp Hf) as (? & ? & _). }
  destruct (String.eqb type kTypeOrderbookDelta).
  { by destruct (parse_delta_ok _ _ _ frame Hp Hf) as (? & ? & _). }
  by destruct (parse_trade_ok _ _ _ frame Hp Hf).
Qed.
End parser_properties.

(** ** Decimal strings: printing and reading back *)
Definition digit_char (d : Z) : ascii := ascii_of_nat (Z.to_nat (48 + d)).

Fixpoint decimal_digits (fuel : nat) (n : Z) (rest : string) : string :=
  match fuel with
  | O => rest
  | S fuel =>
    if decide (n < 10) then String (digit_char n) rest
    else decimal_digits fuel (n `div` 10) (String (digit_char (n `mod` 10)) rest)
  end.

(** The decimal form of a number below 10^20; every 64-bit number is. *)
Definition decimal_string (n : Z) : string := decimal_digits 20 n "".

Fixpoint zeros (k : nat) : string :=
  match k with O => "" | S k => String "0"%char (zeros k) end.

Lemma digit_char_value d : 0 ≤ d < 10 → digit_value (digit_char d) = d ∧ is_digit (digit_char d) = true.
Proof.
  intros Hd. unfold digit_value, is_digit, digit_char.
  rewrite nat_ascii_embedding by lia. split; [lia|]. apply bool_decide_eq_true_2. lia.
Qed.

Lemma decimal_digits_spec fuel n rest :
  0 ≤ n < 10 ^ Z.of_nat fuel → (0 < fuel)%nat →
  (∃ k, ∀ a, decimal_value a (decimal_digits fuel n rest) = decimal_value (a * 10 ^ k + n) rest) ∧
  all_chars is_digit (decimal_digits fuel n rest) = all_chars is_digit rest ∧
  (∃ c s, decimal_digits fuel n rest = String c s ∧ is_digit c = true).
Proof.
  revert n rest. induction fuel as [|fuel IH]; intros n rest Hn Hf; [lia|]. simpl.
  case_decide as Hsmall.
  { destruct (digit_char_value n ltac:(lia)) as [Hv Hd]. split_and!.
    - exists 1. intros a. simpl. rewrite Hv. f_equal. lia.
    - simpl. by rewrite Hd.
    - by eexists _, _. }
  pose proof (Z.div_mod n 10 ltac:(lia)) as Hdm. pose proof (Z.mod_pos_bound n 10 ltac:(lia)).
  destruct fuel as [|fuel]; [simpl in Hn; lia|].
  destruct (digit_char_value (n `mod` 10) ltac:(lia)) as [Hv Hd].
  destruct (IH (n `div` 10) (String (digit_char (n `mod` 10)) rest)) as ((k & Hk) & Hall & Hhead);
    [|lia|].
  { rewrite Nat2Z.inj_succ, Z.pow_succ_r in Hn by lia. split; [lia|].
    apply Z.div_lt_upper_bound; lia. }
  split_and!; [|by rewrite Hall; simpl; rewrite Hd|done].
  destruct (decide (0 ≤ k)) as [Hk0|Hk0].
  - exists (k + 1). intros a. rewrite Hk. simpl. rewrite Hv, Z.pow_add_r by lia. f_equal. lia.
  - exists k. intros a. rewrite Hk. simpl. rewrite Hv, !Z.pow_neg_r by lia. f_equal. lia.
Qed.

Lemma all_digits_no_dot s t :
  all_chars is_digit s = true → split_at_dot (s ++ String "."%char t)%string = (s, Some t).
Proof.
  induction s as [|c s IH]; [done|].
  change (String c s ++ String "." t)%string with (String c (s ++ String "." t)).
  cbn [split_at_dot all_chars]. intros [Hc Hs]%andb_true_iff. rewrite decide_False by (intros ->; done). by rewrite IH.
Qed.

Lemma all_digits_split s : all_chars is_digit s = true → split_at_dot s = (s, None).
Proof.
  induction s as [|c s IH]; [done|]. cbn [split_at_dot all_chars].
  intros [Hc Hs]%andb_true_iff. rewrite decide_False by (intros ->; done). by rewrite IH.
Qed.

Lemma zeros_all k : all_chars (λ c, bool_decide (c = "0"%char)) (zeros k) = true.
Proof. by induction k. Qed.

(** A lot count printed in decimal, with or without a fraction of zeros, is read
    back exactly, for every value of a [std::int64_t] that is not negative. *)
Theorem decimal_count_roundtrip n k :
  0 ≤ n ≤ 9223372036854775807 →
  parse_non_negative_decimal_string_to_int64 (decimal_string n) = Some n ∧
  parse_non_negative_decimal_string_to_int64
    (decimal_string n ++ String "."%char (zeros k))%string = Some n.
Proof.
  intros Hn. unfold decimal_string.
  destruct (decimal_digits_spec 20 n "") as ((j & Hval) & Hall & (c & s & Hcs & Hc)); [|lia|].
  { split; [lia|]. apply (Z.le_lt_trans _ 9223372036854775807); [lia|done]. }
  specialize (Hval 0). change (all_chars is_digit "") with true in Hall. unfold parse_non_negative_decimal_string_to_int64.
  assert (decimal_value 0 (decimal_digits 20 n "") = n) as Hv by (rewrite Hval; simpl; lia).
  assert (starts_with_minus (String c s) = false ∧
    ∀ t, starts_with_minus (String c s ++ t)%string = false) as [Hm1 Hm2].
  { split; [|intros t]; simpl; apply bool_decide_eq_false_2; intros ->; done. }
  rewrite Hcs in *. split.
  - rewrite decide_False by done. rewrite Hm1, all_digits_split by done.
    rewrite decide_False by done. rewrite Hall. cbn [negb default from_option all_chars].
    rewrite Hv. by rewrite !decide_False by lia.
  - rewrite decide_False by done. rewrite Hm2, all_digits_no_dot by done.
    rewrite decide_False by done. rewrite Hall. cbn [negb default from_option id].
    rewrite zeros_all. cbn [negb]. rewrite Hv. by rewrite !decide_False by lia.
Qed.

(** ** Concrete runs *)
Definition demo_frame : RouterFrame := mkRouterFrame ExchangeId_kKalshi "MKT" (Some 7) 99 "delta".

Definition demo_parsed : NormalizedEvent :=
  mkNormalizedEvent EventType_kDelta (mkEventMeta ExchangeId_kKalshi 0 7 99 0) "MKT" (Some 7)
    (EventData_Delta (mkDeltaData Side_kBid 40 (-3))) "delta".

Lemma decimal_count_roundtrip_witness :
  parse_non_negative_decimal_string_to_int64 "120" = Some 120 ∧
  parse_non_negative_decimal_string_to_int64 "120.00" = Some 120.
Proof. apply (decimal_count_roundtrip 120 2). lia. Defined.
