(* ===== verification/ParserSpec.v ===== *)
(** * What a Kalshi message means

    A description of the messages the Kalshi parser accepts that does not follow the
    order in which parser.cpp looks at the fields: which payloads carry a snapshot, a
    delta or a trade, and which event each of them is.  The parser computes exactly this
    relation, and its error codes are characterised by the payload. *)
From Stdlib Require Import Ascii.
From S2P Require Import Prelude.
From S2P Require Import Types.
From S2P Require Import Simdjson.
From S2P Require Import FramePool.
From S2P Require Import Decode.
From S2P Require Import KalshiParser.

(** ** Decimal numbers and lot counts *)
(** The double is the integer [z]. *)
Definition double_is (d : Double) (z : Z) : Prop :=
  if decide (0 ≤ db_exponent d) then db_mantissa d * 2 ^ db_exponent d = z
  else db_mantissa d = z * 2 ^ (- db_exponent d).

(** Digits, then possibly a point and zeros; the digits fit a [std::int64_t]. *)
Definition decimal_text (text : string) (z : Z) : Prop :=
  ∃ digits, digits ≠ "" ∧ all_chars is_digit digits = true ∧ decimal_value 0 digits = z ∧
    z ≤ 9223372036854775807 ∧
    (text = digits ∨ ∃ k, text = (digits ++ String "."%char (zeros k))%string).

Section spec.
Context `{SimdJson}.

(** The sequence number an object carries, under either of its names. *)
Definition field_sequence (obj : sj_object) : option Z :=
  or_else (get_uint64 obj "seq") (get_uint64 obj "seq_id").

(** A lot count: an integer [count], or [count_fp] as an integer, a double without
    fraction, or a decimal string, in this order of preference. *)
Inductive lot_count (msg : sj_object) : Z → Prop :=
  | lot_count_integer z :
      or_else (get_int64 msg "count") (get_int64 msg "count_fp") = Some z → 0 ≤ z →
      lot_count msg z
  | lot_count_double d z :
      get_int64 msg "count" = None → get_int64 msg "count_fp" = None →
      sj_find_field_unordered msg "count_fp" ≫= sj_value_double = Some d →
      double_is d z → 0 ≤ z < 9223372036854775808 →
      lot_count msg z
  | lot_count_text text z :
      get_int64 msg "count" = None → get_int64 msg "count_fp" = None →
      sj_find_field_unordered msg "count_fp" ≫= sj_value_double = None →
      get_string msg "count_fp" = Some text → decimal_text text z →
      lot_count msg z.

(** ** Levels and sides *)
(** A value that is an array whose first two elements are a price and a quantity. *)
Definition level_reads (v : sj_value) (l : Level) : Prop :=
  ∃ arr i j, sj_value_array v = Some arr ∧ sj_array_begin arr = Some i ∧ sj_next i = Some j ∧
    sj_deref i ≫= sj_value_int64 = Some (lv_price_ticks l) ∧
    sj_deref j ≫= sj_value_int64 = Some (lv_qty_lots l) ∧
    0 ≤ lv_price_ticks l ∧ 0 ≤ lv_qty_lots l.

Definition side_reads (msg : sj_object) (key : string) (l : list Level) : Prop :=
  ∃ arr, get_array msg key = Some arr ∧ Forall2 level_reads (sj_array_values arr) l.

Inductive book_side : string → Side → Prop :=
  | book_side_yes : book_side "yes" Side_kBid
  | book_side_bid : book_side "bid" Side_kBid
  | book_side_no : book_side "no" Side_kAsk
  | book_side_ask : book_side "ask" Side_kAsk.

Inductive trade_side : string → Side → Prop :=
  | trade_side_yes : trade_side "yes" Side_kBuy
  | trade_side_buy : trade_side "buy" Side_kBuy
  | trade_side_no : trade_side "no" Side_kSell
  | trade_side_sell : trade_side "sell" Side_kSell.

(** ** Messages *)
(** The body of a message, by its type: the payload of the event it stands for. *)
Inductive body_reads (msg : sj_object) : string → EventType → EventData → Prop :=
  | body_snapshot bids asks :
      side_reads msg "yes" bids → side_reads msg "no" asks →
      body_reads msg "orderbook_snapshot" EventType_kSnapshot
        (EventData_Snapshot (mkSnapshotData bids asks))
  | body_delta price qty token side :
      get_int64 msg "price" = Some price → 0 ≤ price → get_int64 msg "delta" = Some qty →
      get_string msg "side" = Some token → book_side token side →
      body_reads msg "orderbook_delta" EventType_kDelta
        (EventData_Delta (mkDeltaData side price qty))
  | body_trade price qty token side :
      or_else (get_int64 msg "yes_price") (get_int64 msg "price") = Some price → 0 ≤ price →
      lot_count msg qty → get_string msg "taker_side" = Some token → trade_side token side →
      body_reads msg "trade" EventType_kTrade
        (EventData_Trade (mkTradeData price qty side (get_string msg "trade_id"))).

(** The sequence number of a message: a trade may carry its own, which goes before
    the root's, which goes before the frame's. *)
Definition message_sequence (ty : EventType) (frame : RouterFrame) (root msg : sj_object)
    : option Z :=
  let outer := or_else (field_sequence root) (rf_sequence_id frame) in
  match ty with
  | EventType_kTrade => or_else (field_sequence msg) outer
  | _ => outer
  end.

(** An event of a frame: exchange, ticker, time and payload are the frame's. *)
Definition event_of (frame : RouterFrame) (ty : EventType) (seq : option Z) (data : EventData)
    : NormalizedEvent :=
  mkNormalizedEvent ty (mkEventMeta ExchangeId_kKalshi 0 (default 0 seq) (rf_recv_ns frame) 0)
    (rf_market_ticker frame) seq data (rf_raw_payload_view frame).

(** The event a frame stands for. *)
Inductive kalshi_event (frame : RouterFrame) : NormalizedEvent → Prop :=
  | kalshi_event_intro root msg name ty data seq :
      sj_parse (rf_raw_payload_view frame) = Some root →
      get_string root "type" = Some name → get_object root "msg" = Some msg →
      body_reads msg name ty data →
      message_sequence ty frame root msg = seq → (ty ≠ EventType_kTrade → is_Some seq) →
      kalshi_event frame (event_of frame ty seq data).
End spec.

(** ** The readers compute the descriptions *)
Lemma double_is_iff d z :
  double_is d z ↔ double_has_fraction d = false ∧ double_integer_part d = z.
Proof.
  unfold double_is, double_has_fraction, double_integer_part.
  destruct (decide (0 ≤ db_exponent d)) as [He|He]; [tauto|].
  assert (0 < 2 ^ (- db_exponent d)) as Hp by (apply Z.pow_pos_nonneg; lia).
  set (p := 2 ^ (- db_exponent d)) in *. rewrite negb_false_iff, bool_decide_eq_true. split.
  - intros ->. split; [apply Z.rem_mul; lia|apply Z.quot_mul; lia].
  - intros [Hr <-]. rewrite (Z.quot_rem' (db_mantissa d) p) at 1. rewrite Hr. lia.
Qed.

Lemma double_is_sign d z : double_is d z → double_negative d = bool_decide (z < 0).
Proof.
  unfold double_is, double_negative. intros Hd. apply bool_decide_ext.
  destruct (decide _) as [He|He].
  - pose proof (Z.pow_pos_nonneg 2 (db_exponent d) ltac:(lia) He). nia.
  - pose proof (Z.pow_pos_nonneg 2 (- db_exponent d) ltac:(lia) ltac:(lia)). nia.
Qed.

Lemma split_at_dot_spec s ip frac :
  split_at_dot s = (ip, frac) →
  s = match frac with None => ip | Some f => (ip ++ String "."%char f)%string end.
Proof.
  revert ip frac. induction s as [|c s IH]; intros ip frac; cbn [split_at_dot].
  { by intros [= <- <-]. }
  case_decide as Hc; [intros [= <- <-]; by subst c|].
  destruct (split_at_dot s) as [ip' frac'] eqn:Hs. intros [= <- <-].
  rewrite (IH _ _ eq_refl). by destruct frac'.
Qed.

Lemma all_zeros f : all_chars (λ c, bool_decide (c = "0"%char)) f = true → ∃ k, f = zeros k.
Proof.
  induction f as [|c f IH]; cbn [all_chars]; [by exists O|].
  intros [->%bool_decide_eq_true [k ->]%IH]%andb_true_iff. by exists (S k).
Qed.

Lemma digits_not_minus s : all_chars is_digit s = true → starts_with_minus s = false.
Proof.
  destruct s as [|c s]; [done|]. cbn [all_chars starts_with_minus].
  intros [Hc _]%andb_true_iff. apply bool_decide_eq_false. by intros ->.
Qed.

Lemma digits_then_not_minus s t :
  s ≠ "" → all_chars is_digit s = true → starts_with_minus (s ++ t)%string = false.
Proof. destruct s; [done|]. intros _ Hs. by apply digits_not_minus in Hs. Qed.

Lemma decimal_text_iff text z :
  parse_non_negative_decimal_string_to_int64 text = Some z ↔ decimal_text text z.
Proof.
  unfold parse_non_negative_decimal_string_to_int64. split.
  - intros Hp. case_decide; [done|]. destruct (starts_with_minus text); [done|].
    destruct (split_at_dot text) as [ip frac] eqn:Hs. apply split_at_dot_spec in Hs.
    case_decide; [done|]. destruct (all_chars is_digit ip) eqn:Hip; [|done]. cbn [negb] in Hp.
    destruct (all_chars _ (default "" frac)) eqn:Hf; [|done]. cbn [negb] in Hp.
    case_decide; [done|]. case_decide; [done|]. injection Hp as <-.
    exists ip. split_and!; [done..|lia|].
    destruct frac as [f|]; [|by left]. right. apply all_zeros in Hf as [k Hf].
    simpl in Hf. exists k. by rewrite <-Hf.
  - intros (digits & Hne & Hall & <- & Hmax & Htext).
    rewrite decide_False by (destruct Htext as [->|[k ->]]; by destruct digits).
    assert (starts_with_minus text = false) as ->.
    { destruct Htext as [->|[k ->]]; [by apply digits_not_minus|by apply digits_then_not_minus]. }
    assert (∃ frac, split_at_dot text = (digits, frac) ∧
      all_chars (λ c, bool_decide (c = "0"%char)) (default "" frac) = true) as (frac & -> & Hz).
    { destruct Htext as [->|[k ->]].
      - exists None. by rewrite all_digits_split.
      - exists (Some (zeros k)). rewrite all_digits_no_dot by done. split; [done|apply zeros_all]. }
    rewrite decide_False, Hall, Hz by done. cbn [negb]. by rewrite !decide_False by lia.
Qed.

Section readers.
Context `{SimdJson}.

Lemma lot_count_iff msg z : 0 ≤ z → (get_lot_count msg = Some z ↔ lot_count msg z).
Proof.
  intros Hz. unfold get_lot_count. split.
  - destruct (or_else _ _) as [out|] eqn:Hi.
    { case_decide; [|done]. intros [= <-]. by constructor. }
    assert (get_int64 msg "count" = None ∧ get_int64 msg "count_fp" = None) as [Hc Hcf].
    { destruct (get_int64 msg "count"); [done|]. done. }
    destruct (_ ≫= sj_value_double) as [d|] eqn:Hd.
    + destruct (double_negative d) eqn:Hn; [done|]. destruct (double_has_fraction d) eqn:Hf; [done|].
      case_decide as Hm; [done|]. intros [= Hs].
      assert (double_is d (double_integer_part d)) as Hdi by by apply double_is_iff.
      pose proof (double_is_sign _ _ Hdi) as Hg. rewrite Hn in Hg.
      symmetry in Hg. apply bool_decide_eq_false in Hg.
      destruct (decide (double_integer_part d = 9223372036854775808)) as [E|E].
      { rewrite E in Hs. vm_compute in Hs. lia. }
      rewrite s64_small in Hs by (unfold in_s64; lia). subst z.
      eapply lot_count_double; eauto. lia.
    + destruct (get_string msg "count_fp") as [t|] eqn:Ht; [|done].
      intros Hp%decimal_text_iff. by eapply lot_count_text.
  - intros Hc. destruct Hc as [z Hi _|d z Hc Hcf Hd Hdi Hr|t z Hc Hcf Hd Ht Hp].
    + rewrite Hi. by rewrite decide_True.
    + rewrite Hc, Hcf. cbn [or_else]. rewrite Hd, (double_is_sign _ _ Hdi).
      rewrite bool_decide_false by lia. apply double_is_iff in Hdi as [-> ->].
      rewrite decide_False by lia. rewrite s64_small; [done|unfold in_s64; lia].
    + rewrite Hc, Hcf. cbn [or_else]. rewrite Hd, Ht. by apply decimal_text_iff.
Qed.

Lemma decimal_value_nonneg acc s :
  0 ≤ acc → all_chars is_digit s = true → 0 ≤ decimal_value acc s.
Proof.
  revert acc. induction s as [|c s IH]; intros acc Hacc; [done|]. cbn [all_chars decimal_value].
  intros [Hc Hs]%andb_true_iff. apply IH; [|done].
  unfold is_digit, digit_value in *. apply bool_decide_eq_true in Hc. lia.
Qed.

Lemma lot_count_nonneg msg z : lot_count msg z → 0 ≤ z.
Proof.
  destruct 1 as [| |text z ? ? ? ? (digits & _ & Hall & <- & _)]; [done|lia|].
  by apply decimal_value_nonneg.
Qed.

Lemma parse_level_iff v l : parse_level v = Some l ↔ level_reads v l.
Proof.
  unfold parse_level, level_reads. split.
  - destruct (sj_value_array v) as [arr|] eqn:Ha; [|done].
    destruct (sj_array_begin arr) as [i|] eqn:Hi; [|done].
    destruct (sj_deref i ≫= _) as [price|] eqn:Hpr; [|done].
    destruct (sj_next i) as [j|] eqn:Hj; [|done].
    destruct (sj_deref j ≫= _) as [qty|] eqn:Hq; [|done].
    case_decide; [done|]. intros [= <-]. exists arr, i, j. simpl. split_and!; auto; lia.
  - intros (arr & i & j & -> & -> & -> & -> & -> & ? & ?). rewrite decide_False by lia.
    by destruct l.
Qed.

Lemma parse_levels_iff vs ls : parse_levels vs = Some ls ↔ Forall2 level_reads vs ls.
Proof.
  revert ls. induction vs as [|v vs IH]; intros ls; cbn [parse_levels].
  { split; [by intros [= <-]|by intros ->%Forall2_nil_inv_l]. }
  split.
  - destruct (parse_level v) as [l|] eqn:Hl; [|done].
    destruct (parse_levels vs) as [ls'|]; [|done]. intros [= <-].
    constructor; [by apply parse_level_iff|by apply IH].
  - intros (l & ls' & Hl & Hls & ->)%Forall2_cons_inv_l.
    apply parse_level_iff in Hl as ->. by apply IH in Hls as ->.
Qed.

Lemma book_side_iff token side :
  book_side token side ↔ parse_book_side token = side ∧ side ≠ Side_kUnknown.
Proof.
  split; [by destruct 1|]. unfold parse_book_side. intros [<- Hne].
  destruct (String.eqb_spec token "yes") as [E|]; [subst token; constructor|].
  destruct (String.eqb_spec token "bid") as [E|]; [subst token; constructor|].
  destruct (String.eqb_spec token "no") as [E|]; [subst token; constructor|].
  by destruct (String.eqb_spec token "ask") as [E|]; [subst token; constructor|].
Qed.

Lemma trade_side_iff token side :
  trade_side token side ↔ parse_trade_side token = side ∧ side ≠ Side_kUnknown.
Proof.
  split; [by destruct 1|]. unfold parse_trade_side. intros [<- Hne].
  destruct (String.eqb_spec token "yes") as [E|]; [subst token; constructor|].
  destruct (String.eqb_spec token "buy") as [E|]; [subst token; constructor|].
  destruct (String.eqb_spec token "no") as [E|]; [subst token; constructor|].
  by destruct (String.eqb_spec token "sell") as [E|]; [subst token; constructor|].
Qed.
End readers.

(** ** The parser computes the event *)
Section exact.
Context `{SimdJson}.

Lemma root_event root frame :
  set_sequence_from_root root (base_event frame)
  = event_of frame EventType_kUnknown (or_else (field_sequence root) (rf_sequence_id frame))
      EventData_monostate.
Proof.
  unfold set_sequence_from_root, field_sequence. by destruct (or_else _ _).
Qed.

Lemma trade_event msg frame ty seq data :
  set_sequence_from_msg msg (event_of frame ty seq data)
  = event_of frame ty (or_else (field_sequence msg) seq) data.
Proof.
  unfold set_sequence_from_msg, field_sequence. destruct (or_else _ _); [done|].
  by destruct seq.
Qed.

Lemma parse_snapshot_iff frame msg seq e :
  parse_snapshot msg (event_of frame EventType_kUnknown seq EventData_monostate) = ParseSuccess e
  ↔ is_Some seq ∧ ∃ ty data, body_reads msg "orderbook_snapshot" ty data ∧
      e = event_of frame ty seq data.
Proof.
  unfold parse_snapshot. cbn [ne_raw_sequence_id event_of]. split.
  - destruct seq as [s|]; [|done].
    destruct (get_array msg "yes") as [yes|] eqn:Hy; [|done].
    destruct (parse_levels (sj_array_values yes)) as [bids|] eqn:Hb; [|done].
    destruct (get_array msg "no") as [no|] eqn:Hn; [|done].
    destruct (parse_levels (sj_array_values no)) as [asks|] eqn:Ha; [|done].
    intros [= <-]. apply parse_levels_iff in Hb, Ha. split; [done|].
    eexists _, _. split; [constructor; by eexists|done].
  - intros ([s ->] & ty & data & Hb & ->). inversion Hb as [bids asks (yes & -> & Hy) (no & -> & Hn)| |].
    apply parse_levels_iff in Hy as ->, Hn as ->. done.
Qed.

Lemma parse_delta_iff frame msg seq e :
  parse_delta msg (event_of frame EventType_kUnknown seq EventData_monostate) true = ParseSuccess e
  ↔ is_Some seq ∧ ∃ ty data, body_reads msg "orderbook_delta" ty data ∧
      e = event_of frame ty seq data.
Proof.
  unfold parse_delta. cbn [ne_raw_sequence_id event_of]. split.
  - destruct seq as [s|]; [|done].
    destruct (get_int64 msg "price") as [price|] eqn:Hp; [|done].
    destruct (get_int64 msg "delta") as [qty|] eqn:Hq; [|done]. case_decide; [done|].
    destruct (get_string msg "side") as [token|] eqn:Ht; [|done].
    case_decide as Hside; [done|]. intros [= <-]. split; [done|]. eexists _, _. split; [|done].
    econstructor; eauto; [lia|]. apply book_side_iff. tauto.
  - intros ([s ->] & ty & data & Hb & ->). inversion Hb as [|price qty token side Hp Hpos Hq Ht Hs|].
    rewrite Hp, Hq, Ht. rewrite decide_False by lia. apply book_side_iff in Hs as [-> Hne].
    rewrite decide_False by tauto. done.
Qed.

Lemma parse_trade_iff frame msg seq e :
  parse_trade msg (event_of frame EventType_kUnknown seq EventData_monostate) true = ParseSuccess e
  ↔ ∃ ty data, body_reads msg "trade" ty data ∧
      e = event_of frame ty (or_else (field_sequence msg) seq) data.
Proof.
  unfold parse_trade. rewrite trade_event. split.
  - destruct (or_else (get_int64 _ _) _) as [price|] eqn:Hp; [|done].
    destruct (get_lot_count msg) as [qty|] eqn:Hq; [|done]. case_decide; [done|].
    destruct (get_string msg "taker_side") as [token|] eqn:Ht; [|done].
    case_decide as Hside; [done|]. intros [= <-]. eexists _, _. split; [|done].
    econstructor; eauto; [lia|apply lot_count_iff; [lia|done]|]. apply trade_side_iff. tauto.
  - intros (ty & data & Hb & ->). inversion Hb as [| |price qty token side Hp Hpos Hq Ht Hs].
    assert (0 ≤ qty) as Hqpos by by eapply lot_count_nonneg.
    rewrite Hp, Ht. apply lot_count_iff in Hq as ->; [|done]. rewrite decide_False by lia.
    apply trade_side_iff in Hs as [-> Hne]. rewrite decide_False by tauto. done.
Qed.
(** [known_type] and the names of the description. *)
Lemma known_type_iff name :
  known_type name = true ↔ name ∈ ["orderbook_snapshot"; "orderbook_delta"; "trade"].
Proof.
  unfold known_type. rewrite !orb_true_iff, !String.eqb_eq. rewrite !elem_of_cons, elem_of_nil.
  unfold kTypeOrderbookSnapshot, kTypeOrderbookDelta, kTypeTrade. tauto.
Qed.

Lemma body_reads_type msg name ty data :
  body_reads msg name ty data →
  (name = "orderbook_snapshot" ∧ ty = EventType_kSnapshot) ∨
  (name = "orderbook_delta" ∧ ty = EventType_kDelta) ∨ (name = "trade" ∧ ty = EventType_kTrade).
Proof. destruct 1; auto. Qed.

(** The dispatch on a known type, as one statement. *)
Definition parse_body (name : string) (msg : sj_object) (event : NormalizedEvent)
    : ParseResult NormalizedEvent :=
  if String.eqb name kTypeOrderbookSnapshot then parse_snapshot msg event
  else if String.eqb name kTypeOrderbookDelta
  then parse_delta msg event strict_field_validation_
  else parse_trade msg event strict_field_validation_.

Lemma parse_body_iff frame root msg name e :
  known_type name = true →
  parse_body name msg (set_sequence_from_root root (base_event frame)) = ParseSuccess e
  ↔ ∃ ty data, body_reads msg name ty data ∧
      (ty ≠ EventType_kTrade → is_Some (message_sequence ty frame root msg)) ∧
      e = event_of frame ty (message_sequence ty frame root msg) data.
Proof.
  rewrite root_event. unfold parse_body, strict_field_validation_.
  intros [->|[->|[->|[]%elem_of_nil]%elem_of_cons]%elem_of_cons]%known_type_iff%elem_of_cons;
    cbn [String.eqb Ascii.eqb Bool.eqb kTypeOrderbookSnapshot kTypeOrderbookDelta].
  - rewrite parse_snapshot_iff. split.
    + intros (Hs & ty & data & Hb & ->). exists ty, data. split; [done|]. by inversion Hb.
    + intros (ty & data & Hb & Hs & ->). inversion Hb; subst. split; [by apply Hs|].
      by eexists _, _.
  - rewrite parse_delta_iff. split.
    + intros (Hs & ty & data & Hb & ->). exists ty, data. split; [done|]. by inversion Hb.
    + intros (ty & data & Hb & Hs & ->). inversion Hb; subst. split; [by apply Hs|].
      by eexists _, _.
  - rewrite parse_trade_iff. split.
    + intros (ty & data & Hb & ->). exists ty, data. split; [done|]. by inversion Hb.
    + intros (ty & data & Hb & _ & ->). exists ty, data. split; [done|]. by inversion Hb.
Qed.

Lemma kalshi_parse_body frame root name msg :
  sj_parse (rf_raw_payload_view frame) = Some root → get_string root "type" = Some name →
  get_object root "msg" = Some msg → known_type name = true →
  kalshi_parse frame = parse_body name msg (set_sequence_from_root root (base_event frame)).
Proof. unfold kalshi_parse. by intros -> -> -> ->. Qed.

Lemma parse_success_iff frame e : kalshi_parse frame = ParseSuccess e ↔ kalshi_event frame e.
Proof.
  split.
  - intros Hp. assert (∃ root name msg, sj_parse (rf_raw_payload_view frame) = Some root ∧
      get_string root "type" = Some name ∧ get_object root "msg" = Some msg ∧
      known_type name = true) as (root & name & msg & Hr & Hn & Hm & Hk).
    { clear -Hp. unfold kalshi_parse in Hp. repeat case_match; try done; eauto 10. }
    rewrite (kalshi_parse_body _ _ _ _ Hr Hn Hm Hk) in Hp.
    apply parse_body_iff in Hp as (ty & data & Hb & Hs & ->); [|done].
    by econstructor.
  - destruct 1 as [root msg name ty data seq Hr Hn Hm Hb <- Hs].
    assert (known_type name = true) as Hk.
    { by destruct (body_reads_type _ _ _ _ Hb) as [[-> _]|[[-> _]|[-> _]]]. }
    rewrite (kalshi_parse_body _ _ _ _ Hr Hn Hm Hk). apply parse_body_iff; eauto.
Qed.

(** The codes a message parser of a known type can answer. *)
Lemma parse_body_errors name msg event err :
  parse_body name msg event = ParseFailure err →
  err = ParseError_kMissingField ∨ err = ParseError_kInvalidField.
Proof.
  unfold parse_body, parse_snapshot, parse_delta, parse_trade. intros Hp.
  repeat case_match; simplify_eq; auto.
Qed.

Lemma parse_failure_cause frame err :
  kalshi_parse frame = ParseFailure err →
  match err with
  | ParseError_kNone => False
  | ParseError_kInvalidJson => sj_parse (rf_raw_payload_view frame) = None
  | ParseError_kUnsupportedMessageType =>
    ∃ root name, sj_parse (rf_raw_payload_view frame) = Some root ∧
      get_string root "type" = Some name ∧
      name ∉ ["orderbook_snapshot"; "orderbook_delta"; "trade"]
  | ParseError_kMissingField | ParseError_kInvalidField =>
    ∃ root, sj_parse (rf_raw_payload_view frame) = Some root ∧
      ∀ name, get_string root "type" = Some name →
        name ∈ ["orderbook_snapshot"; "orderbook_delta"; "trade"]
  end.
Proof.
  intros Hp. unfold kalshi_parse in Hp.
  destruct (sj_parse _) as [root|] eqn:Hr; [|by injection Hp as <-].
  destruct (get_string root "type") as [name|] eqn:Hn.
  2:{ injection Hp as <-. exists root. split; [done|]. by rewrite Hn. }
  destruct (known_type name) eqn:Hk.
  2:{ injection Hp as <-. exists root, name. split_and!; [done..|].
      rewrite <-known_type_iff. by rewrite Hk. }
  apply known_type_iff in Hk.
  destruct (get_object root "msg") as [msg|].
  - apply (parse_body_errors name) in Hp as [->| ->];
      (exists root; split; [done|]; rewrite Hn; by intros ? [= <-]).
  - injection Hp as <-. exists root. split; [done|]. rewrite Hn. by intros ? [= <-].
Qed.

(** C11: the Kalshi parser accepts exactly the messages that stand for an event, with that
    event as its result: [kalshi_event] gives the fields of each message type without
    the order of the parser's checks, every level with its price and quantity in the
    order of the array, the sequence number with its precedence, the lot count in its
    three notations.  What is not accepted is refused with the code of its cause:
    invalid JSON exactly for a payload that is not an object, an unsupported type
    exactly for a type that is present and none of the three, a missing or invalid field
    otherwise; [kNone] is never a failure. *)
Theorem kalshi_parse_exact frame :
  (∀ e, kalshi_parse frame = ParseSuccess e ↔ kalshi_event frame e) ∧
  (kalshi_parse frame = ParseFailure ParseError_kInvalidJson ↔
     sj_parse (rf_raw_payload_view frame) = None) ∧
  (kalshi_parse frame = ParseFailure ParseError_kUnsupportedMessageType ↔
     ∃ root name, sj_parse (rf_raw_payload_view frame) = Some root ∧
       get_string root "type" = Some name ∧
       name ∉ ["orderbook_snapshot"; "orderbook_delta"; "trade"]) ∧
  kalshi_parse frame ≠ ParseFailure ParseError_kNone.
Proof.
  split_and!.
  - apply parse_success_iff.
  - split; [apply (parse_failure_cause _ ParseError_kInvalidJson)|].
    unfold kalshi_parse. by intros ->.
  - split; [apply (parse_failure_cause _ ParseError_kUnsupportedMessageType)|].
    intros (root & name & Hr & Hn & Hk). unfold kalshi_parse. rewrite Hr, Hn.
    rewrite <-known_type_iff in Hk. by destruct (known_type name).
  - by intros Hp%(parse_failure_cause _ ParseError_kNone).
Qed.
End exact.

(** ** Widths *)
(** The numbers of an event fit the types of normalized_event.hpp. *)
Definition event_typed (e : NormalizedEvent) : Prop :=
  (∀ s, ne_raw_sequence_id e = Some s → in_u64 s) ∧ in_u64 (em_sequence_id (ne_meta e)) ∧
  match ne_data e with
  | EventData_Snapshot d =>
    Forall (λ l, in_s64 (lv_price_ticks l) ∧ in_s64 (lv_qty_lots l)) (sn_bids d ++ sn_asks d)
  | EventData_Delta d => in_s64 (dd_price_ticks d) ∧ in_s64 (dd_delta_qty_lots d)
  | EventData_Trade d => in_s64 (td_price_ticks d) ∧ in_s64 (td_qty_lots d)
  | _ => True
  end.

Section typed.
Context `{SJ : SimdJson} `{!SimdJsonTyped}.

Lemma get_int64_typed obj key z : get_int64 obj key = Some z → in_s64 z.
Proof. unfold get_int64. intros (v & _ & Hv)%bind_Some. by eapply sj_int64_typed. Qed.

Lemma get_uint64_typed obj key z : get_uint64 obj key = Some z → in_u64 z.
Proof.
  unfold get_uint64. destruct (_ ≫= sj_value_uint64) as [u|] eqn:Hu.
  - intros [= <-]. apply bind_Some in Hu as (v & _ & Hv). by eapply sj_uint64_typed.
  - destruct (get_int64 obj key) as [i|] eqn:Hi; [|done]. case_decide; [done|].
    intros [= <-]. apply get_int64_typed in Hi. unfold in_u64, in_s64 in *. lia.
Qed.

Lemma or_else_typed (P : Z → Prop) a b z :
  (∀ x, a = Some x → P x) → (∀ x, b = Some x → P x) → or_else a b = Some z → P z.
Proof. destruct a; simpl; auto. Qed.

Lemma field_sequence_typed obj z : field_sequence obj = Some z → in_u64 z.
Proof. apply or_else_typed; eauto using get_uint64_typed. Qed.

Lemma side_reads_typed msg key l :
  side_reads msg key l → Forall (λ l, in_s64 (lv_price_ticks l) ∧ in_s64 (lv_qty_lots l)) l.
Proof.
  intros (arr & _ & Hl). induction Hl as [|v l vs ls (? & i & j & _ & _ & _ & Hp & Hq & _)];
    constructor; [|done].
  apply bind_Some in Hp as (? & _ & Hp), Hq as (? & _ & Hq). eauto using sj_int64_typed.
Qed.

Lemma lot_count_typed msg z : lot_count msg z → in_s64 z.
Proof.
  destruct 1 as [z Hz _|d z _ _ _ _ Hz|text z ? ? ? ? (digits & _ & Hall & <- & Hmax & _)].
  - revert Hz. apply or_else_typed; eauto using get_int64_typed.
  - unfold in_s64. lia.
  - pose proof (decimal_value_nonneg 0 digits ltac:(done) Hall). unfold in_s64. lia.
Qed.

(** Whatever a message says, the numbers of its event fit their types: no lot count,
    price or sequence number is truncated on the way from the text. *)
Theorem parsed_event_typed frame e :
  (∀ s, rf_sequence_id frame = Some s → in_u64 s) →
  kalshi_parse frame = ParseSuccess e → event_typed e.
Proof.
  intros Hframe He%parse_success_iff. destruct He as [root msg name ty data seq _ _ _ Hb Hseq _].
  assert (∀ s, seq = Some s → in_u64 s) as Hs.
  { subst seq. intros s. unfold message_sequence.
    assert (∀ s, or_else (field_sequence root) (rf_sequence_id frame) = Some s → in_u64 s).
    { intros s'. apply or_else_typed; eauto using field_sequence_typed. }
    destruct ty; simpl; eauto. apply or_else_typed; eauto using field_sequence_typed. }
  split_and!; [done| |].
  - destruct seq as [s|]; [by apply Hs|]. simpl. unfold in_u64. lia.
  - destruct Hb as [bids asks Hy Hn|price qty token side Hp _ Hq _ _|price qty token side Hp _ Hq _ _];
      simpl.
    + apply Forall_app. eauto using side_reads_typed.
    + eauto using get_int64_typed.
    + split; [|by eapply lot_count_typed].
      revert Hp. apply or_else_typed; eauto using get_int64_typed.
Qed.
End typed.

(** ** A concrete message *)
Lemma kalshi_parse_exact_witness : @kalshi_event demo_reader demo_frame demo_parsed.
Proof.
  apply (@kalshi_parse_exact demo_reader demo_frame). vm_compute. reflexivity.
Defined.
