(* ===== verification/Router.v ===== *)
(** * Routing frames to shards

    Model of src/cpp/src/router: [Router::route] decodes a frame, picks the shard by a
    hash of the market ticker and hands the frame to the dispatch;
    [ShardedEventDispatch] keeps one ring per shard.  [std::hash] is a parameter: any
    function of the ticker. *)
From S2P Require Import Prelude.
From S2P Require Import Types.
From S2P Require Import Simdjson.
From S2P Require Import FramePool.
From S2P Require Import SpscQueue.
From S2P Require Import Decode.

(** ** Data *)
Record RouteKey := mkRouteKey { rk_market_ticker : string; rk_shard_id : Z }.

Record RoutedFrame := mkRoutedFrame {
  rd_exchange : ExchangeId;
  rd_market_ticker : string;
  rd_sequence_id : option SequenceId;
  rd_recv_ns : TimestampNs;
  rd_raw_payload : string;
}.

Record RoutedEvent := mkRoutedEvent { rt_route_key : RouteKey; rt_frame : RoutedFrame }.

Definition routed_event_default : RoutedEvent :=
  mkRoutedEvent (mkRouteKey "" 0) (mkRoutedFrame ExchangeId_kUnknown "" None 0 "").

Record ShardedEventDispatch := mkShardedEventDispatch {
  sh_queues : list (SpscQueue RoutedEvent);
  sh_dropped_count : Z;
}.
#[export] Instance ShardedEventDispatch_settable : Settable ShardedEventDispatch := λ x,
  mkShardedEventDispatch (sh_queues x) (sh_dropped_count x).

(** ** Dispatch *)
Definition kMinShardCount : Z := 1.

Definition sharded_dispatch_init (shard_count per_shard_queue_capacity : Z)
    : ShardedEventDispatch :=
  let resolved_shards := if decide (shard_count = 0) then kMinShardCount else shard_count in
  mkShardedEventDispatch
    (replicate (Z.to_nat resolved_shards)
       (queue_init routed_event_default per_shard_queue_capacity)) 0.

Definition shard_count (d : ShardedEventDispatch) : Z := Z.of_nat (length (sh_queues d)).

Definition sharded_dispatch (d : ShardedEventDispatch) (route_key : RouteKey)
    (frame : RoutedFrame) : ShardedEventDispatch * bool :=
  if decide (shard_count d ≤ rk_shard_id route_key)
  then (d <| sh_dropped_count ::= u64_inc |>, false)
  else
    match sh_queues d !! Z.to_nat (rk_shard_id route_key) with
    | None => (d <| sh_dropped_count ::= u64_inc |>, false)
    | Some queue =>
      let '(queue, pushed) := try_push queue (mkRoutedEvent route_key frame) in
      if pushed
      then (d <| sh_queues ::= <[Z.to_nat (rk_shard_id route_key) := queue]> |>, true)
      else (d <| sh_queues ::= <[Z.to_nat (rk_shard_id route_key) := queue]> |>
              <| sh_dropped_count ::= u64_inc |>, false)
    end.

(** [moved_from] is what moving an event out of its slot leaves there; the language does
    not say. *)
Definition sharded_try_pop (moved_from : RoutedEvent → RoutedEvent) (d : ShardedEventDispatch)
    (shard_id : Z) : ShardedEventDispatch * option RoutedEvent :=
  if decide (shard_count d ≤ shard_id) then (d, None)
  else
    match sh_queues d !! Z.to_nat shard_id with
    | None => (d, None)
    | Some queue =>
      let '(queue, event) := try_pop moved_from queue in
      (d <| sh_queues ::= <[Z.to_nat shard_id := queue]> |>, event)
    end.

(** [NoopShardDispatch]: counts and succeeds. *)
Definition noop_dispatch (dispatched_count : Z) (route_key : RouteKey) (frame : RoutedFrame)
    : Z * bool := (u64_inc dispatched_count, true).

(** ** What a dispatch promises to the router *)
Class ShardDispatch (D : Type) := {
  dispatch : D → RouteKey → RoutedFrame → D * bool;
}.
#[export] Instance sharded_event_dispatch : ShardDispatch ShardedEventDispatch := {|
  dispatch := sharded_dispatch;
|}.
#[export] Instance noop_shard_dispatch : ShardDispatch Z := {| dispatch := noop_dispatch |}.

(** ** Router *)
Section router.
Context (hash : string → Z).

Definition compute_shard_id (market_ticker : string) (shard_count : Z) : Z :=
  if decide (market_ticker = "") then 0 else u64 (hash market_ticker) `mod` shard_count.

(** The constructor's [shard_count_]. *)
Definition router_shard_count (shard_count : Z) : Z :=
  if decide (shard_count = 0) then kMinShardCount else shard_count.

(** What [route] dispatches for a decoded frame. *)
Definition routed_frame (exchange_id : ExchangeId) (fields : ExtractedFields) (frame : RawFrame)
    : RoutedFrame :=
  mkRoutedFrame exchange_id (ef_market_ticker fields) (ef_seq_id fields)
    (if decide (ef_recv_timestamp fields > 0) then ef_recv_timestamp fields else 0)
    (fr_payload frame).

Definition route `{ShardDispatch D} (decode_fn : RawFrame → ExtractedFields)
    (shard_count : Z) (exchange_id : ExchangeId) (d : D) (frame : RawFrame) : D * bool :=
  let fields := decode_fn frame in
  if negb (extracted_ok fields) then (d, false)
  else
    let route_key :=
      mkRouteKey (ef_market_ticker fields)
        (compute_shard_id (ef_market_ticker fields) shard_count) in
    dispatch d route_key (routed_frame exchange_id fields frame).
End router.

(** ** The dispatch as one FIFO per shard *)
Definition dispatch_wf (n bound : Z) (d : ShardedEventDispatch) : Prop :=
  shard_count d = n ∧
  Forall (λ q, queue_wf q ∧ q_capacity q = bound + 1) (sh_queues d).

Definition shard_contents (d : ShardedEventDispatch) (shard_id : Z) : list RoutedEvent :=
  default [] (contents <$> sh_queues d !! Z.to_nat shard_id).

Lemma sharded_dispatch_init_wf shards per_shard :
  0 ≤ shards → per_shard < 18446744073709551616 →
  dispatch_wf (router_shard_count shards) (Z.max 2 per_shard - 1)
    (sharded_dispatch_init shards per_shard) ∧
  ∀ k, shard_contents (sharded_dispatch_init shards per_shard) k = [].
Proof.
  intros Hs Hc. destruct (queue_init_wf routed_event_default per_shard Hc) as (Hwf & Hnil & Hcap).
  unfold dispatch_wf, shard_count, sharded_dispatch_init, router_shard_count, shard_contents. simpl.
  split; [split|].
  - rewrite length_replicate. unfold kMinShardCount. case_decide; lia.
  - apply Forall_replicate. split; [done|lia].
  - intros k. destruct (replicate _ _ !! _) as [q|] eqn:Hq; simpl; [|done].
    apply lookup_replicate in Hq as [-> _]. done.
Qed.

Lemma shard_queue n bound d k :
  dispatch_wf n bound d → 0 ≤ k < n →
  ∃ q, sh_queues d !! Z.to_nat k = Some q ∧ queue_wf q ∧ q_capacity q = bound + 1.
Proof.
  intros [Hn Hall] Hk. unfold shard_count in Hn.
  destruct (lookup_lt_is_Some_2 (sh_queues d) (Z.to_nat k)) as [q Hq]; [lia|].
  exists q. split; [done|]. by apply (Forall_lookup_1 _ _ _ _ Hall Hq).
Qed.

Lemma update_shard_wf n bound d k q :
  dispatch_wf n bound d → queue_wf q → q_capacity q = bound + 1 →
  dispatch_wf n bound (d <| sh_queues ::= <[Z.to_nat k := q]> |>).
Proof.
  intros [Hn Hall] Hq Hc. split; [unfold shard_count in *; simpl; by rewrite length_insert|].
  simpl. by apply Forall_insert.
Qed.

Lemma update_shard_contents n bound d k q j :
  dispatch_wf n bound d → 0 ≤ k < n → 0 ≤ j →
  shard_contents (d <| sh_queues ::= <[Z.to_nat k := q]> |>) j =
    if decide (j = k) then contents q else shard_contents d j.
Proof.
  intros [Hn _] Hk Hj. unfold shard_contents, shard_count in *. simpl. case_decide as E.
  - subst j. by rewrite list_lookup_insert_eq by lia.
  - by rewrite list_lookup_insert_ne by lia.
Qed.

(** Dispatching appends to one shard's queue or, when that is full, changes none. *)
Lemma dispatch_spec n bound d key frame :
  dispatch_wf n bound d → 0 ≤ rk_shard_id key < n →
  let '(d', ok) := sharded_dispatch d key frame in
  dispatch_wf n bound d' ∧
  (ok = true ↔ Z.of_nat (length (shard_contents d (rk_shard_id key))) < bound) ∧
  sh_dropped_count d' = (if ok then sh_dropped_count d else u64_inc (sh_dropped_count d)) ∧
  ∀ j, 0 ≤ j → shard_contents d' j =
    if decide (ok = true ∧ j = rk_shard_id key)
    then shard_contents d j ++ [mkRoutedEvent key frame] else shard_contents d j.
Proof.
  intros Hwf Hk. destruct (shard_queue _ _ _ _ Hwf Hk) as (q & Hq & Hqwf & Hcap).
  pose proof (proj1 Hwf) as Hn. unfold sharded_dispatch. rewrite decide_False by lia. rewrite Hq.
  destruct (push_refines q (mkRoutedEvent key frame) Hqwf) as (Hqwf' & Hcap' & Href).
  destruct (try_push q _) as [q' ok]. cbn [fst snd] in *.
  unfold fifo_push in Href.
  assert (shard_contents d (rk_shard_id key) = contents q) as Hc
    by (unfold shard_contents; by rewrite Hq).
  pose proof (update_shard_wf n bound d (rk_shard_id key) q' Hwf Hqwf' ltac:(congruence)) as Hwf'.
  pose proof (update_shard_contents n bound d (rk_shard_id key) q') as Hupd.
  rewrite Hc. case_decide as Hroom; injection Href as Hct ->.
  - split; [done|]. split; [split; [lia|done]|]. split; [done|]. intros j Hj.
    rewrite Hupd by done. case_decide as E.
    + subst j. rewrite decide_True by done. congruence.
    + rewrite decide_False; [done|]. tauto.
  - split; [done|]. split; [split; [done|lia]|]. split; [done|]. intros j Hj.
    change (shard_contents _ j) with
      (shard_contents (d <| sh_queues ::= <[Z.to_nat (rk_shard_id key) := q']> |>) j) at 1.
    rewrite Hupd by done. rewrite (decide_False (P := false = true ∧ _)) by (intros []; done).
    case_decide as E; [|done]. subst j. congruence.
Qed.

Lemma sharded_pop_spec moved_from n bound d k :
  dispatch_wf n bound d → 0 ≤ k < n →
  let '(d', r) := sharded_try_pop moved_from d k in
  dispatch_wf n bound d' ∧ sh_dropped_count d' = sh_dropped_count d ∧
  (∀ j, 0 ≤ j → j ≠ k → shard_contents d' j = shard_contents d j) ∧
  shard_contents d k = option_list r ++ shard_contents d' k ∧
  (r = None → shard_contents d k = []).
Proof.
  intros Hwf Hk. destruct (shard_queue _ _ _ _ Hwf Hk) as (q & Hq & Hqwf & Hcap).
  pose proof (proj1 Hwf) as Hn. unfold sharded_try_pop. rewrite decide_False by lia. rewrite Hq.
  destruct (pop_refines moved_from q Hqwf) as (Hqwf' & Hcap' & Href).
  destruct (try_pop moved_from q) as [q' r]. cbn [fst snd] in *.
  pose proof (update_shard_wf n bound d k q' Hwf Hqwf' ltac:(congruence)) as Hwf'.
  pose proof (update_shard_contents n bound d k q') as Hupd.
  assert (shard_contents d k = contents q) as Hc by (unfold shard_contents; by rewrite Hq).
  split; [done|]. split; [done|]. split.
  { intros j Hj Hne. rewrite Hupd by done. by rewrite decide_False. }
  rewrite Hupd, decide_True, Hc by (done || lia).
  unfold fifo_pop in Href. destruct (contents q) as [|x l]; injection Href as -> ->; done.
Qed.

(** ** The router *)
Section router_properties.
Context (hash : string → Z).

Lemma compute_shard_id_range ticker n :
  0 < n → 0 ≤ compute_shard_id hash ticker n < n.
Proof. intros Hn. unfold compute_shard_id. case_decide; [lia|]. by apply Z.mod_pos_bound. Qed.

(** What one call of [route] on the sharded dispatch does. *)
Lemma route_spec decode_fn n bound ex d frame :
  0 < n → dispatch_wf n bound d →
  let '(d', ok) := route hash decode_fn n ex d frame in
  let fields := decode_fn frame in
  let key := mkRouteKey (ef_market_ticker fields) (compute_shard_id hash (ef_market_ticker fields) n) in
  let event := mkRoutedEvent key (routed_frame ex fields frame) in
  dispatch_wf n bound d' ∧
  (ok = true ↔ extracted_ok fields = true ∧
     Z.of_nat (length (shard_contents d (rk_shard_id key))) < bound) ∧
  ∀ j, 0 ≤ j → shard_contents d' j =
    if decide (ok = true ∧ j = rk_shard_id key)
    then shard_contents d j ++ [event] else shard_contents d j.
Proof.
  intros Hn Hwf. unfold route. cbv zeta.
  destruct (extracted_ok (decode_fn frame)) eqn:Hok; cbn [negb].
  - set (key := mkRouteKey _ _).
    pose proof (dispatch_spec n bound d key (routed_frame ex (decode_fn frame) frame) Hwf) as Hd.
    simpl dispatch. destruct (sharded_dispatch d key _) as [d' ok].
    destruct Hd as (Hwf' & Hiff & _ & Hc); [by apply compute_shard_id_range|].
    split; [done|]. split; [|done]. tauto.
  - split; [done|]. split; [split; [done|by intros []]|].
    intros j Hj. rewrite decide_False; [done|by intros []].
Qed.
End router_properties.

(** ** Runs of the router and the shards

    The log keeps the events the dispatch accepted, in order, and the events the shards
    popped, with the shard. *)
Inductive dispatch_op :=
  | RouteFrame (frame : RawFrame)
  | PopShard (shard_id : Z).

Record dispatch_log := mkDispatchLog {
  dl_dispatch : ShardedEventDispatch;
  dl_accepted : list RoutedEvent;
  dl_popped : list (Z * RoutedEvent);
}.

Definition of_shard (k : Z) (e : RoutedEvent) : Prop := rk_shard_id (rt_route_key e) = k.
Definition of_ticker (t : string) (e : RoutedEvent) : Prop := rk_market_ticker (rt_route_key e) = t.
#[export] Instance of_shard_dec k e : Decision (of_shard k e).
Proof. unfold of_shard. apply _. Defined.
#[export] Instance of_ticker_dec t e : Decision (of_ticker t e).
Proof. unfold of_ticker. apply _. Defined.

(** The events popped from one shard. *)
Definition popped_from (k : Z) (popped : list (Z * RoutedEvent)) : list RoutedEvent :=
  snd <$> filter (λ p, p.1 = k) popped.

Section runs.
Context (hash : string → Z) (moved_from : RoutedEvent → RoutedEvent).
Context (decode_fn : RawFrame → ExtractedFields) (ex : ExchangeId).

Definition routed_event (n : Z) (frame : RawFrame) : RoutedEvent :=
  let fields := decode_fn frame in
  mkRoutedEvent
    (mkRouteKey (ef_market_ticker fields) (compute_shard_id hash (ef_market_ticker fields) n))
    (routed_frame ex fields frame).

Definition dispatch_step (n : Z) (s : dispatch_log) (op : dispatch_op) : dispatch_log :=
  match op with
  | RouteFrame frame =>
    let '(d, ok) := route hash decode_fn n ex (dl_dispatch s) frame in
    mkDispatchLog d
      (if ok then dl_accepted s ++ [routed_event n frame] else dl_accepted s) (dl_popped s)
  | PopShard k =>
    let '(d, r) := sharded_try_pop moved_from (dl_dispatch s) k in
    mkDispatchLog d (dl_accepted s) (dl_popped s ++ ((k,.) <$> option_list r))
  end.

Definition dispatch_run (n : Z) (s : dispatch_log) (ops : list dispatch_op) : dispatch_log :=
  foldl (dispatch_step n) s ops.

(** An event as [route] makes it. *)
Definition event_ok (n : Z) (e : RoutedEvent) : Prop :=
  rk_shard_id (rt_route_key e) = compute_shard_id hash (rk_market_ticker (rt_route_key e)) n ∧
  rd_market_ticker (rt_frame e) = rk_market_ticker (rt_route_key e).

Record log_inv (n bound : Z) (s : dispatch_log) : Prop := {
  li_wf : dispatch_wf n bound (dl_dispatch s);
  li_key : Forall (event_ok n) (dl_accepted s);
  li_fifo k : 0 ≤ k < n →
    filter (of_shard k) (dl_accepted s) =
      popped_from k (dl_popped s) ++ shard_contents (dl_dispatch s) k;
  li_popped : Forall (λ p, 0 ≤ p.1 < n) (dl_popped s);
}.

Definition op_in_range (n : Z) (op : dispatch_op) : Prop :=
  match op with RouteFrame _ => True | PopShard k => 0 ≤ k < n end.

Lemma popped_from_app k l r :
  popped_from k (l ++ r) = popped_from k l ++ popped_from k r.
Proof. unfold popped_from. by rewrite filter_app, fmap_app. Qed.

Lemma popped_from_one k j r :
  popped_from k ((j,.) <$> option_list r) = if decide (j = k) then option_list r else [].
Proof.
  unfold popped_from. destruct r as [e|]; simpl.
  - rewrite filter_cons, filter_nil. simpl. by case_decide.
  - by case_decide.
Qed.

Lemma dispatch_step_inv n bound s op :
  0 < n → op_in_range n op → log_inv n bound s → log_inv n bound (dispatch_step n s op).
Proof.
  intros Hn Hop [Hwf Hkey Hfifo Hpop]. destruct op as [frame|k]; simpl.
  - pose proof (route_spec hash decode_fn n bound ex (dl_dispatch s) frame Hn Hwf) as Hr.
    destruct (route hash decode_fn n ex (dl_dispatch s) frame) as [d' ok].
    destruct Hr as (Hwf' & _ & Hc). fold (routed_event n frame) in Hc.
    pose proof (compute_shard_id_range hash (ef_market_ticker (decode_fn frame)) n Hn) as Hr.
    destruct ok; split; simpl; try done.
    + by apply Forall_app_2; [|constructor].
    + intros k Hk. rewrite Hc by lia. simpl. rewrite filter_app, filter_cons, filter_nil, Hfifo by done.
      destruct (decide (of_shard k (routed_event n frame))) as [E|E]; unfold of_shard in E; simpl in E.
      * rewrite decide_True by done. by rewrite app_assoc.
      * rewrite decide_False by naive_solver. by rewrite app_nil_r.
    + intros k Hk. rewrite Hc, decide_False by (lia || by intros []). by apply Hfifo.
  - pose proof (sharded_pop_spec moved_from n bound (dl_dispatch s) k Hwf Hop) as Hr.
    destruct (sharded_try_pop moved_from (dl_dispatch s) k) as [d' r].
    destruct Hr as (Hwf' & _ & Hother & Hsame & _).
    split; simpl; try done.
    + intros j Hj. rewrite popped_from_app, popped_from_one, Hfifo by done.
      case_decide as E.
      * subst j. by rewrite Hsame, app_assoc.
      * by rewrite app_nil_r, Hother by (lia || congruence).
    + apply Forall_app_2; [done|]. destruct r; simpl; [by apply Forall_singleton|by apply Forall_nil].
Qed.

Lemma dispatch_run_inv n bound s ops :
  0 < n → Forall (op_in_range n) ops → log_inv n bound s → log_inv n bound (dispatch_run n s ops).
Proof.
  intros Hn Hops. revert s. induction Hops as [|op ops Hop _ IH]; intros s Hs; [done|].
  by apply IH, dispatch_step_inv.
Qed.

Lemma filter_ticker_shard n t (l : list RoutedEvent) :
  Forall (event_ok n) l →
  filter (of_ticker t) (filter (of_shard (compute_shard_id hash t n)) l) = filter (of_ticker t) l.
Proof.
  induction 1 as [|e l [He _] _ IH]; [done|]. rewrite filter_cons. unfold of_shard at 1.
  case_decide as E; rewrite !filter_cons.
  - by rewrite IH.
  - rewrite IH. rewrite decide_False; [done|]. unfold of_ticker. intros <-. congruence.
Qed.

Lemma popped_elsewhere n bound s t j :
  log_inv n bound s → j ≠ compute_shard_id hash t n →
  filter (of_ticker t) (popped_from j (dl_popped s)) = [].
Proof.
  intros [_ Hkey Hfifo Hpop] Hj. apply elem_of_nil_inv. intros e [Ht He]%list_elem_of_filter.
  assert (0 ≤ j < n) as Hr.
  { unfold popped_from in He. apply list_elem_of_fmap in He as (p & -> & Hp).
    apply list_elem_of_filter in Hp as [<- Hp]. rewrite Forall_forall in Hpop. by apply Hpop. }
  assert (e ∈ filter (of_shard j) (dl_accepted s)) as Hacc
    by (rewrite Hfifo by done; apply elem_of_app; auto).
  apply list_elem_of_filter in Hacc as [Hs Hacc].
  rewrite Forall_forall in Hkey. destruct (Hkey e Hacc) as [Hshard _]. unfold of_shard, of_ticker in *. congruence.
Qed.

Lemma popped_ok n bound s k :
  log_inv n bound s → 0 ≤ k < n → Forall (event_ok n) (popped_from k (dl_popped s)).
Proof.
  intros [_ Hkey Hfifo _] Hk. specialize (Hfifo k Hk).
  assert (Forall (event_ok n) (filter (of_shard k) (dl_accepted s))) as Hall.
  { rewrite Forall_forall in Hkey |- *. intros e [_ He]%list_elem_of_filter. auto. }
  rewrite Hfifo in Hall. by apply Forall_app in Hall as [? _].
Qed.

Lemma dispatch_run_init_inv shards per_shard ops :
  0 ≤ shards → per_shard < 18446744073709551616 →
  Forall (op_in_range (router_shard_count shards)) ops →
  0 < router_shard_count shards ∧
  log_inv (router_shard_count shards) (Z.max 2 per_shard - 1)
    (dispatch_run (router_shard_count shards)
       (mkDispatchLog (sharded_dispatch_init shards per_shard) [] []) ops).
Proof.
  intros Hs Hp Hops.
  assert (0 < router_shard_count shards) as Hn
    by (unfold router_shard_count, kMinShardCount; case_decide; lia).
  destruct (sharded_dispatch_init_wf shards per_shard Hs Hp) as [Hwf Hnil].
  split; [done|]. apply dispatch_run_inv; [done..|]. split; simpl; done.
Qed.

Lemma market_feed n bound s t :
  0 < n → log_inv n bound s →
  filter (of_ticker t) (dl_accepted s) =
    filter (of_ticker t) (popped_from (compute_shard_id hash t n) (dl_popped s)) ++
    filter (of_ticker t) (shard_contents (dl_dispatch s) (compute_shard_id hash t n)).
Proof.
  intros Hn Hinv. pose proof (compute_shard_id_range hash t n Hn) as Hk.
  rewrite <-filter_app, <-(li_fifo _ _ _ Hinv) by done.
  symmetry. apply filter_ticker_shard, (li_key _ _ _ Hinv).
Qed.

(** A market has one shard and keeps its order.  Through any interleaving of routed
    frames and pops, for every ticker: its shard is in range; the accepted events of the
    ticker are exactly those popped from that shard so far followed by those still
    queued there, in the order of routing; no other shard ever sees one. *)
Theorem market_order_preserved shards per_shard ops t :
  0 ≤ shards → per_shard < 18446744073709551616 →
  let n := router_shard_count shards in
  Forall (op_in_range n) ops →
  let s := dispatch_run n (mkDispatchLog (sharded_dispatch_init shards per_shard) [] []) ops in
  let k := compute_shard_id hash t n in
  0 ≤ k < n ∧
  filter (of_ticker t) (dl_accepted s) =
    filter (of_ticker t) (popped_from k (dl_popped s)) ++
    filter (of_ticker t) (shard_contents (dl_dispatch s) k) ∧
  ∀ j, j ≠ k → filter (of_ticker t) (popped_from j (dl_popped s)) = [].
Proof.
  intros Hs Hp n Hops s k.
  destruct (dispatch_run_init_inv shards per_shard ops Hs Hp Hops) as [Hn Hinv].
  split; [by apply compute_shard_id_range|]. split; [by eapply market_feed|].
  intros j Hj. by eapply popped_elsewhere.
Qed.
End runs.

(** ** Concrete runs *)
Definition demo_hash (t : string) : Z := Z.of_nat (String.length t).

Definition demo_raw (ticker payload : string) : RawFrame := mkRawFrame 9 "kalshi" payload ticker (Some 3).

Lemma market_order_preserved_witness :
  let ops := [RouteFrame (demo_raw "AB" "1"); RouteFrame (demo_raw "ABC" "2"); PopShard 0;
              RouteFrame (demo_raw "AB" "3")] in
  let s := dispatch_run demo_hash (λ _, routed_event_default) (@kalshi_extract demo_reader)
             ExchangeId_kKalshi 2 (mkDispatchLog (sharded_dispatch_init 2 4) [] []) ops in
  (rd_raw_payload ∘ rt_frame <$> filter (λ e, rk_market_ticker (rt_route_key e) = "AB") (dl_accepted s))
    = ["1"; "3"] ∧ 0 ≤ compute_shard_id demo_hash "AB" 2 < 2.
Proof.
  intros ops s.
  destruct (market_order_preserved demo_hash (λ _, routed_event_default) (@kalshi_extract demo_reader)
    ExchangeId_kKalshi 2 4 ops "AB") as (Hk & _ & _).
  - lia.
  - lia.
  - repeat constructor; vm_compute; done.
  - split; [vm_compute; reflexivity|exact Hk].
Defined.
