(* ===== verification/Shard.v ===== *)
(** * Shards: parse, apply, hand on

    Model of src/cpp/src/shards/shard.cpp, message_parser.cpp and event_handler.hpp.  A
    shard's worker repeats one iteration: pop an event of its queue, parse it, apply it
    to its books and pass an applied event to the optional handler. *)
From S2P Require Import Prelude.
From S2P Require Import Types.
From S2P Require Import Simdjson.
From S2P Require Import FramePool.
From S2P Require Import SpscQueue.
From S2P Require Import Decode.
From S2P Require Import BookStore.
From S2P Require Import KalshiParser.
From S2P Require Import Router.

(** ** Interfaces *)
Class ShardEventHandler (H : Type) := {
  on_event : H → NormalizedEvent → H * bool;
}.

(** ** The routed-event parser *)
Definition router_frame_of (routed_event : RoutedEvent) : RouterFrame :=
  let frame := rt_frame routed_event in
  mkRouterFrame (rd_exchange frame) (rd_market_ticker frame) (rd_sequence_id frame)
    (rd_recv_ns frame) (rd_raw_payload frame).

Definition routed_event_parse `{SimdJson} (routed_event : RoutedEvent)
    : ParseResult NormalizedEvent :=
  let frame := router_frame_of routed_event in
  match rd_exchange (rt_frame routed_event) with
  | ExchangeId_kKalshi => kalshi_parse frame
  | ExchangeId_kPolymarket => polymarket_parse frame
  | ExchangeId_kUnknown => ParseFailure ParseError_kUnsupportedMessageType
  end.

(** ** The shard *)
Record ShardStats := mkShardStats {
  st_consumed : Z;
  st_parsed : Z;
  st_parse_errors : Z;
  st_applied : Z;
  st_handler_invoked : Z;
  st_handler_errors : Z;
}.
#[export] Instance ShardStats_settable : Settable ShardStats := λ x,
  mkShardStats (st_consumed x) (st_parsed x) (st_parse_errors x) (st_applied x)
    (st_handler_invoked x) (st_handler_errors x).

(** [sd_worker] says whether the worker thread is joinable. *)
Record Shard (H : Type) := mkShard {
  sd_shard_id : Z;
  sd_books : gmap string BookState;
  sd_event_handler : option H;
  sd_worker : bool;
  sd_running : bool;
  sd_stats : ShardStats;
}.
Arguments mkShard {H} _ _ _ _ _ _.
Arguments sd_shard_id {H} _.
Arguments sd_books {H} _.
Arguments sd_event_handler {H} _.
Arguments sd_worker {H} _.
Arguments sd_running {H} _.
Arguments sd_stats {H} _.
#[export] Instance Shard_settable H : Settable (Shard H) := λ x,
  mkShard (sd_shard_id x) (sd_books x) (sd_event_handler x) (sd_worker x) (sd_running x) (sd_stats x).

Definition shard_init {H} (shard_id : Z) (event_handler : option H) : Shard H :=
  mkShard shard_id ∅ event_handler false false (mkShardStats 0 0 0 0 0 0).

Definition shard_start {H} (s : Shard H) : Shard H * bool :=
  if sd_worker s then (s, false)
  else
    (s <| sd_stats := mkShardStats 0 0 0 0 0 0 |> <| sd_running := true |> <| sd_worker := true |>,
     true).

(** [stop] joins the worker: after it no iteration of this worker runs. *)
Definition shard_stop {H} (s : Shard H) : Shard H :=
  s <| sd_worker := false |> <| sd_running := false |>.

Section iteration.
Context `{SJ : SimdJson} {H : Type} `{HE : ShardEventHandler H}.

(** The handler call for an applied event. *)
Definition shard_handle (s : Shard H) (event : NormalizedEvent) : Shard H :=
  match sd_event_handler s with
  | None => s
  | Some handler =>
    let s := s <| sd_stats ::= λ st, st <| st_handler_invoked ::= u64_inc |> |> in
    let '(handler, ok) := on_event handler event in
    let s := s <| sd_event_handler := Some handler |> in
    if ok then s else s <| sd_stats ::= λ st, st <| st_handler_errors ::= u64_inc |> |>
  end.

(** The body of the loop of [run] after a successful pop. *)
Definition shard_process (s : Shard H) (routed : RoutedEvent) : Shard H :=
  let s := s <| sd_stats ::= λ st, st <| st_consumed ::= u64_inc |> |> in
  match routed_event_parse routed with
  | ParseFailure _ => s <| sd_stats ::= λ st, st <| st_parse_errors ::= u64_inc |> |>
  | ParseSuccess event =>
    let s := s <| sd_stats ::= λ st, st <| st_parsed ::= u64_inc |> |> in
    let '(books, applied) := store_apply (sd_books s) event in
    let s := s <| sd_books := books |> in
    if applied
    then shard_handle (s <| sd_stats ::= λ st, st <| st_applied ::= u64_inc |> |>) event
    else s <| sd_stats ::= λ st, st <| st_parse_errors ::= u64_inc |> |>
  end.

(** One iteration: pop, then process; an empty queue only sleeps. *)
Definition shard_iteration (moved_from : RoutedEvent → RoutedEvent) (s : Shard H)
    (d : ShardedEventDispatch) : Shard H * ShardedEventDispatch :=
  match sharded_try_pop moved_from d (sd_shard_id s) with
  | (d, None) => (s, d)
  | (d, Some routed) => (shard_process s routed, d)
  end.

Definition shard_run (s : Shard H) (events : list RoutedEvent) : Shard H :=
  foldl shard_process s events.

(** ** What a shard makes of its events *)
Definition parsed_event (routed : RoutedEvent) : option NormalizedEvent :=
  match routed_event_parse routed with ParseSuccess e => Some e | ParseFailure _ => None end.

(** The events a run over the books accepts, in order. *)
Fixpoint applied_events (books : gmap string BookState) (events : list NormalizedEvent)
    : list NormalizedEvent :=
  match events with
  | [] => []
  | e :: events =>
    let '(books, ok) := store_apply books e in
    if ok then e :: applied_events books events else applied_events books events
  end.

Definition handler_run (handler : H) (events : list NormalizedEvent) : H :=
  foldl (λ h e, (on_event h e).1) handler events.

Lemma shard_handle_spec (s : Shard H) e :
  let s' := shard_handle s e in
  sd_books s' = sd_books s ∧ sd_shard_id s' = sd_shard_id s ∧
  sd_event_handler s' = (λ h, (on_event h e).1) <$> sd_event_handler s ∧
  st_consumed (sd_stats s') = st_consumed (sd_stats s) ∧
  st_parsed (sd_stats s') = st_parsed (sd_stats s) ∧
  st_parse_errors (sd_stats s') = st_parse_errors (sd_stats s) ∧
  st_applied (sd_stats s') = st_applied (sd_stats s) ∧
  st_handler_invoked (sd_stats s') =
    match sd_event_handler s with
    | Some _ => u64_inc (st_handler_invoked (sd_stats s))
    | None => st_handler_invoked (sd_stats s)
    end.
Proof.
  unfold shard_handle. destruct (sd_event_handler s) as [h|] eqn:Hh; simpl.
  - destruct (on_event h e) as [h' []]; by split_and!.
  - by rewrite Hh.
Qed.

(** One event, on every branch. *)
Lemma shard_process_spec (s : Shard H) routed :
  let s' := shard_process s routed in
  let st := sd_stats s in
  let st' := sd_stats s' in
  sd_shard_id s' = sd_shard_id s ∧ st_consumed st' = u64_inc (st_consumed st) ∧
  match parsed_event routed with
  | None =>
    sd_books s' = sd_books s ∧ sd_event_handler s' = sd_event_handler s ∧
    st_parsed st' = st_parsed st ∧ st_parse_errors st' = u64_inc (st_parse_errors st) ∧
    st_applied st' = st_applied st ∧ st_handler_invoked st' = st_handler_invoked st
  | Some e =>
    sd_books s' = (store_apply (sd_books s) e).1 ∧ st_parsed st' = u64_inc (st_parsed st) ∧
    if (store_apply (sd_books s) e).2
    then sd_event_handler s' = (λ h, (on_event h e).1) <$> sd_event_handler s ∧
         st_parse_errors st' = st_parse_errors st ∧ st_applied st' = u64_inc (st_applied st) ∧
         st_handler_invoked st' =
           match sd_event_handler s with
           | Some _ => u64_inc (st_handler_invoked st)
           | None => st_handler_invoked st
           end
    else sd_event_handler s' = sd_event_handler s ∧
         st_parse_errors st' = u64_inc (st_parse_errors st) ∧
         st_applied st' = st_applied st ∧ st_handler_invoked st' = st_handler_invoked st
  end.
Proof.
  unfold shard_process, parsed_event. cbv zeta.
  destruct (routed_event_parse routed) as [e|err]; [|by split_and!].
  change (sd_books (set_field sd_stats _ _)) with (sd_books s).
  destruct (store_apply (sd_books s) e) as [books []]; cbn [fst snd]; [|by split_and!].
  match goal with |- context [shard_handle ?s2 e] =>
    destruct (shard_handle_spec s2 e) as (Hb & Hid & Hh & Hc & Hp & He & Ha & Hi) end.
  rewrite Hb, Hid, Hh, Hc, Hp, He, Ha, Hi. by split_and!.
Qed.

Lemma shard_run_cons (s : Shard H) routed events :
  shard_run s (routed :: events) = shard_run (shard_process s routed) events.
Proof. done. Qed.

(** The books of a shard are those of its parsed events, and the handler has seen
    exactly the applied ones, in order. *)
Lemma shard_run_spec (s : Shard H) events :
  sd_books (shard_run s events) = store_run (sd_books s) (omap parsed_event events) ∧
  sd_event_handler (shard_run s events) =
    (λ h, handler_run h (applied_events (sd_books s) (omap parsed_event events)))
      <$> sd_event_handler s.
Proof.
  revert s. induction events as [|routed events IH]; intros s.
  { split; [done|]. simpl. by destruct (sd_event_handler s). }
  rewrite shard_run_cons. destruct (IH (shard_process s routed)) as [-> ->].
  destruct (shard_process_spec s routed) as (_ & _ & Hspec). cbn [omap list_omap].
  destruct (parsed_event routed) as [e|].
  - rewrite store_run_cons. cbn [applied_events].
    destruct Hspec as (-> & _ & Hspec).
    destruct (store_apply (sd_books s) e) as [books []]; cbn [fst snd] in *.
    + destruct Hspec as (-> & _). split; [done|]. by destruct (sd_event_handler s).
    + by destruct Hspec as (-> & _).
  - by destruct Hspec as (-> & -> & _).
Qed.

Lemma u64_inc_add a b n : u64 (a + b) = u64 n → u64 (u64_inc a + b) = u64 (n + 1) ∧
  u64 (a + u64_inc b) = u64 (n + 1).
Proof.
  intros Hab. unfold u64_inc. split.
  - rewrite u64_u64_add. replace (a + 1 + b) with (a + b + 1) by lia.
    by rewrite <-u64_u64_add, Hab, u64_u64_add.
  - rewrite Z.add_comm, u64_u64_add. replace (b + 1 + a) with (a + b + 1) by lia.
    by rewrite <-u64_u64_add, Hab, u64_u64_add.
Qed.

(** The counters: [consumed] counts the events, each of which is an error or applied;
    the handler is invoked for the applied ones. *)
Lemma shard_run_counters (s : Shard H) events n :
  st_consumed (sd_stats s) = u64 n →
  u64 (st_parse_errors (sd_stats s) + st_applied (sd_stats s)) = u64 n →
  let s' := shard_run s events in
  st_consumed (sd_stats s') = u64 (n + Z.of_nat (length events)) ∧
  u64 (st_parse_errors (sd_stats s') + st_applied (sd_stats s')) =
    u64 (n + Z.of_nat (length events)) ∧
  (is_Some (sd_event_handler s) →
   st_handler_invoked (sd_stats s) = st_applied (sd_stats s) →
   st_handler_invoked (sd_stats s') = st_applied (sd_stats s')).
Proof.
  revert s n. induction events as [|routed events IH]; intros s n Hc Hsum.
  { simpl. rewrite Z.add_0_r. done. }
  rewrite shard_run_cons. destruct (shard_process_spec s routed) as (_ & Hc' & Hspec).
  set (s1 := shard_process s routed) in *. cbn [length].
  replace (n + Z.of_nat (S (length events))) with (n + 1 + Z.of_nat (length events)) by lia.
  destruct (u64_inc_add _ _ n Hsum) as [He Ha].
  assert (u64 (st_parse_errors (sd_stats s1) + st_applied (sd_stats s1)) = u64 (n + 1) ∧
    (is_Some (sd_event_handler s) → is_Some (sd_event_handler s1) ∧
     (st_handler_invoked (sd_stats s) = st_applied (sd_stats s) →
      st_handler_invoked (sd_stats s1) = st_applied (sd_stats s1)))) as [Hsum' Hh].
  { destruct (parsed_event routed) as [e|].
    - destruct Hspec as (_ & _ & Hspec). destruct (store_apply (sd_books s) e).2.
      + destruct Hspec as (-> & -> & -> & ->). split; [done|].
        intros [h ->]. split; [done|]. congruence.
      + destruct Hspec as (-> & -> & -> & ->). done.
    - destruct Hspec as (_ & -> & _ & -> & -> & ->). done. }
  destruct (IH s1 (n + 1)) as (IHc & IHs & IHh); [|done|].
  { rewrite Hc', Hc. unfold u64_inc. apply u64_u64_add. }
  split; [done|]. split; [done|]. intros Hsome Heq.
  destruct (Hh Hsome) as [Hsome' Heq']. auto.
Qed.
End iteration.

(** ** From the routed feed to the book *)
Section feed.
Context `{SJ : SimdJson}.

Lemma routed_parse_fields routed e :
  parsed_event routed = Some e →
  ne_market_ticker e = rd_market_ticker (rt_frame routed) ∧ ne_type e ≠ EventType_kUnknown.
Proof.
  unfold parsed_event, routed_event_parse. intros Hp.
  destruct (rd_exchange (rt_frame routed)); [done| |done].
  destruct (kalshi_parse _) as [e'|err] eqn:Hk; [|done]. injection Hp as ->.
  destruct (kalshi_parse_ok _ _ Hk) as [(Ht & _) Hok].
  split; [done|]. intros E. unfold payload_ok in Hok. by rewrite E in Hok.
Qed.

Lemma omap_parsed_filter hash n t (l : list RoutedEvent) :
  Forall (event_ok hash n) l →
  filter (concerns t) (omap parsed_event l) = omap parsed_event (filter (of_ticker t) l).
Proof.
  induction 1 as [|routed l [_ Htk] _ IH]; [done|].
  rewrite filter_cons. cbn [omap list_omap].
  destruct (parsed_event routed) as [e|] eqn:Hp.
  - destruct (routed_parse_fields routed e Hp) as [Ht Hty].
    rewrite filter_cons, IH.
    destruct (decide (of_ticker t routed)) as [E|E]; unfold of_ticker in E.
    + rewrite (decide_True (P := concerns t e)) by (split; [congruence|done]).
      cbn [omap list_omap]. by rewrite Hp.
    + rewrite (decide_False (P := concerns t e)); [done|]. intros [? _]. congruence.
  - rewrite IH. case_decide; [|done]. cbn [omap list_omap]. by rewrite Hp.
Qed.

(** The extractor and the parser have their own copies of the reader. *)
Lemma get_uint64_agree `{SimdJson} obj key : Decode.get_uint64 obj key = get_uint64 obj key.
Proof. done. Qed.

Lemma or_else_some {A} (a b : option A) x : a = Some x → or_else a b = Some x.
Proof. by intros ->. Qed.

(** The router and the parser agree on sequence numbers: a snapshot or delta that
    was decoded from a raw frame and then parsed from the routed payload carries the
    sequence number the decoder extracted. *)
Theorem routed_sequence_agrees hash ex n frame e :
  fr_market_ticker frame = "" → extracted_ok (kalshi_extract frame) = true →
  parsed_event (routed_event hash kalshi_extract ex n frame) = Some e →
  ne_type e ≠ EventType_kTrade →
  ne_raw_sequence_id e = ef_seq_id (kalshi_extract frame).
Proof.
  intros Htk Hok Hp Hty. unfold parsed_event, routed_event_parse in Hp. simpl in Hp.
  destruct ex; [done| |done].
  destruct (kalshi_parse _) as [e'|] eqn:Hk; [|done]. injection Hp as ->.
  destruct (parse_not_trade _ _ Hk Hty) as (obj & Hobj & ->). simpl in Hobj.
  unfold set_sequence_from_root.
  destruct (or_else (get_uint64 obj "seq") (get_uint64 obj "seq_id")) as [s|] eqn:Hs; [|done].
  simpl. clear Hk. unfold kalshi_extract, extracted_ok in *.
  rewrite decide_False in Hok |- * by congruence. rewrite Hobj in Hok |- *.
  destruct (Decode.get_string obj "type"); [|done]. destruct (negb (known_type s0)); [done|].
  destruct (Decode.get_object obj "msg") as [msg|]; [|done].
  destruct (Decode.get_string msg "market_ticker") as [mt|]; [|done].
  case_decide; [done|]. simpl. symmetry. apply or_else_some. unfold extract_sequence.
  rewrite get_uint64_agree. destruct (get_uint64 obj "seq"); cbn [or_else] in *; [done|].
  by rewrite get_uint64_agree, Hs.
Qed.

(** The book of a market is its feed.  Through any interleaving of routed frames and
    pops, the book a shard keeps for a market it serves is the one obtained from an empty
    book by applying, in order, the parsed events of that market popped so far; and those
    are the first of the market's accepted events, the rest being still queued. *)
Theorem book_reflects_feed {H} `{HE : ShardEventHandler H} hash moved_from decode_fn ex shards
    per_shard ops t (handler : option H) :
  0 ≤ shards → per_shard < 18446744073709551616 → t ≠ "" →
  let n := router_shard_count shards in
  Forall (op_in_range n) ops →
  let s := dispatch_run hash moved_from decode_fn ex n
             (mkDispatchLog (sharded_dispatch_init shards per_shard) [] []) ops in
  let k := compute_shard_id hash t n in
  let shard := shard_run (shard_init k handler) (popped_from k (dl_popped s)) in
  let feed := filter (of_ticker t) (popped_from k (dl_popped s)) in
  book_of (sd_books shard) t = book_run (new_book t) (omap parsed_event feed) ∧
  ∃ queued, filter (of_ticker t) (dl_accepted s) = feed ++ queued.
Proof.
  intros Hs Hp Ht n Hops s k shard feed.
  destruct (dispatch_run_init_inv hash moved_from decode_fn ex shards per_shard ops Hs Hp Hops)
    as [Hn Hinv].
  split; [|eexists; by eapply market_feed].
  unfold shard. rewrite (proj1 (shard_run_spec _ _)), store_run_book by done.
  rewrite (omap_parsed_filter hash n); [done|].
  eapply popped_ok; [exact Hinv|by apply compute_shard_id_range].
Qed.
End feed.

(** A started shard accounts for every event.  Over any sequence of events,
    [consumed] is their number, each is counted as an error or as applied, the books are
    those of the parsed events, and the handler has been called, in order, with exactly
    the events the books accepted. *)
Theorem shard_accounting `{SJ : SimdJson} {H} `{HE : ShardEventHandler H} (s : Shard H) events :
  sd_worker s = false →
  let s' := shard_run (shard_start s).1 events in
  st_consumed (sd_stats s') = u64 (Z.of_nat (length events)) ∧
  u64 (st_parse_errors (sd_stats s') + st_applied (sd_stats s')) = st_consumed (sd_stats s') ∧
  (is_Some (sd_event_handler s) →
   st_handler_invoked (sd_stats s') = st_applied (sd_stats s')) ∧
  sd_books s' = store_run (sd_books s) (omap parsed_event events) ∧
  sd_event_handler s' =
    (λ h, handler_run h (applied_events (sd_books s) (omap parsed_event events)))
      <$> sd_event_handler s.
Proof.
  intros Hw. unfold shard_start. rewrite Hw. cbn [fst].
  match goal with |- context [shard_run ?s0 events] =>
    destruct (shard_run_counters s0 events 0 eq_refl eq_refl) as (Hc & Hsum & Hh);
    destruct (shard_run_spec s0 events) as [Hb Hev] end.
  cbv zeta. rewrite Hc, Hsum, Hb, Hev. split_and!; try done. intros Hsome. by apply Hh.
Qed.

(** ** Concrete runs *)
#[export] Instance list_handler : ShardEventHandler (list EventType) := {|
  on_event h e := (h ++ [ne_type e], true);
|}.

Definition demo_routed : RoutedEvent :=
  mkRoutedEvent (mkRouteKey "MKT" 1) (mkRoutedFrame ExchangeId_kKalshi "MKT" (Some 7) 99 "delta").

Lemma shard_accounting_witness :
  let s' := @shard_run demo_reader _ list_handler (shard_start (shard_init 1 (Some []))).1
              [demo_routed; routed_event_default] in
  st_consumed (sd_stats s') = 2 ∧ sd_event_handler s' = Some [EventType_kDelta].
Proof.
  destruct (@shard_accounting demo_reader _ list_handler (shard_init 1 (Some []))
    [demo_routed; routed_event_default]) as (Hc & _ & _ & _ & Hh).
  - reflexivity.
  - split; [exact Hc|]. rewrite Hh. vm_compute. reflexivity.
Defined.

Lemma book_reflects_feed_witness :
  let ops := [RouteFrame (mkRawFrame 99 "kalshi" "delta" "" None); PopShard 1] in
  let s := dispatch_run demo_hash (λ e, e) (@kalshi_extract demo_reader) ExchangeId_kKalshi 2
             (mkDispatchLog (sharded_dispatch_init 2 4) [] []) ops in
  book_of (sd_books (@shard_run demo_reader _ list_handler (shard_init 1 None)
    (popped_from 1 (dl_popped s)))) "MKT" = book_run (new_book "MKT") [demo_parsed].
Proof.
  intros ops s.
  destruct (@book_reflects_feed demo_reader _ list_handler demo_hash (λ e, e)
    (@kalshi_extract demo_reader) ExchangeId_kKalshi 2 4 ops "MKT" None) as [Hb _].
  - lia.
  - lia.
  - discriminate.
  - repeat constructor; vm_compute; done.
  - exact Hb.
Defined.

Lemma routed_sequence_agrees_witness :
  ne_raw_sequence_id demo_parsed =
    ef_seq_id (@kalshi_extract demo_reader (mkRawFrame 99 "kalshi" "delta" "" None)).
Proof.
  apply (@routed_sequence_agrees demo_reader demo_hash ExchangeId_kKalshi 2
    (mkRawFrame 99 "kalshi" "delta" "" None) demo_parsed).
  - reflexivity.
  - reflexivity.
  - vm_compute. reflexivity.
  - discriminate.
Defined.
