(* ===== verification/Pipeline.v ===== *)
(** * The live pipeline: sink, frame queue, pump, shards

    Model of src/cpp/src/ingest/ws_message_sink.cpp and src/cpp/src/pipeline/live_pipeline.cpp.
    The websocket thread pushes messages into pooled frames and queues references to them;
    the pump pops references, routes the frames and returns the slots; the shard workers
    consume the routed events.

    The calls are first given as they stand in the source.  The second part splits
    [push_message] and the loop of [pump_ingest] at their accesses to the shared pool and
    queue and lets the two threads interleave. *)
From S2P Require Import Prelude.
From S2P Require Import Types.
From S2P Require Import Simdjson.
From S2P Require Import FramePool.
From S2P Require Import SpscQueue.
From S2P Require Import Decode.
From S2P Require Import BookStore.
From S2P Require Import KalshiParser.
From S2P Require Import Router.
From S2P Require Import Shard.

(** ** Data *)
Record LivePipelineConfig := mkLivePipelineConfig {
  lc_source : string;
  lc_decode_exchange : DecodeExchange;
  lc_router_exchange : ExchangeId;
  lc_frame_pool_capacity : Z;
  lc_frame_queue_capacity : Z;
  lc_shard_count : Z;
  lc_per_shard_queue_capacity : Z;
  (** in milliseconds *)
  lc_shard_idle_sleep : Z;
}.

(** The counters the pipeline itself keeps. *)
Record PipelineCounters := mkPipelineCounters {
  lt_ingest_frames_pumped : Z;
  lt_route_success : Z;
  lt_route_drop : Z;
  lt_frame_release_failures : Z;
}.

(** What [stats] reports. *)
Record LivePipelineStats := mkLivePipelineStats {
  ls_ingest_frames_pumped : Z;
  ls_route_success : Z;
  ls_route_drop : Z;
  ls_frame_release_failures : Z;
  ls_ingest_sink_dropped : Z;
  ls_shard_dispatch_dropped : Z;
}.

Record LivePipeline (H : Type) := mkLivePipeline {
  lp_config : LivePipelineConfig;
  lp_frame_pool : FramePool;
  lp_frame_queue : SpscQueue FrameRef;
  lp_sink_dropped_count : Z;
  lp_shard_dispatch : ShardedEventDispatch;
  lp_shards : list (Shard H);
  lp_running : bool;
  lp_stats : PipelineCounters;
}.
Arguments mkLivePipeline {H} _ _ _ _ _ _ _ _.
Arguments lp_config {H} _.
Arguments lp_frame_pool {H} _.
Arguments lp_frame_queue {H} _.
Arguments lp_sink_dropped_count {H} _.
Arguments lp_shard_dispatch {H} _.
Arguments lp_shards {H} _.
Arguments lp_running {H} _.
Arguments lp_stats {H} _.
#[export] Instance LivePipeline_settable H : Settable (LivePipeline H) := λ x,
  mkLivePipeline (lp_config x) (lp_frame_pool x) (lp_frame_queue x) (lp_sink_dropped_count x)
    (lp_shard_dispatch x) (lp_shards x) (lp_running x) (lp_stats x).

(** ** FramePoolMessageSink::push_message *)
Definition fill_frame (recv_timestamp : Z) (source message : string) : RawFrame :=
  mkRawFrame recv_timestamp source message "" None.

Definition payload_size (message : string) : Z := u32 (Z.of_nat (String.length message)).

Section sink.
Context {H : Type}.

Definition drop_message (p : LivePipeline H) : LivePipeline H :=
  p <| lp_sink_dropped_count ::= u64_inc |>.

(** [acquired_at] and [received_at] are the two clock readings of the call. *)
Definition push_message (p : LivePipeline H) (message : string) (acquired_at received_at : Z)
    : LivePipeline H * bool :=
  match acquire (lp_frame_pool p) acquired_at with
  | (pool, None) => (drop_message (p <| lp_frame_pool := pool |>), false)
  | (pool, Some ref) =>
    match frame pool ref with
    | None => (drop_message (p <| lp_frame_pool := (release pool ref).1 |>), false)
    | Some slot =>
      let pool :=
        write_frame pool slot (fill_frame received_at (lc_source (lp_config p)) message) in
      let ref := ref <| re_payload_size := payload_size message |> in
      match try_push (lp_frame_queue p) ref with
      | (queue, false) =>
        (drop_message (p <| lp_frame_pool := (release pool ref).1 |>
                         <| lp_frame_queue := queue |>), false)
      | (queue, true) =>
        (p <| lp_frame_pool := pool |> <| lp_frame_queue := queue |>, true)
      end
    end
  end.
End sink.

(** ** LivePipeline *)
Section pipeline.
Context `{SJ : SimdJson} {H : Type} (hash : string → Z).

Definition live_pipeline_init (config : LivePipelineConfig)
    (shard_event_handler_factory : Z → option H) : LivePipeline H :=
  let dispatch :=
    sharded_dispatch_init (lc_shard_count config) (lc_per_shard_queue_capacity config) in
  mkLivePipeline config
    (frame_pool_init (lc_frame_pool_capacity config))
    (queue_init frame_ref_default (lc_frame_queue_capacity config)) 0 dispatch
    ((λ shard_id, shard_init shard_id (shard_event_handler_factory shard_id))
       <$> seqZ 0 (shard_count dispatch))
    false (mkPipelineCounters 0 0 0 0).

(** The loop of [start]: the shards started so far are stopped again when one fails. *)
Fixpoint start_shards (started rest : list (Shard H)) : list (Shard H) * bool :=
  match rest with
  | [] => (started, true)
  | shard :: rest =>
    match shard_start shard with
    | (shard, true) => start_shards (started ++ [shard]) rest
    | (shard, false) => ((shard_stop <$> started) ++ shard :: rest, false)
    end
  end.

Definition pipeline_start (p : LivePipeline H) : LivePipeline H * bool :=
  if lp_running p then (p, false)
  else
    match start_shards [] (lp_shards p) with
    | (shards, false) => (p <| lp_shards := shards |>, false)
    | (shards, true) =>
      (p <| lp_shards := shards |> <| lp_stats := mkPipelineCounters 0 0 0 0 |>
         <| lp_running := true |>, true)
    end.

Definition pipeline_stop (p : LivePipeline H) : LivePipeline H :=
  if lp_running p
  then p <| lp_shards ::= fmap shard_stop |> <| lp_running := false |> else p.

(** [router_] as the constructor builds it. *)
Definition router_route (config : LivePipelineConfig) (d : ShardedEventDispatch) (f : RawFrame)
    : ShardedEventDispatch * bool :=
  route hash (resolve_decoder (lc_decode_exchange config))
    (router_shard_count (shard_count d)) (lc_router_exchange config) d f.

(** The locals of [pump_ingest]. *)
Record PumpCounts := mkPumpCounts {
  pu_popped : Z;
  pu_route_success : Z;
  pu_route_drop : Z;
  pu_release_failures : Z;
}.

(** One iteration of the loop, after a successful pop. *)
Definition pump_frame (p : LivePipeline H) (c : PumpCounts) (ref : FrameRef)
    : LivePipeline H * PumpCounts :=
  let '(d, routed) :=
    match frame (lp_frame_pool p) ref with
    | Some slot =>
      router_route (lp_config p) (lp_shard_dispatch p) (read_frame (lp_frame_pool p) slot)
    | None => (lp_shard_dispatch p, false)
    end in
  let '(pool, released) := release (lp_frame_pool p) ref in
  (p <| lp_shard_dispatch := d |> <| lp_frame_pool := pool |>,
   mkPumpCounts (u64_inc (pu_popped c))
     (if routed then u64_inc (pu_route_success c) else pu_route_success c)
     (if routed then pu_route_drop c else u64_inc (pu_route_drop c))
     (if released then pu_release_failures c else u64_inc (pu_release_failures c))).

(** The loop; [max_frames] bounds the number of iterations. *)
Fixpoint pump_loop (max_frames : nat) (p : LivePipeline H) (c : PumpCounts)
    : LivePipeline H * PumpCounts :=
  match max_frames with
  | O => (p, c)
  | S max_frames =>
    match try_pop (λ ref, ref) (lp_frame_queue p) with
    | (queue, None) => (p <| lp_frame_queue := queue |>, c)
    | (queue, Some ref) =>
      let '(p, c) := pump_frame (p <| lp_frame_queue := queue |>) c ref in
      pump_loop max_frames p c
    end
  end.

Definition add_stats (st : PipelineCounters) (c : PumpCounts) : PipelineCounters :=
  mkPipelineCounters (u64 (lt_ingest_frames_pumped st + pu_popped c))
    (u64 (lt_route_success st + pu_route_success c)) (u64 (lt_route_drop st + pu_route_drop c))
    (u64 (lt_frame_release_failures st + pu_release_failures c)).

Definition pump_ingest (p : LivePipeline H) (max_frames : Z) : LivePipeline H * Z :=
  if decide (max_frames = 0) then (p, 0)
  else
    let '(p, c) := pump_loop (Z.to_nat max_frames) p (mkPumpCounts 0 0 0 0) in
    (p <| lp_stats ::= λ st, add_stats st c |>, pu_popped c).

Definition pipeline_stats (p : LivePipeline H) : LivePipelineStats :=
  mkLivePipelineStats (lt_ingest_frames_pumped (lp_stats p)) (lt_route_success (lp_stats p))
    (lt_route_drop (lp_stats p)) (lt_frame_release_failures (lp_stats p))
    (lp_sink_dropped_count p) (sh_dropped_count (lp_shard_dispatch p)).

Definition book_store (p : LivePipeline H) (shard_id : Z) : option (gmap string BookState) :=
  if decide (Z.of_nat (length (lp_shards p)) ≤ shard_id) then None
  else sd_books <$> lp_shards p !! Z.to_nat shard_id.
End pipeline.

(** ** The two ingest threads interleaved

    Ghost fields: the payloads of the messages [push_message] accepted, the payloads the
    pump handed to the router, and how often a lookup or a release failed. *)
Inductive sink_state :=
  | SinkIdle
  | SinkAcquired (ref : FrameRef) (message : string)
  | SinkFilled (ref : FrameRef) (message : string)
  | SinkRejected (ref : FrameRef).

Inductive pump_state :=
  | PumpIdle
  | PumpPopped (ref : FrameRef)
  | PumpRouted (ref : FrameRef).

Record ingest_state := mkIngestState {
  ig_pool : FramePool;
  ig_queue : SpscQueue FrameRef;
  ig_dispatch : ShardedEventDispatch;
  ig_sink : sink_state;
  ig_pump : pump_state;
  ig_accepted : list string;
  ig_routed : list string;
  ig_failures : Z;
}.
#[export] Instance ingest_state_settable : Settable ingest_state := λ x,
  mkIngestState (ig_pool x) (ig_queue x) (ig_dispatch x) (ig_sink x) (ig_pump x) (ig_accepted x)
    (ig_routed x) (ig_failures x).

Section ingest.
Context `{SJ : SimdJson} (hash : string → Z) (config : LivePipelineConfig).

Inductive ingest_step : ingest_state → ingest_state → Prop :=
  (** the sink finds no free slot: the message is dropped *)
  | ingest_exhausted s ts pool :
      ig_sink s = SinkIdle → acquire (ig_pool s) ts = (pool, None) →
      ingest_step s (s <| ig_pool := pool |>)
  | ingest_acquire s message ts pool ref :
      ig_sink s = SinkIdle → acquire (ig_pool s) ts = (pool, Some ref) →
      ingest_step s (s <| ig_pool := pool |> <| ig_sink := SinkAcquired ref message |>)
  (** [frame] and the writes through the pointer it returns *)
  | ingest_fill s ref message received_at slot :
      ig_sink s = SinkAcquired ref message → frame (ig_pool s) ref = Some slot →
      ingest_step s
        (s <| ig_pool ::= λ p, write_frame p slot (fill_frame received_at (lc_source config) message) |>
           <| ig_sink := SinkFilled (ref <| re_payload_size := payload_size message |>) message |>)
  | ingest_null s ref message :
      ig_sink s = SinkAcquired ref message → frame (ig_pool s) ref = None →
      ingest_step s (s <| ig_sink := SinkRejected ref |> <| ig_failures ::= Z.succ |>)
  | ingest_push s ref message queue :
      ig_sink s = SinkFilled ref message → try_push (ig_queue s) ref = (queue, true) →
      ingest_step s
        (s <| ig_queue := queue |> <| ig_sink := SinkIdle |>
           <| ig_accepted ::= λ l, l ++ [message] |>)
  | ingest_full s ref message queue :
      ig_sink s = SinkFilled ref message → try_push (ig_queue s) ref = (queue, false) →
      ingest_step s (s <| ig_queue := queue |> <| ig_sink := SinkRejected ref |>)
  | ingest_return s ref pool ok :
      ig_sink s = SinkRejected ref → release (ig_pool s) ref = (pool, ok) →
      ingest_step s
        (s <| ig_pool := pool |> <| ig_sink := SinkIdle |>
           <| ig_failures ::= λ n, if ok then n else Z.succ n |>)
  | ingest_empty s queue :
      ig_pump s = PumpIdle → try_pop (λ ref, ref) (ig_queue s) = (queue, None) →
      ingest_step s (s <| ig_queue := queue |>)
  | ingest_pop s ref queue :
      ig_pump s = PumpIdle → try_pop (λ ref, ref) (ig_queue s) = (queue, Some ref) →
      ingest_step s (s <| ig_queue := queue |> <| ig_pump := PumpPopped ref |>)
  (** [frame], then [router_.route] on the frame *)
  | ingest_route s ref slot d ok :
      ig_pump s = PumpPopped ref → frame (ig_pool s) ref = Some slot →
      router_route hash config (ig_dispatch s) (read_frame (ig_pool s) slot) = (d, ok) →
      ingest_step s
        (s <| ig_dispatch := d |> <| ig_pump := PumpRouted ref |>
           <| ig_routed ::= λ l, l ++ [fr_payload (read_frame (ig_pool s) slot)] |>)
  | ingest_route_null s ref :
      ig_pump s = PumpPopped ref → frame (ig_pool s) ref = None →
      ingest_step s (s <| ig_pump := PumpRouted ref |> <| ig_failures ::= Z.succ |>)
  | ingest_release s ref pool ok :
      ig_pump s = PumpRouted ref → release (ig_pool s) ref = (pool, ok) →
      ingest_step s
        (s <| ig_pool := pool |> <| ig_pump := PumpIdle |>
           <| ig_failures ::= λ n, if ok then n else Z.succ n |>).
End ingest.

Definition ingest_init (config : LivePipelineConfig) : ingest_state :=
  mkIngestState (frame_pool_init (lc_frame_pool_capacity config))
    (queue_init frame_ref_default (lc_frame_queue_capacity config))
    (sharded_dispatch_init (lc_shard_count config) (lc_per_shard_queue_capacity config))
    SinkIdle PumpIdle [] [] 0.

(** ** The invariant of the ingest side *)
Definition sink_refs (s : sink_state) : list FrameRef :=
  match s with
  | SinkIdle => []
  | SinkAcquired ref _ | SinkFilled ref _ | SinkRejected ref => [ref]
  end.

Definition pump_refs (s : pump_state) : list FrameRef :=
  match s with PumpIdle => [] | PumpPopped ref | PumpRouted ref => [ref] end.

Definition held (s : ingest_state) : list FrameRef :=
  sink_refs (ig_sink s) ++ pump_refs (ig_pump s) ++ contents (ig_queue s).

Definition payload_at (p : FramePool) (ref : FrameRef) : string :=
  fr_payload (read_frame p (re_slot ref)).

(** The references whose frames are still to be routed, oldest first. *)
Definition unrouted (s : ingest_state) : list FrameRef :=
  match ig_pump s with PumpPopped ref => [ref] | _ => [] end ++ contents (ig_queue s).

Record ingest_inv (s : ingest_state) : Prop := {
  ii_held : held_inv (ig_pool s) (held s);
  ii_queue : queue_wf (ig_queue s);
  ii_order : ig_accepted s = ig_routed s ++ (payload_at (ig_pool s) <$> unrouted s);
  ii_filled ref m : ig_sink s = SinkFilled ref m → payload_at (ig_pool s) ref = m;
  ii_failures : ig_failures s = 0;
}.

Lemma ingest_init_inv config :
  0 ≤ lc_frame_pool_capacity config < 4294967296 →
  lc_frame_queue_capacity config < 18446744073709551616 →
  ingest_inv (ingest_init config).
Proof.
  intros Hp Hq. destruct (queue_init_wf frame_ref_default _ Hq) as (Hwf & Hnil & _).
  split; unfold held, unrouted; simpl; rewrite ?Hnil; try done. by apply held_init.
Qed.

Lemma unrouted_held s : Forall (λ r, r ∈ pump_refs (ig_pump s) ++ contents (ig_queue s)) (unrouted s).
Proof.
  apply Forall_forall. intros r. unfold unrouted. rewrite !elem_of_app.
  destruct (ig_pump s); simpl; set_solver.
Qed.

(** The payloads survive every change of the pool that keeps the frames held by the pump
    and the queue. *)
Lemma payloads_kept (p p' : FramePool) (l : list FrameRef) :
  (∀ r, r ∈ l → read_frame p' (re_slot r) = read_frame p (re_slot r)) →
  payload_at p' <$> l = payload_at p <$> l.
Proof.
  intros Hk. apply list_fmap_ext. intros i r Hr. unfold payload_at.
  by rewrite Hk by (by apply list_elem_of_lookup_2 in Hr).
Qed.

Lemma order_kept s p' :
  ingest_inv s →
  (∀ r, r ∈ pump_refs (ig_pump s) ++ contents (ig_queue s) →
    read_frame p' (re_slot r) = read_frame (ig_pool s) (re_slot r)) →
  ig_accepted s = ig_routed s ++ (payload_at p' <$> unrouted s).
Proof.
  intros Hinv Hk. rewrite (payloads_kept (ig_pool s) p'); [apply Hinv|].
  intros r Hr. apply Hk. pose proof (unrouted_held s) as Hall. rewrite Forall_forall in Hall. auto.
Qed.

Section ingest_preservation.
Context `{SJ : SimdJson} (hash : string → Z) (config : LivePipelineConfig).

Lemma ingest_sink_inv s s' :
  ingest_step hash config s s' → ig_sink s' ≠ ig_sink s → ingest_inv s → ingest_inv s'.
Proof.
  intros Hstep Hchange Hinv. pose proof (ii_held _ Hinv) as Hheld. unfold held in Hheld.
  destruct Hstep as [| s message ts pool ref Hs Hacq | s ref message recv slot Hs Hf
    | s ref message Hs Hf | s ref message queue Hs Hpush | s ref message queue Hs Hpush
    | s ref pool ok Hs Hrel | | | | | ]; try done; rewrite Hs in Hheld; simpl in Hheld.
  - destruct (held_acquire _ _ _ _ _ Hheld Hacq) as [Hheld' Hread].
    split; try apply Hinv; [exact Hheld'|exact (order_kept s _ Hinv Hread)|done].
  - assert (slot = re_slot ref) as ->.
    { unfold frame in Hf. case_decide; [congruence|done]. }
    destruct (held_write _ _ ref (fill_frame recv (lc_source config) message) Hheld)
      as (Hheld' & _ & Hsame & Hread).
    split; try apply Hinv.
    + apply (held_resize _ _ _ (payload_size message)) in Hheld'. exact Hheld'.
    + exact (order_kept s _ Hinv Hread).
    + simpl. intros ref' m [= <- <-]. unfold payload_at. simpl. by rewrite Hsame.
  - exfalso. destruct (held_write _ _ ref raw_frame_default Hheld) as (_ & Hok & _). congruence.
  - destruct (push_refines (ig_queue s) ref (ii_queue _ Hinv)) as (Hwf & _ & Href).
    rewrite Hpush in Hwf, Href. simpl in Hwf, Href. unfold fifo_push in Href.
    case_decide; [|done]. injection Href as Hc.
    split; try apply Hinv; simpl; try done.
    + unfold held. simpl. rewrite Hc. rewrite app_assoc, (Permutation_app_comm _ [ref]). exact Hheld.
    + rewrite (ii_order _ Hinv). unfold unrouted. simpl. rewrite Hc.
      rewrite !fmap_app, <-!app_assoc. simpl. by rewrite (ii_filled _ Hinv ref message Hs).
  - destruct (push_refines (ig_queue s) ref (ii_queue _ Hinv)) as (Hwf & _ & Href).
    rewrite Hpush in Hwf, Href. simpl in Hwf, Href. unfold fifo_push in Href.
    case_decide; [done|]. injection Href as Hc.
    split; try apply Hinv; simpl; try done.
    + unfold held. simpl. by rewrite Hc.
    + rewrite (ii_order _ Hinv). unfold unrouted. simpl. by rewrite Hc.
  - destruct (held_release _ _ _ Hheld) as (Hok & Hheld' & Hread).
    rewrite Hrel in Hok, Hheld', Hread. simpl in *. subst ok.
    split; try apply Hinv; simpl; try done. exact (order_kept s _ Hinv (λ r _, Hread _)).
Qed.

Lemma ingest_pump_inv s s' :
  ingest_step hash config s s' → ig_pump s' ≠ ig_pump s → ingest_inv s → ingest_inv s'.
Proof.
  intros Hstep Hchange Hinv. pose proof (ii_held _ Hinv) as Hheld. unfold held in Hheld.
  rewrite Permutation_app_comm in Hheld.
  destruct Hstep as [ | | | | | | | | s ref queue Hs Hpop
    | s ref slot d ok Hs Hf Hr | s ref Hs Hf | s ref pool ok Hs Hrel ];
    try done; rewrite Hs in Hheld; simpl in Hheld.
  - destruct (pop_refines (λ r, r) (ig_queue s) (ii_queue _ Hinv)) as (Hwf & _ & Href).
    rewrite Hpop in Hwf, Href. simpl in Hwf, Href.
    destruct (contents (ig_queue s)) as [|ref' l] eqn:Hc; simpl in Href; [done|].
    injection Href as Hc' <-.
    split; try apply Hinv; simpl; try done.
    + unfold held. simpl. rewrite Hc', Permutation_app_comm. exact Hheld.
    + rewrite (ii_order _ Hinv). unfold unrouted. simpl. by rewrite Hs, Hc, Hc'.
  - assert (slot = re_slot ref) as ->.
    { unfold frame in Hf. case_decide; [congruence|done]. }
    split; try apply Hinv; simpl; try done.
    + unfold held. simpl. rewrite Permutation_app_comm. exact Hheld.
    + rewrite (ii_order _ Hinv). unfold unrouted. simpl. rewrite Hs. simpl. by rewrite <-app_assoc.
  - exfalso. destruct (held_write _ _ ref raw_frame_default Hheld) as (_ & Hok & _). congruence.
  - destruct (held_release _ _ _ Hheld) as (Hok & Hheld' & Hread).
    rewrite Hrel in Hok, Hheld', Hread. simpl in *. subst ok.
    split; try apply Hinv; simpl; try done.
    + unfold held. simpl. by rewrite Permutation_app_comm.
    + rewrite (ii_order _ Hinv). unfold unrouted. simpl. rewrite Hs. simpl. f_equal.
      symmetry. by apply payloads_kept.
    + intros ref' m Hm. unfold payload_at. rewrite Hread. by apply (ii_filled _ Hinv).
Qed.

Lemma ingest_step_inv s s' : ingest_step hash config s s' → ingest_inv s → ingest_inv s'.
Proof.
  intros Hstep Hinv. pose proof Hstep as Hstep'. destruct Hstep;
    try (eapply ingest_sink_inv; [exact Hstep'|simpl; congruence|done]);
    try (eapply ingest_pump_inv; [exact Hstep'|simpl; congruence|done]).
  - rewrite (acquire_none _ _ _ H0). destruct Hinv. by split.
  - destruct (pop_refines (λ r, r) (ig_queue s) (ii_queue _ Hinv)) as (Hwf & _ & Href).
    rewrite H0 in Hwf, Href. simpl in Hwf, Href.
    destruct (contents (ig_queue s)) as [|] eqn:Hc; simpl in Href; [|done].
    injection Href as Hc'. destruct Hinv as [Hh Hq Ho Hf Hz].
    split; unfold held, unrouted in *; simpl; rewrite ?Hc', ?Hc in *; done.
Qed.

Lemma ingest_reachable_inv s :
  0 ≤ lc_frame_pool_capacity config < 4294967296 →
  lc_frame_queue_capacity config < 18446744073709551616 →
  rtc (ingest_step hash config) (ingest_init config) s → ingest_inv s.
Proof.
  intros Hp Hq Hr. pose proof (ingest_init_inv config Hp Hq) as Hinv. revert Hinv.
  induction Hr as [s|s1 s2 s3 H12 _ IH]; [done|]. intros. by apply IH, (ingest_step_inv s1).
Qed.

(** C15: the ingest side never loses, duplicates, reorders or corrupts a message.  For
    every interleaving of the websocket thread and the pump, with any pool and queue
    sizes: the payloads handed to the router are, in order, the first of the accepted
    messages, the rest being intact in queued frames; no frame lookup and no slot release
    ever fails; and every slot is either free or held by exactly one reference, so none
    leaks. *)
Theorem ingest_delivers_in_order s :
  0 ≤ lc_frame_pool_capacity config < 4294967296 →
  lc_frame_queue_capacity config < 18446744073709551616 →
  rtc (ingest_step hash config) (ingest_init config) s →
  ig_accepted s = ig_routed s ++ (payload_at (ig_pool s) <$> unrouted s) ∧
  ig_failures s = 0 ∧
  NoDup (re_slot <$> held s) ∧
  Z.of_nat (length (held s)) + available (ig_pool s) = fp_slot_count (ig_pool s).
Proof.
  intros Hp Hq Hr. destruct (ingest_reachable_inv s Hp Hq Hr) as [[_ _ Hnd Hc] _ Ho _ Hf].
  by split_and!.
Qed.
End ingest_preservation.

(** ** The sequential calls are runs of the interleaved system

    [pipe_state p sink pump accepted routed] is the pipeline between two accesses. *)
Section sequential.
Context `{SJ : SimdJson} {H : Type} (hash : string → Z).

Definition pipe_state (p : LivePipeline H) (accepted routed : list string) : ingest_state :=
  mkIngestState (lp_frame_pool p) (lp_frame_queue p) (lp_shard_dispatch p) SinkIdle PumpIdle
    accepted routed 0.

(** [push_message] on an idle sink: its outcome is a run, and it succeeds exactly when a
    slot is free and the queue has room. *)
Lemma push_message_run (p : LivePipeline H) message t1 t2 accepted routed :
  ingest_inv (pipe_state p accepted routed) →
  let '(p', ok) := push_message p message t1 t2 in
  rtc (ingest_step hash (lp_config p)) (pipe_state p accepted routed)
    (pipe_state p' (if ok then accepted ++ [message] else accepted) routed) ∧
  (ok = true ↔ 0 < available (lp_frame_pool p) ∧
     queue_length (lp_frame_queue p) < q_capacity (lp_frame_queue p) - 1).
Proof.
  intros Hinv. pose proof (ii_held _ Hinv) as Hheld. simpl in Hheld.
  pose proof (ii_queue _ Hinv) as Hqwf. simpl in Hqwf. unfold push_message.
  destruct (acquire (lp_frame_pool p) t1) as [pool [ref|]] eqn:Hacq.
  2: { split; [|split; [done|]].
       - exact (rtc_once _ _ (ingest_exhausted hash (lp_config p)
           (pipe_state p accepted routed) t1 pool eq_refl Hacq)).
       - unfold acquire in Hacq. unfold available. destruct (fp_free_slots (lp_frame_pool p)); [|done].
         simpl. lia. }
  assert (0 < available (lp_frame_pool p)) as Hav.
  { unfold acquire in Hacq. unfold available. destruct (fp_free_slots (lp_frame_pool p)); [done|].
    simpl. lia. }
  destruct (held_acquire _ _ _ _ _ Hheld Hacq) as [Hheld1 _].
  set (f := fill_frame t2 (lc_source (lp_config p)) message).
  destruct (held_write _ _ ref f Hheld1) as (Hheld2 & Hframe & _). rewrite Hframe.
  apply (held_resize _ _ _ (payload_size message)) in Hheld2.
  set (ref' := ref <| re_payload_size := payload_size message |>) in *.
  destruct (held_release _ _ _ Hheld2) as (Hrel & _).
  destruct (push_refines (lp_frame_queue p) ref' Hqwf) as (_ & _ & Href).
  unfold fifo_push in Href. rewrite (contents_length _ Hqwf) in Href.
  destruct (try_push (lp_frame_queue p) ref') as [queue ok] eqn:Hpush. simpl in Href.
  case_decide as Hroom; injection Href as _ ->.
  - split; [|tauto].
    eapply rtc_l; [eapply (ingest_acquire _ _ _ message t1); [done|exact Hacq]|].
    eapply rtc_l; [eapply (ingest_fill _ _ _ ref message t2); [done|exact Hframe]|].
    eapply rtc_l; [by eapply (ingest_push _ _ _ ref' message queue)|]. apply rtc_refl.
  - split; [|split; [done|lia]].
    eapply rtc_l; [eapply (ingest_acquire _ _ _ message t1); [done|exact Hacq]|].
    eapply rtc_l; [eapply (ingest_fill _ _ _ ref message t2); [done|exact Hframe]|].
    eapply rtc_l; [by eapply (ingest_full _ _ _ ref' message queue)|].
    destruct (release (write_frame pool (re_slot ref) f) ref') as [pool' ok] eqn:Hr.
    simpl in Hrel. subst ok.
    eapply rtc_l; [by eapply (ingest_return _ _ _ ref' pool' true)|]. apply rtc_refl.
Qed.

(** One iteration of the pump. *)
Lemma pump_frame_run (p : LivePipeline H) c accepted routed queue ref :
  ingest_inv (pipe_state p accepted routed) →
  try_pop (λ r, r) (lp_frame_queue p) = (queue, Some ref) →
  let '(p', c') := pump_frame hash (p <| lp_frame_queue := queue |>) c ref in
  rtc (ingest_step hash (lp_config p)) (pipe_state p accepted routed)
    (pipe_state p' accepted (routed ++ [payload_at (lp_frame_pool p) ref])) ∧
  contents (lp_frame_queue p) = ref :: contents (lp_frame_queue p') ∧
  (∀ slot, read_frame (lp_frame_pool p') slot = read_frame (lp_frame_pool p) slot) ∧
  lp_config p' = lp_config p ∧ lp_stats p' = lp_stats p ∧
  pu_popped c' = u64_inc (pu_popped c) ∧
  pu_release_failures c' = pu_release_failures c ∧
  u64 (pu_route_success c' + pu_route_drop c') =
    u64 (pu_route_success c + pu_route_drop c + 1).
Proof.
  intros Hinv Hpop. pose proof (ii_held _ Hinv) as Hheld. unfold held in Hheld. simpl in Hheld.
  pose proof (ii_queue _ Hinv) as Hqwf. simpl in Hqwf.
  destruct (pop_refines (λ r, r) _ Hqwf) as (_ & _ & Href). rewrite Hpop in Href. simpl in Href.
  destruct (contents (lp_frame_queue p)) as [|r l] eqn:Hc; simpl in Href; [done|].
  injection Href as Hc' <-.
  destruct (held_write _ _ ref raw_frame_default Hheld) as (_ & Hframe & _).
  destruct (held_release _ _ _ Hheld) as (Hrel & _ & Hread).
  unfold pump_frame. simpl. rewrite Hframe.
  destruct (router_route hash (lp_config p) (lp_shard_dispatch p) _) as [d ok] eqn:Hroute.
  destruct (release (lp_frame_pool p) ref) as [pool rel] eqn:Hr. simpl in Hrel. subst rel.
  simpl in Hread. split; [|split_and!; simpl; try done; [by rewrite Hc'|]].
  - eapply rtc_l; [by eapply (ingest_pop _ _ _ ref queue)|].
    eapply rtc_l; [by eapply (ingest_route _ _ _ ref (re_slot ref) d ok)|].
    eapply rtc_l; [by eapply (ingest_release _ _ _ ref pool true)|]. apply rtc_refl.
  - destruct ok; by apply (u64_inc_add _ _ (pu_route_success c + pu_route_drop c)).
Qed.

Lemma pump_loop_run n (p : LivePipeline H) c accepted routed :
  ingest_inv (pipe_state p accepted routed) →
  let '(p', c') := pump_loop hash n p c in
  let popped := Z.min (Z.of_nat n) (queue_length (lp_frame_queue p)) in
  (∃ routed', rtc (ingest_step hash (lp_config p)) (pipe_state p accepted routed)
                (pipe_state p' accepted routed') ∧
     routed' = routed ++ (payload_at (lp_frame_pool p) <$> take n (contents (lp_frame_queue p)))) ∧
  contents (lp_frame_queue p') = drop n (contents (lp_frame_queue p)) ∧
  lp_config p' = lp_config p ∧ lp_stats p' = lp_stats p ∧
  (∀ k, pu_popped c = u64 k → pu_popped c' = u64 (k + popped)) ∧
  pu_release_failures c' = pu_release_failures c ∧
  u64 (pu_route_success c' + pu_route_drop c') =
    u64 (pu_route_success c + pu_route_drop c + popped).
Proof.
  revert p c routed. induction n as [|n IH]; intros p c routed Hinv.
  { simpl. pose proof (ii_queue _ Hinv) as Hq. pose proof (queue_length_bound _ Hq). simpl in *.
    rewrite Z.min_l, !Z.add_0_r by lia. split_and!; try done; [|intros k; by rewrite Z.add_0_r].
    exists routed. rewrite app_nil_r. split; [apply rtc_refl|done]. }
  pose proof (ii_queue _ Hinv) as Hqwf. simpl in Hqwf.
  pose proof (contents_length _ Hqwf) as Hlen. cbn [pump_loop].
  destruct (try_pop (λ r, r) (lp_frame_queue p)) as [queue [ref|]] eqn:Hpop.
  - pose proof (pump_frame_run p c accepted routed queue ref Hinv Hpop) as Hstep.
    destruct (pump_frame hash _ c ref) as [p1 c1].
    destruct Hstep as (Hrun & Hc & Hread & Hcfg & Hst & Hpp & Hrf & Hsum).
    assert (ingest_inv (pipe_state p1 accepted (routed ++ [payload_at (lp_frame_pool p) ref]))) as Hinv1.
    { clear -Hrun Hinv. revert Hinv. induction Hrun as [|s1 s2 s3 H12 _ IH]; [done|].
      intros. by eapply IH, ingest_step_inv. }
    specialize (IH p1 c1 _ Hinv1). destruct (pump_loop hash n p1 c1) as [p' c'].
    pose proof (contents_length _ (ii_queue _ Hinv1)) as Hlen1. simpl in Hlen1.
    destruct IH as ((routed' & Hrun' & Hr') & Hc' & Hcfg' & Hst' & Hpp' & Hrf' & Hsum').
    rewrite Hc in Hlen |- *. simpl in Hlen. cbn [take drop].
    assert (Z.min (Z.of_nat (S n)) (queue_length (lp_frame_queue p)) =
      1 + Z.min (Z.of_nat n) (queue_length (lp_frame_queue p1))) as -> by lia.
    split_and!; try congruence.
    + exists routed'. split; [etrans; [exact Hrun|by rewrite <-Hcfg]|].
      rewrite Hr', <-app_assoc. simpl. do 2 f_equal. by apply payloads_kept.
    + intros k Hk. rewrite (Hpp' (k + 1)); [f_equal; lia|].
      rewrite Hpp, Hk. unfold u64_inc. apply u64_u64_add.
    + rewrite Hsum', <-u64_u64_add, Hsum, u64_u64_add. f_equal. lia.
  - destruct (pop_refines (λ r, r) _ Hqwf) as (_ & _ & Href). rewrite Hpop in Href. simpl in Href.
    destruct (contents (lp_frame_queue p)) as [|] eqn:Hc; simpl in Href; [|done].
    injection Href as Hc'. simpl in Hlen. rewrite <-Hlen, Z.min_r, !Z.add_0_r by lia.
    simpl. split_and!; try done; [|intros k; by rewrite Z.add_0_r].
    exists routed. rewrite app_nil_r. split; [|done].
    eapply rtc_l; [by eapply (ingest_empty _ _ _ queue)|]. apply rtc_refl.
Qed.

(** [pump_ingest] on a pipeline in a reachable state handles exactly
    [min(max_frames, queued)] frames and returns that number: it routes the oldest queued
    payloads in order, leaves the others queued, releases every slot it popped, and
    counts each frame as routed or dropped. *)
Theorem pump_ingest_handles (p : LivePipeline H) max_frames accepted routed :
  ingest_inv (pipe_state p accepted routed) → 0 ≤ max_frames < 18446744073709551616 →
  let '(p', popped) := pump_ingest hash p max_frames in
  let n := Z.to_nat max_frames in
  popped = Z.min max_frames (queue_length (lp_frame_queue p)) ∧
  contents (lp_frame_queue p') = drop n (contents (lp_frame_queue p)) ∧
  (∃ routed', rtc (ingest_step hash (lp_config p)) (pipe_state p accepted routed)
                (pipe_state p' accepted routed') ∧
     routed' = routed ++ (payload_at (lp_frame_pool p) <$> take n (contents (lp_frame_queue p)))) ∧
  lt_ingest_frames_pumped (lp_stats p') =
    (if decide (max_frames = 0) then lt_ingest_frames_pumped (lp_stats p)
     else u64 (lt_ingest_frames_pumped (lp_stats p) + popped)) ∧
  u64 (lt_route_success (lp_stats p') + lt_route_drop (lp_stats p')) =
    u64 (lt_route_success (lp_stats p) + lt_route_drop (lp_stats p) + popped) ∧
  u64 (lt_frame_release_failures (lp_stats p')) = u64 (lt_frame_release_failures (lp_stats p)).
Proof.
  intros Hinv Hmax. pose proof (queue_length_bound _ (ii_queue _ Hinv)) as Hq. simpl in Hq.
  pose proof (qw_capacity _ (ii_queue _ Hinv)) as Hcap. simpl in Hcap.
  unfold pump_ingest. case_decide as E.
  { subst max_frames. rewrite Z.min_l by lia. simpl. rewrite Z.add_0_r. split_and!; try done.
    exists routed. rewrite app_nil_r. split; [apply rtc_refl|done]. }
  pose proof (pump_loop_run (Z.to_nat max_frames) p (mkPumpCounts 0 0 0 0) accepted routed Hinv) as Hrun.
  destruct (pump_loop hash _ p _) as [p' c'].
  destruct Hrun as ((routed' & Hrun & Hr) & Hc & _ & Hst & Hpp & Hrf & Hsum).
  rewrite Z2Nat.id in Hpp, Hsum by lia. specialize (Hpp 0 eq_refl). rewrite Z.add_0_l in Hpp.
  rewrite u64_small in Hpp by (unfold in_u64; lia).
  cbn [lp_stats set_field]. split; [done|]. split; [done|].
  split; [by exists routed'|]. simpl. rewrite Hst, Hrf. simpl. rewrite Z.add_0_r.
  split; [done|]. split.
  - rewrite u64_u64_add, Z.add_comm, u64_u64_add.
    replace (lt_route_drop (lp_stats p) + pu_route_drop c'
      + (lt_route_success (lp_stats p) + pu_route_success c'))
      with (pu_route_success c' + pu_route_drop c'
      + (lt_route_success (lp_stats p) + lt_route_drop (lp_stats p))) by lia.
    rewrite <-u64_u64_add, Hsum, u64_u64_add, Hpp. f_equal. simpl. lia.
  - unfold u64. by rewrite Z.mod_mod.
Qed.
End sequential.

(** ** Starting and stopping *)
Definition idle {H} (s : Shard H) : Prop := sd_worker s = false.

(** The worker of the shard exists and its loop goes on. *)
Definition runs {H} (s : Shard H) : Prop := sd_worker s = true ∧ sd_running s = true.

Section lifecycle.
Context `{SJ : SimdJson} {H : Type} `{HE : ShardEventHandler H}.
Context (hash : string → Z) (moved_from : RoutedEvent → RoutedEvent).
Implicit Types p : LivePipeline H.

(** The calls the owner of a pipeline can make, and the iterations of its shard workers. *)
Inductive pipeline_call : LivePipeline H → LivePipeline H → Prop :=
  | call_start p : pipeline_call p (pipeline_start p).1
  | call_stop p : pipeline_call p (pipeline_stop p)
  | call_push p message t1 t2 : pipeline_call p (push_message p message t1 t2).1
  | call_pump p max_frames : pipeline_call p (pump_ingest hash p max_frames).1
  | call_worker p i s s' d :
      lp_shards p !! i = Some s → sd_worker s = true →
      shard_iteration moved_from s (lp_shard_dispatch p) = (s', d) →
      pipeline_call p (p <| lp_shards ::= <[i := s']> |> <| lp_shard_dispatch := d |>).

(** The workers that exist after the loop of [start]: all of them, or those there were. *)
Lemma start_shards_workers (started rest : list (Shard H)) :
  Forall runs started →
  if (start_shards started rest).2
  then Forall idle rest ∧ Forall runs (start_shards started rest).1
  else ¬ Forall idle rest ∧
       sd_worker <$> (start_shards started rest).1
       = replicate (length started) false ++ (sd_worker <$> rest).
Proof.
  revert started. induction rest as [|s rest IH]; intros started Hst; simpl.
  { by split; [constructor|]. }
  unfold shard_start. destruct (sd_worker s) eqn:Hw; simpl.
  - split; [intros [Hs _]%Forall_cons; unfold idle in Hs; congruence|].
    rewrite fmap_app, fmap_cons, Hw. f_equal.
    rewrite <-list_fmap_compose. clear. by induction started; simpl; f_equal.
  - match goal with |- context [start_shards (started ++ [?s1]) rest] =>
      specialize (IH (started ++ [s1])) end.
    destruct (start_shards _ rest) as [shards ok]. simpl in *.
    assert (ok = true ∨ ok = false) as [-> | ->] by (destruct ok; auto); destruct IH as [Hidle Hall].
    1,3: apply Forall_app_2; [done|]; by apply Forall_singleton.
    + by split; [constructor|].
    + split; [by intros [_ ?]%Forall_cons|]. rewrite Hall, length_app, replicate_add.
      simpl. by rewrite <-app_assoc.
Qed.

Lemma start_shards_length (started rest : list (Shard H)) :
  length (start_shards started rest).1 = (length started + length rest)%nat.
Proof.
  revert started. induction rest as [|s rest IH]; intros started; simpl; [lia|].
  destruct (shard_start s) as [s' []].
  - rewrite IH, length_app. simpl. lia.
  - simpl. rewrite length_app, length_fmap. done.
Qed.

(** The workers of a pipeline follow its [running] flag. *)
Definition workers_follow (p : LivePipeline H) : Prop :=
  Forall (λ s, sd_worker s = lp_running p ∧ sd_running s = lp_running p) (lp_shards p).

Lemma workers_idle p : workers_follow p → lp_running p = false → Forall idle (lp_shards p).
Proof. intros Hf Hr. eapply Forall_impl; [exact Hf|]. intros s [Hs _]. by rewrite Hr in Hs. Qed.

Lemma shard_process_worker (s : Shard H) routed :
  sd_worker (shard_process s routed) = sd_worker s ∧
  sd_running (shard_process s routed) = sd_running s.
Proof.
  unfold shard_process. destruct (routed_event_parse routed); [|done]. cbv zeta.
  destruct (store_apply _ _) as [books []]; [|done].
  unfold shard_handle. destruct (sd_event_handler s) as [h|] eqn:Hh; cbn -[on_event]; rewrite Hh;
    [|done]. by destruct (on_event h _) as [h' []].
Qed.

Lemma push_message_shards p message t1 t2 :
  lp_shards (push_message p message t1 t2).1 = lp_shards p ∧
  lp_running (push_message p message t1 t2).1 = lp_running p.
Proof. unfold push_message. repeat case_match; done. Qed.

Lemma pump_loop_shards n p c :
  lp_shards (pump_loop hash n p c).1 = lp_shards p ∧
  lp_running (pump_loop hash n p c).1 = lp_running p.
Proof.
  revert p c. induction n as [|n IH]; intros p c; simpl; [done|].
  destruct (try_pop _ _) as [queue [ref|]]; [|done]. unfold pump_frame.
  repeat case_match; simplify_eq;
    (match goal with |- context [pump_loop hash n ?q ?c'] =>
       destruct (IH q c') as [-> ->] end); done.
Qed.

Lemma pipeline_call_follow p p' :
  pipeline_call p p' → workers_follow p → workers_follow p'.
Proof.
  destruct 1 as [p|p|p message t1 t2|p max_frames|p i s s' d Hi Hw Hit]; intros Hf.
  - unfold pipeline_start. destruct (lp_running p) eqn:Hr; [by simpl|].
    pose proof (start_shards_workers [] (lp_shards p) ltac:(constructor)) as Hs.
    destruct (start_shards [] (lp_shards p)) as [shards []]; simpl in *; destruct Hs as [Hi Hall].
    + exact Hall.
    + destruct Hi. by apply workers_idle.
  - unfold pipeline_stop. destruct (lp_running p) eqn:Hr; [|done].
    unfold workers_follow. simpl. by apply Forall_fmap, Forall_true.
  - unfold workers_follow. by destruct (push_message_shards p message t1 t2) as [-> ->].
  - unfold pump_ingest. case_decide; [done|].
    destruct (pump_loop_shards (Z.to_nat max_frames) p (mkPumpCounts 0 0 0 0)) as [Hs Hr].
    destruct (pump_loop hash _ p _) as [p' c]. unfold workers_follow. simpl in *. by rewrite Hs, Hr.
  - unfold workers_follow in *. simpl. apply Forall_insert; [done|].
    pose proof (proj1 (Forall_lookup _ _) Hf i s Hi) as Hs. simpl in Hs.
    unfold shard_iteration in Hit. destruct (sharded_try_pop _ _ _) as [d' [routed|]];
      simplify_eq; [|done]. by destruct (shard_process_worker s routed) as [-> ->].
Qed.

Lemma pipeline_reachable_follow config factory p :
  rtc pipeline_call (live_pipeline_init config factory) p → workers_follow p.
Proof.
  revert p. apply rtc_ind_r.
  - unfold workers_follow. simpl. by apply Forall_fmap, Forall_true.
  - intros p p' _ Hc Hf. by apply (pipeline_call_follow p).
Qed.

End lifecycle.

(** ** Concrete runs *)
Definition demo_config : LivePipelineConfig :=
  mkLivePipelineConfig "kalshi" DecodeExchange_kKalshi ExchangeId_kKalshi 2 4 2 4 1.

Definition demo_pipeline : LivePipeline (list EventType) :=
  live_pipeline_init demo_config (λ _, None).

Definition demo_pushed : LivePipeline (list EventType) := (push_message demo_pipeline "delta" 5 6).1.

Lemma demo_pushed_run :
  rtc (@ingest_step demo_reader demo_hash demo_config) (ingest_init demo_config)
    (pipe_state demo_pushed ["delta"] []).
Proof.
  assert (ingest_inv (pipe_state demo_pipeline [] [])) as Hinv
    by (apply (ingest_init_inv demo_config); simpl; lia).
  destruct (@push_message_run demo_reader _ demo_hash demo_pipeline "delta" 5 6 [] [] Hinv)
    as [Hrun _].
  exact Hrun.
Qed.

Lemma ingest_delivers_in_order_witness :
  let s := pipe_state demo_pushed ["delta"] [] in
  ["delta"] = ig_routed s ++ (payload_at (ig_pool s) <$> unrouted s) ∧
  Z.of_nat (length (held s)) + available (ig_pool s) = 2.
Proof.
  destruct (@ingest_delivers_in_order demo_reader demo_hash demo_config
    (pipe_state demo_pushed ["delta"] [])) as (Ho & _ & _ & Hc).
  - simpl. lia.
  - simpl. lia.
  - apply demo_pushed_run.
  - split; [exact Ho|exact Hc].
Defined.

Lemma pump_ingest_handles_witness :
  let '(p', popped) := @pump_ingest demo_reader _ demo_hash demo_pushed 1024 in
  popped = 1 ∧ contents (lp_frame_queue p') = [].
Proof.
  assert (ingest_inv (pipe_state demo_pushed ["delta"] [])) as Hinv.
  { apply (@ingest_reachable_inv demo_reader demo_hash demo_config); [simpl; lia|simpl; lia|].
    apply demo_pushed_run. }
  pose proof (@pump_ingest_handles demo_reader _ demo_hash demo_pushed 1024 ["delta"] [] Hinv
    ltac:(lia)) as Hpump.
  destruct (pump_ingest demo_hash demo_pushed 1024) as [p' popped].
  destruct Hpump as (Hp & Hc & _). split; [rewrite Hp|rewrite Hc]; vm_compute; reflexivity.
Defined.

(** A start that succeeds, a second one on the running pipeline, and one that meets a shard
    whose worker is left from elsewhere. *)
Definition demo_half_started : LivePipeline (list EventType) :=
  demo_pipeline <| lp_shards ::= alter (λ s, (shard_start s).1) 1%nat |>.

