(* ===== verification/PipelineStop.v ===== *)
(** * Stopping the pipeline while its shards run

    [LivePipeline::stop] stops the shards one after the other: [Shard::stop] requests the
    stop of a worker, joins it and stores [running_], while the workers of the later shards
    go on.  Here the loop of [Shard::run] and the two stops have their program points and
    interleave, and the queues of the shards may change at any time.  The result is that of
    [pipeline_stop] of Pipeline.v on shards that have processed every event they popped. *)
From S2P Require Import Prelude.
From S2P Require Import Types.
From S2P Require Import Simdjson.
From S2P Require Import FramePool.
From S2P Require Import BookStore.
From S2P Require Import Decode.
From S2P Require Import SpscQueue.
From S2P Require Import KalshiParser.
From S2P Require Import Router.
From S2P Require Import Shard.
From S2P Require Import Pipeline.

(** Where a shard worker is in [run]: at the loop condition, about to pop, with an event
    in hand, past the loop, or gone. *)
Inductive shard_pc :=
  | shard_test | shard_pop | shard_event (routed : RoutedEvent) | shard_store | shard_exited.

(** Where [LivePipeline::stop] is: not called, about to stop shard [i], joining its worker,
    about to store its [running_], or returned. *)
Inductive pipeline_stop_pc :=
  | stop_idle | stop_shard (i : nat) | stop_join (i : nat) | stop_store (i : nat) | stop_done.

(** A shard with its worker and stop token; [wk_popped] records the events it popped. *)
Record worker (H : Type) := mkWorker {
  wk_shard : Shard H;
  wk_pc : shard_pc;
  wk_stop_requested : bool;
  wk_popped : list RoutedEvent;
}.
Arguments mkWorker {H} _ _ _ _.
Arguments wk_shard {H} _.
Arguments wk_pc {H} _.
Arguments wk_stop_requested {H} _.
Arguments wk_popped {H} _.

#[export] Instance worker_settable H : Settable (worker H) := λ x,
  mkWorker (wk_shard x) (wk_pc x) (wk_stop_requested x) (wk_popped x).

Record shards_state (H : Type) := mkShardsState {
  ss_dispatch : ShardedEventDispatch;
  ss_workers : list (worker H);
  ss_control : pipeline_stop_pc;
  ss_running : bool;
}.
Arguments mkShardsState {H} _ _ _ _.
Arguments ss_dispatch {H} _.
Arguments ss_workers {H} _.
Arguments ss_control {H} _.
Arguments ss_running {H} _.

#[export] Instance shards_state_settable H : Settable (shards_state H) := λ x,
  mkShardsState (ss_dispatch x) (ss_workers x) (ss_control x) (ss_running x).

Section stopping.
Context `{SJ : SimdJson} {H : Type} `{HE : ShardEventHandler H}.
Context (moved_from : RoutedEvent → RoutedEvent).
Implicit Types (w : worker H) (s : shards_state H) (p : LivePipeline H).

(** One step of [Shard::run]; an empty queue only sleeps. *)
Definition shard_turn w (d : ShardedEventDispatch) : option (worker H * ShardedEventDispatch) :=
  match wk_pc w with
  | shard_test =>
    Some (w <| wk_pc := if wk_stop_requested w then shard_store else shard_pop |>, d)
  | shard_pop =>
    match sharded_try_pop moved_from d (sd_shard_id (wk_shard w)) with
    | (d, None) => Some (w <| wk_pc := shard_test |>, d)
    | (d, Some routed) =>
      Some (w <| wk_pc := shard_event routed |> <| wk_popped ::= λ l, l ++ [routed] |>, d)
    end
  | shard_event routed =>
    Some (w <| wk_shard ::= λ x, shard_process x routed |> <| wk_pc := shard_test |>, d)
  | shard_store =>
    Some (w <| wk_shard ::= λ x, x <| sd_running := false |> |> <| wk_pc := shard_exited |>, d)
  | shard_exited => None
  end.

(** One step of [LivePipeline::stop] with the calls of [Shard::stop]. *)
Definition stop_turn s : option (shards_state H) :=
  match ss_control s with
  | stop_idle =>
    Some (s <| ss_control := if ss_running s then stop_shard 0 else stop_done |>)
  | stop_shard i =>
    match ss_workers s !! i with
    | None => Some (s <| ss_running := false |> <| ss_control := stop_done |>)
    | Some w =>
      if sd_worker (wk_shard w)
      then Some (s <| ss_workers ::= <[i := w <| wk_stop_requested := true |>]> |>
                   <| ss_control := stop_join i |>)
      else Some (s <| ss_workers ::=
                        <[i := w <| wk_shard ::= λ x, x <| sd_running := false |> |>]> |>
                   <| ss_control := stop_shard (S i) |>)
    end
  | stop_join i =>
    w ← ss_workers s !! i;
    match wk_pc w with
    | shard_exited =>
      Some (s <| ss_workers ::= <[i := w <| wk_shard ::= λ x, x <| sd_worker := false |> |>]> |>
              <| ss_control := stop_store i |>)
    | _ => None
    end
  | stop_store i =>
    w ← ss_workers s !! i;
    Some (s <| ss_workers ::= <[i := w <| wk_shard ::= λ x, x <| sd_running := false |> |>]> |>
            <| ss_control := stop_shard (S i) |>)
  | stop_done => None
  end.

(** The label says whether the step is one of [stop] or of a worker told to stop. *)
Inductive shards_step : bool → shards_state H → shards_state H → Prop :=
  | shards_worker s k w w' d :
      ss_workers s !! k = Some w → shard_turn w (ss_dispatch s) = Some (w', d) →
      shards_step (wk_stop_requested w) s
        (s <| ss_workers ::= <[k := w']> |> <| ss_dispatch := d |>)
  | shards_stop s s' : stop_turn s = Some s' → shards_step true s s'
  | shards_dispatch s d : shards_step false s (s <| ss_dispatch := d |>).

(** A run with the number of those steps. *)
Inductive shards_run : nat → shards_state H → shards_state H → Prop :=
  | shards_run_nil s : shards_run 0 s s
  | shards_run_snoc n b s s' s'' :
      shards_run n s s' → shards_step b s' s'' →
      shards_run (if b then S n else n) s s''.

(** The workers of a pipeline after [start]. *)
Definition shards_init p : shards_state H :=
  mkShardsState (lp_shard_dispatch p) ((λ x, mkWorker x shard_test false []) <$> lp_shards p)
    stop_idle (lp_running p).

Definition pipeline_started p : Prop :=
  lp_running p = true ∧
  Forall (λ x, sd_worker x = true ∧ sd_running x = true) (lp_shards p).

(** ** The invariant *)
Definition in_hand (pc : shard_pc) : list RoutedEvent :=
  match pc with shard_event routed => [routed] | _ => [] end.
Definition gone (pc : shard_pc) : bool :=
  match pc with shard_exited => true | _ => false end.
Definition leaving (pc : shard_pc) : bool :=
  match pc with shard_store | shard_exited => true | _ => false end.

(** The two flags of a shard that [start] and [stop] store. *)
Definition with_flags (joinable running : bool) (x : Shard H) : Shard H :=
  x <| sd_worker := joinable |> <| sd_running := running |>.

(** How many shards [stop] has told to stop, and how many it has joined. *)
Definition asked (n : nat) (c : pipeline_stop_pc) : nat :=
  match c with
  | stop_idle => 0 | stop_shard i => i | stop_join i | stop_store i => S i | stop_done => n
  end.
Definition joined (n : nat) (c : pipeline_stop_pc) : nat :=
  match c with
  | stop_idle => 0 | stop_shard i | stop_join i => i | stop_store i => S i | stop_done => n
  end.

(** A worker whose shard was [x] at the start and whose position is [k]: the shard has
    processed the events popped but the one in hand. *)
Record worker_inv (x : Shard H) (asked joined : bool) w : Prop := {
  wi_requested : wk_stop_requested w = asked;
  wi_joined : joined = true → wk_pc w = shard_exited;
  wi_leaving : leaving (wk_pc w) = true → asked = true;
  wi_shard : ∃ processed, wk_popped w = processed ++ in_hand (wk_pc w) ∧
    wk_shard w = with_flags (negb joined) (negb (gone (wk_pc w))) (shard_run x processed);
}.

Record shards_inv p s : Prop := {
  si_count : length (ss_workers s) = length (lp_shards p);
  si_control : (asked (length (lp_shards p)) (ss_control s) ≤ length (lp_shards p))%nat;
  si_running : ss_running s = match ss_control s with stop_done => false | _ => true end;
  si_workers k x w :
    lp_shards p !! k = Some x → ss_workers s !! k = Some w →
    worker_inv x (bool_decide (k < asked (length (lp_shards p)) (ss_control s))%nat)
      (bool_decide (k < joined (length (lp_shards p)) (ss_control s))%nat) w;
}.

Lemma with_flags_process j b x routed :
  shard_process (with_flags j b x) routed = with_flags j b (shard_process x routed).
Proof.
  destruct x as [id books handler w r st]. unfold shard_process, with_flags. simpl.
  destruct (routed_event_parse routed) as [event|]; [|done].
  destruct (store_apply books event) as [books' []]; [|done].
  unfold shard_handle. simpl. destruct handler as [h|]; [|done].
  by destruct (on_event h event) as [h' []].
Qed.

Lemma shard_run_snoc x events routed :
  shard_run x (events ++ [routed]) = shard_process (shard_run x events) routed.
Proof. unfold shard_run. by rewrite foldl_snoc. Qed.

Lemma shard_turn_inv x a j w d w' d' :
  shard_turn w d = Some (w', d') → worker_inv x a j w → worker_inv x a j w'.
Proof.
  intros Ht [Hr Hj Hl (processed & Hp & Hs)]. unfold shard_turn in Ht.
  destruct (wk_pc w) as [| |routed| |] eqn:Hpc; simpl in *.
  - destruct (wk_stop_requested w) eqn:Hq; simplify_eq/=; split; simpl; try done;
      try (by intros ?%Hj); exists processed; by rewrite Hs.
  - destruct (sharded_try_pop _ _ _) as [d1 [routed|]]; simplify_eq/=; split; simpl; try done;
      try (by intros ?%Hj); exists processed; rewrite Hp, ?app_nil_r; done.
  - simplify_eq/=. split; simpl; try done; try (by intros ?%Hj).
    exists (processed ++ [routed]). rewrite app_nil_r, Hs, with_flags_process, shard_run_snoc.
    done.
  - simplify_eq/=. split; simpl; try done. exists processed. rewrite Hs. done.
  - done.
Qed.

(** The steps of [stop] on the worker it is about. *)
Lemma worker_ask x w : worker_inv x false false w → worker_inv x true false (w <| wk_stop_requested := true |>).
Proof. intros [Hr Hj Hl Hs]. by split. Qed.

Lemma worker_join x w :
  worker_inv x true false w → wk_pc w = shard_exited →
  worker_inv x true true (w <| wk_shard ::= λ y, y <| sd_worker := false |> |>).
Proof.
  intros [Hr Hj Hl (processed & Hp & Hs)] Hpc. split; simpl; try done.
  exists processed. by rewrite Hs.
Qed.

Lemma worker_stored x w :
  worker_inv x true true w →
  worker_inv x true true (w <| wk_shard ::= λ y, y <| sd_running := false |> |>).
Proof.
  intros [Hr Hj Hl (processed & Hp & Hs)]. split; simpl; try done.
  exists processed. rewrite Hs, (Hj eq_refl). by split; [rewrite Hp, (Hj eq_refl)|].
Qed.

(** Replacing one worker. *)
Lemma workers_insert p (l : list (worker H)) i w' (A J : nat → bool) :
  (∀ x, lp_shards p !! i = Some x → worker_inv x (A i) (J i) w') →
  (∀ k x w, k ≠ i → lp_shards p !! k = Some x → l !! k = Some w → worker_inv x (A k) (J k) w) →
  ∀ k x w, lp_shards p !! k = Some x → <[i := w']> l !! k = Some w → worker_inv x (A k) (J k) w.
Proof.
  intros Hi Hk k x w Hx Hw.
  apply list_lookup_insert_Some in Hw as [(<- & <- & _)|[Hne Hw]]; [by apply Hi|].
  apply Hk; [congruence|done..].
Qed.

Lemma other_shard k i : k ≠ i → bool_decide (k < S i)%nat = bool_decide (k < i)%nat.
Proof. intros. apply bool_decide_ext. lia. Qed.

Lemma shards_init_inv p : pipeline_started p → shards_inv p (shards_init p).
Proof.
  intros [Hr Hw]. split; simpl; [by rewrite length_fmap|lia|done|].
  intros k x w Hx Hk. rewrite list_lookup_fmap, Hx in Hk. simplify_eq/=.
  rewrite Forall_lookup in Hw. destruct (Hw _ _ Hx) as [Hj Hrun].
  split; [done|done|done|]. exists []. split; [done|]. simpl.
  destruct x. simpl in *. by subst.
Qed.

(** The shard [stop] is at. *)
Lemma current_worker p s i w :
  shards_inv p s → ss_workers s !! i = Some w → ∃ x, lp_shards p !! i = Some x.
Proof.
  intros Hi Hw. apply lookup_lt_is_Some. rewrite <-(si_count _ _ Hi).
  by eapply lookup_lt_Some.
Qed.

Lemma stop_turn_inv p s s' : stop_turn s = Some s' → shards_inv p s → shards_inv p s'.
Proof.
  intros Ht Hi. pose proof Hi as [Hc Ha Hr Hw]. unfold stop_turn in Ht.
  destruct (ss_control s) as [|i|i|i|] eqn:Hctl; simpl in *.
  - rewrite Hr in Ht. simplify_eq/=. split; simpl; done.
  - destruct (ss_workers s !! i) as [w|] eqn:Hl.
    + destruct (current_worker _ _ _ _ Hi Hl) as [x Hx]. pose proof (Hw _ _ _ Hx Hl) as Hwi.
      pose proof (lookup_lt_Some _ _ _ Hx). rewrite !bool_decide_false in Hwi by lia.
      assert (sd_worker (wk_shard w) = true) as Hj.
      { destruct (wi_shard _ _ _ _ Hwi) as (processed & _ & ->). done. }
      rewrite Hj in Ht. simplify_eq/=. split; simpl; [by rewrite length_insert|lia|done|].
      apply workers_insert.
      * intros x' Hx'. rewrite bool_decide_true, bool_decide_false by lia.
        apply worker_ask. congruence.
      * intros k x' w' Hne Hx' Hw'. rewrite other_shard by done. by apply Hw.
    + simplify_eq/=. apply lookup_ge_None in Hl. split; simpl; [done|lia|done|].
      intros k x w Hx Hk. pose proof (Hw _ _ _ Hx Hk) as Hwi.
      pose proof (lookup_lt_Some _ _ _ Hx). by rewrite !bool_decide_true in * by lia.
  - destruct (ss_workers s !! i) as [w|] eqn:Hl; [|done]. simpl in Ht.
    destruct (current_worker _ _ _ _ Hi Hl) as [x Hx]. pose proof (Hw _ _ _ Hx Hl) as Hwi.
    rewrite bool_decide_true, bool_decide_false in Hwi by lia.
    destruct (wk_pc w) eqn:Hpc; simplify_eq/=.
    split; simpl; [by rewrite length_insert|lia|done|]. apply workers_insert.
    + intros x' Hx'. rewrite !bool_decide_true by lia. rewrite <-Hpc. apply (worker_join x' w); [congruence|done].
    + intros k x' w' Hne Hx' Hw'. rewrite other_shard by done.
      pose proof (Hw _ _ _ Hx' Hw') as Hk. by rewrite other_shard in Hk by done.
  - destruct (ss_workers s !! i) as [w|] eqn:Hl; [|done]. simplify_eq/=.
    destruct (current_worker _ _ _ _ Hi Hl) as [x Hx]. pose proof (Hw _ _ _ Hx Hl) as Hwi.
    rewrite !bool_decide_true in Hwi by lia.
    split; simpl; [by rewrite length_insert|lia|done|]. apply workers_insert.
    + intros x' Hx'. rewrite !bool_decide_true by lia. apply worker_stored. congruence.
    + intros k x' w' Hne Hx' Hw'. by apply Hw.
  - done.
Qed.

Lemma shards_step_inv p b s s' : shards_step b s s' → shards_inv p s → shards_inv p s'.
Proof.
  intros Hstep Hi. destruct Hstep as [s k w w' d Hk Ht|s s' Ht|s d].
  - pose proof Hi as [Hc Ha Hr Hw]. split; simpl; [by rewrite length_insert|done|done|].
    apply workers_insert; [|by eauto]. intros x Hx. eapply shard_turn_inv; [done|by apply Hw].
  - by eapply stop_turn_inv.
  - by destruct Hi.
Qed.

(** ** [stop] returns *)
(** The steps left to a worker told to stop, and to [stop]; those of a worker that has not
    been told do not count. *)
Definition worker_left w : nat :=
  if wk_stop_requested w then
    match wk_pc w with
    | shard_exited => 0 | shard_store => 1 | shard_test => 2 | shard_event _ => 3 | shard_pop => 4
    end
  else 4.

Definition control_left (n : nat) (c : pipeline_stop_pc) : nat :=
  match c with
  | stop_idle => 3 * n + 2
  | stop_shard i => 3 * (n - i) + 1
  | stop_join i => 3 * (n - i)
  | stop_store i => 3 * (n - i) - 1
  | stop_done => 0
  end.

Fixpoint total_left (l : list (worker H)) : nat :=
  match l with [] => 0 | w :: l => worker_left w + total_left l end.

Definition shards_left s : nat :=
  total_left (ss_workers s) + control_left (length (ss_workers s)) (ss_control s).

Lemma worker_left_le w : (worker_left w ≤ 4)%nat.
Proof. unfold worker_left. repeat case_match; lia. Qed.

Lemma sum_left_le (l : list (worker H)) : (total_left l ≤ 4 * length l)%nat.
Proof.
  induction l as [|w l IH]; simpl; [lia|]. pose proof (worker_left_le w). lia.
Qed.

Lemma sum_left_insert (l : list (worker H)) k w w' :
  l !! k = Some w →
  (total_left (<[k := w']> l) + worker_left w
   = total_left l + worker_left w')%nat.
Proof.
  revert k. induction l as [|w0 l IH]; intros [|k] Hk; simplify_eq/=; [lia|].
  specialize (IH _ Hk). lia.
Qed.

Lemma shard_turn_left w d w' d' :
  shard_turn w d = Some (w', d') →
  if wk_stop_requested w then (worker_left w' < worker_left w)%nat
  else worker_left w' = worker_left w.
Proof.
  intros Ht. unfold shard_turn in Ht. unfold worker_left.
  destruct (wk_stop_requested w) eqn:Hr, (wk_pc w) as [| |routed| |];
    repeat case_match; simplify_eq/=; rewrite ?Hr in *; done || lia || congruence.
Qed.

Lemma stop_turn_left p s s' :
  stop_turn s = Some s' → shards_inv p s → ss_control s ≠ stop_idle →
  (shards_left s' < shards_left s)%nat ∧ ss_control s' ≠ stop_idle.
Proof.
  intros Ht Hi Hne. pose proof Hi as [Hc Ha Hr Hw]. unfold stop_turn in Ht. unfold shards_left.
  destruct (ss_control s) as [|i|i|i|] eqn:Hctl; [done|..|done]; simpl in Ha.
  - destruct (ss_workers s !! i) as [w|] eqn:Hl.
    + pose proof (lookup_lt_Some _ _ _ Hl) as Hlt.
      destruct (current_worker _ _ _ _ Hi Hl) as [x Hx].
      pose proof (wi_requested _ _ _ _ (Hw _ _ _ Hx Hl)) as Hreq.
      simpl in Hreq. rewrite bool_decide_false in Hreq by lia.
      assert (worker_left w = 4)%nat as H4 by (unfold worker_left; by rewrite Hreq).
      destruct (sd_worker (wk_shard w)); injection Ht as <-; (split; [|done]); cbn -[Nat.mul Nat.sub];
        rewrite length_insert;
        (match goal with |- context [<[i := ?w']> _] =>
           pose proof (sum_left_insert _ _ _ w' Hl); pose proof (worker_left_le w') end); lia.
    + apply lookup_ge_None in Hl. injection Ht as <-. split; [|done]. cbn -[Nat.mul Nat.sub]. lia.
  - destruct (ss_workers s !! i) as [w|] eqn:Hl; [|done]. simpl in Ht.
    pose proof (lookup_lt_Some _ _ _ Hl) as Hlt.
    destruct (wk_pc w) eqn:Hpc; try done. injection Ht as <-. split; [|done].
    cbn -[Nat.mul Nat.sub]. rewrite length_insert.
    match goal with |- context [<[i := ?w']> _] =>
      pose proof (sum_left_insert _ _ _ w' Hl) as Hs;
      assert (worker_left w' = worker_left w) by (unfold worker_left; by rewrite Hpc) end.
    lia.
  - destruct (ss_workers s !! i) as [w|] eqn:Hl; [|done]. injection Ht as <-. split; [|done].
    pose proof (lookup_lt_Some _ _ _ Hl) as Hlt. cbn -[Nat.mul Nat.sub]. rewrite length_insert.
    match goal with |- context [<[i := ?w']> _] =>
      pose proof (sum_left_insert _ _ _ w' Hl) as Hs;
      assert (worker_left w' = worker_left w) by done end.
    lia.
Qed.

Lemma shards_step_left p b s s' :
  shards_step b s s' → shards_inv p s → ss_control s ≠ stop_idle →
  ((if b then 1 else 0) + shards_left s' ≤ shards_left s)%nat ∧ ss_control s' ≠ stop_idle.
Proof.
  intros Hstep Hi Hne. destruct Hstep as [s k w w' d Hk Ht|s s' Ht|s d].
  - split; [|done]. unfold shards_left. simpl. rewrite length_insert.
    pose proof (sum_left_insert _ _ _ w' Hk) as Hs. apply shard_turn_left in Ht.
    destruct (wk_stop_requested w); lia.
  - destruct (stop_turn_left _ _ _ Ht Hi Hne). split; [lia|done].
  - split; [|done]. unfold shards_left. simpl. lia.
Qed.

Lemma shards_run_left p n s s' :
  shards_run n s s' → shards_inv p s →
  shards_inv p s' ∧
  (ss_control s ≠ stop_idle →
   ss_control s' ≠ stop_idle ∧ (n + shards_left s' ≤ shards_left s)%nat).
Proof.
  intros Hrun Hi. induction Hrun as [s|n b s s' s'' _ IH Hs]; [done|].
  destruct (IH Hi) as [Hi' Hl]. split; [by eapply shards_step_inv|].
  intros Hne. destruct (Hl Hne) as [Hne' Hle].
  destruct (shards_step_left _ _ _ _ Hs Hi' Hne') as [Hle' Hne'']. split; [done|].
  destruct b; lia.
Qed.

(** Until [stop] has returned, it or the worker it waits for can go on. *)
Lemma stop_progress p s :
  shards_inv p s → ss_control s ≠ stop_done → ∃ s', shards_step true s s'.
Proof.
  intros Hi Hne. pose proof Hi as [Hc Ha Hr Hw].
  destruct (stop_turn s) as [s'|] eqn:Ht; [exists s'; by apply shards_stop|].
  unfold stop_turn in Ht. destruct (ss_control s) as [|i|i|i|] eqn:Hctl; [done|..|done]; simpl in Ha.
  - repeat case_match; done.
  - destruct (lookup_lt_is_Some_2 (ss_workers s) i) as [w Hl]; [lia|].
    destruct (current_worker _ _ _ _ Hi Hl) as [x Hx].
    pose proof (wi_requested _ _ _ _ (Hw _ _ _ Hx Hl)) as Hreq. simpl in Hreq.
    rewrite bool_decide_true in Hreq by lia.
    assert (is_Some (shard_turn w (ss_dispatch s))) as [[w' d] Hturn].
    { rewrite Hl in Ht. simpl in Ht. unfold shard_turn. repeat case_match; eauto; done. }
    eexists. rewrite <-Hreq. by eapply shards_worker.
  - destruct (lookup_lt_is_Some_2 (ss_workers s) i) as [w Hl]; [lia|]. by rewrite Hl in Ht.
Qed.

Lemma shards_left_bound p s :
  shards_inv p s → ss_control s ≠ stop_idle →
  (shards_left s ≤ 7 * length (lp_shards p) + 1)%nat.
Proof.
  intros [Hc Ha _ _] Hne. unfold shards_left. pose proof (sum_left_le (ss_workers s)).
  rewrite Hc in *. destruct (ss_control s); simpl in *; done || lia.
Qed.

Lemma shards_left_zero p s :
  shards_inv p s → shards_left s = 0%nat → ss_control s = stop_done.
Proof.
  intros [Hc Ha _ _]. unfold shards_left. rewrite Hc.
  destruct (ss_control s); simpl in *; done || lia.
Qed.

(** ** What is left *)
(** A joined worker: its shard is stopped and has processed all it popped. *)
Lemma worker_final x w : worker_inv x true true w → wk_shard w = shard_stop (shard_run x (wk_popped w)).
Proof.
  intros [_ Hj _ (processed & Hp & Hs)]. rewrite (Hj eq_refl) in *. simpl in *.
  rewrite app_nil_r in Hp. by subst processed.
Qed.

Lemma stopped_workers p s k x w :
  shards_inv p s → ss_control s = stop_done → lp_shards p !! k = Some x →
  ss_workers s !! k = Some w → worker_inv x true true w.
Proof.
  intros [_ _ _ Hw] Hd Hx Hk. pose proof (Hw _ _ _ Hx Hk) as Hi. rewrite Hd in Hi. simpl in Hi.
  pose proof (lookup_lt_Some _ _ _ Hx). by rewrite !bool_decide_true in Hi by done.
Qed.

Lemma stopped_shards p s :
  shards_inv p s → ss_control s = stop_done →
  wk_shard <$> ss_workers s =
    shard_stop <$> zip_with shard_run (lp_shards p) (wk_popped <$> ss_workers s).
Proof.
  intros Hi Hd. apply list_eq. intros k. rewrite !list_lookup_fmap, lookup_zip_with, list_lookup_fmap.
  destruct (ss_workers s !! k) as [w|] eqn:Hw.
  - destruct (current_worker _ _ _ _ Hi Hw) as [x Hx]. rewrite Hx. simpl. f_equal.
    eapply worker_final, stopped_workers; eauto.
  - simpl. by destruct (lp_shards p !! k).
Qed.

Lemma halted_step p b s s' :
  shards_step b s s' → shards_inv p s → ss_control s = stop_done →
  ss_workers s' = ss_workers s ∧ ss_control s' = stop_done.
Proof.
  intros Hstep Hi Hd. destruct Hstep as [s k w w' d Hk Ht|s s' Ht|s d].
  - destruct (current_worker _ _ _ _ Hi Hk) as [x Hx].
    pose proof (wi_joined _ _ _ _ (stopped_workers _ _ _ _ _ Hi Hd Hx Hk) eq_refl) as Hpc.
    unfold shard_turn in Ht. by rewrite Hpc in Ht.
  - unfold stop_turn in Ht. by rewrite Hd in Ht.
  - done.
Qed.

Lemma halted_run p n s s' :
  shards_run n s s' → shards_inv p s → ss_control s = stop_done →
  ss_workers s' = ss_workers s ∧ ss_control s' = stop_done.
Proof.
  intros Hrun Hi Hd. induction Hrun as [s|n b s s' s'' Hrun IH Hs]; [done|].
  destruct (IH Hi Hd) as [Hw Hd']. destruct (shards_run_left _ _ _ _ Hrun Hi) as [Hi' _].
  destruct (halted_step _ _ _ _ Hs Hi' Hd') as [Hw' Hd'']. split; congruence.
Qed.

(** C32: Stopping a running pipeline implements [pipeline_stop].  However the workers of
    the shards, [stop] and the threads that fill the queues interleave: from the moment it
    is at its first shard, [stop] and the workers it has told to stop take at most seven
    steps for every shard and one more, one of them can go on until [stop] has returned, and
    after that many steps it has; when it has returned, the shards and the flag of the
    pipeline are those [pipeline_stop] gives on shards that have processed exactly the
    events they popped, in order, and they do not change any more. *)
Theorem pipeline_stop_implemented p n0 s n s' :
  pipeline_started p → shards_run n0 (shards_init p) s → ss_control s ≠ stop_idle →
  shards_run n s s' →
  let bound := (7 * length (lp_shards p) + 1)%nat in
  (n ≤ bound)%nat ∧ (ss_control s' = stop_done ∨ ∃ s'', shards_step true s' s'') ∧
  (n = bound → ss_control s' = stop_done) ∧
  (ss_control s' = stop_done →
   let processed := zip_with shard_run (lp_shards p) (wk_popped <$> ss_workers s') in
   let p' := pipeline_stop (p <| lp_shards := processed |>) in
   wk_shard <$> ss_workers s' = lp_shards p' ∧ ss_running s' = lp_running p' ∧
   ∀ m s'', shards_run m s' s'' → ss_workers s'' = ss_workers s').
Proof.
  intros Hp Hr Hne Hrun bound.
  destruct (shards_run_left _ _ _ _ Hr (shards_init_inv _ Hp)) as [Hi _].
  destruct (shards_run_left _ _ _ _ Hrun Hi) as [Hi' Hl]. destruct (Hl Hne) as [Hne' Hle].
  pose proof (shards_left_bound _ _ Hi Hne) as Hb. unfold bound. split_and!; [lia|..].
  - destruct (stop_turn s') as [s''|] eqn:Ht; [right; exists s''; by apply shards_stop|].
    destruct (ss_control s') eqn:Hc; [..|by left]; right; apply (stop_progress p); congruence.
  - intros Hn. apply (shards_left_zero p); [done|lia].
  - intros Hd. unfold pipeline_stop. simpl. rewrite (proj1 Hp). simpl. split_and!.
    + by apply stopped_shards.
    + by rewrite (si_running _ _ Hi'), Hd.
    + intros m s'' Hm. by apply (halted_run p _ _ _ Hm).
Qed.

(** A schedule: [Some k] is a turn of worker [k], [None] one of [stop]. *)
Definition shards_turn (t : option nat) s : option (shards_state H) :=
  match t with
  | None => stop_turn s
  | Some k =>
    w ← ss_workers s !! k; wd ← shard_turn w (ss_dispatch s);
    Some (s <| ss_workers ::= <[k := wd.1]> |> <| ss_dispatch := wd.2 |>)
  end.

Fixpoint shards_exec (schedule : list (option nat)) s : option (shards_state H) :=
  match schedule with
  | [] => Some s
  | t :: schedule => s ← shards_turn t s; shards_exec schedule s
  end.

Lemma shards_run_cons b n s s' s'' :
  shards_step b s s' → shards_run n s' s'' → ∃ n', shards_run n' s s''.
Proof.
  intros Hs Hr. induction Hr as [s'|n b' s' s1 s2 _ IH Hs'].
  - eexists. eapply shards_run_snoc; [apply shards_run_nil|done].
  - destruct (IH Hs) as [n' Hn]. eexists. by eapply shards_run_snoc.
Qed.

Lemma shards_exec_run schedule s s' :
  shards_exec schedule s = Some s' → ∃ n, shards_run n s s'.
Proof.
  revert s. induction schedule as [|t schedule IH]; intros s; simpl.
  { intros [= <-]. eexists. apply shards_run_nil. }
  intros (s1 & Ht & Hr%IH)%bind_Some. destruct Hr as [n Hr].
  assert (∃ b, shards_step b s s1) as [b Hs]; [|by eapply shards_run_cons].
  destruct t as [k|]; [|exists true; by apply shards_stop].
  apply bind_Some in Ht as (w & Hw & ([w' d] & Hd & [= <-])%bind_Some).
  eexists. by eapply shards_worker.
Qed.

Lemma shards_exec_stop p before after i :
  ss_control <$> shards_exec before (shards_init p) = Some (stop_shard i) →
  ss_control <$> (shards_exec before (shards_init p) ≫= shards_exec after) = Some stop_done →
  ∃ s s' n0 n, shards_run n0 (shards_init p) s ∧ ss_control s ≠ stop_idle ∧
    shards_run n s s' ∧ ss_control s' = stop_done.
Proof.
  destruct (shards_exec before _) as [s|] eqn:Hs; [|done]. cbn [mbind option_bind].
  destruct (shards_exec after s) as [s'|] eqn:Hs'; [|done]. intros [= Hb] [= Hd].
  destruct (shards_exec_run _ _ _ Hs) as [n0 Hr]. destruct (shards_exec_run _ _ _ Hs') as [n Hrun].
  exists s, s', n0, n. split_and!; try done. by rewrite Hb.
Qed.
End stopping.

(** ** A concrete stop: two shards, one with an event in hand *)
#[local] Existing Instance demo_reader.

Definition demo_started_pipeline : LivePipeline (list EventType) :=
  (pipeline_start (pump_ingest demo_hash demo_pushed 1).1).1.

Lemma demo_pipeline_started : pipeline_started demo_started_pipeline.
Proof. split; vm_compute; by repeat constructor. Qed.

(** The worker of the second shard pops its event, then [stop] is called. *)
Lemma demo_halted_run :
  ∃ s s' n0 n, shards_run (λ e, e) n0 (shards_init demo_started_pipeline) s ∧
    ss_control s ≠ stop_idle ∧ shards_run (λ e, e) n s s' ∧ ss_control s' = stop_done.
Proof.
  apply (shards_exec_stop _ _ [Some 1; Some 1; None]%nat
    [None; Some 0; Some 0; None; None; None; Some 1; Some 1; Some 1; None; None; None]%nat 0);
    vm_compute; reflexivity.
Qed.

Lemma pipeline_stop_implemented_witness :
  ∃ s, ss_control s = stop_done ∧
    wk_shard <$> ss_workers s =
      lp_shards (pipeline_stop (demo_started_pipeline
        <| lp_shards := zip_with shard_run (lp_shards demo_started_pipeline)
                          (wk_popped <$> ss_workers s) |>)).
Proof.
  destruct demo_halted_run as (s & s' & n0 & n & Hr & Hc & Hrun & Hd).
  exists s'. split; [exact Hd|].
  exact (proj1 (proj2 (proj2 (proj2 (pipeline_stop_implemented (λ e, e) demo_started_pipeline
    n0 s n s' demo_pipeline_started Hr Hc Hrun))) Hd)).
Defined.
