(* ===== verification/Nlohmann.v ===== *)
(** * The JSON library of the order path

    nlohmann::json is a third-party library: the order adapter and the paper transport
    use it through the class [Nlohmann], which has the operations those two sources call
    and nothing else, and through the laws of [NlohmannLaws], its documented behaviour.
    A value of [nj] is a [basic_json] up to [operator==]: the signed and the unsigned
    representation of a number are the same value.  [Err] is a thrown exception, with its
    [what()].  [NlohmannDocument] has the further operations of the config loader.  The
    last part gives a concrete library, used to evaluate the model. *)
From Stdlib Require Import Ascii.
From S2P Require Import Prelude.
Local Set Warnings "-register-all".

Class Nlohmann := {
  nj : Type;
  (** [json::parse(text)] and [value.dump()] *)
  nj_parse : string → outcome nj;
  nj_dump : nj → outcome string;
  nj_is_object : nj → bool;
  (** [object.find(key)], [None] for [end()] *)
  nj_find : nj → string → option nj;
  (** [is_string()] followed by [get<std::string>()] *)
  nj_string : nj → option string;
  (** [is_number_integer()] followed by [get<std::int64_t>()] *)
  nj_integer : nj → option Z;
  (** [get<unsigned int>()] *)
  nj_get_uint : nj → outcome Z;
  (** the converting constructors, and the initializer list [{{key, value}, ...}] *)
  nj_of_string : string → nj;
  nj_of_int : Z → nj;
  nj_object : list (string * nj) → nj;
  (** [object\[key\] = value] *)
  nj_set : nj → string → nj → nj;
  (** the strings that are well-formed UTF-8 *)
  nj_utf8 : string → Prop;
}.

Fixpoint ascii_only (s : string) : bool :=
  match s with
  | "" => true
  | String c s => bool_decide (Ascii.nat_of_ascii c < 128)%nat && ascii_only s
  end.

(** The values the sources build: objects over numbers and well-formed strings. *)
Inductive plain `{Nlohmann} : nj → Prop :=
  | plain_string s : nj_utf8 s → plain (nj_of_string s)
  | plain_int z : -9223372036854775808 ≤ z < 18446744073709551616 → plain (nj_of_int z)
  | plain_object fields :
      NoDup fields.*1 → (∀ k v, (k, v) ∈ fields → nj_utf8 k) →
      (∀ k v, (k, v) ∈ fields → plain v) →
      plain (nj_object fields)
  | plain_set j k v : plain j → nj_is_object j = true → nj_utf8 k → plain v →
      plain (nj_set j k v).

Class NlohmannLaws `{Nlohmann} : Prop := {
  (** what is dumped parses back to the value *)
  nj_roundtrip j : plain j → ∃ text, nj_dump j = Ok text ∧ nj_parse text = Ok j;
  nj_utf8_ascii s : ascii_only s = true → nj_utf8 s;
  nj_string_of s : nj_string (nj_of_string s) = Some s;
  (** a number above the signed range is converted modulo 2^64 *)
  nj_integer_of z :
    -9223372036854775808 ≤ z < 18446744073709551616 → nj_integer (nj_of_int z) = Some (s64 z);
  nj_integer_typed j z : nj_integer j = Some z → in_s64 z;
  (** [get<unsigned int>] converts modulo 2^32 *)
  nj_get_uint_of z :
    -9223372036854775808 ≤ z < 18446744073709551616 → nj_get_uint (nj_of_int z) = Ok (u32 z);
  nj_get_uint_typed j z : nj_get_uint j = Ok z → 0 ≤ z < 4294967296;
  nj_object_is fields : nj_is_object (nj_object fields) = true;
  nj_find_object fields k v :
    NoDup fields.*1 → (k, v) ∈ fields → nj_find (nj_object fields) k = Some v;
  nj_find_object_none fields k : k ∉ fields.*1 → nj_find (nj_object fields) k = None;
  nj_set_is j k v : nj_is_object j = true → nj_is_object (nj_set j k v) = true;
  nj_find_set j k v : nj_is_object j = true → nj_find (nj_set j k v) k = Some v;
  nj_find_set_ne j k k' v :
    nj_is_object j = true → k ≠ k' → nj_find (nj_set j k v) k' = nj_find j k';
}.

(** The further operations of the config loader, which reads documents that came out of
    [json::parse]: the parser stores every integer literal from 0 to 2^64 - 1 as an
    unsigned number. *)
Class NlohmannDocument `{Nlohmann} := {
  (** [is_number_unsigned()] followed by [get<std::size_t>()] *)
  nj_unsigned : nj → option Z;
  (** [is_boolean()] followed by [get<bool>()] *)
  nj_boolean : nj → option bool;
  (** [is_array()] followed by an iteration over the elements *)
  nj_items : nj → option (list nj);
  nj_of_bool : bool → nj;
  nj_array : list nj → nj;
}.

Class NlohmannDocumentLaws `{NlohmannDocument} : Prop := {
  nj_unsigned_of z : in_u64 z → nj_unsigned (nj_of_int z) = Some z;
  nj_unsigned_typed j z : nj_unsigned j = Some z → in_u64 z;
  nj_boolean_of b : nj_boolean (nj_of_bool b) = Some b;
  nj_items_of l : nj_items (nj_array l) = Some l;
}.

(** [plain] and [nj_find] goals on an explicit list of fields. *)
Ltac field_in_list :=
  repeat first [apply list_elem_of_here | apply list_elem_of_further].
Ltac distinct_keys := apply (bool_decide_unpack _); vm_compute; exact I.
Ltac find_field := erewrite nj_find_object; [|distinct_keys|field_in_list].

Lemma plain_fields `{NlohmannLaws} fields :
  NoDup fields.*1 → Forall (λ kv, ascii_only kv.1 = true ∧ plain kv.2) fields →
  plain (nj_object fields).
Proof.
  intros Hnd Hall. rewrite Forall_forall in Hall.
  apply plain_object; [done|..]; intros k v Hkv; destruct (Hall _ Hkv); [|done].
  by apply nj_utf8_ascii.
Qed.

Lemma plain_ascii `{NlohmannLaws} s : ascii_only s = true → plain (nj_of_string s).
Proof. intros. by apply plain_string, nj_utf8_ascii. Qed.

Lemma plain_s64 `{NlohmannLaws} z : in_s64 z → plain (nj_of_int z).
Proof. unfold in_s64. intros. apply plain_int. lia. Qed.

(** A literal object over plain fields is plain. *)
Ltac plain_list :=
  apply plain_fields; [distinct_keys|];
  repeat (apply Forall_cons; split; [split; [reflexivity|]|]); [..|apply Forall_nil; done];
  first [by apply plain_string | apply plain_ascii; auto with trading
        | by apply plain_s64].

(** ** A concrete library

    A value is a tree whose leaves are strings and numbers; an object is a node with
    alternating keys and values.  The text of a value is the binary form of its code. *)
Abbreviation demo_json := (gen_tree (string + Z)) (only parsing).

Fixpoint demo_pairs (l : list demo_json) : list (string * demo_json) :=
  match l with
  | GenLeaf (inl k) :: v :: l => (k, v) :: demo_pairs l
  | _ => []
  end.
Definition demo_fields (j : demo_json) : list (string * demo_json) :=
  match j with GenNode 0 l => demo_pairs l | _ => [] end.
Fixpoint demo_flatten (fields : list (string * demo_json)) : list demo_json :=
  match fields with
  | [] => []
  | (k, v) :: fields => GenLeaf (inl k) :: v :: demo_flatten fields
  end.
Definition demo_object (fields : list (string * demo_json)) : demo_json :=
  GenNode 0 (demo_flatten fields).
Fixpoint demo_find (fields : list (string * demo_json)) (k : string) : option demo_json :=
  match fields with
  | [] => None
  | (k', v) :: fields => if decide (k' = k) then Some v else demo_find fields k
  end.

Fixpoint demo_bits (p : positive) : string :=
  match p with
  | xH => ""
  | xO p => String "0"%char (demo_bits p)
  | xI p => String "1"%char (demo_bits p)
  end.
Fixpoint demo_unbits (s : string) : positive :=
  match s with
  | "" => xH
  | String c s => if decide (c = "0"%char) then xO (demo_unbits s) else xI (demo_unbits s)
  end.

#[export] Instance demo_nlohmann : Nlohmann := {|
  nj := gen_tree (string + Z);
  nj_parse text :=
    match decode (demo_unbits text) with Some j => Ok j | None => Err "parse_error" end;
  nj_dump j := Ok (demo_bits (encode j));
  nj_is_object j := match j with GenNode 0 _ => true | _ => false end;
  nj_find j k := demo_find (demo_fields j) k;
  nj_string j := match j with GenLeaf (inl s) => Some s | _ => None end;
  nj_integer j := match j with GenLeaf (inr z) => Some (s64 z) | _ => None end;
  nj_get_uint j := match j with GenLeaf (inr z) => Ok (u32 z) | _ => Err "type_error" end;
  nj_of_string s := GenLeaf (inl s);
  nj_of_int z := GenLeaf (inr z);
  nj_object := demo_object;
  nj_set j k v := demo_object ((k, v) :: demo_fields j);
  nj_utf8 _ := True;
|}.

#[export] Instance demo_nlohmann_document : @NlohmannDocument demo_nlohmann := {|
  nj_unsigned j :=
    match j with
    | GenLeaf (inr z) => if decide (in_u64 z) then Some z else None
    | _ => None
    end;
  nj_boolean j :=
    match j with GenNode 1 [] => Some false | GenNode 2 [] => Some true | _ => None end;
  nj_items j := match j with GenNode 3 l => Some l | _ => None end;
  nj_of_bool b := GenNode (if b then 2 else 1) [];
  nj_array l := GenNode 3 l;
|}.

Lemma demo_unbits_bits p : demo_unbits (demo_bits p) = p.
Proof. induction p as [p IH|p IH|]; simpl; by rewrite ?IH. Qed.

Lemma demo_parse_encode (j : demo_json) : nj_parse (demo_bits (encode j)) = Ok j.
Proof. simpl. by rewrite demo_unbits_bits, decode_encode. Qed.

Lemma demo_pairs_flatten fields : demo_pairs (demo_flatten fields) = fields.
Proof. induction fields as [|[k v] fields IH]; simpl; by rewrite ?IH. Qed.

Lemma demo_find_elem fields k v :
  NoDup fields.*1 → (k, v) ∈ fields → demo_find fields k = Some v.
Proof.
  induction fields as [|[k' v'] fields IH]; simpl; intros Hnd Hin; [by apply elem_of_nil in Hin|].
  apply NoDup_cons in Hnd as [Hnin Hnd]. apply elem_of_cons in Hin as [[= <- <-]|Hin].
  { by rewrite decide_True. }
  rewrite decide_False; [auto|]. intros ->. apply Hnin.
  apply list_elem_of_fmap. by exists (k, v).
Qed.

Lemma demo_find_none fields k : k ∉ fields.*1 → demo_find fields k = None.
Proof.
  induction fields as [|[k' v'] fields IH]; simpl; intros Hin; [done|].
  apply not_elem_of_cons in Hin as [? ?]. rewrite decide_False by congruence. auto.
Qed.

#[export] Instance demo_nlohmann_laws : @NlohmannLaws demo_nlohmann.
Proof.
  split; simpl; try done.
  - intros j _. eexists. split; [done|]. apply demo_parse_encode.
  - intros [[s|z']|n l] z; simpl; try done. intros [= <-]. apply s64_range.
  - intros [[s|z']|n l] z; simpl; try done. intros [= <-]. unfold u32.
    apply Z.mod_pos_bound. lia.
  - intros fields k v. rewrite demo_pairs_flatten. apply demo_find_elem.
  - intros fields k. rewrite demo_pairs_flatten. apply demo_find_none.
  - intros j k v _. by rewrite decide_True.
  - intros j k k' v _ Hne. rewrite decide_False by done. by rewrite demo_pairs_flatten.
Qed.

#[export] Instance demo_nlohmann_document_laws :
  @NlohmannDocumentLaws demo_nlohmann demo_nlohmann_document.
Proof.
  split; simpl.
  - intros z ?. by rewrite decide_True.
  - intros [[s|z']|n l] z; simpl; try done. case_decide; naive_solver.
  - by intros [].
  - done.
Qed.
