(* ===== verification/StringSearch.v ===== *)
(** * Searching in strings

    The operations of [std::string] and [std::string_view] the engine uses to take texts
    apart: [find], [rfind] of a character and [substr].  A position is a [nat] and
    [npos] is [None].  [find] is the Standard Library's [index], [substr] its
    [substring]; every [substr] of the sources starts inside the text, so it never
    throws. *)
From Stdlib Require Import Ascii.
From S2P Require Import Prelude.
Local Open Scope nat_scope.

(** [text.find(sub, pos)] *)
Definition find_from (text sub : string) (pos : nat) : option nat := String.index pos sub text.
Definition find (text sub : string) : option nat := find_from text sub 0.

(** [text.find(sub) != npos] *)
Definition contains (text sub : string) : bool :=
  match find text sub with Some _ => true | None => false end.

(** [text.rfind(character)] *)
Fixpoint rfind (text : string) (c : ascii) : option nat :=
  match text with
  | "" => None
  | String c' text =>
    match rfind text c with
    | Some n => Some (S n)
    | None => if decide (c' = c) then Some 0 else None
    end
  end.

(** [text.substr(pos, count)] and [text.substr(pos)] *)
Definition substr (text : string) (pos count : nat) : string := String.substring pos count text.
Definition substr_from (text : string) (pos : nat) : string :=
  substr text pos (String.length text - pos).

(** The character occurs in the text. *)
Fixpoint has_char (c : ascii) (text : string) : bool :=
  match text with
  | "" => false
  | String c' text => bool_decide (c' = c) || has_char c text
  end.

(** ** [append] *)
Lemma append_nil_r s : s +:+ "" = s.
Proof. induction s as [|c s IH]; [done|]. by rewrite <-IH at 2. Qed.

Lemma append_assoc s t u : (s +:+ t) +:+ u = s +:+ (t +:+ u).
Proof.
  induction s as [|c s IH]; [done|].
  change (String c ((s +:+ t) +:+ u) = String c (s +:+ (t +:+ u))). by rewrite IH.
Qed.

Lemma append_cons c s t : String c s +:+ t = String c (s +:+ t).
Proof. done. Qed.

Lemma length_append s t : String.length (s +:+ t) = String.length s + String.length t.
Proof.
  induction s as [|c s IH]; [done|]. rewrite append_cons. simpl. by rewrite IH.
Qed.

Lemma has_char_append c s t : has_char c (s +:+ t) = has_char c s || has_char c t.
Proof.
  induction s as [|c' s IH]; [done|]. rewrite append_cons. simpl. by rewrite IH, orb_assoc.
Qed.

(** ** [find] *)
Lemma prefix_append s t : String.prefix s (s +:+ t) = true.
Proof.
  induction s as [|c s IH]; [by destruct t|]. rewrite append_cons. simpl.
  by destruct (ascii_dec c c).
Qed.

Lemma prefix_split s t : String.prefix s t = true → ∃ u, t = s +:+ u.
Proof.
  revert t. induction s as [|c s IH]; intros t; [by exists t|].
  destruct t as [|c' t]; [done|]. simpl. destruct (ascii_dec c c') as [<-|]; [|done].
  intros [u ->]%IH. by exists u.
Qed.

(** A search that starts inside the text does not look at what is before. *)
Lemma find_skip s text sub pos :
  find_from (s +:+ text) sub (String.length s + pos) =
  (Nat.add (String.length s)) <$> find_from text sub pos.
Proof.
  unfold find_from. induction s as [|c s IH].
  - change ("" +:+ text) with text. simpl. by destruct (String.index pos sub text).
  - rewrite append_cons. simpl String.length. rewrite Nat.add_succ_l. simpl String.index.
    rewrite IH. by destruct (String.index pos sub text).
Qed.

Lemma find_start c sub text : find (String c sub +:+ text) (String c sub) = Some 0.
Proof.
  unfold find, find_from. rewrite append_cons. simpl.
  destruct (ascii_dec c c); [|done]. by rewrite prefix_append.
Qed.

(** The first occurrence, when no earlier character can start one. *)
Lemma find_first s c sub text :
  has_char c s = false → find (s +:+ String c sub +:+ text) (String c sub) = Some (String.length s).
Proof.
  induction s as [|c' s IH]; intros Hs; [by apply find_start|].
  simpl in Hs. apply orb_false_iff in Hs as [Hc Hs]. apply bool_decide_eq_false in Hc.
  specialize (IH Hs). unfold find, find_from in *. rewrite append_cons. simpl.
  destruct (ascii_dec c c'); [congruence|]. by rewrite IH.
Qed.

Lemma find_char_none c text : has_char c text = false → find text (String c "") = None.
Proof.
  induction text as [|c' text IH]; [done|]. intros Hs.
  simpl in Hs. apply orb_false_iff in Hs as [Hc Hs]. apply bool_decide_eq_false in Hc.
  specialize (IH Hs). unfold find, find_from in *. simpl.
  destruct (ascii_dec c c'); [congruence|]. by rewrite IH.
Qed.

Lemma contains_split text sub : contains text sub = true → ∃ a b, text = a +:+ sub +:+ b.
Proof.
  unfold contains, find, find_from. induction text as [|c text IH]; simpl.
  { destruct sub; [|done]. intros _. by exists "", "". }
  destruct sub as [|c' sub].
  { intros _. by exists "", (String c text). }
  destruct (ascii_dec c' c) as [<-|].
  - destruct (String.prefix sub text) eqn:Hp.
    { intros _. apply prefix_split in Hp as [u ->]. by exists "", u. }
    destruct (String.index 0 (String c' sub) text); [|done].
    intros (a & b & ->)%IH. by exists (String c' a), b.
  - destruct (String.index 0 (String c' sub) text); [|done].
    intros (a & b & ->)%IH. by exists (String c a), b.
Qed.

Lemma find_char_split c text n :
  find text (String c "") = Some n →
  ∃ a b, text = a +:+ String c b ∧ n = String.length a ∧ has_char c a = false.
Proof.
  unfold find, find_from. revert n. induction text as [|c' text IH]; intros n; [done|]. simpl.
  destruct (ascii_dec c c') as [<-|Hc].
  { assert (String.prefix "" text = true) as -> by by destruct text. intros [= <-].
    by exists "", text. }
  destruct (String.index 0 (String c "") text) as [m|]; [|done]. intros [= <-].
  destruct (IH m) as (a & b & -> & -> & Ha); [done|].
  exists (String c' a), b. split_and!; [done|done|]. simpl.
  rewrite bool_decide_false by congruence. done.
Qed.

(** ** [rfind] *)
Lemma rfind_none c text : has_char c text = false → rfind text c = None.
Proof.
  induction text as [|c' text IH]; simpl; [done|]. intros Hs.
  apply orb_false_iff in Hs as [Hc Hs]. apply bool_decide_eq_false in Hc.
  rewrite IH by done. by rewrite decide_False.
Qed.

Lemma rfind_last s c text :
  has_char c text = false → rfind (s +:+ String c text) c = Some (String.length s).
Proof.
  intros Hs. induction s as [|c' s IH].
  - change ("" +:+ String c text) with (String c text). simpl. rewrite rfind_none by done.
    by rewrite decide_True.
  - rewrite append_cons. simpl. by rewrite IH.
Qed.

(** ** [substr] *)
Lemma substr_skip s text pos count :
  substr (s +:+ text) (String.length s + pos) count = substr text pos count.
Proof. unfold substr. induction s as [|c s IH]; [done|]. exact IH. Qed.

Lemma substr_prefix s text : substr (s +:+ text) 0 (String.length s) = s.
Proof.
  unfold substr. induction s as [|c s IH]; [by destruct text|].
  rewrite append_cons. simpl. by rewrite IH.
Qed.

Lemma substr_all text : substr text 0 (String.length text) = text.
Proof. rewrite <-(append_nil_r text) at 1. apply substr_prefix. Qed.

Lemma substr_from_skip s text : substr_from (s +:+ text) (String.length s) = text.
Proof.
  unfold substr_from. rewrite length_append.
  replace (String.length s + String.length text - String.length s) with (String.length text) by lia.
  rewrite <-(Nat.add_0_r (String.length s)) at 1. rewrite substr_skip. apply substr_all.
Qed.

Lemma get_skip s text n : String.get (String.length s + n) (s +:+ text) = String.get n text.
Proof. induction s as [|c s IH]; [done|]. exact IH. Qed.

Lemma get_append s t : s ≠ "" → String.get 0 (s +:+ t) = String.get 0 s.
Proof. by destruct s. Qed.
