(* ===== verification/OmsAdapter.v ===== *)
(** * The Kalshi order adapter

    Model of src/cpp/src/adapters/exchanges/kalshi/oms_adapter.cpp: order intents are
    written as JSON requests, and the JSON messages of the exchange are read as order
    state updates.  The adapter has no state.  The class [ExchangeOmsAdapter] is the
    interface IExchangeOmsAdapter of the order manager; its Kalshi instance is at the end
    of the definitions.  A thrown exception is [Err], and the [catch (...)] of
    [parse_update] turns it into [kInvalidJson]. *)
From S2P Require Import Prelude.
From S2P Require Import Types.
From S2P Require Import Nlohmann.

(** ** oms/parse_result.hpp *)
Inductive OmsParseError :=
  | OmsParse_kNone | OmsParse_kInvalidJson | OmsParse_kMissingField | OmsParse_kInvalidField
  | OmsParse_kUnsupportedMessageType.

Inductive OmsParseResult :=
  | oms_success (u : OrderStateUpdate)
  | oms_failure (e : OmsParseError).

(** ** oms/exchange_adapter.hpp *)
Class ExchangeOmsAdapter := {
  adapter_supports : OrderIntent → bool;
  adapter_build_request : OrderIntent → outcome string;
  adapter_parse_update : string → OmsParseResult;
}.

(** ** Names of the wire format *)
Definition action_to_string (action : OmsAction) : string :=
  match action with
  | OmsAction_kPlace => "place_order"
  | OmsAction_kCancel => "cancel_order"
  | OmsAction_kReplace => "replace_order"
  | OmsAction_kUnknown => "unknown"
  end.

Definition side_to_string (side : Side) : string :=
  match side with
  | Side_kBuy => "buy"
  | Side_kSell => "sell"
  | Side_kBid => "bid"
  | Side_kAsk => "ask"
  | Side_kUnknown => "unknown"
  end.

Definition side_from_string (side : string) : option Side :=
  if decide (side = "buy") then Some Side_kBuy
  else if decide (side = "sell") then Some Side_kSell
  else if decide (side = "bid") then Some Side_kBid
  else if decide (side = "ask") then Some Side_kAsk
  else None.

Definition tif_to_string (tif : OmsTimeInForce) : string :=
  match tif with
  | OmsTimeInForce_kGtc => "gtc"
  | OmsTimeInForce_kIoc => "ioc"
  | OmsTimeInForce_kFok => "fok"
  | OmsTimeInForce_kUnknown => "unknown"
  end.

Lemma action_ascii action : ascii_only (action_to_string action) = true.
Proof. by destruct action. Qed.
Lemma side_ascii side : ascii_only (side_to_string side) = true.
Proof. by destruct side. Qed.
Lemma tif_ascii tif : ascii_only (tif_to_string tif) = true.
Proof. by destruct tif. Qed.

#[export] Hint Resolve action_ascii side_ascii tif_ascii : trading.

Section adapter.
Context `{Nlohmann}.

(** ** Reading fields *)
Definition try_get_string (object : nj) (key : string) : option string :=
  match nj_find object key with
  | None => None
  | Some field => nj_string field
  end.

Definition try_get_qty (object : nj) (key : string) : option QtyLots :=
  match nj_find object key with
  | None => None
  | Some field => nj_integer field
  end.

Definition try_get_price (object : nj) (key : string) : option PriceTicks :=
  match nj_find object key with
  | None => None
  | Some field => nj_integer field
  end.

Definition try_get_side (object : nj) (key : string) : option Side :=
  match try_get_string object key with
  | None => None
  | Some side_value => side_from_string side_value
  end.

(** [root.value("recv_ts_ns", 0U)]: the type of the default makes it an [unsigned int]. *)
Definition recv_ts_of (root : nj) : outcome TimestampNs :=
  match nj_find root "recv_ts_ns" with
  | None => Ok 0
  | Some field => nj_get_uint field
  end.

(** ** Incoming messages *)
Definition parse_ack (root message : nj) (raw_payload : string) : outcome OmsParseResult :=
  match try_get_string message "client_order_id", try_get_string message "market_ticker",
        try_get_qty message "accepted_qty" with
  | Some client_order_id, Some market_ticker, Some accepted_qty =>
    match recv_ts_of root with
    | Err what => Err what
    | Ok recv_ts_ns =>
      let exchange_order_id := try_get_string message "exchange_order_id" in
      Ok (oms_success
        (mkOrderStateUpdate ExchangeId_kKalshi OmsOrderStatus_kAccepted client_order_id
           exchange_order_id market_ticker recv_ts_ns
           (OmsUpdateData_Ack
              (mkOrderAck client_order_id exchange_order_id market_ticker accepted_qty))
           raw_payload))
    end
  | _, _, _ => Ok (oms_failure OmsParse_kMissingField)
  end.

Definition parse_reject (root message : nj) (raw_payload : string) : outcome OmsParseResult :=
  match try_get_string message "client_order_id", try_get_string message "reason_code" with
  | Some client_order_id, Some reason_code =>
    let reason_message := default "unspecified" (try_get_string message "reason_message") in
    match recv_ts_of root with
    | Err what => Err what
    | Ok recv_ts_ns =>
      let exchange_order_id := try_get_string message "exchange_order_id" in
      Ok (oms_success
        (mkOrderStateUpdate ExchangeId_kKalshi OmsOrderStatus_kRejected client_order_id
           exchange_order_id (default "" (try_get_string message "market_ticker")) recv_ts_ns
           (OmsUpdateData_Reject
              (mkOrderReject client_order_id exchange_order_id reason_code reason_message))
           raw_payload))
    end
  | _, _ => Ok (oms_failure OmsParse_kMissingField)
  end.

Definition parse_fill (root message : nj) (raw_payload : string) : outcome OmsParseResult :=
  match try_get_string message "client_order_id", try_get_string message "market_ticker",
        try_get_qty message "fill_qty", try_get_price message "fill_price" with
  | Some client_order_id, Some market_ticker, Some fill_qty, Some fill_price =>
    match recv_ts_of root with
    | Err what => Err what
    | Ok recv_ts_ns =>
      let exchange_order_id := try_get_string message "exchange_order_id" in
      Ok (oms_success
        (mkOrderStateUpdate ExchangeId_kKalshi OmsOrderStatus_kFilled client_order_id
           exchange_order_id market_ticker recv_ts_ns
           (OmsUpdateData_Fill
              (mkOrderFill client_order_id exchange_order_id market_ticker fill_qty fill_price
                 (default Side_kUnknown (try_get_side message "side")) OmsLiquidity_kUnknown))
           raw_payload))
    end
  | _, _, _, _ => Ok (oms_failure OmsParse_kMissingField)
  end.

(** The body of the [try] block of [parse_update]. *)
Definition parse_update_body (payload : string) : outcome OmsParseResult :=
  match nj_parse payload with
  | Err what => Err what
  | Ok root =>
    if negb (nj_is_object root) then Ok (oms_failure OmsParse_kInvalidJson)
    else
      match try_get_string root "type", nj_find root "msg" with
      | Some type, Some message =>
        if negb (nj_is_object message) then Ok (oms_failure OmsParse_kMissingField)
        else if decide (type = "order_ack") then parse_ack root message payload
        else if decide (type = "order_reject") then parse_reject root message payload
        else if decide (type = "fill") then parse_fill root message payload
        else Ok (oms_failure OmsParse_kUnsupportedMessageType)
      | _, _ => Ok (oms_failure OmsParse_kMissingField)
      end
  end.

Definition parse_update (payload : string) : OmsParseResult :=
  match parse_update_body payload with
  | Ok result => result
  | Err _ => oms_failure OmsParse_kInvalidJson
  end.

(** ** Outgoing requests *)
Definition supports (intent : OrderIntent) : bool :=
  bool_decide (oi_exchange intent = ExchangeId_kKalshi) &&
  negb (bool_decide (oi_action intent = OmsAction_kUnknown)).

(** [if (value.has_value()) payload\[key\] = *value;] *)
Definition set_optional (payload : nj) (key : string) (value : option string) : nj :=
  match value with
  | Some s => nj_set payload key (nj_of_string s)
  | None => payload
  end.

Definition build_place_request (intent : OrderIntent) : outcome string :=
  match oi_limit_price_ticks intent with
  | Some limit_price =>
    if decide (oi_client_order_id intent = "" ∨ oi_market_ticker intent = "" ∨
               oi_qty_lots intent ≤ 0 ∨ oi_side intent = Side_kUnknown)
    then Err "Invalid place intent"
    else
      nj_dump (nj_object
        [("action", nj_of_string (action_to_string (oi_action intent)));
         ("client_order_id", nj_of_string (oi_client_order_id intent));
         ("market_ticker", nj_of_string (oi_market_ticker intent));
         ("side", nj_of_string (side_to_string (oi_side intent)));
         ("qty", nj_of_int (oi_qty_lots intent));
         ("limit_price", nj_of_int limit_price);
         ("time_in_force", nj_of_string (tif_to_string (oi_time_in_force intent)))])
  | None => Err "Invalid place intent"
  end.

Definition build_cancel_request (intent : OrderIntent) : outcome string :=
  if decide (oi_client_order_id intent = "" ∧ oi_target_client_order_id intent = None ∧
             oi_target_exchange_order_id intent = None)
  then Err "Invalid cancel intent"
  else
    let payload := nj_object
      [("action", nj_of_string (action_to_string (oi_action intent)));
       ("client_order_id", nj_of_string (oi_client_order_id intent))] in
    let payload :=
      set_optional payload "target_client_order_id" (oi_target_client_order_id intent) in
    let payload :=
      set_optional payload "target_exchange_order_id" (oi_target_exchange_order_id intent) in
    nj_dump payload.

Definition build_replace_request (intent : OrderIntent) : outcome string :=
  if decide (oi_target_client_order_id intent = None ∧
             oi_target_exchange_order_id intent = None)
  then Err "Invalid replace intent"
  else
    match oi_limit_price_ticks intent with
    | Some limit_price =>
      if decide (oi_client_order_id intent = "" ∨ oi_qty_lots intent ≤ 0)
      then Err "Invalid replace intent payload"
      else
        let payload := nj_object
          [("action", nj_of_string (action_to_string (oi_action intent)));
           ("client_order_id", nj_of_string (oi_client_order_id intent));
           ("qty", nj_of_int (oi_qty_lots intent));
           ("limit_price", nj_of_int limit_price)] in
        let payload :=
          set_optional payload "target_client_order_id" (oi_target_client_order_id intent) in
        let payload :=
          set_optional payload "target_exchange_order_id"
            (oi_target_exchange_order_id intent) in
        nj_dump payload
    | None => Err "Invalid replace intent payload"
    end.

Definition build_request (intent : OrderIntent) : outcome string :=
  if negb (supports intent)
  then Err "Kalshi OmsAdapter does not support this order intent"
  else
    match oi_action intent with
    | OmsAction_kPlace => build_place_request intent
    | OmsAction_kCancel => build_cancel_request intent
    | OmsAction_kReplace => build_replace_request intent
    | OmsAction_kUnknown => Err "Unknown OMS action"
    end.

#[export] Instance kalshi_adapter : ExchangeOmsAdapter := {|
  adapter_supports := supports;
  adapter_build_request := build_request;
  adapter_parse_update := parse_update;
|}.

(** ** What a request must say *)

(** The intents the adapter can write. *)
Definition writable (intent : OrderIntent) : Prop :=
  supports intent = true ∧
  match oi_action intent with
  | OmsAction_kPlace =>
    oi_client_order_id intent ≠ "" ∧ oi_market_ticker intent ≠ "" ∧ 0 < oi_qty_lots intent ∧
    oi_side intent ≠ Side_kUnknown ∧ is_Some (oi_limit_price_ticks intent)
  | OmsAction_kCancel =>
    oi_client_order_id intent ≠ "" ∨ is_Some (oi_target_client_order_id intent) ∨
    is_Some (oi_target_exchange_order_id intent)
  | OmsAction_kReplace =>
    (is_Some (oi_target_client_order_id intent) ∨ is_Some (oi_target_exchange_order_id intent)) ∧
    oi_client_order_id intent ≠ "" ∧ 0 < oi_qty_lots intent ∧
    is_Some (oi_limit_price_ticks intent)
  | OmsAction_kUnknown => False
  end.

#[export] Instance writable_dec intent : Decision (writable intent).
Proof. unfold writable. destruct (oi_action intent); apply _. Defined.

(** The texts of the intent are UTF-8 and its numbers fit [std::int64_t]. *)
Definition encodable (intent : OrderIntent) : Prop :=
  nj_utf8 (oi_client_order_id intent) ∧ nj_utf8 (oi_market_ticker intent) ∧
  (∀ s, oi_target_client_order_id intent = Some s → nj_utf8 s) ∧
  (∀ s, oi_target_exchange_order_id intent = Some s → nj_utf8 s) ∧
  in_s64 (oi_qty_lots intent) ∧
  (∀ p, oi_limit_price_ticks intent = Some p → in_s64 p).

(** The request read back field by field. *)
Definition says (request : nj) (intent : OrderIntent) : Prop :=
  nj_is_object request = true ∧
  try_get_string request "action" = Some (action_to_string (oi_action intent)) ∧
  try_get_string request "client_order_id" = Some (oi_client_order_id intent) ∧
  match oi_action intent with
  | OmsAction_kPlace =>
    try_get_string request "market_ticker" = Some (oi_market_ticker intent) ∧
    try_get_side request "side" = Some (oi_side intent) ∧
    try_get_qty request "qty" = Some (oi_qty_lots intent) ∧
    try_get_price request "limit_price" = oi_limit_price_ticks intent ∧
    try_get_string request "time_in_force" = Some (tif_to_string (oi_time_in_force intent))
  | OmsAction_kCancel =>
    try_get_string request "market_ticker" = None ∧
    try_get_string request "target_client_order_id" = oi_target_client_order_id intent ∧
    try_get_string request "target_exchange_order_id" = oi_target_exchange_order_id intent
  | OmsAction_kReplace =>
    try_get_string request "market_ticker" = None ∧
    try_get_qty request "qty" = Some (oi_qty_lots intent) ∧
    try_get_price request "limit_price" = oi_limit_price_ticks intent ∧
    try_get_string request "target_client_order_id" = oi_target_client_order_id intent ∧
    try_get_string request "target_exchange_order_id" = oi_target_exchange_order_id intent
  | OmsAction_kUnknown => False
  end.

(** An update that carries what its status announces, consistently. *)
Definition update_consistent (payload : string) (u : OrderStateUpdate) : Prop :=
  ou_exchange u = ExchangeId_kKalshi ∧ ou_raw_payload u = payload ∧
  0 ≤ ou_recv_ts_ns u < 4294967296 ∧
  match ou_data u with
  | OmsUpdateData_Ack a =>
    ou_status u = OmsOrderStatus_kAccepted ∧ oa_client_order_id a = ou_client_order_id u ∧
    oa_exchange_order_id a = ou_exchange_order_id u ∧
    oa_market_ticker a = ou_market_ticker u ∧ in_s64 (oa_accepted_qty_lots a)
  | OmsUpdateData_Reject r =>
    ou_status u = OmsOrderStatus_kRejected ∧ or_client_order_id r = ou_client_order_id u ∧
    or_exchange_order_id r = ou_exchange_order_id u
  | OmsUpdateData_Fill f =>
    ou_status u = OmsOrderStatus_kFilled ∧ of_client_order_id f = ou_client_order_id u ∧
    of_exchange_order_id f = ou_exchange_order_id u ∧
    of_market_ticker f = ou_market_ticker u ∧ in_s64 (of_fill_qty_lots f) ∧
    in_s64 (of_fill_price_ticks f)
  | OmsUpdateData_monostate => False
  end.

Context `{!NlohmannLaws}.

Lemma recv_ts_of_typed root z : recv_ts_of root = Ok z → 0 ≤ z < 4294967296.
Proof.
  unfold recv_ts_of. destruct (nj_find root "recv_ts_ns"); [apply nj_get_uint_typed|].
  intros [= <-]. lia.
Qed.

Lemma try_get_qty_typed o k z : try_get_qty o k = Some z → in_s64 z.
Proof. unfold try_get_qty. destruct (nj_find o k); [apply nj_integer_typed|done]. Qed.

Lemma side_roundtrip side : side ≠ Side_kUnknown → side_from_string (side_to_string side) = Some side.
Proof. by destruct side. Qed.

(** ** Fields of built objects *)
Lemma field_string fields k s :
  NoDup fields.*1 → (k, nj_of_string s) ∈ fields →
  try_get_string (nj_object fields) k = Some s.
Proof.
  intros Hnd Hin. unfold try_get_string. rewrite (nj_find_object _ _ _ Hnd Hin).
  apply nj_string_of.
Qed.

Lemma field_int fields k z :
  NoDup fields.*1 → in_s64 z → (k, nj_of_int z) ∈ fields →
  try_get_qty (nj_object fields) k = Some z.
Proof.
  intros Hnd Hz Hin. unfold try_get_qty. rewrite (nj_find_object _ _ _ Hnd Hin).
  rewrite nj_integer_of by (unfold in_s64 in Hz; lia). by rewrite s64_small.
Qed.

Lemma find_set_optional j k k' v :
  nj_is_object j = true → k ≠ k' → nj_find (set_optional j k v) k' = nj_find j k'.
Proof. intros Hj Hne. destruct v; simpl; [by apply nj_find_set_ne|done]. Qed.

Lemma get_set_optional j k v :
  nj_is_object j = true → nj_find j k = None → try_get_string (set_optional j k v) k = v.
Proof.
  intros Hj Hn. unfold try_get_string. destruct v; simpl; [|by rewrite Hn].
  rewrite nj_find_set by done. apply nj_string_of.
Qed.

Lemma set_optional_is j k v :
  nj_is_object j = true → nj_is_object (set_optional j k v) = true.
Proof. intros Hj. destruct v; simpl; [by apply nj_set_is|done]. Qed.

Lemma set_optional_plain j k v :
  plain j → nj_is_object j = true → ascii_only k = true → (∀ s, v = Some s → nj_utf8 s) →
  plain (set_optional j k v).
Proof.
  intros Hp Hj Hk Hv. destruct v as [s|]; simpl; [|done].
  apply plain_set; [done..|by apply nj_utf8_ascii|]. by apply plain_string, Hv.
Qed.

(** The two optional target ids of a cancel or replace request, over the base fields. *)
Definition with_targets (base : nj) (intent : OrderIntent) : nj :=
  set_optional (set_optional base "target_client_order_id" (oi_target_client_order_id intent))
    "target_exchange_order_id" (oi_target_exchange_order_id intent).

Lemma with_targets_spec fields intent :
  encodable intent → plain (nj_object fields) →
  "target_client_order_id" ∉ fields.*1 → "target_exchange_order_id" ∉ fields.*1 →
  let j := with_targets (nj_object fields) intent in
  plain j ∧ nj_is_object j = true ∧
  (∀ k, k ≠ "target_client_order_id" → k ≠ "target_exchange_order_id" →
        nj_find j k = nj_find (nj_object fields) k) ∧
  try_get_string j "target_client_order_id" = oi_target_client_order_id intent ∧
  try_get_string j "target_exchange_order_id" = oi_target_exchange_order_id intent.
Proof.
  intros (_ & _ & Hc & He & _) Hp Hn1 Hn2 j. unfold j, with_targets.
  pose proof (nj_object_is fields) as Ho.
  set (j1 := set_optional (nj_object fields) "target_client_order_id" _).
  assert (nj_is_object j1 = true) as Ho1 by by apply set_optional_is.
  split_and!.
  - apply set_optional_plain; try done. by apply set_optional_plain.
  - by apply set_optional_is.
  - intros k Hk1 Hk2. rewrite find_set_optional by done. by apply find_set_optional.
  - unfold try_get_string. rewrite find_set_optional by done.
    apply (get_set_optional _ "target_client_order_id"); [done|by apply nj_find_object_none].
  - apply get_set_optional; [done|]. unfold j1. rewrite find_set_optional by done.
    by apply nj_find_object_none.
Qed.

(** A request text: it parses back to an object that says what the intent asks. *)
Definition written (intent : OrderIntent) (r : outcome string) : Prop :=
  ∃ text request, r = Ok text ∧ nj_parse text = Ok request ∧ says request intent.

Lemma written_dump intent j :
  plain j → says j intent → written intent (nj_dump j).
Proof.
  intros Hp Hs. destruct (nj_roundtrip j Hp) as (text & Hd & Hparse). by exists text, j.
Qed.

Lemma place_written intent :
  encodable intent → writable intent → oi_action intent = OmsAction_kPlace →
  written intent (build_place_request intent).
Proof.
  intros (Hc & Hm & _ & _ & Hq & Hp) [_ Hw] Ha. rewrite Ha in Hw.
  destruct Hw as (Hcid & Hmkt & Hqty & Hside & [p Hpr]).
  unfold build_place_request. rewrite Hpr. rewrite decide_False by (intros [?|[?|[?|?]]]; (done || lia)).
  specialize (Hp p Hpr). apply written_dump; [by plain_list|].
  unfold says. rewrite Ha. unfold try_get_side, try_get_price.
  split_and!; try (apply field_string; [distinct_keys|rewrite ?Ha; field_in_list; fail]).
  - apply nj_object_is.
  - rewrite (field_string _ "side" (side_to_string (oi_side intent)));
      [by apply side_roundtrip|distinct_keys|field_in_list].
  - apply field_int; [distinct_keys|done|field_in_list].
  - rewrite Hpr. apply field_int; [distinct_keys|done|field_in_list].
Qed.

(** Reading a base field through the optional target ids. *)
Lemma targets_string j fields k s :
  nj_find j k = nj_find (nj_object fields) k →
  NoDup fields.*1 → (k, nj_of_string s) ∈ fields → try_get_string j k = Some s.
Proof. intros Hj Hnd Hin. unfold try_get_string. rewrite Hj. by apply (field_string fields). Qed.

Lemma targets_int j fields k z :
  nj_find j k = nj_find (nj_object fields) k →
  NoDup fields.*1 → in_s64 z → (k, nj_of_int z) ∈ fields → try_get_qty j k = Some z.
Proof. intros Hj Hnd Hz Hin. unfold try_get_qty. rewrite Hj. by apply (field_int fields). Qed.

Lemma targets_none j fields k :
  nj_find j k = nj_find (nj_object fields) k → k ∉ fields.*1 → try_get_string j k = None.
Proof. intros Hj Hin. unfold try_get_string. by rewrite Hj, nj_find_object_none. Qed.

Ltac read_target Hf Ha :=
  first [eapply targets_string; [by apply Hf|distinct_keys|rewrite ?Ha; field_in_list; fail]
        |eapply targets_int; [by apply Hf|distinct_keys|done|field_in_list; fail]
        |eapply targets_none; [by apply Hf|apply (bool_decide_unpack _); vm_compute; exact I]].

Lemma cancel_written intent :
  encodable intent → writable intent → oi_action intent = OmsAction_kCancel →
  written intent (build_cancel_request intent).
Proof.
  intros Henc [_ Hw] Ha. rewrite Ha in Hw. unfold build_cancel_request.
  rewrite decide_False by (unfold is_Some in Hw; naive_solver).
  pose proof Henc as (Hc & _). cbv zeta. rewrite Ha.
  match goal with |- written _ (nj_dump (set_optional (set_optional (nj_object ?l) _ _) _ _)) =>
    destruct (with_targets_spec l intent) as (Hp & Ho & Hf & Ht1 & Ht2) end;
    [done|by plain_list|apply (bool_decide_unpack _); vm_compute; exact I..|].
  apply written_dump; [done|]. unfold says. rewrite Ha.
  split_and!; [done|..|done|done]; read_target Hf Ha.
Qed.

Lemma replace_written intent :
  encodable intent → writable intent → oi_action intent = OmsAction_kReplace →
  written intent (build_replace_request intent).
Proof.
  intros Henc [_ Hw] Ha. rewrite Ha in Hw. destruct Hw as (Htgt & Hcid & Hqty & [p Hpr]).
  unfold build_replace_request. rewrite decide_False by (unfold is_Some in Htgt; naive_solver).
  rewrite Hpr, decide_False by (intros [?|?]; (done || lia)).
  pose proof Henc as (Hc & _ & _ & _ & Hq & Hp). specialize (Hp p Hpr). cbv zeta. rewrite Ha.
  match goal with |- written _ (nj_dump (set_optional (set_optional (nj_object ?l) _ _) _ _)) =>
    destruct (with_targets_spec l intent) as (Hpl & Ho & Hf & Ht1 & Ht2) end;
    [done|by plain_list|apply (bool_decide_unpack _); vm_compute; exact I..|].
  apply written_dump; [done|]. unfold says, try_get_price. rewrite Ha, Hpr.
  split_and!; [done|..|done|done]; read_target Hf Ha.
Qed.

Lemma not_writable_fails intent :
  ¬ writable intent → ∃ msg, build_request intent = Err msg.
Proof.
  intros Hw. unfold build_request. destruct (supports intent) eqn:Hs; simpl; [|by eexists].
  unfold writable in Hw. destruct (oi_action intent); [by eexists|..];
    unfold build_place_request, build_cancel_request, build_replace_request;
    destruct (oi_limit_price_ticks intent) as [p|]; try by eexists.
  - case_decide as Hd; [by eexists|]. destruct Hw. split; [done|]. split_and!; [tauto..|lia|tauto|done].
  - case_decide as Hd; [by eexists|]. destruct Hw. split; [done|].
    destruct (oi_target_client_order_id intent), (oi_target_exchange_order_id intent); naive_solver.
  - case_decide as Hd; [by eexists|]. destruct Hw. split; [done|].
    destruct (oi_target_client_order_id intent), (oi_target_exchange_order_id intent); naive_solver.
  - case_decide as Hd; [by eexists|]. case_decide as Hd2; [by eexists|]. destruct Hw. split; [done|].
    split_and!; [|tauto|lia|done].
    destruct (oi_target_client_order_id intent), (oi_target_exchange_order_id intent); naive_solver.
  - case_decide; by eexists.
Qed.

Lemma build_request_written intent :
  encodable intent → writable intent → written intent (build_request intent).
Proof.
  intros Henc Hw. pose proof Hw as [Hs Ha]. unfold build_request. rewrite Hs. simpl.
  destruct (oi_action intent) eqn:Hact; [done|..];
    [by apply place_written|by apply cancel_written|by apply replace_written].
Qed.

(** C26: the adapter writes exactly the intents it can express.  For an intent with a
    supported action and the fields this action needs, [build_request] returns a text that
    parses back to an object saying exactly what the intent asks, field by field; for any
    other intent it throws and no text is produced. *)
Theorem request_roundtrip intent :
  encodable intent →
  (writable intent →
   ∃ text request, build_request intent = Ok text ∧ nj_parse text = Ok request ∧
                   says request intent) ∧
  (¬ writable intent → ∃ msg, build_request intent = Err msg).
Proof.
  intros Henc. split; [|apply not_writable_fails].
  intros Hw. exact (build_request_written intent Henc Hw).
Qed.

Lemma parse_update_inv payload u :
  parse_update payload = oms_success u →
  ∃ root message, nj_parse payload = Ok root ∧
    (parse_ack root message payload = Ok (oms_success u) ∨
     parse_reject root message payload = Ok (oms_success u) ∨
     parse_fill root message payload = Ok (oms_success u)).
Proof.
  unfold parse_update. destruct (parse_update_body payload) as [r|] eqn:Hb; [|done].
  intros ->. revert Hb. unfold parse_update_body.
  destruct (nj_parse payload) as [root|]; [|done]. destruct (nj_is_object root); [|done]. simpl.
  destruct (try_get_string root "type"), (nj_find root "msg") as [message|]; try done.
  destruct (nj_is_object message); [|done]. simpl. intros Hb. exists root, message.
  split; [done|]. repeat case_decide; auto. done.
Qed.

(** C36: an update read from the exchange is consistent: it is a Kalshi update carrying the
    payload it came from, its status is the one its data announces (accepted with an
    acknowledgement, rejected with a reason, filled with a fill), the ids and the market
    inside the data are those of the update, and its numbers fit their types; the receive
    time, read with the type of the default value, never exceeds 32 bits. *)
Theorem parsed_update_consistent payload u :
  parse_update payload = oms_success u → update_consistent payload u.
Proof.
  intros (root & message & _ & Hcase)%parse_update_inv. unfold update_consistent.
  destruct Hcase as [Hp|[Hp|Hp]]; revert Hp;
    [unfold parse_ack|unfold parse_reject|unfold parse_fill]; intros Hp;
    repeat case_match; simplify_eq/=; split_and!; try done;
    eauto using recv_ts_of_typed, try_get_qty_typed;
    by eapply recv_ts_of_typed.
Qed.

End adapter.

Lemma request_roundtrip_witness :
  ∃ text request,
    build_request (demo_intent Side_kBuy 5) = Ok text ∧ nj_parse text = Ok request ∧
    says request (demo_intent Side_kBuy 5).
Proof.
  apply (request_roundtrip (demo_intent Side_kBuy 5)).
  - split_and!; try done; intros ? [= <-]; done.
  - split; [done|]. simpl. by split_and!.
Defined.

(** The text of an acknowledgement. *)
Definition demo_ack_text : string :=
  match nj_dump (nj_object
    [("type", nj_of_string "order_ack"); ("recv_ts_ns", nj_of_int 4294967301);
     ("msg", nj_object
        [("client_order_id", nj_of_string "c1"); ("exchange_order_id", nj_of_string "ex-1");
         ("market_ticker", nj_of_string "MKT"); ("accepted_qty", nj_of_int 5)])]) with
  | Ok text => text
  | Err _ => ""
  end.

Definition demo_ack : OrderStateUpdate :=
  mkOrderStateUpdate ExchangeId_kKalshi OmsOrderStatus_kAccepted "c1" (Some "ex-1") "MKT" 5
    (OmsUpdateData_Ack (mkOrderAck "c1" (Some "ex-1") "MKT" 5)) demo_ack_text.

Lemma parsed_update_consistent_witness :
  parse_update demo_ack_text = oms_success demo_ack ∧ update_consistent demo_ack_text demo_ack.
Proof.
  assert (parse_update demo_ack_text = oms_success demo_ack) as Hp by (vm_compute; reflexivity).
  split; [exact Hp|]. exact (parsed_update_consistent demo_ack_text demo_ack Hp).
Defined.
