(* ===== verification/OrderTransport.v ===== *)
(** * Order transports

    The class [OrderTransport] is the interface IOrderTransport
    (src/cpp/include/trading/oms/transport.hpp) the order manager talks to.  The file
    models its two implementations: the paper transport of
    src/cpp/src/oms/paper_order_transport.cpp, which acknowledges and fills place requests
    itself, and the WebSocket transport of src/cpp/src/oms/ws_order_transport.cpp, which
    forwards every call.  The paper transport's mutex makes each of its calls atomic.
    [send_text] may throw (through [dump]); its result is an [outcome]. *)
From stdpp Require Import pretty.
From S2P Require Import Prelude.
From S2P Require Import Types.
From S2P Require Import Nlohmann.
From S2P Require Import OmsAdapter.

(** ** oms/transport.hpp *)
Record OrderTransportConfig := mkOrderTransportConfig {
  tc_endpoint : string;
  tc_headers : gmap string string;
}.

Class OrderTransport (T : Type) := {
  transport_connect : T → OrderTransportConfig → T * bool;
  transport_send_text : T → string → T * outcome bool;
  transport_recv_text : T → T * option string;
  transport_close : T → T;
  transport_last_error : T → string;
}.

(** ** oms/ws_order_transport.cpp, over the interface of adapters/ws/client.hpp *)
Record WsTransportConfig := mkWsTransportConfig {
  wc_endpoint : string;
  wc_headers : gmap string string;
}.

Class WsTransport (W : Type) := {
  ws_connect : W → WsTransportConfig → W * bool;
  ws_send_text : W → string → W * bool;
  ws_recv_text : W → W * option string;
  ws_close : W → W;
  ws_last_error : W → string;
}.

Definition ws_order_connect `{WsTransport W} (w : W) (config : OrderTransportConfig)
    : W * bool :=
  ws_connect w (mkWsTransportConfig (tc_endpoint config) (tc_headers config)).

#[export] Instance ws_order_transport `{WsTransport W} : OrderTransport W := {|
  transport_connect := ws_order_connect;
  transport_send_text w payload := let '(w, sent) := ws_send_text w payload in (w, Ok sent);
  transport_recv_text := ws_recv_text;
  transport_close := ws_close;
  transport_last_error := ws_last_error;
|}.

(** ** oms/paper_order_transport *)
Inductive PaperErrorCode :=
  | Paper_kNone | Paper_kNotConnected | Paper_kInvalidPayload | Paper_kInvalidRequest
  | Paper_kUnknownAction.

Record PaperOrderTransport := mkPaperOrderTransport {
  pt_auto_fill_on_place : bool;
  pt_connected : bool;
  pt_next_recv_ts_ns : Z;
  pt_next_exchange_order_id : Z;
  pt_inbound_updates : list string;
  pt_last_error_code : PaperErrorCode;
}.

#[export] Instance PaperOrderTransport_settable : Settable PaperOrderTransport := λ x,
  mkPaperOrderTransport (pt_auto_fill_on_place x) (pt_connected x) (pt_next_recv_ts_ns x)
    (pt_next_exchange_order_id x) (pt_inbound_updates x) (pt_last_error_code x).

Definition paper_init (auto_fill_on_place : bool) : PaperOrderTransport :=
  mkPaperOrderTransport auto_fill_on_place false 1 1 [] Paper_kNone.

Definition paper_connect (t : PaperOrderTransport) (config : OrderTransportConfig)
    : PaperOrderTransport * bool :=
  (t <| pt_connected := true |> <| pt_last_error_code := Paper_kNone |>, true).

Definition paper_fail (t : PaperOrderTransport) (error_code : PaperErrorCode)
    : PaperOrderTransport * outcome bool :=
  (t <| pt_last_error_code := error_code |>, Ok false).

(** ["paper-ex-" + std::to_string(id)] *)
Definition paper_exchange_order_id (id : Z) : string :=
  ("paper-ex-" +:+ pretty (Z.to_N id))%string.

Section paper.
Context `{Nlohmann}.

(** [inbound_updates_.push_back(json{{"type", type}, {"recv_ts_ns", next_recv_ts_ns_++},
    {"msg", msg}}.dump())] *)
Definition push_update (t : PaperOrderTransport) (type : string) (msg : nj)
    : PaperOrderTransport * outcome unit :=
  let recv_ts_ns := pt_next_recv_ts_ns t in
  let t := t <| pt_next_recv_ts_ns ::= u64_inc |> in
  match nj_dump (nj_object [("type", nj_of_string type); ("recv_ts_ns", nj_of_int recv_ts_ns);
                            ("msg", msg)]) with
  | Err what => (t, Err what)
  | Ok text => (t <| pt_inbound_updates ::= λ q, q ++ [text] |>, Ok tt)
  end.

(** The last statements of both branches: the error code is cleared. *)
Definition paper_done (r : PaperOrderTransport * outcome unit)
    : PaperOrderTransport * outcome bool :=
  match r with
  | (t, Err what) => (t, Err what)
  | (t, Ok _) => (t <| pt_last_error_code := Paper_kNone |>, Ok true)
  end.

Definition ack_message (client_order_id exchange_order_id market_ticker : string) (qty : Z) : nj :=
  nj_object [("client_order_id", nj_of_string client_order_id);
             ("exchange_order_id", nj_of_string exchange_order_id);
             ("market_ticker", nj_of_string market_ticker);
             ("accepted_qty", nj_of_int qty)].

Definition fill_message (client_order_id exchange_order_id market_ticker : string)
    (qty limit_price : Z) (side : string) : nj :=
  nj_object [("client_order_id", nj_of_string client_order_id);
             ("exchange_order_id", nj_of_string exchange_order_id);
             ("market_ticker", nj_of_string market_ticker);
             ("fill_qty", nj_of_int qty);
             ("fill_price", nj_of_int limit_price);
             ("side", nj_of_string side)].

Definition unsupported_message (client_order_id : string) (market_ticker : option string) : nj :=
  nj_object [("client_order_id", nj_of_string client_order_id);
             ("market_ticker", nj_of_string (default "paper" market_ticker));
             ("reason_code", nj_of_string "paper_action_unsupported");
             ("reason_message",
              nj_of_string "paper transport currently supports place_order only")].

(** The branch of a well-formed place request. *)
Definition paper_place (t : PaperOrderTransport) (client_order_id market_ticker side : string)
    (qty limit_price : Z) : PaperOrderTransport * outcome bool :=
  let exchange_order_id := paper_exchange_order_id (pt_next_exchange_order_id t) in
  let t := t <| pt_next_exchange_order_id ::= u64_inc |> in
  match push_update t "order_ack" (ack_message client_order_id exchange_order_id market_ticker qty)
  with
  | (t, Err what) => (t, Err what)
  | (t, Ok _) =>
    if pt_auto_fill_on_place t then
      paper_done (push_update t "fill"
        (fill_message client_order_id exchange_order_id market_ticker qty limit_price side))
    else paper_done (t, Ok tt)
  end.

Definition paper_send_text (t : PaperOrderTransport) (payload : string)
    : PaperOrderTransport * outcome bool :=
  if negb (pt_connected t) then paper_fail t Paper_kNotConnected
  else
    match nj_parse payload with
    | Err _ => paper_fail t Paper_kInvalidPayload
    | Ok request =>
      if negb (nj_is_object request) then paper_fail t Paper_kInvalidPayload
      else
        match try_get_string request "action", try_get_string request "client_order_id" with
        | Some action, Some client_order_id =>
          if decide (client_order_id = "") then paper_fail t Paper_kInvalidRequest
          else if decide (action = "place_order") then
            match try_get_string request "market_ticker", try_get_qty request "qty",
                  try_get_qty request "limit_price", try_get_string request "side" with
            | Some market_ticker, Some qty, Some limit_price, Some side =>
              if decide (qty ≤ 0) then paper_fail t Paper_kInvalidRequest
              else paper_place t client_order_id market_ticker side qty limit_price
            | _, _, _, _ => paper_fail t Paper_kInvalidRequest
            end
          else if decide (action = "cancel_order" ∨ action = "replace_order") then
            paper_done (push_update t "order_reject"
              (unsupported_message client_order_id (try_get_string request "market_ticker")))
          else paper_fail t Paper_kUnknownAction
        | _, _ => paper_fail t Paper_kInvalidRequest
        end
    end.
End paper.

Definition paper_recv_text (t : PaperOrderTransport) : PaperOrderTransport * option string :=
  if negb (pt_connected t) then (t, None)
  else
    match pt_inbound_updates t with
    | [] => (t, None)
    | payload :: rest => (t <| pt_inbound_updates := rest |>, Some payload)
    end.

Definition paper_close (t : PaperOrderTransport) : PaperOrderTransport :=
  t <| pt_connected := false |>.

Definition paper_last_error (t : PaperOrderTransport) : string :=
  match pt_last_error_code t with
  | Paper_kNone => ""
  | Paper_kNotConnected => "paper transport not connected"
  | Paper_kInvalidPayload => "paper transport invalid request payload"
  | Paper_kInvalidRequest => "paper transport invalid request"
  | Paper_kUnknownAction => "paper transport unknown action"
  end.

#[export] Instance paper_transport `{Nlohmann} : OrderTransport PaperOrderTransport := {|
  transport_connect := paper_connect;
  transport_send_text := paper_send_text;
  transport_recv_text := paper_recv_text;
  transport_close := paper_close;
  transport_last_error := paper_last_error;
|}.

(** ** What the paper transport answers *)
Lemma ascii_only_app s1 s2 : ascii_only (s1 +:+ s2)%string = ascii_only s1 && ascii_only s2.
Proof.
  induction s1 as [|c s1 IH]; [done|].
  change (String c s1 +:+ s2)%string with (String c (s1 +:+ s2)%string). simpl.
  by rewrite IH, andb_assoc.
Qed.

Lemma pretty_go_ascii x s : ascii_only s = true → ascii_only (pretty_N_go x s) = true.
Proof.
  revert s. induction (N.lt_wf_0 x) as [x _ IH]; intros s Hs.
  destruct (decide (0 < x)%N) as [Hx|Hx].
  - rewrite pretty_N_go_step by done. apply IH; [by apply N.div_lt|].
    simpl. rewrite Hs, andb_true_r. unfold pretty_N_char.
    repeat case_match; reflexivity.
  - replace x with 0%N by lia. by rewrite pretty_N_go_0.
Qed.

Lemma pretty_ascii (x : N) : ascii_only (pretty x) = true.
Proof.
  change (ascii_only (if decide (x = 0)%N then "0" else pretty_N_go x "") = true).
  case_decide; [done|]. by apply pretty_go_ascii.
Qed.

Lemma exchange_id_ascii id : ascii_only (paper_exchange_order_id id) = true.
Proof. unfold paper_exchange_order_id. by rewrite ascii_only_app, pretty_ascii. Qed.

#[export] Hint Resolve exchange_id_ascii : trading.

Section paper_spec.
Context `{NlohmannLaws}.

(** The update an acknowledgement, a fill and an unsupported request are read back as. *)
Definition paper_ack (t : PaperOrderTransport) (intent : OrderIntent) (raw : string)
    : OrderStateUpdate :=
  let eid := Some (paper_exchange_order_id (pt_next_exchange_order_id t)) in
  mkOrderStateUpdate ExchangeId_kKalshi OmsOrderStatus_kAccepted (oi_client_order_id intent) eid
    (oi_market_ticker intent) (u32 (pt_next_recv_ts_ns t))
    (OmsUpdateData_Ack (mkOrderAck (oi_client_order_id intent) eid (oi_market_ticker intent)
       (oi_qty_lots intent))) raw.

Definition paper_fill (t : PaperOrderTransport) (intent : OrderIntent) (price : Z) (raw : string)
    : OrderStateUpdate :=
  let eid := Some (paper_exchange_order_id (pt_next_exchange_order_id t)) in
  mkOrderStateUpdate ExchangeId_kKalshi OmsOrderStatus_kFilled (oi_client_order_id intent) eid
    (oi_market_ticker intent) (u32 (u64_inc (pt_next_recv_ts_ns t)))
    (OmsUpdateData_Fill (mkOrderFill (oi_client_order_id intent) eid (oi_market_ticker intent)
       (oi_qty_lots intent) price (oi_side intent) OmsLiquidity_kUnknown)) raw.

Definition paper_unsupported (t : PaperOrderTransport) (intent : OrderIntent) (raw : string)
    : OrderStateUpdate :=
  mkOrderStateUpdate ExchangeId_kKalshi OmsOrderStatus_kRejected (oi_client_order_id intent) None
    "paper" (u32 (pt_next_recv_ts_ns t))
    (OmsUpdateData_Reject (mkOrderReject (oi_client_order_id intent) None
       "paper_action_unsupported" "paper transport currently supports place_order only")) raw.

(** The message of [push_update], as the adapter reads it back. *)
Definition envelope (type : string) (recv_ts_ns : Z) (msg : nj) : nj :=
  nj_object [("type", nj_of_string type); ("recv_ts_ns", nj_of_int recv_ts_ns); ("msg", msg)].

Lemma push_update_text t type msg :
  ascii_only type = true → in_u64 (pt_next_recv_ts_ns t) → plain msg →
  ∃ text, nj_parse text = Ok (envelope type (pt_next_recv_ts_ns t) msg) ∧
    push_update t type msg =
      (t <| pt_next_recv_ts_ns ::= u64_inc |> <| pt_inbound_updates ::= λ q, q ++ [text] |>, Ok tt).
Proof.
  intros Htype Hts Hmsg. unfold in_u64 in Hts.
  destruct (nj_roundtrip (envelope type (pt_next_recv_ts_ns t) msg)) as (text & Hd & Hp).
  { apply plain_fields; [distinct_keys|].
    repeat (apply Forall_cons; split; [split; [reflexivity|]|]); [..|by apply Forall_nil];
      [by apply plain_ascii|apply plain_int; lia|done]. }
  exists text. split; [done|]. unfold push_update, envelope in *. by rewrite Hd.
Qed.

(** Reading an envelope: the type selects the message parser, the time is cut to 32 bits. *)
Lemma envelope_fields type ts msg :
  in_u64 ts →
  let root := envelope type ts msg in
  nj_is_object root = true ∧ try_get_string root "type" = Some type ∧
  nj_find root "msg" = Some msg ∧ recv_ts_of root = Ok (u32 ts).
Proof.
  intros Hts root. unfold in_u64 in Hts. unfold root, envelope, try_get_string, recv_ts_of.
  rewrite nj_object_is. repeat find_field. rewrite nj_string_of, nj_get_uint_of by lia. done.
Qed.

Lemma parse_envelope type ts msg text :
  in_u64 ts → nj_is_object msg = true → nj_parse text = Ok (envelope type ts msg) →
  parse_update_body text =
    (if decide (type = "order_ack") then parse_ack (envelope type ts msg) msg text
     else if decide (type = "order_reject") then parse_reject (envelope type ts msg) msg text
     else if decide (type = "fill") then parse_fill (envelope type ts msg) msg text
     else Ok (oms_failure OmsParse_kUnsupportedMessageType)).
Proof.
  intros Hts Hmsg Hp. destruct (envelope_fields type ts msg Hts) as (Ho & Ht & Hm & _).
  unfold parse_update_body. by rewrite Hp, Ho, Ht, Hm, Hmsg.
Qed.

Lemma ack_plain c e m q :
  nj_utf8 c → ascii_only e = true → nj_utf8 m → in_s64 q → plain (ack_message c e m q).
Proof. intros. plain_list. Qed.

Lemma fill_plain c e m q p s :
  nj_utf8 c → ascii_only e = true → nj_utf8 m → in_s64 q → in_s64 p → ascii_only s = true →
  plain (fill_message c e m q p s).
Proof. intros. plain_list. Qed.

(** Look up a literal field of a message. *)
Ltac read_string k s := rewrite (field_string _ k s) by (distinct_keys || field_in_list).
Ltac read_int k z := rewrite (field_int _ k z) by (done || distinct_keys || field_in_list).

Lemma parse_ack_text ts text c e m q :
  in_u64 ts → in_s64 q → nj_parse text = Ok (envelope "order_ack" ts (ack_message c e m q)) →
  parse_update text =
    oms_success (mkOrderStateUpdate ExchangeId_kKalshi OmsOrderStatus_kAccepted c (Some e) m (u32 ts)
      (OmsUpdateData_Ack (mkOrderAck c (Some e) m q)) text).
Proof.
  intros Hts Hq Hp. unfold parse_update.
  rewrite (parse_envelope _ _ (ack_message c e m q) _ Hts (nj_object_is _) Hp), decide_True by done.
  destruct (envelope_fields "order_ack" ts (ack_message c e m q) Hts) as (_ & _ & _ & Hr).
  unfold parse_ack. rewrite Hr. unfold ack_message.
  read_string "client_order_id" c. read_string "market_ticker" m.
  read_string "exchange_order_id" e. by read_int "accepted_qty" q.
Qed.

Lemma parse_fill_text ts text c e m q p side :
  in_u64 ts → in_s64 q → in_s64 p → side ≠ Side_kUnknown →
  nj_parse text = Ok (envelope "fill" ts (fill_message c e m q p (side_to_string side))) →
  parse_update text =
    oms_success (mkOrderStateUpdate ExchangeId_kKalshi OmsOrderStatus_kFilled c (Some e) m (u32 ts)
      (OmsUpdateData_Fill (mkOrderFill c (Some e) m q p side OmsLiquidity_kUnknown)) text).
Proof.
  intros Hts Hq Hpr Hside Hp. unfold parse_update.
  rewrite (parse_envelope _ _ (fill_message c e m q p (side_to_string side)) _ Hts (nj_object_is _) Hp).
  rewrite !decide_False by done. rewrite decide_True by done.
  destruct (envelope_fields "fill" ts (fill_message c e m q p (side_to_string side)) Hts)
    as (_ & _ & _ & Hr).
  unfold parse_fill, try_get_side. change (@try_get_price _) with (@try_get_qty _).
  rewrite Hr. unfold fill_message.
  read_string "client_order_id" c. read_string "market_ticker" m.
  read_string "exchange_order_id" e. read_string "side" (side_to_string side).
  read_int "fill_qty" q. read_int "fill_price" p. by rewrite side_roundtrip.
Qed.

Lemma parse_unsupported_text ts text c :
  in_u64 ts →
  nj_parse text = Ok (envelope "order_reject" ts (unsupported_message c None)) →
  parse_update text =
    oms_success (mkOrderStateUpdate ExchangeId_kKalshi OmsOrderStatus_kRejected c None
      "paper" (u32 ts) (OmsUpdateData_Reject (mkOrderReject c None "paper_action_unsupported"
        "paper transport currently supports place_order only")) text).
Proof.
  intros Hts Hp. unfold parse_update.
  rewrite (parse_envelope _ _ (unsupported_message c None) _ Hts (nj_object_is _) Hp).
  rewrite decide_False, decide_True by done.
  destruct (envelope_fields "order_reject" ts (unsupported_message c None) Hts) as (_ & _ & _ & Hr).
  unfold parse_reject. rewrite Hr. unfold unsupported_message, default.
  read_string "client_order_id" c. read_string "market_ticker" "paper".
  read_string "reason_code" "paper_action_unsupported".
  read_string "reason_message" "paper transport currently supports place_order only".
  unfold try_get_string at 1 2. rewrite nj_find_object_none; [done|].
  apply (bool_decide_unpack _). vm_compute. exact I.
Qed.

Lemma side_string_inv o k side :
  try_get_side o k = Some side → try_get_string o k = Some (side_to_string side).
Proof.
  unfold try_get_side, side_from_string. destruct (try_get_string o k); [|done].
  intros Hs. repeat case_decide; by simplify_eq/=.
Qed.

(** The updates the transport answers a request with, each as a function of its text. *)
Definition paper_answers (t : PaperOrderTransport) (intent : OrderIntent)
    : list (string → OrderStateUpdate) :=
  match oi_action intent, oi_limit_price_ticks intent with
  | OmsAction_kPlace, Some price =>
    paper_ack t intent ::
    (if pt_auto_fill_on_place t then [paper_fill t intent price] else [])
  | _, _ => [paper_unsupported t intent]
  end.

Definition answered (t : PaperOrderTransport) (intent : OrderIntent) (t' : PaperOrderTransport)
    : Prop :=
  ∃ texts,
    pt_connected t' = true ∧ pt_auto_fill_on_place t' = pt_auto_fill_on_place t ∧
    pt_last_error_code t' = Paper_kNone ∧
    pt_inbound_updates t' = pt_inbound_updates t ++ texts ∧
    Forall2 (λ text u, parse_update text = oms_success (u text)) texts (paper_answers t intent).

Lemma paper_place_answered t intent price :
  encodable intent → oi_action intent = OmsAction_kPlace → oi_side intent ≠ Side_kUnknown →
  oi_limit_price_ticks intent = Some price →
  pt_connected t = true → in_u64 (pt_next_recv_ts_ns t) →
  ∃ t', paper_place t (oi_client_order_id intent) (oi_market_ticker intent)
          (side_to_string (oi_side intent)) (oi_qty_lots intent) price = (t', Ok true) ∧
        answered t intent t'.
Proof.
  intros (Hc & Hm & _ & _ & Hq & Hp) Ha Hside Hpr Hconn Hts. specialize (Hp _ Hpr).
  unfold paper_place, answered, paper_answers. rewrite Ha, Hpr. cbv zeta.
  set (eid := paper_exchange_order_id _).
  assert (ascii_only eid = true) as He by apply exchange_id_ascii.
  destruct (push_update_text (t <| pt_next_exchange_order_id ::= u64_inc |>) "order_ack"
    (ack_message (oi_client_order_id intent) eid (oi_market_ticker intent) (oi_qty_lots intent)))
    as (ack & Hack & ->); [done|done|by apply ack_plain|].
  set (t1 := set_field pt_inbound_updates _ _).
  change (pt_auto_fill_on_place t1) with (pt_auto_fill_on_place t).
  pose proof (parse_ack_text _ ack _ eid _ _ Hts Hq Hack) as Hack'.
  destruct (pt_auto_fill_on_place t) eqn:Hauto.
  - destruct (push_update_text t1 "fill" (fill_message (oi_client_order_id intent) eid
      (oi_market_ticker intent) (oi_qty_lots intent) price (side_to_string (oi_side intent))))
      as (fill & Hfill & ->); [done|apply u64_range|apply fill_plain; auto with trading|].
    eexists. split; [reflexivity|]. exists [ack; fill].
    split_and!; [done..| |]; [simpl; by rewrite <-app_assoc|].
    repeat apply Forall2_cons; split; [done|]. apply Forall2_cons; split; [|by apply Forall2_nil].
    exact (parse_fill_text _ fill _ eid _ _ _ _ (u64_range _) Hq Hp Hside Hfill).
  - eexists. split; [reflexivity|]. exists [ack]. split_and!; [done..|].
    apply Forall2_cons; split; [done|by apply Forall2_nil].
Qed.

Lemma paper_unsupported_answered t intent :
  nj_utf8 (oi_client_order_id intent) → oi_action intent ≠ OmsAction_kPlace →
  pt_connected t = true → in_u64 (pt_next_recv_ts_ns t) →
  ∃ t', paper_done (push_update t "order_reject"
          (unsupported_message (oi_client_order_id intent) None)) = (t', Ok true) ∧
        answered t intent t'.
Proof.
  intros Hc Ha Hconn Hts.
  destruct (push_update_text t "order_reject" (unsupported_message (oi_client_order_id intent) None))
    as (text & Htext & ->); [done|done|plain_list|].
  eexists. split; [reflexivity|]. exists [text]. split_and!; [done..|].
  unfold paper_answers. destruct (oi_action intent); try done;
    (apply Forall2_cons; split; [by apply parse_unsupported_text|by apply Forall2_nil]).
Qed.

Lemma paper_send_answered t intent text :
  encodable intent → oi_client_order_id intent ≠ "" →
  pt_connected t = true → in_u64 (pt_next_recv_ts_ns t) →
  build_request intent = Ok text →
  ∃ t', paper_send_text t text = (t', Ok true) ∧ answered t intent t'.
Proof.
  intros Henc Hcid Hconn Hts Hbuild.
  destruct (decide (writable intent)) as [Hw|Hw];
    [|destruct (not_writable_fails intent Hw); congruence].
  destruct (build_request_written intent Henc Hw) as (text' & request & Ht & Hparse & Hsays).
  rewrite Hbuild in Ht. simplify_eq. destruct Hsays as (Ho & Hact & Hc & Hrest).
  unfold paper_send_text. rewrite Hconn, Hparse, Ho, Hact, Hc. cbn [negb].
  rewrite decide_False by done. pose proof Hw as [_ Hw'].
  destruct (oi_action intent) eqn:Ha; [done|..].
  - rewrite decide_True by done. destruct Hw' as (_ & _ & Hq & Hs & [p Hp]).
    destruct Hrest as (-> & ->%side_string_inv & -> & Hlp & _).
    change (@try_get_price _) with (@try_get_qty _) in Hlp. rewrite Hlp, Hp.
    rewrite decide_False by lia. by apply paper_place_answered.
  - rewrite decide_False, decide_True by (done || by left).
    destruct Hrest as (-> & _). apply paper_unsupported_answered; [by destruct Henc|by rewrite Ha|done|done].
  - rewrite decide_False, decide_True by (done || by right).
    destruct Hrest as (-> & _). apply paper_unsupported_answered; [by destruct Henc|by rewrite Ha|done|done].
Qed.

(** A cancel without a client id of its own is written by the adapter (it names its target
    otherwise) and refused by the transport. *)
Lemma paper_send_refused t intent text :
  encodable intent → oi_client_order_id intent = "" →
  pt_connected t = true → build_request intent = Ok text →
  oi_action intent = OmsAction_kCancel ∧
  paper_send_text t text = paper_fail t Paper_kInvalidRequest.
Proof.
  intros Henc Hcid Hconn Hbuild.
  destruct (decide (writable intent)) as [Hw|Hw];
    [|destruct (not_writable_fails intent Hw); congruence].
  destruct (build_request_written intent Henc Hw) as (text' & request & Ht & Hparse & Hsays).
  rewrite Hbuild in Ht. simplify_eq. destruct Hsays as (Ho & Hact & Hc & _). split.
  - destruct Hw as [_ Hw]. destruct (oi_action intent); naive_solver.
  - unfold paper_send_text. rewrite Hconn, Hparse, Ho, Hact, Hc. cbn [negb].
    by rewrite decide_True.
Qed.

(** C27: what the connected paper transport does with every request the adapter writes, for
    an intent whose texts are UTF-8 and whose numbers fit 64 bits.  With a client id the
    request is accepted, and the texts the transport then delivers are read back by the
    adapter as: an acknowledgement of the same order and market with the requested quantity
    and (with [auto_fill_on_place]) a fill of the same quantity, side, market and limit
    price, for a place; one rejection that names the client id and the market ["paper"], and
    no quantity, price or side, for a cancel or replace.  Without a client id, which only a
    cancel can be written without, the request is refused as invalid: nothing is delivered
    and only the error code changes. *)
Theorem paper_answers_read_back t intent text :
  encodable intent → pt_connected t = true → in_u64 (pt_next_recv_ts_ns t) →
  build_request intent = Ok text →
  if decide (oi_client_order_id intent = "")
  then oi_action intent = OmsAction_kCancel ∧
       paper_send_text t text = (t <| pt_last_error_code := Paper_kInvalidRequest |>, Ok false)
  else ∃ t', paper_send_text t text = (t', Ok true) ∧ answered t intent t'.
Proof.
  intros. case_decide; [by eapply paper_send_refused|by apply paper_send_answered].
Qed.
End paper_spec.

(** A place is answered; a cancel that names only its target is refused. *)
Definition demo_bare_cancel : OrderIntent :=
  (demo_intent Side_kBuy 5) <| oi_action := OmsAction_kCancel |>
    <| oi_client_order_id := "" |> <| oi_target_client_order_id := Some "c1" |>.

Lemma paper_answers_read_back_witness :
  (∃ t', paper_send_text ((paper_init true) <| pt_connected := true |>)
          (match build_request (demo_intent Side_kBuy 5) with Ok s => s | Err s => s end)
        = (t', Ok true) ∧
        answered ((paper_init true) <| pt_connected := true |>) (demo_intent Side_kBuy 5) t') ∧
  (paper_send_text ((paper_init true) <| pt_connected := true |>)
     (match build_request demo_bare_cancel with Ok s => s | Err s => s end)).2 = Ok false.
Proof.
  split.
  - apply (paper_answers_read_back _ (demo_intent Side_kBuy 5)); [|done|done|reflexivity].
    split_and!; try done; intros ? [= <-]; done.
  - destruct (paper_answers_read_back ((paper_init true) <| pt_connected := true |>)
      demo_bare_cancel (match build_request demo_bare_cancel with Ok s => s | Err s => s end))
      as [_ ->]; [|done|done|reflexivity|reflexivity].
    split_and!; try done; intros ? [= <-]; done.
Defined.
