(* ===== verification/OrderManager.v ===== *)
(** * OrderManager: the worker between strategies and the exchange

    Model of src/cpp/src/oms/order_manager.cpp.  Strategy threads call [submit]; the worker
    thread alternates [drain_outbound_intents], which passes queued intents through the two
    risk gates and sends them, and [pump_incoming_update], which applies one message of the
    exchange.  The adapter, the transport, the event sink and the portfolio snapshot
    provider are the interfaces of the constructor; the sink and the provider act on the
    same state [E] (in the engine both are the position ledger).

    A call is written as the sequence of its critical sections, each a state transformer;
    composed, they are the operations of the source.  [om_step] interleaves the sections of
    any number of submitting threads with those of the worker and with a transport whose
    state changes on its own.  Clock readings are arguments. *)
From S2P Require Import Prelude.
From S2P Require Import Types.
From S2P Require Import RiskGates.
From S2P Require Import OrderManagerCore.
From S2P Require Import Nlohmann.
From S2P Require Import OmsAdapter.
From S2P Require Import OrderTransport.

(** ** Interfaces: order_event_sink.hpp, portfolio_risk_snapshot_provider.hpp *)
Class OrderEventSink (E : Type) := {
  sink_on_order_update : E → OrderStateUpdate → E * bool;
}.
Class PortfolioSnapshotProvider (E : Type) := {
  provider_snapshot_for : E → ExchangeId → string → PortfolioRiskSnapshot;
}.

(** ** Data *)
Record PendingIntent := mkPendingIntent {
  pi_request_id : OrderRequestId;
  pi_intent : OrderIntent;
}.

Record OrderManager (T E : Type) := mkOrderManager {
  om_core : OrderManagerCore;
  om_worker_joinable : bool;
  om_outbound_queue : list PendingIntent;
  om_last_error : string;
  om_running : bool;
  om_next_request_id : Z;
  om_submitted_count : Z;
  om_sent_count : Z;
  om_send_failed_count : Z;
  om_receive_count : Z;
  om_parse_failed_count : Z;
  om_update_drop_count : Z;
  om_unsupported_intent_count : Z;
  om_transport : T;
  om_sink : E;
}.
Arguments mkOrderManager {T E}.
Arguments om_core {T E}.
Arguments om_worker_joinable {T E}.
Arguments om_outbound_queue {T E}.
Arguments om_last_error {T E}.
Arguments om_running {T E}.
Arguments om_next_request_id {T E}.
Arguments om_submitted_count {T E}.
Arguments om_sent_count {T E}.
Arguments om_send_failed_count {T E}.
Arguments om_receive_count {T E}.
Arguments om_parse_failed_count {T E}.
Arguments om_update_drop_count {T E}.
Arguments om_unsupported_intent_count {T E}.
Arguments om_transport {T E}.
Arguments om_sink {T E}.

#[export] Instance OrderManager_settable T E : Settable (OrderManager T E) := λ x,
  mkOrderManager (om_core x) (om_worker_joinable x) (om_outbound_queue x) (om_last_error x)
    (om_running x) (om_next_request_id x) (om_submitted_count x) (om_sent_count x)
    (om_send_failed_count x) (om_receive_count x) (om_parse_failed_count x)
    (om_update_drop_count x) (om_unsupported_intent_count x) (om_transport x) (om_sink x).

Record OrderManagerStats := mkOrderManagerStats {
  mst_submitted_count : Z;
  mst_sent_count : Z;
  mst_send_failed_count : Z;
  mst_risk_reject_count : Z;
  mst_portfolio_risk_reject_count : Z;
  mst_receive_count : Z;
  mst_parse_failed_count : Z;
  mst_update_drop_count : Z;
  mst_transition_applied_count : Z;
  mst_transition_reject_count : Z;
  mst_unknown_order_update_count : Z;
  mst_policy_reject_count : Z;
  mst_unsupported_intent_count : Z;
  mst_pending_intent_count : Z;
  mst_tracked_order_count : Z;
  mst_active_order_count : Z;
}.

(** ** Operations *)
Section order_manager.
Context `{ExchangeOmsAdapter} {T E : Type} `{!OrderTransport T} `{!OrderEventSink E}.
(** [config_.transport] and [config_.portfolio_snapshot_provider], which may be null *)
Context (transport_config : OrderTransportConfig) (provider : option (PortfolioSnapshotProvider E)).
Implicit Types m : OrderManager T E.

Definition om_init (global : GlobalRiskConfig) (portfolio : PortfolioRiskConfig) (t : T) (e : E)
    : OrderManager T E :=
  mkOrderManager (core_init global portfolio) false [] "" false 1 0 0 0 0 0 0 0 t e.

Definition set_error m (error_message : string) : OrderManager T E :=
  m <| om_last_error := error_message |>.

Definition om_start m : OrderManager T E * bool :=
  if om_worker_joinable m then (m, false)
  else
    let m := set_error m "" in
    let m := m <| om_submitted_count := 0 |> <| om_sent_count := 0 |>
               <| om_send_failed_count := 0 |> <| om_receive_count := 0 |>
               <| om_parse_failed_count := 0 |> <| om_update_drop_count := 0 |>
               <| om_unsupported_intent_count := 0 |> in
    let m := m <| om_core ::= core_reset |> in
    let '(t, connected) := transport_connect (om_transport m) transport_config in
    let m := m <| om_transport := t |> in
    if negb connected then (set_error m (transport_last_error t), false)
    else (m <| om_running := true |> <| om_worker_joinable := true |>, true).

(** [stop]: the worker leaves its loop, closes the transport and stores [running_ = false];
    the caller closes it too and joins the worker. *)
Definition om_stop m : OrderManager T E :=
  if negb (om_worker_joinable m) then m <| om_running := false |>
  else
    let m := m <| om_transport ::= transport_close |> in
    let m := m <| om_transport ::= transport_close |> <| om_running := false |> in
    m <| om_worker_joinable := false |> <| om_running := false |>.

(** [submit] from its check of [running()] to the release of [core_mutex_]: the intent is
    validated and tracked. *)
Definition submit_accept m (intent : OrderIntent) (clock : Z)
    : OrderManager T E * option PendingIntent :=
  if negb (adapter_supports intent) then
    (set_error (m <| om_unsupported_intent_count ::= u64_inc |>)
       "Order intent is not supported by adapter", None)
  else
    let intent :=
      if decide (oi_intent_ts_ns intent = 0)
      then intent <| oi_intent_ts_ns := to_timestamp_ns clock |> else intent in
    let request_id := om_next_request_id m in
    let m := m <| om_next_request_id ::= u64_inc |> in
    match validate_and_track_submission (om_core m) request_id intent with
    | (core, Err core_error) => (set_error (m <| om_core := core |>) core_error, None)
    | (core, Ok _) => (m <| om_core := core |>, Some (mkPendingIntent request_id intent))
    end.

(** The check included. *)
Definition submit_track m (intent : OrderIntent) (clock : Z)
    : OrderManager T E * option PendingIntent :=
  if negb (om_running m) then (set_error m "OrderManager is not running", None)
  else submit_accept m intent clock.

(** The rest of [submit]: the intent is queued for the worker. *)
Definition submit_push m (pending : PendingIntent) : OrderManager T E :=
  m <| om_outbound_queue ::= λ q, q ++ [pending] |> <| om_submitted_count ::= u64_inc |>.

Definition submit m (intent : OrderIntent) (clock : Z) : OrderManager T E * option Z :=
  match submit_track m intent clock with
  | (m, None) => (m, None)
  | (m, Some pending) => (submit_push m pending, Some (pi_request_id pending))
  end.

Definition om_stats m : OrderManagerStats :=
  let pending_intent_count := Z.of_nat (length (om_outbound_queue m)) in
  let core_stats := core_stats (om_core m) in
  mkOrderManagerStats (om_submitted_count m) (om_sent_count m) (om_send_failed_count m)
    (cs_risk_reject_count core_stats) (cs_portfolio_risk_reject_count core_stats)
    (om_receive_count m) (om_parse_failed_count m) (om_update_drop_count m)
    (cs_transition_applied_count core_stats) (cs_transition_reject_count core_stats)
    (cs_unknown_order_update_count core_stats) (cs_policy_reject_count core_stats)
    (om_unsupported_intent_count m) pending_intent_count
    (cs_tracked_order_count core_stats) (cs_active_order_count core_stats).

Definition om_in_flight_order m (client_order_id : string) : option InFlightOrderSnapshot :=
  in_flight_order (om_core m) client_order_id.

(** What a gate section leaves for the intent it examined: it may go on, its rejection was
    not applicable and has been dropped, or its rejection is to be delivered. *)
Inductive gate_result :=
  | gate_pass
  | gate_drop
  | gate_reject (update : OrderStateUpdate) (core_error : string).

(** [core_.apply_update_transition( *risk_reject_update)] under the lock of the gate *)
Definition apply_reject m (update : OrderStateUpdate) (reason_message : string) (clock : Z)
    : OrderManager T E * gate_result :=
  match apply_update_transition (om_core m) update clock with
  | (core, Err core_error) =>
    (set_error (m <| om_core := core |> <| om_update_drop_count ::= u64_inc |>) core_error, gate_drop)
  | (core, Ok update) => (m <| om_core := core |>, gate_reject update reason_message)
  end.

Definition global_section m (intent : OrderIntent) (clocks : Z * Z)
    : OrderManager T E * gate_result :=
  match evaluate_global_risk (om_core m) intent with
  | (core, None) => (m <| om_core := core |>, gate_pass)
  | (core, Some decision) =>
    apply_reject (m <| om_core := core |>)
      (make_global_risk_reject_update intent decision clocks.1) (gd_reason_message decision)
      clocks.2
  end.

Definition portfolio_section m (intent : OrderIntent) (clocks : Z * Z)
    : OrderManager T E * gate_result :=
  match provider with
  | None => (m, gate_pass)
  | Some p =>
    let snapshot :=
      provider_snapshot_for (om_sink m) (oi_exchange intent) (oi_market_ticker intent) in
    match evaluate_portfolio_risk (om_core m) intent snapshot with
    | (core, None) => (m <| om_core := core |>, gate_pass)
    | (core, Some decision) =>
      apply_reject (m <| om_core := core |>)
        (make_portfolio_risk_reject_update intent decision clocks.1) (pd_reason_message decision)
        clocks.2
    end
  end.

(** [if (!event_sink_.on_order_update(update)) ++update_drop_count_;] *)
Definition deliver m (update : OrderStateUpdate) : OrderManager T E :=
  let '(e, taken) := sink_on_order_update (om_sink m) update in
  let m := m <| om_sink := e |> in
  if taken then m else m <| om_update_drop_count ::= u64_inc |>.

Definition deliver_reject m (update : OrderStateUpdate) (core_error : string)
    : OrderManager T E :=
  deliver (set_error m core_error) update.

(** The [try] block: the request is built and sent; the flag says whether it was sent. *)
Definition send_intent m (intent : OrderIntent) : OrderManager T E * bool :=
  match adapter_build_request intent with
  | Err what => (set_error (m <| om_send_failed_count ::= u64_inc |>) what, false)
  | Ok payload =>
    let '(t, sent) := transport_send_text (om_transport m) payload in
    let m := m <| om_transport := t |> in
    match sent with
    | Err what => (set_error (m <| om_send_failed_count ::= u64_inc |>) what, false)
    | Ok false =>
      (set_error (m <| om_send_failed_count ::= u64_inc |>) (transport_last_error t), false)
    | Ok true => (m <| om_sent_count ::= u64_inc |>, true)
    end
  end.

(** One iteration of the loop of [drain_outbound_intents]. *)
Definition process_intent m (intent : OrderIntent) (clocks1 clocks2 : Z * Z)
    : OrderManager T E :=
  match global_section m intent clocks1 with
  | (m, gate_drop) => m
  | (m, gate_reject update core_error) => deliver_reject m update core_error
  | (m, gate_pass) =>
    match portfolio_section m intent clocks2 with
    | (m, gate_drop) => m
    | (m, gate_reject update core_error) => deliver_reject m update core_error
    | (m, gate_pass) => (send_intent m intent).1
    end
  end.

(** [clock n] gives the readings taken for the [n]-th intent of this drain. *)
Fixpoint process_all m (clock : nat → (Z * Z) * (Z * Z)) (intents : list PendingIntent)
    : OrderManager T E :=
  match intents with
  | [] => m
  | p :: intents =>
    process_all (process_intent m (pi_intent p) (clock O).1 (clock O).2)
      (λ n, clock (S n)) intents
  end.

Definition drain_outbound_intents m (clock : nat → (Z * Z) * (Z * Z)) : OrderManager T E * Z :=
  let local_intents := om_outbound_queue m in
  let m := m <| om_outbound_queue := [] |> in
  (process_all m clock local_intents, Z.of_nat (length local_intents)).

(** [pump_incoming_update] up to the release of [core_mutex_]; the second component is the
    update to deliver, the third the returned flag. *)
Definition pump_apply m (clock : Z) : OrderManager T E * option OrderStateUpdate * bool :=
  let '(t, payload) := transport_recv_text (om_transport m) in
  let m := m <| om_transport := t |> in
  match payload with
  | None => (m, None, false)
  | Some payload =>
    let m := m <| om_receive_count ::= u64_inc |> in
    match adapter_parse_update payload with
    | oms_failure _ => (m <| om_parse_failed_count ::= u64_inc |>, None, true)
    | oms_success update =>
      match apply_update_transition (om_core m) update clock with
      | (core, Err core_error) =>
        (set_error (m <| om_core := core |> <| om_update_drop_count ::= u64_inc |>) core_error,
         None, true)
      | (core, Ok update) => (m <| om_core := core |>, Some update, true)
      end
    end
  end.

Definition pump_incoming_update m (clock : Z) : OrderManager T E * bool :=
  match pump_apply m clock with
  | (m, None, processed) => (m, processed)
  | (m, Some update, processed) => (deliver m update, processed)
  end.

(** One iteration of the loop of [run]; the idle sleep does nothing. *)
Definition run_once m (clock : nat → (Z * Z) * (Z * Z)) (pump_clock : Z) : OrderManager T E :=
  (pump_incoming_update (drain_outbound_intents m clock).1 pump_clock).1.

(** ** The threads *)

(** What became of an intent the worker took from the queue. *)
Inductive fate := fate_sent | fate_failed | fate_rejected | fate_dropped.

#[export] Instance fate_eq_dec : EqDecision fate.
Proof. solve_decision. Defined.

(** Where the worker is: between two intents (or two messages), after the global gate,
    after both gates, or about to hand an applied update to the sink. *)
Inductive worker_pc :=
  | pc_idle
  | pc_portfolio (p : PendingIntent)
  | pc_send (p : PendingIntent)
  | pc_deliver_reject (update : OrderStateUpdate) (core_error : string)
  | pc_deliver (update : OrderStateUpdate).

(** The manager, the intents submitters have tracked but not pushed yet, the part of
    [local_intents] still to process, and the record of the run: the accepted intents, the
    pushed ones, the fates of the processed ones, the intents released by the global gate,
    the updates the core has applied and those given to the sink. *)
Record om_system := mkSystem {
  sy_om : OrderManager T E;
  sy_tracked : list PendingIntent;
  sy_local : list PendingIntent;
  sy_pc : worker_pc;
  sy_accepted : list PendingIntent;
  sy_pushed : list PendingIntent;
  sy_done : list (PendingIntent * fate);
  sy_released : gset string;
  sy_applied : list OrderStateUpdate;
  sy_delivered : list OrderStateUpdate;
}.

#[export] Instance om_system_settable : Settable om_system := λ x,
  mkSystem (sy_om x) (sy_tracked x) (sy_local x) (sy_pc x) (sy_accepted x) (sy_pushed x)
    (sy_done x) (sy_released x) (sy_applied x) (sy_delivered x).

Definition system_init m : om_system := mkSystem m [] [] pc_idle [] [] [] ∅ [] [].

(** The record of a gate section that does not pass. *)
Definition after_gate (s : om_system) (p : PendingIntent) (r : gate_result) (next : worker_pc)
    : om_system :=
  match r with
  | gate_pass => s <| sy_pc := next |>
  | gate_drop => s <| sy_pc := pc_idle |> <| sy_done ::= λ d, d ++ [(p, fate_dropped)] |>
  | gate_reject update core_error =>
    s <| sy_pc := pc_deliver_reject update core_error |>
      <| sy_done ::= λ d, d ++ [(p, fate_rejected)] |>
      <| sy_applied ::= λ a, a ++ [update] |>
  end.

(** The orders the global gate lets out: order-creating intents with a quantity. *)
Definition opens_order (p : PendingIntent) : Prop :=
  creates_order (pi_intent p) ∧ 0 < oi_qty_lots (pi_intent p).
#[local] Instance opens_order_dec p : Decision (opens_order p).
Proof. unfold opens_order. apply _. Defined.

Definition release (p : PendingIntent) (r : gate_result) (released : gset string) : gset string :=
  match r with
  | gate_pass =>
    if decide (opens_order p)
    then {[oi_client_order_id (pi_intent p)]} ∪ released else released
  | _ => released
  end.

(** The sections of the worker. *)
Inductive worker_section : om_system → om_system → Prop :=
  | step_take s :
      sy_pc s = pc_idle → sy_local s = [] →
      worker_section s (s <| sy_local := om_outbound_queue (sy_om s) |>
                   <| sy_om ::= λ m, m <| om_outbound_queue := [] |> |>)
  | step_global s p rest clocks m r :
      sy_pc s = pc_idle → sy_local s = p :: rest →
      global_section (sy_om s) (pi_intent p) clocks = (m, r) →
      worker_section s (after_gate (s <| sy_om := m |> <| sy_local := rest |>
                               <| sy_released ::= release p r |>) p r (pc_portfolio p))
  | step_portfolio s p clocks m r :
      sy_pc s = pc_portfolio p →
      portfolio_section (sy_om s) (pi_intent p) clocks = (m, r) →
      worker_section s (after_gate (s <| sy_om := m |>) p r (pc_send p))
  | step_send s p m sent :
      sy_pc s = pc_send p → send_intent (sy_om s) (pi_intent p) = (m, sent) →
      worker_section s (s <| sy_om := m |> <| sy_pc := pc_idle |>
                   <| sy_done ::= λ d, d ++ [(p, if sent then fate_sent else fate_failed)] |>)
  | step_deliver_reject s update core_error :
      sy_pc s = pc_deliver_reject update core_error →
      worker_section s (s <| sy_om ::= λ m, deliver_reject m update core_error |> <| sy_pc := pc_idle |>
                   <| sy_delivered ::= λ l, l ++ [update] |>)
  | step_pump s clock m r flag :
      sy_pc s = pc_idle → sy_local s = [] →
      pump_apply (sy_om s) clock = (m, r, flag) →
      worker_section s (s <| sy_om := m |>
                   <| sy_pc := match r with Some u => pc_deliver u | None => pc_idle end |>
                   <| sy_applied ::= λ a, a ++ option_list r |>)
  | step_deliver s update :
      sy_pc s = pc_deliver update →
      worker_section s (s <| sy_om ::= λ m, deliver m update |> <| sy_pc := pc_idle |>
                   <| sy_delivered ::= λ l, l ++ [update] |>).

(** Any thread may submit; an intent it tracked it pushes later, and a thread that has read
    [running_] may go on although the flag has changed since.  The transport changes on its
    own, and the thread that starts and stops the manager stores its flags. *)
Inductive om_step : om_system → om_system → Prop :=
  | step_submit s intent clock m r :
      submit_track (sy_om s) intent clock = (m, r) →
      om_step s (s <| sy_om := m |> <| sy_tracked ::= λ l, l ++ option_list r |>
                   <| sy_accepted ::= λ l, l ++ option_list r |>)
  | step_accept s intent clock m r :
      submit_accept (sy_om s) intent clock = (m, r) →
      om_step s (s <| sy_om := m |> <| sy_tracked ::= λ l, l ++ option_list r |>
                   <| sy_accepted ::= λ l, l ++ option_list r |>)
  | step_push s l1 p l2 :
      sy_tracked s = l1 ++ p :: l2 →
      om_step s (s <| sy_om ::= λ m, submit_push m p |> <| sy_tracked := l1 ++ l2 |>
                   <| sy_pushed ::= λ l, l ++ [p] |>)
  | step_section s s' : worker_section s s' → om_step s s'
  | step_transport s t :
      om_step s (s <| sy_om ::= λ m, m <| om_transport := t |> |>)
  | step_control s b j :
      om_step s (s <| sy_om ::= λ m, m <| om_running := b |> <| om_worker_joinable := j |> |>).

(** ** What each section changes *)

(** The fields no gate, delivery or message section touches. *)
Definition same_flow m m' : Prop :=
  om_outbound_queue m' = om_outbound_queue m ∧ om_submitted_count m' = om_submitted_count m ∧
  om_sent_count m' = om_sent_count m ∧ om_send_failed_count m' = om_send_failed_count m.

(** The counters of rejections and applied transitions of the core. *)
Definition gate_rejects (c : OrderManagerCore) : Z :=
  u64 (omc_risk_reject_count c + omc_portfolio_risk_reject_count c).

Lemma apply_update_counters c u clock c' r :
  apply_update_transition c u clock = (c', r) →
  gate_rejects c' = gate_rejects c ∧
  omc_transition_applied_count c' =
    (if is_ok r then u64_inc (omc_transition_applied_count c) else omc_transition_applied_count c).
Proof.
  unfold apply_update_transition, gate_rejects. intros Hu.
  repeat case_match; simplify_eq/=; done.
Qed.

Lemma u64_add_u64 a b : u64 (a + u64 b) = u64 (a + b).
Proof. by rewrite Z.add_comm, u64_u64_add, Z.add_comm. Qed.

Lemma evaluate_global_counters c intent c' r :
  evaluate_global_risk c intent = (c', r) →
  gate_rejects c' = u64 (gate_rejects c + match r with Some _ => 1 | None => 0 end) ∧
  omc_transition_applied_count c' = omc_transition_applied_count c.
Proof.
  unfold evaluate_global_risk, gate_rejects. intros He. case_match; simplify_eq/=.
  - split; [|done]. rewrite u64_u64_add. f_equal. lia.
  - split; [|done]. unfold u64_inc. rewrite !u64_u64_add. f_equal. lia.
Qed.

Lemma evaluate_portfolio_counters c intent snapshot c' r :
  evaluate_portfolio_risk c intent snapshot = (c', r) →
  gate_rejects c' = u64 (gate_rejects c + match r with Some _ => 1 | None => 0 end) ∧
  omc_transition_applied_count c' = omc_transition_applied_count c.
Proof.
  unfold evaluate_portfolio_risk, gate_rejects. intros He. case_match; simplify_eq/=.
  - split; [|done]. rewrite u64_u64_add. f_equal. lia.
  - split; [|done]. unfold u64_inc. rewrite u64_add_u64, !u64_u64_add. f_equal. lia.
Qed.

Lemma validate_counters c request_id intent c' r :
  validate_and_track_submission c request_id intent = (c', r) →
  gate_rejects c' = gate_rejects c ∧
  omc_transition_applied_count c' = omc_transition_applied_count c.
Proof.
  intros Hv. pose proof (validate_outcome c request_id intent) as Hout. rewrite Hv in Hout.
  unfold submission_outcome in Hout. simpl in Hout.
  destruct Hout as [(_ & _ & Hc)|(_ & _ & ->)]; [|done].
  case_decide; [by subst|]. by destruct Hc as (o & _ & ->).
Qed.

(** A gate section: the core moves by its own steps, a rejection is counted, and exactly a
    rejection that could be applied is passed on for delivery. *)
Definition gate_effect m m' (r : gate_result) : Prop :=
  same_flow m m' ∧ om_sink m' = om_sink m ∧ rtc core_step (om_core m) (om_core m') ∧
  gate_rejects (om_core m') =
    u64 (gate_rejects (om_core m) + match r with gate_pass => 0 | _ => 1 end) ∧
  omc_transition_applied_count (om_core m') =
    match r with
    | gate_reject _ _ => u64_inc (omc_transition_applied_count (om_core m))
    | _ => omc_transition_applied_count (om_core m)
    end.

Lemma apply_reject_effect m core update msg clock m' r :
  rtc core_step (om_core m) core →
  gate_rejects core = u64 (gate_rejects (om_core m) + 1) →
  omc_transition_applied_count core = omc_transition_applied_count (om_core m) →
  apply_reject (m <| om_core := core |>) update msg clock = (m', r) →
  gate_effect m m' r.
Proof.
  intros Hs Hrej Happ Ha. unfold apply_reject in Ha. simpl in Ha.
  destruct (apply_update_transition core update clock) as [core' o] eqn:Hu.
  assert (core_step core core') as Hstep.
  { pose proof (core_step_update core update clock) as Hst. by rewrite Hu in Hst. }
  apply apply_update_counters in Hu as [Hg Hap].
  destruct o; simplify_eq/=; unfold gate_effect, same_flow; simpl;
    rewrite Hg, Hrej, Hap, Happ; split_and!; try done; by eapply rtc_r.
Qed.

Lemma global_section_effect m intent clocks m' r :
  global_section m intent clocks = (m', r) → gate_effect m m' r.
Proof.
  unfold global_section. destruct (evaluate_global_risk (om_core m) intent) as [core o] eqn:He.
  assert (core_step (om_core m) core) as Hstep.
  { pose proof (core_step_global (om_core m) intent) as Hst. by rewrite He in Hst. }
  apply evaluate_global_counters in He as [Hg Hap]. destruct o.
  - apply apply_reject_effect; [by apply rtc_once|done|done].
  - intros [= <- <-]. unfold gate_effect, same_flow. simpl.
    split_and!; try done. by apply rtc_once.
Qed.

Lemma portfolio_section_effect m intent clocks m' r :
  portfolio_section m intent clocks = (m', r) → gate_effect m m' r.
Proof.
  unfold portfolio_section. destruct provider as [p|].
  2: { intros [= <- <-]. unfold gate_effect, same_flow, gate_rejects. simpl.
       rewrite Z.add_0_r, (u64_small (u64 _)) by apply u64_range. by split_and!. }
  destruct (evaluate_portfolio_risk (om_core m) intent _) as [core o] eqn:He.
  assert (core_step (om_core m) core) as Hstep.
  { eapply (eq_ind _ (core_step _)); [apply core_step_portfolio|]. by rewrite He. }
  apply evaluate_portfolio_counters in He as [Hg Hap]. destruct o.
  - apply apply_reject_effect; [by apply rtc_once|done|done].
  - intros [= <- <-]. unfold gate_effect, same_flow. simpl.
    split_and!; try done. by apply rtc_once.
Qed.

(** What a submission changes, whether it is accepted or not. *)
Definition submit_effect m m' (r : option PendingIntent) : Prop :=
  same_flow m m' ∧ om_sink m' = om_sink m ∧
  gate_rejects (om_core m') = gate_rejects (om_core m) ∧
  omc_transition_applied_count (om_core m') = omc_transition_applied_count (om_core m) ∧
  (r = None ∧ rtc core_step (om_core m) (om_core m') ∨
   ∃ p, r = Some p ∧ validate_and_track_submission (om_core m) (pi_request_id p) (pi_intent p)
                     = (om_core m', Ok tt)).

Lemma submit_accept_effect m intent clock m' r :
  submit_accept m intent clock = (m', r) → submit_effect m m' r.
Proof.
  unfold submit_accept, submit_effect, same_flow. intros Hs.
  destruct (adapter_supports intent); simpl in Hs; [|simplify_eq/=; by split_and!; auto; left].
  set (intent' := if decide _ then _ else _) in Hs. clearbody intent'.
  destruct (validate_and_track_submission (om_core m) (om_next_request_id m) intent')
    as [core o] eqn:Hv.
  pose proof (validate_counters _ _ _ _ _ Hv) as [Hg Hap].
  pose proof (core_step_submit (om_core m) (om_next_request_id m) intent') as Hstep.
  rewrite Hv in Hstep. simpl in Hstep.
  destruct o as [[]|msg]; simplify_eq/=; split_and!; try done.
  - right. by eexists.
  - left. split; [done|]. by apply rtc_once.
Qed.

Lemma submit_track_effect m intent clock m' r :
  submit_track m intent clock = (m', r) → submit_effect m m' r.
Proof.
  unfold submit_track. destruct (om_running m); simpl; [apply submit_accept_effect|].
  intros [= <- <-]. split_and!; try done. by left.
Qed.

Lemma send_intent_effect m intent m' sent :
  send_intent m intent = (m', sent) →
  om_core m' = om_core m ∧ om_sink m' = om_sink m ∧
  om_outbound_queue m' = om_outbound_queue m ∧ om_submitted_count m' = om_submitted_count m ∧
  om_sent_count m' = (if sent then u64_inc (om_sent_count m) else om_sent_count m) ∧
  om_send_failed_count m' =
    (if sent then om_send_failed_count m else u64_inc (om_send_failed_count m)).
Proof. unfold send_intent. intros Hs. repeat case_match; simplify_eq/=; by split_and!. Qed.

Lemma deliver_effect m update :
  same_flow m (deliver m update) ∧ om_core (deliver m update) = om_core m ∧
  om_sink (deliver m update) = (sink_on_order_update (om_sink m) update).1.
Proof.
  unfold deliver, same_flow. destruct (sink_on_order_update (om_sink m) update) as [e []];
    by split_and!.
Qed.

Lemma deliver_reject_effect m update err :
  same_flow m (deliver_reject m update err) ∧ om_core (deliver_reject m update err) = om_core m ∧
  om_sink (deliver_reject m update err) = (sink_on_order_update (om_sink m) update).1.
Proof. exact (deliver_effect (set_error m err) update). Qed.

Lemma pump_apply_effect m clock m' r flag :
  pump_apply m clock = (m', r, flag) →
  same_flow m m' ∧ om_sink m' = om_sink m ∧ rtc core_step (om_core m) (om_core m') ∧
  gate_rejects (om_core m') = gate_rejects (om_core m) ∧
  omc_transition_applied_count (om_core m') =
    match r with
    | Some _ => u64_inc (omc_transition_applied_count (om_core m))
    | None => omc_transition_applied_count (om_core m)
    end.
Proof.
  unfold pump_apply, same_flow. destruct (transport_recv_text (om_transport m)) as [t [payload|]].
  2: { intros; simplify_eq/=. by split_and!. }
  destruct (adapter_parse_update payload) as [update|err];
    [|intros; simplify_eq/=; by split_and!]. simpl.
  destruct (apply_update_transition (om_core m) update clock) as [core o] eqn:Hu.
  pose proof (core_step_update (om_core m) update clock) as Hstep. rewrite Hu in Hstep.
  apply apply_update_counters in Hu as [Hg Hap].
  destruct o; intros; simplify_eq/=; split_and!; try done; by apply rtc_once.
Qed.

(** ** The flow of intents and updates *)
Definition pc_intent (pc : worker_pc) : list PendingIntent :=
  match pc with pc_portfolio p | pc_send p => [p] | _ => [] end.
Definition pc_update (pc : worker_pc) : list OrderStateUpdate :=
  match pc with pc_deliver_reject u _ | pc_deliver u => [u] | _ => [] end.

(** How many processed intents met fate [f]. *)
Definition fated (f : fate) (d : list (PendingIntent * fate)) : Z :=
  Z.of_nat (length (filter (λ pf, pf.2 = f) d)).

Definition deliveries (e : E) (updates : list OrderStateUpdate) : E :=
  foldl (λ e u, (sink_on_order_update e u).1) e updates.

Record flow_inv (e : E) (s : om_system) : Prop := {
  fl_accepted : sy_accepted s ≡ₚ sy_tracked s ++ sy_pushed s;
  fl_pushed :
    sy_pushed s =
      (sy_done s).*1 ++ pc_intent (sy_pc s) ++ sy_local s ++ om_outbound_queue (sy_om s);
  fl_applied : sy_applied s = sy_delivered s ++ pc_update (sy_pc s);
  fl_sink : om_sink (sy_om s) = deliveries e (sy_delivered s);
  fl_submitted : om_submitted_count (sy_om s) = u64 (Z.of_nat (length (sy_pushed s)));
  fl_sent : om_sent_count (sy_om s) = u64 (fated fate_sent (sy_done s));
  fl_failed : om_send_failed_count (sy_om s) = u64 (fated fate_failed (sy_done s));
  fl_rejects :
    gate_rejects (om_core (sy_om s)) =
      u64 (fated fate_rejected (sy_done s) + fated fate_dropped (sy_done s));
  fl_transitions :
    omc_transition_applied_count (om_core (sy_om s)) = u64 (Z.of_nat (length (sy_applied s)));
}.

Lemma fated_snoc f d p g : fated f (d ++ [(p, g)]) = fated f d + (if decide (g = f) then 1 else 0).
Proof.
  unfold fated. rewrite filter_app, length_app, filter_cons, filter_nil. simpl.
  case_decide; simpl; lia.
Qed.

Lemma u64_inc_u64 z : u64_inc (u64 z) = u64 (z + 1).
Proof. unfold u64_inc. apply u64_u64_add. Qed.

Lemma deliveries_snoc e l u :
  deliveries e (l ++ [u]) = (sink_on_order_update (deliveries e l) u).1.
Proof. unfold deliveries. by rewrite foldl_snoc. Qed.

(** Close the counter equations of a step. *)
Ltac flow_counts :=
  rewrite ?length_app, ?fated_snoc; simpl; rewrite ?u64_inc_u64, ?u64_u64_add; f_equal; lia.

(** A gate section keeps the flow invariant: the intent moves on, or meets its fate. *)
Lemma after_gate_flow e s p m r rest next released :
  flow_inv e s → pc_intent (sy_pc s) ++ sy_local s = p :: rest → pc_update (sy_pc s) = [] →
  gate_effect (sy_om s) m r → pc_intent next = [p] → pc_update next = [] →
  flow_inv e (after_gate (s <| sy_om := m |> <| sy_local := rest |>
                            <| sy_released := released |>) p r next).
Proof.
  intros [Ha Hp Hap Hs Hsu Hse Hf Hr Ht] Hhead Hup ((Hq & Hsu' & Hse' & Hf') & Hsk & _ & Hg & Htr)
    Hni Hnu.
  rewrite (app_assoc (pc_intent _)), Hhead in Hp. rewrite Hup, app_nil_r in Hap.
  destruct r as [| |u err]; split; simpl in *; rewrite ?Hq, ?Hsu', ?Hse', ?Hf', ?Hsk, ?Hg, ?Htr,
    ?Hni, ?Hnu, ?fmap_app, ?app_nil_r, ?Hsu, ?Hse, ?Hf, ?Hr, ?Ht; simpl; try done;
    try (rewrite Hp, <-?app_assoc; done); try (by rewrite Hap); flow_counts.
Qed.

(** The sections that neither queue nor finish an intent. *)
Lemma same_flow_flow e s m :
  same_flow (sy_om s) m → om_sink m = om_sink (sy_om s) →
  gate_rejects (om_core m) = gate_rejects (om_core (sy_om s)) →
  omc_transition_applied_count (om_core m) = omc_transition_applied_count (om_core (sy_om s)) →
  flow_inv e s → flow_inv e (s <| sy_om := m |>).
Proof.
  intros (Hq & Hsu' & Hse' & Hf') Hsk Hg Htr [].
  split; simpl; rewrite ?Hq, ?Hsu', ?Hse', ?Hf', ?Hsk, ?Hg, ?Htr; done.
Qed.

Lemma deliver_flow e s update m :
  flow_inv e s → pc_update (sy_pc s) = [update] → pc_intent (sy_pc s) = [] →
  same_flow (sy_om s) m → om_core m = om_core (sy_om s) →
  om_sink m = (sink_on_order_update (om_sink (sy_om s)) update).1 →
  flow_inv e (s <| sy_om := m |> <| sy_pc := pc_idle |> <| sy_delivered ::= λ l, l ++ [update] |>).
Proof.
  intros [Ha Hp Hap Hs Hsu Hse Hf Hr Ht] Hup Hni (Hq & Hsu' & Hse' & Hf') Hc Hsk.
  rewrite Hni in Hp. rewrite Hup in Hap.
  split; simpl; rewrite ?Hq, ?Hsu', ?Hse', ?Hf', ?Hsk, ?Hc, ?app_nil_r, ?deliveries_snoc; try done.
  by rewrite Hs.
Qed.

(** An accepted intent waits to be pushed. *)
Lemma submit_flow e s m r :
  submit_effect (sy_om s) m r → flow_inv e s →
  flow_inv e (s <| sy_om := m |> <| sy_tracked ::= λ l, l ++ option_list r |>
                <| sy_accepted ::= λ l, l ++ option_list r |>).
Proof.
  intros ((Hq & Hsu & Hse & Hf) & Hsk & Hg & Htr & _) [Ha Hp Hap].
  split; simpl; rewrite ?Hq, ?Hsu, ?Hse, ?Hf, ?Hsk, ?Hg, ?Htr; try done.
  rewrite Ha. solve_Permutation.
Qed.

Lemma om_step_flow e s s' : om_step s s' → flow_inv e s → flow_inv e s'.
Proof.
  destruct 1 as [s intent clock m r Hs|s intent clock m r Hs|s l1 p l2 Hl|s1 s1' [s Hpc Hl
    |s p rest clocks m r Hpc Hl Hs|s p clocks m r Hpc Hs|s p m sent Hpc Hs|s u err Hpc
    |s clock m r flag Hpc Hl Hs|s u Hpc]|s t|s b j]; intros Hinv.
  - by eapply submit_flow, Hinv; eapply submit_track_effect.
  - by eapply submit_flow, Hinv; eapply submit_accept_effect.
  - destruct Hinv as [Ha Hp Hap Hs Hsu Hse Hf Hr Ht]. split; simpl; try done.
    + rewrite Ha, Hl. solve_Permutation.
    + rewrite Hp, <-!app_assoc. done.
    + rewrite Hsu. flow_counts.
  - destruct Hinv as [Ha Hp Hap Hs Hsu Hse Hf Hr Ht]. split; simpl; try done.
    rewrite Hp, Hl, app_nil_r. done.
  - apply after_gate_flow; rewrite ?Hpc; try done. by eapply global_section_effect.
  - apply (after_gate_flow e s p m r (sy_local s) (pc_send p) (sy_released s));
      rewrite ?Hpc; try done. by eapply portfolio_section_effect.
  - apply send_intent_effect in Hs as (Hc & Hsk & Hq & Hsu' & Hse' & Hf').
    destruct Hinv as [Ha Hp Hap Hs Hsu Hse Hf Hr Ht]. rewrite Hpc in Hp, Hap.
    split; simpl; rewrite ?Hq, ?Hsu', ?Hse', ?Hf', ?Hsk, ?Hc; try done.
    + rewrite Hp, fmap_app, <-app_assoc. done.
    + rewrite fated_snoc, Hse. destruct sent; simpl; rewrite ?u64_inc_u64; f_equal; lia.
    + rewrite fated_snoc, Hf. destruct sent; simpl; rewrite ?u64_inc_u64; f_equal; lia.
    + rewrite !fated_snoc, Hr. destruct sent; simpl; f_equal; lia.
  - destruct (deliver_reject_effect (sy_om s) u err) as (? & ? & ?).
    apply deliver_flow; by rewrite ?Hpc.
  - apply pump_apply_effect in Hs as ((Hq & Hsu' & Hse' & Hf') & Hsk & _ & Hg & Htr).
    destruct Hinv as [Ha Hp Hap Hs Hsu Hse Hf Hr Ht]. rewrite Hpc, Hl in Hp. rewrite Hpc in Hap.
    split; simpl; rewrite ?Hq, ?Hsu', ?Hse', ?Hf', ?Hsk, ?Hg, ?Htr; try done.
    + rewrite Hp, Hl. by destruct r.
    + rewrite Hap, app_nil_r. by destruct r; rewrite ?app_nil_r.
    + rewrite length_app, Ht. destruct r; simpl; rewrite ?u64_inc_u64; f_equal; lia.
  - destruct (deliver_effect (sy_om s) u) as (? & ? & ?).
    apply deliver_flow; by rewrite ?Hpc.
  - by apply same_flow_flow.
  - by apply same_flow_flow.
Qed.

(** ** The global limits *)

(** An accepted intent has a client id, and an order-creating one has its order tracked. *)
Definition intent_tracked (c : OrderManagerCore) (p : PendingIntent) : Prop :=
  oi_client_order_id (pi_intent p) ≠ "" ∧
  (creates_order (pi_intent p) →
   ∃ o, omc_in_flight_orders c !! oi_client_order_id (pi_intent p) = Some o ∧
        fo_request_id o = pi_request_id p ∧
        (0 < oi_qty_lots (pi_intent p) → fo_requested_qty_lots o = oi_qty_lots (pi_intent p))).

Definition within (limit amount : Z) : Prop := limit > 0 → amount ≤ limit.

Record risk_inv (g : GlobalRiskConfig) (c : OrderManagerCore) (accepted : list PendingIntent)
    (released : gset string) : Prop := {
  ri_config : omc_global_risk_config c = g;
  ri_wf : core_wf c;
  ri_accepted p : p ∈ accepted → intent_tracked c p;
  ri_distinct :
    NoDup ((λ p, oi_client_order_id (pi_intent p)) <$>
             filter (λ p, creates_order (pi_intent p)) accepted);
  ri_released k : k ∈ released → is_Some (omc_in_flight_orders c !! k);
  ri_limits :
    core_bounded c →
    within (gc_max_active_orders_global g)
      (exposure (λ k _, bool_decide (k ∈ released)) (λ _, 1) (omc_in_flight_orders c)) ∧
    within (gc_max_outstanding_qty_global g)
      (exposure (λ k _, bool_decide (k ∈ released)) outstanding_qty (omc_in_flight_orders c));
}.

Lemma risk_inv_core_step g c c' accepted released :
  core_step c c' → risk_inv g c accepted released → risk_inv g c' accepted released.
Proof.
  intros Hs [Hcfg Hwf Hacc Hdis Hrel Hlim]. split; [| | |done|..].
  - destruct (core_step_cases _ _ Hs) as [-> _]. done.
  - by apply (core_step_wf c).
  - intros p Hp. destruct (Hacc p Hp) as [Hne Hcr]. split; [done|]. intros Hc.
    destruct (Hcr Hc) as (o & Ho & Hid & Hq).
    destruct (core_step_order _ _ _ _ Hs Hwf Ho) as (o' & Ho' & (Hr & _ & _ & _ & Hrq & _) & _).
    exists o'. split_and!; [done|congruence|]. intros. rewrite Hrq. auto.
  - intros k Hk. by eapply core_step_dom, Hrel.
  - intros Hb. apply (core_bounded_mono _ _ Hs) in Hb. destruct (Hlim Hb) as [H1 H2].
    pose proof (exposure_step released _ c c' shrinking_one Hs Hb Hrel).
    pose proof (exposure_step released _ c c' shrinking_outstanding Hs Hb Hrel).
    unfold within in *. split; intros; [specialize (H1 ltac:(lia))|specialize (H2 ltac:(lia))]; lia.
Qed.

Lemma risk_inv_core_steps g c c' accepted released :
  rtc core_step c c' → risk_inv g c accepted released → risk_inv g c' accepted released.
Proof. induction 1; [done|]. intros. eauto using risk_inv_core_step. Qed.

(** A new accepted intent is tracked by the core it comes from. *)
Lemma risk_inv_accept g c c' accepted released p :
  risk_inv g c accepted released →
  validate_and_track_submission c (pi_request_id p) (pi_intent p) = (c', Ok tt) →
  risk_inv g c' (accepted ++ [p]) released.
Proof.
  intros Hinv Hv. pose proof (core_step_submit c (pi_request_id p) (pi_intent p)) as Hs.
  rewrite Hv in Hs. simpl in Hs. pose proof (risk_inv_core_step _ _ _ _ _ Hs Hinv) as [Hcfg Hwf Hacc Hdis Hrel Hlim].
  pose proof (validate_outcome c (pi_request_id p) (pi_intent p)) as Hout. rewrite Hv in Hout.
  unfold submission_outcome in Hout. simpl in Hout.
  destruct Hout as [([Hne Hfresh] & _ & Hc)|(_ & [msg ?] & _)]; [|done].
  assert (creates_order (pi_intent p) →
    omc_in_flight_orders c !! oi_client_order_id (pi_intent p) = None) as Hnone.
  { intros [Hcr|Hcr]; rewrite Hcr in Hfresh; by destruct Hfresh. }
  split; try done.
  2: { rewrite filter_app, fmap_app. apply NoDup_app. split; [done|].
    rewrite filter_cons, filter_nil.
    destruct (decide (creates_order (pi_intent p))) as [Hcr|Hcr]; simpl; [|split; [by intros ? _ ?%not_elem_of_nil|constructor]].
    split; [|apply NoDup_singleton]. intros k Hk ->%list_elem_of_singleton.
    apply list_elem_of_fmap in Hk as (p' & Heq & [Hcr' Hp']%list_elem_of_filter).
    destruct (ri_accepted _ _ _ _ Hinv p' Hp') as [_ Htr]. destruct (Htr Hcr') as (o & Ho & _).
    rewrite <-Heq, Hnone in Ho; done. }
  intros p' [Hp'|Hp']%elem_of_app; [by apply Hacc|].
  apply list_elem_of_singleton in Hp' as ->. split; [done|].
  intros Hcr. rewrite decide_False in Hc by (destruct Hcr; congruence).
  destruct Hc as (o & Ho & ->). simpl. exists o. rewrite lookup_insert_eq.
  destruct Ho as (? & _ & _ & _ & _ & _ & _ & Hq & _). split_and!; [done..|]. intros. apply Hq. lia.
Qed.

Lemma submit_risk g m m' r accepted released :
  submit_effect m m' r → risk_inv g (om_core m) accepted released →
  risk_inv g (om_core m') (accepted ++ option_list r) released.
Proof.
  intros (_ & _ & _ & _ & [[-> Hs]|(p & -> & Hv)]) Hi; simpl.
  - rewrite app_nil_r. by eapply risk_inv_core_steps.
  - by eapply risk_inv_accept.
Qed.

(** The gate releases an order only within the limits. *)
Lemma risk_inv_release g m m' accepted released p clocks r :
  risk_inv g (om_core m) accepted released → p ∈ accepted →
  global_section m (pi_intent p) clocks = (m', r) →
  risk_inv g (om_core m') accepted (release p r released).
Proof.
  intros Hinv Hp Hs. pose proof (global_section_effect _ _ _ _ _ Hs) as (_ & _ & Hsteps & _).
  pose proof (risk_inv_core_steps _ _ _ _ _ Hsteps Hinv) as Hinv'.
  destruct r; simpl; [|done..]. case_decide as Hrel; [|done]. destruct Hrel as [Hcr Hq].
  unfold global_section in Hs.
  destruct (evaluate_global_risk (om_core m) (pi_intent p)) as [core [d|]] eqn:He;
    [unfold apply_reject in Hs; by repeat case_match|].
  simplify_eq/=. destruct Hinv' as [Hcfg Hwf Hacc Hdis Hrl _].
  destruct (ri_accepted _ _ _ _ Hinv p Hp) as [Hne Htr]. destruct (Htr Hcr) as (o & Ho & _ & Hoq).
  assert (is_Some (omc_in_flight_orders core !! oi_client_order_id (pi_intent p))) as Hsome.
  { destruct (Hacc p Hp) as [_ Hx]. destruct (Hx Hcr) as (o' & Ho' & _). eauto. }
  split; try done.
  { intros k [->%elem_of_singleton|Hk]%elem_of_union; [done|by apply Hrl]. }
  intros Hb. assert (core = om_core m) as ->.
  { unfold evaluate_global_risk in He. by case_match; simplify_eq. }
  destruct (gate_pass_exposure _ _ _ o He Hcr Hb Hne Hq Ho (Hoq Hq)) as (_ & H1 & H2).
  rewrite <-(ri_config _ _ _ _ Hinv). unfold within.
  split; intros; (etrans; [|by (apply H1 || apply H2)]); apply exposure_mono; try done; intros.
  apply outstanding_le. by eapply core_bounded_requested.
Qed.

(** ** Reachable states of a session *)
Record session_inv (g : GlobalRiskConfig) (e : E) (s : om_system) : Prop := {
  se_flow : flow_inv e s;
  se_risk : risk_inv g (om_core (sy_om s)) (sy_accepted s) (sy_released s);
  se_released p :
    p ∈ pc_intent (sy_pc s) ∨ (p, fate_sent) ∈ sy_done s → opens_order p →
    oi_client_order_id (pi_intent p) ∈ sy_released s;
}.

Lemma local_accepted e s p :
  flow_inv e s → p ∈ sy_local s → p ∈ sy_accepted s.
Proof. intros [Ha Hp] Hin. rewrite Ha, Hp, !elem_of_app. auto. Qed.

Lemma after_gate_fields s p r next :
  sy_om (after_gate s p r next) = sy_om s ∧ sy_accepted (after_gate s p r next) = sy_accepted s ∧
  sy_released (after_gate s p r next) = sy_released s.
Proof. by destruct r. Qed.

(** A gate section keeps track of what has been released. *)
Lemma after_gate_released s p r next (released : gset string) :
  (∀ q, (q, fate_sent) ∈ sy_done s → opens_order q →
        oi_client_order_id (pi_intent q) ∈ released) →
  (r = gate_pass → pc_intent next = [p] ∧
     (opens_order p → oi_client_order_id (pi_intent p) ∈ released)) →
  ∀ q, q ∈ pc_intent (sy_pc (after_gate s p r next)) ∨
       (q, fate_sent) ∈ sy_done (after_gate s p r next) → opens_order q →
       oi_client_order_id (pi_intent q) ∈ released.
Proof.
  intros Hd Hn q. destruct r as [| |u err]; simpl.
  - destruct (Hn eq_refl) as [-> Hp]. intros [->%list_elem_of_singleton|Hq]; auto.
  - intros [Hq|[Hq|Hq]%elem_of_app]; [by apply not_elem_of_nil in Hq|auto|].
    by apply list_elem_of_singleton in Hq.
  - intros [Hq|[Hq|Hq]%elem_of_app]; [by apply not_elem_of_nil in Hq|auto|].
    by apply list_elem_of_singleton in Hq.
Qed.

Lemma om_step_session g e s s' : om_step s s' → session_inv g e s → session_inv g e s'.
Proof.
  intros Hstep [Hflow Hrisk Hrel]. split; [by eapply om_step_flow| |].
  - destruct Hstep as [s intent clock m r Hs|s intent clock m r Hs|s l1 p l2 Hl|s1 s1' [s Hpc Hl
      |s p rest clocks m r Hpc Hl Hs|s p clocks m r Hpc Hs|s p m sent Hpc Hs|s u err Hpc
      |s clock m r flag Hpc Hl Hs|s u Hpc]|s t|s b j]; try done.
    + apply submit_track_effect in Hs. by eapply submit_risk.
    + apply submit_accept_effect in Hs. by eapply submit_risk.
    + destruct (after_gate_fields (s <| sy_om := m |> <| sy_local := rest |>
        <| sy_released ::= release p r |>) p r (pc_portfolio p)) as (-> & -> & ->). simpl.
      eapply risk_inv_release; [done| |done]. eapply local_accepted; [done|]. rewrite Hl. apply list_elem_of_here.
    + destruct (after_gate_fields (s <| sy_om := m |>) p r (pc_send p)) as (-> & -> & ->). simpl.
      apply portfolio_section_effect in Hs as (_ & _ & Hs & _). by eapply risk_inv_core_steps.
    + apply send_intent_effect in Hs as (Hc & _). simpl. by rewrite Hc.
    + simpl. by rewrite (proj1 (proj2 (deliver_reject_effect _ _ _))).
    + apply pump_apply_effect in Hs as (_ & _ & Hs & _). by eapply risk_inv_core_steps.
    + simpl. by rewrite (proj1 (proj2 (deliver_effect _ _))).
  - destruct Hstep as [s intent clock m r Hs|s intent clock m r Hs|s l1 p l2 Hl|s1 s1' [s Hpc Hl
      |s p rest clocks m r Hpc Hl Hs|s p clocks m r Hpc Hs|s p m sent Hpc Hs|s u err Hpc
      |s clock m r flag Hpc Hl Hs|s u Hpc]|s t|s b j]; try done.
    + destruct (after_gate_fields (s <| sy_om := m |> <| sy_local := rest |>
        <| sy_released ::= release p r |>) p r (pc_portfolio p)) as (_ & _ & ->).
      apply after_gate_released; simpl.
      * intros q Hq Ho. assert (oi_client_order_id (pi_intent q) ∈ sy_released s) by auto.
        unfold release. repeat case_match; try done. by apply elem_of_union_r.
      * intros ->. split; [done|]. intros Ho. simpl. rewrite decide_True by done.
        by apply elem_of_union_l, elem_of_singleton.
    + destruct (after_gate_fields (s <| sy_om := m |>) p r (pc_send p)) as (_ & _ & ->).
      apply after_gate_released; simpl; [auto|]. intros ->. split; [done|].
      apply Hrel. left. rewrite Hpc. apply list_elem_of_here.
    + simpl. intros q [Hq|[Hq|Hq]%elem_of_app]; [by apply not_elem_of_nil in Hq|auto|].
      apply Hrel. left. rewrite Hpc. apply list_elem_of_singleton in Hq as [= -> _].
      apply list_elem_of_here.
    + simpl. intros q [Hq|Hq]; [by apply not_elem_of_nil in Hq|auto].
    + simpl. intros q [Hq|Hq]; [destruct r; by apply not_elem_of_nil in Hq|auto].
    + simpl. intros q [Hq|Hq]; [by apply not_elem_of_nil in Hq|auto].
Qed.

(** A session: [start] succeeded on a manager whose outbound queue was empty. *)
Definition session_start m0 m : Prop := om_start m0 = (m, true) ∧ om_outbound_queue m0 = [].

Lemma start_session m0 m :
  session_start m0 m →
  session_inv (omc_global_risk_config (om_core m0)) (om_sink m0) (system_init m).
Proof.
  intros [Hs Hq]. unfold om_start in Hs. destruct (om_worker_joinable m0); [done|]. simpl in Hs.
  destruct (transport_connect _ _) as [t []]; simplify_eq/=. split; simpl.
  - by split; simpl; rewrite ?Hq.
  - assert (core_wf (core_reset (om_core m0))) as Hwf.
    { apply (core_wf_same_maps (core_init (omc_global_risk_config (om_core m0))
        (omc_portfolio_risk_config (om_core m0)))); [done..|apply core_wf_init]. }
    split; [done|done|..].
    + by intros p ?%not_elem_of_nil.
    + constructor.
    + by intros k ?%not_elem_of_empty.
    + intros _. unfold within, exposure. simpl. rewrite !sum_map_empty. split; intros; lia.
  - intros p [Hp|Hp]; by apply not_elem_of_nil in Hp.
Qed.

Lemma session_reachable m0 m s :
  session_start m0 m → rtc om_step (system_init m) s →
  session_inv (omc_global_risk_config (om_core m0)) (om_sink m0) s.
Proof.
  intros Hs Hr. apply start_session in Hs. revert Hs.
  induction Hr as [|s1 s2 s3 H12 _ IH]; [done|]. intros Hi. eauto using om_step_session.
Qed.

(** The client ids of the orders whose request went out. *)
Definition sent_ids (s : om_system) : gset string :=
  list_to_set ((λ pf, oi_client_order_id (pi_intent pf.1)) <$>
    filter (λ pf, pf.2 = fate_sent ∧ opens_order pf.1) (sy_done s)).

Lemma sent_ids_released g e s k : session_inv g e s → k ∈ sent_ids s → k ∈ sy_released s.
Proof.
  intros Hi. unfold sent_ids. rewrite elem_of_list_to_set, list_elem_of_fmap.
  intros ([p f] & -> & [[Hf Ho] Hp]%list_elem_of_filter). simpl in *. subst f.
  apply (se_released _ _ _ Hi); auto.
Qed.

(** C1: however submissions, the worker and the exchange interleave, at every moment of a
    session the orders that were sent and are still live number at most
    [max_active_orders_global], and their outstanding lots are at most
    [max_outstanding_qty_global] (each limit when enabled).  The bound on the session is the
    one under which the 64-bit sums of the gate cannot wrap. *)
Theorem live_orders_within_limits m0 m s :
  session_start m0 m → rtc om_step (system_init m) s → core_bounded (om_core (sy_om s)) →
  let g := omc_global_risk_config (om_core m0) in
  let orders := omc_in_flight_orders (om_core (sy_om s)) in
  let sent := λ k (_ : InFlightOrder), bool_decide (k ∈ sent_ids s) in
  (gc_max_active_orders_global g > 0 →
   exposure sent (λ _, 1) orders ≤ gc_max_active_orders_global g) ∧
  (gc_max_outstanding_qty_global g > 0 →
   exposure sent outstanding_qty orders ≤ gc_max_outstanding_qty_global g).
Proof.
  intros Hs Hr Hb g orders sent. pose proof (session_reachable _ _ _ Hs Hr) as Hi.
  destruct (ri_limits _ _ _ _ (se_risk _ _ _ Hi) Hb) as [H1 H2].
  assert (∀ w, (∀ k o, orders !! k = Some o → 0 ≤ w o) →
    exposure sent w orders ≤ exposure (λ k _, bool_decide (k ∈ sy_released s)) w orders) as Hle.
  { intros w Hw. apply exposure_mono; [done|]. intros k o _ _ Hk.
    apply bool_decide_eq_true in Hk. apply bool_decide_eq_true.
    by eapply sent_ids_released. }
  split; intros Hpos; (etrans; [apply Hle|by (apply H1 || apply H2)]); intros k o Hk; [lia|].
  apply outstanding_le. by eapply core_bounded_requested.
Qed.

(** C7: nothing submitted is lost, duplicated or reordered.  At every moment of a session
    the accepted intents are, up to order, those not pushed yet followed by the pushed ones;
    the pushed ones are, in order, those already processed, the one in the worker's hands,
    the rest of its batch and the queue; every processed intent met exactly one fate, and the
    statistics count them: sent, failed to send, and rejected by a gate.  No two accepted
    order-creating intents share a client id. *)
Theorem intents_processed_once m0 m s :
  session_start m0 m → rtc om_step (system_init m) s →
  sy_accepted s ≡ₚ sy_tracked s ++ sy_pushed s ∧
  sy_pushed s = (sy_done s).*1 ++ pc_intent (sy_pc s) ++ sy_local s
                  ++ om_outbound_queue (sy_om s) ∧
  NoDup ((λ p, oi_client_order_id (pi_intent p)) <$>
           filter (λ p, creates_order (pi_intent p)) (sy_accepted s)) ∧
  let st := om_stats (sy_om s) in
  mst_submitted_count st = u64 (Z.of_nat (length (sy_pushed s))) ∧
  mst_sent_count st = u64 (fated fate_sent (sy_done s)) ∧
  mst_send_failed_count st = u64 (fated fate_failed (sy_done s)) ∧
  u64 (mst_risk_reject_count st + mst_portfolio_risk_reject_count st) =
    u64 (fated fate_rejected (sy_done s) + fated fate_dropped (sy_done s)).
Proof.
  intros Hs Hr. pose proof (session_reachable _ _ _ Hs Hr) as [[] [] _]. by split_and!.
Qed.

(** C25: the sink sees exactly the updates the core applied, once each and in the order of
    application: its state is the one these deliveries lead to, at most one applied update
    is still in the worker's hands, and the transition counter counts them. *)
Theorem sink_sees_applied_updates m0 m s :
  session_start m0 m → rtc om_step (system_init m) s →
  om_sink (sy_om s) = deliveries (om_sink m0) (sy_delivered s) ∧
  sy_applied s = sy_delivered s ++ pc_update (sy_pc s) ∧
  (length (pc_update (sy_pc s)) ≤ 1)%nat ∧
  mst_transition_applied_count (om_stats (sy_om s)) = u64 (Z.of_nat (length (sy_applied s))).
Proof.
  intros Hs Hr. pose proof (session_reachable _ _ _ Hs Hr) as [[] _ _].
  split_and!; try done. destruct (sy_pc s); simpl; lia.
Qed.

(** ** The operations of the source are runs of their sections *)
Definition worker_idle (s : om_system) : Prop := sy_pc s = pc_idle ∧ sy_local s = [].

Lemma submit_run s intent clock :
  ∃ s', rtc om_step s s' ∧ sy_om s' = (submit (sy_om s) intent clock).1 ∧
        sy_pc s' = sy_pc s ∧ sy_local s' = sy_local s.
Proof.
  unfold submit. destruct (submit_track (sy_om s) intent clock) as [m [p|]] eqn:Ht.
  - eexists. split; [|split; [|split]].
    + eapply rtc_l; [by apply (step_submit s intent clock m (Some p))|].
      apply rtc_once, (step_push _ (sy_tracked s) p []). reflexivity.
    + done.
    + done.
    + done.
  - eexists. split; [apply rtc_once, (step_submit s intent clock m None Ht)|done].
Qed.

(** Deliver what a gate section left, if it rejected. *)
Lemma reject_run s update err :
  sy_pc s = pc_deliver_reject update err →
  ∃ s', rtc om_step s s' ∧ sy_om s' = deliver_reject (sy_om s) update err ∧
        sy_pc s' = pc_idle ∧ sy_local s' = sy_local s.
Proof.
  intros Hpc. eexists. split; [apply rtc_once, (step_section _ _ (step_deliver_reject s update err Hpc))|done].
Qed.

Lemma process_intent_run s p rest clocks1 clocks2 :
  sy_pc s = pc_idle → sy_local s = p :: rest →
  ∃ s', rtc om_step s s' ∧ sy_om s' = process_intent (sy_om s) (pi_intent p) clocks1 clocks2 ∧
        sy_pc s' = pc_idle ∧ sy_local s' = rest.
Proof.
  intros Hpc Hl. unfold process_intent.
  destruct (global_section (sy_om s) (pi_intent p) clocks1) as [m r] eqn:Hg.
  pose proof (step_section _ _ (step_global s p rest clocks1 m r Hpc Hl Hg)) as Hstep.
  destruct r as [| |u err].
  - set (s1 := after_gate _ _ _ _) in Hstep.
    assert (sy_om s1 = m) as Hm by done. rewrite <-Hm.
    destruct (portfolio_section (sy_om s1) (pi_intent p) clocks2) as [m2 r2] eqn:Hp.
    pose proof (step_section _ _ (step_portfolio s1 p clocks2 m2 r2 eq_refl Hp)) as Hstep2.
    destruct r2 as [| |u err].
    + set (s2 := after_gate _ _ _ _) in Hstep2.
      destruct (send_intent m2 (pi_intent p)) as [m3 sent] eqn:Hs.
      pose proof (step_section _ _ (step_send s2 p m3 sent eq_refl Hs)) as Hstep3.
      eexists. split; [by eapply rtc_l; [|eapply rtc_l; [|by apply rtc_once]]|done].
    + eexists. split; [by eapply rtc_l; [|by apply rtc_once]|done].
    + set (s2 := after_gate _ _ _ _) in Hstep2.
      destruct (reject_run s2 u err eq_refl) as (s3 & Hr & Hm3 & Hpc3 & Hl3).
      exists s3. split; [by eapply rtc_l; [|eapply rtc_l]|done].
  - eexists. split; [by apply rtc_once|done].
  - set (s1 := after_gate _ _ _ _) in Hstep.
    destruct (reject_run s1 u err eq_refl) as (s3 & Hr & Hm3 & Hpc3 & Hl3).
    exists s3. split; [by eapply rtc_l|done].
Qed.

Lemma process_all_run s clock :
  sy_pc s = pc_idle →
  ∃ s', rtc om_step s s' ∧ sy_om s' = process_all (sy_om s) clock (sy_local s) ∧ worker_idle s'.
Proof.
  remember (sy_local s) as l eqn:Hl. revert s clock Hl.
  induction l as [|p l IH]; intros s clock Hl Hpc; simpl.
  { exists s. split; [apply rtc_refl|]. split; [done|]. by split. }
  destruct (process_intent_run s p l (clock O).1 (clock O).2 Hpc (eq_sym Hl))
    as (s1 & Hr1 & Hm1 & Hpc1 & Hl1).
  destruct (IH s1 (λ n, clock (S n)) (eq_sym Hl1) Hpc1) as (s2 & Hr2 & Hm2 & Hi2).
  exists s2. split; [by etrans|]. by rewrite Hm2, Hm1.
Qed.

(** The worker's loop body, as the source composes it, is a run of the atomic sections:
    from any moment at which the worker is between two iterations, [run_once] (drain the
    queue, then pump one message) is reached by steps and ends between two iterations with
    the whole batch processed.  So every session property holds of it. *)
Theorem run_once_is_run s clock pump_clock :
  worker_idle s →
  ∃ s', rtc om_step s s' ∧ sy_om s' = run_once (sy_om s) clock pump_clock ∧ worker_idle s'.
Proof.
  intros [Hpc Hl]. unfold run_once, drain_outbound_intents, pump_incoming_update. simpl.
  pose proof (step_section _ _ (step_take s Hpc Hl)) as Ht.
  match type of Ht with om_step _ ?s0 =>
    destruct (process_all_run s0 clock Hpc) as (s1 & Hr1 & Hm1 & Hpc1 & Hl1) end.
  match goal with |- context [process_all ?a clock ?b] =>
    replace (process_all a clock b) with (sy_om s1) by exact Hm1 end.
  destruct (pump_apply (sy_om s1) pump_clock) as [[m r] flag] eqn:Hp.
  pose proof (step_section _ _ (step_pump s1 pump_clock m r flag Hpc1 Hl1 Hp)) as Hstep.
  assert (rtc om_step s s1) as Hrun by by eapply rtc_l.
  destruct r as [u|]; simpl.
  - eexists. split; [|split].
    + etrans; [exact Hrun|]. eapply rtc_l; [exact Hstep|].
      apply rtc_once, step_section, (step_deliver _ u). reflexivity.
    + done.
    + by split.
  - eexists. split; [by eapply rtc_r|]. split; [done|]. by split.
Qed.

(** ** The worker gets through its batch *)

(** A run, with the number of sections the worker took; other steps leave it where it is. *)
Inductive om_run : nat → om_system → om_system → Prop :=
  | om_run_nil s : om_run 0 s s
  | om_run_worker n s s' s'' : om_run n s s' → worker_section s' s'' → om_run (S n) s s''
  | om_run_other n s s' s'' :
      om_run n s s' → om_step s' s'' →
      sy_pc s'' = sy_pc s' → sy_local s'' = sy_local s' → sy_done s'' = sy_done s' →
      om_run n s s''.

(** The sections left to the worker until it looks at the queue again. *)
Definition batch_steps (s : om_system) : nat :=
  3 * length (sy_local s) +
  match sy_pc s with pc_idle => 0 | pc_portfolio _ => 2 | _ => 1 end.

(** The intents the worker has processed or taken. *)
Definition taken (s : om_system) : list PendingIntent :=
  (sy_done s).*1 ++ pc_intent (sy_pc s) ++ sy_local s.

Lemma batch_steps_idle s : batch_steps s = 0%nat ↔ worker_idle s.
Proof.
  unfold batch_steps, worker_idle. destruct (sy_pc s), (sy_local s); simpl; split;
    (lia || naive_solver).
Qed.

Lemma after_gate_batch s p r next :
  pc_intent next = [p] →
  sy_local (after_gate s p r next) = sy_local s ∧
  taken (after_gate s p r next) = (sy_done s).*1 ++ [p] ++ sy_local s ∧
  (sy_pc (after_gate s p r next) = next ∨
   match sy_pc (after_gate s p r next) with
   | pc_idle | pc_deliver_reject _ _ => True | _ => False end).
Proof.
  intros Hn. destruct r; simpl; unfold taken; simpl; rewrite ?Hn, ?fmap_app, <-?app_assoc; auto.
Qed.

Lemma worker_section_batch s s' :
  worker_section s s' → ¬ worker_idle s →
  (batch_steps s' < batch_steps s)%nat ∧ taken s' = taken s.
Proof.
  intros Hstep Hbusy. destruct Hstep as [s Hpc Hl|s p rest clocks m r Hpc Hl Hs
    |s p clocks m r Hpc Hs|s p m sent Hpc Hs|s u err Hpc|s clock m r flag Hpc Hl Hs|s u Hpc];
    try (by destruct Hbusy).
  - match goal with |- context [after_gate ?s1 p r ?next] =>
      destruct (after_gate_batch s1 p r next eq_refl) as (Hl' & Ht & Hpc');
      generalize dependent (after_gate s1 p r next) end.
    intros s2 Hl' -> Hpc'. unfold batch_steps, taken. simpl in Hl' |- *. rewrite Hl', Hpc, Hl. simpl.
    split; [|done]. destruct Hpc' as [-> |Hpc']; [lia|]. case_match; lia || done.
  - match goal with |- context [after_gate ?s1 p r ?next] =>
      destruct (after_gate_batch s1 p r next eq_refl) as (Hl' & Ht & Hpc');
      generalize dependent (after_gate s1 p r next) end.
    intros s2 Hl' -> Hpc'. unfold batch_steps, taken. simpl in Hl' |- *. rewrite Hl', Hpc. simpl.
    split; [|done]. destruct Hpc' as [-> |Hpc']; [lia|]. case_match; lia || done.
  - unfold batch_steps, taken. rewrite Hpc. simpl. rewrite fmap_app, <-app_assoc. split; [lia|done].
  - unfold batch_steps, taken. rewrite Hpc. simpl. split; [lia|done].
  - unfold batch_steps, taken. rewrite Hpc. simpl. split; [lia|done].
Qed.

Lemma om_run_rtc n s s' : om_run n s s' → rtc om_step s s'.
Proof.
  induction 1 as [|n s s' s'' _ IH Hw|n s s' s'' _ IH Hw _ _ _]; [done| |];
    eapply rtc_r; [exact IH|by apply step_section|exact IH|done].
Qed.

Lemma om_run_batch n s s' :
  om_run n s s' →
  (∃ n1 s1, om_run n1 s s1 ∧ rtc om_step s1 s' ∧ worker_idle s1 ∧ (n1 ≤ batch_steps s)%nat ∧
     (sy_done s1).*1 = taken s) ∨
  ¬ worker_idle s' ∧ (batch_steps s' + n ≤ batch_steps s)%nat ∧ taken s' = taken s.
Proof.
  assert (∀ n s s1, om_run n s s1 → (batch_steps s1 + n ≤ batch_steps s)%nat →
    taken s1 = taken s →
    (∃ n1 s1', om_run n1 s s1' ∧ rtc om_step s1' s1 ∧ worker_idle s1' ∧
       (n1 ≤ batch_steps s)%nat ∧ (sy_done s1').*1 = taken s) ∨
    ¬ worker_idle s1 ∧ (batch_steps s1 + n ≤ batch_steps s)%nat ∧ taken s1 = taken s) as Hcase.
  { intros k s0 s1 Hrun Hle Ht. destruct (decide (batch_steps s1 = 0%nat)) as [Hz|Hz].
    - left. apply batch_steps_idle in Hz as [Hpc Hl]. exists k, s1.
      split_and!; [done|done|done| |]; [lia|].
      rewrite <-Ht. unfold taken. by rewrite Hpc, Hl, !app_nil_r.
    - right. by rewrite <-batch_steps_idle. }
  induction 1 as [s|n s s' s'' Hrun IH Hw|n s s' s'' Hrun IH Hst Hpc Hl Hd].
  - apply (Hcase 0%nat s s); [constructor|lia|done].
  - destruct IH as [(n1 & s1 & ? & Hr & ? & ? & ?)|(Hbusy & Hle & Ht)].
    { left. exists n1, s1. split_and!; try done. eapply rtc_r; [done|by apply step_section]. }
    destruct (worker_section_batch _ _ Hw Hbusy) as [Hlt Ht']. apply Hcase; [|lia|congruence].
    by eapply om_run_worker.
  - destruct IH as [(n1 & s1 & ? & Hr & ? & ? & ?)|(Hbusy & Hle & Ht)].
    { left. exists n1, s1. split_and!; try done. by eapply rtc_r. }
    apply Hcase; [by eapply om_run_other|..]; unfold batch_steps, taken in *; by rewrite Hpc, Hl, ?Hd.
Qed.

Lemma busy_worker_steps s : ¬ worker_idle s → ∃ s', worker_section s s'.
Proof.
  intros Hbusy. destruct (sy_pc s) as [|p|p|u err|u] eqn:Hpc.
  - destruct (sy_local s) as [|p rest] eqn:Hl; [by destruct Hbusy|].
    destruct (global_section (sy_om s) (pi_intent p) (0, 0)) as [m r] eqn:Hg.
    eexists. by eapply step_global.
  - destruct (portfolio_section (sy_om s) (pi_intent p) (0, 0)) as [m r] eqn:Hg.
    eexists. by eapply step_portfolio.
  - destruct (send_intent (sy_om s) (pi_intent p)) as [m sent] eqn:Hg.
    eexists. by eapply step_send.
  - eexists. by eapply step_deliver_reject.
  - eexists. by eapply step_deliver.
Qed.

(** C31: The drain of the queue terminates.  Whatever other threads submit and whatever the
    transport does meanwhile, a worker with intents in hand that takes three sections for
    each of them (and at most two for the one it is working on) has passed a point where it
    is between two rounds, within that many sections, and there exactly the intents it had
    in hand have met their fate, in order; and as long as it is not there it is never
    blocked. *)
Theorem batch_drains n s s' :
  om_run n s s' → (batch_steps s ≤ n)%nat →
  (∃ n1 s1, om_run n1 s s1 ∧ rtc om_step s1 s' ∧ worker_idle s1 ∧ (n1 ≤ batch_steps s)%nat ∧
     (sy_done s1).*1 = (sy_done s).*1 ++ pc_intent (sy_pc s) ++ sy_local s) ∧
  (worker_idle s ∨ ∃ s1, worker_section s s1).
Proof.
  intros Hrun Hn. split.
  - destruct (om_run_batch _ _ _ Hrun) as [?|(Hbusy & Hle & _)]; [done|].
    destruct Hbusy. apply batch_steps_idle. lia.
  - destruct (decide (batch_steps s = 0%nat)) as [Hz|Hz].
    + left. by apply batch_steps_idle.
    + right. apply busy_worker_steps. by rewrite <-batch_steps_idle.
Qed.

(** One intent on its way through an idle manager without snapshot provider. *)
Lemma sent_run m intent clock clocks p m1 m2 m3 :
  provider = None →
  submit_track m intent clock = (m1, Some p) → om_outbound_queue m1 = [] →
  global_section ((submit_push m1 p) <| om_outbound_queue := [] |>) (pi_intent p) clocks
    = (m2, gate_pass) →
  send_intent m2 (pi_intent p) = (m3, true) →
  rtc om_step (system_init m)
    (mkSystem m3 [] [] pc_idle [p] [p] [(p, fate_sent)] (release p gate_pass ∅) [] []).
Proof.
  intros Hprov Hsub Hq Hg Hs.
  eapply rtc_l; [exact (step_submit (system_init m) intent clock m1 (Some p) Hsub)|].
  eapply rtc_l; [apply (step_push _ [] p []); reflexivity|].
  eapply rtc_l; [apply step_section, step_take; reflexivity|].
  eapply rtc_l; [eapply step_section, (step_global _ p [] clocks m2 gate_pass); [done|simpl; by rewrite Hq|done]|].
  eapply rtc_l; [eapply step_section, (step_portfolio _ p clocks m2 gate_pass); [done|]|].
  { unfold portfolio_section. by rewrite Hprov. }
  eapply rtc_l; [apply step_section, (step_send _ p m3 true); [reflexivity|exact Hs]|]. apply rtc_refl.
Qed.

End order_manager.

(** ** A concrete session: the paper transport, and a sink that keeps what it receives *)
#[export] Instance demo_sink : OrderEventSink (list OrderStateUpdate) := {|
  sink_on_order_update log u := (log ++ [u], true);
|}.

Definition demo_config : OrderTransportConfig := mkOrderTransportConfig "paper" ∅.
Definition demo_manager : OrderManager PaperOrderTransport (list OrderStateUpdate) :=
  (om_start demo_config
     (om_init (mkGlobalRiskConfig 2 1 100 50) (mkPortfolioRiskConfig 0 0 0 false)
        (paper_init true) [])).1.

Lemma demo_started :
  session_start demo_config
    (om_init (mkGlobalRiskConfig 2 1 100 50) (mkPortfolioRiskConfig 0 0 0 false)
       (paper_init true) []) demo_manager.
Proof. by split. Qed.

(** One intent submitted, drained, passed by the gate and sent. *)
Definition demo_pending : PendingIntent := mkPendingIntent 1 (demo_intent Side_kBuy 5).
Definition demo_after_submit := (submit_track demo_manager (demo_intent Side_kBuy 5) 1).1.
Definition demo_passed :=
  (global_section ((submit_push demo_after_submit demo_pending) <| om_outbound_queue := [] |>)
     (demo_intent Side_kBuy 5) (1, 1)).1.
Definition demo_after_send := (send_intent demo_passed (demo_intent Side_kBuy 5)).1.

Definition demo_final : om_system :=
  mkSystem demo_after_send [] [] pc_idle [demo_pending] [demo_pending]
    [(demo_pending, fate_sent)] (release demo_pending gate_pass ∅) [] [].

Lemma demo_reached : rtc (om_step None) (system_init demo_manager) demo_final.
Proof.
  apply (sent_run None demo_manager (demo_intent Side_kBuy 5) 1 (1, 1) demo_pending
    demo_after_submit demo_passed demo_after_send); vm_compute; reflexivity.
Qed.

Lemma demo_final_facts :
  sent_ids demo_final = {["c1"]} ∧ core_bounded (om_core (sy_om demo_final)).
Proof. vm_compute. by split_and!. Qed.

Lemma live_orders_within_limits_witness :
  sent_ids demo_final = {["c1"]} ∧
  exposure (λ k _, bool_decide (k ∈ sent_ids demo_final)) (λ _, 1)
    (omc_in_flight_orders (om_core (sy_om demo_final))) ≤ 2.
Proof.
  destruct demo_final_facts as [Hs Hb]. split; [exact Hs|].
  apply (live_orders_within_limits demo_config None _ demo_manager demo_final demo_started
    demo_reached Hb).
  vm_compute. reflexivity.
Defined.

Lemma intents_processed_once_witness :
  sy_accepted demo_final ≡ₚ sy_tracked demo_final ++ sy_pushed demo_final.
Proof.
  exact (proj1 (intents_processed_once demo_config None _ demo_manager demo_final demo_started
    demo_reached)).
Defined.

Lemma sink_sees_applied_updates_witness :
  om_sink (sy_om demo_final) = deliveries [] (sy_delivered demo_final).
Proof.
  exact (proj1 (sink_sees_applied_updates demo_config None _ demo_manager demo_final demo_started
    demo_reached)).
Defined.

Lemma run_once_is_run_witness :
  ∃ s, rtc (om_step None) (system_init demo_manager) s ∧
       sy_om s = run_once None demo_manager (λ _, ((1, 1), (1, 1))) 1 ∧ worker_idle s.
Proof. by apply (run_once_is_run None (system_init demo_manager)). Defined.

(** A worker with one intent in hand: three sections until it is sent. *)
Definition demo_batch : om_system (T:=PaperOrderTransport) (E:=list OrderStateUpdate) :=
  (system_init ((submit_push demo_after_submit demo_pending) <| om_outbound_queue := [] |>))
    <| sy_local := [demo_pending] |>.

Lemma demo_batch_run : ∃ s, om_run None 3 demo_batch s.
Proof.
  eexists. eapply om_run_worker; [eapply om_run_worker; [eapply om_run_worker|]|].
  - constructor.
  - apply (step_global _ demo_batch demo_pending [] (1, 1) demo_passed gate_pass);
      [reflexivity|reflexivity|vm_compute; reflexivity].
  - apply (step_portfolio _ _ demo_pending (1, 1) demo_passed gate_pass); reflexivity.
  - apply (step_send _ _ demo_pending demo_after_send true);
      [reflexivity|vm_compute; reflexivity].
Qed.

Lemma batch_drains_witness :
  ∃ n s, om_run None n demo_batch s ∧ (n ≤ 3)%nat ∧ worker_idle s ∧
    (sy_done s).*1 = [demo_pending].
Proof.
  destruct demo_batch_run as [s Hrun].
  destruct (batch_drains None 3 demo_batch s Hrun) as [(n & s1 & Hr & _ & Hi & Hn & Hd) _].
  - vm_compute. reflexivity.
  - exists n, s1. exact (conj Hr (conj Hn (conj Hi Hd))).
Defined.
