(* ===== verification/OmsLifecycle.v ===== *)
(** * Stopping the order manager while it runs

    [OrderManager::stop] is called by one thread while the worker is anywhere in its loop
    and other threads are anywhere in [submit].  Here the loop of [OrderManager::run] has
    its program points, the caller of [stop] has those of its own, and both interleave with
    the sections of OrderManager.v: the request to stop, the two closings of the transport,
    the join and the two stores of [running_] are steps of their own, and a submitting
    thread that has read [running_] acts on it later.

    A run of this system is a run of [om_step], so what holds of a session holds until and
    after it is stopped; [stop] returns, whatever the worker was doing; when it has
    returned, nothing more is sent, applied or delivered.  [om_stop] of OrderManager.v is the run in
    which the worker is between two rounds. *)
From S2P Require Import Prelude.
From S2P Require Import Types.
From S2P Require Import RiskGates.
From S2P Require Import OrderManagerCore.
From S2P Require Import Nlohmann.
From S2P Require Import OmsAdapter.
From S2P Require Import OrderTransport.
From S2P Require Import OrderManager.

(** Where the worker is in [run]: at the loop condition, about to take the queue, in the
    batch, about to receive, with a received message, after the loop, before the store of
    [running_], or gone. *)
Inductive run_pc :=
  | run_test | run_take | run_batch | run_pump | run_message | run_close | run_store
  | run_exited.

#[export] Instance run_pc_eq_dec : EqDecision run_pc.
Proof. solve_decision. Defined.

(** Where the controlling thread is: [stop] has not been called, has requested the stop,
    has closed the transport, has joined the worker, has returned. *)
Inductive control_pc := ctl_running | ctl_close | ctl_join | ctl_store | ctl_stopped.

#[export] Instance control_pc_eq_dec : EqDecision control_pc.
Proof. solve_decision. Defined.

Section lifecycle.
Context `{ExchangeOmsAdapter} {T E : Type} `{!OrderTransport T} `{!OrderEventSink E}.
Context (transport_config : OrderTransportConfig) (provider : option (PortfolioSnapshotProvider E)).
Implicit Types m : OrderManager T E.

(** The session, the intents of callers that have read [running_] as true and go on, the
    worker, the stop token and the controlling thread. *)
Record om_life := mkLife {
  lf_sys : om_system (T:=T) (E:=E);
  lf_checked : list OrderIntent;
  lf_run : run_pc;
  lf_stop_requested : bool;
  lf_control : control_pc;
}.

#[export] Instance om_life_settable : Settable om_life := λ x,
  mkLife (lf_sys x) (lf_checked x) (lf_run x) (lf_stop_requested x) (lf_control x).

(** After [start]: the worker is at its loop condition. *)
Definition life_init m : om_life := mkLife (system_init m) [] run_test false ctl_running.

Definition on_om (f : OrderManager T E → OrderManager T E) (l : om_life) : om_life :=
  l <| lf_sys ::= λ s, s <| sy_om ::= f |> |>.

(** ** The worker *)
Inductive run_step : om_life → om_life → Prop :=
  | run_go l :
      lf_run l = run_test → lf_stop_requested l = false →
      run_step l (l <| lf_run := run_take |>)
  | run_leave l :
      lf_run l = run_test → lf_stop_requested l = true →
      run_step l (l <| lf_run := run_close |>)
  | run_swap l :
      lf_run l = run_take →
      run_step l (l <| lf_sys ::= λ s, s <| sy_local := om_outbound_queue (sy_om s) |>
                        <| sy_om ::= λ m, m <| om_outbound_queue := [] |> |> |>
                    <| lf_run := run_batch |>)
  | run_batch_section l s :
      lf_run l = run_batch → ¬ worker_idle (lf_sys l) → worker_section provider (lf_sys l) s →
      run_step l (l <| lf_sys := s |>)
  | run_drained l :
      lf_run l = run_batch → worker_idle (lf_sys l) →
      run_step l (l <| lf_run := run_pump |>)
  | run_receive l clock m r flag :
      lf_run l = run_pump → pump_apply (sy_om (lf_sys l)) clock = (m, r, flag) →
      run_step l (l <| lf_sys ::= λ s, s <| sy_om := m |>
                        <| sy_pc := match r with Some u => pc_deliver u | None => pc_idle end |>
                        <| sy_applied ::= λ a, a ++ option_list r |> |>
                    <| lf_run := run_message |>)
  | run_message_section l s :
      lf_run l = run_message → ¬ worker_idle (lf_sys l) →
      worker_section provider (lf_sys l) s →
      run_step l (l <| lf_sys := s |>)
  | run_again l :
      lf_run l = run_message → worker_idle (lf_sys l) →
      run_step l (l <| lf_run := run_test |>)
  | run_close_transport l :
      lf_run l = run_close →
      run_step l (on_om (λ m, m <| om_transport ::= transport_close |>) l
                    <| lf_run := run_store |>)
  | run_store_running l :
      lf_run l = run_store →
      run_step l (on_om (λ m, m <| om_running := false |>) l <| lf_run := run_exited |>).

(** ** [stop] *)
Inductive stop_step : om_life → om_life → Prop :=
  | stop_request l :
      lf_control l = ctl_running → om_worker_joinable (sy_om (lf_sys l)) = true →
      stop_step l (l <| lf_stop_requested := true |> <| lf_control := ctl_close |>)
  | stop_close l :
      lf_control l = ctl_close →
      stop_step l (on_om (λ m, m <| om_transport ::= transport_close |>) l
                     <| lf_control := ctl_join |>)
  | stop_join l :
      lf_control l = ctl_join → lf_run l = run_exited →
      stop_step l (on_om (λ m, m <| om_worker_joinable := false |>) l
                     <| lf_control := ctl_store |>)
  | stop_store l :
      lf_control l = ctl_store →
      stop_step l (on_om (λ m, m <| om_running := false |>) l <| lf_control := ctl_stopped |>).

(** ** The other threads *)
(** Callers of [submit], step by step; a [stop] that finds no worker to join; the transport. *)
Inductive other_step : nat → om_life → om_life → Prop :=
  | other_refused l intent clock m r :
      om_running (sy_om (lf_sys l)) = false →
      submit_track (sy_om (lf_sys l)) intent clock = (m, r) →
      other_step 0 l (l <| lf_sys ::= λ s, s <| sy_om := m |>
                            <| sy_tracked ::= λ t, t ++ option_list r |>
                            <| sy_accepted ::= λ t, t ++ option_list r |> |>)
  | other_checked l intent :
      om_running (sy_om (lf_sys l)) = true →
      other_step 0 l (l <| lf_checked ::= λ c, c ++ [intent] |>)
  | other_accept l l1 intent l2 clock m r :
      lf_checked l = l1 ++ intent :: l2 →
      submit_accept (sy_om (lf_sys l)) intent clock = (m, r) →
      other_step 0 l (l <| lf_checked := l1 ++ l2 |>
                        <| lf_sys ::= λ s, s <| sy_om := m |>
                            <| sy_tracked ::= λ t, t ++ option_list r |>
                            <| sy_accepted ::= λ t, t ++ option_list r |> |>)
  | other_push l l1 p l2 :
      sy_tracked (lf_sys l) = l1 ++ p :: l2 →
      other_step 1 l (l <| lf_sys ::= λ s, s <| sy_om ::= λ m, submit_push m p |>
                            <| sy_tracked := l1 ++ l2 |> <| sy_pushed ::= λ q, q ++ [p] |> |>)
  | other_stop l :
      lf_control l = ctl_stopped → om_worker_joinable (sy_om (lf_sys l)) = false →
      other_step 0 l (on_om (λ m, m <| om_running := false |>) l)
  | other_transport l t :
      other_step 0 l (on_om (λ m, m <| om_transport := t |>) l).

(** The worker and the caller of [stop]. *)
Definition own_step (l l' : om_life) : Prop := run_step l l' ∨ stop_step l l'.
Definition life_step (l l' : om_life) : Prop := own_step l l' ∨ ∃ k, other_step k l l'.

(** A run with the number of own steps and of intents pushed during it. *)
Inductive life_run : nat → nat → om_life → om_life → Prop :=
  | life_run_nil l : life_run 0 0 l l
  | life_run_own n k l l' l'' : life_run n k l l' → own_step l' l'' → life_run (S n) k l l''
  | life_run_other n k j l l' l'' :
      life_run n k l l' → other_step j l' l'' → life_run n (j + k) l l''.

(** ** The invariant *)
(** Between two rounds, and once it has left the loop, the worker has nothing in hand. *)
Definition between_rounds (pc : run_pc) : Prop :=
  match pc with run_batch | run_message => False | _ => True end.
Definition left_loop (pc : run_pc) : Prop :=
  match pc with run_close | run_store | run_exited => True | _ => False end.

Record life_inv (l : om_life) : Prop := {
  lfi_idle : between_rounds (lf_run l) → worker_idle (lf_sys l);
  lfi_message : lf_run l = run_message → sy_local (lf_sys l) = [] ∧ pc_intent (sy_pc (lf_sys l)) = [];
  lfi_left : left_loop (lf_run l) → lf_stop_requested l = true;
  lfi_requested : lf_stop_requested l = bool_decide (lf_control l ≠ ctl_running);
  lfi_joined : lf_control l = ctl_store ∨ lf_control l = ctl_stopped → lf_run l = run_exited;
  lfi_running : om_running (sy_om (lf_sys l)) = bool_decide (lf_run l ≠ run_exited);
  lfi_joinable :
    om_worker_joinable (sy_om (lf_sys l)) =
      bool_decide (lf_control l ≠ ctl_store ∧ lf_control l ≠ ctl_stopped);
}.

(** The sections of a session leave the two flags of the controlling thread alone. *)
Definition same_flags m m' : Prop :=
  om_running m' = om_running m ∧ om_worker_joinable m' = om_worker_joinable m.

Lemma gate_flags m m' intent clocks r :
  global_section m intent clocks = (m', r) ∨ portfolio_section provider m intent clocks = (m', r) →
  same_flags m m'.
Proof.
  unfold global_section, portfolio_section, apply_reject, same_flags.
  intros [Hs|Hs]; repeat case_match; simplify_eq/=; done.
Qed.

Lemma send_flags m m' intent sent : send_intent m intent = (m', sent) → same_flags m m'.
Proof. unfold send_intent, same_flags. intros Hs. repeat case_match; simplify_eq/=; done. Qed.

Lemma pump_flags m m' clock r flag : pump_apply m clock = (m', r, flag) → same_flags m m'.
Proof. unfold pump_apply, same_flags. intros Hs. repeat case_match; simplify_eq/=; done. Qed.

Lemma deliver_flags m u : same_flags m (deliver m u).
Proof. unfold deliver, same_flags. by repeat case_match. Qed.

Lemma submit_accept_flags m m' intent clock r :
  submit_accept m intent clock = (m', r) → same_flags m m'.
Proof. unfold submit_accept, same_flags. intros Hs. repeat case_match; simplify_eq/=; done. Qed.

Lemma worker_section_flags s s' :
  worker_section provider s s' → same_flags (sy_om s) (sy_om s').
Proof.
  destruct 1 as [s Hpc Hl|s p rest clocks m r Hpc Hl Hs
    |s p clocks m r Hpc Hs|s p m sent Hpc Hs|s u err Hpc|s clock m r flag Hpc Hl Hs|s u Hpc].
  - done.
  - rewrite (proj1 (after_gate_fields _ _ _ _)). eapply gate_flags; eauto.
  - rewrite (proj1 (after_gate_fields _ _ _ _)). eapply gate_flags; eauto.
  - by eapply send_flags.
  - apply (deliver_flags (set_error (sy_om s) err)).
  - by eapply pump_flags.
  - apply deliver_flags.
Qed.

(** A section inside a message delivers it. *)
Lemma message_section s s' :
  worker_section provider s s' → ¬ worker_idle s → sy_local s = [] → pc_intent (sy_pc s) = [] →
  worker_idle s'.
Proof.
  intros Hs Hbusy Hl Hp. destruct Hs as [s Hpc _|s p rest clocks m r Hpc Hl' Hs
    |s p clocks m r Hpc Hs|s p m sent Hpc Hs|s u err Hpc|s clock m r flag Hpc _ Hs|s u Hpc];
    try (by destruct Hbusy); try (by rewrite Hpc in Hp); try congruence; by split.
Qed.

Lemma life_inv_init m0 m :
  om_start transport_config m0 = (m, true) → life_inv (life_init m).
Proof.
  unfold om_start. intros Hs. destruct (om_worker_joinable m0); [done|].
  destruct (transport_connect _ _) as [t []]; simplify_eq/=. split; simpl; try done.
  by intros [|].
Qed.

(** Solve the parts of the invariant a step does not touch. *)
Local Ltac inv_done :=
  simpl in *; try done; try congruence; try (by intros [|]); try (by intuition congruence).

Lemma run_step_inv l l' : run_step l l' → life_inv l → life_inv l'.
Proof.
  intros Hstep [Hidle Hmsg Hleft Hreq Hjoin Hrun Hjoinable].
  destruct Hstep as [l Hpc Hst|l Hpc Hst|l Hpc|l s Hpc Hbusy Hs|l Hpc Hi|l clock m r flag Hpc Hs
    |l s Hpc Hbusy Hs|l Hpc Hi|l Hpc|l Hpc]; rewrite Hpc in *; simpl in *.
  - split; inv_done.
  - split; inv_done.
  - split; inv_done.
  - destruct (worker_section_flags _ _ Hs) as [Hr Hj].
    split; simpl; rewrite ?Hpc, ?Hr, ?Hj; inv_done.
  - split; inv_done.
  - destruct (pump_flags _ _ _ _ _ Hs) as [Hr Hj]. destruct (Hidle I) as [Hpc' Hl].
    split; simpl; rewrite ?Hr, ?Hj; inv_done. intros _. by destruct r.
  - destruct (worker_section_flags _ _ Hs) as [Hr Hj]. destruct (Hmsg eq_refl) as [Hl Hp].
    destruct (message_section _ _ Hs Hbusy Hl Hp) as [Hpc' Hl'].
    split; simpl; rewrite ?Hpc, ?Hr, ?Hj; inv_done. intros _. by rewrite Hpc', Hl'.
  - split; inv_done.
  - split; inv_done.
  - split; inv_done.
Qed.

Lemma stop_step_inv l l' : stop_step l l' → life_inv l → life_inv l'.
Proof.
  intros Hstep [Hidle Hmsg Hleft Hreq Hjoin Hrun Hjoinable].
  destruct Hstep as [l Hc Hj|l Hc|l Hc Hr|l Hc]; rewrite Hc in *.
  - split; inv_done.
  - split; inv_done.
  - split; inv_done.
  - split; inv_done. by rewrite Hjoin by auto.
Qed.

Lemma other_step_inv k l l' : other_step k l l' → life_inv l → life_inv l'.
Proof.
  intros Hstep [Hidle Hmsg Hleft Hreq Hjoin Hrun Hjoinable].
  destruct Hstep as [l intent clock m r Hr Hs|l intent Hr|l l1 intent l2 clock m r Hc Hs
    |l l1 p l2 Ht|l Hc Hj|l t].
  - unfold submit_track in Hs. rewrite Hr in Hs. simplify_eq/=. split; inv_done.
  - split; inv_done.
  - destruct (submit_accept_flags _ _ _ _ _ Hs) as [Hr' Hj].
    split; simpl; rewrite ?Hr', ?Hj; inv_done.
  - split; inv_done.
  - split; inv_done. rewrite Hjoin by auto. done.
  - split; inv_done.
Qed.

Lemma life_step_inv l l' : life_step l l' → life_inv l → life_inv l'.
Proof.
  intros [[Hs|Hs]|[k Hs]]; eauto using run_step_inv, stop_step_inv, other_step_inv.
Qed.

(** ** A run is a run of the session *)
Lemma life_step_sim l l' :
  life_step l l' → life_inv l → rtc (om_step provider) (lf_sys l) (lf_sys l').
Proof.
  intros Hstep Hinv. destruct Hstep as [[Hs|Hs]|[k Hs]].
  - destruct Hs as [l Hpc Hst|l Hpc Hst|l Hpc|l s Hpc Hbusy Hs|l Hpc Hi|l clock m r flag Hpc Hs
      |l s Hpc Hbusy Hs|l Hpc Hi|l Hpc|l Hpc]; try (by apply rtc_refl); try (by apply rtc_once, step_section).
    + pose proof (lfi_idle _ Hinv) as Hi. rewrite Hpc in Hi. destruct (Hi I).
      by apply rtc_once, step_section, step_take.
    + pose proof (lfi_idle _ Hinv) as Hi. rewrite Hpc in Hi. destruct (Hi I).
      by apply rtc_once, step_section, (step_pump _ _ clock m r flag).
    + apply rtc_once. apply (step_transport provider (lf_sys l)).
    + apply rtc_once. apply (step_control provider (lf_sys l) false (om_worker_joinable (sy_om (lf_sys l)))).
  - destruct Hs as [l Hc Hj|l Hc|l Hc Hr|l Hc]; [by apply rtc_refl|..].
    + apply rtc_once. apply (step_transport provider (lf_sys l)).
    + apply rtc_once. apply (step_control provider (lf_sys l) (om_running (sy_om (lf_sys l))) false).
    + apply rtc_once. apply (step_control provider (lf_sys l) false (om_worker_joinable (sy_om (lf_sys l)))).
  - destruct Hs as [l intent clock m r Hr Hs|l intent Hr|l l1 intent l2 clock m r Hc Hs
      |l l1 p l2 Ht|l Hc Hj|l t].
    + by eapply rtc_once, step_submit.
    + by apply rtc_refl.
    + by eapply rtc_once, (step_accept provider (lf_sys l)).
    + by eapply rtc_once, (step_push provider (lf_sys l)).
    + apply rtc_once. apply (step_control provider (lf_sys l) false (om_worker_joinable (sy_om (lf_sys l)))).
    + apply rtc_once. apply (step_transport provider (lf_sys l)).
Qed.

(** ** [stop] returns *)
(** The steps left to the worker once the stop is requested, and to the caller of [stop]. *)
Definition worker_left (l : om_life) : nat :=
  match lf_run l with
  | run_exited => 0
  | run_store => 1
  | run_close => 2
  | run_test => 3
  | run_message => 4 + batch_steps (lf_sys l)
  | run_pump => 6
  | run_batch => 7 + batch_steps (lf_sys l)
  | run_take => 8 + 3 * length (om_outbound_queue (sy_om (lf_sys l)))
  end.

Definition control_left (l : om_life) : nat :=
  match lf_control l with
  | ctl_running => 4 | ctl_close => 3 | ctl_join => 2 | ctl_store => 1 | ctl_stopped => 0
  end.

Definition stop_left (l : om_life) : nat := worker_left l + control_left l.

Lemma run_step_left l l' :
  run_step l l' → life_inv l → lf_stop_requested l = true →
  (worker_left l' < worker_left l)%nat ∧ lf_control l' = lf_control l.
Proof.
  intros Hstep Hinv Hreq. unfold worker_left.
  destruct Hstep as [l Hpc Hst|l Hpc Hst|l Hpc|l s Hpc Hbusy Hs|l Hpc Hi|l clock m r flag Hpc Hs
    |l s Hpc Hbusy Hs|l Hpc Hi|l Hpc|l Hpc]; simpl; rewrite Hpc; split; try done; try lia.
  - congruence.
  - pose proof (lfi_idle _ Hinv) as Hi. rewrite Hpc in Hi. destruct (Hi I) as [Hp _].
    unfold batch_steps. simpl. rewrite Hp. lia.
  - destruct (worker_section_batch provider _ _ Hs Hbusy). lia.
  - pose proof (lfi_idle _ Hinv) as Hi. rewrite Hpc in Hi. destruct (Hi I) as [_ Hl].
    unfold batch_steps. simpl. rewrite Hl. destruct r; simpl; lia.
  - destruct (worker_section_batch provider _ _ Hs Hbusy). lia.
Qed.

Lemma stop_step_left l l' :
  stop_step l l' → lf_control l ≠ ctl_running →
  (control_left l' < control_left l)%nat ∧ worker_left l' = worker_left l ∧
  lf_control l' ≠ ctl_running.
Proof.
  intros Hstep Hc. unfold control_left.
  destruct Hstep as [l Hc'|l Hc'|l Hc' Hr|l Hc']; simpl; rewrite Hc'; split_and!; done || lia.
Qed.

Lemma own_step_left l l' :
  own_step l l' → life_inv l → lf_control l ≠ ctl_running →
  (stop_left l' < stop_left l)%nat ∧ lf_control l' ≠ ctl_running.
Proof.
  intros Hstep Hinv Hc. unfold stop_left. destruct Hstep as [Hs|Hs].
  - assert (lf_stop_requested l = true) as Hreq.
    { rewrite (lfi_requested _ Hinv). by apply bool_decide_eq_true. }
    destruct (run_step_left _ _ Hs Hinv Hreq) as [Hlt Hc']. unfold control_left. rewrite Hc'.
    split; [lia|done].
  - destruct (stop_step_left _ _ Hs Hc) as (Hlt & Hw & Hc'). split; [lia|done].
Qed.

Lemma other_step_left k l l' :
  other_step k l l' →
  (stop_left l' ≤ stop_left l + 3 * k)%nat ∧ lf_control l' = lf_control l.
Proof.
  destruct 1 as [l intent clock m r Hr Hs|l intent Hr|l l1 intent l2 clock m r Hc Hs
    |l l1 p l2 Ht|l Hc Hj|l t]; (split; [|done]);
    unfold stop_left, worker_left, control_left, batch_steps; simpl.
  - apply submit_track_effect in Hs as ((Hq & _) & _). rewrite Hq. lia.
  - lia.
  - apply submit_accept_effect in Hs as ((Hq & _) & _). rewrite Hq. lia.
  - rewrite length_app. simpl. destruct (lf_run l); lia.
  - lia.
  - lia.
Qed.

(** Until [stop] has returned, the worker or the caller of [stop] can go on. *)
Lemma own_progress l :
  life_inv l → lf_control l ≠ ctl_stopped → ∃ l', own_step l l'.
Proof.
  intros Hinv Hc. destruct (lf_run l) eqn:Hpc.
  - destruct (lf_stop_requested l) eqn:Hr; eexists; left; [by apply run_leave|by apply run_go].
  - eexists. left. by apply run_swap.
  - destruct (decide (batch_steps (lf_sys l) = 0%nat)) as [Hi|Hi]; rewrite batch_steps_idle in Hi.
    + eexists. left. by apply run_drained.
    + destruct (busy_worker_steps provider _ Hi) as [s Hs].
      eexists. left. by eapply run_batch_section.
  - destruct (pump_apply (sy_om (lf_sys l)) 0) as [[m r] flag] eqn:Hp.
    eexists. left. by eapply run_receive.
  - destruct (decide (batch_steps (lf_sys l) = 0%nat)) as [Hi|Hi]; rewrite batch_steps_idle in Hi.
    + eexists. left. by apply run_again.
    + destruct (busy_worker_steps provider _ Hi) as [s Hs].
      eexists. left. by eapply run_message_section.
  - eexists. left. by apply run_close_transport.
  - eexists. left. by apply run_store_running.
  - destruct (lf_control l) eqn:Hctl.
    + exfalso. pose proof (lfi_left _ Hinv) as Hl. rewrite Hpc, (lfi_requested _ Hinv), Hctl in Hl.
      by specialize (Hl I).
    + eexists. right. by apply stop_close.
    + eexists. right. by apply stop_join.
    + eexists. right. by apply stop_store.
    + done.
Qed.

Lemma life_run_left n k l l' :
  life_run n k l l' → life_inv l → lf_control l ≠ ctl_running →
  life_inv l' ∧ lf_control l' ≠ ctl_running ∧ (n + stop_left l' ≤ stop_left l + 3 * k)%nat.
Proof.
  intros Hrun Hinv Hc.
  induction Hrun as [l|n k l l' l'' _ IH Hs|n k j l l' l'' _ IH Hs]; [split_and!; done || lia|..];
    destruct (IH Hinv Hc) as (Hinv' & Hc' & Hle).
  - destruct (own_step_left _ _ Hs Hinv' Hc') as [Hlt Hc'']. split_and!; [|done|lia].
    eapply life_step_inv; [by left|done].
  - destruct (other_step_left _ _ _ Hs) as [Hle' Hc'']. split_and!; [|congruence|lia].
    by eapply other_step_inv.
Qed.

Lemma stop_left_zero l : stop_left l = 0%nat → lf_control l = ctl_stopped.
Proof. unfold stop_left, control_left. destruct (lf_control l); (done || lia). Qed.

Lemma stop_left_bound l :
  lf_control l ≠ ctl_running →
  (stop_left l ≤ 12 + 3 * (length (sy_local (lf_sys l))
                           + length (om_outbound_queue (sy_om (lf_sys l)))))%nat.
Proof.
  intros Hc. unfold stop_left, worker_left, control_left, batch_steps.
  destruct (lf_control l), (lf_run l), (sy_pc (lf_sys l)); done || lia.
Qed.

(** What holds of every moment of a session that may be stopped: the invariant, and that
    the session is one of [om_step], so that its theorems apply. *)
Lemma life_reachable m0 m l :
  om_start transport_config m0 = (m, true) → rtc life_step (life_init m) l →
  life_inv l ∧ rtc (om_step provider) (system_init m) (lf_sys l).
Proof.
  intros Hs%life_inv_init Hr. change (system_init m) with (lf_sys (life_init m)).
  revert Hs. induction Hr as [l|l1 l2 l3 Hstep _ IH]; intros Hinv; [by split; [|apply rtc_refl]|].
  destruct IH as [Hinv' Hom]; [by eapply life_step_inv|].
  split; [done|]. etrans; [by apply life_step_sim|done].
Qed.

(** C29: [stop] returns, wherever the worker is when it is called: however submissions, the
    exchange and the two threads interleave, from the moment the stop has been requested the
    worker and the caller of [stop] together take at most twelve steps and three for every
    intent in the worker's batch, in the queue or pushed meanwhile; as long as [stop] has not
    returned one of the two can go on; and when they have taken that many it has returned.  Calls
    on the transport are taken to return: [stop] closes it before it joins the worker. *)
Theorem oms_stop_completes m0 m l n k l' :
  om_start transport_config m0 = (m, true) → rtc life_step (life_init m) l →
  lf_control l ≠ ctl_running → life_run n k l l' →
  let bound := (12 + 3 * (length (sy_local (lf_sys l))
                          + length (om_outbound_queue (sy_om (lf_sys l))) + k))%nat in
  (n ≤ bound)%nat ∧ (lf_control l' = ctl_stopped ∨ ∃ l'', own_step l' l'') ∧
  (n = bound → lf_control l' = ctl_stopped).
Proof.
  intros Hs Hr Hc Hrun bound. destruct (life_reachable _ _ _ Hs Hr) as [Hinv _].
  destruct (life_run_left _ _ _ _ Hrun Hinv Hc) as (Hinv' & Hc' & Hle).
  pose proof (stop_left_bound l Hc) as Hb. unfold bound. split_and!; [lia| |].
  - destruct (decide (lf_control l' = ctl_stopped)) as [|Hn]; [by left|right].
    by apply own_progress.
  - intros Hn. apply stop_left_zero. lia.
Qed.

(** ** Nothing happens after [stop] *)
(** What only the worker changes. *)
Definition worker_record (s : om_system (T:=T) (E:=E)) :=
  (sy_done s, sy_applied s, sy_delivered s, om_sink (sy_om s),
   om_sent_count (sy_om s)).

Lemma other_step_record k l l' :
  other_step k l l' → worker_record (lf_sys l') = worker_record (lf_sys l) ∧ lf_run l' = lf_run l.
Proof.
  unfold worker_record.
  destruct 1 as [l intent clock m r Hr Hs|l intent Hr|l l1 intent l2 clock m r Hc Hs
    |l l1 p l2 Ht|l Hc Hj|l t]; (split; [|done]); simpl; try done.
  - apply submit_track_effect in Hs as ((_ & _ & Hse & _) & Hsk & _). by rewrite Hsk, Hse.
  - apply submit_accept_effect in Hs as ((_ & _ & Hse & _) & Hsk & _). by rewrite Hsk, Hse.
Qed.

Lemma stopped_step l l' :
  life_step l l' → lf_control l = ctl_stopped → lf_run l = run_exited →
  lf_control l' = ctl_stopped ∧ lf_run l' = run_exited ∧
  worker_record (lf_sys l') = worker_record (lf_sys l).
Proof.
  intros [[Hs|Hs]|[k Hs]] Hc Hr.
  - destruct Hs; congruence.
  - destruct Hs; congruence.
  - destruct (other_step_left _ _ _ Hs) as [_ Hc']. destruct (other_step_record _ _ _ Hs).
    split_and!; congruence.
Qed.

Lemma stopped_run l l' :
  rtc life_step l l' → lf_control l = ctl_stopped → lf_run l = run_exited →
  lf_control l' = ctl_stopped ∧ worker_record (lf_sys l') = worker_record (lf_sys l).
Proof.
  induction 1 as [|l l1 l2 Hs _ IH]; [done|]. intros Hc Hr.
  destruct (stopped_step _ _ Hs Hc Hr) as (Hc' & Hr' & Hw). destruct (IH Hc' Hr'). split; congruence.
Qed.

(** C14: [stop] is final.  When it has returned, the worker is gone and holds nothing, and
    every intent accepted in the session has met its fate, waits in the queue, or belongs to
    a [submit] that has not returned yet; from then on, whatever the other threads do, no
    request is sent, no update is applied or delivered, the sink and the fates stay as they
    are, and a new [submit] is refused. *)
Theorem oms_stop_is_final m0 m l :
  session_start transport_config m0 m → rtc life_step (life_init m) l →
  lf_control l = ctl_stopped →
  (worker_idle (lf_sys l) ∧ lf_run l = run_exited ∧
   sy_accepted (lf_sys l) ≡ₚ
     sy_tracked (lf_sys l) ++ (sy_done (lf_sys l)).*1 ++ om_outbound_queue (sy_om (lf_sys l))) ∧
  (∀ l', rtc life_step l l' →
     worker_record (lf_sys l') = worker_record (lf_sys l) ∧
     om_worker_joinable (sy_om (lf_sys l')) = false ∧
     ∀ intent clock,
       submit (sy_om (lf_sys l')) intent clock
       = (set_error (sy_om (lf_sys l')) "OrderManager is not running", None)).
Proof.
  intros Hs Hr Hc. destruct (life_reachable _ _ _ (proj1 Hs) Hr) as [Hinv Hom].
  pose proof (lfi_joined _ Hinv (or_intror Hc)) as Hex.
  pose proof (lfi_idle _ Hinv) as Hi. rewrite Hex in Hi. specialize (Hi I).
  split; [split_and!; [done..|]|].
  - pose proof (session_reachable _ _ _ _ _ Hs Hom) as [[Ha Hp] _ _]. destruct Hi as [Hpc Hl].
    rewrite Ha, Hp, Hpc, Hl. done.
  - intros l' Hr'. destruct (stopped_run _ _ Hr' Hc Hex) as [Hc' Hw].
    destruct (life_reachable m0 m l' (proj1 Hs)) as [Hinv' _]; [by etrans|].
    pose proof (lfi_joined _ Hinv' (or_intror Hc')) as Hex'. split_and!; [done| |].
    + by rewrite (lfi_joinable _ Hinv'), Hc'.
    + intros intent clock. unfold submit, submit_track.
      rewrite (lfi_running _ Hinv'), Hex'. done.
Qed.

(** ** [om_stop] is the run in which the worker is between two rounds *)
Lemma life_run_rtc n k l l' : life_run n k l l' → rtc life_step l l'.
Proof.
  induction 1 as [|n k l l' l'' _ IH Hs|n k j l l' l'' _ IH Hs]; [by apply rtc_refl|..].
  - eapply rtc_r; [done|by left].
  - eapply rtc_r; [done|right; by exists j].
Qed.

Definition requested (l : om_life) : om_life :=
  l <| lf_stop_requested := true |> <| lf_control := ctl_close |>.

Lemma om_stop_is_run l :
  life_inv l → lf_control l = ctl_running → lf_run l = run_test →
  life_step l (requested l) ∧
  ∃ l', life_run 6 0 (requested l) l' ∧ lf_control l' = ctl_stopped ∧
        sy_om (lf_sys l') = om_stop (sy_om (lf_sys l)).
Proof.
  intros Hinv Hc Hpc. pose proof (lfi_joinable _ Hinv) as Hj. rewrite Hc in Hj.
  split; [left; right; by apply stop_request|]. eexists. split; [|split].
  - eapply life_run_own; [eapply life_run_own; [eapply life_run_own; [eapply life_run_own;
      [eapply life_run_own; [eapply life_run_own; [apply life_run_nil|]|]|]|]|]|].
    + left. by apply run_leave.
    + right. by apply stop_close.
    + left. by apply run_close_transport.
    + left. by apply run_store_running.
    + right. by apply stop_join.
    + right. by apply stop_store.
  - done.
  - unfold om_stop. rewrite Hj. by destruct l as [[[] ? ? ? ? ? ? ? ? ?] ? ? ? ?].
Qed.

(** A session in which one intent is submitted and not taken yet. *)
Lemma queued_run m intent clock m1 p :
  om_running m = true → submit_accept m intent clock = (m1, Some p) →
  rtc life_step (life_init m)
    (mkLife (mkSystem (submit_push m1 p) [] [] pc_idle [p] [p] [] ∅ [] []) [] run_test false
       ctl_running).
Proof.
  intros Hr Hs.
  eapply rtc_l; [right; exists 0%nat; exact (other_checked (life_init m) intent Hr)|].
  eapply rtc_l; [right; exists 0%nat;
    exact (other_accept ((life_init m) <| lf_checked := [intent] |>) [] intent [] clock m1 (Some p)
             eq_refl Hs)|].
  apply rtc_once. right. exists 1%nat.
  match goal with |- other_step _ ?l _ => exact (other_push l [] p [] eq_refl) end.
Qed.
End lifecycle.

(** ** A concrete session, stopped with an intent in the queue *)
Definition demo_queued : om_life (T:=PaperOrderTransport) (E:=list OrderStateUpdate) :=
  mkLife (mkSystem (submit_push demo_after_submit demo_pending) [] [] pc_idle [demo_pending]
            [demo_pending] [] ∅ [] []) [] run_test false ctl_running.

Lemma demo_queued_reached : rtc (life_step None) (life_init demo_manager) demo_queued.
Proof.
  apply (queued_run None demo_manager (demo_intent Side_kBuy 5) 1 demo_after_submit demo_pending);
    vm_compute; reflexivity.
Qed.

Lemma demo_stopped :
  rtc (life_step None) (life_init demo_manager) (requested demo_queued) ∧
  ∃ l, life_run None 6 0 (requested demo_queued) l ∧ lf_control l = ctl_stopped ∧
       sy_om (lf_sys l) = om_stop (sy_om (lf_sys demo_queued)).
Proof.
  destruct (om_stop_is_run None demo_queued) as [Hreq Hl]; [|done..|].
  - by apply (life_reachable demo_config None _ _ _ (proj1 demo_started)), demo_queued_reached.
  - split; [|exact Hl]. eapply rtc_r; [exact demo_queued_reached|exact Hreq].
Qed.

Lemma oms_stop_completes_witness :
  ∃ l, life_run None 6 0 (requested demo_queued) l ∧ lf_control l = ctl_stopped ∧ (6 ≤ 15)%nat.
Proof.
  destruct demo_stopped as (Hr & l & Hrun & Hc & _). exists l.
  split; [exact Hrun|]. split; [exact Hc|].
  refine (proj1 (oms_stop_completes demo_config None _ _ (requested demo_queued) 6 0 l
    (proj1 demo_started) Hr _ Hrun)).
  discriminate.
Defined.

Lemma oms_stop_is_final_witness :
  ∃ l : om_life (T:=PaperOrderTransport) (E:=list OrderStateUpdate),
    lf_control l = ctl_stopped ∧
    sy_accepted (lf_sys l) ≡ₚ
      sy_tracked (lf_sys l) ++ (sy_done (lf_sys l)).*1 ++ om_outbound_queue (sy_om (lf_sys l)).
Proof.
  destruct demo_stopped as (Hr & l & Hrun & Hc & _). exists l. split; [exact Hc|].
  apply (oms_stop_is_final demo_config None _ _ l demo_started); [|exact Hc].
  etrans; [exact Hr|exact (life_run_rtc _ _ _ _ _ Hrun)].
Defined.

(** What the stop leaves in the queue outlives the session: [start] resets the core and not
    the queue, so the next session sends the intent although its core does not know it. *)
Example leftover_sent_untracked :
  let stopped := om_stop (sy_om (lf_sys demo_queued)) in
  let '(started, ok) := om_start demo_config stopped in
  let m := run_once None started (λ _, ((1, 1), (1, 1))) 1 in
  om_outbound_queue stopped = [demo_pending] ∧ ok = true ∧ om_sent_count m = 1 ∧
  omc_in_flight_orders (om_core m) !! oi_client_order_id (pi_intent demo_pending) = None.
Proof. vm_compute. by split_and!. Qed.
