(* ===== verification/PaperTrading.v ===== *)
(** * Paper trading: the order path end to end

    The wiring of src/cpp/apps/trader/main.cpp in paper mode: the order manager with the
    Kalshi adapter, the paper transport, and the position ledger both as event sink and as
    provider of the portfolio risk snapshot.  The theorems follow one order from [submit]
    through the gates, the JSON texts and the core to the position it books. *)
From S2P Require Import Prelude.
From S2P Require Import Types.
From S2P Require Import RiskGates.
From S2P Require Import OrderManagerCore.
From S2P Require Import PositionLedger.
From S2P Require Import Nlohmann.
From S2P Require Import OmsAdapter.
From S2P Require Import OrderTransport.
From S2P Require Import OrderManager.

(** position_ledger.hpp implements both interfaces of the order manager. *)
#[export] Instance ledger_sink : OrderEventSink PositionLedger := {|
  sink_on_order_update := position_ledger_on_order_update;
|}.
#[export] Instance ledger_provider : PortfolioSnapshotProvider PositionLedger := {|
  provider_snapshot_for := snapshot_for;
|}.

(** ** One order through the core *)
Lemma place_tracked c request_id intent :
  oi_action intent = OmsAction_kPlace → oi_client_order_id intent ≠ "" →
  omc_in_flight_orders c !! oi_client_order_id intent = None →
  validate_and_track_submission c request_id intent =
    (c <| omc_in_flight_orders ::= <[oi_client_order_id intent :=
       mkInFlightOrder request_id OmsAction_kPlace InFlight_kPending (oi_client_order_id intent)
         None None (oi_market_ticker intent) (oi_side intent) (oi_qty_lots intent) 0
         (oi_intent_ts_ns intent) 0]> |>, Ok tt).
Proof.
  intros Ha Hne Hfresh. unfold validate_and_track_submission.
  rewrite decide_False by done. rewrite Ha, decide_True by done. rewrite decide_False; [done|].
  by apply eq_None_not_Some.
Qed.

(** The order of an update that names its client id. *)
Lemma apply_update_named c u clock next o :
  to_in_flight_status (ou_status u) = Some next →
  omc_in_flight_orders c !! ou_client_order_id u = Some o →
  can_transition (fo_status o) next = true →
  ∃ o3 index,
    index_exchange_id (omc_exchange_to_client c) u (stamp_order next u clock o) = (o3, index) ∧
    fo_side o3 = fo_side o ∧ same_identity o o3 ∧ fo_status o3 = next ∧
    apply_update_transition c u clock =
      (let '(o4, data) := apply_update_data next o3 (ou_data u) in
       (c <| omc_in_flight_orders ::= <[ou_client_order_id u := o4]> |>
          <| omc_exchange_to_client := index |>
          <| omc_transition_applied_count ::= u64_inc |>, Ok (u <| ou_data := data |>))).
Proof.
  intros Hn Ho Hc. destruct (stamp_order_spec next u clock o) as (Hid & Hst & _).
  destruct (index_exchange_id _ u _) as [o3 index] eqn:Hi. exists o3, index.
  pose proof (index_exchange_id_spec _ _ _ _ _ Hi) as (Hid3 & Hst3 & _).
  split_and!; [done| |by etrans|congruence|].
  - assert (fo_side o3 = fo_side (stamp_order next u clock o)) as ->.
    { unfold index_exchange_id in Hi. repeat case_match; by simplify_eq/=. }
    unfold stamp_order. by case_decide.
  - unfold apply_update_transition, find_update_order. rewrite Hn, Ho, Hc. cbv zeta. by rewrite Hi.
Qed.

Lemma update_same u data : ou_data u = data → u <| ou_data := data |> = u.
Proof. intros <-. by destruct u. Qed.

Lemma apply_no_fill c u clock o next :
  to_in_flight_status (ou_status u) = Some next → (∀ f, ou_data u ≠ OmsUpdateData_Fill f) →
  omc_in_flight_orders c !! ou_client_order_id u = Some o →
  can_transition (fo_status o) next = true →
  ∃ c' o', apply_update_transition c u clock = (c', Ok u) ∧
    omc_in_flight_orders c' !! ou_client_order_id u = Some o' ∧
    fo_status o' = next ∧ fo_side o' = fo_side o ∧ same_identity o o'.
Proof.
  intros Hs Hd Ho Hc.
  destruct (apply_update_named c u clock next o) as (o3 & index & _ & Hside & Hid & Hst3 & ->);
    [done..|].
  replace (apply_update_data next o3 (ou_data u)) with (o3, ou_data u)
    by (destruct (ou_data u) as [| | |f]; [done..|by destruct (Hd f)]).
  eexists _, o3. split; [rewrite (update_same u) by done; reflexivity|]. simpl.
  rewrite lookup_insert_eq. by split_and!.
Qed.

Lemma fill_known o f :
  of_side f = fo_side o → of_side f ≠ Side_kUnknown → 0 < fo_requested_qty_lots o →
  apply_fill_to_order InFlight_kFilled o f =
    (o <| fo_filled_qty_lots := fo_requested_qty_lots o |>, f).
Proof.
  intros Hside Hknown Hreq. unfold apply_fill_to_order. cbv zeta.
  rewrite !(decide_False (P := of_side f = Side_kUnknown ∧ _)) by (intros [? _]; done).
  rewrite !(decide_False (P := fo_side o = Side_kUnknown ∧ _)) by (intros [? _]; congruence).
  rewrite decide_True by (split; [done|lia]). done.
Qed.

Lemma apply_filled c u clock o f :
  ou_status u = OmsOrderStatus_kFilled → ou_data u = OmsUpdateData_Fill f →
  omc_in_flight_orders c !! ou_client_order_id u = Some o → fo_status o = InFlight_kAccepted →
  of_side f = fo_side o → of_side f ≠ Side_kUnknown → 0 < fo_requested_qty_lots o →
  ∃ c' o', apply_update_transition c u clock = (c', Ok u) ∧
    omc_in_flight_orders c' !! ou_client_order_id u = Some o' ∧
    fo_status o' = InFlight_kFilled ∧ fo_filled_qty_lots o' = fo_requested_qty_lots o ∧
    same_identity o o'.
Proof.
  intros Hs Hd Ho Hst Hside Hknown Hreq.
  destruct (apply_update_named c u clock InFlight_kFilled o)
    as (o3 & index & _ & Hside3 & Hid & Hst3 & ->); [by rewrite Hs|done|by rewrite Hst|].
  pose proof Hid as (_ & _ & _ & _ & Hr & _).
  rewrite Hd. unfold apply_update_data. rewrite fill_known by (congruence || lia).
  eexists _, (o3 <| fo_filled_qty_lots := fo_requested_qty_lots o3 |>).
  split; [rewrite (update_same u) by done; reflexivity|]. simpl. rewrite lookup_insert_eq.
  split_and!; done.
Qed.

(** ** One order through the whole path *)
Section paper_trading.
Context `{NlohmannLaws} (transport_config : OrderTransportConfig).
Abbreviation Manager := (OrderManager PaperOrderTransport PositionLedger).
Implicit Types m : Manager.

(** A running manager with nothing queued in either direction. *)
Definition quiet m : Prop :=
  om_running m = true ∧ om_outbound_queue m = [] ∧
  pt_connected (om_transport m) = true ∧ pt_inbound_updates (om_transport m) = [] ∧
  pt_auto_fill_on_place (om_transport m) = true ∧ in_u64 (pt_next_recv_ts_ns (om_transport m)).

(** A place intent that every component can express, with a fresh client id. *)
Definition tradable m (intent : OrderIntent) : Prop :=
  oi_action intent = OmsAction_kPlace ∧ encodable intent ∧ writable intent ∧
  oi_intent_ts_ns intent ≠ 0 ∧
  omc_in_flight_orders (om_core m) !! oi_client_order_id intent = None.

(** The core once the intent is tracked, and the decisions of the gates on it. *)
Definition tracked_core m (intent : OrderIntent) : OrderManagerCore :=
  (validate_and_track_submission (om_core m) (om_next_request_id m) intent).1.

Definition gates_allow m (intent : OrderIntent) : Prop :=
  (evaluate_global_risk (tracked_core m intent) intent).2 = None ∧
  (evaluate_portfolio_risk (tracked_core m intent) intent
     (snapshot_for (om_sink m) (oi_exchange intent) (oi_market_ticker intent))).2 = None.

Lemma evaluate_none c intent snapshot :
  ((evaluate_global_risk c intent).2 = None → evaluate_global_risk c intent = (c, None)) ∧
  ((evaluate_portfolio_risk c intent snapshot).2 = None →
   evaluate_portfolio_risk c intent snapshot = (c, None)).
Proof. unfold evaluate_global_risk, evaluate_portfolio_risk. split; by case_match. Qed.

Definition placed_order m (intent : OrderIntent) : InFlightOrder :=
  mkInFlightOrder (om_next_request_id m) OmsAction_kPlace InFlight_kPending
    (oi_client_order_id intent) None None (oi_market_ticker intent) (oi_side intent)
    (oi_qty_lots intent) 0 (oi_intent_ts_ns intent) 0.

Lemma tracked_order m intent :
  oi_action intent = OmsAction_kPlace → oi_client_order_id intent ≠ "" →
  omc_in_flight_orders (om_core m) !! oi_client_order_id intent = None →
  omc_in_flight_orders (tracked_core m intent) !! oi_client_order_id intent
  = Some (placed_order m intent).
Proof. intros. unfold tracked_core. rewrite place_tracked by done. apply lookup_insert_eq. Qed.

(** [submit] tracks the order and queues the intent. *)
Lemma submit_tradable m intent clock :
  quiet m → tradable m intent →
  submit m intent clock =
    (m <| om_core := tracked_core m intent |> <| om_next_request_id ::= u64_inc |>
       <| om_outbound_queue := [mkPendingIntent (om_next_request_id m) intent] |>
       <| om_submitted_count ::= u64_inc |>, Some (om_next_request_id m)).
Proof.
  intros (Hrun & Hq & _) (Ha & _ & Hw & Hts & Hfresh). pose proof Hw as [Hsup Hw'].
  rewrite Ha in Hw'. unfold submit, submit_track, submit_accept, submit_push, tracked_core.
  rewrite Hrun. cbn [negb]. change (adapter_supports intent) with (supports intent).
  rewrite Hsup. cbn [negb]. rewrite decide_False by done. cbn [om_core set_field].
  rewrite place_tracked by (done || by destruct Hw'). simpl. by rewrite Hq.
Qed.

(** A batch of one intent that both gates let through, sent and answered. *)
Lemma drain_one m c p clock text t :
  om_outbound_queue m = [p] → om_core m = c →
  evaluate_global_risk c (pi_intent p) = (c, None) →
  evaluate_portfolio_risk c (pi_intent p)
    (snapshot_for (om_sink m) (oi_exchange (pi_intent p)) (oi_market_ticker (pi_intent p)))
    = (c, None) →
  build_request (pi_intent p) = Ok text →
  paper_send_text (om_transport m) text = (t, Ok true) →
  (drain_outbound_intents (Some ledger_provider) m clock).1 =
    m <| om_outbound_queue := [] |> <| om_transport := t |> <| om_sent_count ::= u64_inc |>.
Proof.
  destruct m as [c0 w q err run next sub sent fail rcv pf drop uns t0 e]. simpl.
  intros -> -> Hg Hp Hb Ht.
  unfold drain_outbound_intents, process_all, process_intent, global_section. simpl. rewrite Hg.
  unfold portfolio_section. simpl.
  change (@provider_snapshot_for _ ledger_provider) with snapshot_for. rewrite Hp.
  unfold send_intent. change (adapter_build_request (pi_intent p)) with (build_request (pi_intent p)).
  rewrite Hb. simpl. change (@transport_send_text _ paper_transport) with paper_send_text.
  by rewrite Ht.
Qed.

(** Pumping one text that the core applies. *)
Lemma pump_one m clock text rest u u' c :
  pt_connected (om_transport m) = true → pt_inbound_updates (om_transport m) = text :: rest →
  parse_update text = oms_success u →
  apply_update_transition (om_core m) u clock = (c, Ok u') →
  let m' := (pump_incoming_update m clock).1 in
  om_core m' = c ∧ om_sink m' = (position_ledger_on_order_update (om_sink m) u').1 ∧
  om_transport m' = (om_transport m) <| pt_inbound_updates := rest |> ∧
  om_outbound_queue m' = om_outbound_queue m ∧ om_sent_count m' = om_sent_count m.
Proof.
  destruct m as [c0 w q err run next sub sent fail rcv pf drop uns t0 e]. simpl.
  intros Hconn Hin Hparse Happ. unfold pump_incoming_update, pump_apply. simpl.
  unfold paper_recv_text. rewrite Hconn, Hin. simpl.
  change (adapter_parse_update text) with (parse_update text). rewrite Hparse. rewrite Happ.
  unfold deliver. simpl.
  change (@sink_on_order_update _ ledger_sink) with position_ledger_on_order_update.
  destruct (position_ledger_on_order_update e u') as [e' []]; split_and!; simpl; by rewrite ?Hconn.
Qed.

(** The signed quantity of an order. *)
Definition signed_qty (intent : OrderIntent) : Z :=
  match oi_side intent with
  | Side_kBuy | Side_kBid => oi_qty_lots intent
  | _ => - oi_qty_lots intent
  end.

Definition position_of (l : PositionLedger) (intent : OrderIntent) : Z :=
  net_position (pw_core l) (ExchangeId_kKalshi, oi_market_ticker intent).

(** What the ledger does with the two updates of a paper order. *)
Lemma ledger_ack l t intent raw :
  pl_positions (pw_core (position_ledger_on_order_update l (paper_ack t intent raw)).1)
  = pl_positions (pw_core l).
Proof. done. Qed.

Lemma ledger_fill l t intent price raw :
  oi_market_ticker intent ≠ "" → 0 < oi_qty_lots intent → oi_side intent ≠ Side_kUnknown →
  in_s64 (oi_qty_lots intent) → in_s64 (position_of l intent + signed_qty intent) →
  position_of (position_ledger_on_order_update l (paper_fill t intent price raw)).1 intent
  = position_of l intent + signed_qty intent.
Proof.
  intros Hmkt Hq Hside Hq64 Hsum. set (u := paper_fill t intent price raw).
  assert (fill_of u = Some (ExchangeId_kKalshi, oi_market_ticker intent, signed_qty intent, price))
    as Hf.
  { unfold fill_of, u, paper_fill, signed_qty. simpl. rewrite (decide_False (P := _ = "")) by done.
    rewrite decide_True by (split_and!; auto). done. }
  assert (in_s64 (Z.abs (signed_qty intent)) ∧ in_s64 (signed_qty intent)) as [Ha Hs].
  { unfold in_s64, signed_qty in *. destruct (oi_side intent); lia. }
  destruct (fill_of_some u (pw_core l) _ _ _ _ Hf Ha) as [Hpos Hok].
  unfold position_of, net_position, position_ledger_on_order_update in *.
  destruct (ledger_on_order_update (pw_core l) u) as [core' [[]|]]; [|done]. simpl in *.
  rewrite Hpos, lookup_insert_eq. simpl. by apply booked_net.
Qed.

(** Draining an empty queue changes nothing. *)
Lemma drain_empty m clock :
  om_outbound_queue m = [] → (drain_outbound_intents (Some ledger_provider) m clock).1 = m.
Proof. destruct m. simpl. by intros ->. Qed.

(** After the first iteration: the order is acknowledged and the fill is waiting. *)
Lemma first_iteration m intent clock clocks1 pump1 :
  quiet m → tradable m intent → gates_allow m intent →
  let m2 := run_once (Some ledger_provider) (submit m intent clock).1 clocks1 pump1 in
  (∃ o, omc_in_flight_orders (om_core m2) !! oi_client_order_id intent = Some o ∧
        fo_status o = InFlight_kAccepted ∧ fo_side o = oi_side intent ∧
        fo_requested_qty_lots o = oi_qty_lots intent) ∧
  om_sent_count m2 = u64_inc (om_sent_count m) ∧ om_outbound_queue m2 = [] ∧
  position_of (om_sink m2) intent = position_of (om_sink m) intent ∧
  pt_connected (om_transport m2) = true ∧
  (∃ price text, pt_inbound_updates (om_transport m2) = [text] ∧
     parse_update text = oms_success (paper_fill (om_transport m) intent price text)).
Proof.
  intros Hquiet Htr [Hg Hp]. cbv zeta.
  apply (evaluate_none _ _ (mkPortfolioRiskSnapshot 0 0 0)) in Hg. apply evaluate_none in Hp.
  rewrite (submit_tradable m intent clock Hquiet Htr). cbn [fst].
  destruct Htr as (Ha & Henc & Hw & _ & Hfresh). pose proof Hw as [_ Hw']. rewrite Ha in Hw'.
  destruct Hw' as (Hcid & Hmkt & Hqty & Hside & [price Hprice]).
  destruct Hquiet as (_ & _ & Hconn & Hin & Hauto & Hts).
  destruct (build_request_written intent Henc Hw) as (text & request & Hbuild & _).
  destruct (paper_send_answered (om_transport m) intent text Henc Hcid Hconn Hts Hbuild)
    as (t & Hsend & (texts & Htc & _ & _ & Hti & Hans)).
  unfold paper_answers in Hans. rewrite Ha, Hprice, Hauto in Hans.
  apply Forall2_cons_inv_r in Hans as (ack & l & Hack & Hans & ->).
  apply Forall2_cons_inv_r in Hans as (fill & l' & Hfill & Hnil & ->).
  apply Forall2_nil_inv_r in Hnil as ->. rewrite Hin in Hti. simpl in Hti.
  unfold run_once. erewrite (drain_one _ (tracked_core m intent)); [|done|done|exact Hg|exact Hp|exact Hbuild|exact Hsend].
  pose proof (tracked_order m intent Ha Hcid Hfresh) as Ho.
  set (o := placed_order m intent) in Ho.
  destruct (apply_no_fill (tracked_core m intent) (paper_ack (om_transport m) intent ack) pump1 o
    InFlight_kAccepted eq_refl ltac:(done) Ho eq_refl) as (c' & o' & Happ & Ho' & Hst' & Hside' & Hid).
  match goal with |- context [pump_incoming_update ?m' pump1] =>
    destruct (pump_one m' pump1 ack [fill] _ _ c' Htc Hti Hack Happ)
      as (-> & -> & -> & -> & ->) end.
  destruct Hid as (_ & _ & _ & _ & Hreq & _).
  split; [exists o'; by rewrite Hside', Hreq|]. do 4 (split; [done|]). eauto.
Qed.

(** C17: an order that the gates allow trades.  From a quiet paper-mode engine, submitting a
    place intent and running the worker twice takes the order through the request text, the
    transport, the acknowledgement and the fill: it ends [kFilled] for exactly the requested
    quantity, one request was sent, the market's net position moves by exactly the signed
    quantity, and nothing is left in flight in either direction. *)
Theorem paper_order_fills m intent clock clocks1 pump1 clocks2 pump2 :
  quiet m → tradable m intent → gates_allow m intent →
  in_s64 (position_of (om_sink m) intent + signed_qty intent) →
  let m1 := (submit m intent clock).1 in
  let m2 := run_once (Some ledger_provider) m1 clocks1 pump1 in
  let m3 := run_once (Some ledger_provider) m2 clocks2 pump2 in
  (∃ o, omc_in_flight_orders (om_core m3) !! oi_client_order_id intent = Some o ∧
        fo_status o = InFlight_kFilled ∧ fo_requested_qty_lots o = oi_qty_lots intent ∧
        fo_filled_qty_lots o = oi_qty_lots intent) ∧
  om_sent_count m3 = u64_inc (om_sent_count m) ∧
  position_of (om_sink m3) intent = position_of (om_sink m) intent + signed_qty intent ∧
  om_outbound_queue m3 = [] ∧ pt_inbound_updates (om_transport m3) = [].
Proof.
  intros Hquiet Htr Hgates Hsum m1 m2.
  destruct (first_iteration m intent clock clocks1 pump1 Hquiet Htr Hgates)
    as ((o & Ho & Hst & Hside & Hreq) & Hsent & Hq & Hpos & Hconn & (price & text & Hin & Hparse)).
  fold m1 m2 in Ho, Hsent, Hq, Hpos, Hconn, Hin. clearbody m2.
  destruct Htr as (Ha & Henc & [_ Hw] & _). rewrite Ha in Hw.
  destruct Hw as (_ & Hmkt & Hqty & Hknown & _).
  destruct (apply_filled (om_core m2) (paper_fill (om_transport m) intent price text) pump2 o _
    eq_refl eq_refl Ho Hst) as (c' & o' & Happ & Ho' & Hst' & Hfill' & Hid);
    [done|done|by rewrite Hreq|].
  unfold run_once. rewrite drain_empty by done.
  destruct (pump_one m2 pump2 text [] _ _ c' Hconn Hin Hparse Happ) as (-> & -> & -> & -> & ->).
  destruct Hid as (_ & _ & _ & _ & Hreq' & _).
  split; [exists o'; split_and!; [exact Ho'|done|congruence|congruence]|].
  split_and!; [done| |done|done].
  rewrite <-Hpos. apply ledger_fill; try done; [|by rewrite Hpos].
  by destruct Henc as (_ & _ & _ & _ & ? & _).
Qed.

(** ** A gate that says no *)

(** Rejecting a freshly tracked order inside a gate section. *)
Lemma apply_reject_placed m u msg clock o :
  ou_status u = OmsOrderStatus_kRejected → (∀ f, ou_data u ≠ OmsUpdateData_Fill f) →
  omc_in_flight_orders (om_core m) !! ou_client_order_id u = Some o →
  fo_status o = InFlight_kPending →
  ∃ c o', apply_reject m u msg clock = (m <| om_core := c |>, gate_reject u msg) ∧
    omc_in_flight_orders c !! ou_client_order_id u = Some o' ∧ fo_status o' = InFlight_kRejected.
Proof.
  intros Hs Hd Ho Hst. unfold apply_reject.
  destruct (apply_no_fill (om_core m) u clock o InFlight_kRejected) as (c & o' & -> & Ho' & Hst' & _);
    [by rewrite Hs|done|done|by rewrite Hst|]. by exists c, o'.
Qed.

Lemma evaluate_orders c intent snapshot :
  omc_in_flight_orders (evaluate_global_risk c intent).1 = omc_in_flight_orders c ∧
  omc_in_flight_orders (evaluate_portfolio_risk c intent snapshot).1 = omc_in_flight_orders c.
Proof. unfold evaluate_global_risk, evaluate_portfolio_risk. split; by case_match. Qed.

(** What a rejected intent leaves behind. *)
Definition refused (intent : OrderIntent) m m' : Prop :=
  (∃ o, omc_in_flight_orders (om_core m') !! oi_client_order_id intent = Some o ∧
        fo_status o = InFlight_kRejected) ∧
  om_sent_count m' = om_sent_count m ∧ om_transport m' = om_transport m ∧
  om_outbound_queue m' = om_outbound_queue m ∧
  pl_positions (pw_core (om_sink m')) = pl_positions (pw_core (om_sink m)).

Lemma deliver_refused intent m u c msg o :
  ou_status u = OmsOrderStatus_kRejected → ou_client_order_id u = oi_client_order_id intent →
  omc_in_flight_orders c !! ou_client_order_id u = Some o → fo_status o = InFlight_kRejected →
  refused intent m (deliver_reject (m <| om_core := c |>) u msg).
Proof.
  destruct m as [c0 w q err run next sub sent fail rcv pf drop uns t0 e].
  intros Hs Hid Ho Hst. unfold deliver_reject, deliver, refused. simpl.
  change (@sink_on_order_update _ ledger_sink) with position_ledger_on_order_update.
  unfold position_ledger_on_order_update, ledger_on_order_update.
  rewrite Hs. simpl. rewrite <-Hid. split_and!; eauto.
Qed.

Lemma process_refused m intent o clocks1 clocks2 :
  omc_in_flight_orders (om_core m) !! oi_client_order_id intent = Some o →
  fo_status o = InFlight_kPending →
  (evaluate_global_risk (om_core m) intent).2 ≠ None ∨
  (evaluate_global_risk (om_core m) intent).2 = None ∧
  (evaluate_portfolio_risk (om_core m) intent
     (snapshot_for (om_sink m) (oi_exchange intent) (oi_market_ticker intent))).2 ≠ None →
  refused intent m (process_intent (Some ledger_provider) m intent clocks1 clocks2).
Proof.
  intros Ho Hst Hrej. unfold process_intent, global_section.
  destruct (evaluate_orders (om_core m) intent
    (snapshot_for (om_sink m) (oi_exchange intent) (oi_market_ticker intent))) as [Hog Hop].
  destruct (evaluate_global_risk (om_core m) intent) as [c [d|]] eqn:Hg.
  - match goal with |- context [apply_reject ?m' ?u ?msg ?ck] =>
      destruct (apply_reject_placed m' u msg ck o) as (c' & o' & -> & Ho' & Hst') end;
      [done|done|by rewrite <-Ho, <-Hog|done|].
    exact (deliver_refused intent m (make_global_risk_reject_update intent d clocks1.1) c' _ o'
      eq_refl eq_refl Ho' Hst').
  - destruct Hrej as [?|[_ Hrej]]; [done|].
    assert (c = om_core m) as ->.
    { unfold evaluate_global_risk in Hg. by case_match; simplify_eq. }
    unfold portfolio_section.
    change (@provider_snapshot_for _ ledger_provider) with snapshot_for.
    match goal with |- context [evaluate_portfolio_risk ?c0 ?i ?sn] =>
      change (evaluate_portfolio_risk c0 i sn) with (evaluate_portfolio_risk (om_core m) intent
        (snapshot_for (om_sink m) (oi_exchange intent) (oi_market_ticker intent))) end.
    destruct (evaluate_portfolio_risk (om_core m) intent _) as [c' [d|]] eqn:Hp; [|done].
    match goal with |- context [apply_reject ?m' ?u ?msg ?ck] =>
      destruct (apply_reject_placed m' u msg ck o) as (c2 & o' & -> & Ho' & Hst') end;
      [done|done|by rewrite <-Ho, <-Hop|done|].
    exact (deliver_refused intent m (make_portfolio_risk_reject_update intent d clocks2.1) c2 _ o'
      eq_refl eq_refl Ho' Hst').
Qed.

Lemma pump_none m clock :
  pt_inbound_updates (om_transport m) = [] → (pump_incoming_update m clock).1 = m.
Proof.
  destruct m as [c0 w q err run next sub sent fail rcv pf drop uns t0 e]. simpl. intros Hin.
  unfold pump_incoming_update, pump_apply. simpl. unfold paper_recv_text. rewrite Hin.
  by destruct (pt_connected t0).
Qed.

(** C39: an order that a gate refuses does nothing.  If the global or the portfolio gate
    rejects the intent, submitting it and running the worker leaves the order [kRejected];
    no request is sent, the transport is untouched, and no position changes. *)
Theorem refused_order_has_no_effect m intent clock clocks1 pump1 :
  quiet m → tradable m intent →
  (evaluate_global_risk (tracked_core m intent) intent).2 ≠ None ∨
  (evaluate_global_risk (tracked_core m intent) intent).2 = None ∧
  (evaluate_portfolio_risk (tracked_core m intent) intent
     (snapshot_for (om_sink m) (oi_exchange intent) (oi_market_ticker intent))).2 ≠ None →
  refused intent m (run_once (Some ledger_provider) (submit m intent clock).1 clocks1 pump1).
Proof.
  intros Hquiet Htr Hrej. rewrite (submit_tradable m intent clock Hquiet Htr). cbn [fst].
  destruct Htr as (Ha & _ & [_ Hw] & _ & Hfresh). rewrite Ha in Hw. destruct Hw as (Hcid & _).
  pose proof (tracked_order m intent Ha Hcid Hfresh) as Ho.
  destruct Hquiet as (_ & Hq & _ & Hin & _).
  set (ms := set_field om_submitted_count _ _).
  assert (om_outbound_queue ms = [mkPendingIntent (om_next_request_id m) intent]) as Hqs by done.
  assert (om_core ms = tracked_core m intent ∧ om_sink ms = om_sink m ∧
    om_transport ms = om_transport m ∧ om_sent_count ms = om_sent_count m)
    as (Hcs & Hss & Hts & Hns) by done.
  clearbody ms. unfold run_once, drain_outbound_intents. rewrite Hqs. simpl process_all.
  match goal with |- context [process_intent _ ?x _ _ _] => set (m0 := x) end.
  assert (om_core m0 = om_core ms ∧ om_sink m0 = om_sink ms ∧ om_transport m0 = om_transport ms ∧
    om_sent_count m0 = om_sent_count ms ∧ om_outbound_queue m0 = [])
    as (Hc0 & Hs0 & Ht0 & Hn0 & Hq0) by done.
  clearbody m0. rewrite Hcs in Hc0. rewrite Hss in Hs0. rewrite <-Hc0, <-Hs0 in Hrej. rewrite <-Hc0 in Ho.
  destruct (process_refused m0 intent (placed_order m intent) (clocks1 O).1 (clocks1 O).2 Ho eq_refl Hrej)
    as (Hrejd & Hsent & Ht & Hqueue & Hpos).
  cbn [fst pi_intent]. set (m' := process_intent _ _ _ _ _) in *. clearbody m'.
  rewrite pump_none by congruence. split_and!; congruence.
Qed.

End paper_trading.

(** ** Concrete runs *)
Definition demo_engine : OrderManager PaperOrderTransport PositionLedger :=
  (om_start (mkOrderTransportConfig "paper" ∅)
     (om_init (mkGlobalRiskConfig 2 1 100 50) (mkPortfolioRiskConfig 20 20 0 false)
        (paper_init true) (mkPositionLedger ledger_init ""))).1.

Lemma demo_quiet : quiet demo_engine.
Proof. by split_and!. Qed.

Lemma demo_tradable side qty :
  side ≠ Side_kUnknown → 0 < qty → in_s64 qty → tradable demo_engine (demo_intent side qty).
Proof.
  intros Hs Hq H64. unfold tradable, encodable, writable. simpl.
  split_and!; try done; by intros ? [= <-].
Qed.

Lemma paper_order_fills_witness :
  let m1 := (submit demo_engine (demo_intent Side_kBuy 5) 1).1 in
  let m2 := run_once (Some ledger_provider) m1 (λ _, ((1, 1), (1, 1))) 1 in
  let m3 := run_once (Some ledger_provider) m2 (λ _, ((1, 1), (1, 1))) 1 in
  position_of (om_sink m3) (demo_intent Side_kBuy 5) = 5.
Proof.
  apply (paper_order_fills demo_engine (demo_intent Side_kBuy 5) 1).
  - exact demo_quiet.
  - by apply demo_tradable.
  - split; vm_compute; reflexivity.
  - done.
Defined.

(** 60 lots exceed the limit of 50 outstanding lots per market. *)
Lemma refused_order_has_no_effect_witness :
  refused (demo_intent Side_kBuy 60) demo_engine
    (run_once (Some ledger_provider) (submit demo_engine (demo_intent Side_kBuy 60) 1).1
       (λ _, ((1, 1), (1, 1))) 1).
Proof.
  apply (refused_order_has_no_effect demo_engine (demo_intent Side_kBuy 60) 1).
  - exact demo_quiet.
  - by apply demo_tradable.
  - left. vm_compute. discriminate.
Defined.

(** A session that starts on a non-empty queue: an intent submitted just before [stop] is
    sent by the next session, whose core has been reset and does not track it, so the
    acknowledgement and the fill it causes are dropped as unknown. *)
Definition demo_restart : OrderManager PaperOrderTransport PositionLedger :=
  let m := (submit demo_engine (demo_intent Side_kBuy 5) 1).1 in
  let m := (om_start (mkOrderTransportConfig "paper" ∅) (om_stop m)).1 in
  let m := run_once (Some ledger_provider) m (λ _, ((1, 1), (1, 1))) 1 in
  run_once (Some ledger_provider) m (λ _, ((1, 1), (1, 1))) 1.

Lemma stale_intent_sent_untracked :
  om_sent_count demo_restart = 1 ∧
  mst_tracked_order_count (om_stats demo_restart) = 0 ∧
  mst_unknown_order_update_count (om_stats demo_restart) = 2 ∧
  position_of (om_sink demo_restart) (demo_intent Side_kBuy 5) = 0.
Proof. vm_compute. by split_and!. Qed.
