(* ===== verification/Strategy.v ===== *)
(** * Strategies and the shard risk gate

    Model of src/cpp/src/strategy/strategy_runner.cpp, strategy_event_handler.cpp and the
    header-only components around them: the order intent sinks
    (order_manager_intent_sink.hpp, dropping_order_intent_sink.hpp), the ledger-backed risk
    snapshot (ledger_shard_risk_snapshot_provider.hpp) and the market filter
    (market_filter_event_handler.hpp).

    A strategy, an intent sink and a snapshot provider are interfaces.  The sink and the
    provider act on a state [K] they share with other threads (in the engine, the order
    manager and its ledger).  The runner accesses it at three points of an intent: it takes
    the snapshot, it submits, and it reads the error of a failed submit.  [env n] is what the
    other threads did to it before each of these accesses for the [n]-th intent. *)
From S2P Require Import Prelude.
From S2P Require Import Types.
From S2P Require Import RiskGates.
From S2P Require Import PositionLedger.
From S2P Require Import OmsAdapter.
From S2P Require Import OrderTransport.
From S2P Require Import OrderManager.
From S2P Require Import Shard.

(** ** Interfaces: strategy.hpp, order_intent_sink.hpp, shard_risk_snapshot_provider.hpp *)
Class Strategy (S : Type) := {
  strategy_on_event : S → NormalizedEvent → S * outcome (list OrderIntent);
}.
Class OrderIntentSink (K : Type) := {
  sink_submit_intent : K → OrderIntent → K * bool;
  sink_last_error : K → string;
}.
Class ShardSnapshotProvider (K : Type) := {
  shard_snapshot_for : K → ExchangeId → string → ShardRiskSnapshot;
}.

(** ** strategy_runner *)
Record StrategyRunnerStats := mkStrategyRunnerStats {
  srs_events_processed_count : Z;
  srs_intents_emitted_count : Z;
  srs_intents_submitted_count : Z;
  srs_risk_reject_count : Z;
  srs_sink_reject_count : Z;
  srs_strategy_error_count : Z;
}.

Record StrategyRunner (S : Type) := mkStrategyRunner {
  sr_strategy : S;
  sr_stats : StrategyRunnerStats;
  sr_last_error : string;
}.
Arguments mkStrategyRunner {S}.
Arguments sr_strategy {S}.
Arguments sr_stats {S}.
Arguments sr_last_error {S}.

#[export] Instance StrategyRunnerStats_settable : Settable StrategyRunnerStats := λ x,
  mkStrategyRunnerStats (srs_events_processed_count x) (srs_intents_emitted_count x)
    (srs_intents_submitted_count x) (srs_risk_reject_count x) (srs_sink_reject_count x)
    (srs_strategy_error_count x).
#[export] Instance StrategyRunner_settable S : Settable (StrategyRunner S) := λ x,
  mkStrategyRunner (sr_strategy x) (sr_stats x) (sr_last_error x).

Definition runner_init {S} (s : S) : StrategyRunner S :=
  mkStrategyRunner s (mkStrategyRunnerStats 0 0 0 0 0 0) "".

(** The fields an intent leaves open are those of the event. *)
Definition complete_intent (event : NormalizedEvent) (intent : OrderIntent) : OrderIntent :=
  let intent :=
    if decide (oi_exchange intent = ExchangeId_kUnknown)
    then intent <| oi_exchange := em_exchange (ne_meta event) |> else intent in
  let intent :=
    if decide (oi_market_ticker intent = "")
    then intent <| oi_market_ticker := ne_market_ticker event |> else intent in
  if decide (oi_intent_ts_ns intent = 0)
  then intent <| oi_intent_ts_ns := em_recv_ns (ne_meta event) |> else intent.

(** What other threads do to the shared state before each access of one loop iteration. *)
Record interference (K : Type) := mkInterference {
  before_snapshot : K → K;
  before_submit : K → K;
  before_last_error : K → K;
}.
Arguments mkInterference {K}.
Arguments before_snapshot {K}.
Arguments before_submit {K}.
Arguments before_last_error {K}.

Definition undisturbed {K} : interference K := mkInterference (λ k, k) (λ k, k) (λ k, k).

Section runner.
Context {S K : Type} `{!Strategy S} `{!OrderIntentSink K}.
(** [config_.shard_risk] and [config_.risk_snapshot_provider], which may be null *)
Context (shard_risk : ShardRiskConfig) (provider : option (ShardSnapshotProvider K)).
Implicit Types (r : StrategyRunner S) (k : K).

(** The decision of the shard gate; without a provider there is none. *)
Definition shard_decision k (intent : OrderIntent) : ShardRiskDecision :=
  match provider with
  | None => shard_allow_decision
  | Some p =>
    shard_evaluate shard_risk intent
      (shard_snapshot_for k (oi_exchange intent) (oi_market_ticker intent))
  end.

(** One iteration of the loop over [decision.intents]. *)
Definition runner_handle_intent (event : NormalizedEvent) (others : interference K) r k
    (intent : OrderIntent) : StrategyRunner S * K :=
  let intent := complete_intent event intent in
  let r := r <| sr_stats ::= λ st, st <| srs_intents_emitted_count ::= u64_inc |> |> in
  let k := before_snapshot others k in
  let risk_decision := shard_decision k intent in
  if negb (sd_allow risk_decision) then
    (r <| sr_stats ::= λ st, st <| srs_risk_reject_count ::= u64_inc |> |>
       <| sr_last_error := sd_reason_message risk_decision |>, k)
  else
    let '(k, accepted) := sink_submit_intent (before_submit others k) intent in
    if negb accepted then
      let k := before_last_error others k in
      (r <| sr_stats ::= λ st, st <| srs_sink_reject_count ::= u64_inc |> |>
         <| sr_last_error := sink_last_error k |>, k)
    else
      (r <| sr_stats ::= λ st, st <| srs_intents_submitted_count ::= u64_inc |> |>, k).

Fixpoint runner_handle_all (event : NormalizedEvent) (env : nat → interference K) r k
    (intents : list OrderIntent) : StrategyRunner S * K :=
  match intents with
  | [] => (r, k)
  | intent :: intents =>
    let '(r, k) := runner_handle_intent event (env O) r k intent in
    runner_handle_all event (λ n, env (Datatypes.S n)) r k intents
  end.

Definition runner_on_event (env : nat → interference K) r k (event : NormalizedEvent)
    : StrategyRunner S * K * bool :=
  let r := r <| sr_stats ::= λ st, st <| srs_events_processed_count ::= u64_inc |> |> in
  match strategy_on_event (sr_strategy r) event with
  | (s, Err what) =>
    (r <| sr_strategy := s |>
       <| sr_stats ::= λ st, st <| srs_strategy_error_count ::= u64_inc |> |>
       <| sr_last_error := what |>, k, false)
  | (s, Ok intents) =>
    (runner_handle_all event env (r <| sr_strategy := s |>) k intents, true)
  end.

Definition runner_stats r : StrategyRunnerStats := sr_stats r.

(** strategy_event_handler.cpp forwards every call to its runner. *)
Definition strategy_event_handler_on_event (env : nat → interference K) r k
    (event : NormalizedEvent) : StrategyRunner S * K * bool :=
  runner_on_event env r k event.
End runner.

(** The handler of a shard: the runner with the state its sink acts on. *)
#[export] Instance strategy_event_handler {S K} `{!Strategy S} `{!OrderIntentSink K}
    (shard_risk : ShardRiskConfig) (provider : option (ShardSnapshotProvider K))
    : ShardEventHandler (StrategyRunner S * K) := {|
  on_event rk event :=
    strategy_event_handler_on_event shard_risk provider (λ _, undisturbed) rk.1 rk.2 event;
|}.

(** ** market_filter_event_handler.hpp; the delegate may be null *)
Record MarketFilterEventHandler (D : Type) := mkMarketFilter {
  mf_allowed_markets : gset string;
  mf_delegate : option D;
}.
Arguments mkMarketFilter {D}.
Arguments mf_allowed_markets {D}.
Arguments mf_delegate {D}.

Definition market_filter_on_event `{ShardEventHandler D} (f : MarketFilterEventHandler D)
    (event : NormalizedEvent) : MarketFilterEventHandler D * bool :=
  match mf_delegate f with
  | None => (f, false)
  | Some d =>
    if decide (mf_allowed_markets f = ∅) then
      let '(d, ok) := on_event d event in (mkMarketFilter (mf_allowed_markets f) (Some d), ok)
    else if decide (ne_market_ticker event ∈ mf_allowed_markets f) then
      let '(d, ok) := on_event d event in (mkMarketFilter (mf_allowed_markets f) (Some d), ok)
    else (f, true)
  end.

#[export] Instance market_filter_handler `{ShardEventHandler D}
    : ShardEventHandler (MarketFilterEventHandler D) := {| on_event := market_filter_on_event |}.

(** ** noop_strategy.hpp *)
#[export] Instance noop_strategy : Strategy unit := {|
  strategy_on_event s _ := (s, Ok []);
|}.

(** ** dropping_order_intent_sink.hpp *)
Definition dropping_submit_intent (dropped_count : Z) (intent : OrderIntent) : Z * bool :=
  (u64_inc dropped_count, true).

#[export] Instance dropping_sink : OrderIntentSink Z := {|
  sink_submit_intent := dropping_submit_intent;
  sink_last_error _ := "";
|}.

(** ** order_manager_intent_sink.hpp, over the manager it submits to *)
Record OrderManagerIntentSink (T E : Type) := mkOrderManagerIntentSink {
  is_order_manager : OrderManager T E;
  is_last_error : string;
  is_clock : Z;
}.
Arguments mkOrderManagerIntentSink {T E}.
Arguments is_order_manager {T E}.
Arguments is_last_error {T E}.
Arguments is_clock {T E}.

(** [is_clock] is the reading of the clock during [submit]. *)
Definition order_manager_submit_intent `{ExchangeOmsAdapter} {T E}
    (k : OrderManagerIntentSink T E) (intent : OrderIntent) : OrderManagerIntentSink T E * bool :=
  match submit (is_order_manager k) intent (is_clock k) with
  | (m, Some _) => (mkOrderManagerIntentSink m "" (is_clock k), true)
  | (m, None) => (mkOrderManagerIntentSink m (om_last_error m) (is_clock k), false)
  end.

#[export] Instance order_manager_intent_sink `{ExchangeOmsAdapter} {T E}
    : OrderIntentSink (OrderManagerIntentSink T E) := {|
  sink_submit_intent := order_manager_submit_intent;
  sink_last_error := is_last_error;
|}.

(** ** ledger_shard_risk_snapshot_provider.hpp *)
Definition ledger_shard_snapshot (l : PositionLedger) (exchange : ExchangeId)
    (market_ticker : string) : ShardRiskSnapshot :=
  let portfolio_snapshot := snapshot_for l exchange market_ticker in
  mkShardRiskSnapshot 0 0 (ps_net_position_market portfolio_snapshot).

#[export] Instance ledger_shard_provider {T}
    : ShardSnapshotProvider (OrderManagerIntentSink T PositionLedger) := {|
  shard_snapshot_for k := ledger_shard_snapshot (om_sink (is_order_manager k));
|}.

(** ** The gate in front of the sink

    The state is observed at the two accesses that matter: a log next to it receives the
    state the runner takes its snapshot of, and the state in which the sink is offered an
    intent, with the intent and the answer. *)
Inductive seen (K : Type) :=
  | AtGate (k : K)
  | Offered (k : K) (intent : OrderIntent) (accepted : bool).
Arguments AtGate {K}.
Arguments Offered {K}.

Definition observed (K : Type) : Type := (K * list (seen K))%type.

#[export] Instance observed_sink `{OrderIntentSink K} : OrderIntentSink (observed K) := {|
  sink_submit_intent kl intent :=
    let '(k, ok) := sink_submit_intent kl.1 intent in
    ((k, kl.2 ++ [Offered kl.1 intent ok]), ok);
  sink_last_error kl := sink_last_error kl.1;
|}.

Definition observed_provider {K} (p : ShardSnapshotProvider K)
    : ShardSnapshotProvider (observed K) := {|
  shard_snapshot_for kl := shard_snapshot_for kl.1;
|}.

(** The other threads change the state, not the log. *)
Definition observe {K} (others : interference K) : interference (observed K) :=
  mkInterference
    (λ kl, let k := before_snapshot others kl.1 in (k, kl.2 ++ [AtGate k]))
    (λ kl, (before_submit others kl.1, kl.2))
    (λ kl, (before_last_error others kl.1, kl.2)).

(** What became of one intent: the state it was gated in and, when it was offered to the
    sink, the state it was offered in and the sink's answer. *)
Record passage (K : Type) := mkPassage {
  pa_gated_in : K;
  pa_offered : option (K * bool);
}.
Arguments mkPassage {K}.
Arguments pa_gated_in {K}.
Arguments pa_offered {K}.

Definition passage_log {K} (event : NormalizedEvent) (intent : OrderIntent) (p : passage K)
    : list (seen K) :=
  AtGate (pa_gated_in p) ::
  match pa_offered p with
  | Some (k, accepted) => [Offered k (complete_intent event intent) accepted]
  | None => []
  end.

Definition is_refused {K} (p : passage K) : bool :=
  match pa_offered p with None => true | Some _ => false end.
Definition is_answered {K} (answer : bool) (p : passage K) : bool :=
  match pa_offered p with None => false | Some (_, accepted) => Bool.eqb accepted answer end.

Definition number {A} (f : A → bool) (l : list A) : Z := Z.of_nat (length (List.filter f l)).

Lemma number_cons {A} (f : A → bool) x l :
  number f (x :: l) = (if f x then 1 else 0) + number f l.
Proof. unfold number. simpl. destruct (f x); simpl; lia. Qed.

(** The counters after the intents of one event, from what became of each of them. *)
Record counted {K} (trail : list (passage K)) (st st' : StrategyRunnerStats) : Prop := {
  ct_processed : srs_events_processed_count st' = srs_events_processed_count st;
  ct_errors : srs_strategy_error_count st' = srs_strategy_error_count st;
  ct_emitted : u64 (srs_intents_emitted_count st') =
    u64 (srs_intents_emitted_count st + Z.of_nat (length trail));
  ct_refused : u64 (srs_risk_reject_count st') =
    u64 (srs_risk_reject_count st + number is_refused trail);
  ct_rejected : u64 (srs_sink_reject_count st') =
    u64 (srs_sink_reject_count st + number (is_answered false) trail);
  ct_submitted : u64 (srs_intents_submitted_count st') =
    u64 (srs_intents_submitted_count st + number (is_answered true) trail);
}.

Section gate.
Context {S K : Type} `{!Strategy S} `{!OrderIntentSink K}.
Context (shard_risk : ShardRiskConfig) (provider : option (ShardSnapshotProvider K)).
Implicit Types (r : StrategyRunner S) (kl : observed K).

Abbreviation oprovider := (observed_provider <$> provider).

(** The intent was offered exactly when the gate allows it in the state it was gated in. *)
Definition gated (event : NormalizedEvent) (intent : OrderIntent) (p : passage K) : Prop :=
  is_refused p =
  negb (sd_allow (shard_decision shard_risk provider (pa_gated_in p) (complete_intent event intent))).

Lemma observed_decision kl intent :
  shard_decision shard_risk oprovider kl intent = shard_decision shard_risk provider kl.1 intent.
Proof. unfold shard_decision. by destruct provider. Qed.

Lemma counted_nil (st : StrategyRunnerStats) : @counted K [] st st.
Proof. split; unfold number; simpl; rewrite ?Z.add_0_r; done. Qed.

Lemma u64_count_step a b c n m :
  u64 b = u64 (a + n) → u64 c = u64 (b + m) → u64 c = u64 (a + (n + m)).
Proof. intros Hb ->. rewrite <-u64_u64_add, Hb, u64_u64_add. f_equal. lia. Qed.

Lemma u64_inc_step a : u64 (u64_inc a) = u64 (a + 1).
Proof. unfold u64_inc. apply u64_small, u64_range. Qed.

Lemma counted_cons (p : passage K) trail st1 st2 st3 :
  counted [p] st1 st2 → counted trail st2 st3 → counted (p :: trail) st1 st3.
Proof.
  intros [H1 H2 H3 H4 H5 H6] [H1' H2' H3' H4' H5' H6']. split; rewrite ?number_cons; try congruence.
  - rewrite (u64_count_step _ _ _ _ _ H3 H3'). f_equal. cbn [length]. lia.
  - rewrite number_cons in H4. rewrite (u64_count_step _ _ _ _ _ H4 H4'). unfold number at 1. simpl. f_equal. lia.
  - rewrite number_cons in H5. rewrite (u64_count_step _ _ _ _ _ H5 H5'). unfold number at 1. simpl. f_equal. lia.
  - rewrite number_cons in H6. rewrite (u64_count_step _ _ _ _ _ H6 H6'). unfold number at 1. simpl. f_equal. lia.
Qed.

Lemma handle_intent_spec event others r kl intent r' kl' :
  runner_handle_intent shard_risk oprovider event (observe others) r kl intent = (r', kl') →
  ∃ p, kl'.2 = kl.2 ++ passage_log event intent p ∧ gated event intent p ∧
       counted [p] (sr_stats r) (sr_stats r').
Proof.
  unfold runner_handle_intent. rewrite observed_decision. simpl.
  set (k := before_snapshot others kl.1). unfold gated.
  destruct (sd_allow (shard_decision shard_risk provider k (complete_intent event intent)))
    eqn:Hal; simpl.
  - destruct (sink_submit_intent (before_submit others k) (complete_intent event intent))
      as [k' accepted] eqn:Hsub.
    intros Heq. exists (mkPassage k (Some (before_submit others k, accepted))).
    unfold passage_log. cbn [pa_gated_in pa_offered is_refused]. rewrite Hal.
    destruct accepted; simpl in Heq; injection Heq as <- <-; simpl;
      (split_and!; [by rewrite <-app_assoc|done|]);
      split; unfold number; simpl; rewrite ?Z.add_0_r; (done || apply u64_inc_step).
  - intros [= <- <-]. exists (mkPassage k None). unfold passage_log.
    cbn [pa_gated_in pa_offered is_refused]. rewrite Hal. split_and!; [done..|].
    split; unfold number; simpl; rewrite ?Z.add_0_r; (done || apply u64_inc_step).
Qed.

Lemma handle_all_spec event env r kl intents r' kl' :
  runner_handle_all shard_risk oprovider event (λ n, observe (env n)) r kl intents = (r', kl') →
  ∃ trail, kl'.2 = kl.2 ++ concat (zip_with (passage_log event) intents trail) ∧
    Forall2 (gated event) intents trail ∧ counted trail (sr_stats r) (sr_stats r').
Proof.
  revert env r kl. induction intents as [|intent intents IH]; intros env r kl; simpl.
  { intros [= <- <-]. exists []. rewrite app_nil_r. split_and!; [done|constructor|apply counted_nil]. }
  destruct (runner_handle_intent _ _ event _ r _ intent) as [r1 kl1] eqn:Hone.
  apply handle_intent_spec in Hone as (p & Hlog & Hg & Hc).
  intros (trail & Hlog' & Hg' & Hc')%(IH (λ n, env (Datatypes.S n))).
  exists (p :: trail). split_and!.
  - rewrite Hlog', Hlog. simpl. by rewrite <-app_assoc.
  - by constructor.
  - by eapply counted_cons.
Qed.

(** C38: no intent reaches the sink around the gate, and none is lost to it.  Whatever the
    strategy emits and whatever other threads do to the shared state meanwhile, between the
    snapshot and the submit too, each emitted intent, completed from the event, goes through
    the gate in turn, on a snapshot of the state as it is at that access; it is offered to
    the sink exactly when the gate allows it, before the next intent is looked at (without a
    snapshot provider every one is); and the counters move by exactly the numbers of emitted
    intents, of those the gate refused, those the sink refused and those it took.  A strategy
    that throws reaches neither gate nor sink. *)
Theorem gate_guards_sink env r kl event :
  let '(r', kl', ok) :=
    runner_on_event shard_risk oprovider (λ n, observe (env n)) r kl event in
  let st := (sr_stats r) <| srs_events_processed_count ::= u64_inc |> in
  match (strategy_on_event (sr_strategy r) event).2 with
  | Err what => ok = false ∧ kl' = kl ∧ sr_last_error r' = what ∧
                sr_stats r' = st <| srs_strategy_error_count ::= u64_inc |>
  | Ok intents =>
    ok = true ∧
    ∃ trail, kl'.2 = kl.2 ++ concat (zip_with (passage_log event) intents trail) ∧
      Forall2 (gated event) intents trail ∧
      (provider = None → Forall (λ p, is_refused p = false) trail) ∧
      counted trail st (sr_stats r')
  end.
Proof.
  unfold runner_on_event. simpl.
  destruct (strategy_on_event (sr_strategy r) event) as [s [intents|what]]; simpl; [|done].
  destruct (runner_handle_all _ _ event _ _ kl intents) as [r' kl'] eqn:Hrun.
  apply handle_all_spec in Hrun as (trail & Hlog & Hg & Hc).
  split; [done|]. exists trail. split_and!; [done..| |done].
  intros Hp. clear -Hg Hp. induction Hg as [|i p intents trail Hp' _ IH]; constructor; [|done].
  rewrite Hp'. unfold shard_decision. by rewrite Hp.
Qed.
End gate.

(** Two intents for five lots and a limit of seven: another thread books a fill of five
    lots between the snapshot and the submit of the first one.  It is offered all the same
    (the gate saw the state before), and the second one is refused. *)
Section gate_race.
#[local] Instance taking_sink : OrderIntentSink Z := {|
  sink_submit_intent k _ := (k, true);
  sink_last_error _ := "";
|}.
#[local] Instance twice_strategy : Strategy unit := {|
  strategy_on_event s _ := (s, Ok [demo_intent Side_kBuy 5; demo_intent Side_kBuy 5]);
|}.
Definition net_provider : ShardSnapshotProvider Z := {|
  shard_snapshot_for k _ _ := mkShardRiskSnapshot 0 0 k;
|}.
Definition booking (n : nat) : interference Z :=
  mkInterference (λ k, k) (λ k, if decide (n = 0%nat) then k + 5 else k) (λ k, k).

Lemma gate_race event :
  let '(r, kl, ok) :=
    runner_on_event (mkShardRiskConfig 0 0 7) (Some (observed_provider net_provider))
      (λ n, observe (booking n)) (runner_init ()) (0, []) event in
  ok = true ∧ sr_stats r = mkStrategyRunnerStats 1 2 1 1 0 0 ∧
  kl.2 = [AtGate 0; Offered 5 (complete_intent event (demo_intent Side_kBuy 5)) true; AtGate 5].
Proof. vm_compute. by split_and!. Qed.
End gate_race.

(** ** The gate over the ledger *)

(** Over the ledger's snapshot the shard gate enforces the position limit and nothing on
    open orders: an allowed place or replace leaves the market's net position, once filled,
    within [max_abs_net_position_per_market]; and the limit [max_open_orders_per_market] never
    changes a decision, because the snapshot always reports zero open orders. *)
Theorem ledger_shard_gate cfg intent l exchange ticker :
  let snapshot := ledger_shard_snapshot l exchange ticker in
  let net := net_position (pw_core l) (exchange, ticker) in
  0 ≤ sc_max_open_orders_per_market cfg →
  (shard_evaluate cfg intent snapshot =
   shard_evaluate (mkShardRiskConfig 0 (sc_max_working_qty_per_market cfg)
     (sc_max_abs_net_position_per_market cfg)) intent snapshot) ∧
  (sd_allow (shard_evaluate cfg intent snapshot) = true → creates_order intent →
   0 < sc_max_abs_net_position_per_market cfg → in_s64 (Z.abs (net + signed_intent_qty intent)) →
   Z.abs (net + signed_intent_qty intent) ≤ sc_max_abs_net_position_per_market cfg).
Proof.
  intros snapshot net Hopen.
  assert (snapshot = mkShardRiskSnapshot 0 0 net) as ->.
  { unfold snapshot, ledger_shard_snapshot, snapshot_for.
    by rewrite portfolio_risk_snapshot_sums. }
  unfold shard_evaluate. cbv zeta. simpl. change (u64 (0 + 1)) with 1.
  rewrite (decide_False (P := sc_max_open_orders_per_market cfg > 0 ∧ _)) by lia.
  split; [done|]. intros Hallow Hcr Hlim H64. clearbody net.
  assert (llabs_qty (s64 (net + signed_intent_qty intent)) = Z.abs (net + signed_intent_qty intent))
    as Habs by (unfold llabs_qty; rewrite (s64_small (net + _)), s64_small by (unfold in_s64 in *; lia); done).
  rewrite Habs in Hallow.
  destruct Hcr as [Hcr|Hcr]; rewrite Hcr in Hallow; simpl in Hallow;
    repeat (case_decide; [done|]); lia.
Qed.

Lemma ledger_shard_gate_witness :
  let l := mkPositionLedger (ledger_run ledger_init [demo_fill Side_kBuy 10 40]) "" in
  sd_allow (shard_evaluate (mkShardRiskConfig 1 0 15) (demo_intent Side_kBuy 5)
    (ledger_shard_snapshot l ExchangeId_kKalshi "MKT")) = true ∧
  Z.abs (net_position (pw_core l) (ExchangeId_kKalshi, "MKT") + 5) ≤ 15.
Proof.
  intros l.
  assert (sd_allow (shard_evaluate (mkShardRiskConfig 1 0 15) (demo_intent Side_kBuy 5)
    (ledger_shard_snapshot l ExchangeId_kKalshi "MKT")) = true) as Ha by (vm_compute; reflexivity).
  split; [exact Ha|].
  apply (ledger_shard_gate (mkShardRiskConfig 1 0 15) (demo_intent Side_kBuy 5) l
    ExchangeId_kKalshi "MKT"); [done|exact Ha|by left|done|].
  vm_compute. split; [discriminate|reflexivity].
Defined.
