(* ===== verification/Config.v ===== *)
(** * Loading the runtime configuration

    Model of src/cpp/src/config/trader_config.cpp and trader_config.hpp.  The JSON library
    is the interface of Nlohmann.v; the file system is a function from a path to the
    contents of the file, [None] when the stream cannot be opened.

    [parse_from_json] fills [result.config] field by field and returns at the first error
    with the fields read so far.  A part of it is a [config_step], a function on
    [ConfigLoadResult]; [p ;; q] continues with [q] when [p] has not failed.

    A [ConfigFile] says which keys a document has and what they hold.  The loader is
    shown to compute exactly the defaults overridden by those keys, and every result,
    failed ones included, to satisfy the bounds the rest of the engine relies on. *)
From S2P Require Import Prelude.
From S2P Require Import Types.
From S2P Require Import RiskGates.
From S2P Require Import Decode.
From S2P Require Import Pipeline.
From S2P Require Import Nlohmann.
From S2P Require Import StringSearch.

(** ** Data *)
Inductive TraderExecutionMode :=
  | TraderExecutionMode_kLive
  | TraderExecutionMode_kPaper
  | TraderExecutionMode_kMarketDataOnly.

#[export] Instance TraderExecutionMode_eq_dec : EqDecision TraderExecutionMode.
Proof. solve_decision. Defined.

Record CredentialConfig := mkCredentialConfig {
  cc_key_id : string;
  cc_private_key_pem : string;
  cc_key_id_env : string;
  cc_private_key_pem_env : string;
}.

Record KalshiWsConfig := mkKalshiWsConfig {
  kw_endpoint : string;
  kw_channels : list string;
  kw_credentials : CredentialConfig;
}.

Record RiskConfig := mkRiskConfig {
  rc_shard : ShardRiskConfig;
  rc_oms_global : GlobalRiskConfig;
  rc_oms_portfolio : PortfolioRiskConfig;
}.

(** [market_universe] has the single member [tickers]; [pump_idle_sleep] is in
    milliseconds. *)
Record TraderRuntimeConfig := mkTraderRuntimeConfig {
  tc_mode : string;
  tc_execution_mode : TraderExecutionMode;
  tc_kalshi : KalshiWsConfig;
  tc_tickers : list string;
  tc_risk : RiskConfig;
  tc_pipeline : LivePipelineConfig;
  tc_pump_batch_size : Z;
  tc_pump_idle_sleep : Z;
}.

Record ConfigLoadResult := mkConfigLoadResult {
  cl_ok : bool;
  cl_config : TraderRuntimeConfig;
  cl_error : string;
}.

#[export] Instance CredentialConfig_settable : Settable CredentialConfig := λ x,
  mkCredentialConfig (cc_key_id x) (cc_private_key_pem x) (cc_key_id_env x)
    (cc_private_key_pem_env x).
#[export] Instance KalshiWsConfig_settable : Settable KalshiWsConfig := λ x,
  mkKalshiWsConfig (kw_endpoint x) (kw_channels x) (kw_credentials x).
#[export] Instance ShardRiskConfig_settable : Settable ShardRiskConfig := λ x,
  mkShardRiskConfig (sc_max_open_orders_per_market x) (sc_max_working_qty_per_market x)
    (sc_max_abs_net_position_per_market x).
#[export] Instance GlobalRiskConfig_settable : Settable GlobalRiskConfig := λ x,
  mkGlobalRiskConfig (gc_max_active_orders_global x) (gc_max_active_orders_per_market x)
    (gc_max_outstanding_qty_global x) (gc_max_outstanding_qty_per_market x).
#[export] Instance PortfolioRiskConfig_settable : Settable PortfolioRiskConfig := λ x,
  mkPortfolioRiskConfig (pc_max_abs_net_position_per_market x)
    (pc_max_abs_position_gross_global x) (pc_min_realized_pnl_ticks x)
    (pc_enforce_realized_pnl_floor x).
#[export] Instance RiskConfig_settable : Settable RiskConfig := λ x,
  mkRiskConfig (rc_shard x) (rc_oms_global x) (rc_oms_portfolio x).
#[export] Instance LivePipelineConfig_settable : Settable LivePipelineConfig := λ x,
  mkLivePipelineConfig (lc_source x) (lc_decode_exchange x) (lc_router_exchange x)
    (lc_frame_pool_capacity x) (lc_frame_queue_capacity x) (lc_shard_count x)
    (lc_per_shard_queue_capacity x) (lc_shard_idle_sleep x).
#[export] Instance TraderRuntimeConfig_settable : Settable TraderRuntimeConfig := λ x,
  mkTraderRuntimeConfig (tc_mode x) (tc_execution_mode x) (tc_kalshi x) (tc_tickers x)
    (tc_risk x) (tc_pipeline x) (tc_pump_batch_size x) (tc_pump_idle_sleep x).
#[export] Instance ConfigLoadResult_settable : Settable ConfigLoadResult := λ x,
  mkConfigLoadResult (cl_ok x) (cl_config x) (cl_error x).

(** ** Default member initializers *)
Definition default_kalshi : KalshiWsConfig :=
  mkKalshiWsConfig "wss://api.elections.kalshi.com/trade-api/ws/v2" ["trades"]
    (mkCredentialConfig "" "" "KALSHI_KEY_ID" "KALSHI_PRIVATE_KEY_PEM").

Definition default_risk : RiskConfig :=
  mkRiskConfig (mkShardRiskConfig 0 0 0) (mkGlobalRiskConfig 0 0 0 0)
    (mkPortfolioRiskConfig 0 0 0 false).

Definition default_pipeline : LivePipelineConfig :=
  mkLivePipelineConfig "kalshi" DecodeExchange_kKalshi ExchangeId_kKalshi 8192 8192 4 1024 1.

Definition kDefaultPumpBatchSize : Z := 1024.

Definition default_config : TraderRuntimeConfig :=
  mkTraderRuntimeConfig "dev" TraderExecutionMode_kLive default_kalshi [] default_risk
    default_pipeline kDefaultPumpBatchSize 1.

(** ** The readers of single values *)
Definition parse_exchange_id (name : string) : option (DecodeExchange * ExchangeId) :=
  if decide (name = "kalshi") then Some (DecodeExchange_kKalshi, ExchangeId_kKalshi)
  else if decide (name = "polymarket") then
    Some (DecodeExchange_kPolymarket, ExchangeId_kPolymarket)
  else None.

Definition parse_execution_mode (mode_name : string) : option TraderExecutionMode :=
  if decide (mode_name = "live") then Some TraderExecutionMode_kLive
  else if decide (mode_name = "paper") then Some TraderExecutionMode_kPaper
  else if decide (mode_name = "md-only" ∨ mode_name = "md_only" ∨
                  mode_name = "market-data-only" ∨ mode_name = "market_data_only") then
    Some TraderExecutionMode_kMarketDataOnly
  else None.

Definition execution_mode_name (mode : TraderExecutionMode) : string :=
  match mode with
  | TraderExecutionMode_kLive => "live"
  | TraderExecutionMode_kPaper => "paper"
  | TraderExecutionMode_kMarketDataOnly => "md-only"
  end.

Section values.
Context `{NlohmannDocument}.

Definition parse_positive_size_t (value : nj) (field_name : string) : outcome Z :=
  match nj_unsigned value with
  | None => Err (field_name +:+ " must be an unsigned integer")
  | Some parsed =>
    if decide (parsed = 0) then Err (field_name +:+ " must be > 0") else Ok parsed
  end.

Definition parse_non_negative_size_t (value : nj) (field_name : string) : outcome Z :=
  match nj_unsigned value with
  | None => Err (field_name +:+ " must be an unsigned integer")
  | Some parsed => Ok parsed
  end.

Definition parse_non_negative_ms (value : nj) (field_name : string) : outcome Z :=
  match nj_integer value with
  | None => Err (field_name +:+ " must be an integer")
  | Some parsed =>
    if decide (parsed < 0) then Err (field_name +:+ " must be >= 0") else Ok parsed
  end.

Definition parse_int64 (value : nj) (field_name : string) : outcome Z :=
  match nj_integer value with
  | None => Err (field_name +:+ " must be an integer")
  | Some parsed => Ok parsed
  end.

Definition parse_non_negative_qty (value : nj) (field_name : string) : outcome QtyLots :=
  match parse_int64 value field_name with
  | Err error => Err error
  | Ok parsed =>
    if decide (parsed < 0) then Err (field_name +:+ " must be >= 0") else Ok parsed
  end.

Definition parse_bool (value : nj) (field_name : string) : outcome bool :=
  match nj_boolean value with
  | None => Err (field_name +:+ " must be a boolean")
  | Some b => Ok b
  end.

(** The loop of [parse_string_array]; [parsed] holds the elements read so far. *)
Fixpoint parse_string_items (parsed : list string) (items : list nj) (field_name : string)
    : outcome (list string) :=
  match items with
  | [] => Ok parsed
  | item :: items =>
    match nj_string item with
    | None => Err (field_name +:+ " entries must be strings")
    | Some s => parse_string_items (parsed ++ [s]) items field_name
    end
  end.

Definition parse_string_array (value : nj) (field_name : string) : outcome (list string) :=
  match nj_items value with
  | None => Err (field_name +:+ " must be an array")
  | Some items => parse_string_items [] items field_name
  end.

(** [is_string()] followed by [get<std::string>()], as written out at each string key. *)
Definition read_string (value : nj) (field_name : string) : outcome string :=
  match nj_string value with
  | None => Err (field_name +:+ " must be a string")
  | Some s => Ok s
  end.

Definition read_exchange (value : nj) (field_name : string)
    : outcome (DecodeExchange * ExchangeId) :=
  match nj_string value with
  | None => Err (field_name +:+ " must be a string")
  | Some s =>
    match parse_exchange_id s with
    | None => Err (field_name +:+ " must be one of: kalshi, polymarket")
    | Some ids => Ok ids
    end
  end.

Definition read_execution_mode (value : nj) (field_name : string)
    : outcome TraderExecutionMode :=
  match nj_string value with
  | None => Err (field_name +:+ " must be a string")
  | Some s =>
    match parse_execution_mode s with
    | None => Err (field_name +:+ " must be one of: live, paper, md-only")
    | Some mode => Ok mode
    end
  end.
End values.

(** ** The steps of [parse_from_json] *)
Abbreviation config_step := (ConfigLoadResult → ConfigLoadResult) (only parsing).

Definition fail (r : ConfigLoadResult) (error : string) : ConfigLoadResult :=
  r <| cl_ok := false |> <| cl_error := error |>.

Definition and_then (p q : config_step) : config_step := λ r,
  let r := p r in if cl_ok r then q r else r.

Declare Scope config_scope.
Delimit Scope config_scope with config.
Notation "p ;; q" := (and_then p q) : config_scope.
Local Open Scope config_scope.

Section loader.
Context `{NlohmannDocument}.

(** One key: absent, it leaves the result; present, its value is read and stored. *)
Definition field {A} (j : nj) (key field_name : string) (read : nj → string → outcome A)
    (store : A → TraderRuntimeConfig → TraderRuntimeConfig) : config_step := λ r,
  match nj_find j key with
  | None => r
  | Some value =>
    match read value field_name with
    | Err error => fail r error
    | Ok a => r <| cl_config ::= store a |>
    end
  end.

(** One nested object. *)
Definition object_field (j : nj) (key field_name : string) (body : nj → config_step)
    : config_step := λ r,
  match nj_find j key with
  | None => r
  | Some value =>
    if nj_is_object value then body value r
    else fail r (field_name +:+ " must be an object")
  end.

Definition parse_credentials (creds : nj) : config_step :=
  field creds "key_id" "kalshi.credentials.key_id" read_string
    (λ v c, c <| tc_kalshi ::= λ k, k <| kw_credentials ::= λ d, d <| cc_key_id := v |> |> |>) ;;
  field creds "private_key_pem" "kalshi.credentials.private_key_pem" read_string
    (λ v c, c <| tc_kalshi ::= λ k, k <| kw_credentials ::= λ d,
       d <| cc_private_key_pem := v |> |> |>) ;;
  field creds "key_id_env" "kalshi.credentials.key_id_env" read_string
    (λ v c, c <| tc_kalshi ::= λ k, k <| kw_credentials ::= λ d,
       d <| cc_key_id_env := v |> |> |>) ;;
  field creds "private_key_pem_env" "kalshi.credentials.private_key_pem_env" read_string
    (λ v c, c <| tc_kalshi ::= λ k, k <| kw_credentials ::= λ d,
       d <| cc_private_key_pem_env := v |> |> |>).

Definition parse_kalshi (kalshi : nj) : config_step :=
  field kalshi "endpoint" "kalshi.endpoint" read_string
    (λ v c, c <| tc_kalshi ::= λ k, k <| kw_endpoint := v |> |>) ;;
  field kalshi "channels" "kalshi.channels" parse_string_array
    (λ v c, c <| tc_kalshi ::= λ k, k <| kw_channels := v |> |>) ;;
  object_field kalshi "credentials" "kalshi.credentials" parse_credentials.

Definition parse_market_universe (market_universe : nj) : config_step :=
  field market_universe "tickers" "market_universe.tickers" parse_string_array
    (λ v c, c <| tc_tickers := v |>).

Definition parse_risk_shard (shard : nj) : config_step :=
  field shard "max_open_orders_per_market" "risk.shard.max_open_orders_per_market"
    parse_non_negative_size_t
    (λ v c, c <| tc_risk ::= λ r, r <| rc_shard ::= λ s,
       s <| sc_max_open_orders_per_market := v |> |> |>) ;;
  field shard "max_working_qty_per_market" "risk.shard.max_working_qty_per_market"
    parse_non_negative_qty
    (λ v c, c <| tc_risk ::= λ r, r <| rc_shard ::= λ s,
       s <| sc_max_working_qty_per_market := v |> |> |>) ;;
  field shard "max_abs_net_position_per_market" "risk.shard.max_abs_net_position_per_market"
    parse_non_negative_qty
    (λ v c, c <| tc_risk ::= λ r, r <| rc_shard ::= λ s,
       s <| sc_max_abs_net_position_per_market := v |> |> |>).

Definition parse_risk_oms_global (oms_global : nj) : config_step :=
  field oms_global "max_active_orders_global" "risk.oms_global.max_active_orders_global"
    parse_non_negative_size_t
    (λ v c, c <| tc_risk ::= λ r, r <| rc_oms_global ::= λ g,
       g <| gc_max_active_orders_global := v |> |> |>) ;;
  field oms_global "max_active_orders_per_market" "risk.oms_global.max_active_orders_per_market"
    parse_non_negative_size_t
    (λ v c, c <| tc_risk ::= λ r, r <| rc_oms_global ::= λ g,
       g <| gc_max_active_orders_per_market := v |> |> |>) ;;
  field oms_global "max_outstanding_qty_global" "risk.oms_global.max_outstanding_qty_global"
    parse_non_negative_qty
    (λ v c, c <| tc_risk ::= λ r, r <| rc_oms_global ::= λ g,
       g <| gc_max_outstanding_qty_global := v |> |> |>) ;;
  field oms_global "max_outstanding_qty_per_market"
    "risk.oms_global.max_outstanding_qty_per_market" parse_non_negative_qty
    (λ v c, c <| tc_risk ::= λ r, r <| rc_oms_global ::= λ g,
       g <| gc_max_outstanding_qty_per_market := v |> |> |>).

Definition parse_risk_oms_portfolio (oms_portfolio : nj) : config_step :=
  field oms_portfolio "max_abs_net_position_per_market"
    "risk.oms_portfolio.max_abs_net_position_per_market" parse_non_negative_qty
    (λ v c, c <| tc_risk ::= λ r, r <| rc_oms_portfolio ::= λ p,
       p <| pc_max_abs_net_position_per_market := v |> |> |>) ;;
  field oms_portfolio "max_abs_position_gross_global"
    "risk.oms_portfolio.max_abs_position_gross_global" parse_non_negative_qty
    (λ v c, c <| tc_risk ::= λ r, r <| rc_oms_portfolio ::= λ p,
       p <| pc_max_abs_position_gross_global := v |> |> |>) ;;
  field oms_portfolio "min_realized_pnl_ticks" "risk.oms_portfolio.min_realized_pnl_ticks"
    parse_int64
    (λ v c, c <| tc_risk ::= λ r, r <| rc_oms_portfolio ::= λ p,
       p <| pc_min_realized_pnl_ticks := v |> |> |>) ;;
  field oms_portfolio "enforce_realized_pnl_floor"
    "risk.oms_portfolio.enforce_realized_pnl_floor" parse_bool
    (λ v c, c <| tc_risk ::= λ r, r <| rc_oms_portfolio ::= λ p,
       p <| pc_enforce_realized_pnl_floor := v |> |> |>).

Definition parse_risk (risk : nj) : config_step :=
  object_field risk "shard" "risk.shard" parse_risk_shard ;;
  object_field risk "oms_global" "risk.oms_global" parse_risk_oms_global ;;
  object_field risk "oms_portfolio" "risk.oms_portfolio" parse_risk_oms_portfolio.

Definition parse_pipeline (pipeline : nj) : config_step :=
  field pipeline "source" "pipeline.source" read_string
    (λ v c, c <| tc_pipeline ::= λ p, p <| lc_source := v |> |>) ;;
  field pipeline "exchange" "pipeline.exchange" read_exchange
    (λ v c, c <| tc_pipeline ::= λ p,
       p <| lc_decode_exchange := v.1 |> <| lc_router_exchange := v.2 |> |>) ;;
  field pipeline "frame_pool_capacity" "pipeline.frame_pool_capacity" parse_positive_size_t
    (λ v c, c <| tc_pipeline ::= λ p, p <| lc_frame_pool_capacity := v |> |>) ;;
  field pipeline "frame_queue_capacity" "pipeline.frame_queue_capacity" parse_positive_size_t
    (λ v c, c <| tc_pipeline ::= λ p, p <| lc_frame_queue_capacity := v |> |>) ;;
  field pipeline "shard_count" "pipeline.shard_count" parse_positive_size_t
    (λ v c, c <| tc_pipeline ::= λ p, p <| lc_shard_count := v |> |>) ;;
  field pipeline "per_shard_queue_capacity" "pipeline.per_shard_queue_capacity"
    parse_positive_size_t
    (λ v c, c <| tc_pipeline ::= λ p, p <| lc_per_shard_queue_capacity := v |> |>) ;;
  field pipeline "shard_idle_sleep_ms" "pipeline.shard_idle_sleep_ms" parse_non_negative_ms
    (λ v c, c <| tc_pipeline ::= λ p, p <| lc_shard_idle_sleep := v |> |>).

Definition parse_runtime (runtime : nj) : config_step :=
  field runtime "pump_batch_size" "runtime.pump_batch_size" parse_positive_size_t
    (λ v c, c <| tc_pump_batch_size := v |>) ;;
  field runtime "pump_idle_sleep_ms" "runtime.pump_idle_sleep_ms" parse_non_negative_ms
    (λ v c, c <| tc_pump_idle_sleep := v |>) ;;
  field runtime "execution_mode" "runtime.execution_mode" read_execution_mode
    (λ v c, c <| tc_execution_mode := v |>).

Definition parse_from_json (root : nj) : ConfigLoadResult :=
  let result := mkConfigLoadResult true default_config "" in
  if negb (nj_is_object root) then fail result "config root must be a JSON object"
  else
    (field root "mode" "mode" read_string (λ v c, c <| tc_mode := v |>) ;;
     object_field root "kalshi" "kalshi" parse_kalshi ;;
     object_field root "market_universe" "market_universe" parse_market_universe ;;
     object_field root "risk" "risk" parse_risk ;;
     object_field root "pipeline" "pipeline" parse_pipeline ;;
     object_field root "runtime" "runtime" parse_runtime) result.

Definition load_trader_config_from_json (json_text : string) : ConfigLoadResult :=
  match nj_parse json_text with
  | Err what => mkConfigLoadResult false default_config ("failed to parse config JSON: " +:+ what)
  | Ok root => parse_from_json root
  end.

Definition load_trader_config_from_file (read_file : string → option string) (path : string)
    : ConfigLoadResult :=
  match read_file path with
  | None => mkConfigLoadResult false default_config ("failed to open config file: " +:+ path)
  | Some text =>
    let result := load_trader_config_from_json text in
    if negb (cl_ok result) && negb (contains (cl_error result) path)
    then result <| cl_error := path +:+ ": " +:+ cl_error result |> else result
  end.
End loader.

(** ** What a document says

    A [ConfigFile] has one optional entry for every key the loader knows.  A document is
    the JSON object with the keys that are present. *)
Record CredentialsFile := mkCredentialsFile {
  cf_key_id : option string;
  cf_private_key_pem : option string;
  cf_key_id_env : option string;
  cf_private_key_pem_env : option string;
}.

Record KalshiFile := mkKalshiFile {
  kf_endpoint : option string;
  kf_channels : option (list string);
  kf_credentials : option CredentialsFile;
}.

Record ShardRiskFile := mkShardRiskFile {
  sf_max_open_orders_per_market : option Z;
  sf_max_working_qty_per_market : option Z;
  sf_max_abs_net_position_per_market : option Z;
}.

Record GlobalRiskFile := mkGlobalRiskFile {
  gf_max_active_orders_global : option Z;
  gf_max_active_orders_per_market : option Z;
  gf_max_outstanding_qty_global : option Z;
  gf_max_outstanding_qty_per_market : option Z;
}.

Record PortfolioRiskFile := mkPortfolioRiskFile {
  pf_max_abs_net_position_per_market : option Z;
  pf_max_abs_position_gross_global : option Z;
  pf_min_realized_pnl_ticks : option Z;
  pf_enforce_realized_pnl_floor : option bool;
}.

Record RiskFile := mkRiskFile {
  rf_shard : option ShardRiskFile;
  rf_oms_global : option GlobalRiskFile;
  rf_oms_portfolio : option PortfolioRiskFile;
}.

Record PipelineFile := mkPipelineFile {
  lf_source : option string;
  lf_exchange : option DecodeExchange;
  lf_frame_pool_capacity : option Z;
  lf_frame_queue_capacity : option Z;
  lf_shard_count : option Z;
  lf_per_shard_queue_capacity : option Z;
  lf_shard_idle_sleep : option Z;
}.

Record RuntimeFile := mkRuntimeFile {
  uf_pump_batch_size : option Z;
  uf_pump_idle_sleep : option Z;
  uf_execution_mode : option TraderExecutionMode;
}.

(** [mf_tickers] is the section [market_universe] with its key [tickers]. *)
Record ConfigFile := mkConfigFile {
  mf_mode : option string;
  mf_kalshi : option KalshiFile;
  mf_tickers : option (option (list string));
  mf_risk : option RiskFile;
  mf_pipeline : option PipelineFile;
  mf_runtime : option RuntimeFile;
}.

Definition exchange_ids (e : DecodeExchange) : DecodeExchange * ExchangeId :=
  (e, match e with
      | DecodeExchange_kKalshi => ExchangeId_kKalshi
      | DecodeExchange_kPolymarket => ExchangeId_kPolymarket
      end).
Definition exchange_name (e : DecodeExchange) : string :=
  match e with
  | DecodeExchange_kKalshi => "kalshi"
  | DecodeExchange_kPolymarket => "polymarket"
  end.

Section documents.
Context `{NlohmannDocument}.

Definition present (l : list (string * option nj)) : list (string * nj) :=
  omap (λ kv, pair kv.1 <$> kv.2) l.
Definition document (l : list (string * option nj)) : nj := nj_object (present l).

Definition strings_document (l : list string) : nj := nj_array (nj_of_string <$> l).
Definition exchange_document (ids : DecodeExchange * ExchangeId) : nj :=
  nj_of_string (exchange_name ids.1).
Definition mode_document (mode : TraderExecutionMode) : nj :=
  nj_of_string (execution_mode_name mode).

Definition credentials_document (f : CredentialsFile) : nj :=
  document [("key_id", nj_of_string <$> cf_key_id f);
            ("private_key_pem", nj_of_string <$> cf_private_key_pem f);
            ("key_id_env", nj_of_string <$> cf_key_id_env f);
            ("private_key_pem_env", nj_of_string <$> cf_private_key_pem_env f)].

Definition kalshi_document (f : KalshiFile) : nj :=
  document [("endpoint", nj_of_string <$> kf_endpoint f);
            ("channels", strings_document <$> kf_channels f);
            ("credentials", credentials_document <$> kf_credentials f)].

Definition universe_document (tickers : option (list string)) : nj :=
  document [("tickers", strings_document <$> tickers)].

Definition risk_shard_document (f : ShardRiskFile) : nj :=
  document [("max_open_orders_per_market", nj_of_int <$> sf_max_open_orders_per_market f);
            ("max_working_qty_per_market", nj_of_int <$> sf_max_working_qty_per_market f);
            ("max_abs_net_position_per_market",
             nj_of_int <$> sf_max_abs_net_position_per_market f)].

Definition risk_oms_global_document (f : GlobalRiskFile) : nj :=
  document [("max_active_orders_global", nj_of_int <$> gf_max_active_orders_global f);
            ("max_active_orders_per_market", nj_of_int <$> gf_max_active_orders_per_market f);
            ("max_outstanding_qty_global", nj_of_int <$> gf_max_outstanding_qty_global f);
            ("max_outstanding_qty_per_market",
             nj_of_int <$> gf_max_outstanding_qty_per_market f)].

Definition risk_oms_portfolio_document (f : PortfolioRiskFile) : nj :=
  document [("max_abs_net_position_per_market",
             nj_of_int <$> pf_max_abs_net_position_per_market f);
            ("max_abs_position_gross_global", nj_of_int <$> pf_max_abs_position_gross_global f);
            ("min_realized_pnl_ticks", nj_of_int <$> pf_min_realized_pnl_ticks f);
            ("enforce_realized_pnl_floor", nj_of_bool <$> pf_enforce_realized_pnl_floor f)].

Definition risk_document (f : RiskFile) : nj :=
  document [("shard", risk_shard_document <$> rf_shard f);
            ("oms_global", risk_oms_global_document <$> rf_oms_global f);
            ("oms_portfolio", risk_oms_portfolio_document <$> rf_oms_portfolio f)].

Definition pipeline_document (f : PipelineFile) : nj :=
  document [("source", nj_of_string <$> lf_source f);
            ("exchange", exchange_document <$> (exchange_ids <$> lf_exchange f));
            ("frame_pool_capacity", nj_of_int <$> lf_frame_pool_capacity f);
            ("frame_queue_capacity", nj_of_int <$> lf_frame_queue_capacity f);
            ("shard_count", nj_of_int <$> lf_shard_count f);
            ("per_shard_queue_capacity", nj_of_int <$> lf_per_shard_queue_capacity f);
            ("shard_idle_sleep_ms", nj_of_int <$> lf_shard_idle_sleep f)].

Definition runtime_document (f : RuntimeFile) : nj :=
  document [("pump_batch_size", nj_of_int <$> uf_pump_batch_size f);
            ("pump_idle_sleep_ms", nj_of_int <$> uf_pump_idle_sleep f);
            ("execution_mode", mode_document <$> uf_execution_mode f)].

Definition config_document (f : ConfigFile) : nj :=
  document [("mode", nj_of_string <$> mf_mode f);
            ("kalshi", kalshi_document <$> mf_kalshi f);
            ("market_universe", universe_document <$> mf_tickers f);
            ("risk", risk_document <$> mf_risk f);
            ("pipeline", pipeline_document <$> mf_pipeline f);
            ("runtime", runtime_document <$> mf_runtime f)].
End documents.

(** ** What the document asks for: its keys over what was there before *)
Definition over {F T} (g : T → F → T) (t : T) (f : option F) : T :=
  match f with None => t | Some f => g t f end.

Definition credentials_over (d : CredentialConfig) (f : CredentialsFile) : CredentialConfig :=
  mkCredentialConfig (default (cc_key_id d) (cf_key_id f))
    (default (cc_private_key_pem d) (cf_private_key_pem f))
    (default (cc_key_id_env d) (cf_key_id_env f))
    (default (cc_private_key_pem_env d) (cf_private_key_pem_env f)).

Definition kalshi_over (k : KalshiWsConfig) (f : KalshiFile) : KalshiWsConfig :=
  mkKalshiWsConfig (default (kw_endpoint k) (kf_endpoint f))
    (default (kw_channels k) (kf_channels f))
    (over credentials_over (kw_credentials k) (kf_credentials f)).

Definition risk_shard_over (s : ShardRiskConfig) (f : ShardRiskFile) : ShardRiskConfig :=
  mkShardRiskConfig
    (default (sc_max_open_orders_per_market s) (sf_max_open_orders_per_market f))
    (default (sc_max_working_qty_per_market s) (sf_max_working_qty_per_market f))
    (default (sc_max_abs_net_position_per_market s) (sf_max_abs_net_position_per_market f)).

Definition risk_oms_global_over (g : GlobalRiskConfig) (f : GlobalRiskFile)
    : GlobalRiskConfig :=
  mkGlobalRiskConfig
    (default (gc_max_active_orders_global g) (gf_max_active_orders_global f))
    (default (gc_max_active_orders_per_market g) (gf_max_active_orders_per_market f))
    (default (gc_max_outstanding_qty_global g) (gf_max_outstanding_qty_global f))
    (default (gc_max_outstanding_qty_per_market g) (gf_max_outstanding_qty_per_market f)).

Definition risk_oms_portfolio_over (p : PortfolioRiskConfig) (f : PortfolioRiskFile)
    : PortfolioRiskConfig :=
  mkPortfolioRiskConfig
    (default (pc_max_abs_net_position_per_market p) (pf_max_abs_net_position_per_market f))
    (default (pc_max_abs_position_gross_global p) (pf_max_abs_position_gross_global f))
    (default (pc_min_realized_pnl_ticks p) (pf_min_realized_pnl_ticks f))
    (default (pc_enforce_realized_pnl_floor p) (pf_enforce_realized_pnl_floor f)).

Definition risk_over (r : RiskConfig) (f : RiskFile) : RiskConfig :=
  mkRiskConfig (over risk_shard_over (rc_shard r) (rf_shard f))
    (over risk_oms_global_over (rc_oms_global r) (rf_oms_global f))
    (over risk_oms_portfolio_over (rc_oms_portfolio r) (rf_oms_portfolio f)).

Definition pipeline_over (p : LivePipelineConfig) (f : PipelineFile) : LivePipelineConfig :=
  let ids :=
    default (lc_decode_exchange p, lc_router_exchange p) (exchange_ids <$> lf_exchange f) in
  mkLivePipelineConfig (default (lc_source p) (lf_source f)) ids.1 ids.2
    (default (lc_frame_pool_capacity p) (lf_frame_pool_capacity f))
    (default (lc_frame_queue_capacity p) (lf_frame_queue_capacity f))
    (default (lc_shard_count p) (lf_shard_count f))
    (default (lc_per_shard_queue_capacity p) (lf_per_shard_queue_capacity f))
    (default (lc_shard_idle_sleep p) (lf_shard_idle_sleep f)).

Definition runtime_over (c : TraderRuntimeConfig) (f : RuntimeFile) : TraderRuntimeConfig :=
  c <| tc_pump_batch_size := default (tc_pump_batch_size c) (uf_pump_batch_size f) |>
    <| tc_pump_idle_sleep := default (tc_pump_idle_sleep c) (uf_pump_idle_sleep f) |>
    <| tc_execution_mode := default (tc_execution_mode c) (uf_execution_mode f) |>.

Definition config_over (c : TraderRuntimeConfig) (f : ConfigFile) : TraderRuntimeConfig :=
  over runtime_over
    (mkTraderRuntimeConfig (default (tc_mode c) (mf_mode f)) (tc_execution_mode c)
      (over kalshi_over (tc_kalshi c) (mf_kalshi f))
      (over default (tc_tickers c) (mf_tickers f))
      (over risk_over (tc_risk c) (mf_risk f))
      (over pipeline_over (tc_pipeline c) (mf_pipeline f))
      (tc_pump_batch_size c) (tc_pump_idle_sleep c))
    (mf_runtime f).

(** ** The ranges of the numbers *)
Definition positive_size (z : Z) : Prop := 0 < z < 18446744073709551616.
Definition non_negative_s64 (z : Z) : Prop := 0 ≤ z < 9223372036854775808.
Definition given {A} (P : A → Prop) (o : option A) : Prop := ∀ a, o = Some a → P a.

Definition risk_shard_file_valid (f : ShardRiskFile) : Prop :=
  given in_u64 (sf_max_open_orders_per_market f) ∧
  given non_negative_s64 (sf_max_working_qty_per_market f) ∧
  given non_negative_s64 (sf_max_abs_net_position_per_market f).

Definition risk_oms_global_file_valid (f : GlobalRiskFile) : Prop :=
  given in_u64 (gf_max_active_orders_global f) ∧
  given in_u64 (gf_max_active_orders_per_market f) ∧
  given non_negative_s64 (gf_max_outstanding_qty_global f) ∧
  given non_negative_s64 (gf_max_outstanding_qty_per_market f).

Definition risk_oms_portfolio_file_valid (f : PortfolioRiskFile) : Prop :=
  given non_negative_s64 (pf_max_abs_net_position_per_market f) ∧
  given non_negative_s64 (pf_max_abs_position_gross_global f) ∧
  given in_s64 (pf_min_realized_pnl_ticks f).

Definition risk_file_valid (f : RiskFile) : Prop :=
  given risk_shard_file_valid (rf_shard f) ∧
  given risk_oms_global_file_valid (rf_oms_global f) ∧
  given risk_oms_portfolio_file_valid (rf_oms_portfolio f).

Definition pipeline_file_valid (f : PipelineFile) : Prop :=
  given positive_size (lf_frame_pool_capacity f) ∧
  given positive_size (lf_frame_queue_capacity f) ∧
  given positive_size (lf_shard_count f) ∧
  given positive_size (lf_per_shard_queue_capacity f) ∧
  given non_negative_s64 (lf_shard_idle_sleep f).

Definition runtime_file_valid (f : RuntimeFile) : Prop :=
  given positive_size (uf_pump_batch_size f) ∧ given non_negative_s64 (uf_pump_idle_sleep f).

Definition config_file_valid (f : ConfigFile) : Prop :=
  given risk_file_valid (mf_risk f) ∧ given pipeline_file_valid (mf_pipeline f) ∧
  given runtime_file_valid (mf_runtime f).

(** What holds of every configuration the loader produces. *)
Definition risk_config_valid (r : RiskConfig) : Prop :=
  in_u64 (sc_max_open_orders_per_market (rc_shard r)) ∧
  non_negative_s64 (sc_max_working_qty_per_market (rc_shard r)) ∧
  non_negative_s64 (sc_max_abs_net_position_per_market (rc_shard r)) ∧
  in_u64 (gc_max_active_orders_global (rc_oms_global r)) ∧
  in_u64 (gc_max_active_orders_per_market (rc_oms_global r)) ∧
  non_negative_s64 (gc_max_outstanding_qty_global (rc_oms_global r)) ∧
  non_negative_s64 (gc_max_outstanding_qty_per_market (rc_oms_global r)) ∧
  non_negative_s64 (pc_max_abs_net_position_per_market (rc_oms_portfolio r)) ∧
  non_negative_s64 (pc_max_abs_position_gross_global (rc_oms_portfolio r)) ∧
  in_s64 (pc_min_realized_pnl_ticks (rc_oms_portfolio r)).

Definition pipeline_config_valid (p : LivePipelineConfig) : Prop :=
  exchange_ids (lc_decode_exchange p) = (lc_decode_exchange p, lc_router_exchange p) ∧
  positive_size (lc_frame_pool_capacity p) ∧ positive_size (lc_frame_queue_capacity p) ∧
  positive_size (lc_shard_count p) ∧ positive_size (lc_per_shard_queue_capacity p) ∧
  non_negative_s64 (lc_shard_idle_sleep p).

Definition config_valid (c : TraderRuntimeConfig) : Prop :=
  risk_config_valid (tc_risk c) ∧ pipeline_config_valid (tc_pipeline c) ∧
  positive_size (tc_pump_batch_size c) ∧ non_negative_s64 (tc_pump_idle_sleep c).

(** ** The loader reads every key into its field *)
Definition loaded (c : TraderRuntimeConfig) : ConfigLoadResult := mkConfigLoadResult true c "".

Lemma and_then_loaded p q c c' :
  p (loaded c) = loaded c' → (p ;; q) (loaded c) = q (loaded c').
Proof. unfold and_then. by intros ->. Qed.

Section reading.
Context `{NlohmannDocumentLaws} `{!NlohmannLaws}.
Implicit Types (c : TraderRuntimeConfig) (key name : string) (l : list (string * option nj)).

Lemma present_keys l k : k ∈ (present l).*1 → k ∈ l.*1.
Proof.
  unfold present. rewrite !list_elem_of_fmap. intros ([k' v] & -> & Hin).
  apply list_elem_of_omap in Hin as ([k o] & Hin & Ho).
  apply fmap_Some in Ho as (v' & Ho & ->). exists (k, o). auto.
Qed.

Lemma present_NoDup l : NoDup l.*1 → NoDup (present l).*1.
Proof.
  induction l as [|[k [v|]] l IH]; csimpl; intros Hnd.
  - constructor.
  - apply NoDup_cons in Hnd as [? ?]. apply NoDup_cons. split; [|auto].
    intros ?%present_keys. done.
  - apply NoDup_cons in Hnd as [_ ?]. auto.
Qed.

Lemma find_document l key o :
  NoDup l.*1 → (key, o) ∈ l → nj_find (document l) key = o.
Proof.
  intros Hnd Hin. unfold document. destruct o as [v|].
  - apply nj_find_object; [by apply present_NoDup|].
    apply list_elem_of_omap. by exists (key, Some v).
  - apply nj_find_object_none. intros Hk.
    apply list_elem_of_fmap in Hk as ([k v] & -> & Hk).
    apply list_elem_of_omap in Hk as ([k' o'] & Hk & Ho).
    apply fmap_Some in Ho as (v' & Ho & [= -> ->]). simpl in *. subst o'.
    apply list_elem_of_lookup in Hin as [i Hi]. apply list_elem_of_lookup in Hk as [i' Hi'].
    assert (i = i') as ->.
    { eapply NoDup_lookup; [exact Hnd|..];
        rewrite list_lookup_fmap; [by rewrite Hi|by rewrite Hi']. }
    congruence.
Qed.

Lemma field_document {A} l key name read store (get : TraderRuntimeConfig → A)
    (enc : A → nj) (a : option A) c :
  (key, enc <$> a) ∈ l → NoDup l.*1 → given (λ x, read (enc x) name = Ok x) a →
  store (get c) c = c →
  field (document l) key name read store (loaded c) = loaded (store (default (get c) a) c).
Proof.
  intros Hin Hnd Hread Hget. unfold field. rewrite (find_document l key (enc <$> a)) by done.
  destruct a as [x|]; simpl; [by rewrite (Hread x)|by rewrite Hget].
Qed.

Lemma object_field_document {F T} l key name (body : nj → config_step)
    (get : TraderRuntimeConfig → T) (store : T → TraderRuntimeConfig → TraderRuntimeConfig)
    (g : T → F → T) (enc : F → nj) (f : option F) c :
  (key, enc <$> f) ∈ l → NoDup l.*1 →
  given (λ x, nj_is_object (enc x) = true ∧
              body (enc x) (loaded c) = loaded (store (g (get c) x) c)) f →
  store (get c) c = c →
  object_field (document l) key name body (loaded c) = loaded (store (over g (get c) f) c).
Proof.
  intros Hin Hnd Hbody Hget. unfold object_field.
  rewrite (find_document l key (enc <$> f)) by done.
  destruct f as [x|]; simpl; [|by rewrite Hget].
  by destruct (Hbody x) as [-> ->].
Qed.

Lemma document_is_object l : nj_is_object (document l) = true.
Proof. apply nj_object_is. Qed.

(** Reading back what was written. *)
Lemma read_string_of s name : read_string (nj_of_string s) name = Ok s.
Proof. unfold read_string. by rewrite nj_string_of. Qed.

Lemma parse_string_items_of acc (l : list string) name :
  parse_string_items acc (nj_of_string <$> l) name = Ok (acc ++ l).
Proof.
  revert acc. induction l as [|s l IH]; intros acc; csimpl; [by rewrite app_nil_r|].
  rewrite nj_string_of, IH. by rewrite <-app_assoc.
Qed.

Lemma parse_string_array_of (l : list string) name : parse_string_array (strings_document l) name = Ok l.
Proof.
  unfold parse_string_array, strings_document. rewrite nj_items_of. apply parse_string_items_of.
Qed.

Lemma parse_positive_size_t_of z name :
  positive_size z → parse_positive_size_t (nj_of_int z) name = Ok z.
Proof.
  unfold positive_size, parse_positive_size_t. intros Hz.
  rewrite nj_unsigned_of by (unfold in_u64; lia). by rewrite decide_False by lia.
Qed.

Lemma parse_non_negative_size_t_of z name :
  in_u64 z → parse_non_negative_size_t (nj_of_int z) name = Ok z.
Proof. unfold parse_non_negative_size_t. intros. by rewrite nj_unsigned_of. Qed.

Lemma nj_integer_s64 z : in_s64 z → nj_integer (nj_of_int z) = Some z.
Proof.
  intros Hz. unfold in_s64 in Hz. rewrite nj_integer_of by lia. by rewrite s64_small.
Qed.

Lemma parse_int64_of z name : in_s64 z → parse_int64 (nj_of_int z) name = Ok z.
Proof. unfold parse_int64. intros. by rewrite nj_integer_s64. Qed.

Lemma parse_non_negative_ms_of z name :
  non_negative_s64 z → parse_non_negative_ms (nj_of_int z) name = Ok z.
Proof.
  unfold non_negative_s64, parse_non_negative_ms. intros Hz.
  rewrite nj_integer_s64 by (unfold in_s64; lia). by rewrite decide_False by lia.
Qed.

Lemma parse_non_negative_qty_of z name :
  non_negative_s64 z → parse_non_negative_qty (nj_of_int z) name = Ok z.
Proof.
  unfold non_negative_s64, parse_non_negative_qty. intros Hz.
  rewrite parse_int64_of by (unfold in_s64; lia). by rewrite decide_False by lia.
Qed.

Lemma parse_bool_of b name : parse_bool (nj_of_bool b) name = Ok b.
Proof. unfold parse_bool. by rewrite nj_boolean_of. Qed.

Lemma read_exchange_of e name :
  read_exchange (exchange_document (exchange_ids e)) name = Ok (exchange_ids e).
Proof. unfold read_exchange, exchange_document. rewrite nj_string_of. by destruct e. Qed.

Lemma read_execution_mode_of mode name :
  read_execution_mode (mode_document mode) name = Ok mode.
Proof. unfold read_execution_mode, mode_document. rewrite nj_string_of. by destruct mode. Qed.

Lemma given_all {A} (P : A → Prop) o : (∀ a, P a) → given P o.
Proof. intros HP a _. apply HP. Qed.
Lemma given_impl {A} (P Q : A → Prop) o : (∀ a, P a → Q a) → given P o → given Q o.
Proof. unfold given. auto. Qed.
Lemma given_fmap {A B} (f : A → B) (P : B → Prop) o :
  (∀ a, P (f a)) → given P (f <$> o).
Proof. intros HP b (a & -> & ->)%fmap_Some. apply HP. Qed.
End reading.

#[export] Hint Resolve read_string_of parse_string_array_of parse_bool_of read_exchange_of
  read_execution_mode_of parse_positive_size_t_of parse_non_negative_size_t_of
  parse_int64_of parse_non_negative_ms_of parse_non_negative_qty_of : trading.

(** The nested records of a configuration, so that its setters compute. *)
Ltac destruct_config c := 
  destruct c as [m e [k1 k2 [d1 d2 d3 d4]] t [[s1 s2 s3] [g1 g2 g3 g4] [p1 p2 p3 p4]]
                 [l1 l2 l3 l4 l5 l6 l7 l8] b i].
(** One key of a document, given the field it is stored in. *)
Ltac key_in_document :=
  repeat first [apply list_elem_of_here | apply list_elem_of_further].
Ltac document_field get :=
  eapply (field_document _ _ _ _ _ get);
  [ key_in_document | distinct_keys
  | first [ apply given_all; by auto with trading
          | apply given_fmap; by auto with trading
          | eapply given_impl; [|eassumption]; by auto with trading ]
  | reflexivity ].
Ltac then_field get := eapply eq_trans; [apply and_then_loaded; document_field get|].
Ltac last_field get := eapply eq_trans; [document_field get|reflexivity].

Section reading_sections.
Context `{NlohmannDocumentLaws} `{!NlohmannLaws}.
Implicit Types (c : TraderRuntimeConfig).

Lemma parse_credentials_document f c :
  parse_credentials (credentials_document f) (loaded c) =
  loaded (c <| tc_kalshi ::= λ k, k <| kw_credentials ::= λ d, credentials_over d f |> |>).
Proof.
  unfold parse_credentials, credentials_document. destruct_config c.
  then_field (λ c, cc_key_id (kw_credentials (tc_kalshi c))).
  then_field (λ c, cc_private_key_pem (kw_credentials (tc_kalshi c))).
  then_field (λ c, cc_key_id_env (kw_credentials (tc_kalshi c))).
  last_field (λ c, cc_private_key_pem_env (kw_credentials (tc_kalshi c))).
Qed.

Lemma parse_risk_shard_document f c :
  risk_shard_file_valid f →
  parse_risk_shard (risk_shard_document f) (loaded c) =
  loaded (c <| tc_risk ::= λ r, r <| rc_shard ::= λ s, risk_shard_over s f |> |>).
Proof.
  intros (? & ? & ?). unfold parse_risk_shard, risk_shard_document. destruct_config c.
  then_field (λ c, sc_max_open_orders_per_market (rc_shard (tc_risk c))).
  then_field (λ c, sc_max_working_qty_per_market (rc_shard (tc_risk c))).
  last_field (λ c, sc_max_abs_net_position_per_market (rc_shard (tc_risk c))).
Qed.

Lemma parse_risk_oms_global_document f c :
  risk_oms_global_file_valid f →
  parse_risk_oms_global (risk_oms_global_document f) (loaded c) =
  loaded (c <| tc_risk ::= λ r, r <| rc_oms_global ::= λ g, risk_oms_global_over g f |> |>).
Proof.
  intros (? & ? & ? & ?). unfold parse_risk_oms_global, risk_oms_global_document.
  destruct_config c.
  then_field (λ c, gc_max_active_orders_global (rc_oms_global (tc_risk c))).
  then_field (λ c, gc_max_active_orders_per_market (rc_oms_global (tc_risk c))).
  then_field (λ c, gc_max_outstanding_qty_global (rc_oms_global (tc_risk c))).
  last_field (λ c, gc_max_outstanding_qty_per_market (rc_oms_global (tc_risk c))).
Qed.

Lemma parse_risk_oms_portfolio_document f c :
  risk_oms_portfolio_file_valid f →
  parse_risk_oms_portfolio (risk_oms_portfolio_document f) (loaded c) =
  loaded (c <| tc_risk ::= λ r,
            r <| rc_oms_portfolio ::= λ p, risk_oms_portfolio_over p f |> |>).
Proof.
  intros (? & ? & ?). unfold parse_risk_oms_portfolio, risk_oms_portfolio_document.
  destruct_config c.
  then_field (λ c, pc_max_abs_net_position_per_market (rc_oms_portfolio (tc_risk c))).
  then_field (λ c, pc_max_abs_position_gross_global (rc_oms_portfolio (tc_risk c))).
  then_field (λ c, pc_min_realized_pnl_ticks (rc_oms_portfolio (tc_risk c))).
  last_field (λ c, pc_enforce_realized_pnl_floor (rc_oms_portfolio (tc_risk c))).
Qed.

Lemma parse_pipeline_document f c :
  pipeline_file_valid f →
  parse_pipeline (pipeline_document f) (loaded c) =
  loaded (c <| tc_pipeline ::= λ p, pipeline_over p f |>).
Proof.
  intros (? & ? & ? & ? & ?). unfold parse_pipeline, pipeline_document. destruct_config c.
  then_field (λ c, lc_source (tc_pipeline c)).
  then_field (λ c, (lc_decode_exchange (tc_pipeline c), lc_router_exchange (tc_pipeline c))).
  then_field (λ c, lc_frame_pool_capacity (tc_pipeline c)).
  then_field (λ c, lc_frame_queue_capacity (tc_pipeline c)).
  then_field (λ c, lc_shard_count (tc_pipeline c)).
  then_field (λ c, lc_per_shard_queue_capacity (tc_pipeline c)).
  last_field (λ c, lc_shard_idle_sleep (tc_pipeline c)).
Qed.

Lemma parse_runtime_document f c :
  runtime_file_valid f →
  parse_runtime (runtime_document f) (loaded c) = loaded (runtime_over c f).
Proof.
  intros (? & ?). unfold parse_runtime, runtime_document. destruct_config c.
  then_field tc_pump_batch_size. then_field tc_pump_idle_sleep.
  last_field tc_execution_mode.
Qed.

Lemma parse_universe_document tickers c :
  parse_market_universe (universe_document tickers) (loaded c) =
  loaded (c <| tc_tickers := default (tc_tickers c) tickers |>).
Proof.
  unfold parse_market_universe, universe_document. destruct_config c. last_field tc_tickers.
Qed.
End reading_sections.

(** One nested object of a document, with the lemma for its body. *)
Ltac document_object get store body :=
  eapply (object_field_document _ _ _ _ get store);
  [ key_in_document | distinct_keys
  | intros ? ?; split; [apply document_is_object|apply body; eauto] | reflexivity ].
Ltac then_object get store body :=
  eapply eq_trans; [apply and_then_loaded; document_object get store body|].
Ltac last_object get store body :=
  eapply eq_trans; [document_object get store body|reflexivity].

Section reading_config.
Context `{NlohmannDocumentLaws} `{!NlohmannLaws}.
Implicit Types (c : TraderRuntimeConfig).

Lemma parse_kalshi_document f c :
  parse_kalshi (kalshi_document f) (loaded c) =
  loaded (c <| tc_kalshi ::= λ k, kalshi_over k f |>).
Proof.
  unfold parse_kalshi, kalshi_document. destruct_config c.
  then_field (λ c, kw_endpoint (tc_kalshi c)). then_field (λ c, kw_channels (tc_kalshi c)).
  last_object (λ c, kw_credentials (tc_kalshi c))
    (λ d c, c <| tc_kalshi ::= λ k, k <| kw_credentials := d |> |>) parse_credentials_document.
Qed.

Lemma parse_risk_document f c :
  risk_file_valid f →
  parse_risk (risk_document f) (loaded c) = loaded (c <| tc_risk ::= λ r, risk_over r f |>).
Proof.
  intros (? & ? & ?). unfold parse_risk, risk_document. destruct_config c.
  then_object (λ c, rc_shard (tc_risk c))
    (λ s c, c <| tc_risk ::= λ r, r <| rc_shard := s |> |>) parse_risk_shard_document.
  then_object (λ c, rc_oms_global (tc_risk c))
    (λ s c, c <| tc_risk ::= λ r, r <| rc_oms_global := s |> |>) parse_risk_oms_global_document.
  last_object (λ c, rc_oms_portfolio (tc_risk c))
    (λ s c, c <| tc_risk ::= λ r, r <| rc_oms_portfolio := s |> |>)
    parse_risk_oms_portfolio_document.
Qed.

Lemma parse_from_json_document f :
  config_file_valid f →
  parse_from_json (config_document f) = loaded (config_over default_config f).
Proof.
  intros (? & ? & ?). unfold parse_from_json. unfold config_document at 1.
  rewrite document_is_object. cbn [negb].
  change (mkConfigLoadResult true default_config "") with (loaded default_config).
  unfold config_document.
  then_field tc_mode.
  then_object tc_kalshi (λ k c, c <| tc_kalshi := k |>) parse_kalshi_document.
  then_object tc_tickers (λ k c, c <| tc_tickers := k |>) parse_universe_document.
  then_object tc_risk (λ k c, c <| tc_risk := k |>) parse_risk_document.
  then_object tc_pipeline (λ k c, c <| tc_pipeline := k |>) parse_pipeline_document.
  last_object (λ c : TraderRuntimeConfig, c)
    (λ c' (_ : TraderRuntimeConfig), c') parse_runtime_document.
Qed.
End reading_config.

(** ** Every result is within bounds *)
Section bounds.
Context `{NlohmannDocumentLaws} `{!NlohmannLaws}.

(** What a step keeps: the bounds of the configuration, and an error exactly when the
    load has failed. *)
Definition result_sound (r : ConfigLoadResult) : Prop :=
  config_valid (cl_config r) ∧
  if cl_ok r then cl_error r = "" else cl_error r ≠ "".

Definition sound_step (p : config_step) : Prop :=
  ∀ r, result_sound r → cl_ok r = true → result_sound (p r).

Lemma and_then_sound p q : sound_step p → sound_step q → sound_step (p ;; q).
Proof.
  intros Hp Hq r Hr Hok. unfold and_then. specialize (Hp r Hr Hok).
  destruct (cl_ok (p r)) eqn:?; auto.
Qed.

Lemma fail_sound r error : result_sound r → error ≠ "" → result_sound (fail r error).
Proof. intros [Hv _] He. by split. Qed.

Lemma append_ne s t : t ≠ "" → s +:+ t ≠ "".
Proof. by destruct s. Qed.

Lemma field_sound {A} (Pa : A → Prop) j key name read store :
  (∀ v a, read v name = Ok a → Pa a) → (∀ v e, read v name = Err e → e ≠ "") →
  (∀ a c, Pa a → config_valid c → config_valid (store a c)) →
  sound_step (field j key name read store).
Proof.
  intros HPa Herr Hstore r [Hv Hok] Hr. unfold field.
  destruct (nj_find j key) as [v|]; [|by split].
  destruct (read v name) as [a|e] eqn:Hread.
  - split; [|done]. apply Hstore; eauto.
  - apply fail_sound; [by split|eauto].
Qed.

Lemma object_field_sound j key name body :
  (∀ v, sound_step (body v)) → sound_step (object_field j key name body).
Proof.
  intros Hbody r Hr Hok. unfold object_field.
  destruct (nj_find j key) as [v|]; [|done].
  destruct (nj_is_object v); [by apply Hbody|]. apply fail_sound; [done|]. by apply append_ne.
Qed.

(** The range of each reader. *)
Lemma parse_positive_size_t_range v name z :
  parse_positive_size_t v name = Ok z → positive_size z.
Proof.
  unfold parse_positive_size_t. destruct (nj_unsigned v) as [n|] eqn:Hn; [|done].
  case_decide; intros [= <-]. apply nj_unsigned_typed in Hn. unfold in_u64, positive_size in *.
  lia.
Qed.

Lemma parse_non_negative_size_t_range v name z :
  parse_non_negative_size_t v name = Ok z → in_u64 z.
Proof.
  unfold parse_non_negative_size_t. destruct (nj_unsigned v) as [n|] eqn:Hn; [|done].
  intros [= <-]. by apply nj_unsigned_typed in Hn.
Qed.

Lemma parse_int64_range v name z : parse_int64 v name = Ok z → in_s64 z.
Proof.
  unfold parse_int64. destruct (nj_integer v) as [n|] eqn:Hn; [|done].
  intros [= <-]. by apply nj_integer_typed in Hn.
Qed.

Lemma parse_non_negative_qty_range v name z :
  parse_non_negative_qty v name = Ok z → non_negative_s64 z.
Proof.
  unfold parse_non_negative_qty. destruct (parse_int64 v name) as [n|] eqn:Hn; [|done].
  case_decide; intros [= <-]. apply parse_int64_range in Hn.
  unfold in_s64, non_negative_s64 in *. lia.
Qed.

Lemma parse_non_negative_ms_range v name z :
  parse_non_negative_ms v name = Ok z → non_negative_s64 z.
Proof.
  unfold parse_non_negative_ms. destruct (nj_integer v) as [n|] eqn:Hn; [|done].
  case_decide; intros [= <-]. apply nj_integer_typed in Hn.
  unfold in_s64, non_negative_s64 in *. lia.
Qed.

Lemma read_exchange_range v name ids :
  read_exchange v name = Ok ids → exchange_ids ids.1 = ids.
Proof.
  unfold read_exchange, parse_exchange_id. destruct (nj_string v); [|done].
  repeat (case_decide; [by intros [= <-]|]). done.
Qed.

Lemma parse_string_items_error parsed items name e :
  parse_string_items parsed items name = Err e → e ≠ "".
Proof.
  revert parsed. induction items as [|item items IH]; intros parsed; simpl; [done|].
  destruct (nj_string item); [apply IH|]. intros [= <-]. by apply append_ne.
Qed.

Lemma reader_error v name e :
  parse_positive_size_t v name = Err e ∨ parse_non_negative_size_t v name = Err e ∨
  parse_int64 v name = Err e ∨ parse_non_negative_qty v name = Err e ∨
  parse_non_negative_ms v name = Err e ∨ parse_bool v name = Err e ∨
  parse_string_array v name = Err e ∨ read_string v name = Err e ∨
  read_exchange v name = Err e ∨ read_execution_mode v name = Err e → e ≠ "".
Proof.
  unfold parse_positive_size_t, parse_non_negative_size_t, parse_non_negative_qty,
    parse_non_negative_ms, parse_int64, parse_bool, parse_string_array, read_string,
    read_exchange, read_execution_mode.
  intros Hread. repeat destruct Hread as [Hread|Hread]; repeat case_match;
    simplify_eq/=; eauto using append_ne, parse_string_items_error.
Qed.
End bounds.

Ltac store_valid_at c Hc :=
  destruct_config c;
  unfold config_valid, risk_config_valid, pipeline_config_valid in *; simpl in *; tauto.
Ltac store_valid := intros ? c ? Hc; store_valid_at c Hc.
Ltac field_sound_by P range :=
  apply (field_sound P);
  [ intros ? ?; solve [apply range; apply _] | intros ? ? ?; eapply reader_error; eauto 12 | store_valid ].
Ltac field_sound_any :=
  apply (field_sound (λ _, True));
  [ done | intros ? ? ?; eapply reader_error; eauto 12 | store_valid ].
Ltac sound_step_tac :=
  repeat first
    [ apply and_then_sound
    | field_sound_by positive_size parse_positive_size_t_range
    | field_sound_by in_u64 parse_non_negative_size_t_range
    | field_sound_by non_negative_s64 parse_non_negative_qty_range
    | field_sound_by non_negative_s64 parse_non_negative_ms_range
    | field_sound_by in_s64 parse_int64_range
    | field_sound_any
    | apply object_field_sound; intros ? ].

Section bounds_of_steps.
Context `{NlohmannDocumentLaws} `{!NlohmannLaws}.

Lemma parse_kalshi_sound j : sound_step (parse_kalshi j).
Proof. unfold parse_kalshi, parse_credentials. sound_step_tac. Qed.

Lemma parse_market_universe_sound j : sound_step (parse_market_universe j).
Proof. unfold parse_market_universe. sound_step_tac. Qed.

Lemma parse_risk_sound j : sound_step (parse_risk j).
Proof.
  unfold parse_risk, parse_risk_shard, parse_risk_oms_global, parse_risk_oms_portfolio.
  sound_step_tac.
Qed.

Lemma exchange_field_sound j :
  sound_step (field j "exchange" "pipeline.exchange" read_exchange
    (λ v c, c <| tc_pipeline ::= λ p,
       p <| lc_decode_exchange := v.1 |> <| lc_router_exchange := v.2 |> |>)).
Proof.
  apply (field_sound (λ ids, exchange_ids ids.1 = ids)).
  - intros v ids. apply read_exchange_range.
  - intros ? ? ?. eapply reader_error. eauto 12.
  - intros [decode_id router_id] c ? Hc. store_valid_at c Hc.
Qed.

Lemma parse_pipeline_sound j : sound_step (parse_pipeline j).
Proof.
  unfold parse_pipeline. apply and_then_sound; [sound_step_tac|].
  apply and_then_sound; [apply exchange_field_sound|sound_step_tac].
Qed.

Lemma parse_runtime_sound j : sound_step (parse_runtime j).
Proof. unfold parse_runtime. sound_step_tac. Qed.

Lemma default_config_valid : config_valid default_config.
Proof.
  repeat split; by vm_compute.
Qed.
Lemma parse_from_json_sound root : result_sound (parse_from_json root).
Proof.
  assert (result_sound (mkConfigLoadResult true default_config ""))
    by (split; [apply default_config_valid|done]).
  unfold parse_from_json. destruct (nj_is_object root); simpl; [|by apply fail_sound].
  repeat apply and_then_sound; try done; try apply object_field_sound;
    eauto using parse_kalshi_sound, parse_market_universe_sound, parse_risk_sound,
      parse_pipeline_sound, parse_runtime_sound.
  field_sound_any.
Qed.

Lemma load_from_json_sound text : result_sound (load_trader_config_from_json text).
Proof.
  unfold load_trader_config_from_json. destruct (nj_parse text); [apply parse_from_json_sound|].
  split; [apply default_config_valid|done].
Qed.
End bounds_of_steps.

(** ** The properties of the loader *)
Section properties.
Context `{NlohmannDocumentLaws} `{!NlohmannLaws}.

(** C20: The loader reads exactly what the document says.  A document may have any subset
    of the known sections and keys, with the numbers in their ranges; loading its text
    succeeds, every key that is present is stored in its own field and nowhere else, and
    every field whose key is absent has its default.  In particular the key [mode] does
    not influence [execution_mode]: a document with ["mode": "paper"] and no
    [runtime.execution_mode] trades live. *)
Theorem config_read_exactly text f :
  nj_parse text = Ok (config_document f) → config_file_valid f →
  load_trader_config_from_json text =
    mkConfigLoadResult true (config_over default_config f) "".
Proof.
  intros Htext Hf. unfold load_trader_config_from_json. rewrite Htext.
  by apply parse_from_json_document.
Qed.

(** C28: Whatever the file holds, the configuration in the result is within the bounds the
    engine relies on: capacities, the number of shards and the batch size are positive
    64-bit sizes, quantity limits and sleeps are non-negative 64-bit integers, decoder and
    router agree on the exchange.  A successful load has an empty error; a failed one has
    an error that names the file. *)
Theorem loaded_config_bounds read_file path :
  let r := load_trader_config_from_file read_file path in
  config_valid (cl_config r) ∧
  if cl_ok r then cl_error r = ""
  else cl_error r ≠ "" ∧ ∃ before after, cl_error r = before +:+ path +:+ after.
Proof.
  unfold load_trader_config_from_file. destruct (read_file path) as [text|]; simpl.
  2:{ split; [apply default_config_valid|]. split; [done|].
      exists "failed to open config file: ", "". by rewrite append_nil_r. }
  destruct (load_from_json_sound text) as [Hv He].
  destruct (load_trader_config_from_json text) as [[] c error]; simpl in *; [done|].
  destruct (contains error path) eqn:Hc; simpl; (split; [done|]).
  - split; [done|]. by apply contains_split.
  - split; [by apply append_ne|]. by exists "", (": " +:+ error).
Qed.
End properties.

(** ** Concrete documents *)

(** docs/trader_config.example.json *)
Definition example_file : ConfigFile :=
  mkConfigFile (Some "paper")
    (Some (mkKalshiFile (Some "wss://api.elections.kalshi.com/trade-api/ws/v2")
       (Some ["trade"; "orderbook_delta"])
       (Some (mkCredentialsFile None None (Some "KALSHI_KEY_ID")
                (Some "KALSHI_PRIVATE_KEY_PEM")))))
    None None
    (Some (mkPipelineFile (Some "kalshi") (Some DecodeExchange_kKalshi) (Some 8192) (Some 8192)
       (Some 4) (Some 1024) (Some 1)))
    (Some (mkRuntimeFile (Some 1024) (Some 1) None)).

Lemma example_file_valid : config_file_valid example_file.
Proof.
  split_and!; intros ? [= <-]; repeat split; intros; simplify_eq/=;
    unfold positive_size, non_negative_s64; lia.
Qed.

(** The example document of the repository loads; its mode is "paper", it trades live. *)
Lemma config_read_exactly_witness :
  let text := demo_bits (encode (config_document example_file)) in
  let r := load_trader_config_from_json text in
  cl_ok r = true ∧ tc_mode (cl_config r) = "paper" ∧
  tc_execution_mode (cl_config r) = TraderExecutionMode_kLive.
Proof.
  intros text r. assert (r = mkConfigLoadResult true (config_over default_config example_file) "")
    as ->.
  { apply config_read_exactly; [apply demo_parse_encode|apply example_file_valid]. }
  done.
Defined.

(** A file whose batch size is 0 is refused, with the error naming the file. *)
Lemma loaded_config_bounds_witness :
  let text := demo_bits (encode (document [("runtime",
    Some (document [("pump_batch_size", Some (nj_of_int 0))]))])) in
  let r := load_trader_config_from_file (λ _, Some text) "trader.json" in
  cl_error r = "trader.json: runtime.pump_batch_size must be > 0" ∧ config_valid (cl_config r).
Proof.
  intros text r. split; [vm_compute; reflexivity|].
  apply (loaded_config_bounds (λ _, Some text) "trader.json").
Defined.
