(* ===== verification/WsClient.v ===== *)
(** * The WebSocket client

    Model of src/cpp/src/adapters/ws/client.cpp: taking an endpoint URL apart, and the
    transport over Boost.Beast.  Boost.Asio, Boost.Beast and the TLS calls are the class
    [Beast]: a state [Net] of the stream and the network below it, and one operation per
    call the source makes; an operation gives [Err message] when it sets the error code
    (or, for the TLS host name, when it returns another value than 1).  The endpoint path
    of src/cpp/src/adapters/exchanges/kalshi/ws_adapter.cpp is computed here too: it is
    shown to be the request target of the transport. *)
From Stdlib Require Import Ascii.
From S2P Require Import Prelude.
From S2P Require Import StringSearch.
From S2P Require Import OrderTransport.

(** ** Endpoints *)
Record EndpointParts := mkEndpointParts {
  ep_scheme : string;
  ep_host : string;
  ep_port : string;
  ep_target : string;
}.

(** [std::tolower] in the "C" locale *)
Definition char_to_lower (c : ascii) : ascii :=
  let n := nat_of_ascii c in
  if decide (65 ≤ n ≤ 90)%nat then ascii_of_nat (n + 32) else c.

Fixpoint to_lower (text : string) : string :=
  match text with
  | "" => ""
  | String c text => String (char_to_lower c) (to_lower text)
  end.

Definition is_default_port (scheme port : string) : bool :=
  bool_decide (scheme = "wss" ∧ port = "443") || bool_decide (scheme = "ws" ∧ port = "80").

(** The pending OpenSSL error [pending], "" when there is none, behind its context. *)
Definition openssl_error_message (context pending : string) : string :=
  if decide (pending = "") then context else context +:+ ": " +:+ pending.

(** The authority [host], [host:port], [[host]] or [[host]:port]. *)
Definition parse_authority (authority : string) : outcome (string * string) :=
  if decide (String.get 0 authority = Some "["%char) then
    match find authority "]" with
    | None => Err "Malformed IPv6 host in endpoint"
    | Some bracket_end =>
      let host := substr authority 1 (bracket_end - 1) in
      if decide (bracket_end + 1 < String.length authority)%nat then
        if decide (String.get (bracket_end + 1) authority = Some ":"%char) then
          Ok (host, substr_from authority (bracket_end + 2))
        else Err "Malformed port in endpoint authority"
      else Ok (host, "")
    end
  else
    match rfind authority ":"%char with
    | Some colon =>
      if decide (find authority ":" = Some colon) then
        Ok (substr authority 0 colon, substr_from authority (colon + 1))
      else Ok (authority, "")
    | None => Ok (authority, "")
    end.

Definition parse_ws_endpoint (endpoint : string) : outcome EndpointParts :=
  if decide (endpoint = "") then Err "Websocket endpoint is empty"
  else
    match find endpoint "://" with
    | None => Err "Websocket endpoint must include a scheme (ws:// or wss://)"
    | Some scheme_pos =>
      let scheme := to_lower (substr endpoint 0 scheme_pos) in
      if decide (scheme ≠ "ws" ∧ scheme ≠ "wss") then
        Err ("Unsupported websocket scheme: " +:+ scheme)
      else
        let authority_start := (scheme_pos + 3)%nat in
        if decide (String.length endpoint ≤ authority_start)%nat then
          Err "Websocket endpoint missing authority"
        else
          let path_start := find_from endpoint "/" authority_start in
          let authority :=
            match path_start with
            | None => substr_from endpoint authority_start
            | Some p => substr endpoint authority_start (p - authority_start)
            end in
          let target :=
            match path_start with None => "/" | Some p => substr_from endpoint p end in
          if decide (authority = "") then Err "Websocket endpoint authority is empty"
          else
            match parse_authority authority with
            | Err error => Err error
            | Ok (host, port) =>
              if decide (host = "") then Err "Websocket endpoint host is empty"
              else
                let port :=
                  if decide (port = "") then (if decide (scheme = "wss") then "443" else "80")
                  else port in
                Ok (mkEndpointParts scheme host port target)
            end
    end.

(** kalshi/ws_adapter.cpp *)
Definition extract_path_from_endpoint (endpoint : string) : string :=
  let host_start := match find endpoint "://" with None => 0 | Some p => p + 3 end%nat in
  match find_from endpoint "/" host_start with
  | None => "/"
  | Some p => substr_from endpoint p
  end.

(** ** Boost.Beast *)
Class Beast (Net : Type) := {
  beast_results : Type;
  (** [make_unique<WsStream>(io_context, ssl_context)] *)
  beast_new_stream : Net → Net;
  beast_resolve : Net → string → string → Net * outcome beast_results;
  beast_tcp_connect : Net → beast_results → Net * outcome unit;
  (** [SSL_set_tlsext_host_name]; the error is the pending OpenSSL error, if any *)
  beast_set_host_name : Net → string → Net * outcome unit;
  beast_tls_handshake : Net → Net * outcome unit;
  (** the handshake request carries the headers of the decorator *)
  beast_handshake : Net → gmap string string → string → string → Net * outcome unit;
  beast_write : Net → string → Net * outcome unit;
  beast_read : Net → Net * outcome string;
  beast_close : Net → Net * outcome unit;
}.

(** [BoostBeastWsTransport::Impl]; the read buffer is empty between two calls. *)
Record BeastTransport (Net : Type) := mkBeastTransport {
  bt_stream : Net;
  bt_connected : bool;
  bt_last_error : string;
  bt_endpoint : EndpointParts;
}.
Arguments mkBeastTransport {Net} _ _ _ _.
Arguments bt_stream {Net} _.
Arguments bt_connected {Net} _.
Arguments bt_last_error {Net} _.
Arguments bt_endpoint {Net} _.

#[export] Instance BeastTransport_settable Net : Settable (BeastTransport Net) := λ x,
  mkBeastTransport (bt_stream x) (bt_connected x) (bt_last_error x) (bt_endpoint x).

Section transport.
Context {Net : Type} `{!Beast Net}.
Implicit Types (t : BeastTransport Net).

(** [ca_paths] is the outcome of loading the default CA paths. *)
Definition beast_transport_init (stream : Net) (ca_paths : outcome unit) : BeastTransport Net :=
  mkBeastTransport stream false
    (match ca_paths with
     | Ok _ => ""
     | Err message => "Failed to load default TLS CA paths: " +:+ message
     end)
    (mkEndpointParts "" "" "" "").

Definition reset_stream t : BeastTransport Net :=
  t <| bt_stream ::= beast_new_stream |> <| bt_connected := false |>.

Definition beast_transport_close t : BeastTransport Net :=
  if bt_connected t then
    let '(stream, result) := beast_close (bt_stream t) in
    let t := t <| bt_stream := stream |> <| bt_connected := false |> in
    match result with
    | Ok _ => t
    | Err message => t <| bt_last_error := "Websocket close error: " +:+ message |>
    end
  else t.

(** A call on the stream and the early return on its error. *)
Definition on_stream {A} t (call : Net → Net * outcome A) (describe : string → string)
    (k : BeastTransport Net → A → BeastTransport Net * bool) : BeastTransport Net * bool :=
  let '(stream, result) := call (bt_stream t) in
  let t := t <| bt_stream := stream |> in
  match result with
  | Ok a => k t a
  | Err message => (t <| bt_last_error := describe message |>, false)
  end.

Definition handshake_host (endpoint : EndpointParts) : string :=
  if is_default_port (ep_scheme endpoint) (ep_port endpoint) then ep_host endpoint
  else ep_host endpoint +:+ ":" +:+ ep_port endpoint.

Definition beast_transport_connect t (config : WsTransportConfig) : BeastTransport Net * bool :=
  let t := reset_stream (beast_transport_close t) <| bt_last_error := "" |> in
  match parse_ws_endpoint (wc_endpoint config) with
  | Err error => (t <| bt_last_error := error |>, false)
  | Ok endpoint =>
    if decide (ep_scheme endpoint ≠ "wss") then
      (t <| bt_last_error :=
         "Only wss:// endpoints are supported by BoostBeastWsTransport right now" |>, false)
    else
      let t := t <| bt_endpoint := endpoint |> in
      on_stream t (λ n, beast_resolve n (ep_host endpoint) (ep_port endpoint))
        (String.append "DNS resolve failed: ") (λ t results,
      on_stream t (λ n, beast_tcp_connect n results) (String.append "TCP connect failed: ") (λ t _,
      on_stream t (λ n, beast_set_host_name n (ep_host endpoint))
        (openssl_error_message "SNI setup failed") (λ t _,
      on_stream t beast_tls_handshake (String.append "TLS handshake failed: ") (λ t _,
      on_stream t
        (λ n, beast_handshake n (wc_headers config) (handshake_host endpoint)
                (ep_target endpoint))
        (String.append "Websocket handshake failed: ") (λ t _,
      (t <| bt_connected := true |>, true))))))
  end.

Definition beast_transport_send_text t (payload : string) : BeastTransport Net * bool :=
  if bt_connected t then
    on_stream t (λ n, beast_write n payload) (String.append "Websocket write failed: ") (λ t _, (t, true))
  else (t <| bt_last_error := "Cannot send: websocket is not connected" |>, false).

Definition beast_transport_recv_text t : BeastTransport Net * option string :=
  if bt_connected t then
    let '(stream, result) := beast_read (bt_stream t) in
    let t := t <| bt_stream := stream |> in
    match result with
    | Ok message => (t, Some message)
    | Err message => (t <| bt_last_error := "Websocket read failed: " +:+ message |>, None)
    end
  else (t <| bt_last_error := "Cannot receive: websocket is not connected" |>, None).
End transport.

#[export] Instance beast_ws_transport {Net : Type} `{!Beast Net} : WsTransport (BeastTransport Net) := {|
  ws_connect := beast_transport_connect;
  ws_send_text := beast_transport_send_text;
  ws_recv_text := beast_transport_recv_text;
  ws_close := beast_transport_close;
  ws_last_error := bt_last_error;
|}.

(** ** Well-formed endpoints *)
Inductive Authority := PlainHost (host : string) | BracketHost (host : string).

Definition authority_host (a : Authority) : string :=
  match a with PlainHost host | BracketHost host => host end.

Definition render_authority (a : Authority) : string :=
  match a with PlainHost host => host | BracketHost host => "[" +:+ host +:+ "]" end.

Definition render_port (port : option string) : string :=
  match port with None => "" | Some port => ":" +:+ port end.

Definition render_path (path : option string) : string :=
  match path with None => "" | Some path => "/" +:+ path end.

Definition render_endpoint (scheme : string) (a : Authority) (port path : option string)
    : string :=
  scheme +:+ "://" +:+ (render_authority a +:+ render_port port) +:+ render_path path.

(** A plain host has no colon and no bracket in front, a bracketed one no closing bracket;
    a port has no colon; neither has a slash. *)
Definition authority_wf (a : Authority) : bool :=
  bool_decide (authority_host a ≠ "") && negb (has_char "/" (authority_host a)) &&
  match a with
  | PlainHost host => negb (has_char ":" host) && bool_decide (String.get 0 host ≠ Some "["%char)
  | BracketHost host => negb (has_char "]" host)
  end.

Definition port_wf (port : option string) : bool :=
  match port with
  | None => true
  | Some port => bool_decide (port ≠ "") && negb (has_char "/" port) && negb (has_char ":" port)
  end.

(** ** Taking well-formed endpoints apart *)
Lemma char_to_lower_colon c : bool_decide (char_to_lower c = ":"%char) = bool_decide (c = ":"%char).
Proof. by destruct c as [[] [] [] [] [] [] [] []]. Qed.

Lemma to_lower_colon text : has_char ":" (to_lower text) = has_char ":" text.
Proof. induction text as [|c text IH]; simpl; [done|]. by rewrite IH, char_to_lower_colon. Qed.

Lemma parse_authority_plain host :
  has_char ":" host = false → String.get 0 host ≠ Some "["%char →
  parse_authority host = Ok (host, "").
Proof.
  intros Hc Hb. unfold parse_authority. rewrite decide_False by done. by rewrite rfind_none.
Qed.

Lemma parse_authority_plain_port host port :
  host ≠ "" → has_char ":" host = false → String.get 0 host ≠ Some "["%char →
  has_char ":" port = false →
  parse_authority (host +:+ ":" +:+ port) = Ok (host, port).
Proof.
  intros Hne Hc Hb Hp. unfold parse_authority. rewrite get_append by done.
  rewrite decide_False by done. change (":" +:+ port) with (String ":" port).
  rewrite rfind_last by done.
  rewrite decide_True by by apply (find_first host ":" "" port).
  rewrite substr_prefix. change (String ":" port) with (":" +:+ port).
  rewrite <-append_assoc. change 1%nat with (String.length ":"). rewrite <-length_append.
  by rewrite substr_from_skip.
Qed.

Lemma parse_authority_bracket host rest :
  has_char "]" host = false →
  parse_authority ("[" +:+ host +:+ "]" +:+ rest) =
    match rest with
    | "" => Ok (host, "")
    | String c port =>
      if decide (c = ":"%char) then Ok (host, port)
      else Err "Malformed port in endpoint authority"
    end.
Proof.
  intros Hc. unfold parse_authority. rewrite decide_True by done.
  assert (find ("[" +:+ host +:+ "]" +:+ rest) "]" = Some (S (String.length host))) as ->.
  { rewrite <-append_assoc. apply (find_first ("[" +:+ host) "]" "" rest). done. }
  assert (substr ("[" +:+ host +:+ "]" +:+ rest) 1 (S (String.length host) - 1) = host) as ->.
  { change 1%nat with (String.length "[" + 0)%nat at 1. rewrite substr_skip.
    rewrite Nat.sub_succ, Nat.sub_0_r. apply substr_prefix. }
  assert ("[" +:+ host +:+ "]" +:+ rest = ("[" +:+ host +:+ "]") +:+ rest) as ->
    by by rewrite !append_assoc.
  assert (S (String.length host) + 1 = String.length ("[" +:+ host +:+ "]") + 0)%nat as Hlen.
  { rewrite !length_append. simpl. lia. }
  replace (S (String.length host) + 2)%nat
    with (String.length ("[" +:+ host +:+ "]") + 1)%nat by lia.
  rewrite Hlen, get_skip, Nat.add_0_r.
  destruct rest as [|c port].
  { by rewrite decide_False by (rewrite (length_append _ ""); simpl; lia). }
  rewrite decide_True by (rewrite (length_append _ (String c port)); simpl; lia).
  destruct (decide (c = ":"%char)) as [->|Hcolon]; [|by rewrite decide_False by (simpl; congruence)].
  rewrite decide_True by done. f_equal. f_equal.
  change (String ":" port) with (":" +:+ port). rewrite <-append_assoc.
  change 1%nat with (String.length ":").
  rewrite <-length_append. apply substr_from_skip.
Qed.

Lemma parse_authority_render a port :
  authority_wf a = true → port_wf port = true →
  parse_authority (render_authority a +:+ render_port port) =
    Ok (authority_host a, default "" port).
Proof.
  unfold authority_wf, port_wf. rewrite !andb_true_iff, bool_decide_eq_true.
  intros [[Hne Hslash] Ha] Hp. destruct a as [host|host]; simpl in *.
  - rewrite andb_true_iff, negb_true_iff, bool_decide_eq_true in Ha. destruct Ha as [? ?].
    destruct port as [port|]; simpl.
    + rewrite !andb_true_iff, !negb_true_iff in Hp. destruct Hp as [[_ _] ?].
      by apply parse_authority_plain_port.
    + rewrite append_nil_r. by apply parse_authority_plain.
  - rewrite negb_true_iff in Ha. rewrite !append_assoc.
    destruct port as [port|]; simpl; rewrite parse_authority_bracket by done; done.
Qed.

Lemma render_no_slash a port :
  authority_wf a = true → port_wf port = true →
  has_char "/" (render_authority a +:+ render_port port) = false.
Proof.
  unfold authority_wf, port_wf. rewrite !andb_true_iff, !negb_true_iff. intros [[_ Hs] _] Hp.
  rewrite has_char_append. apply orb_false_iff. split.
  - destruct a; simpl in *; [done|]. rewrite !has_char_append. by rewrite Hs.
  - destruct port as [port|]; [|done]. rewrite !andb_true_iff, !negb_true_iff in Hp.
    simpl. rewrite has_char_append. by destruct Hp as [[_ ->] _].
Qed.

Lemma find_path authority path :
  has_char "/" authority = false →
  find (authority +:+ render_path path) "/" =
    match path with None => None | Some _ => Some (String.length authority) end.
Proof.
  intros Ha. destruct path as [path|]; simpl.
  - by apply (find_first authority "/" "" path).
  - rewrite append_nil_r. by apply find_char_none.
Qed.

(** Both functions find the scheme and the path at the same place. *)
Section rendered.
Context (scheme authority : string) (path : option string).
Context (Hscheme : has_char ":" scheme = false) (Hauthority : has_char "/" authority = false).
Let endpoint := scheme +:+ "://" +:+ authority +:+ render_path path.

Lemma rendered_scheme : find endpoint "://" = Some (String.length scheme).
Proof. by apply (find_first scheme ":" "//"). Qed.

Lemma rendered_split : endpoint = (scheme +:+ "://") +:+ (authority +:+ render_path path).
Proof. unfold endpoint. by rewrite !append_assoc. Qed.

Lemma rendered_start : (String.length scheme + 3 = String.length (scheme +:+ "://"))%nat.
Proof. by rewrite length_append. Qed.

Lemma rendered_path :
  find_from endpoint "/" (String.length scheme + 3) =
    match path with
    | None => None
    | Some _ => Some (String.length (scheme +:+ "://") + String.length authority)%nat
    end.
Proof.
  rewrite rendered_start, rendered_split. rewrite <-(Nat.add_0_r (String.length (_ +:+ _))).
  rewrite find_skip. fold (find (authority +:+ render_path path) "/").
  rewrite find_path by done. destruct path; simpl; [by rewrite Nat.add_0_r|done].
Qed.

Lemma rendered_target p :
  path = Some p →
  substr_from endpoint (String.length (scheme +:+ "://") + String.length authority) = "/" +:+ p.
Proof.
  intros Hp. rewrite rendered_split, Hp, <-length_append, <-append_assoc.
  apply substr_from_skip.
Qed.

Lemma rendered_authority :
  (match path with
   | None => substr_from endpoint (String.length scheme + 3)
   | Some _ =>
     substr endpoint (String.length scheme + 3)
       (String.length (scheme +:+ "://") + String.length authority - (String.length scheme + 3))
   end) = authority.
Proof.
  rewrite rendered_start, rendered_split. destruct path; simpl.
  - rewrite Nat.add_sub_swap, Nat.sub_diag by lia. simpl.
    rewrite <-(Nat.add_0_r (String.length (_ +:+ _))). rewrite substr_skip. apply substr_prefix.
  - rewrite append_nil_r. apply substr_from_skip.
Qed.
End rendered.

(** The path the Kalshi adapter signs is the target the transport requests. *)
Lemma extracted_path_is_target endpoint parts :
  parse_ws_endpoint endpoint = Ok parts → extract_path_from_endpoint endpoint = ep_target parts.
Proof.
  unfold parse_ws_endpoint, extract_path_from_endpoint.
  case_decide; [done|]. destruct (find endpoint "://") as [p|]; [|done].
  repeat (case_decide; [done|]). destruct (parse_authority _) as [[host port]|]; [|done].
  case_decide; [done|]. by intros [= <-].
Qed.

(** Every endpoint written from a scheme, a host (plain, or bracketed like an IPv6
    address), an optional port and an optional path is taken apart into exactly these
    parts: the scheme in lower case, the default port of the scheme and the target "/"
    when they are left out.  The Kalshi adapter extracts the same target from it. *)
Theorem endpoint_roundtrip scheme a port path :
  to_lower scheme = "ws" ∨ to_lower scheme = "wss" → authority_wf a = true →
  port_wf port = true →
  let target := match path with None => "/" | Some path => "/" +:+ path end in
  parse_ws_endpoint (render_endpoint scheme a port path) =
    Ok (mkEndpointParts (to_lower scheme) (authority_host a)
          (default (if decide (to_lower scheme = "wss") then "443" else "80") port) target) ∧
  extract_path_from_endpoint (render_endpoint scheme a port path) = target.
Proof.
  intros Hscheme Ha Hport target.
  set (parts := mkEndpointParts _ _ _ _).
  enough (parse_ws_endpoint (render_endpoint scheme a port path) = Ok parts) as Hparse
    by (split; [done|]; by apply extracted_path_is_target in Hparse).
  assert (has_char ":" scheme = false) as Hcolon.
  { rewrite <-to_lower_colon. by destruct Hscheme as [-> | ->]. }
  pose proof (render_no_slash a port Ha Hport) as Hslash.
  pose proof (parse_authority_render a port Ha Hport) as Hauth.
  assert (authority_host a ≠ "") as Hhost.
  { unfold authority_wf in Ha. rewrite !andb_true_iff, bool_decide_eq_true in Ha. tauto. }
  assert (render_authority a +:+ render_port port ≠ "") as Hne.
  { destruct a as [[]|]; done. }
  assert (∀ d, (if decide (default "" port = "") then d else default "" port) = default d port)
    as Hdefault.
  { intros d. destruct port as [q|]; [|done]. cbn [port_wf] in Hport.
    rewrite !andb_true_iff, bool_decide_eq_true in Hport. by rewrite decide_False by tauto. }
  unfold render_endpoint in *. revert Hslash Hauth Hne.
  generalize (render_authority a +:+ render_port port). intros authority Hslash Hauth Hne.
  unfold parse_ws_endpoint. rewrite rendered_scheme by done.
  rewrite decide_False by (by destruct scheme).
  rewrite substr_prefix. rewrite decide_False by tauto.
  rewrite decide_False.
  2:{ rewrite rendered_split, rendered_start, !length_append. destruct authority; [done|].
      simpl. lia. }
  rewrite rendered_path by done.
  pose proof (rendered_authority scheme authority path) as Hau.
  pose proof (rendered_target scheme authority path) as Htarget.
  unfold parts, target. destruct path as [p|]; simpl in Hau, Htarget |- *; rewrite Hau;
    rewrite decide_False by done; rewrite Hauth; rewrite decide_False by done;
    rewrite ?(Htarget p) by done; by rewrite Hdefault.
Qed.

Lemma endpoint_roundtrip_witness :
  parse_ws_endpoint "WSS://[::1]:8443/trade-api/ws/v2" =
    Ok (mkEndpointParts "wss" "::1" "8443" "/trade-api/ws/v2") ∧
  parse_ws_endpoint "ws://localhost" = Ok (mkEndpointParts "ws" "localhost" "80" "/").
Proof.
  split.
  - apply (endpoint_roundtrip "WSS" (BracketHost "::1") (Some "8443") (Some "trade-api/ws/v2"));
      vm_compute; auto.
  - apply (endpoint_roundtrip "ws" (PlainHost "localhost") None None); vm_compute; auto.
Defined.

(** ** Connecting *)
Section connecting.
Context {Net : Type} `{!Beast Net}.
Implicit Types (t : BeastTransport Net).

Lemma on_stream_true {A} t (call : Net → Net * outcome A) describe k t' :
  on_stream t call describe k = (t', true) →
  ∃ n a, call (bt_stream t) = (n, Ok a) ∧ k (t <| bt_stream := n |>) a = (t', true).
Proof. unfold on_stream. destruct (call (bt_stream t)) as [n [a|e]]; [by eauto|done]. Qed.

Lemma on_stream_false {A} b t (call : Net → Net * outcome A) describe k t' :
  bt_connected t = b →
  (∀ t1 a t', bt_connected t1 = b → k t1 a = (t', false) → bt_connected t' = b) →
  on_stream t call describe k = (t', false) → bt_connected t' = b.
Proof.
  intros Hb Hk. unfold on_stream.
  destruct (call (bt_stream t)) as [n [a|e]]; [by apply Hk|]. by intros [= <-].
Qed.

(** A successful connect has shaken hands with the target and the headers it was given,
    over TLS, and the stream has not been touched since. *)
Lemma connect_handshake t config t' :
  beast_transport_connect t config = (t', true) →
  ∃ endpoint n, parse_ws_endpoint (wc_endpoint config) = Ok endpoint ∧
    ep_scheme endpoint = "wss" ∧ bt_connected t' = true ∧
    beast_handshake n (wc_headers config) (handshake_host endpoint) (ep_target endpoint) =
      (bt_stream t', Ok tt).
Proof.
  unfold beast_transport_connect. destruct (parse_ws_endpoint _) as [endpoint|]; [|done].
  case_decide as Hs; [done|]. intros Hc. exists endpoint.
  do 5 (apply on_stream_true in Hc as (? & ? & ? & Hc)). simplify_eq/=.
  eexists. split_and!; [done|by destruct (decide (ep_scheme endpoint = "wss"))|done|].
  match goal with u : unit |- _ => destruct u end. eassumption.
Qed.

(** A failed connect leaves the transport disconnected, whatever it was before. *)
Lemma connect_failed t config t' :
  beast_transport_connect t config = (t', false) → bt_connected t' = false.
Proof.
  unfold beast_transport_connect. destruct (parse_ws_endpoint _) as [endpoint|].
  2:{ by intros [= <-]. }
  case_decide; [by intros [= <-]|].
  repeat (apply on_stream_false; [done|intros ? ? ? ?]). done.
Qed.

(** Without a connection nothing is written to the stream and nothing read from it. *)
Lemma disconnected_untouched t payload :
  bt_connected t = false →
  bt_stream (beast_transport_send_text t payload).1 = bt_stream t ∧
  (beast_transport_send_text t payload).2 = false ∧
  bt_stream (beast_transport_recv_text t).1 = bt_stream t ∧
  (beast_transport_recv_text t).2 = None ∧
  beast_transport_close t = t.
Proof.
  unfold beast_transport_send_text, beast_transport_recv_text, beast_transport_close.
  by intros ->.
Qed.

Lemma closed_disconnected t : bt_connected (beast_transport_close t) = false.
Proof.
  unfold beast_transport_close. destruct (bt_connected t) eqn:?; [|done].
  by destruct (beast_close (bt_stream t)) as [n []].
Qed.
End connecting.
