(* ===== verification/AuthSigner.v ===== *)
(** * Exchange adapters of the market data feed

    Model of src/cpp/src/adapters/exchanges/kalshi/auth_signer.cpp and of the WebSocket
    adapters of Kalshi and Polymarket (kalshi/ws_adapter.cpp, polymarket/ws_adapter.cpp).
    OpenSSL is the class [OpenSsl], one operation per call of the source: a call that
    fails gives [Err pending], the text of the pending OpenSSL error ("" for none).  A
    thrown [std::runtime_error] is an [Err].

    What a call reads of the outside is a [Moment]: the system clock in milliseconds, the
    randomness of the signature and the file system. *)
From stdpp Require Import pretty.
From S2P Require Import Prelude.
From S2P Require Import Nlohmann.
From S2P Require Import StringSearch.
From S2P Require Import WsClient.

Record Moment := mkMoment {
  mo_now_ms : Z;
  mo_random : Z;
  mo_read_file : string → option string;
}.

(** ** OpenSSL *)
Class OpenSsl := {
  ossl_bio : Type;
  ossl_pkey : Type;
  ossl_md_ctx : Type;
  ossl_bio_new_mem_buf : string → outcome ossl_bio;
  ossl_read_private_key : ossl_bio → outcome ossl_pkey;
  (** the context that will sign, with the randomness it will use *)
  ossl_md_ctx_new : Z → outcome ossl_md_ctx;
  (** [EVP_DigestSignInit] with SHA-256: the context, and whether [pkey_ctx] was set *)
  ossl_digest_sign_init : ossl_md_ctx → ossl_pkey → outcome (ossl_md_ctx * bool);
  ossl_set_pss_padding : ossl_md_ctx → outcome ossl_md_ctx;
  ossl_set_mgf1_sha256 : ossl_md_ctx → outcome ossl_md_ctx;
  ossl_set_saltlen_digest : ossl_md_ctx → outcome ossl_md_ctx;
  ossl_digest_sign_update : ossl_md_ctx → string → outcome ossl_md_ctx;
  ossl_digest_sign_length : ossl_md_ctx → outcome Z;
  (** the signature, given the size of the buffer *)
  ossl_digest_sign_final : ossl_md_ctx → Z → outcome string;
  ossl_encode_block : string → outcome string;
  (** RSA-PSS verification with SHA-256, MGF1 over SHA-256 and the salt length of the
      digest, and base64 decoding: what the exchange does with the headers *)
  ossl_verify : ossl_pkey → string → string → Prop;
  base64_decode : string → option string;
}.

Class OpenSslLaws `{OpenSsl} : Prop := {
  (** the documented use of the signing context yields a signature that verifies *)
  ossl_sign_verifies key payload random c0 c1 c2 c3 c4 c5 len signature :
    ossl_md_ctx_new random = Ok c0 → ossl_digest_sign_init c0 key = Ok (c1, true) →
    ossl_set_pss_padding c1 = Ok c2 → ossl_set_mgf1_sha256 c2 = Ok c3 →
    ossl_set_saltlen_digest c3 = Ok c4 → ossl_digest_sign_update c4 payload = Ok c5 →
    ossl_digest_sign_length c5 = Ok len → ossl_digest_sign_final c5 len = Ok signature →
    ossl_verify key payload signature;
  ossl_encode_block_decode data text :
    ossl_encode_block data = Ok text → base64_decode text = Some data;
}.

#[export] Instance outcome_bind : MBind outcome := λ A B f o,
  match o with Ok a => f a | Err msg => Err msg end.

(** [throw std::runtime_error(openssl_error_message(context))] when the call fails *)
Definition or_throw {A} (context : string) (call : outcome A) : outcome A :=
  match call with Ok a => Ok a | Err pending => Err (openssl_error_message context pending) end.

(** ** kalshi/auth_signer *)
Record Credentials := mkCredentials { cr_key_id : string; cr_private_key_pem : string }.

Record AuthHeaders := mkAuthHeaders {
  ah_key_id : string;
  ah_timestamp_ms : string;
  ah_signature_base64 : string;
}.

Definition read_file_contents (read_file : string → option string) (path : string)
    : outcome string :=
  match read_file path with
  | None => Err ("Failed to open PEM file: " +:+ path)
  | Some contents => Ok contents
  end.

Definition resolve_private_key_pem (read_file : string → option string)
    (private_key_pem_or_path : string) : outcome string :=
  if decide (private_key_pem_or_path = "") then Err "Kalshi private key is empty"
  else if contains private_key_pem_or_path "-----BEGIN" then Ok private_key_pem_or_path
  else read_file_contents read_file private_key_pem_or_path.

Section signer.
Context `{OpenSsl}.

(** [EVP_EncodeBlock] returns the number of characters it has written. *)
Definition base64_encode (data : string) : outcome string :=
  if decide (2147483647 < Z.of_nat (String.length data)) then
    Err "Signature is too large to base64 encode"
  else
    match ossl_encode_block data with
    | Ok encoded => Ok encoded
    | Err _ => Err "Failed to base64 encode signature"
    end.

Definition sign_rsa_pss_sha256_base64 (private_key_pem payload_message : string) (random : Z)
    : outcome string :=
  bio ← or_throw "Failed to create BIO for private key" (ossl_bio_new_mem_buf private_key_pem);
  pkey ← or_throw "Failed to parse private key PEM" (ossl_read_private_key bio);
  md_ctx ← or_throw "Failed to create digest context" (ossl_md_ctx_new random);
  init ← or_throw "EVP_DigestSignInit failed" (ossl_digest_sign_init md_ctx pkey);
  if negb init.2 then Err "EVP_DigestSignInit returned null EVP_PKEY_CTX"
  else
    md_ctx ← or_throw "Failed to set RSA-PSS padding" (ossl_set_pss_padding init.1);
    md_ctx ← or_throw "Failed to set MGF1 digest" (ossl_set_mgf1_sha256 md_ctx);
    md_ctx ← or_throw "Failed to set RSA-PSS salt length" (ossl_set_saltlen_digest md_ctx);
    md_ctx ← or_throw "EVP_DigestSignUpdate failed"
               (ossl_digest_sign_update md_ctx payload_message);
    signature_len ← or_throw "EVP_DigestSignFinal length query failed"
                      (ossl_digest_sign_length md_ctx);
    signature ← or_throw "EVP_DigestSignFinal failed"
                  (ossl_digest_sign_final md_ctx signature_len);
    base64_encode signature.

Definition sign_payload_base64 (c : Credentials) (m : Moment) (payload : string)
    : outcome string :=
  private_key_pem ← resolve_private_key_pem (mo_read_file m) (cr_private_key_pem c);
  sign_rsa_pss_sha256_base64 private_key_pem payload (mo_random m).

Definition make_auth_headers (c : Credentials) (m : Moment) (method path : string)
    : outcome AuthHeaders :=
  let timestamp_ms := pretty (mo_now_ms m) in
  signature ← sign_payload_base64 c m (timestamp_ms +:+ method +:+ path);
  Ok (mkAuthHeaders (cr_key_id c) timestamp_ms signature).

Definition make_ws_headers (c : Credentials) (m : Moment) (ws_path : string)
    : outcome AuthHeaders :=
  make_auth_headers c m "GET" ws_path.
End signer.

(** ** exchanges/ws_adapter.hpp *)
Record ConnectRequest := mkConnectRequest {
  rq_endpoint : string;
  rq_headers : gmap string string;
}.

Class ExchangeWsAdapter (A : Type) := {
  adapter_name : A → string;
  build_connect_request : A → Moment → outcome ConnectRequest;
  build_subscribe_message : A → string → outcome string;
}.

(** ** kalshi/ws_adapter *)
Record KalshiWsAdapter := mkKalshiWsAdapter {
  ka_signer : Credentials;
  ka_endpoint : string;
}.

Definition auth_header_map (h : AuthHeaders) : gmap string string :=
  {["KALSHI-ACCESS-KEY" := ah_key_id h; "KALSHI-ACCESS-TIMESTAMP" := ah_timestamp_ms h;
    "KALSHI-ACCESS-SIGNATURE" := ah_signature_base64 h]}.

Definition kalshi_connect_request `{OpenSsl} (a : KalshiWsAdapter) (m : Moment)
    : outcome ConnectRequest :=
  auth_headers ← make_ws_headers (ka_signer a) m (extract_path_from_endpoint (ka_endpoint a));
  Ok (mkConnectRequest (ka_endpoint a) (auth_header_map auth_headers)).

Definition kalshi_subscribe_message `{NlohmannDocument} (a : KalshiWsAdapter) (channel : string)
    : outcome string :=
  nj_dump (nj_object [("id", nj_of_int 1); ("cmd", nj_of_string "subscribe");
    ("params", nj_object [("channels", nj_array [nj_of_string channel])])]).

#[export] Instance kalshi_ws_adapter `{OpenSsl} `{NlohmannDocument}
    : ExchangeWsAdapter KalshiWsAdapter := {|
  adapter_name _ := "kalshi";
  build_connect_request := kalshi_connect_request;
  build_subscribe_message := kalshi_subscribe_message;
|}.

(** ** polymarket/ws_adapter *)
Record PolymarketWsAdapter := mkPolymarketWsAdapter { pa_endpoint : string }.

Definition polymarket_subscribe_message `{Nlohmann} (a : PolymarketWsAdapter) (channel : string)
    : outcome string :=
  nj_dump (nj_object [("type", nj_of_string "subscribe"); ("channel", nj_of_string channel)]).

#[export] Instance polymarket_ws_adapter `{Nlohmann} : ExchangeWsAdapter PolymarketWsAdapter := {|
  adapter_name _ := "polymarket";
  build_connect_request a _ := Ok (mkConnectRequest (pa_endpoint a) ∅);
  build_subscribe_message := polymarket_subscribe_message;
|}.

(** ** Signatures *)
Lemma bind_ok {A B} (f : A → outcome B) o b : o ≫= f = Ok b → ∃ a, o = Ok a ∧ f a = Ok b.
Proof. destruct o as [a|]; [by exists a|done]. Qed.

Lemma or_throw_ok {A} context (o : outcome A) a : or_throw context o = Ok a → o = Ok a.
Proof. by destruct o. Qed.

Section signatures.
Context `{OpenSslLaws}.

(** A signature the signer returns is the base64 form of one that verifies. *)
Lemma signature_verifies pem payload random text :
  sign_rsa_pss_sha256_base64 pem payload random = Ok text →
  ∃ bio key signature, ossl_bio_new_mem_buf pem = Ok bio ∧ ossl_read_private_key bio = Ok key ∧
    base64_decode text = Some signature ∧ ossl_verify key payload signature.
Proof.
  unfold sign_rsa_pss_sha256_base64. intros Hs.
  apply bind_ok in Hs as (bio & Hbio%or_throw_ok & Hs).
  apply bind_ok in Hs as (key & Hkey%or_throw_ok & Hs).
  apply bind_ok in Hs as (c0 & Hc0%or_throw_ok & Hs).
  apply bind_ok in Hs as ([c1 set] & Hc1%or_throw_ok & Hs).
  destruct set; simpl in Hs; [|done].
  apply bind_ok in Hs as (c2 & Hc2%or_throw_ok & Hs).
  apply bind_ok in Hs as (c3 & Hc3%or_throw_ok & Hs).
  apply bind_ok in Hs as (c4 & Hc4%or_throw_ok & Hs).
  apply bind_ok in Hs as (c5 & Hc5%or_throw_ok & Hs).
  apply bind_ok in Hs as (len & Hlen%or_throw_ok & Hs).
  apply bind_ok in Hs as (signature & Hsig%or_throw_ok & Hs).
  exists bio, key, signature. split_and!; [done..| |by eapply ossl_sign_verifies].
  unfold base64_encode in Hs. case_decide; [done|].
  destruct (ossl_encode_block signature) as [e|] eqn:He; simplify_eq.
  by apply ossl_encode_block_decode.
Qed.

(** The headers are those of the credentials, and the signature covers the timestamp, the
    method and the path. *)
Lemma auth_headers_verify c m method path h :
  make_auth_headers c m method path = Ok h →
  ah_key_id h = cr_key_id c ∧ ah_timestamp_ms h = pretty (mo_now_ms m) ∧
  ∃ pem bio key signature,
    resolve_private_key_pem (mo_read_file m) (cr_private_key_pem c) = Ok pem ∧
    ossl_bio_new_mem_buf pem = Ok bio ∧ ossl_read_private_key bio = Ok key ∧
    base64_decode (ah_signature_base64 h) = Some signature ∧
    ossl_verify key (ah_timestamp_ms h +:+ method +:+ path) signature.
Proof.
  unfold make_auth_headers, sign_payload_base64. intros Hh.
  apply bind_ok in Hh as (text & Hs & [= <-]). apply bind_ok in Hs as (pem & Hpem & Hs).
  apply signature_verifies in Hs as (bio & key & signature & ? & ? & ? & ?).
  split_and!; [done..|]. by exists pem, bio, key, signature.
Qed.
End signatures.

(** ** A concrete library: a signature is the key, a bar and the payload, in clear *)
#[export] Instance demo_openssl : OpenSsl := {|
  ossl_bio := string;
  ossl_pkey := string;
  ossl_md_ctx := string * string;
  ossl_bio_new_mem_buf pem := Ok pem;
  ossl_read_private_key bio := Ok bio;
  ossl_md_ctx_new _ := Ok ("", "");
  ossl_digest_sign_init _ key := Ok ((key, ""), true);
  ossl_set_pss_padding c := Ok c;
  ossl_set_mgf1_sha256 c := Ok c;
  ossl_set_saltlen_digest c := Ok c;
  ossl_digest_sign_update c payload := Ok (c.1, c.2 +:+ payload);
  ossl_digest_sign_length c := Ok (Z.of_nat (String.length (c.1 +:+ "|" +:+ c.2)));
  ossl_digest_sign_final c _ := Ok (c.1 +:+ "|" +:+ c.2);
  ossl_encode_block data := Ok data;
  ossl_verify key payload signature := signature = key +:+ "|" +:+ payload;
  base64_decode text := Some text;
|}.

#[export] Instance demo_openssl_laws : @OpenSslLaws demo_openssl.
Proof. split; simpl; naive_solver. Qed.
