(* ===== verification/WsFeed.v ===== *)
(** * The market data feed

    Model of WsSession (src/cpp/src/adapters/ws/session.cpp) and WsFeedRunner
    (feed_runner.cpp) over the interfaces IWsTransport, IExchangeWsAdapter and
    IWsMessageSink.  The worker thread of the runner is the function [worker_step], one
    program point of [run] and [connect_and_subscribe] at a time; [feed_step] interleaves
    it with the thread that calls start and stop, and with whatever other threads and the
    network do to the sink and the transport.  Calls on the transport are atomic in the
    model, and a read may return at any time here: what follows for a read that blocks is
    the subject of FeedProgress.v.  A ghost log records what the worker did. *)
From stdpp Require Import pretty.
From S2P Require Import Prelude.
From S2P Require Import Nlohmann.
From S2P Require Import OrderTransport.
From S2P Require Import WsClient.
From S2P Require Import AuthSigner.

(** ** WsSession *)
Record WsSession (W : Type) := mkWsSession {
  se_transport : W;
  se_connect_request : ConnectRequest;
  se_last_subscribe_payload : string;
  se_last_error : string;
}.
Arguments mkWsSession {W} _ _ _ _.
Arguments se_transport {W} _.
Arguments se_connect_request {W} _.
Arguments se_last_subscribe_payload {W} _.
Arguments se_last_error {W} _.

#[export] Instance WsSession_settable W : Settable (WsSession W) := λ x,
  mkWsSession (se_transport x) (se_connect_request x) (se_last_subscribe_payload x)
    (se_last_error x).

Section session.
Context `{WsTransport W} `{ExchangeWsAdapter A} (adapter : A).
Implicit Types (s : WsSession W).

Definition session_init (transport : W) : WsSession W :=
  mkWsSession transport (mkConnectRequest "" ∅) "" "".

(** The error of the transport, or a fixed text when it has none. *)
Definition transport_error s (otherwise : string) : WsSession W :=
  let error := ws_last_error (se_transport s) in
  s <| se_last_error := if decide (error = "") then otherwise else error |>.

Definition session_connect s (m : Moment) : WsSession W * bool :=
  match build_connect_request adapter m with
  | Err what => (s <| se_last_error := what |>, false)
  | Ok request =>
    let s := s <| se_connect_request := request |> in
    let '(w, connected) := ws_connect (se_transport s)
      (mkWsTransportConfig (rq_endpoint request) (rq_headers request)) in
    let s := s <| se_transport := w |> in
    if connected then (s <| se_last_error := "" |>, true)
    else (transport_error s "Websocket transport connect failed", false)
  end.

Definition session_subscribe s (channel : string) : WsSession W * bool :=
  match build_subscribe_message adapter channel with
  | Err what => (s <| se_last_error := what |>, false)
  | Ok payload =>
    let s := s <| se_last_subscribe_payload := payload |> in
    let '(w, sent) := ws_send_text (se_transport s) payload in
    let s := s <| se_transport := w |> in
    if sent then (s <| se_last_error := "" |>, true)
    else (transport_error s "Websocket transport send failed", false)
  end.

Definition session_recv_text s : WsSession W * option string :=
  let '(w, message) := ws_recv_text (se_transport s) in
  let s := s <| se_transport := w |> in
  match message with
  | None => (transport_error s "Websocket transport receive failed", None)
  | Some _ => (s <| se_last_error := "" |>, message)
  end.

Definition session_close s : WsSession W := s <| se_transport ::= ws_close |>.
End session.

(** ** WsFeedRunner *)

(** [IWsMessageSink]; [R] is what a call reads of the outside, such as the clock. *)
Class WsMessageSink (S R : Type) := sink_push_message : S → R → string → S * bool.

Record WsFeedRunner (W S : Type) := mkWsFeedRunner {
  fr_session : WsSession W;
  fr_sink : S;
  fr_channels : list string;
  (** [worker_.joinable()] *)
  fr_worker : bool;
  fr_running : bool;
  fr_received_count : Z;
  fr_dropped_count : Z;
  fr_last_error : string;
}.
Arguments mkWsFeedRunner {W S} _ _ _ _ _ _ _ _.
Arguments fr_session {W S} _.
Arguments fr_sink {W S} _.
Arguments fr_channels {W S} _.
Arguments fr_worker {W S} _.
Arguments fr_running {W S} _.
Arguments fr_received_count {W S} _.
Arguments fr_dropped_count {W S} _.
Arguments fr_last_error {W S} _.

#[export] Instance WsFeedRunner_settable W S : Settable (WsFeedRunner W S) := λ x,
  mkWsFeedRunner (fr_session x) (fr_sink x) (fr_channels x) (fr_worker x) (fr_running x)
    (fr_received_count x) (fr_dropped_count x) (fr_last_error x).

Definition feed_runner_init {W S} (session : WsSession W) (sink : S) (channels : list string)
    : WsFeedRunner W S :=
  mkWsFeedRunner session sink channels false false 0 0 "".

(** The program points of [run] and [connect_and_subscribe]. *)
Inductive feed_pc :=
  | FeedOuter                              (** the test of the outer loop *)
  | FeedConnect
  | FeedSubscribe (rest : list string)     (** the channels still to subscribe *)
  | FeedInner                              (** the test of the inner loop *)
  | FeedRecv
  | FeedPush (message : string)
  | FeedExit
  | FeedDone.

(** What the worker has done since it was started. *)
Inductive feed_event :=
  | FeedConnected
  | FeedSubscribed (channel : string)
  | FeedReceived (message : string)
  | FeedPushed (message : string) (accepted : bool)
  | FeedClosed.

(** The calls of [stop] on a running worker: request the stop, close the session, join. *)
Inductive stop_pc := StopIdle | StopRequested | StopClosed.

Record feed_state (W S : Type) := mkFeedState {
  fs_runner : WsFeedRunner W S;
  fs_pc : feed_pc;
  fs_stop_pc : stop_pc;
  fs_log : list feed_event;
}.
Arguments mkFeedState {W S} _ _ _ _.
Arguments fs_runner {W S} _.
Arguments fs_pc {W S} _.
Arguments fs_stop_pc {W S} _.
Arguments fs_log {W S} _.

#[export] Instance feed_state_settable W S : Settable (feed_state W S) := λ x,
  mkFeedState (fs_runner x) (fs_pc x) (fs_stop_pc x) (fs_log x).

Definition stop_requested (p : stop_pc) : bool :=
  match p with StopIdle => false | _ => true end.

Section runner.
Context {W A S R : Type} `{!WsTransport W} `{!ExchangeWsAdapter A} `{!WsMessageSink S R}.
Context (adapter : A).
Implicit Types (r : WsFeedRunner W S) (s : feed_state W S).

Definition feed_set_error r (error : string) : WsFeedRunner W S := r <| fr_last_error := error |>.

(** [set_error(session_.last_error())] *)
Definition session_error r : WsFeedRunner W S := feed_set_error r (se_last_error (fr_session r)).

Definition close_session r : WsFeedRunner W S := r <| fr_session ::= session_close |>.

(** The first call of [connect_and_subscribe]. *)
Definition feed_connect r (m : Moment) : WsFeedRunner W S * bool :=
  let '(session, connected) := session_connect adapter (fr_session r) m in
  let r := r <| fr_session := session |> in
  if connected then (r, true) else (session_error r, false).

(** One iteration of its loop. *)
Definition feed_subscribe r (channel : string) : WsFeedRunner W S * bool :=
  let '(session, subscribed) := session_subscribe adapter (fr_session r) channel in
  let r := r <| fr_session := session |> in
  if subscribed then (r, true) else (close_session (session_error r), false).

Definition feed_recv r : WsFeedRunner W S * option string :=
  let '(session, message) := session_recv_text (fr_session r) in
  let r := r <| fr_session := session |> in
  match message with
  | None => (close_session (session_error r), None)
  | Some _ => (r <| fr_received_count ::= u64_inc |>, message)
  end.

Definition feed_push r (reading : R) (message : string) : WsFeedRunner W S * bool :=
  let '(sink, accepted) := sink_push_message (fr_sink r) reading message in
  let r := r <| fr_sink := sink |> in
  (if accepted then r else r <| fr_dropped_count ::= u64_inc |>, accepted).

Definition goto s (pc : feed_pc) : feed_state W S := s <| fs_pc := pc |>.
Definition log s (e : feed_event) : feed_state W S := s <| fs_log ::= λ l, l ++ [e] |>.

(** One step of the worker; [m] and [reading] are what its calls read of the outside. *)
Definition worker_step (m : Moment) (reading : R) s : feed_state W S :=
  let r := fs_runner s in
  let stop := stop_requested (fs_stop_pc s) in
  match fs_pc s with
  | FeedOuter => goto s (if stop then FeedExit else FeedConnect)
  | FeedConnect =>
    match feed_connect r m with
    | (r, true) =>
      log (goto (s <| fs_runner := r |>) (FeedSubscribe (fr_channels r))) FeedConnected
    | (r, false) => goto (s <| fs_runner := r |>) FeedOuter
    end
  | FeedSubscribe [] => goto (s <| fs_runner := feed_set_error r "" |>) FeedInner
  | FeedSubscribe (channel :: rest) =>
    match feed_subscribe r channel with
    | (r, true) =>
      log (goto (s <| fs_runner := r |>) (FeedSubscribe rest)) (FeedSubscribed channel)
    | (r, false) => log (goto (s <| fs_runner := r |>) FeedOuter) FeedClosed
    end
  | FeedInner => goto s (if stop then FeedOuter else FeedRecv)
  | FeedRecv =>
    match feed_recv r with
    | (r, Some message) =>
      log (goto (s <| fs_runner := r |>) (FeedPush message)) (FeedReceived message)
    | (r, None) => log (goto (s <| fs_runner := r |>) FeedOuter) FeedClosed
    end
  | FeedPush message =>
    let '(r, accepted) := feed_push r reading message in
    log (goto (s <| fs_runner := r |>) FeedInner) (FeedPushed message accepted)
  | FeedExit =>
    log (goto (s <| fs_runner := (close_session r) <| fr_running := false |> |>) FeedDone)
      FeedClosed
  | FeedDone => s
  end.

(** [start] when no worker is joinable; otherwise it returns false and changes nothing. *)
Definition feed_start s : feed_state W S * bool :=
  let r := fs_runner s in
  if fr_worker r then (s, false)
  else
    (mkFeedState
       ((feed_set_error (r <| fr_received_count := 0 |> <| fr_dropped_count := 0 |>) "")
          <| fr_running := true |> <| fr_worker := true |>)
       FeedOuter StopIdle [], true).

(** The three parts of [stop] on a joinable worker. *)
Definition stop_request s : feed_state W S := s <| fs_stop_pc := StopRequested |>.
Definition stop_close s : feed_state W S :=
  s <| fs_runner ::= close_session |> <| fs_stop_pc := StopClosed |>.
Definition stop_join s : feed_state W S :=
  s <| fs_runner ::= λ r, r <| fr_worker := false |> <| fr_running := false |> |>.

(** [stop] without a worker. *)
Definition stop_idle s : feed_state W S :=
  s <| fs_runner ::= λ r, r <| fr_running := false |> |>.

Definition feed_init (session : WsSession W) (sink : S) (channels : list string)
    : feed_state W S :=
  mkFeedState (feed_runner_init session sink channels) FeedDone StopIdle [].

Inductive feed_label := ByWorker | ByStart | ByOther.

#[export] Instance feed_label_eq_dec : EqDecision feed_label.
Proof. solve_decision. Defined.

Inductive feed_step : feed_label → feed_state W S → feed_state W S → Prop :=
  | step_worker s m reading :
      fr_worker (fs_runner s) = true → fs_pc s ≠ FeedDone →
      feed_step ByWorker s (worker_step m reading s)
  | step_start s : feed_step ByStart s (feed_start s).1
  | step_stop_idle s : fr_worker (fs_runner s) = false → feed_step ByOther s (stop_idle s)
  | step_stop_request s :
      fr_worker (fs_runner s) = true → fs_stop_pc s = StopIdle →
      feed_step ByOther s (stop_request s)
  | step_stop_close s :
      fs_stop_pc s = StopRequested → feed_step ByOther s (stop_close s)
  | step_stop_join s :
      fr_worker (fs_runner s) = true → fs_stop_pc s = StopClosed → fs_pc s = FeedDone →
      feed_step ByOther s (stop_join s)
  (** the network and the threads behind the sink *)
  | step_outside s w sink :
      feed_step ByOther s
        (s <| fs_runner ::= λ r,
             r <| fr_session ::= λ x, x <| se_transport := w |> |> <| fr_sink := sink |> |>).

(** A run, with the threads that took its steps. *)
Inductive feed_run : list feed_label → feed_state W S → feed_state W S → Prop :=
  | run_nil s : feed_run [] s s
  | run_snoc labels l s s' s'' :
      feed_run labels s s' → feed_step l s' s'' → feed_run (labels ++ [l]) s s''.
End runner.

(** ** Reading the log *)
Definition received_of (l : list feed_event) : list string :=
  omap (λ e, match e with FeedReceived m => Some m | _ => None end) l.
Definition pushed_of (l : list feed_event) : list (string * bool) :=
  omap (λ e, match e with FeedPushed m b => Some (m, b) | _ => None end) l.
Definition refused_of (l : list feed_event) : list (string * bool) :=
  filter (λ p, p.2 = false) (pushed_of l).

Definition in_hand (pc : feed_pc) : list string :=
  match pc with FeedPush m => [m] | _ => [] end.

(** A connection: the channels subscribed on it, then messages only. *)
Definition message_event (e : feed_event) : Prop :=
  match e with FeedReceived _ | FeedPushed _ _ => True | _ => False end.
Definition on_connection (channels : list string) (l : list feed_event) : Prop :=
  ∃ before messages,
    l = before ++ [FeedConnected] ++ (FeedSubscribed <$> channels) ++ messages ∧
    Forall message_event messages.

Definition pc_on_connection (channels : list string) (l : list feed_event) (pc : feed_pc)
    : Prop :=
  match pc with
  | FeedSubscribe rest =>
    ∃ subscribed, channels = subscribed ++ rest ∧ on_connection subscribed l ∧
      ∃ before, l = before ++ [FeedConnected] ++ (FeedSubscribed <$> subscribed)
  | FeedInner | FeedRecv | FeedPush _ => on_connection channels l
  | _ => True
  end.

(** Every message was received on a connection with all channels subscribed. *)
Definition received_on_connections (channels : list string) (l : list feed_event) : Prop :=
  ∀ l1 m l2, l = l1 ++ FeedReceived m :: l2 → on_connection channels l1.

Lemma received_of_snoc l e :
  received_of (l ++ [e]) = received_of l ++ match e with FeedReceived m => [m] | _ => [] end.
Proof. unfold received_of. rewrite omap_app. by destruct e. Qed.

Lemma pushed_of_snoc l e :
  pushed_of (l ++ [e]) = pushed_of l ++ match e with FeedPushed m b => [(m, b)] | _ => [] end.
Proof. unfold pushed_of. rewrite omap_app. by destruct e. Qed.

Lemma refused_of_snoc l e :
  refused_of (l ++ [e]) =
    refused_of l ++ match e with FeedPushed m false => [(m, false)] | _ => [] end.
Proof.
  unfold refused_of. rewrite pushed_of_snoc, filter_app.
  by destruct e as [| | |m []|].
Qed.

Lemma received_on_connections_snoc channels l e :
  received_on_connections channels l →
  (∀ m, e = FeedReceived m → on_connection channels l) →
  received_on_connections channels (l ++ [e]).
Proof.
  intros Hl He l1 m l2 Heq. destruct l2 as [|e' l2 _] using rev_ind.
  - apply app_inj_tail in Heq as [-> ->]. by eapply He.
  - rewrite app_comm_cons, app_assoc in Heq. apply app_inj_tail in Heq as [-> ->]. by eapply Hl.
Qed.

Lemma on_connection_snoc channels l e :
  on_connection channels l → message_event e → on_connection channels (l ++ [e]).
Proof.
  intros (before & messages & -> & Hm) He. exists before, (messages ++ [e]).
  split; [by rewrite <-!app_assoc|]. by apply Forall_app_2; [|constructor].
Qed.

(** ** The invariant of the runner *)
Section invariant.
Context {W A S R : Type} `{!WsTransport W} `{!ExchangeWsAdapter A} `{!WsMessageSink S R}.
Context (adapter : A).
Implicit Types (s : feed_state W S) (r : WsFeedRunner W S).

Record feed_inv (channels : list string) s : Prop := {
  fi_channels : fr_channels (fs_runner s) = channels;
  fi_handed : received_of (fs_log s) = (pushed_of (fs_log s)).*1 ++ in_hand (fs_pc s);
  fi_received : fr_received_count (fs_runner s) = u64 (Z.of_nat (length (received_of (fs_log s))));
  fi_dropped : fr_dropped_count (fs_runner s) = u64 (Z.of_nat (length (refused_of (fs_log s))));
  fi_connections : received_on_connections channels (fs_log s);
  fi_pc : pc_on_connection channels (fs_log s) (fs_pc s);
}.

(** What the calls of the worker leave alone. *)
Definition same_counts (r r' : WsFeedRunner W S) : Prop :=
  fr_channels r' = fr_channels r ∧ fr_worker r' = fr_worker r ∧
  fr_received_count r' = fr_received_count r ∧ fr_dropped_count r' = fr_dropped_count r.

Lemma feed_connect_same (r r' : WsFeedRunner W S) m b : feed_connect adapter r m = (r', b) → same_counts r r'.
Proof.
  unfold feed_connect. destruct (session_connect _ _ _) as [x []]; by intros [= <- <-].
Qed.

Lemma feed_subscribe_same (r r' : WsFeedRunner W S) c b : feed_subscribe adapter r c = (r', b) → same_counts r r'.
Proof.
  unfold feed_subscribe. destruct (session_subscribe _ _ _) as [x []]; by intros [= <- <-].
Qed.

Lemma feed_recv_counts (r r' : WsFeedRunner W S) message :
  feed_recv r = (r', message) →
  fr_channels r' = fr_channels r ∧ fr_worker r' = fr_worker r ∧
  fr_dropped_count r' = fr_dropped_count r ∧
  fr_received_count r' =
    match message with None => fr_received_count r | Some _ => u64_inc (fr_received_count r) end.
Proof.
  unfold feed_recv. destruct (session_recv_text _) as [x [y|]]; by intros [= <- <-].
Qed.

Lemma feed_push_counts (r r' : WsFeedRunner W S) reading m b :
  feed_push r reading m = (r', b) →
  fr_channels r' = fr_channels r ∧ fr_worker r' = fr_worker r ∧
  fr_received_count r' = fr_received_count r ∧
  fr_dropped_count r' = if b then fr_dropped_count r else u64_inc (fr_dropped_count r).
Proof.
  unfold feed_push. destruct (sink_push_message _ _ _) as [x []]; by intros [= <- <-].
Qed.

Lemma u64_count_snoc {B} (l : list B) x :
  u64_inc (u64 (Z.of_nat (length l))) = u64 (Z.of_nat (length (l ++ [x]))).
Proof.
  unfold u64_inc. rewrite u64_u64_add, length_app. simpl. f_equal. lia.
Qed.

(** A step that logs an event which is neither a receive nor a push. *)
Lemma feed_inv_other channels s r pc e :
  feed_inv channels s → same_counts (fs_runner s) r → in_hand (fs_pc s) = [] →
  in_hand pc = [] →
  match e with FeedReceived _ | FeedPushed _ _ => False | _ => True end →
  pc_on_connection channels (fs_log s ++ [e]) pc →
  feed_inv channels (log (goto (s <| fs_runner := r |>) pc) e).
Proof.
  intros [H1 H2 H3 H4 H5 H6] (? & ? & ? & ?) Hpc Hpc' He Hon.
  rewrite Hpc, app_nil_r in H2.
  split; simpl; rewrite ?received_of_snoc, ?pushed_of_snoc, ?refused_of_snoc;
    try (destruct e; try done; simpl; rewrite ?app_nil_r; congruence).
  - destruct e; try done; simpl; rewrite Hpc', !app_nil_r; done.
  - apply received_on_connections_snoc; [done|]. by intros m ->.
Qed.

(** A step that logs nothing. *)
Lemma feed_inv_silent channels s r pc :
  feed_inv channels s → same_counts (fs_runner s) r → in_hand (fs_pc s) = [] →
  in_hand pc = [] → pc_on_connection channels (fs_log s) pc →
  feed_inv channels (goto (s <| fs_runner := r |>) pc).
Proof.
  intros [H1 H2 H3 H4 H5 H6] (? & ? & ? & ?) Hpc Hpc' Hon. rewrite Hpc in H2.
  split; simpl; try congruence; try done.
Qed.

Lemma worker_step_inv channels m reading s :
  feed_inv channels s → feed_inv channels (worker_step adapter m reading s).
Proof.
  intros Hinv. pose proof Hinv as [H1 H2 H3 H4 H5 H6]. unfold worker_step.
  destruct (fs_pc s) as [| |[|channel rest]| | |message| |] eqn:Hpc; simpl in H2, H6.
  - destruct (stop_requested _); apply (feed_inv_silent _ s (fs_runner s)); by rewrite ?Hpc.
  - destruct (feed_connect adapter (fs_runner s) m) as [r []] eqn:Hc;
      pose proof (feed_connect_same _ _ _ _ Hc) as Hsame.
    + apply feed_inv_other; try done; [by rewrite Hpc|]. destruct Hsame as [-> _]. rewrite H1.
      exists []. split_and!; [done| |by exists (fs_log s)].
      exists (fs_log s), []. by rewrite app_nil_r.
    + apply feed_inv_silent; try done. by rewrite Hpc.
  - apply feed_inv_silent; try done; [by rewrite Hpc|].
    destruct H6 as (subscribed & -> & Hon & _). by rewrite app_nil_r.
  - destruct (feed_subscribe adapter (fs_runner s) channel) as [r []] eqn:Hc;
      pose proof (feed_subscribe_same _ _ _ _ Hc) as Hsame.
    + apply feed_inv_other; try done; [by rewrite Hpc|].
      destruct H6 as (subscribed & -> & _ & before & ->). exists (subscribed ++ [channel]).
      assert ((before ++ FeedConnected :: (FeedSubscribed <$> subscribed)) ++
              [FeedSubscribed channel] =
              before ++ [FeedConnected] ++ (FeedSubscribed <$> subscribed ++ [channel])) as ->.
      { by rewrite fmap_app, <-!app_assoc. }
      split_and!; [by rewrite <-app_assoc| |by exists before].
      exists before, []. by rewrite app_nil_r.
    + apply feed_inv_other; try done. by rewrite Hpc.
  - destruct (stop_requested _); apply (feed_inv_silent _ s (fs_runner s)); by rewrite ?Hpc.
  - destruct (feed_recv (fs_runner s)) as [r [message|]] eqn:Hc;
      pose proof (feed_recv_counts _ _ _ Hc) as (Hr1 & Hr2 & Hr3 & Hr4).
    + rewrite app_nil_r in H2.
      split; simpl; rewrite ?received_of_snoc, ?pushed_of_snoc, ?refused_of_snoc, ?app_nil_r.
      * congruence.
      * by rewrite H2.
      * rewrite Hr4, H3. apply u64_count_snoc.
      * congruence.
      * apply received_on_connections_snoc; [done|]. intros _ _. done.
      * by apply on_connection_snoc.
    + apply feed_inv_other; try done. by rewrite Hpc.
  - destruct (feed_push (fs_runner s) reading message) as [r b] eqn:Hc.
    pose proof (feed_push_counts _ _ _ _ _ Hc) as (Hr1 & Hr2 & Hr3 & Hr4).
    split; simpl; rewrite ?received_of_snoc, ?pushed_of_snoc, ?refused_of_snoc, ?app_nil_r.
    + congruence.
    + by rewrite fmap_app, H2.
    + congruence.
    + rewrite Hr4, H4. destruct b; simpl; [by rewrite app_nil_r|apply u64_count_snoc].
    + by apply received_on_connections_snoc.
    + by apply on_connection_snoc.
  - apply feed_inv_other; try done. by rewrite Hpc.
  - done.
Qed.

Lemma feed_inv_init channels session sink :
  feed_inv channels (feed_init session sink channels : feed_state W S).
Proof. split; try done. by intros [|] ? ?. Qed.

Lemma feed_step_inv channels l s s' :
  feed_step adapter l s s' → feed_inv channels s → feed_inv channels s'.
Proof.
  intros Hstep Hinv. pose proof Hinv as [H1 H2 H3 H4 H5 H6].
  destruct Hstep as [s m reading|s|s|s|s|s|s w sink].
  - by apply worker_step_inv.
  - unfold feed_start. destruct (fr_worker (fs_runner s)); simpl; [done|].
    split; try done. by intros [|] ? ?.
  - by split.
  - by split.
  - by split.
  - by split.
  - by split.
Qed.

Lemma feed_run_inv channels labels s s' :
  feed_run adapter labels s s' → feed_inv channels s → feed_inv channels s'.
Proof. induction 1; eauto using feed_step_inv. Qed.
End invariant.

(** ** The end of the worker *)
Section progress.
Context {W A S R : Type} `{!WsTransport W} `{!ExchangeWsAdapter A} `{!WsMessageSink S R}.
Context (adapter : A).
Implicit Types (s : feed_state W S).

(** Steps left to the worker once a stop is requested. *)
Definition stop_measure s : nat :=
  match fs_pc s with
  | FeedDone => 0
  | FeedExit => 1
  | FeedOuter => 2
  | FeedInner => 3
  | FeedPush _ => 4
  | FeedRecv => 5
  | FeedSubscribe rest => 4 + length rest
  | FeedConnect => 5 + length (fr_channels (fs_runner s))
  end.

Definition worker_steps (labels : list feed_label) : nat :=
  length (filter (λ l, l = ByWorker) labels).

Lemma worker_step_measure m reading s :
  stop_requested (fs_stop_pc s) = true → fs_pc s ≠ FeedDone →
  (stop_measure (worker_step adapter m reading s) < stop_measure s)%nat.
Proof.
  intros Hstop Hpc. unfold worker_step, stop_measure. rewrite Hstop.
  destruct (fs_pc s) as [| |[|channel rest]| | |message| |] eqn:Heq; simpl; try lia.
  - destruct (feed_connect adapter (fs_runner s) m) as [r []] eqn:Hc; simpl; [|lia].
    apply feed_connect_same in Hc as [-> _]. lia.
  - destruct (feed_subscribe adapter (fs_runner s) channel) as [r []]; simpl; lia.
  - destruct (feed_recv (fs_runner s)) as [r []]; simpl; lia.
  - destruct (feed_push (fs_runner s) reading message) as [r b]; simpl; lia.
  - done.
Qed.

Lemma worker_step_stop m reading s :
  fs_stop_pc (worker_step adapter m reading s) = fs_stop_pc s.
Proof. unfold worker_step. repeat case_match; done. Qed.

(** A worker that has not finished can run, and a finished one has cleared [running_]. *)
Definition worker_wf s : Prop :=
  (fs_pc s ≠ FeedDone → fr_worker (fs_runner s) = true) ∧
  (fs_pc s = FeedDone → fr_running (fs_runner s) = false).

Lemma worker_step_worker m reading s :
  fr_worker (fs_runner (worker_step adapter m reading s)) = fr_worker (fs_runner s).
Proof.
  unfold worker_step. destruct (fs_pc s) as [| |[|channel rest]| | |message| |]; try done.
  - destruct (feed_connect _ _ _) as [r []] eqn:Hc; by apply feed_connect_same in Hc as (_ & ? & _).
  - destruct (feed_subscribe _ _ _) as [r []] eqn:Hc;
      by apply feed_subscribe_same in Hc as (_ & ? & _).
  - destruct (feed_recv _) as [r []] eqn:Hc; by apply feed_recv_counts in Hc as (_ & ? & _).
  - destruct (feed_push _ _ _) as [r b] eqn:Hc; by apply feed_push_counts in Hc as (_ & ? & _).
Qed.

Lemma worker_step_wf m reading s :
  fr_worker (fs_runner s) = true → fs_pc s ≠ FeedDone →
  worker_wf (worker_step adapter m reading s).
Proof.
  intros Hw Hpc. split; [by rewrite worker_step_worker|]. unfold worker_step.
  destruct (fs_pc s) as [| |[|channel rest]| | |message| |]; try done.
  - by destruct (stop_requested _).
  - by destruct (feed_connect _ _ _) as [r []].
  - by destruct (feed_subscribe _ _ _) as [r []].
  - by destruct (stop_requested _).
  - by destruct (feed_recv _) as [r []].
  - by destruct (feed_push _ _ _) as [r b].
Qed.

Lemma feed_step_wf l s s' : feed_step adapter l s s' → worker_wf s → worker_wf s'.
Proof.
  intros Hstep [Hwf1 Hwf2]. destruct Hstep as [s m reading|s|s|s|s|s|s w sink].
  - by apply worker_step_wf.
  - unfold feed_start. destruct (fr_worker (fs_runner s)) eqn:?; by split.
  - by split.
  - by split.
  - by split.
  - split; [|done]. simpl. congruence.
  - by split.
Qed.

Lemma feed_run_app labels labels' (s s' s'' : feed_state W S) :
  feed_run adapter labels s s' → feed_run adapter labels' s' s'' →
  feed_run adapter (labels ++ labels') s s''.
Proof.
  intros Hrun. induction 1; [by rewrite app_nil_r|]. rewrite app_assoc.
  eapply run_snoc; eauto.
Qed.

Lemma feed_run_wf labels s s' : feed_run adapter labels s s' → worker_wf s → worker_wf s'.
Proof. induction 1; eauto using feed_step_wf. Qed.

#[export] Instance feed_pc_eq_dec : EqDecision feed_pc.
Proof. solve_decision. Defined.

(** Once a stop is requested it stays requested, and every step of the worker brings it
    closer to its end. *)
Lemma feed_step_stopping l s s' :
  feed_step adapter l s s' → l ≠ ByStart → stop_requested (fs_stop_pc s) = true →
  stop_requested (fs_stop_pc s') = true ∧
  (worker_steps [l] + stop_measure s' ≤ stop_measure s)%nat.
Proof.
  intros Hstep Hl Hstop. destruct Hstep as [s m reading Hw Hpc|s|s|s|s|s|s w sink]; try done.
  - rewrite worker_step_stop. split; [done|].
    pose proof (worker_step_measure m reading s Hstop Hpc). unfold worker_steps. simpl. lia.
Qed.

Lemma worker_steps_snoc labels l : worker_steps (labels ++ [l]) = (worker_steps labels + worker_steps [l])%nat.
Proof. unfold worker_steps. by rewrite filter_app, length_app. Qed.

Lemma feed_run_stopping labels s s' :
  feed_run adapter labels s s' → ByStart ∉ labels → stop_requested (fs_stop_pc s) = true →
  stop_requested (fs_stop_pc s') = true ∧
  (worker_steps labels + stop_measure s' ≤ stop_measure s)%nat.
Proof.
  induction 1 as [s|labels l s s' s'' Hrun IH Hstep]; intros Hn Hstop; [by split|].
  rewrite not_elem_of_app, list_elem_of_singleton in Hn. destruct Hn as [Hn Hl].
  destruct (IH Hn Hstop) as [Hstop' Hle].
  destruct (feed_step_stopping _ _ _ Hstep (λ e, Hl (eq_sym e)) Hstop') as [? ?].
  split; [done|]. rewrite worker_steps_snoc. lia.
Qed.
End progress.

(** ** What the worker leaves of the sink *)
Section sink_kept.
Context {W A S R : Type} `{!WsTransport W} `{!ExchangeWsAdapter A} `{!WsMessageSink S R}.
Context (adapter : A).
(** A property of the sink that pushing keeps. *)
Context (P : S → Prop).
Context (HP : ∀ sink reading message, P sink → P (sink_push_message sink reading message).1).
Implicit Types (s : feed_state W S).

Lemma worker_step_sink m reading s :
  P (fr_sink (fs_runner s)) → P (fr_sink (fs_runner (worker_step adapter m reading s))).
Proof.
  intros Hs. unfold worker_step.
  destruct (fs_pc s) as [| |[|channel rest]| | |message| |]; try done.
  - unfold feed_connect. by destruct (session_connect _ _ _) as [? []].
  - unfold feed_subscribe. by destruct (session_subscribe _ _ _) as [? []].
  - unfold feed_recv. by destruct (session_recv_text _) as [? []].
  - unfold feed_push. pose proof (HP (fr_sink (fs_runner s)) reading message Hs).
    by destruct (sink_push_message _ _ _) as [? []].
Qed.
End sink_kept.

(** ** The properties of the feed *)
Section feed_properties.
Context {W A S R : Type} `{!WsTransport W} `{!ExchangeWsAdapter A} `{!WsMessageSink S R}.
Context (adapter : A) (session : WsSession W) (sink : S) (channels : list string).
Implicit Types (s : feed_state W S).

(** C19: For every interleaving of the worker, start, stop, the network and the threads
    behind the sink: since the last start, the messages received are, in order, the
    messages handed to the sink and the one in hand; the two counters count the received
    and the refused ones; and every message was received on a connection on which all
    configured channels had been subscribed, in order and before the first message, and
    which the worker had not closed. *)
Theorem feed_delivers_in_order labels s :
  feed_run adapter labels (feed_init session sink channels) s →
  received_of (fs_log s) = (pushed_of (fs_log s)).*1 ++ in_hand (fs_pc s) ∧
  fr_received_count (fs_runner s) = u64 (Z.of_nat (length (received_of (fs_log s)))) ∧
  fr_dropped_count (fs_runner s) = u64 (Z.of_nat (length (refused_of (fs_log s)))) ∧
  received_on_connections channels (fs_log s).
Proof.
  intros Hrun. destruct (feed_run_inv adapter channels _ _ _ Hrun) as [? ? ? ? ? ?]; [|done].
  apply feed_inv_init.
Qed.
End feed_properties.

(** ** The order in which a Kalshi connection is authenticated *)
Section authentication.
Context `{OpenSslLaws} `{NlohmannDocument} {Net : Type} `{!Beast Net}.

(** C21: When a session over the Kalshi adapter and the Beast transport connects, the
    WebSocket handshake has gone to the host and target of the configured endpoint, with
    the key id of the credentials, the time of the call, and a base64 signature that
    verifies, under the private key of the credentials, for exactly
    timestamp + "GET" + that target. *)
Theorem connect_is_authenticated (a : KalshiWsAdapter) (s s' : WsSession (BeastTransport Net))
    (m : Moment) :
  session_connect a s m = (s', true) →
  ∃ endpoint n signature_base64 pem bio key signature,
    parse_ws_endpoint (ka_endpoint a) = Ok endpoint ∧ ep_scheme endpoint = "wss" ∧
    bt_connected (se_transport s') = true ∧
    beast_handshake n
      {["KALSHI-ACCESS-KEY" := cr_key_id (ka_signer a);
        "KALSHI-ACCESS-TIMESTAMP" := pretty (mo_now_ms m);
        "KALSHI-ACCESS-SIGNATURE" := signature_base64]}
      (handshake_host endpoint) (ep_target endpoint) =
      (bt_stream (se_transport s'), Ok tt) ∧
    resolve_private_key_pem (mo_read_file m) (cr_private_key_pem (ka_signer a)) = Ok pem ∧
    ossl_bio_new_mem_buf pem = Ok bio ∧ ossl_read_private_key bio = Ok key ∧
    base64_decode signature_base64 = Some signature ∧
    ossl_verify key (pretty (mo_now_ms m) +:+ "GET" +:+ ep_target endpoint) signature.
Proof.
  unfold session_connect. simpl. unfold kalshi_connect_request.
  destruct (make_ws_headers _ _ _) as [h|] eqn:Hh; [|done]. simpl.
  destruct (beast_transport_connect _ _) as [t []] eqn:Hc; [|done]. intros [= <-].
  apply connect_handshake in Hc as (endpoint & n & Hep & Hs & Hconn & Hhs). simpl in Hep.
  unfold make_ws_headers in Hh. rewrite (extracted_path_is_target _ _ Hep) in Hh.
  apply auth_headers_verify in Hh as (Hkey & Hts & pem & bio & key & sig & ? & ? & ? & ? & ?).
  rewrite Hts in *. exists endpoint, n, (ah_signature_base64 h), pem, bio, key, sig.
  split_and!; try done. simpl. rewrite <-Hhs. unfold auth_header_map. by rewrite Hkey, Hts.
Qed.
End authentication.

(** ** Concrete feeds *)

(** The first steps of a worker, as a run. *)
Section concrete_run.
Context {W A S R : Type} `{!WsTransport W} `{!ExchangeWsAdapter A} `{!WsMessageSink S R}.
Context (adapter : A) (m : Moment) (reading : R).

Fixpoint steps_of (n : nat) (s : feed_state W S) : option (feed_state W S) :=
  match n with
  | O => Some s
  | Datatypes.S n =>
    s' ← steps_of n s;
    if fr_worker (fs_runner s') && bool_decide (fs_pc s' ≠ FeedDone)
    then Some (worker_step adapter m reading s') else None
  end.

Lemma steps_of_run n s s' :
  steps_of n s = Some s' → feed_run adapter (replicate n ByWorker) s s'.
Proof.
  revert s'. induction n as [|n IH]; simpl; intros s' Hs; [simplify_eq; constructor|].
  apply bind_Some in Hs as (s1 & Hs1 & Hs). case_match eqn:Hb; simplify_eq.
  apply andb_true_iff in Hb as [? Hpc%bool_decide_eq_true].
  change (ByWorker :: replicate n ByWorker) with (replicate (Datatypes.S n) ByWorker).
  rewrite replicate_S_end. eapply run_snoc; [eauto|]. by constructor.
Qed.

Lemma started_run session sink channels n s :
  steps_of n (feed_start (feed_init session sink channels)).1 = Some s →
  ∃ labels, feed_run adapter labels (feed_init session sink channels) s.
Proof.
  intros Hs%steps_of_run. exists (([] ++ [ByStart]) ++ replicate n ByWorker).
  eapply feed_run_app; [|done]. eapply run_snoc; constructor.
Qed.
End concrete_run.

(** A transport that numbers its messages, whose connection breaks when it would deliver
    number [tk_fails_at], and a sink with room for [n] messages. *)
Record tick_transport := mkTick { tk_next : Z; tk_fails_at : Z }.

#[local] Instance tick_ws_transport : WsTransport tick_transport := {|
  ws_connect w _ := (w, true);
  ws_send_text w _ := (w, true);
  ws_recv_text w :=
    (mkTick (tk_next w + 1) (tk_fails_at w),
     if decide (tk_next w = tk_fails_at w) then None else Some (pretty (tk_next w)));
  ws_close w := w;
  ws_last_error _ := "";
|}.

#[local] Instance room_sink : WsMessageSink Z unit := λ room _ _,
  if decide (0 < room) then (room - 1, true) else (room, false).

Definition demo_adapter : PolymarketWsAdapter :=
  mkPolymarketWsAdapter "wss://ws-subscriptions-clob.polymarket.com/ws".
Definition demo_moment : Moment := mkMoment 1700000000000 7 (λ _, None).
Definition demo_feed (n : nat) : option (feed_state tick_transport Z) :=
  steps_of demo_adapter demo_moment tt n
    (feed_start (feed_init (session_init (mkTick 0 2)) 1 ["trade"; "book"])).1.

Lemma demo_feed_run n s :
  demo_feed n = Some s →
  ∃ labels, feed_run demo_adapter labels
    (feed_init (session_init (mkTick 0 2)) 1 ["trade"; "book"]) s.
Proof. apply started_run. Qed.

(** Three messages arrive around a broken connection; the sink takes only the first. *)
Lemma feed_delivers_in_order_witness :
  ∃ s, demo_feed 21 = Some s ∧
    received_of (fs_log s) = ["0"; "1"; "3"] ∧ fr_received_count (fs_runner s) = 3 ∧
    fr_dropped_count (fs_runner s) = 2 ∧
    received_on_connections ["trade"; "book"] (fs_log s).
Proof.
  destruct (demo_feed 21) as [s|] eqn:Hs; [|by vm_compute in Hs].
  destruct (demo_feed_run _ _ Hs) as [labels Hrun]. exists s. split; [done|].
  pose proof (feed_delivers_in_order _ _ _ _ _ _ Hrun) as (_ & Hr & Hd & Hc).
  assert (received_of (fs_log s) = ["0"; "1"; "3"] ∧ length (refused_of (fs_log s)) = 2%nat)
    as [Hrec Href] by (vm_compute in Hs; injection Hs as <-; by vm_compute).
  rewrite Hr, Hd, Hrec, Href. split_and!; [reflexivity..|exact Hc].
Defined.

(** A network that accepts everything and remembers the last handshake. *)
#[export] Instance recording_beast : Beast (gmap string string * string * string) := {|
  beast_results := unit;
  beast_new_stream n := n;
  beast_resolve n _ _ := (n, Ok tt);
  beast_tcp_connect n _ := (n, Ok tt);
  beast_set_host_name n _ := (n, Ok tt);
  beast_tls_handshake n := (n, Ok tt);
  beast_handshake _ headers host target := ((headers, host, target), Ok tt);
  beast_write n _ := (n, Ok tt);
  beast_read n := (n, Ok "");
  beast_close n := (n, Ok tt);
|}.

Definition demo_kalshi : KalshiWsAdapter :=
  mkKalshiWsAdapter (mkCredentials "key-1" "-----BEGIN KEY")
    "wss://api.elections.kalshi.com/trade-api/ws/v2".

Definition demo_kalshi_session : WsSession (BeastTransport (gmap string string * string * string)) :=
  session_init (beast_transport_init (∅, "", "") (Ok tt)).

Lemma connect_is_authenticated_witness :
  ∃ key signature,
    base64_decode "-----BEGIN KEY|1700000000000GET/trade-api/ws/v2" = Some signature ∧
    ossl_verify key "1700000000000GET/trade-api/ws/v2" signature.
Proof.
  assert ((session_connect demo_kalshi demo_kalshi_session demo_moment).2 = true ∧
    (bt_stream (se_transport
       (session_connect demo_kalshi demo_kalshi_session demo_moment).1)).1.1
      !! "KALSHI-ACCESS-SIGNATURE" = Some "-----BEGIN KEY|1700000000000GET/trade-api/ws/v2")
    as [Hok Hsent] by (vm_compute; split; reflexivity).
  destruct (session_connect demo_kalshi demo_kalshi_session demo_moment) as [s' ok] eqn:Hs.
  simpl in Hok, Hsent. subst ok.
  destruct (connect_is_authenticated _ _ _ _ Hs)
    as (endpoint & n & text & pem & bio & key & sig & Hep & _ & _ & Hhs & _ & _ & _ & Hd & Hv).
  exists key, sig. assert (ep_target endpoint = "/trade-api/ws/v2") as Htarget.
  { assert (parse_ws_endpoint (ka_endpoint demo_kalshi) =
      Ok (mkEndpointParts "wss" "api.elections.kalshi.com" "443" "/trade-api/ws/v2")) as Hp
      by (vm_compute; reflexivity). rewrite Hp in Hep. by injection Hep as <-. }
  rewrite Htarget in Hv. split; [|exact Hv]. rewrite <-Hd. f_equal.
  simpl in Hhs. injection Hhs as Hhs. rewrite <-Hhs in Hsent. simpl in Hsent.
  rewrite !lookup_insert_ne, lookup_singleton_eq in Hsent by done. by injection Hsent as <-.
Defined.
