(* ===== verification/FeedProgress.v ===== *)
(** * The market data feed makes progress

    The synchronous read of client.cpp ([recv_text]) blocks until a message arrives or the
    connection ends.  [feed_step] of WsFeed.v lets it return at any time, which is sound
    for what the feed has done so far and says nothing about what it will do.  Here the
    steps of the feed are those of WsFeed.v with two restrictions ([live_step]): the worker
    takes the step of a read only when the read returns ([recv_returns]), and the network
    changes what belongs to the network.  Over these steps [stop]
    (src/cpp/src/adapters/ws/feed_runner.cpp) is shown to complete because it closes the
    session, and the loops of [run] to reconnect after a failure.

    What is assumed of the transport is the class [WsLink], with the instance for
    BoostBeastWsTransport: a read on a transport that has been closed returns, and the
    network does not open or close a connection of ours (it can break it: reads and writes
    then fail).  Connecting, writing and closing are taken to return. *)
From S2P Require Import Prelude.
From S2P Require Import Nlohmann.
From S2P Require Import OrderTransport.
From S2P Require Import WsClient.
From S2P Require Import AuthSigner.
From S2P Require Import WsFeed.

(** ** Reads that block *)
Class WsLink (W : Type) `{!WsTransport W} := {
  (** the transport has a connection that was not closed *)
  link_open : W → bool;
  (** a read would return: a message is there, or the connection has failed *)
  link_arrived : W → bool;
  (** what the network does to the transport *)
  link_network : W → W → Prop;
  link_close_open w : link_open (ws_close w) = false;
  link_network_open w w' : link_network w w' → link_open w' = link_open w;
}.

Definition recv_returns `{WsLink W} (w : W) : bool := negb (link_open w) || link_arrived w.

(** [BoostBeastWsTransport]: the flag [connected] is its own, the stream is shared with the
    network. *)
Class BeastPending (Net : Type) := beast_readable : Net → bool.

#[export] Instance beast_link {Net : Type} `{!Beast Net} `{!BeastPending Net}
    : WsLink (BeastTransport Net).
Proof.
  refine {|
    link_open := bt_connected;
    link_arrived := λ t, beast_readable (bt_stream t);
    link_network := λ t t', ∃ n, t' = t <| bt_stream := n |>;
  |}.
  - apply closed_disconnected.
  - by intros w w' [n ->].
Defined.

(** ** The steps of a feed whose reads block *)
Definition transport_of {W S} (s : feed_state W S) : W := se_transport (fr_session (fs_runner s)).

Definition outside {W S} (w : W) (sink : S) (s : feed_state W S) : feed_state W S :=
  s <| fs_runner ::= λ r,
       r <| fr_session ::= λ x, x <| se_transport := w |> |> <| fr_sink := sink |> |>.

Section live.
Context {W A S R : Type} `{!WsTransport W} `{!WsLink W}.
Context `{!ExchangeWsAdapter A} `{!WsMessageSink S R}.
Context (adapter : A).
Implicit Types (s : feed_state W S).

(** The worker has a step to take: it has not ended, and is not waiting in a read. *)
Definition worker_ready s : Prop :=
  fr_worker (fs_runner s) = true ∧ fs_pc s ≠ FeedDone ∧
  (fs_pc s = FeedRecv → recv_returns (transport_of s) = true).

Inductive live_step : feed_label → feed_state W S → feed_state W S → Prop :=
  | live_worker s m reading :
      worker_ready s → live_step ByWorker s (worker_step adapter m reading s)
  | live_start s : live_step ByStart s (feed_start s).1
  | live_stop_idle s : fr_worker (fs_runner s) = false → live_step ByOther s (stop_idle s)
  | live_stop_request s :
      fr_worker (fs_runner s) = true → fs_stop_pc s = StopIdle →
      live_step ByOther s (stop_request s)
  | live_stop_close s : fs_stop_pc s = StopRequested → live_step ByOther s (stop_close s)
  | live_stop_join s :
      fr_worker (fs_runner s) = true → fs_stop_pc s = StopClosed → fs_pc s = FeedDone →
      live_step ByOther s (stop_join s)
  (** the network, and the threads behind the sink *)
  | live_outside s w sink :
      link_network (transport_of s) w → live_step ByOther s (outside w sink s).

Inductive live_run : list feed_label → feed_state W S → feed_state W S → Prop :=
  | live_nil s : live_run [] s s
  | live_snoc labels l s s' s'' :
      live_run labels s s' → live_step l s' s'' → live_run (labels ++ [l]) s s''.

Lemma live_step_feed l s s' : live_step l s s' → feed_step adapter l s s'.
Proof. destruct 1 as [s m reading (? & ? & _)| | | | | |]; by constructor. Qed.

Lemma live_run_feed labels s s' : live_run labels s s' → feed_run adapter labels s s'.
Proof. induction 1; [constructor|]. eapply run_snoc; [done|by apply live_step_feed]. Qed.

Lemma live_run_app labels labels' s s' s'' :
  live_run labels s s' → live_run labels' s' s'' → live_run (labels ++ labels') s s''.
Proof.
  intros Hrun. induction 1; [by rewrite app_nil_r|]. rewrite app_assoc.
  eapply live_snoc; eauto.
Qed.

Lemma live_once l s s' : live_step l s s' → live_run [l] s s'.
Proof. intros. apply (live_snoc [] _ _ s); [constructor|done]. Qed.

(** *** A closed session ends the read the worker waits in *)
Definition closed_if_reading s : Prop :=
  fs_stop_pc s = StopClosed → fs_pc s = FeedRecv → link_open (transport_of s) = false.

(** A worker that is told to stop starts no new read. *)
Lemma worker_step_reads m reading s :
  fs_pc (worker_step adapter m reading s) = FeedRecv → stop_requested (fs_stop_pc s) = false.
Proof.
  unfold worker_step. destruct (fs_pc s) as [| |[|channel rest]| | |message| |] eqn:Hpc; simpl.
  - by destruct (stop_requested _).
  - by destruct (feed_connect _ _ _) as [r []].
  - done.
  - by destruct (feed_subscribe _ _ _) as [r []].
  - by destruct (stop_requested _).
  - by destruct (feed_recv _) as [r []].
  - by destruct (feed_push _ _ _) as [r b].
  - done.
  - by rewrite Hpc.
Qed.

Lemma live_step_closed l s s' : live_step l s s' → closed_if_reading s → closed_if_reading s'.
Proof.
  intros Hstep Hc. unfold closed_if_reading in *.
  destruct Hstep as [s m reading (Hw & Hpc & _)|s|s|s|s|s|s w sink Hn]; simpl.
  - rewrite worker_step_stop. intros Hstop Hr%worker_step_reads. by rewrite Hstop in Hr.
  - unfold feed_start. by destruct (fr_worker (fs_runner s)).
  - done.
  - done.
  - intros _ _. apply link_close_open.
  - done.
  - intros Hstop Hr. rewrite <-(Hc Hstop Hr). by apply link_network_open.
Qed.

Lemma live_run_closed labels s s' :
  live_run labels s s' → closed_if_reading s → closed_if_reading s'.
Proof. induction 1; eauto using live_step_closed. Qed.

(** Once the session is closed the worker is never stuck before its end. *)
Lemma closed_worker_ready s :
  fs_stop_pc s = StopClosed → closed_if_reading s → worker_wf s → fs_pc s ≠ FeedDone →
  worker_ready s.
Proof.
  intros Hstop Hc [Hw _] Hpc. split; [auto|]. split; [done|]. intros Hr.
  unfold recv_returns. by rewrite (Hc Hstop Hr).
Qed.

(** *** A stopping worker finishes *)
Section finishing.
Context `{!Inhabited R} (P : S → Prop).
Context (HP : ∀ sink reading message, P sink → P (sink_push_message sink reading message).1).

Lemma closed_worker_finishes s :
  fs_stop_pc s = StopClosed → closed_if_reading s → worker_wf s →
  fr_worker (fs_runner s) = true → P (fr_sink (fs_runner s)) →
  ∃ n s', live_run (replicate n ByWorker) s s' ∧ fs_pc s' = FeedDone ∧
    fr_worker (fs_runner s') = true ∧ P (fr_sink (fs_runner s')).
Proof.
  remember (stop_measure s) as k eqn:Hk. revert s Hk.
  induction (lt_wf k) as [k _ IH]. intros s -> Hstop Hc Hwf Hw Hs.
  destruct (decide (fs_pc s = FeedDone)) as [Hpc|Hpc].
  { exists O, s. split_and!; try done. constructor. }
  set (s1 := worker_step adapter (mkMoment 0 0 (λ _, None)) inhabitant s).
  assert (live_step ByWorker s s1) as Hstep by by constructor; apply closed_worker_ready.
  assert (fr_worker (fs_runner s1) = true) as Hw1 by (unfold s1; by rewrite worker_step_worker).
  destruct (IH (stop_measure s1)) with (s := s1) as (n & s' & Hrun & Hd & Hw' & Hs'); try done.
  - apply worker_step_measure; [by rewrite Hstop|done].
  - unfold s1. by rewrite worker_step_stop.
  - by eapply live_step_closed.
  - by eapply feed_step_wf, Hwf; apply live_step_feed.
  - by apply worker_step_sink.
  - exists (Datatypes.S n), s'. split_and!; try done.
    change (replicate (Datatypes.S n) ByWorker) with ([ByWorker] ++ replicate n ByWorker).
    eapply live_run_app; [by apply live_once|done].
Qed.
End finishing.

(** *** Stopping *)
Section stopping.
Context `{!Inhabited R} (session : WsSession W) (sink : S) (channels : list string).

Lemma feed_init_wf : worker_wf (feed_init session sink channels).
Proof. by split. Qed.

Lemma stop_measure_bound s :
  feed_inv channels s → (stop_measure s ≤ length channels + 5)%nat.
Proof.
  intros Hinv. unfold stop_measure.
  pose proof (fi_pc _ _ Hinv) as Hpc. pose proof (fi_channels _ _ Hinv) as Hch.
  destruct (fs_pc s); rewrite ?Hch; try lia. destruct Hpc as (subscribed & Heq & _).
  apply (f_equal length) in Heq. rewrite length_app in Heq. lia.
Qed.

End stopping.
End live.

(** ** Recovering from failures *)
Section recovery.
Context {W A S R : Type} `{!WsTransport W} `{!WsLink W}.
Context `{!ExchangeWsAdapter A} `{!WsMessageSink S R}.
Context (adapter : A) (channels : list string).
(** The transport has a sound connection to the exchange. *)
Context (Up : W → Prop).
Implicit Types (s : feed_state W S).

(** The exchange is reachable: whatever became of the transport, a connect gives a sound
    connection; on a sound connection a send succeeds, and a read that returns returns a
    message, and the connection stays sound.  Nothing is said of other connections: their
    calls can fail, and their reads can fail or go on returning messages. *)
Record exchange_up : Prop := {
  up_subscribe_message c :
    c ∈ channels → ∃ payload, build_subscribe_message adapter c = Ok payload;
  up_connect w m request :
    build_connect_request adapter m = Ok request →
    ∃ w', ws_connect w (mkWsTransportConfig (rq_endpoint request) (rq_headers request))
          = (w', true) ∧ Up w';
  up_send w payload : Up w → ∃ w', ws_send_text w payload = (w', true) ∧ Up w';
  up_recv w :
    Up w → recv_returns w = true →
    ∃ w' message, ws_recv_text w = (w', Some message) ∧ Up w';
}.

(** The steps while the exchange is reachable: the worker's, at moments at which the
    connect request can be built (the credentials can be read and used), and the
    network's, which breaks no sound connection. *)
Inductive recovery_step : feed_label → feed_state W S → feed_state W S → Prop :=
  | recovery_worker s m reading :
      worker_ready s → (∃ request, build_connect_request adapter m = Ok request) →
      recovery_step ByWorker s (worker_step adapter m reading s)
  | recovery_outside s w sink :
      link_network (transport_of s) w → (Up (transport_of s) → Up w) →
      recovery_step ByOther s (outside w sink s).

Inductive recovery_run : list feed_label → feed_state W S → feed_state W S → Prop :=
  | recovery_nil s : recovery_run [] s s
  | recovery_cons labels l s s' s'' :
      recovery_step l s s' → recovery_run labels s' s'' → recovery_run (l :: labels) s s''.

(** Steps until the worker has handed a message to the sink, from a sound connection and
    from any state. *)
Definition up_distance s : nat :=
  match fs_pc s with
  | FeedPush _ => 1
  | FeedRecv => 2
  | FeedInner => 3
  | FeedSubscribe rest => 4 + length rest
  | FeedConnect => 5 + length channels
  | FeedOuter => 6 + length channels
  | FeedExit | FeedDone => 0
  end.

Definition down_distance s : nat :=
  match fs_pc s with
  | FeedPush _ => 1
  | FeedRecv => 7 + length channels
  | FeedInner => 8 + length channels
  | FeedSubscribe rest => 9 + length channels + length rest
  | FeedConnect => 5 + length channels
  | FeedOuter => 6 + length channels
  | FeedExit | FeedDone => 0
  end.

Definition within (d : nat) s : Prop :=
  Up (transport_of s) ∧ (up_distance s ≤ d)%nat ∨ (down_distance s ≤ d)%nat.

(** The worker runs and has only channels of the configuration left to subscribe. *)
Definition feeding s : Prop :=
  fs_stop_pc s = StopIdle ∧ fs_pc s ≠ FeedExit ∧ fs_pc s ≠ FeedDone ∧
  fr_channels (fs_runner s) = channels ∧
  match fs_pc s with FeedSubscribe rest => rest ⊆ channels | _ => True end.

Definition pushes s : nat := length (pushed_of (fs_log s)).

Lemma feed_connect_up (r : WsFeedRunner W S) m request :
  exchange_up → build_connect_request adapter m = Ok request →
  ∃ r', feed_connect adapter r m = (r', true) ∧ fr_channels r' = fr_channels r ∧
        Up (se_transport (fr_session r')).
Proof.
  intros Hup Hm. unfold feed_connect, session_connect. rewrite Hm. simpl.
  destruct (up_connect Hup (se_transport (fr_session r)) m request Hm) as (w' & -> & Hw').
  by eexists.
Qed.

Lemma feed_subscribe_up (r : WsFeedRunner W S) c :
  exchange_up → c ∈ channels → Up (se_transport (fr_session r)) →
  ∃ r', feed_subscribe adapter r c = (r', true) ∧ fr_channels r' = fr_channels r ∧
        Up (se_transport (fr_session r')).
Proof.
  intros Hup Hin Hr. unfold feed_subscribe, session_subscribe.
  destruct (up_subscribe_message Hup c Hin) as [payload ->]. simpl.
  destruct (up_send Hup _ payload Hr) as (w' & -> & Hw'). by eexists.
Qed.

Lemma feed_recv_up (r : WsFeedRunner W S) :
  exchange_up → Up (se_transport (fr_session r)) →
  recv_returns (se_transport (fr_session r)) = true →
  ∃ r' message, feed_recv r = (r', Some message) ∧ fr_channels r' = fr_channels r.
Proof.
  intros Hup Hr Hret. unfold feed_recv, session_recv_text.
  destruct (up_recv Hup _ Hr Hret) as (w' & message & -> & Hw'). by do 2 eexists.
Qed.

(** A step of the worker hands a message over, or brings the next one closer. *)
Lemma worker_step_recovers d m reading s :
  exchange_up → feeding s → worker_ready s →
  (∃ request, build_connect_request adapter m = Ok request) → within (Datatypes.S d) s →
  let s' := worker_step adapter m reading s in
  feeding s' ∧ (pushes s' = Datatypes.S (pushes s) ∨ pushes s' = pushes s ∧ within d s').
Proof.
  intros Hup (Hstop & Hne & Hnd & Hch & Hrest) (_ & _ & Hret) [request Hm] Hd.
  unfold worker_step, within, feeding, pushes, transport_of, up_distance, down_distance in *.
  rewrite Hstop. cbn [stop_requested].
  destruct (fs_pc s) as [| |[|c rest]| | |message| |] eqn:Hpc; try done; simpl in Hd.
  - simpl. naive_solver lia.
  - destruct (feed_connect_up (fs_runner s) m request Hup Hm) as (r' & -> & Hch' & Hr').
    simpl. rewrite pushed_of_snoc, app_nil_r, Hch', Hch. split; [done|]. right. split; [done|].
    left. split; [done|]. destruct Hd as [[_ ?]|?]; lia.
  - simpl. split; [done|]. right. split; [done|].
    destruct Hd as [[? ?]|?]; [left; split; [done|lia]|right; lia].
  - assert (c ∈ channels ∧ rest ⊆ channels) as [Hc Hrest'] by set_solver.
    destruct (feed_subscribe adapter (fs_runner s) c) as [r' b] eqn:Hs.
    pose proof (feed_subscribe_same _ _ _ _ _ Hs) as [Hch' _].
    destruct Hd as [[Hr Hd]|Hd].
    + destruct (feed_subscribe_up (fs_runner s) c Hup Hc Hr) as (r1 & Hs' & _ & Hr1).
      rewrite Hs in Hs'. simplify_eq. simpl. rewrite pushed_of_snoc, app_nil_r.
      split; [by rewrite Hch', Hch|]. right. split; [done|]. left. split; [done|]. simpl in Hd. lia.
    + destruct b; simpl; rewrite pushed_of_snoc, app_nil_r; (split; [by rewrite Hch', Hch|]);
        right; (split; [done|]); right; simpl in Hd; lia.
  - simpl. split; [done|]. right. split; [done|].
    destruct Hd as [[? ?]|?]; [left; split; [done|lia]|right; lia].
  - specialize (Hret eq_refl). destruct (feed_recv (fs_runner s)) as [r' o] eqn:Hs.
    pose proof (feed_recv_counts _ _ _ Hs) as [Hch' _].
    destruct Hd as [[Hr Hd]|Hd].
    + destruct (feed_recv_up (fs_runner s) Hup Hr Hret) as (r1 & message & Hs' & _).
      rewrite Hs in Hs'. simplify_eq. simpl. rewrite pushed_of_snoc, app_nil_r.
      split; [by rewrite Hch', Hch|]. right. split; [done|]. right. lia.
    + destruct o; simpl; rewrite pushed_of_snoc, app_nil_r; (split; [by rewrite Hch', Hch|]);
        right; (split; [done|]); right; lia.
  - destruct (feed_push (fs_runner s) reading message) as [r' b] eqn:Hs.
    pose proof (feed_push_counts _ _ _ _ _ Hs) as [Hch' _]. simpl.
    rewrite pushed_of_snoc, length_app. simpl. rewrite Hch', Hch. split; [done|]. left. lia.
Qed.

Lemma outside_recovers d w sink s :
  (Up (transport_of s) → Up w) → feeding s → within d s →
  feeding (outside w sink s) ∧ pushes (outside w sink s) = pushes s ∧ within d (outside w sink s).
Proof.
  intros Hup Hf Hd. split; [exact Hf|]. split; [done|]. unfold within in *.
  destruct Hd as [[Hu Hd]|Hd]; [left|right]; [|done]. split; [by apply Hup|done].
Qed.

Lemma within_pos s : feeding s → ¬ within 0 s.
Proof.
  intros (_ & He & Hd & _) Hw. unfold within, up_distance, down_distance in Hw.
  destruct (fs_pc s); simpl in Hw; (done || lia).
Qed.

Lemma feeding_any s : feeding s → ∃ d, within d s.
Proof. intros _. exists (down_distance s). by right. Qed.

(** No failure ends the worker: it leaves its loops only when a stop is requested. *)
Definition still_running s : Prop :=
  fs_stop_pc s = StopIdle → fr_worker (fs_runner s) = true →
  fs_pc s ≠ FeedDone ∧ fs_pc s ≠ FeedExit.

Lemma worker_step_running m reading s :
  fs_stop_pc s = StopIdle → fs_pc s ≠ FeedDone → fs_pc s ≠ FeedExit →
  fs_pc (worker_step adapter m reading s) ≠ FeedDone ∧
  fs_pc (worker_step adapter m reading s) ≠ FeedExit.
Proof.
  intros Hstop Hd He. unfold worker_step. rewrite Hstop. simpl.
  destruct (fs_pc s) as [| |[|channel rest]| | |message| |]; try done.
  - by destruct (feed_connect _ _ _) as [r []].
  - by destruct (feed_subscribe _ _ _) as [r []].
  - by destruct (feed_recv _) as [r []].
  - by destruct (feed_push _ _ _) as [r b].
Qed.

Lemma live_step_running l s s' :
  live_step adapter l s s' → still_running s → still_running s'.
Proof.
  intros Hstep Hr. unfold still_running in *.
  destruct Hstep as [s m reading (Hw & _)|s|s|s|s|s|s w sink Hn]; simpl; try done.
  - rewrite worker_step_stop. intros Hstop _. destruct (Hr Hstop Hw).
    by apply worker_step_running.
  - unfold feed_start. destruct (fr_worker (fs_runner s)) eqn:Hw; simpl; [|done].
    intros Hstop _. by apply Hr.
Qed.

Lemma live_run_running labels s s' :
  live_run adapter labels s s' → still_running s → still_running s'.
Proof. induction 1; eauto using live_step_running. Qed.

(** Every state of the running worker is within the largest distance. *)
Lemma feeding_within s labels session sink :
  feed_run adapter labels (feed_init session sink channels) s →
  fs_stop_pc s = StopIdle → fs_pc s ≠ FeedDone → fs_pc s ≠ FeedExit →
  feeding s ∧ within (9 + 2 * length channels) s.
Proof.
  intros Hrun Hstop Hd He.
  pose proof (feed_run_inv adapter channels _ _ _ Hrun (feed_inv_init _ _ _)) as Hinv.
  pose proof (fi_pc _ _ Hinv) as Hpc. pose proof (fi_channels _ _ Hinv) as Hch.
  unfold feeding, within, down_distance. split.
  - split_and!; try done. destruct (fs_pc s); try done.
    destruct Hpc as (subscribed & -> & _). intros x Hx. apply elem_of_app. by right.
  - right. destruct (fs_pc s); try lia. destruct Hpc as (subscribed & Heq & _).
    apply (f_equal length) in Heq. rewrite length_app in Heq. lia.
Qed.

Lemma worker_steps_cons l labels :
  worker_steps (l :: labels) =
    (match l with ByWorker => 1 | _ => 0 end + worker_steps labels)%nat.
Proof. unfold worker_steps. rewrite filter_cons. by destruct l. Qed.

Lemma recovery_run_pushes d labels s s' :
  exchange_up → recovery_run labels s s' → feeding s → within d s →
  feeding s' ∧ (pushes s ≤ pushes s')%nat ∧
  ((d ≤ worker_steps labels)%nat → (pushes s < pushes s')%nat).
Proof.
  intros Hup Hrun. revert d.
  induction Hrun as [s|labels l s s1 s' Hstep Hrun IH]; intros d Hf Hd.
  { split_and!; [done..|]. unfold worker_steps. simpl. intros Hle.
    assert (d = 0)%nat as -> by lia. by destruct (within_pos s). }
  destruct d as [|d]; [by destruct (within_pos s)|].
  destruct Hstep as [s m reading Hr Hm|s w sink Hn Hkeep].
  - destruct (worker_step_recovers d m reading s Hup Hf Hr Hm Hd) as [Hf1 [Hp|[Hp Hd1]]].
    + destruct (feeding_any _ Hf1) as [d1 Hd1].
      destruct (IH d1 Hf1 Hd1) as (? & ? & _). split_and!; [done|lia|]. intros _. lia.
    + destruct (IH d Hf1 Hd1) as (? & ? & Hlt). split_and!; [done|lia|]. intros Hle.
      rewrite Hp in Hlt. apply Hlt. rewrite worker_steps_cons in Hle. lia.
  - destruct (outside_recovers (Datatypes.S d) w sink s Hkeep Hf Hd) as (Hf1 & Hp & Hd1).
    destruct (IH (Datatypes.S d) Hf1 Hd1) as (? & ? & Hlt). split_and!; [done|lia|].
    intros Hle. rewrite Hp in Hlt. apply Hlt. rewrite worker_steps_cons in Hle. lia.
Qed.

Lemma recovery_run_worker labels s s' :
  recovery_run labels s s' → fr_worker (fs_runner s') = fr_worker (fs_runner s).
Proof.
  induction 1 as [|labels l s s1 s2 Hstep _ IH]; [done|]. rewrite IH.
  destruct Hstep; [apply worker_step_worker|done].
Qed.

(** C34: The feed recovers from every failure.  As long as no stop is requested, a worker
    that was started is still in its loops, whatever failed before.  While the exchange is
    reachable, it has, wherever it is in its loops and whatever became of its connection (it
    may be broken, closed, or accept writes and fail the next read), handed a further
    message to the sink when it has taken [2 * length channels + 9] steps; and it can always
    take the next step, unless it waits in a read on an open connection on which nothing has
    arrived. *)
Theorem feed_recovers session sink labels0 labels s s' :
  exchange_up →
  live_run adapter labels0 (feed_init session sink channels) s →
  fs_stop_pc s = StopIdle → fr_worker (fs_runner s) = true →
  recovery_run labels s s' →
  (fs_pc s ≠ FeedDone ∧ fs_pc s ≠ FeedExit) ∧
  ((9 + 2 * length channels ≤ worker_steps labels)%nat →
   (length (pushed_of (fs_log s)) < length (pushed_of (fs_log s')))%nat) ∧
  (worker_ready s' ∨
   fs_pc s' = FeedRecv ∧ link_open (transport_of s') = true ∧
   link_arrived (transport_of s') = false).
Proof.
  intros Hup Hrun0 Hstop Hw0 Hrun.
  destruct (live_run_running _ _ _ Hrun0) as [Hd He]; [done..|].
  split; [done|].
  destruct (feeding_within s _ _ _ (live_run_feed _ _ _ _ Hrun0) Hstop Hd He) as [Hf Hw].
  destruct (recovery_run_pushes _ _ _ _ Hup Hrun Hf Hw) as (Hf' & _ & Hlt). split; [done|].
  assert (fr_worker (fs_runner s') = true) as Hworker.
  { by rewrite (recovery_run_worker _ _ _ Hrun). }
  destruct Hf' as (_ & _ & Hnd & _). unfold worker_ready.
  destruct (recv_returns (transport_of s')) eqn:Hr; [by left|].
  unfold recv_returns in Hr. apply orb_false_iff in Hr as [?%negb_false_iff ?].
  destruct (decide (fs_pc s' = FeedRecv)); [by right|by left].
Qed.
End recovery.

(** ** The Beast transport of a reachable exchange *)
Section beast_up.
Context {Net A : Type} `{!Beast Net} `{!BeastPending Net} `{!ExchangeWsAdapter A}.
Context (adapter : A) (channels : list string).
(** The stream has a sound connection. *)
Context (NetUp : Net → Prop).

(** Name lookup, TCP, TLS and the WebSocket handshake succeed from any state of the stream,
    and the handshake leaves a sound connection; writes and reads keep it sound. *)
Record network_up : Prop := {
  nu_resolve n host port : ∃ n' results, beast_resolve n host port = (n', Ok results);
  nu_tcp n results : ∃ n', beast_tcp_connect n results = (n', Ok tt);
  nu_sni n host : ∃ n', beast_set_host_name n host = (n', Ok tt);
  nu_tls n : ∃ n', beast_tls_handshake n = (n', Ok tt);
  nu_handshake n headers host target :
    ∃ n', beast_handshake n headers host target = (n', Ok tt) ∧ NetUp n';
  nu_write n payload : NetUp n → ∃ n', beast_write n payload = (n', Ok tt) ∧ NetUp n';
  nu_read n :
    NetUp n → beast_readable n = true →
    ∃ n' message, beast_read n = (n', Ok message) ∧ NetUp n';
}.

Definition beast_up (t : BeastTransport Net) : Prop :=
  bt_connected t = true ∧ NetUp (bt_stream t).

Lemma beast_connect_up (t : BeastTransport Net) config endpoint :
  network_up → parse_ws_endpoint (wc_endpoint config) = Ok endpoint → ep_scheme endpoint = "wss" →
  ∃ t', beast_transport_connect t config = (t', true) ∧ beast_up t'.
Proof.
  intros Hup Hep Hs. unfold beast_transport_connect. rewrite Hep, decide_False by congruence.
  unfold on_stream. simpl.
  match goal with |- context [beast_resolve ?n ?h ?p] =>
    destruct (nu_resolve Hup n h p) as (n1 & results & ->) end. simpl.
  destruct (nu_tcp Hup n1 results) as [n2 ->]. simpl.
  destruct (nu_sni Hup n2 (ep_host endpoint)) as [n3 ->]. simpl.
  destruct (nu_tls Hup n3) as [n4 ->]. simpl.
  destruct (nu_handshake Hup n4 (wc_headers config) (handshake_host endpoint) (ep_target endpoint))
    as (n5 & -> & Hn5). by eexists.
Qed.

Lemma beast_exchange_up :
  network_up →
  (∀ c, c ∈ channels → ∃ payload, build_subscribe_message adapter c = Ok payload) →
  (∀ m request, build_connect_request adapter m = Ok request →
     ∃ endpoint, parse_ws_endpoint (rq_endpoint request) = Ok endpoint ∧
                 ep_scheme endpoint = "wss") →
  exchange_up adapter channels beast_up.
Proof.
  intros Hup Hsub Hreq. split; [done|..].
  - intros w m request (endpoint & Hep & Hs)%Hreq. by eapply beast_connect_up.
  - intros t payload [Hc Hn]. simpl. unfold beast_transport_send_text, on_stream. rewrite Hc.
    destruct (nu_write Hup _ payload Hn) as (n' & -> & Hn'). by eexists.
  - intros t [Hc Hn] Hret. unfold recv_returns in Hret. simpl in *. rewrite Hc in Hret. simpl in Hret.
    unfold beast_transport_recv_text. rewrite Hc.
    destruct (nu_read Hup _ Hn Hret) as (n' & message & -> & Hn'). by do 2 eexists.
Qed.
End beast_up.

(** ** Concrete runs *)

(** A network that can be quiet, deliver a message, or break. *)
Inductive flaky := Alive (pending : bool) | Broken.

#[local] Instance flaky_beast : Beast flaky := {|
  beast_results := unit;
  beast_new_stream _ := Broken;
  beast_resolve n _ _ := (n, Ok tt);
  beast_tcp_connect n _ := (n, Ok tt);
  beast_set_host_name n _ := (n, Ok tt);
  beast_tls_handshake n := (n, Ok tt);
  beast_handshake _ _ _ _ := (Alive false, Ok tt);
  beast_write n _ := match n with Alive _ => (n, Ok tt) | Broken => (n, Err "broken pipe") end;
  beast_read n :=
    match n with
    | Alive true => (Alive false, Ok "tick")
    | Alive false => (n, Err "would block")
    | Broken => (n, Err "connection reset")
    end;
  beast_close _ := (Broken, Ok tt);
|}.
#[local] Instance flaky_pending : BeastPending flaky := λ n,
  match n with Alive pending => pending | Broken => true end.

Definition is_alive (n : flaky) : bool := match n with Alive _ => true | Broken => false end.

#[local] Instance counting_sink : WsMessageSink Z unit := λ n _ _, (n + 1, true).

Abbreviation demo_state := (feed_state (BeastTransport flaky) Z).

Inductive move := MoveStart | MoveWorker | MoveRequest | MoveClose | MoveNet (n : flaky).

Definition ready_now (s : demo_state) : bool :=
  fr_worker (fs_runner s) && bool_decide (fs_pc s ≠ FeedDone) &&
  (bool_decide (fs_pc s ≠ FeedRecv) || recv_returns (transport_of s)).

Definition net_set (n : flaky) (s : demo_state) : demo_state :=
  outside ((transport_of s) <| bt_stream := n |>) (fr_sink (fs_runner s)) s.

Definition make (mv : move) (s : demo_state) : option demo_state :=
  match mv with
  | MoveStart => Some (feed_start s).1
  | MoveWorker => if ready_now s then Some (worker_step demo_adapter demo_moment tt s) else None
  | MoveRequest =>
    if fr_worker (fs_runner s) && bool_decide (stop_requested (fs_stop_pc s) = false)
    then Some (stop_request s) else None
  | MoveClose => match fs_stop_pc s with StopRequested => Some (stop_close s) | _ => None end
  | MoveNet n => Some (net_set n s)
  end.

Fixpoint make_all (moves : list move) (s : demo_state) : option demo_state :=
  match moves with [] => Some s | mv :: moves => make mv s ≫= make_all moves end.

Lemma ready_now_spec s : ready_now s = true → worker_ready s.
Proof.
  unfold ready_now, worker_ready. rewrite !andb_true_iff, bool_decide_eq_true, orb_true_iff,
    bool_decide_eq_true. naive_solver.
Qed.

Lemma make_step mv s s' : make mv s = Some s' → ∃ l, live_step demo_adapter l s s'.
Proof.
  destruct mv as [| | | |n]; simpl; intros Hs.
  - simplify_eq. eexists. constructor.
  - case_match eqn:Hr; simplify_eq. eexists. by constructor; apply ready_now_spec.
  - case_match eqn:Hr; simplify_eq. apply andb_true_iff in Hr as [? Hr%bool_decide_eq_true].
    eexists. apply live_stop_request; [done|]. by destruct (fs_stop_pc s).
  - case_match; simplify_eq. eexists. by apply live_stop_close.
  - simplify_eq. eexists. apply live_outside. by exists n.
Qed.

Lemma make_all_run moves s s' :
  make_all moves s = Some s' → ∃ labels, live_run demo_adapter labels s s'.
Proof.
  revert s. induction moves as [|mv moves IH]; simpl; intros s Hs.
  { simplify_eq. exists []. constructor. }
  apply bind_Some in Hs as (s1 & [l Hl]%make_step & [labels Hr]%IH).
  exists ([l] ++ labels). eapply live_run_app; [by apply live_once|done].
Qed.

Definition demo_beast_session : WsSession (BeastTransport flaky) :=
  session_init (beast_transport_init Broken (Ok tt)).
Definition demo_live_init : demo_state := feed_init demo_beast_session 0 ["trade"].

(** The worker connects, subscribes and waits in a read on a quiet connection. *)
Definition demo_waiting : list move := MoveStart :: replicate 5 MoveWorker.


Lemma flaky_up : exchange_up demo_adapter ["trade"] (beast_up (λ n, is_alive n = true)).
Proof.
  apply beast_exchange_up.
  - split; simpl; eauto; intros [[]|]; simpl; eauto; done.
  - simpl. eauto.
  - intros m request [= <-]. eexists. split; [vm_compute; reflexivity|reflexivity].
Qed.

(** One message was delivered, then the connection breaks while the worker waits for the
    next one. *)
Definition demo_broken : list move :=
  demo_waiting ++ [MoveNet (Alive true); MoveWorker; MoveWorker; MoveWorker; MoveNet Broken].

(** The moves of a recovery: the read fails, the worker connects and subscribes again and
    waits; a message arrives and is handed over; and so on. *)
Definition demo_recovery : list move :=
  replicate 6 MoveWorker ++ [MoveNet (Alive true)] ++ replicate 3 MoveWorker
  ++ [MoveNet (Alive true)] ++ replicate 2 MoveWorker.

Fixpoint recovers (moves : list move) (s : demo_state) : option demo_state :=
  match moves with
  | [] => Some s
  | mv :: moves =>
    if match mv with MoveWorker => true | MoveNet n => is_alive n | _ => false end
    then make mv s ≫= recovers moves else None
  end.

Definition move_label (mv : move) : feed_label :=
  match mv with MoveWorker => ByWorker | MoveStart => ByStart | _ => ByOther end.

Lemma recovers_run moves s s' :
  recovers moves s = Some s' →
  recovery_run demo_adapter (beast_up (λ n, is_alive n = true)) (move_label <$> moves) s s'.
Proof.
  revert s. induction moves as [|mv moves IH]; simpl; intros s Hs; [simplify_eq; constructor|].
  case_match eqn:Hmv; [|done]. apply bind_Some in Hs as (s1 & Hs1 & Hr%IH).
  eapply recovery_cons; [|done]. destruct mv as [| | | |n]; try done; simpl in *.
  - case_match eqn:Hready; simplify_eq. apply recovery_worker; [by apply ready_now_spec|].
    simpl. eauto.
  - simplify_eq. apply recovery_outside; [by exists n|]. intros [? _]. by split.
Qed.

Lemma feed_recovers_witness :
  ∃ s s', make_all demo_broken demo_live_init = Some s ∧
    bt_stream (transport_of s) = Broken ∧ length (pushed_of (fs_log s)) = 1%nat ∧
    recovers demo_recovery s = Some s' ∧ (1 < length (pushed_of (fs_log s')))%nat.
Proof.
  destruct (make_all demo_broken demo_live_init) as [s|] eqn:Hs; [|by vm_compute in Hs].
  destruct (recovers demo_recovery s) as [s'|] eqn:Hr;
    [|vm_compute in Hs; injection Hs as <-; by vm_compute in Hr].
  exists s, s'. split; [done|].
  assert (bt_stream (transport_of s) = Broken ∧ length (pushed_of (fs_log s)) = 1%nat ∧
    fs_stop_pc s = StopIdle ∧ fr_worker (fs_runner s) = true) as (Hb & Hp & Hstop & Hw)
    by (clear Hr; vm_compute in Hs; injection Hs as <-; by vm_compute).
  split; [exact Hb|]. split; [exact Hp|]. split; [exact Hr|]. rewrite <-Hp.
  apply make_all_run in Hs as [labels0 Hrun0]. apply recovers_run in Hr.
  destruct (feed_recovers demo_adapter ["trade"] (beast_up (λ n, is_alive n = true))
    demo_beast_session 0 labels0 (move_label <$> demo_recovery) s s' flaky_up Hrun0 Hstop Hw Hr)
    as (_ & Hlt & _).
  apply Hlt. vm_compute. lia.
Defined.
