(* ===== verification/MarketData.v ===== *)
(** * The market data path as one system

    The feed worker, the pump of the main thread, the shard workers and the thread that
    stops the feed, interleaved: from the socket to the books.  The parts are those of
    WsFeed, Pipeline, Router and Shard.  A call of the feed worker on the message sink is
    split at its shared accesses ([sink_step]); while it runs the worker stays at
    [FeedPush], and when it returns, its answer is what the worker goes on with.  The
    pump is split the same way ([pump_step]); a shard pops an event and processes it.

    The ghost fields are those of the dispatch log of Router: the events the dispatch
    accepted and the events the shards popped. *)
From S2P Require Import Prelude.
From S2P Require Import Types.
From S2P Require Import BookStore.
From S2P Require Import SpscQueue.
From S2P Require Import FramePool.
From S2P Require Import Simdjson.
From S2P Require Import Decode.
From S2P Require Import KalshiParser.
From S2P Require Import Router.
From S2P Require Import Shard.
From S2P Require Import Pipeline.
From S2P Require Import Nlohmann.
From S2P Require Import OrderTransport.
From S2P Require Import AuthSigner.
From S2P Require Import WsFeed.

(** The feed's view of the sink: the answer of the call is an input. *)
#[export] Instance answered_sink : WsMessageSink unit bool := λ _ answer _, (tt, answer).

Section threads.
Context `{SJ : SimdJson} (hash : string → Z) (config : LivePipelineConfig).
Implicit Types (i : ingest_state).

(** One shared access of [push_message] of [message] at time [ts]; [Some answer] when the
    access ends the call. *)
Definition sink_step (message : string) (ts : Z) i : ingest_state * option bool :=
  match ig_sink i with
  | SinkIdle =>
    match acquire (ig_pool i) ts with
    | (pool, None) => (i <| ig_pool := pool |>, Some false)
    | (pool, Some ref) =>
      (i <| ig_pool := pool |> <| ig_sink := SinkAcquired ref message |>, None)
    end
  | SinkAcquired ref m =>
    match frame (ig_pool i) ref with
    | Some slot =>
      (i <| ig_pool ::= λ p, write_frame p slot (fill_frame ts (lc_source config) m) |>
         <| ig_sink := SinkFilled (ref <| re_payload_size := payload_size m |>) m |>, None)
    | None => (i <| ig_sink := SinkRejected ref |> <| ig_failures ::= Z.succ |>, None)
    end
  | SinkFilled ref m =>
    match try_push (ig_queue i) ref with
    | (queue, true) =>
      (i <| ig_queue := queue |> <| ig_sink := SinkIdle |>
         <| ig_accepted ::= λ l, l ++ [m] |>, Some true)
    | (queue, false) => (i <| ig_queue := queue |> <| ig_sink := SinkRejected ref |>, None)
    end
  | SinkRejected ref =>
    let '(pool, ok) := release (ig_pool i) ref in
    (i <| ig_pool := pool |> <| ig_sink := SinkIdle |>
       <| ig_failures ::= λ n, if ok then n else Z.succ n |>, Some false)
  end.

(** One shared access of [pump_ingest]; the frame it routes, if it does, and whether the
    dispatch accepted it. *)
Definition pump_step i : ingest_state * option (RawFrame * bool) :=
  match ig_pump i with
  | PumpIdle =>
    match try_pop (λ ref, ref) (ig_queue i) with
    | (queue, None) => (i <| ig_queue := queue |>, None)
    | (queue, Some ref) => (i <| ig_queue := queue |> <| ig_pump := PumpPopped ref |>, None)
    end
  | PumpPopped ref =>
    match frame (ig_pool i) ref with
    | Some slot =>
      let f := read_frame (ig_pool i) slot in
      let '(d, ok) := router_route hash config (ig_dispatch i) f in
      (i <| ig_dispatch := d |> <| ig_pump := PumpRouted ref |>
         <| ig_routed ::= λ l, l ++ [fr_payload f] |>, Some (f, ok))
    | None => (i <| ig_pump := PumpRouted ref |> <| ig_failures ::= Z.succ |>, None)
    end
  | PumpRouted ref =>
    let '(pool, ok) := release (ig_pool i) ref in
    (i <| ig_pool := pool |> <| ig_pump := PumpIdle |>
       <| ig_failures ::= λ n, if ok then n else Z.succ n |>, None)
  end.
End threads.

(** ** The system *)
Record market_data (W H : Type) := mkMarketData {
  md_feed : feed_state W unit;
  md_ingest : ingest_state;
  md_shards : list (Shard H);
  md_accepted : list RoutedEvent;
  md_popped : list (Z * RoutedEvent);
}.
Arguments mkMarketData {W H} _ _ _ _ _.
Arguments md_feed {W H} _.
Arguments md_ingest {W H} _.
Arguments md_shards {W H} _.
Arguments md_accepted {W H} _.
Arguments md_popped {W H} _.

#[export] Instance market_data_settable W H : Settable (market_data W H) := λ x,
  mkMarketData (md_feed x) (md_ingest x) (md_shards x) (md_accepted x) (md_popped x).

Section system.
Context `{SJ : SimdJson} {W A H : Type} `{!WsTransport W} `{!ExchangeWsAdapter A}.
Context `{HE : ShardEventHandler H}.
Context (adapter : A) (hash : string → Z) (moved_from : RoutedEvent → RoutedEvent).
Context (config : LivePipelineConfig) (factory : Z → option H).
Implicit Types (e : market_data W H).

(** The number of shards, and the routed event of a frame. *)
Definition shards_of : Z := router_shard_count (lc_shard_count config).
Definition event_of (f : RawFrame) : RoutedEvent :=
  routed_event hash (resolve_decoder (lc_decode_exchange config)) (lc_router_exchange config)
    shards_of f.

(** The state after the start of pipeline and feed. *)
Definition md_init (session : WsSession W) (channels : list string) : market_data W H :=
  mkMarketData (feed_start (feed_init session () channels)).1 (ingest_init config)
    ((λ k, (shard_start (shard_init k (factory k))).1) <$> seqZ 0 shards_of) [] [].

(** Which thread moves next, and what it reads of the outside: the clock, the random
    state and the files, or the network. *)
Inductive turn :=
  | TurnWorker (m : Moment)          (** the feed worker outside the sink *)
  | TurnSink (m : Moment) (ts : Z)   (** the feed worker inside the sink, and its return *)
  | TurnControl (feed : feed_state W unit)  (** stopping the feed, and the network *)
  | TurnPump                         (** the main thread *)
  | TurnShard (k : nat).             (** the worker of shard [k] *)

(** What a turn does; [None] when the thread cannot move. *)
Definition md_turn (t : turn) e : option (market_data W H) :=
  match t with
  | TurnWorker m =>
    match fs_pc (md_feed e) with
    | FeedPush _ => None
    | _ => if fr_worker (fs_runner (md_feed e))
           then Some (e <| md_feed ::= worker_step adapter m false |>) else None
    end
  | TurnSink m ts =>
    match fs_pc (md_feed e) with
    | FeedPush message =>
      let '(i, answer) := sink_step config message ts (md_ingest e) in
      let e := e <| md_ingest := i |> in
      Some (match answer with
            | None => e
            | Some answer => e <| md_feed ::= worker_step adapter m answer |>
            end)
    | _ => None
    end
  | TurnControl feed => Some (e <| md_feed := feed |>)
  | TurnPump =>
    let '(i, routed) := pump_step hash config (md_ingest e) in
    let e := e <| md_ingest := i |> in
    Some (match routed with
          | Some (f, true) => e <| md_accepted ::= λ l, l ++ [event_of f] |>
          | _ => e
          end)
  | TurnShard k =>
    match md_shards e !! k with
    | Some s =>
      let '(d, r) := sharded_try_pop moved_from (ig_dispatch (md_ingest e)) (sd_shard_id s) in
      if sd_worker s
      then Some (e <| md_ingest ::= λ i, i <| ig_dispatch := d |> |>
                   <| md_shards ::=
                        <[k := (shard_iteration moved_from s (ig_dispatch (md_ingest e))).1]> |>
                   <| md_popped ::= λ l, l ++ ((sd_shard_id s,.) <$> option_list r) |>)
      else None
    | None => None
    end
  end.

(** A step is a turn; what stopping and the network may do to the feed is [feed_step]. *)
Definition turn_ok (t : turn) e : Prop :=
  match t with
  | TurnControl feed => feed_step (R:=bool) adapter ByOther (md_feed e) feed
  | _ => True
  end.
Definition md_step e e' : Prop := ∃ t, turn_ok t e ∧ md_turn t e = Some e'.

(** Turns in sequence. *)
Fixpoint md_run (turns : list turn) e : option (market_data W H) :=
  match turns with
  | [] => Some e
  | t :: turns => e ← md_turn t e; md_run turns e
  end.
End system.

(** ** The threads are those of the ingest system *)
Section embedding.
Context `{SJ : SimdJson} (hash : string → Z) (config : LivePipelineConfig).
Implicit Types (i : ingest_state).

Lemma sink_step_ingest message ts i i' answer :
  sink_step config message ts i = (i', answer) → ingest_step hash config i i'.
Proof.
  unfold sink_step. destruct (ig_sink i) as [|ref m|ref m|ref] eqn:Hs.
  - destruct (acquire _ _) as [pool [ref|]] eqn:Ha; intros [= <- <-];
      [by eapply ingest_acquire|by eapply ingest_exhausted].
  - destruct (frame _ _) as [slot|] eqn:Hf; intros [= <- <-];
      [by eapply ingest_fill|by eapply ingest_null].
  - destruct (try_push _ _) as [queue []] eqn:Hq; intros [= <- <-];
      [by eapply ingest_push|by eapply ingest_full].
  - destruct (release _ _) as [pool ok] eqn:Hr. intros [= <- <-]. by eapply ingest_return.
Qed.

Lemma pump_step_ingest i i' routed :
  pump_step hash config i = (i', routed) → ingest_step hash config i i'.
Proof.
  unfold pump_step. destruct (ig_pump i) as [|ref|ref] eqn:Hp.
  - destruct (try_pop _ _) as [queue [ref|]] eqn:Hq; intros [= <- <-];
      [by eapply ingest_pop|by eapply ingest_empty].
  - destruct (frame _ _) as [slot|] eqn:Hf; [|intros [= <- <-]; by eapply ingest_route_null].
    destruct (router_route _ _ _ _) as [d ok] eqn:Hr. intros [= <- <-]. by eapply ingest_route.
  - destruct (release _ _) as [pool ok] eqn:Hr. intros [= <- <-]. by eapply ingest_release.
Qed.

(** The invariant of the ingest side does not depend on the queues of the shards. *)
Lemma ingest_inv_dispatch i d : ingest_inv i → ingest_inv (i <| ig_dispatch := d |>).
Proof. intros [H1 H2 H3 H4 H5]. by split. Qed.

(** Where the sink is in its call, given the message it was called with. *)
Definition sink_holds (message : option string) (s : sink_state) : Prop :=
  match s with
  | SinkIdle => True
  | SinkAcquired _ m | SinkFilled _ m => message = Some m
  | SinkRejected _ => is_Some message
  end.

Lemma sink_step_spec message ts i i' answer :
  sink_step config message ts i = (i', answer) → sink_holds (Some message) (ig_sink i) →
  sink_holds (match answer with None => Some message | Some _ => None end) (ig_sink i') ∧
  ig_accepted i' = ig_accepted i ++ (if answer is Some true then [message] else []) ∧
  ig_routed i' = ig_routed i ∧ ig_dispatch i' = ig_dispatch i.
Proof.
  unfold sink_step. intros Hstep Hm.
  destruct (ig_sink i) as [|ref m|ref m|ref] eqn:Hs; simpl in Hm;
    repeat case_match; simplify_eq/=; rewrite ?app_nil_r, ?Hs; by split_and!.
Qed.

Lemma pump_step_spec i i' routed :
  pump_step hash config i = (i', routed) →
  ig_sink i' = ig_sink i ∧ ig_accepted i' = ig_accepted i ∧
  match routed with
  | None => ig_routed i' = ig_routed i ∧ ig_dispatch i' = ig_dispatch i
  | Some (f, ok) =>
    ig_routed i' = ig_routed i ++ [fr_payload f] ∧
    router_route hash config (ig_dispatch i) f = (ig_dispatch i', ok)
  end.
Proof. unfold pump_step. intros. repeat case_match; simplify_eq/=; by split_and!. Qed.
End embedding.

(** ** The invariant of the system *)
Definition payload_of (r : RoutedEvent) : string := rd_raw_payload (rt_frame r).

Section system_invariant.
Context `{SJ : SimdJson} {W A H : Type} `{!WsTransport W} `{!ExchangeWsAdapter A}.
Context `{HE : ShardEventHandler H}.
Context (adapter : A) (hash : string → Z) (moved_from : RoutedEvent → RoutedEvent).
Context (config : LivePipelineConfig) (factory : Z → option H).
Context (channels : list string) (bound : Z).
Implicit Types (e : market_data W H).

Abbreviation n := (shards_of config).
Abbreviation md_step := (md_step (H:=H) adapter hash moved_from config).

(** What the feed worker has in hand, as the message of a running call. *)
Definition calling (pc : feed_pc) : option string :=
  match pc with FeedPush m => Some m | _ => None end.

Record md_inv e : Prop := {
  mi_feed : feed_inv channels (md_feed e);
  mi_ingest : ingest_inv (md_ingest e);
  mi_sink : sink_holds (calling (fs_pc (md_feed e))) (ig_sink (md_ingest e));
  mi_accepted : ig_accepted (md_ingest e) =
    (filter (λ p, p.2 = true) (pushed_of (fs_log (md_feed e)))).*1;
  mi_log : log_inv hash n bound
    (mkDispatchLog (ig_dispatch (md_ingest e)) (md_accepted e) (md_popped e));
  mi_routed : payload_of <$> md_accepted e `sublist_of` ig_routed (md_ingest e);
  mi_count : Z.of_nat (length (md_shards e)) = n;
  mi_shards k s : md_shards e !! k = Some s →
    sd_shard_id s = Z.of_nat k ∧
    sd_books s = store_run ∅ (omap parsed_event (popped_from (Z.of_nat k) (md_popped e)));
}.

Lemma shards_positive : 0 ≤ lc_shard_count config → 0 < n.
Proof. intros. unfold shards_of, router_shard_count, kMinShardCount. case_decide; lia. Qed.

Lemma shards_of_count : 0 ≤ lc_shard_count config → router_shard_count n = n.
Proof.
  intros Hs. pose proof (shards_positive Hs). unfold router_shard_count at 1.
  by rewrite decide_False by lia.
Qed.

Lemma md_inv_init session :
  0 ≤ lc_frame_pool_capacity config < 4294967296 →
  lc_frame_queue_capacity config < 18446744073709551616 →
  0 ≤ lc_shard_count config → lc_per_shard_queue_capacity config < 18446744073709551616 →
  bound = Z.max 2 (lc_per_shard_queue_capacity config) - 1 →
  md_inv (md_init (W:=W) config factory session channels).
Proof.
  intros Hp Hq Hs Hps Hb.
  destruct (sharded_dispatch_init_wf _ _ Hs Hps) as [Hwf Hnil].
  split; [|by apply ingest_init_inv|done|done| |done|..]; simpl.
  - split; try done. by intros [|] ? ?.
  - split; simpl; [rewrite Hb; exact Hwf|constructor| |constructor].
    intros k Hk. by rewrite Hnil.
  - rewrite length_fmap, length_seqZ. pose proof (shards_positive Hs). lia.
  - intros k s Hk. rewrite list_lookup_fmap in Hk.
    destruct (seqZ 0 n !! k) as [z|] eqn:Hz; simplify_eq/=.
    apply lookup_seqZ in Hz as [-> _]. done.
Qed.

(** *** The steps of the feed *)
Lemma worker_step_pushed m answer (s : feed_state W unit) :
  pushed_of (fs_log (worker_step adapter m answer s)) =
  pushed_of (fs_log s) ++ ((., answer) <$> in_hand (fs_pc s)).
Proof.
  unfold worker_step. destruct (fs_pc s) as [| |[|channel rest]| | |message| |]; simpl;
    rewrite ?app_nil_r; try done.
  - destruct (feed_connect _ _ _) as [r []]; simpl; by rewrite ?pushed_of_snoc, ?app_nil_r.
  - destruct (feed_subscribe _ _ _) as [r []]; simpl; by rewrite ?pushed_of_snoc, ?app_nil_r.
  - destruct (feed_recv _) as [r []]; simpl; by rewrite ?pushed_of_snoc, ?app_nil_r.
  - by rewrite pushed_of_snoc.
  - by rewrite pushed_of_snoc, app_nil_r.
Qed.

Lemma feed_other_same (s s' : feed_state W unit) :
  feed_step (R:=bool) adapter ByOther s s' → fs_pc s' = fs_pc s ∧ fs_log s' = fs_log s.
Proof. inversion 1; by subst. Qed.

Lemma accepted_snoc (l : list (string * bool)) message answer :
  (filter (λ p, p.2 = true) (l ++ [(message, answer)])).*1 =
  (filter (λ p, p.2 = true) l).*1 ++ (if answer then [message] else []).
Proof. rewrite filter_app, fmap_app, filter_cons, filter_nil. by destruct answer. Qed.

Lemma sink_idle_outside pc s message :
  in_hand pc = [] → sink_holds (calling pc) s → sink_holds message s.
Proof. destruct pc; try done; destruct s; simpl; try done; by intros _ []. Qed.

(** *** Preservation, a part of the system at a time *)
Lemma md_inv_feed e feed :
  md_inv e → feed_inv channels feed → in_hand (fs_pc (md_feed e)) = [] →
  pushed_of (fs_log feed) = pushed_of (fs_log (md_feed e)) →
  md_inv (e <| md_feed := feed |>).
Proof.
  intros [H1 H2 H3 H4 H5 H6 H7 H8] Hfeed Hpc Hpush. split; simpl; try done.
  - by eapply sink_idle_outside.
  - by rewrite Hpush.
Qed.

Lemma md_inv_control e feed :
  md_inv e → feed_step (R:=bool) adapter ByOther (md_feed e) feed →
  md_inv (e <| md_feed := feed |>).
Proof.
  intros [H1 H2 H3 H4 H5 H6 H7 H8] Hstep.
  destruct (feed_other_same _ _ Hstep) as [Hpc Hlog].
  split; simpl; rewrite ?Hpc, ?Hlog; try done. by eapply feed_step_inv.
Qed.

Lemma md_inv_sink e message ts i answer feed :
  md_inv e → fs_pc (md_feed e) = FeedPush message →
  sink_step config message ts (md_ingest e) = (i, answer) → feed_inv channels feed →
  match answer with
  | None => feed = md_feed e
  | Some b => fs_pc feed = FeedInner ∧
      pushed_of (fs_log feed) = pushed_of (fs_log (md_feed e)) ++ [(message, b)]
  end →
  md_inv (e <| md_ingest := i |> <| md_feed := feed |>).
Proof.
  intros [H1 H2 H3 H4 H5 H6 H7 H8] Hpc Hstep Hfeed Hans. rewrite Hpc in H3.
  destruct (sink_step_spec _ _ _ _ _ _ Hstep H3) as (Hs & Ha & Hr & Hd).
  split; simpl; rewrite ?Ha, ?Hr, ?Hd; try done.
  - eapply (ingest_step_inv hash config); [by eapply sink_step_ingest|done].
  - destruct answer; [by destruct Hans as [-> _]|subst feed; by rewrite Hpc].
  - destruct answer as [b|]; [|subst feed; by rewrite app_nil_r].
    destruct Hans as [_ ->]. rewrite accepted_snoc, H4. by destruct b.
Qed.

Lemma md_inv_pump e i :
  md_inv e → pump_step hash config (md_ingest e) = (i, None) → md_inv (e <| md_ingest := i |>).
Proof.
  intros [H1 H2 H3 H4 H5 H6 H7 H8] Hstep.
  destruct (pump_step_spec _ _ _ _ _ Hstep) as (Hs & Ha & Hr & Hd).
  split; simpl; rewrite ?Hs, ?Ha, ?Hr, ?Hd; try done.
  eapply (ingest_step_inv hash config); [by eapply pump_step_ingest|done].
Qed.

Lemma md_inv_route e i f ok :
  0 ≤ lc_shard_count config → md_inv e →
  pump_step hash config (md_ingest e) = (i, Some (f, ok)) →
  md_inv (e <| md_ingest := i |>
            <| md_accepted ::= λ l, if ok then l ++ [event_of hash config f] else l |>).
Proof.
  intros Hc [H1 H2 H3 H4 H5 H6 H7 H8] Hstep.
  destruct (pump_step_spec _ _ _ _ _ Hstep) as (Hs & Ha & Hr & Hroute).
  split; simpl; rewrite ?Hs, ?Ha, ?Hr; try done.
  - eapply (ingest_step_inv hash config); [by eapply pump_step_ingest|done].
  - pose proof (dispatch_step_inv hash moved_from (resolve_decoder (lc_decode_exchange config))
      (lc_router_exchange config) n bound _ (RouteFrame f) (shards_positive Hc) I H5) as Hlog.
    destruct (li_wf _ _ _ _ H5) as [Hn _].
    simpl in Hlog, Hn. unfold router_route in Hroute.
    rewrite Hn, shards_of_count in Hroute by done.
    by rewrite Hroute in Hlog.
  - destruct ok; [|by apply sublist_inserts_r].
    rewrite fmap_app. by apply sublist_app.
Qed.

Lemma md_inv_shard e k s d r :
  0 ≤ lc_shard_count config → md_inv e → md_shards e !! k = Some s →
  sharded_try_pop moved_from (ig_dispatch (md_ingest e)) (sd_shard_id s) = (d, r) →
  md_inv (e <| md_ingest ::= λ i, i <| ig_dispatch := d |> |>
            <| md_shards ::=
                 <[k := (shard_iteration moved_from s (ig_dispatch (md_ingest e))).1]> |>
            <| md_popped ::= λ l, l ++ ((sd_shard_id s,.) <$> option_list r) |>).
Proof.
  intros Hc [H1 H2 H3 H4 H5 H6 H7 H8] Hk Hpop. destruct (H8 k s Hk) as [Hid Hbooks].
  pose proof (lookup_lt_Some _ _ _ Hk) as Hlt.
  split; simpl; try done.
  - by apply ingest_inv_dispatch.
  - pose proof (dispatch_step_inv hash moved_from (resolve_decoder (lc_decode_exchange config))
      (lc_router_exchange config) n bound _ (PopShard (sd_shard_id s)) (shards_positive Hc)
      ltac:(simpl; lia) H5) as Hlog.
    simpl in Hlog. by rewrite Hpop in Hlog.
  - by rewrite length_insert.
  - intros j s' Hj. rewrite popped_from_app, popped_from_one, Hid.
    destruct (decide (j = k)) as [->|Hne].
    + rewrite list_lookup_insert_eq in Hj by done. injection Hj as <-.
      rewrite decide_True by done. unfold shard_iteration. rewrite Hpop.
      destruct r as [routed|]; simpl; [|by rewrite app_nil_r].
      destruct (shard_process_spec s routed) as (Hid' & _ & Hspec). split; [congruence|].
      rewrite omap_app. cbn [omap list_omap].
      destruct (parsed_event routed) as [ev|].
      * destruct Hspec as [-> _]. by rewrite store_run_snoc, <-Hbooks.
      * destruct Hspec as [-> _]. by rewrite app_nil_r.
    + rewrite list_lookup_insert_ne in Hj by done.
      rewrite decide_False, app_nil_r by lia. by apply H8.
Qed.

Lemma md_inv_worker e m :
  md_inv e → in_hand (fs_pc (md_feed e)) = [] →
  md_inv (e <| md_feed ::= worker_step adapter m false |>).
Proof.
  intros Hinv Hpc. apply (md_inv_feed e (worker_step adapter m false (md_feed e))); try done.
  - by apply worker_step_inv, mi_feed.
  - by rewrite worker_step_pushed, Hpc, app_nil_r.
Qed.

Lemma md_inv_return e message ts i m answer :
  md_inv e → fs_pc (md_feed e) = FeedPush message →
  sink_step config message ts (md_ingest e) = (i, Some answer) →
  md_inv (e <| md_ingest := i |> <| md_feed ::= worker_step adapter m answer |>).
Proof.
  intros Hinv Hpc Hs.
  apply (md_inv_sink e message ts i (Some answer) (worker_step adapter m answer (md_feed e)));
    try done.
  - by apply worker_step_inv, mi_feed.
  - rewrite worker_step_pushed, Hpc. split; [|done]. unfold worker_step. by rewrite Hpc.
Qed.

Lemma md_step_inv e e' : 0 ≤ lc_shard_count config → md_step e e' → md_inv e → md_inv e'.
Proof.
  intros Hc ([m|m ts|feed| |k] & Hok & Ht) Hinv; simpl in Hok, Ht.
  - destruct (fs_pc (md_feed e)) eqn:Hpc; try done;
      (case_match; [|done]); injection Ht as <-; apply md_inv_worker; by rewrite ?Hpc.
  - destruct (fs_pc (md_feed e)) as [| | | | |message| |] eqn:Hpc; try done.
    destruct (sink_step _ _ _ _) as [i [answer|]] eqn:Hs; injection Ht as <-.
    + by eapply md_inv_return.
    + by apply (md_inv_sink e message ts i None (md_feed e)); try apply (mi_feed _ Hinv).
  - injection Ht as <-. by apply md_inv_control.
  - destruct (pump_step _ _ _) as [i [[f ok]|]] eqn:Hp; [|injection Ht as <-; by apply md_inv_pump].
    pose proof (md_inv_route e i f ok Hc Hinv Hp) as Hr. by destruct ok; injection Ht as <-.
  - destruct (md_shards e !! k) as [s|] eqn:Hk; [|done].
    destruct (sharded_try_pop _ _ _) as [d r] eqn:Hpop. case_match; [|done].
    injection Ht as <-. by apply md_inv_shard.
Qed.
End system_invariant.

(** ** From the socket to the books *)
Section end_to_end.
Context `{SJ : SimdJson} {W A H : Type} `{!WsTransport W} `{!ExchangeWsAdapter A}.
Context `{HE : ShardEventHandler H}.
Context (adapter : A) (hash : string → Z) (moved_from : RoutedEvent → RoutedEvent).
Context (config : LivePipelineConfig) (factory : Z → option H).
Context (session : WsSession W) (channels : list string).
Implicit Types (e : market_data W H).

Abbreviation n := (shards_of config).
Abbreviation md_step := (md_step (H:=H) adapter hash moved_from config).

(** The sizes the constructors of the pipeline are given are of their types. *)
Definition sizes_ok : Prop :=
  0 ≤ lc_frame_pool_capacity config < 4294967296 ∧
  lc_frame_queue_capacity config < 18446744073709551616 ∧
  0 ≤ lc_shard_count config ∧
  lc_per_shard_queue_capacity config < 18446744073709551616.

Lemma md_reachable_inv e :
  sizes_ok → rtc md_step (md_init config factory session channels) e →
  md_inv hash config channels (Z.max 2 (lc_per_shard_queue_capacity config) - 1) e.
Proof.
  intros (Hp & Hq & Hs & Hps).
  apply (rtc_ind_r (md_inv hash config channels _)); [by apply md_inv_init|].
  intros e1 e2 _ Hstep Hinv. by eapply md_step_inv.
Qed.

(** The payloads of the accepted events are received messages, in their order. *)
Lemma accepted_received bound e :
  md_inv hash config channels bound e →
  payload_of <$> md_accepted e `sublist_of` received_of (fs_log (md_feed e)).
Proof.
  intros [Hf Hi _ Ha _ Hr _ _]. etransitivity; [exact Hr|].
  rewrite (fi_handed _ _ Hf). apply sublist_inserts_r.
  transitivity (ig_accepted (md_ingest e)).
  - rewrite (ii_order _ Hi). by apply sublist_inserts_r.
  - rewrite Ha. by apply fmap_sublist, sublist_filter.
Qed.

(** C5: From the socket to the books.  For every interleaving of the feed worker with its
    calls on the sink, the pump, the shard workers, the stopping of the feed and the
    network: the shard a market is assigned to keeps for it exactly the book that results
    from applying, in order and to an empty book, the parsed events of that market the
    shard has popped; these are the first of the events of the market the router
    accepted, the others being queued for that shard; and the payloads of the accepted
    events are messages the feed received, each at most once and in the order they came
    from the socket. *)
Theorem market_data_end_to_end e t :
  sizes_ok → rtc md_step (md_init config factory session channels) e → t ≠ "" →
  let k := compute_shard_id hash t n in
  ∃ s feed,
    md_shards e !! Z.to_nat k = Some s ∧
    book_of (sd_books s) t = book_run (new_book t) (omap parsed_event feed) ∧
    filter (of_ticker t) (md_accepted e) =
      feed ++ filter (of_ticker t) (shard_contents (ig_dispatch (md_ingest e)) k) ∧
    payload_of <$> md_accepted e `sublist_of` received_of (fs_log (md_feed e)).
Proof.
  intros Hok Hr Ht k. pose proof (md_reachable_inv e Hok Hr) as Hinv.
  pose proof (mi_log _ _ _ _ _ Hinv) as Hlog. pose proof (mi_count _ _ _ _ _ Hinv) as Hcount.
  assert (0 < n) as Hn by (apply shards_positive, Hok).
  pose proof (compute_shard_id_range hash t n Hn) as Hk. fold k in Hk.
  destruct (lookup_lt_is_Some_2 (md_shards e) (Z.to_nat k)) as [s Hs]; [lia|].
  destruct (mi_shards _ _ _ _ _ Hinv _ _ Hs) as [_ Hbooks]. rewrite Z2Nat.id in Hbooks by lia.
  exists s, (filter (of_ticker t) (popped_from k (md_popped e))). split_and!; [done| | |].
  - rewrite Hbooks, store_run_book by done.
    rewrite (omap_parsed_filter hash n); [done|]. by apply (popped_ok _ _ _ _ _ Hlog).
  - by apply (market_feed _ _ _ _ t Hn Hlog).
  - by eapply accepted_received.
Qed.
End end_to_end.

(** ** A concrete run *)
Section concrete_run.
Context `{SJ : SimdJson} {W A H : Type} `{!WsTransport W} `{!ExchangeWsAdapter A}.
Context `{HE : ShardEventHandler H}.
Context (adapter : A) (hash : string → Z) (moved_from : RoutedEvent → RoutedEvent).
Context (config : LivePipelineConfig).

Lemma md_run_rtc turns (e e' : market_data W H) :
  Forall (λ t, ∀ e : market_data W H, turn_ok adapter t e) turns →
  md_run adapter hash moved_from config turns e = Some e' →
  rtc (md_step adapter hash moved_from config) e e'.
Proof.
  intros Hok. revert e. induction Hok as [|t turns Ht _ IH]; simpl; intros e He.
  { simplify_eq. constructor. }
  apply bind_Some in He as (e1 & He1 & He). eapply rtc_l; [|by apply IH].
  by exists t.
Qed.
End concrete_run.

(** A transport whose every message is the text ["delta"]. *)
#[local] Instance delta_ws_transport : WsTransport unit := {|
  ws_connect w _ := (w, true);
  ws_send_text w _ := (w, true);
  ws_recv_text w := (w, Some "delta");
  ws_close w := w;
  ws_last_error _ := "";
|}.

(** Connect, subscribe, receive; push; pump; apply; and receive once more. *)
Definition demo_turns : list (turn (W:=unit)) :=
  replicate 6 (TurnWorker demo_moment) ++ replicate 3 (TurnSink demo_moment 99) ++
  replicate 3 TurnPump ++ [TurnShard 1] ++ replicate 2 (TurnWorker demo_moment).

Definition demo_start : market_data unit (list EventType) :=
  md_init demo_config (λ _, Some []) (session_init ()) ["trade"].

Definition demo_market : option (market_data unit (list EventType)) :=
  @md_run demo_reader _ _ _ _ _ list_handler demo_adapter demo_hash (λ e, e) demo_config
    demo_turns demo_start.

Lemma demo_market_run e :
  demo_market = Some e →
  rtc (@md_step demo_reader _ _ _ _ _ list_handler demo_adapter demo_hash (λ e, e) demo_config)
    demo_start e.
Proof.
  apply (@md_run_rtc demo_reader _ _ _ _ _ list_handler demo_adapter demo_hash (λ e, e)
    demo_config demo_turns). repeat constructor.
Qed.

Lemma demo_market_facts :
  (λ e, received_of (fs_log (md_feed e))) <$> demo_market = Some ["delta"; "delta"] ∧
  (λ e, filter (of_ticker "MKT") (shard_contents (ig_dispatch (md_ingest e)) 1))
    <$> demo_market = Some [] ∧
  (λ e, omap (@parsed_event demo_reader) (filter (of_ticker "MKT") (md_accepted e)))
    <$> demo_market = Some [demo_parsed].
Proof. vm_compute. split_and!; reflexivity. Qed.

Lemma market_data_end_to_end_witness :
  ∃ e s, demo_market = Some e ∧ md_shards e !! 1%nat = Some s ∧
    received_of (fs_log (md_feed e)) = ["delta"; "delta"] ∧
    book_of (sd_books s) "MKT" = book_run (new_book "MKT") [demo_parsed].
Proof.
  pose proof demo_market_run as Hrun. destruct demo_market_facts as (Hrec & Hq & Hacc).
  destruct demo_market as [e|]; [|discriminate Hrec].
  injection Hq as Hq. injection Hrec as Hrec. injection Hacc as Hacc.
  destruct (@market_data_end_to_end demo_reader _ _ _ _ _ list_handler demo_adapter demo_hash
    (λ e, e) demo_config (λ _, Some []) (session_init ()) ["trade"] e "MKT")
    as (s & feed & Hs & Hb & Hf & _).
  - unfold sizes_ok. simpl. lia.
  - exact (Hrun e eq_refl).
  - discriminate.
  - assert (compute_shard_id demo_hash "MKT" (shards_of demo_config) = 1) as Hk by reflexivity.
    rewrite Hk in Hs, Hf. rewrite Hq, app_nil_r in Hf. rewrite Hf in Hacc. rewrite Hacc in Hb.
    exists e, s. exact (conj eq_refl (conj Hs (conj Hrec Hb))).
Defined.
