(* ===== verification/Engine.v ===== *)
(** * The engine as one system

    The market data path of MarketData with the strategies behind its shards and the order
    manager they share, as src/cpp/apps/trader/main.cpp wires them: every shard worker
    hands the events it applied to its strategy and submits the intents the shard gate
    allows; the worker of the order manager takes them from the queue, and its ledger is
    what the shard gates read.

    The handler of a shard is the runner of Strategy, split at its shared accesses: the
    strategy runs when the event is handled ([emit]), the intents it returned are kept in
    [em_todo], and each of them is completed and evaluated against the ledger ([gate]),
    tracked by the order manager and pushed into its queue.  Between any two of these
    accesses the other threads may move.

    The ghost fields record, with the shard, the decisions of the gate together with the
    ledger they were made on, the intents the order manager accepted and the pushed ones. *)
From S2P Require Import Prelude.
From S2P Require Import Types.
From S2P Require Import RiskGates.
From S2P Require Import OrderManagerCore.
From S2P Require Import PositionLedger.
From S2P Require Import BookStore.
From S2P Require Import Simdjson.
From S2P Require Import KalshiParser.
From S2P Require Import Router.
From S2P Require Import Shard.
From S2P Require Import Pipeline.
From S2P Require Import Nlohmann.
From S2P Require Import OmsAdapter.
From S2P Require Import OrderTransport.
From S2P Require Import OrderManager.
From S2P Require Import PaperTrading.
From S2P Require Import Strategy.
From S2P Require Import AuthSigner.
From S2P Require Import WsFeed.
From S2P Require Import MarketData.

(** ** The handler of a shard *)

(** Where the worker is with the intent at hand: before its gate, before the call of
    [submit], or inside it, before the intent is queued. *)
Inductive intent_pc :=
  | PcNext
  | PcSubmit (intent : OrderIntent)
  | PcPush (pending : PendingIntent).

Record Emitter (S : Type) := mkEmitter {
  em_runner : StrategyRunner S;
  em_todo : list (NormalizedEvent * OrderIntent);
  em_pc : intent_pc;
}.
Arguments mkEmitter {S} _ _ _.
Arguments em_runner {S} _.
Arguments em_todo {S} _.
Arguments em_pc {S} _.

#[export] Instance Emitter_settable S : Settable (Emitter S) := λ x,
  mkEmitter (em_runner x) (em_todo x) (em_pc x).

(** The runner of a strategy, behind a market filter when the configuration names
    markets. *)
Record ShardHandler (S : Type) := mkShardHandler {
  hd_markets : option (gset string);
  hd_emitter : Emitter S;
}.
Arguments mkShardHandler {S} _ _.
Arguments hd_markets {S} _.
Arguments hd_emitter {S} _.

#[export] Instance ShardHandler_settable S : Settable (ShardHandler S) := λ x,
  mkShardHandler (hd_markets x) (hd_emitter x).

Definition handler_init {S} (markets : option (gset string)) (strategy : S) : ShardHandler S :=
  mkShardHandler markets (mkEmitter (runner_init strategy) [] PcNext).

Section handler.
Context {S : Type} `{!Strategy S} (shard_risk : ShardRiskConfig).
Implicit Types (m : Emitter S) (h : ShardHandler S).

(** [StrategyRunner::on_event] up to its loop. *)
Definition emit m (event : NormalizedEvent) : Emitter S * bool :=
  let r := (em_runner m) <| sr_stats ::= λ st, st <| srs_events_processed_count ::= u64_inc |> |> in
  match strategy_on_event (sr_strategy r) event with
  | (s, Err what) =>
    (m <| em_runner := r <| sr_strategy := s |>
            <| sr_stats ::= λ st, st <| srs_strategy_error_count ::= u64_inc |> |>
            <| sr_last_error := what |> |>, false)
  | (s, Ok intents) =>
    (m <| em_runner := r <| sr_strategy := s |> |> <| em_todo := (event,.) <$> intents |>, true)
  end.

#[export] Instance emitter_handler : ShardEventHandler (Emitter S) := {| on_event := emit |}.

#[export] Instance shard_handler : ShardEventHandler (ShardHandler S) := {|
  on_event h event :=
    match hd_markets h with
    | None => let '(m, ok) := emit (hd_emitter h) event in (h <| hd_emitter := m |>, ok)
    | Some markets =>
      let '(f, ok) := market_filter_on_event (mkMarketFilter markets (Some (hd_emitter h))) event in
      (h <| hd_emitter ::= λ m, default m (mf_delegate f) |>, ok)
    end;
|}.

(** The loop body up to [submit_intent]: the intent is completed, counted and evaluated
    against the ledger. *)
Definition ledger_decision (ledger : PositionLedger) (intent : OrderIntent) : ShardRiskDecision :=
  shard_evaluate shard_risk intent
    (ledger_shard_snapshot ledger (oi_exchange intent) (oi_market_ticker intent)).

Definition gate m (ledger : PositionLedger) (event : NormalizedEvent) (intent : OrderIntent)
    (todo : list (NormalizedEvent * OrderIntent)) : Emitter S :=
  let intent := complete_intent event intent in
  let r := (em_runner m) <| sr_stats ::= λ st, st <| srs_intents_emitted_count ::= u64_inc |> |> in
  let risk_decision := ledger_decision ledger intent in
  if negb (sd_allow risk_decision) then
    mkEmitter (r <| sr_stats ::= λ st, st <| srs_risk_reject_count ::= u64_inc |> |>
                 <| sr_last_error := sd_reason_message risk_decision |>) todo PcNext
  else mkEmitter r todo (PcSubmit intent).

(** [submit] refused the intent, tracked it, or has queued it. *)
Definition submitted m (result : option PendingIntent) (last_error : string) : Emitter S :=
  match result with
  | Some pending => m <| em_pc := PcPush pending |>
  | None =>
    m <| em_runner ::= λ r, r <| sr_stats ::= λ st, st <| srs_sink_reject_count ::= u64_inc |> |>
                              <| sr_last_error := last_error |> |>
      <| em_pc := PcNext |>
  end.
Definition pushed m : Emitter S :=
  m <| em_runner ::= λ r,
         r <| sr_stats ::= λ st, st <| srs_intents_submitted_count ::= u64_inc |> |> |>
    <| em_pc := PcNext |>.

Definition idle_handler h : Prop :=
  em_todo (hd_emitter h) = [] ∧ em_pc (hd_emitter h) = PcNext.
#[export] Instance idle_handler_dec h : Decision (idle_handler h).
Proof.
  refine (match em_todo (hd_emitter h) as t, em_pc (hd_emitter h) as p
            return Decision (t = [] ∧ p = PcNext) with
          | [], PcNext => left (conj eq_refl eq_refl)
          | _, _ => right _ end); abstract naive_solver.
Defined.
End handler.

(** ** The system *)
Record engine (W T S : Type) := mkEngine {
  eg_md : market_data W (ShardHandler S);
  eg_om : @om_system T PositionLedger;
  eg_gated : list (nat * (PositionLedger * OrderIntent));
  eg_accepted : list (nat * PendingIntent);
  eg_pushed : list (nat * PendingIntent);
}.
Arguments mkEngine {W T S} _ _ _ _ _.
Arguments eg_md {W T S} _.
Arguments eg_om {W T S} _.
Arguments eg_gated {W T S} _.
Arguments eg_accepted {W T S} _.
Arguments eg_pushed {W T S} _.

#[export] Instance engine_settable W T S : Settable (engine W T S) := λ x,
  mkEngine (eg_md x) (eg_om x) (eg_gated x) (eg_accepted x) (eg_pushed x).

(** The thread that moves. *)
Inductive engine_thread := ByMarketData | ByShard (k : nat) | ByOms | ByExchange.
#[export] Instance engine_thread_eq_dec : EqDecision engine_thread.
Proof. solve_decision. Defined.

Section system.
Context `{SJ : SimdJson} {W A T S : Type} `{!WsTransport W} `{!ExchangeWsAdapter A}.
Context `{!ExchangeOmsAdapter} `{!OrderTransport T} `{!Strategy S}.
Context (adapter : A) (hash : string → Z) (moved_from : RoutedEvent → RoutedEvent).
Context (config : LivePipelineConfig) (shard_risk : ShardRiskConfig).
(** the market filter and the strategy of a shard, or no handler *)
Context (factory : Z → option (option (gset string) * S)).
Implicit Types (e : engine W T S).

Definition engine_init (session : WsSession W) (channels : list string)
    (m : OrderManager T PositionLedger) : engine W T S :=
  mkEngine (md_init config (λ k, uncurry handler_init <$> factory k) session channels)
    (system_init m) [] [] [].

(** The handler of shard [k] with its worker running. *)
Definition handler_of e (k : nat) : option (ShardHandler S) :=
  md_shards (eg_md e) !! k ≫= sd_event_handler.

Definition set_emitter e (k : nat) (m : Emitter S) : engine W T S :=
  e <| eg_md ::= λ md, md <| md_shards ::=
    alter (λ s, s <| sd_event_handler ::= fmap (λ h, h <| hd_emitter := m |>) |>) k |> |>.

Definition ledger_of e : PositionLedger := om_sink (sy_om (eg_om e)).

(** The turn of the market data path that belongs to a thread; the worker of a shard
    pops its next event when it is done with the last one. *)
Definition turn_thread (t : turn (W:=W)) : engine_thread :=
  match t with TurnShard k => ByShard k | _ => ByMarketData end.
Definition turn_free (t : turn (W:=W)) e : Prop :=
  match t with
  | TurnShard k => ∀ h, handler_of e k = Some h → idle_handler h
  | _ => True
  end.

Inductive engine_step : engine_thread → engine W T S → engine W T S → Prop :=
  | eng_market e t md :
      turn_ok adapter t (eg_md e) → turn_free t e →
      md_turn adapter hash moved_from config t (eg_md e) = Some md →
      engine_step (turn_thread t) e (e <| eg_md := md |>)
  | eng_gate e k h event intent todo :
      handler_of e k = Some h → em_pc (hd_emitter h) = PcNext →
      em_todo (hd_emitter h) = (event, intent) :: todo →
      engine_step (ByShard k) e
        ((set_emitter e k (gate shard_risk (hd_emitter h) (ledger_of e) event intent todo))
           <| eg_gated ::= λ l, l ++ [(k, (ledger_of e, complete_intent event intent))] |>)
  | eng_submit e k h intent clock m r :
      handler_of e k = Some h → em_pc (hd_emitter h) = PcSubmit intent →
      submit_track (sy_om (eg_om e)) intent clock = (m, r) →
      engine_step (ByShard k) e
        ((set_emitter e k (submitted (hd_emitter h) r (om_last_error m)))
           <| eg_om ::= λ s, s <| sy_om := m |> <| sy_tracked ::= λ l, l ++ option_list r |>
                               <| sy_accepted ::= λ l, l ++ option_list r |> |>
           <| eg_accepted ::= λ l, l ++ ((k,.) <$> option_list r) |>)
  | eng_push e k h p l1 l2 :
      handler_of e k = Some h → em_pc (hd_emitter h) = PcPush p →
      sy_tracked (eg_om e) = l1 ++ p :: l2 →
      engine_step (ByShard k) e
        ((set_emitter e k (pushed (hd_emitter h)))
           <| eg_om ::= λ s, s <| sy_om ::= λ m, submit_push m p |> <| sy_tracked := l1 ++ l2 |>
                               <| sy_pushed ::= λ l, l ++ [p] |> |>
           <| eg_pushed ::= λ l, l ++ [(k, p)] |>)
  | eng_oms e s :
      worker_section (Some ledger_provider) (eg_om e) s →
      engine_step ByOms e (e <| eg_om := s |>)
  | eng_exchange e t :
      engine_step ByExchange e
        (e <| eg_om ::= λ s, s <| sy_om ::= λ m, m <| om_transport := t |> |> |>).

(** Runs, with the threads that took their steps. *)
Inductive engine_run : list engine_thread → engine W T S → engine W T S → Prop :=
  | engine_run_nil e : engine_run [] e e
  | engine_run_snoc l t e e' e'' :
      engine_run l e e' → engine_step t e' e'' → engine_run (l ++ [t]) e e''.
End system.

(** ** What a strategy decides over a feed *)
Section decisions.
Context {S : Type} `{!Strategy S}.

(** The state of a strategy after a feed, and the intents it returned, completed. *)
Fixpoint strategy_run (s : S) (events : list NormalizedEvent) : S * list OrderIntent :=
  match events with
  | [] => (s, [])
  | event :: events =>
    let '(s, decision) := strategy_on_event s event in
    let '(s, intents) := strategy_run s events in
    (s, (match decision with Ok intents => complete_intent event <$> intents | Err _ => [] end)
          ++ intents)
  end.

Lemma strategy_run_app s l1 l2 :
  strategy_run s (l1 ++ l2) =
    let '(s1, i1) := strategy_run s l1 in
    let '(s2, i2) := strategy_run s1 l2 in (s2, i1 ++ i2).
Proof.
  revert s. induction l1 as [|event l1 IH]; intros s; simpl.
  { by destruct (strategy_run s l2). }
  destruct (strategy_on_event s event) as [s1 decision]. rewrite IH.
  destruct (strategy_run s1 l1) as [s2 i1]. destruct (strategy_run s2 l2) as [s3 i2].
  by rewrite app_assoc.
Qed.

(** The events a handler passes to its strategy. *)
Definition heard (markets : option (gset string)) (event : NormalizedEvent) : Prop :=
  match markets with None => True | Some m => m = ∅ ∨ ne_market_ticker event ∈ m end.
#[export] Instance heard_dec markets event : Decision (heard markets event).
Proof. destruct markets; apply _. Defined.

Definition todo_intents (m : Emitter S) : list OrderIntent :=
  uncurry complete_intent <$> em_todo m.

(** Handling an event, on an idle handler. *)
Lemma shard_handler_spec (h : ShardHandler S) event :
  idle_handler h →
  let h' := (on_event h event).1 in
  let heard_events := if decide (heard (hd_markets h) event) then [event] else [] in
  hd_markets h' = hd_markets h ∧ em_pc (hd_emitter h') = PcNext ∧
  strategy_run (sr_strategy (em_runner (hd_emitter h))) heard_events =
    (sr_strategy (em_runner (hd_emitter h')), todo_intents (hd_emitter h')).
Proof.
  destruct h as [markets [r todo pc]]. intros [Htodo Hpc]. simpl in Htodo, Hpc. subst todo pc.
  assert (∀ m ok, emit (mkEmitter r [] PcNext) event = (m, ok) → em_pc m = PcNext ∧
    strategy_run (sr_strategy r) [event] = (sr_strategy (em_runner m), todo_intents m)) as Hemit.
  { intros m ok. unfold emit, todo_intents. simpl.
    destruct (strategy_on_event (sr_strategy r) event) as [s [intents|what]]; intros [= <- <-];
      simpl; [|done]. rewrite app_nil_r. split; [done|]. f_equal.
    rewrite <-list_fmap_compose. done. }
  simpl. destruct markets as [markets|]; simpl.
  - unfold market_filter_on_event. simpl. unfold heard.
    destruct (emit (mkEmitter r [] PcNext) event) as [m ok] eqn:Hm.
    destruct (decide (markets = ∅)) as [->|Hne].
    { simpl. rewrite decide_True by by left. by destruct (Hemit m ok eq_refl). }
    destruct (decide (ne_market_ticker event ∈ markets)) as [Hin|Hout]; simpl.
    { rewrite decide_True by by right. by destruct (Hemit m ok eq_refl). }
    rewrite decide_False by by intros [].
    done.
  - destruct (emit (mkEmitter r [] PcNext) event) as [m ok] eqn:Hm. simpl.
    by destruct (Hemit m ok eq_refl).
Qed.
End decisions.

(** ** Reading the record, a shard at a time *)
Definition by_shard {X} (k : nat) (l : list (nat * X)) : list X := snd <$> filter (λ p, p.1 = k) l.

Lemma by_shard_app {X} k (l1 l2 : list (nat * X)) :
  by_shard k (l1 ++ l2) = by_shard k l1 ++ by_shard k l2.
Proof. unfold by_shard. by rewrite filter_app, fmap_app. Qed.

Lemma by_shard_eq {X} k (l : list X) : by_shard k ((k,.) <$> l) = l.
Proof.
  unfold by_shard. induction l as [|x l IH]; [done|].
  rewrite fmap_cons, filter_cons, decide_True, fmap_cons, IH by done. done.
Qed.

Lemma by_shard_ne {X} j k (l : list X) : j ≠ k → by_shard k ((j,.) <$> l) = [].
Proof.
  intros Hne. unfold by_shard. induction l as [|x l IH]; [done|].
  by rewrite fmap_cons, filter_cons, decide_False.
Qed.

Lemma by_shard_one {X} j k (x : X) : by_shard k [(j, x)] = if decide (j = k) then [x] else [].
Proof. unfold by_shard. rewrite filter_cons, filter_nil. simpl. by case_decide. Qed.

(** The time stamp [submit] may fill in apart, the intent is the same. *)
Definition untimed (intent : OrderIntent) : OrderIntent := intent <| oi_intent_ts_ns := 0 |>.

Lemma submit_track_untimed `{!ExchangeOmsAdapter} {T E} (m m' : OrderManager T E) intent clock p :
  submit_track m intent clock = (m', Some p) → untimed (pi_intent p) = untimed intent.
Proof. unfold submit_track, submit_accept. intros Hs. repeat case_match; simplify_eq/=; done. Qed.

Lemma applied_events_snoc books es e :
  applied_events books (es ++ [e]) =
    applied_events books es ++ (if (store_apply (store_run books es) e).2 then [e] else []).
Proof.
  revert books. induction es as [|x es IH]; intros books; cbn [app applied_events].
  { change (store_run books []) with books. by destruct (store_apply books e) as [b []]. }
  rewrite store_run_cons. destruct (store_apply books x) as [b []]; cbn [fst]; by rewrite IH.
Qed.

(** ** The invariant of the engine *)
Section invariant.
Context `{SJ : SimdJson} {W A T S : Type} `{!WsTransport W} `{!ExchangeWsAdapter A}.
Context `{!ExchangeOmsAdapter} `{!OrderTransport T} `{!Strategy S}.
Context (adapter : A) (hash : string → Z) (moved_from : RoutedEvent → RoutedEvent).
Context (config : LivePipelineConfig) (shard_risk : ShardRiskConfig).
Context (factory : Z → option (option (gset string) * S)).
Context (channels : list string) (bound : Z) (m0 : OrderManager T PositionLedger).
Implicit Types (e : engine W T S).

Abbreviation engine_step := (engine_step adapter hash moved_from config shard_risk).
Abbreviation md_inv := (md_inv (H:=ShardHandler S) hash config channels bound).
Abbreviation om_step := (om_step (Some ledger_provider)).

(** The events shard [k] has applied to its books. *)
Definition applied_by e (k : nat) : list NormalizedEvent :=
  applied_events ∅ (omap parsed_event (popped_from (Z.of_nat k) (md_popped (eg_md e)))).

Definition allows (li : PositionLedger * OrderIntent) : Prop :=
  sd_allow (ledger_decision shard_risk li.1 li.2) = true.
#[export] Instance allows_dec li : Decision (allows li).
Proof. unfold allows. apply _. Defined.

(** The intents the gate of shard [k] let through, in order. *)
Definition offered_by e (k : nat) : list OrderIntent :=
  (filter allows (by_shard k (eg_gated e))).*2.

(** The intents given to [submit] so far, when the thread is at [pc]. *)
Definition offers_made (pc : intent_pc) (offered made : list OrderIntent) : Prop :=
  match pc with PcSubmit intent => offered = made ++ [intent] | _ => made = offered end.

Definition unpushed (pc : intent_pc) : list PendingIntent :=
  match pc with PcPush p => [p] | _ => [] end.

(** What shard [k] has done, for a handler built from [markets] and [s0]. *)
Record handler_inv e (k : nat) (markets : option (gset string)) (s0 : S) (h : ShardHandler S)
    : Prop := {
  hi_markets : hd_markets h = markets;
  hi_decisions : strategy_run s0 (filter (heard markets) (applied_by e k)) =
    (sr_strategy (em_runner (hd_emitter h)),
     (by_shard k (eg_gated e)).*2 ++ todo_intents (hd_emitter h));
  hi_pushed : by_shard k (eg_accepted e) =
    by_shard k (eg_pushed e) ++ unpushed (em_pc (hd_emitter h));
  hi_offers : ∃ made, offers_made (em_pc (hd_emitter h)) (offered_by e k) made ∧
    untimed ∘ pi_intent <$> by_shard k (eg_accepted e) `sublist_of` untimed <$> made;
}.

Definition thread_inv e (k : nat) (h : option (ShardHandler S)) : Prop :=
  match factory (Z.of_nat k), h with
  | Some (markets, s0), Some h => handler_inv e k markets s0 h
  | None, None => by_shard k (eg_pushed e) = []
  | _, _ => False
  end.

(** The intents the shards have tracked and not pushed. *)
Definition push_of (s : Shard (ShardHandler S)) : list PendingIntent :=
  match sd_event_handler s with Some h => unpushed (em_pc (hd_emitter h)) | None => [] end.

Record engine_inv e : Prop := {
  ei_md : md_inv (eg_md e);
  ei_om : rtc om_step (system_init m0) (eg_om e);
  ei_accepted : (eg_accepted e).*2 = sy_accepted (eg_om e);
  ei_pushed : (eg_pushed e).*2 = sy_pushed (eg_om e);
  ei_tracked : sy_tracked (eg_om e) ≡ₚ md_shards (eg_md e) ≫= push_of;
  ei_shards k s : md_shards (eg_md e) !! k = Some s → thread_inv e k (sd_event_handler s);
}.

Lemma bind_insert_perm {X Y} (f : X → list Y) (l : list X) k x y :
  l !! k = Some x → (<[k := y]> l ≫= f) ++ f x ≡ₚ (l ≫= f) ++ f y.
Proof.
  intros Hk. pose proof (lookup_lt_Some _ _ _ Hk) as Hlt.
  rewrite <-(take_drop_middle l k x Hk) at 2. rewrite insert_take_drop by done.
  rewrite !bind_app, !bind_cons. solve_Permutation.
Qed.

(** *** Steps of the market data path *)
Lemma md_turn_shards t (md md' : market_data W (ShardHandler S)) :
  md_turn adapter hash moved_from config t md = Some md' →
  match t with
  | TurnShard k =>
    ∃ s d r, md_shards md !! k = Some s ∧
      sharded_try_pop moved_from (Pipeline.ig_dispatch (md_ingest md)) (sd_shard_id s) = (d, r) ∧
      md_shards md' = <[k := match r with Some x => shard_process s x | None => s end]> (md_shards md) ∧
      md_popped md' = md_popped md ++ ((sd_shard_id s,.) <$> option_list r)
  | _ => md_shards md' = md_shards md ∧ md_popped md' = md_popped md
  end.
Proof.
  destruct t as [mo|mo ts|feed| |k]; simpl; intros Ht.
  - by repeat case_match; simplify_eq/=.
  - by repeat case_match; simplify_eq/=.
  - by simplify_eq/=.
  - by repeat case_match; simplify_eq/=.
  - destruct (md_shards md !! k) as [s|] eqn:Hk; [|done].
    destruct (sharded_try_pop _ _ _) as [d r] eqn:Hpop.
    destruct (sd_worker s); [|done]. injection Ht as <-. exists s, d, r.
    split; [done|]. split; [done|]. split; [|done].
    simpl. unfold shard_iteration. rewrite Hpop. by destruct r.
Qed.

(** The record of a shard, and what its invariant depends on. *)
Definition same_record e e' (k : nat) : Prop :=
  by_shard k (eg_gated e') = by_shard k (eg_gated e) ∧
  by_shard k (eg_accepted e') = by_shard k (eg_accepted e) ∧
  by_shard k (eg_pushed e') = by_shard k (eg_pushed e).

Lemma thread_inv_frame e e' k h :
  same_record e e' k → applied_by e' k = applied_by e k → thread_inv e k h → thread_inv e' k h.
Proof.
  intros (Hg & Ha & Hp) Happ. unfold thread_inv.
  destruct (factory (Z.of_nat k)) as [[markets s0]|], h as [h|]; rewrite ?Hp; try done.
  intros [H1 H2 H3 H4]. by split; unfold offered_by in *; rewrite ?Happ, ?Hg, ?Ha, ?Hp.
Qed.

Lemma handler_inv_event e e' k markets s0 h event :
  same_record e e' k → idle_handler h → handler_inv e k markets s0 h →
  applied_by e' k = applied_by e k ++ [event] →
  handler_inv e' k markets s0 (on_event h event).1.
Proof.
  intros (Hg & Ha & Hp) Hidle [H1 H2 H3 H4] Happ.
  destruct (shard_handler_spec h event Hidle) as (Hm & Hpc & Hrun).
  destruct Hidle as [Htodo Hpc0]. rewrite Hpc0 in H3, H4.
  split; unfold offered_by in *; rewrite ?Hpc, ?Hg, ?Ha, ?Hp; try done.
  - by rewrite Hm.
  - rewrite Happ, filter_app, strategy_run_app, H2.
    rewrite filter_cons, filter_nil, <-H1, Hrun. unfold todo_intents at 1. rewrite Htodo.
    simpl. by rewrite app_nil_r.
Qed.

(** The pop of shard [k], as the events it adds to those of each shard. *)
Lemma applied_by_pop e e' k s r j :
  md_inv (eg_md e) → md_shards (eg_md e) !! k = Some s →
  md_popped (eg_md e') = md_popped (eg_md e) ++ ((sd_shard_id s,.) <$> option_list r) →
  applied_by e' j = applied_by e j ++
    (if decide (k = j) then
       match r ≫= parsed_event with
       | Some event => if (store_apply (sd_books s) event).2 then [event] else []
       | None => []
       end
     else []).
Proof.
  intros Hmd Hk Hpop. destruct (mi_shards _ _ _ _ _ Hmd _ _ Hk) as [Hid Hbooks].
  unfold applied_by. rewrite Hpop, popped_from_app, popped_from_one, Hid.
  destruct (decide (k = j)) as [<-|Hne].
  - rewrite decide_True by done. destruct r as [x|]; simpl; [|by rewrite !app_nil_r].
    rewrite omap_app. cbn [omap list_omap].
    destruct (parsed_event x) as [event|]; simpl; [|by rewrite !app_nil_r].
    by rewrite applied_events_snoc, Hbooks.
  - by rewrite decide_False, !app_nil_r by lia.
Qed.

Lemma shard_process_thread e e' k s x :
  engine_inv e → md_shards (eg_md e) !! k = Some s → same_record e e' k →
  md_popped (eg_md e') = md_popped (eg_md e) ++ [(sd_shard_id s, x)] →
  (∀ h, sd_event_handler s = Some h → idle_handler h) →
  thread_inv e' k (sd_event_handler (shard_process s x)) ∧ push_of (shard_process s x) = push_of s.
Proof.
  intros Hinv Hk Hsame Hpop Hidle. pose proof (ei_shards _ Hinv _ _ Hk) as Ht.
  pose proof (applied_by_pop e e' k s (Some x) k (ei_md _ Hinv) Hk Hpop) as Happ.
  rewrite decide_True in Happ by done. simpl in Happ.
  destruct (shard_process_spec s x) as (_ & _ & Hspec). unfold push_of.
  destruct (parsed_event x) as [event|].
  - destruct Hspec as (_ & _ & Hspec).
    destruct (store_apply (sd_books s) event).2; destruct Hspec as (-> & _).
    + unfold thread_inv in *. destruct (sd_event_handler s) as [h|] eqn:Hh;
        cbn [fmap option_fmap option_map].
      * specialize (Hidle h eq_refl). split.
        -- destruct (factory (Z.of_nat k)) as [[markets s0]|]; [|done].
           by eapply handler_inv_event.
        -- destruct (shard_handler_spec h event Hidle) as (_ & -> & _).
           by destruct Hidle as [_ ->].
      * split; [|done]. destruct Hsame as (_ & _ & Hp).
        destruct (factory (Z.of_nat k)) as [[markets s0]|]; [done|]. by rewrite Hp.
    + split; [|done]. rewrite app_nil_r in Happ. by eapply thread_inv_frame.
  - destruct Hspec as (_ & -> & _). split; [|done].
    rewrite app_nil_r in Happ. by eapply thread_inv_frame.
Qed.

Lemma engine_market_inv e t md :
  0 ≤ lc_shard_count config → turn_ok adapter t (eg_md e) → turn_free t e →
  md_turn adapter hash moved_from config t (eg_md e) = Some md →
  engine_inv e → engine_inv (e <| eg_md := md |>).
Proof.
  intros Hc Hok Hfree Ht Hinv.
  set (e' := mkEngine md (eg_om e) (eg_gated e) (eg_accepted e) (eg_pushed e)).
  change (engine_inv e').
  assert (md_inv md) as Hmd.
  { eapply (md_step_inv adapter hash moved_from); [done|by exists t|apply Hinv]. }
  pose proof (md_turn_shards _ _ _ Ht) as Hsh. pose proof Hinv as [H1 H2 H3 H4 H5 H6].
  destruct t as [mo|mo ts|feed| |k];
    try (destruct Hsh as [Hs Hp]; split; simpl; rewrite ?Hs; try done; intros j s Hj;
         apply (thread_inv_frame e); [done|unfold applied_by; simpl; by rewrite Hp|by apply H6]).
  destruct Hsh as (s & d & r & Hk & Hpop & Hs & Hp).
  assert (∀ h, sd_event_handler s = Some h → idle_handler h) as Hidle.
  { intros h Hh. apply Hfree. unfold handler_of. by rewrite Hk. }
  pose proof (λ x Hp, shard_process_thread e e' k s x Hinv Hk
    (conj eq_refl (conj eq_refl eq_refl)) Hp Hidle) as Hproc.
  assert (push_of (match r with Some x => shard_process s x | None => s end) = push_of s) as Hpush.
  { destruct r as [x|]; [|done]. exact (proj2 (Hproc x Hp)). }
  split; simpl; try done.
  - rewrite H5, Hs. apply (Permutation_app_inv_r (push_of s)).
    pose proof (bind_insert_perm push_of _ _ _
      (match r with Some x => shard_process s x | None => s end) Hk) as Hperm.
    by rewrite Hperm, Hpush.
  - intros j s' Hj. rewrite Hs in Hj. destruct (decide (k = j)) as [<-|Hne].
    + rewrite list_lookup_insert_eq in Hj by (by eapply lookup_lt_Some). injection Hj as <-.
      destruct r as [x|].
      * exact (proj1 (Hproc x Hp)).
      * apply (thread_inv_frame e); [done| |by apply H6].
        rewrite (applied_by_pop e e' k s None k H1 Hk Hp).
        by rewrite decide_True, app_nil_r by done.
    + rewrite list_lookup_insert_ne in Hj by done.
      apply (thread_inv_frame e); [done| |by apply H6].
      rewrite (applied_by_pop e e' k s r j H1 Hk Hp).
      by rewrite decide_False, app_nil_r by done.
Qed.

(** *** Steps of a shard worker in its handler *)
Lemma handler_of_shard e k h :
  handler_of e k = Some h →
  ∃ s, md_shards (eg_md e) !! k = Some s ∧ sd_event_handler s = Some h ∧
  ∀ m, md_shards (eg_md (set_emitter e k m)) =
    <[k := s <| sd_event_handler := Some (h <| hd_emitter := m |>) |>]> (md_shards (eg_md e)).
Proof.
  unfold handler_of. intros Hh. destruct (md_shards (eg_md e) !! k) as [s|] eqn:Hk; [|done].
  simpl in Hh. exists s. split_and!; [done..|]. intros m. simpl.
  rewrite list_insert_alter. apply (list_alter_ext _ _ _ _ k); [|done].
  intros s' Hs'. rewrite Hk in Hs'. injection Hs' as <-. simpl. by rewrite Hh.
Qed.

Lemma md_inv_handler (md : market_data W (ShardHandler S)) k s handler :
  md_shards md !! k = Some s → md_inv md →
  md_inv (md <| md_shards ::= <[k := s <| sd_event_handler := handler |>]> |>).
Proof.
  intros Hk [H1 H2 H3 H4 H5 H6 H7 H8]. split; simpl; try done.
  - by rewrite length_insert.
  - intros j s' Hj. destruct (decide (k = j)) as [<-|Hne].
    + rewrite list_lookup_insert_eq in Hj by (by eapply lookup_lt_Some). injection Hj as <-.
      exact (H8 k s Hk).
    + rewrite list_lookup_insert_ne in Hj by done. by apply H8.
Qed.

(** A step of shard [k]: its handler moves to [m], the rest of the record is that of other
    shards. *)
Lemma engine_thread_inv e e' k h m :
  engine_inv e → handler_of e k = Some h → eg_md e' = eg_md (set_emitter e k m) →
  rtc om_step (eg_om e) (eg_om e') →
  (eg_accepted e').*2 = sy_accepted (eg_om e') → (eg_pushed e').*2 = sy_pushed (eg_om e') →
  sy_tracked (eg_om e') ++ unpushed (em_pc (hd_emitter h)) ≡ₚ
    sy_tracked (eg_om e) ++ unpushed (em_pc m) →
  (∀ j, j ≠ k → same_record e e' j) →
  (∀ markets s0, handler_inv e k markets s0 h →
     applied_by e' k = applied_by e k → handler_inv e' k markets s0 (h <| hd_emitter := m |>)) →
  engine_inv e'.
Proof.
  intros [H1 H2 H3 H4 H5 H6] Hh Hmd Hom Ha Hp Htr Hother Hself.
  destruct (handler_of_shard e k h Hh) as (s & Hk & Hs & Hset). specialize (Hset m).
  assert (∀ j, applied_by e' j = applied_by e j) as Happ.
  { intros j. unfold applied_by. by rewrite Hmd. }
  split; [|by etrans|done|done|..].
  - rewrite Hmd. apply (md_inv_handler (eg_md e) k s (Some (h <| hd_emitter := m |>)) Hk) in H1.
    simpl in H1, Hset |- *. by rewrite Hset.
  - rewrite Hmd, Hset. apply (Permutation_app_inv_r (push_of s)).
    rewrite (bind_insert_perm push_of _ _ _ _ Hk), <-H5. unfold push_of. simpl.
    by rewrite Hs, Htr.
  - rewrite Hmd, Hset. intros j s' Hj. destruct (decide (k = j)) as [<-|Hne].
    + rewrite list_lookup_insert_eq in Hj by (by eapply lookup_lt_Some). injection Hj as <-.
      specialize (H6 k s Hk). rewrite Hs in H6. unfold thread_inv in *. simpl.
      destruct (factory (Z.of_nat k)) as [[markets s0]|]; [|done]. auto.
    + rewrite list_lookup_insert_ne in Hj by done. apply (thread_inv_frame e); auto.
Qed.

Lemma sublist_snoc_both {X} (l1 l2 : list X) x : l1 `sublist_of` l2 → l1 ++ [x] `sublist_of` l2 ++ [x].
Proof. intros. by apply sublist_app. Qed.

Lemma engine_gate_inv e k h event intent todo :
  engine_inv e → handler_of e k = Some h → em_pc (hd_emitter h) = PcNext →
  em_todo (hd_emitter h) = (event, intent) :: todo →
  engine_inv ((set_emitter e k (gate shard_risk (hd_emitter h) (ledger_of e) event intent todo))
    <| eg_gated ::= λ l, l ++ [(k, (ledger_of e, complete_intent event intent))] |>).
Proof.
  intros Hinv Hh Hpc Htodo.
  eapply (engine_thread_inv e _ k h); [done|done|reflexivity|done|apply Hinv|apply Hinv|..].
  - rewrite Hpc. unfold gate. by destruct (negb _).
  - intros j Hj. split_and!; simpl; try done.
    by rewrite by_shard_app, by_shard_one, decide_False, app_nil_r.
  - intros markets s0 [H1 H2 H3 H4] Happ. rewrite Hpc in H3, H4. simpl in H4.
    destruct H4 as (made & -> & Hsub).
    assert (∀ x, by_shard k (eg_gated e ++ [(k, x)]) = by_shard k (eg_gated e) ++ [x]) as Hg.
    { intros x. by rewrite by_shard_app, by_shard_one, decide_True. }
    split; rewrite ?Happ; simpl.
    + done.
    + rewrite H2, Hg, fmap_app. unfold todo_intents, gate. rewrite Htodo. simpl.
      rewrite <-app_assoc. by destruct (negb _).
    + unfold gate. by destruct (negb _).
    + unfold offered_by in *. simpl. rewrite Hg, filter_app, filter_cons, filter_nil, fmap_app.
      unfold gate. destruct (decide _) as [Hal|Hal]; unfold allows in Hal; simpl in Hal.
      * rewrite Hal. simpl. by eexists.
      * apply not_true_is_false in Hal. rewrite Hal. simpl. rewrite app_nil_r. by eexists.
Qed.

Lemma engine_submit_inv e k h intent clock m r :
  engine_inv e → handler_of e k = Some h → em_pc (hd_emitter h) = PcSubmit intent →
  submit_track (sy_om (eg_om e)) intent clock = (m, r) →
  engine_inv ((set_emitter e k (submitted (hd_emitter h) r (om_last_error m)))
    <| eg_om ::= λ s, s <| sy_om := m |> <| sy_tracked ::= λ l, l ++ option_list r |>
                        <| sy_accepted ::= λ l, l ++ option_list r |> |>
    <| eg_accepted ::= λ l, l ++ ((k,.) <$> option_list r) |>).
Proof.
  intros Hinv Hh Hpc Hsub. eapply (engine_thread_inv e _ k h); [done|done|reflexivity|..].
  - eapply rtc_once, (step_submit _ (eg_om e)), Hsub.
  - simpl. rewrite fmap_app, (ei_accepted _ Hinv). by destruct r.
  - apply Hinv.
  - rewrite Hpc. by destruct r; simpl; rewrite ?app_nil_r.
  - intros j Hj. split_and!; simpl; try done. by rewrite by_shard_app, by_shard_ne, app_nil_r.
  - intros markets s0 [H1 H2 H3 (made & Hmade & Hsubl)] Happ. rewrite Hpc in H3, Hmade.
    simpl in Hmade.
    split; rewrite ?Happ; simpl; rewrite ?by_shard_app, ?by_shard_eq; simpl.
    + done.
    + rewrite H2. by destruct r.
    + rewrite H3. by destruct r; simpl; rewrite ?app_nil_r.
    + exists (offered_by e k). split; [by destruct r|]. unfold offered_by in Hmade |- *. simpl.
      rewrite Hmade, !fmap_app. destruct r as [p|]; simpl.
      * apply submit_track_untimed in Hsub. rewrite <-Hsub. by apply sublist_app.
      * rewrite app_nil_r. by apply sublist_inserts_r.
Qed.

Lemma engine_push_inv e k h p l1 l2 :
  engine_inv e → handler_of e k = Some h → em_pc (hd_emitter h) = PcPush p →
  sy_tracked (eg_om e) = l1 ++ p :: l2 →
  engine_inv ((set_emitter e k (pushed (hd_emitter h)))
    <| eg_om ::= λ s, s <| sy_om ::= λ m, submit_push m p |> <| sy_tracked := l1 ++ l2 |>
                        <| sy_pushed ::= λ l, l ++ [p] |> |>
    <| eg_pushed ::= λ l, l ++ [(k, p)] |>).
Proof.
  intros Hinv Hh Hpc Htr. eapply (engine_thread_inv e _ k h); [done|done|reflexivity|..].
  - by eapply rtc_once, step_push.
  - apply Hinv.
  - simpl. by rewrite fmap_app, (ei_pushed _ Hinv).
  - rewrite Hpc, Htr. simpl. solve_Permutation.
  - intros j Hj. split_and!; simpl; try done.
    by rewrite by_shard_app, by_shard_one, decide_False, app_nil_r.
  - intros markets s0 [H1 H2 H3 (made & Hmade & Hsubl)] Happ. rewrite Hpc in H3, Hmade.
    split; rewrite ?Happ; simpl; rewrite ?by_shard_app, ?by_shard_one, ?decide_True by done; simpl.
    + done.
    + done.
    + by rewrite H3, app_nil_r.
    + by exists made.
Qed.

Lemma worker_section_record s s' :
  worker_section (E:=PositionLedger) (Some ledger_provider) s s' →
  sy_accepted s' = sy_accepted s ∧ sy_pushed s' = sy_pushed s ∧ sy_tracked s' = sy_tracked s.
Proof. destruct 1 as [| |s p clocks m [] | | | |]; simpl; try done. all: by destruct r. Qed.

Lemma engine_step_inv t e e' :
  0 ≤ lc_shard_count config → engine_step t e e' → engine_inv e → engine_inv e'.
Proof.
  intros Hc Hstep Hinv. destruct Hstep as [e t md Hok Hfree Ht|e k h event intent todo Hh Hpc Htodo
    |e k h intent clock m r Hh Hpc Hs|e k h p l1 l2 Hh Hpc Htr|e s Hw|e t].
  - by apply (engine_market_inv e t).
  - by apply engine_gate_inv.
  - by eapply engine_submit_inv.
  - by eapply engine_push_inv.
  - destruct (worker_section_record _ _ Hw) as (Ha & Hp & Htr).
    destruct Hinv as [H1 H2 H3 H4 H5 H6]. split; simpl; rewrite ?Ha, ?Hp, ?Htr; try done.
    + by eapply rtc_r, step_section.
    + intros k sh Hk. by apply (thread_inv_frame e); [| |apply H6].
  - destruct Hinv as [H1 H2 H3 H4 H5 H6]. split; simpl; try done.
    + by eapply rtc_r, step_transport.
    + intros k sh Hk. by apply (thread_inv_frame e); [| |apply H6].
Qed.
End invariant.

(** ** The properties of the engine *)
Section properties.
Context `{SJ : SimdJson} {W A T S : Type} `{!WsTransport W} `{!ExchangeWsAdapter A}.
Context `{!ExchangeOmsAdapter} `{!OrderTransport T} `{!Strategy S}.
Context (adapter : A) (hash : string → Z) (moved_from : RoutedEvent → RoutedEvent).
Context (config : LivePipelineConfig) (shard_risk : ShardRiskConfig).
Context (factory : Z → option (option (gset string) * S)).
Context (session : WsSession W) (channels : list string).
Implicit Types (e : engine W T S).

Abbreviation engine_run := (engine_run adapter hash moved_from config shard_risk).
Abbreviation engine_step := (engine_step adapter hash moved_from config shard_risk).
Abbreviation engine_init := (engine_init config factory session channels).
Abbreviation bound := (Z.max 2 (lc_per_shard_queue_capacity config) - 1).
Abbreviation engine_inv := (engine_inv hash config shard_risk factory channels bound).

Lemma engine_init_inv (m : OrderManager T PositionLedger) :
  sizes_ok config → engine_inv m (engine_init m).
Proof.
  intros (Hp & Hq & Hs & Hps).
  assert (∀ k s, md_shards (eg_md (engine_init m)) !! k = Some s →
    sd_event_handler s = uncurry handler_init <$> factory (Z.of_nat k)) as Hshards.
  { intros k s. simpl. rewrite list_lookup_fmap.
    destruct (seqZ 0 (shards_of config) !! k) as [z|] eqn:Hz; [|done].
    apply lookup_seqZ in Hz as [-> _]. by intros [= <-]. }
  split; [by apply md_inv_init|done|done|done|..].
  - simpl. replace (_ ≫= _) with (@nil PendingIntent); [done|].
    symmetry. apply elem_of_nil_inv. intros p.
    rewrite list_elem_of_bind. intros (s & Hpush & [k Hk]%list_elem_of_lookup).
    specialize (Hshards k s Hk). unfold push_of in Hpush. rewrite Hshards in Hpush.
    destruct (factory _) as [[]|]; by apply not_elem_of_nil in Hpush.
  - intros k s Hk. rewrite (Hshards k s Hk). unfold thread_inv.
    destruct (factory (Z.of_nat k)) as [[markets s0]|]; [|done]. split; try done. by exists [].
Qed.

Lemma engine_run_inv m labels e e' :
  sizes_ok config → engine_run labels e e' → engine_inv m e → engine_inv m e'.
Proof.
  intros (_ & _ & Hs & _). induction 1 as [|l t e e1 e2 _ IH Hstep]; [done|]. intros Hinv.
  eapply (engine_step_inv adapter hash moved_from); eauto.
Qed.

(** The order manager moves by its own steps: what holds of every session holds here. *)
Lemma engine_om_run m labels e :
  sizes_ok config → engine_run labels (engine_init m) e →
  rtc (om_step (Some ledger_provider)) (system_init m) (eg_om e).
Proof.
  intros Hok Hrun. apply (ei_om hash config shard_risk factory channels bound).
  eapply engine_run_inv; [done..|]. by apply engine_init_inv.
Qed.

(** The events popped from a shard are accepted ones, in order. *)
Lemma popped_accepted b (md : market_data W (ShardHandler S)) k :
  md_inv hash config channels b md → 0 ≤ k < shards_of config →
  popped_from k (md_popped md) `sublist_of` md_accepted md.
Proof.
  intros Hinv Hk. pose proof (li_fifo _ _ _ _ (mi_log _ _ _ _ _ Hinv) k Hk) as Hf. simpl in Hf.
  transitivity (filter (of_shard k) (md_accepted md)); [|apply sublist_filter].
  rewrite Hf. by apply sublist_inserts_r.
Qed.

(** C6: Every order can be traced back to the feed.  For every interleaving of the market
    data threads, the shard workers and the order manager: the intents the order manager
    has processed are the first of those the shards pushed; the intents a shard pushed
    are, in order, among those its gate allowed on the ledger of that moment; these are
    decisions of the shard's strategy on the events the shard applied to its books, in the
    order the strategy made them, each used at most once; and these events were parsed
    from messages the feed received, in the order of the socket.  A shard without
    handler pushes nothing. *)
Theorem engine_orders_traceable transport_config m0 m labels e :
  sizes_ok config → session_start transport_config m0 m → engine_run labels (engine_init m) e →
  (sy_done (eg_om e)).*1 `prefix_of` (eg_pushed e).*2 ∧
  ∀ k, 0 ≤ Z.of_nat k < shards_of config →
    payload_of <$> popped_from (Z.of_nat k) (md_popped (eg_md e))
      `sublist_of` received_of (fs_log (md_feed (eg_md e))) ∧
    match factory (Z.of_nat k) with
    | None => by_shard k (eg_pushed e) = []
    | Some (markets, s0) =>
      (by_shard k (eg_gated e)).*2
        `prefix_of` (strategy_run s0 (filter (heard markets) (applied_by e k))).2 ∧
      untimed ∘ pi_intent <$> by_shard k (eg_pushed e)
        `sublist_of` untimed <$> (filter (allows shard_risk) (by_shard k (eg_gated e))).*2
    end.
Proof.
  intros Hok Hs Hrun.
  pose proof (engine_run_inv m _ _ _ Hok Hrun (engine_init_inv m Hok)) as Hinv.
  pose proof (session_reachable _ _ _ _ _ Hs (ei_om _ _ _ _ _ _ _ _ Hinv)) as [Hflow _ _].
  split.
  { rewrite (ei_pushed _ _ _ _ _ _ _ _ Hinv), (fl_pushed _ _ Hflow). by eexists. }
  intros k Hk. pose proof (ei_md _ _ _ _ _ _ _ _ Hinv) as Hmd. split.
  { etransitivity; [by apply fmap_sublist, (popped_accepted _ _ _ Hmd)|].
    by eapply accepted_received. }
  pose proof (mi_count _ _ _ _ _ Hmd) as Hcount.
  destruct (lookup_lt_is_Some_2 (md_shards (eg_md e)) k) as [sh Hsh]; [lia|].
  pose proof (ei_shards _ _ _ _ _ _ _ _ Hinv _ _ Hsh) as Ht. unfold thread_inv in Ht.
  destruct (factory (Z.of_nat k)) as [[markets s0]|], (sd_event_handler sh) as [h|]; try done.
  destruct Ht as [_ Hdec Hpush (made & Hmade & Hsub)]. split; [rewrite Hdec; by eexists|].
  etransitivity; [|etransitivity; [exact Hsub|]].
  - rewrite Hpush, fmap_app. by apply sublist_inserts_r.
  - unfold offered_by in Hmade. apply fmap_sublist. destruct (em_pc _); simpl in Hmade.
    + by subst made.
    + rewrite Hmade. by apply sublist_inserts_r.
    + by subst made.
Qed.

(** *** The split handler is the runner *)
Lemma handler_of_set e k j h m :
  handler_of e k = Some h →
  handler_of (set_emitter e k m) j =
    if decide (k = j) then Some (h <| hd_emitter := m |>) else handler_of e j.
Proof.
  intros Hh. destruct (handler_of_shard e k h Hh) as (s & Hk & Hs & Hset).
  unfold handler_of. rewrite Hset. case_decide as Hj.
  - subst j. by rewrite list_lookup_insert_eq by by eapply lookup_lt_Some.
  - by rewrite list_lookup_insert_ne.
Qed.

Lemma engine_run_app l1 l2 e1 e2 e3 :
  engine_run l1 e1 e2 → engine_run l2 e2 e3 → engine_run (l1 ++ l2) e1 e3.
Proof.
  intros H1 H2. induction H2 as [|l t e e' e'' _ IH Hstep]; [by rewrite app_nil_r|].
  rewrite app_assoc. econstructor; [by apply IH|done].
Qed.

Lemma engine_run_cons t l e1 e2 e3 :
  engine_step t e1 e2 → engine_run l e2 e3 → engine_run (t :: l) e1 e3.
Proof.
  intros Hs Hr. apply (engine_run_app [t] l _ e2); [|done].
  eapply (engine_run_snoc _ _ _ _ _ []); [constructor|done].
Qed.

(** The three accesses as steps, with what they leave. *)
Lemma gate_step e k h event intent todo :
  handler_of e k = Some h → em_pc (hd_emitter h) = PcNext →
  em_todo (hd_emitter h) = (event, intent) :: todo →
  ∃ e', engine_step (ByShard k) e e' ∧ eg_om e' = eg_om e ∧
    handler_of e' k = Some (h <| hd_emitter :=
      gate shard_risk (hd_emitter h) (ledger_of e) event intent todo |>).
Proof.
  intros Hh Hpc Htodo. eexists. split; [by eapply eng_gate|]. split; [done|].
  etransitivity; [by apply handler_of_set|]. by rewrite decide_True.
Qed.

Lemma submit_step e k h intent clock m r :
  handler_of e k = Some h → em_pc (hd_emitter h) = PcSubmit intent →
  submit_track (sy_om (eg_om e)) intent clock = (m, r) →
  ∃ e', engine_step (ByShard k) e e' ∧ sy_om (eg_om e') = m ∧
    sy_tracked (eg_om e') = sy_tracked (eg_om e) ++ option_list r ∧
    handler_of e' k = Some (h <| hd_emitter := submitted (hd_emitter h) r (om_last_error m) |>).
Proof.
  intros Hh Hpc Hs. eexists. split; [by eapply eng_submit|]. split; [done|]. split; [done|].
  etransitivity; [by apply handler_of_set|]. by rewrite decide_True.
Qed.

Lemma push_step e k h p l :
  handler_of e k = Some h → em_pc (hd_emitter h) = PcPush p → sy_tracked (eg_om e) = l ++ [p] →
  ∃ e', engine_step (ByShard k) e e' ∧ sy_om (eg_om e') = submit_push (sy_om (eg_om e)) p ∧
    handler_of e' k = Some (h <| hd_emitter := pushed (hd_emitter h) |>).
Proof.
  intros Hh Hpc Htr. eexists. split; [by eapply eng_push|]. split; [done|].
  etransitivity; [by apply handler_of_set|]. by rewrite decide_True.
Qed.

Abbreviation om_sink_state := (OrderManagerIntentSink T PositionLedger).

(** What a sequence of accesses of shard [k] amounts to. *)
Definition runs_to e k (h : ShardHandler S) todo (result : StrategyRunner S * om_sink_state)
    (clock : Z) : Prop :=
  ∃ n e', engine_run (replicate n (ByShard k)) e e' ∧
    handler_of e' k = Some (h <| hd_emitter := mkEmitter result.1 todo PcNext |>) ∧
    sy_om (eg_om e') = is_order_manager result.2 ∧ is_clock result.2 = clock.

(** The accesses of one intent, in sequence, are an iteration of the loop. *)
Lemma handle_intent_run e k h event intent todo err clock :
  handler_of e k = Some h → em_pc (hd_emitter h) = PcNext →
  em_todo (hd_emitter h) = (event, intent) :: todo →
  runs_to e k h todo
    (runner_handle_intent shard_risk (Some ledger_shard_provider) event undisturbed
       (em_runner (hd_emitter h)) (mkOrderManagerIntentSink (sy_om (eg_om e)) err clock) intent)
    clock.
Proof.
  intros Hh Hpc Htodo. destruct (gate_step e k h event intent todo Hh Hpc Htodo)
    as (e1 & Hstep1 & Hom1 & Hh1).
  unfold runner_handle_intent, shard_decision. simpl.
  change (shard_evaluate _ _ _)
    with (ledger_decision shard_risk (ledger_of e) (complete_intent event intent)).
  unfold gate in Hh1. destruct (sd_allow (ledger_decision _ _ _)) eqn:Hal; simpl in Hh1 |- *.
  2:{ exists 1%nat, e1. split; [by eapply engine_run_cons; [exact Hstep1|constructor]|].
      split; [exact Hh1|]. simpl. by rewrite Hom1. }
  unfold order_manager_submit_intent, submit. simpl.
  destruct (submit_track (sy_om (eg_om e)) (complete_intent event intent) clock) as [m r] eqn:Hs.
  rewrite <-Hom1 in Hs.
  destruct (submit_step e1 k _ _ clock m r Hh1 eq_refl Hs) as (e2 & Hstep2 & Hom2 & Htr2 & Hh2).
  destruct r as [p|]; simpl in Hh2, Htr2 |- *.
  - destruct (push_step e2 k _ p _ Hh2 eq_refl Htr2) as (e3 & Hstep3 & Hom3 & Hh3).
    exists 3%nat, e3. split; [by do 3 (eapply engine_run_cons; [done|]); constructor|].
    split; [exact Hh3|]. simpl. by rewrite Hom3, Hom2.
  - exists 2%nat, e2. split; [by do 2 (eapply engine_run_cons; [done|]); constructor|].
    split; [exact Hh2|]. simpl. by rewrite Hom2.
Qed.

Lemma runs_to_trans e e1 n k h m todo result clock :
  engine_run (replicate n (ByShard k)) e e1 →
  runs_to e1 k (h <| hd_emitter := m |>) todo result clock → runs_to e k h todo result clock.
Proof.
  intros Hrun (n' & e' & Hrun' & Hh' & Hrest). exists (n + n')%nat, e'.
  rewrite replicate_add. split; [by eapply engine_run_app|]. by split.
Qed.

Lemma handle_all_run event intents e k h err clock :
  handler_of e k = Some h → em_pc (hd_emitter h) = PcNext →
  em_todo (hd_emitter h) = (event,.) <$> intents →
  runs_to e k h []
    (runner_handle_all shard_risk (Some ledger_shard_provider) event (λ _, undisturbed)
       (em_runner (hd_emitter h)) (mkOrderManagerIntentSink (sy_om (eg_om e)) err clock) intents)
    clock.
Proof.
  revert e h err. induction intents as [|intent intents IH]; intros e h err Hh Hpc Htodo; simpl.
  { exists 0%nat, e. split; [constructor|]. split; [|done]. rewrite Hh.
    destruct h as [markets [r todo pc]]. simpl in *. by subst. }
  destruct (handle_intent_run e k h event intent _ err clock Hh Hpc Htodo)
    as (n & e1 & Hrun & Hh1 & Hom1 & Hclock).
  destruct (runner_handle_intent _ _ event _ _ _ intent) as [r [m1 err1 clock1]]. simpl in *.
  subst clock1 m1. eapply runs_to_trans; [exact Hrun|].
  exact (IH e1 _ err1 Hh1 eq_refl eq_refl).
Qed.

(** When no other thread moves in between, the steps of a shard worker that has just given
    [event] to its strategy lead to exactly the runner, the order manager and the answer of
    [strategy_event_handler_on_event], and end with the worker idle: the handler of this
    file and the runner of Strategy.v agree. *)
Lemma split_handler_is_runner e k h event err clock :
  idle_handler h →
  handler_of e k = Some (h <| hd_emitter := (emit (hd_emitter h) event).1 |>) →
  let '(r, sink, ok) := strategy_event_handler_on_event shard_risk (Some ledger_shard_provider)
    (λ _, undisturbed) (em_runner (hd_emitter h))
    (mkOrderManagerIntentSink (sy_om (eg_om e)) err clock) event in
  (emit (hd_emitter h) event).2 = ok ∧
  ∃ n e', engine_run (replicate n (ByShard k)) e e' ∧
    handler_of e' k = Some (h <| hd_emitter := mkEmitter r [] PcNext |>) ∧
    sy_om (eg_om e') = is_order_manager sink.
Proof.
  intros [Htodo Hpc]. unfold emit, strategy_event_handler_on_event, runner_on_event. simpl.
  destruct (strategy_on_event _ event) as [s [intents|what]]; simpl; intros Hh.
  - pose proof (handle_all_run event intents e k _ err clock Hh Hpc eq_refl) as Hrun.
    simpl in Hrun. destruct (runner_handle_all _ _ _ _ _ _ _) as [r sink].
    split; [done|]. destruct Hrun as (n & e' & ? & ? & ? & _). by exists n, e'.
  - split; [done|]. exists 0%nat, e. split; [constructor|].
    split; [|done]. rewrite Hh. destruct h as [markets [r todo pc]]. simpl in *. by subst.
Qed.
End properties.

(** ** A concrete run *)
#[local] Existing Instance delta_ws_transport.

(** A strategy that buys five lots on every event. *)
#[local] Instance buying_strategy : Strategy unit := {|
  strategy_on_event s _ := (s, Ok [demo_intent Side_kBuy 5]);
|}.

Section market_run.
Context `{SJ : SimdJson} {W A T S : Type} `{!WsTransport W} `{!ExchangeWsAdapter A}.
Context `{!ExchangeOmsAdapter} `{!OrderTransport T} `{!Strategy S}.
Context (adapter : A) (hash : string → Z) (moved_from : RoutedEvent → RoutedEvent).
Context (config : LivePipelineConfig) (shard_risk : ShardRiskConfig).

(** Turns of the market data path, but for those of the network. *)
Definition market_turn (t : turn (W:=W)) (e : engine W T S) : option (engine W T S) :=
  let free := match t with
              | TurnShard k => match handler_of e k with
                               | Some h => bool_decide (idle_handler h) | None => true end
              | TurnControl _ => false
              | _ => true
              end in
  if free
  then (λ md, e <| eg_md := md |>) <$> md_turn adapter hash moved_from config t (eg_md e)
  else None.

Fixpoint market_turns (turns : list (turn (W:=W))) (e : engine W T S) : option (engine W T S) :=
  match turns with [] => Some e | t :: turns => market_turn t e ≫= market_turns turns end.

Lemma market_turn_step t e e' :
  market_turn t e = Some e' →
  engine_step adapter hash moved_from config shard_risk (turn_thread t) e e'.
Proof.
  unfold market_turn. intros Ht. case_match eqn:Hfree; [|done].
  apply fmap_Some in Ht as (md & Hmd & ->). apply eng_market; [by destruct t| |done].
  destruct t; try done. intros h Hh. rewrite Hh in Hfree. by apply bool_decide_eq_true in Hfree.
Qed.

Lemma market_turns_run turns e e' :
  market_turns turns e = Some e' →
  ∃ labels, engine_run adapter hash moved_from config shard_risk labels e e'.
Proof.
  revert e. induction turns as [|t turns IH]; simpl; intros e Hr.
  { injection Hr as <-. exists []. constructor. }
  apply bind_Some in Hr as (e1 & Ht & [labels Hr]%IH). exists (turn_thread t :: labels).
  eapply engine_run_cons; [by apply market_turn_step|done].
Qed.
End market_run.

(** Connect, receive and push; pump; apply: the strategy of shard 1 has returned an
    intent. *)
Definition demo_risk : ShardRiskConfig := mkShardRiskConfig 0 0 20.
Definition demo_factory (k : Z) : option (option (gset string) * unit) := Some (None, ()).
Definition demo_engine_start : engine unit PaperOrderTransport unit :=
  engine_init Pipeline.demo_config demo_factory (session_init ()) ["trade"] demo_engine.
Definition demo_turned : option (engine unit PaperOrderTransport unit) :=
  @market_turns demo_reader _ _ _ _ _ _ _ demo_adapter demo_hash (λ e, e) Pipeline.demo_config
    (take 13 demo_turns) demo_engine_start.

Definition demo_handler : ShardHandler unit :=
  mkShardHandler None (emit (hd_emitter (handler_init None ())) demo_parsed).1.

Lemma demo_turned_facts :
  (λ e, (handler_of e 1, sy_om (eg_om e))) <$> demo_turned = Some (Some demo_handler, demo_engine).
Proof. vm_compute. reflexivity. Qed.

Abbreviation demo_run := (@engine_run demo_reader _ _ _ _ _ _ _ _ _ demo_adapter demo_hash
  (λ e, e) Pipeline.demo_config demo_risk).

Lemma demo_turns_run e :
  demo_turned = Some e → ∃ labels, demo_run labels demo_engine_start e.
Proof. unfold demo_turned. apply market_turns_run. Qed.

Lemma demo_turned_run :
  ∃ e labels, demo_run labels demo_engine_start e ∧ handler_of e 1 = Some demo_handler ∧
    sy_om (eg_om e) = demo_engine.
Proof.
  pose proof demo_turns_run as Hrun. pose proof demo_turned_facts as Hfacts.
  destruct demo_turned as [e|]; [|discriminate Hfacts].
  destruct (Hrun e eq_refl) as [labels Hr]. injection Hfacts as Hh Hom.
  exists e, labels. exact (conj Hr (conj Hh Hom)).
Qed.

Lemma demo_sizes : sizes_ok Pipeline.demo_config.
Proof. unfold sizes_ok. simpl. lia. Qed.

(** The worker of shard 1 by itself queues the order of its strategy. *)
Lemma demo_queued_run :
  ∃ e labels, demo_run labels demo_engine_start e ∧
    pi_intent <$> om_outbound_queue (sy_om (eg_om e)) = [demo_intent Side_kBuy 5].
Proof.
  destruct demo_turned_run as (e & labels & Hrun & Hh & Hom).
  destruct (@handle_all_run demo_reader _ _ _ _ _ _ _ _ _ demo_adapter demo_hash
    (λ e, e) Pipeline.demo_config demo_risk demo_parsed [demo_intent Side_kBuy 5] e 1 demo_handler
    "" 1 Hh eq_refl eq_refl) as (n & e' & Hrun' & _ & Hom' & _).
  exists e', (labels ++ replicate n (ByShard 1)). split; [by eapply engine_run_app|].
  rewrite Hom', Hom. vm_compute. reflexivity.
Qed.

(** The order of the strategy is in the queue of the order manager. *)
Lemma engine_orders_traceable_witness :
  ∃ e labels, demo_run labels demo_engine_start e ∧
    pi_intent <$> om_outbound_queue (sy_om (eg_om e)) = [demo_intent Side_kBuy 5] ∧
    payload_of <$> popped_from 1 (md_popped (eg_md e))
      `sublist_of` received_of (fs_log (md_feed (eg_md e))) ∧
    (by_shard 1 (eg_gated e)).*2
      `prefix_of` (strategy_run () (filter (heard None) (@applied_by demo_reader _ _ _ e 1))).2.
Proof.
  destruct demo_queued_run as (e & labels & Hrun & Hq).
  exists e, labels. split; [exact Hrun|]. split; [exact Hq|].
  destruct (@engine_orders_traceable demo_reader _ _ _ _ _ _ _ _ _ demo_adapter demo_hash
    (λ e, e) Pipeline.demo_config demo_risk demo_factory (session_init ()) ["trade"]
    (mkOrderTransportConfig "paper" ∅)
    (om_init (mkGlobalRiskConfig 2 1 100 50) (mkPortfolioRiskConfig 20 20 0 false)
        (paper_init true) (mkPositionLedger ledger_init "")) demo_engine labels e demo_sizes)
    as [_ Hk].
  - split; vm_compute; reflexivity.
  - exact Hrun.
  - destruct (Hk 1%nat) as (Hp & Hd & _); [vm_compute; done|]. exact (conj Hp Hd).
Defined.
