(* ===== verification/Trader.v ===== *)
(** * The trader process

    Model of src/cpp/apps/trader/main.cpp: how the process finds its configuration and
    credentials, which components it builds from them and in which order it starts and
    stops them.  [startup] is main up to its loop, with every early return; the result
    [Runs] holds the components the loop works on.  [pump] is the body of the loop and
    [shutdown] what follows it.  The components are those of the other files.

    The process is given by an [Environment]: the arguments, the environment variables,
    the clock and file system at the start, and the network streams of the two WebSocket
    transports.  Logging is not modelled.  An exception that leaves main is [Terminates]. *)
From stdpp Require Import pretty.
From S2P Require Import Prelude.
From S2P Require Import Types.
From S2P Require Import RiskGates.
From S2P Require Import OrderManagerCore.
From S2P Require Import PositionLedger.
From S2P Require Import SpscQueue.
From S2P Require Import FramePool.
From S2P Require Import Simdjson.
From S2P Require Import Router.
From S2P Require Import Shard.
From S2P Require Import Pipeline.
From S2P Require Import Nlohmann.
From S2P Require Import OmsAdapter.
From S2P Require Import OrderTransport.
From S2P Require Import OrderManager.
From S2P Require Import PaperTrading.
From S2P Require Import Strategy.
From S2P Require Import StringSearch.
From S2P Require Import Config.
From S2P Require Import WsClient.
From S2P Require Import AuthSigner.
From S2P Require Import WsFeed.
From S2P Require Import FeedProgress.

(** ** Arguments, environment, credentials *)
Record Environment (Net : Type) := mkEnvironment {
  en_argv : list string;
  en_getenv : string → option string;
  en_moment : Moment;
  en_oms_stream : Net;
  en_feed_stream : Net;
  (** loading the default CA paths *)
  en_ca_paths : outcome unit;
}.
Arguments mkEnvironment {Net} _ _ _ _ _ _.
Arguments en_argv {Net} _.
Arguments en_getenv {Net} _ _.
Arguments en_moment {Net} _.
Arguments en_oms_stream {Net} _.
Arguments en_feed_stream {Net} _.
Arguments en_ca_paths {Net} _.

Definition kExitMissingCredentials : Z := 3.
Definition kExitPipelineStartFailure : Z := 4.
Definition kExitFeedRunnerStartFailure : Z := 5.
Definition kExitConfigLoadFailure : Z := 6.
Definition kExitOmsStartFailure : Z := 7.

Definition get_env (getenv : string → option string) (name : string) : option string :=
  match getenv name with
  | None | Some "" => None
  | Some value => Some value
  end.

(** [argv] with the program name in front; [argc] is its length. *)
Definition resolve_config_path (argv : list string) (getenv : string → option string)
    : option string :=
  let from_env := get_env getenv "TRADING_CONFIG_PATH" in
  if decide (3 ≤ length argv ∧ argv !! 1 = Some "--config")%nat then
    match argv !! 2%nat with None | Some "" => from_env | Some path => Some path end
  else if decide (2 ≤ length argv)%nat then
    match argv !! 1%nat with None | Some "" => from_env | Some path => Some path end
  else from_env.

(** A credential of the configuration, or of the environment variable it names. *)
Definition resolve_credential (getenv : string → option string) (inline env_name : string)
    : option string :=
  if decide (inline = "") then get_env getenv env_name else Some inline.

Definition resolve_credentials (getenv : string → option string) (c : CredentialConfig)
    : option Credentials :=
  match resolve_credential getenv (cc_key_id c) (cc_key_id_env c),
        resolve_credential getenv (cc_private_key_pem c) (cc_private_key_pem_env c) with
  | Some key_id, Some private_key_pem => Some (mkCredentials key_id private_key_pem)
  | _, _ => None
  end.

(** ** core/app.cpp and engine/runtime.cpp: the startup payload that is logged *)
Section payload.
Context `{Nlohmann}.

Definition build_heartbeat_json (mode : string) : outcome string :=
  nj_dump (nj_object [("service", nj_of_string "trading_engine"); ("status", nj_of_string "ok");
    ("mode", nj_of_string mode)]).

Definition build_trader_startup_payload (mode : string) : outcome string :=
  build_heartbeat_json mode.

(** A payload that is built parses back to the mode it was built for. *)
Lemma startup_payload_roundtrip `{!NlohmannLaws} mode :
  nj_utf8 mode → ∃ text j, build_trader_startup_payload mode = Ok text ∧ nj_parse text = Ok j ∧
    nj_find j "mode" ≫= nj_string = Some mode.
Proof.
  intros Hmode. unfold build_trader_startup_payload, build_heartbeat_json.
  set (j := nj_object _). destruct (nj_roundtrip j) as (text & Hdump & Hparse).
  { plain_list. }
  exists text, j. split_and!; [done..|]. unfold j. find_field. apply nj_string_of.
Qed.
End payload.

(** ** Components *)

(** [oms_transport], an [IOrderTransport]: the WebSocket or the paper transport. *)
Abbreviation OmsTransport Net := (BeastTransport Net + PaperOrderTransport)%type.

#[export] Instance oms_transport `{Nlohmann} {Net : Type} `{!Beast Net}
    : OrderTransport (OmsTransport Net) := {|
  transport_connect t config :=
    match t with
    | inl w => let '(w, ok) := transport_connect w config in (inl w, ok)
    | inr p => let '(p, ok) := transport_connect p config in (inr p, ok)
    end;
  transport_send_text t payload :=
    match t with
    | inl w => let '(w, ok) := transport_send_text w payload in (inl w, ok)
    | inr p => let '(p, ok) := transport_send_text p payload in (inr p, ok)
    end;
  transport_recv_text t :=
    match t with
    | inl w => let '(w, message) := transport_recv_text w in (inl w, message)
    | inr p => let '(p, message) := transport_recv_text p in (inr p, message)
    end;
  transport_close t :=
    match t with inl w => inl (transport_close w) | inr p => inr (transport_close p) end;
  transport_last_error t :=
    match t with inl w => transport_last_error w | inr p => transport_last_error p end;
|}.

(** The handler of a shard: the runner of its strategy, behind a market filter when the
    configuration names markets. *)
Record TraderHandler := mkTraderHandler {
  th_runner : StrategyRunner unit;
  th_allowed_markets : option (gset string);
}.

(** The frame pool sink of the pipeline; the readings are those of the clock. *)
#[export] Instance pipeline_sink {H : Type} : WsMessageSink (LivePipeline H) (Z * Z) :=
  λ p reading message, push_message p message reading.1 reading.2.

(** The pipeline is the sink of the feed runner.  [tr_dropped_count] is the counter of
    the dropping intent sink of the mode without an order manager. *)
Record Trader (Net : Type) := mkTrader {
  tr_config : TraderRuntimeConfig;
  tr_order_manager : option (OrderManager (OmsTransport Net) PositionLedger);
  tr_dropped_count : Z;
  tr_adapter : KalshiWsAdapter;
  tr_feed : feed_state (BeastTransport Net) (LivePipeline TraderHandler);
}.
Arguments mkTrader {Net} _ _ _ _ _.
Arguments tr_config {Net} _.
Arguments tr_order_manager {Net} _.
Arguments tr_dropped_count {Net} _.
Arguments tr_adapter {Net} _.
Arguments tr_feed {Net} _.

#[export] Instance Trader_settable Net : Settable (Trader Net) := λ x,
  mkTrader (tr_config x) (tr_order_manager x) (tr_dropped_count x) (tr_adapter x) (tr_feed x).

Definition tr_pipeline {Net} (t : Trader Net) : LivePipeline TraderHandler :=
  fr_sink (fs_runner (tr_feed t)).

(** An exit leaves the order manager and the pipeline, if they were built, as they are. *)
Inductive startup_result (Net : Type) :=
  | Exits (code : Z) (om : option (OrderManager (OmsTransport Net) PositionLedger))
      (pipeline : option (LivePipeline TraderHandler))
  | Terminates (what : string)
  | Runs (t : Trader Net).
Arguments Exits {Net} code om pipeline.
Arguments Terminates {Net} what.
Arguments Runs {Net} t.

(** [shard_event_handler_factory] *)
Definition handler_factory (config : TraderRuntimeConfig) (shard_id : Z) : option TraderHandler :=
  let strategy_shard_count := Z.max (lc_shard_count (tc_pipeline config)) 1 in
  let allowed_strategy_markets : gset string := list_to_set (tc_tickers config) in
  if decide (strategy_shard_count ≤ shard_id) then None
  else
    Some (mkTraderHandler (runner_init ())
      (if decide (allowed_strategy_markets = ∅) then None else Some allowed_strategy_markets)).

Section startup.
Context `{OpenSsl} `{NlohmannDocument} {Net : Type} `{!Beast Net} (env : Environment Net).

Definition load_config : option TraderRuntimeConfig :=
  match resolve_config_path (en_argv env) (en_getenv env) with
  | None => Some default_config
  | Some path =>
    let loaded := load_trader_config_from_file (mo_read_file (en_moment env)) path in
    if cl_ok loaded then Some (cl_config loaded) else None
  end.

(** The transport of the order manager with its connection settings; [None] in the
    market data mode.  Signing the headers may throw. *)
Definition oms_setup (config : TraderRuntimeConfig) (credentials : Credentials)
    : outcome (option (OmsTransport Net * OrderTransportConfig)) :=
  match tc_execution_mode config with
  | TraderExecutionMode_kLive =>
    match make_ws_headers credentials (en_moment env) "/trade-api/ws/v2" with
    | Err what => Err what
    | Ok oms_auth_headers =>
      Ok (Some (inl (beast_transport_init (en_oms_stream env) (en_ca_paths env)),
        mkOrderTransportConfig (kw_endpoint (tc_kalshi config))
          (auth_header_map oms_auth_headers)))
    end
  | TraderExecutionMode_kPaper =>
    Ok (Some (inr (paper_init true), mkOrderTransportConfig "paper://oms" ∅))
  | TraderExecutionMode_kMarketDataOnly => Ok None
  end.

(** The order manager over that transport, and whether it started. *)
Definition start_oms (config : TraderRuntimeConfig)
    (setup : OmsTransport Net * OrderTransportConfig)
    : OrderManager (OmsTransport Net) PositionLedger * bool :=
  om_start setup.2
    (om_init (rc_oms_global (tc_risk config)) (rc_oms_portfolio (tc_risk config)) setup.1
       (mkPositionLedger ledger_init "")).

Definition kalshi_adapter_of (config : TraderRuntimeConfig) (credentials : Credentials)
    : KalshiWsAdapter :=
  mkKalshiWsAdapter credentials (kw_endpoint (tc_kalshi config)).

(** From the start of the pipeline to the loop. *)
Definition start_feed (config : TraderRuntimeConfig) (credentials : Credentials)
    (om : option (OrderManager (OmsTransport Net) PositionLedger)) : startup_result Net :=
  match pipeline_start (live_pipeline_init (tc_pipeline config) (handler_factory config)) with
  | (pipeline, false) => Exits kExitPipelineStartFailure (om_stop <$> om) (Some pipeline)
  | (pipeline, true) =>
    let session :=
      session_init (beast_transport_init (en_feed_stream env) (en_ca_paths env)) in
    match feed_start (feed_init session pipeline (kw_channels (tc_kalshi config))) with
    | (_, false) =>
      Exits kExitFeedRunnerStartFailure (om_stop <$> om) (Some (pipeline_stop pipeline))
    | (feed, true) =>
      Runs (mkTrader config om 0 (kalshi_adapter_of config credentials) feed)
    end
  end.

Definition startup : startup_result Net :=
  match load_config with
  | None => Exits kExitConfigLoadFailure None None
  | Some config =>
    match build_trader_startup_payload (tc_mode config) with
    | Err what => Terminates what
    | Ok _ =>
      match resolve_credentials (en_getenv env) (kw_credentials (tc_kalshi config)) with
      | None => Exits kExitMissingCredentials None None
      | Some credentials =>
        match oms_setup config credentials with
        | Err what => Terminates what
        | Ok None => start_feed config credentials None
        | Ok (Some setup) =>
          match start_oms config setup with
          | (om, false) => Exits kExitOmsStartFailure (Some om) None
          | (om, true) => start_feed config credentials (Some om)
          end
        end
      end
    end
  end.
End startup.

(** ** The loop and the shutdown *)
Section running.
Context `{SimdJson} `{OpenSsl} `{NlohmannDocument} {Net : Type} `{!Beast Net} `{!BeastPending Net}.
Context (hash : string → Z).
Implicit Types (t : Trader Net).

(** One iteration: the frames pumped; the thread sleeps when there are none. *)
Definition pump t : Trader Net * Z :=
  let '(pipeline, pumped) := pump_ingest hash (tr_pipeline t) (tc_pump_batch_size (tr_config t)) in
  (t <| tr_feed ::= λ f, f <| fs_runner ::= λ r, r <| fr_sink := pipeline |> |> |>, pumped).

(** [feed_runner.stop()]: the stop is requested and the session closed; the worker runs
    on, together with everything else, until it has finished, and is joined.  Its reads
    block ([live_run]). *)
Inductive feed_stopped (a : KalshiWsAdapter)
    : feed_state (BeastTransport Net) (LivePipeline TraderHandler) →
      feed_state (BeastTransport Net) (LivePipeline TraderHandler) → Prop :=
  | feed_stopped_joined f labels labels' f1 f2 :
      fr_worker (fs_runner f) = true →
      live_run a labels (stop_request f) f1 → fs_stop_pc f1 = StopRequested →
      live_run a labels' (stop_close f1) f2 → fs_pc f2 = FeedDone →
      ByStart ∉ labels → ByStart ∉ labels' →
      feed_stopped a f (stop_join f2)
  | feed_stopped_idle f :
      fr_worker (fs_runner f) = false → feed_stopped a f (stop_idle f).

(** [pipeline.stop()] and [order_manager->stop()] *)
Definition stop_pipeline t : Trader Net :=
  t <| tr_feed ::= λ f, f <| fs_runner ::= λ r, r <| fr_sink ::= pipeline_stop |> |> |>.
Definition stop_order_manager t : Trader Net :=
  t <| tr_order_manager ::= fmap om_stop |>.

(** The summary that is logged last; without an order manager its counts are 0. *)
Definition summary t : string :=
  let count (z : Z) := pretty (Z.to_N z) in
  let pipeline_stats := pipeline_stats (tr_pipeline t) in
  let oms_stats f := match tr_order_manager t with None => 0 | Some om => f (om_stats om) end in
  "frames_pumped=" +:+ count (ls_ingest_frames_pumped pipeline_stats) +:+
  ", routed=" +:+ count (ls_route_success pipeline_stats) +:+
  ", route_drop=" +:+ count (ls_route_drop pipeline_stats) +:+
  ", sink_drop=" +:+ count (ls_ingest_sink_dropped pipeline_stats) +:+
  ", shard_drop=" +:+ count (ls_shard_dispatch_dropped pipeline_stats) +:+
  ", oms_submitted=" +:+ count (oms_stats mst_submitted_count) +:+
  ", oms_sent=" +:+ count (oms_stats mst_sent_count) +:+
  ", oms_rejects=" +:+
  count (u64 (oms_stats mst_risk_reject_count + oms_stats mst_portfolio_risk_reject_count)) +:+
  ", ws_received=" +:+ count (fr_received_count (fs_runner (tr_feed t))) +:+
  ", ws_dropped=" +:+ count (fr_dropped_count (fs_runner (tr_feed t))).

(** Other threads run the shard workers and the order manager; none starts or stops them. *)
Definition same_workers (p p' : LivePipeline TraderHandler) : Prop :=
  lp_running p' = lp_running p ∧ sd_worker <$> lp_shards p' = sd_worker <$> lp_shards p.

(** The shutdown after the loop; main then returns 0. *)
Inductive shutdown : Trader Net → Trader Net → Prop :=
  | shutdown_all t feed om :
      feed_stopped (tr_adapter t) (tr_feed t) feed →
      same_workers (tr_pipeline t) (fr_sink (fs_runner feed)) →
      om_worker_joinable <$> om = om_worker_joinable <$> tr_order_manager t →
      shutdown t (stop_order_manager (stop_pipeline
        (t <| tr_feed := feed |> <| tr_order_manager := om |>))).
End running.

(** ** Starting *)
Section starting.
Context {H : Type}.

Lemma start_shards_idle (started rest : list (Shard H)) :
  Forall idle rest → start_shards started rest = (started ++ ((λ s, (shard_start s).1) <$> rest), true).
Proof.
  revert started. induction rest as [|s rest IH]; intros started Hidle; simpl.
  { by rewrite app_nil_r. }
  apply Forall_cons in Hidle as [Hs Hrest]. unfold idle in Hs.
  unfold shard_start at 1. rewrite Hs. rewrite IH by done. rewrite <-app_assoc. simpl.
  unfold shard_start. by rewrite Hs.
Qed.

Lemma fresh_pipeline_start config (factory : Z → option H) :
  ∃ p, pipeline_start (live_pipeline_init config factory) = (p, true) ∧
    lp_running p = true ∧ lp_config p = config ∧
    ∀ i s, lp_shards p !! i = Some s →
      sd_worker s = true ∧ sd_running s = true ∧ sd_books s = ∅ ∧
      sd_event_handler s = factory (Z.of_nat i) ∧
      Z.of_nat i < shard_count (lp_shard_dispatch p).
Proof.
  unfold pipeline_start. simpl. rewrite start_shards_idle.
  2:{ apply Forall_fmap, Forall_forall. done. }
  eexists. split; [done|]. simpl. split_and!; [done..|].
  intros i s Hi. rewrite !list_lookup_fmap in Hi.
  destruct (seqZ 0 _ !! i) as [z|] eqn:Hz; simplify_eq/=.
  apply lookup_seqZ in Hz as [-> Hlt]. done.
Qed.
End starting.

(** What the running trader is made of. *)
Definition oms_matches_mode {Net} (config : TraderRuntimeConfig)
    (om : option (OrderManager (OmsTransport Net) PositionLedger)) : Prop :=
  match tc_execution_mode config, om with
  | TraderExecutionMode_kMarketDataOnly, None => True
  | TraderExecutionMode_kMarketDataOnly, Some _ | _, None => False
  | mode, Some om =>
    om_running om = true ∧ om_worker_joinable om = true ∧ om_outbound_queue om = [] ∧
    omc_global_risk_config (om_core om) = rc_oms_global (tc_risk config) ∧
    omc_portfolio_risk_config (om_core om) = rc_oms_portfolio (tc_risk config) ∧
    omc_in_flight_orders (om_core om) = ∅ ∧ pw_core (om_sink om) = ledger_init ∧
    match mode, om_transport om with
    | TraderExecutionMode_kLive, inl w => bt_connected w = true
    | TraderExecutionMode_kPaper, inr p => pt_connected p = true
    | _, _ => False
    end
  end.

Definition pipeline_matches (config : TraderRuntimeConfig) (p : LivePipeline TraderHandler)
    : Prop :=
  lp_running p = true ∧ lp_config p = tc_pipeline config ∧
  ∀ i s, lp_shards p !! i = Some s →
    sd_running s = true ∧ sd_books s = ∅ ∧
    ∃ h, sd_event_handler s = Some h ∧
      default ∅ (th_allowed_markets h) = list_to_set (tc_tickers config).

Section startup_properties.
Context `{OpenSsl} `{NlohmannDocumentLaws} `{!NlohmannLaws} {Net : Type} `{!Beast Net}.
Implicit Types (env : Environment Net).

Lemma load_config_valid env config : load_config env = Some config → config_valid config.
Proof.
  unfold load_config. destruct (resolve_config_path _ _) as [path|].
  2:{ intros [= <-]. apply default_config_valid. }
  unfold load_trader_config_from_file. destruct (mo_read_file _ path) as [text|]; [|done].
  destruct (load_from_json_sound text) as [Hv _].
  destruct (load_trader_config_from_json text) as [[] c e]; simpl in *; [by intros [= <-]|].
  destruct (contains e path); simpl; done.
Qed.

Lemma start_feed_runs env config credentials om :
  ∃ t, start_feed env config credentials om = Runs t ∧
    tr_config t = config ∧ tr_order_manager t = om ∧ pipeline_matches config (tr_pipeline t) ∧
    tr_adapter t = kalshi_adapter_of config credentials ∧
    fr_worker (fs_runner (tr_feed t)) = true ∧ fr_running (fs_runner (tr_feed t)) = true ∧
    fr_channels (fs_runner (tr_feed t)) = kw_channels (tc_kalshi config) ∧
    fs_pc (tr_feed t) = FeedOuter.
Proof.
  unfold start_feed.
  destruct (fresh_pipeline_start (tc_pipeline config) (handler_factory config))
    as (p & Hp & Hrun & Hcfg & Hshards).
  rewrite Hp. eexists. split; [done|]. split_and!; try done. split_and!; [done..|].
  intros i s Hi. destruct (Hshards i s Hi) as (_ & ? & ? & Hh & Hlt). split_and!; [done..|].
  assert (shard_count (lp_shard_dispatch p) ≤ Z.max (lc_shard_count (tc_pipeline config)) 1) as Hle.
  { unfold pipeline_start in Hp. simpl in Hp. destruct (start_shards _ _) as [? []]; simplify_eq/=.
    unfold shard_count. simpl. rewrite length_replicate. unfold kMinShardCount. case_decide; lia. }
  rewrite Hh. unfold handler_factory. rewrite decide_False by lia. eexists. split; [done|]. simpl.
  case_decide as Hm; simpl; [by rewrite Hm|done].
Qed.

(** An order manager that starts is connected, empty and has the configured limits. *)
Lemma start_oms_runs config setup (om : OrderManager (OmsTransport Net) PositionLedger) :
  start_oms config setup = (om, true) →
  om_running om = true ∧ om_worker_joinable om = true ∧ om_outbound_queue om = [] ∧
  omc_global_risk_config (om_core om) = rc_oms_global (tc_risk config) ∧
  omc_portfolio_risk_config (om_core om) = rc_oms_portfolio (tc_risk config) ∧
  omc_in_flight_orders (om_core om) = ∅ ∧ pw_core (om_sink om) = ledger_init ∧
  transport_connect setup.1 setup.2 = (om_transport om, true).
Proof.
  unfold start_oms, om_start. simpl.
  destruct (match setup.1 with inl w => _ | inr p => _ end) as [t []]; simpl; [|done].
  intros [= <-]. done.
Qed.

Lemma start_oms_fails config setup (om : OrderManager (OmsTransport Net) PositionLedger) :
  start_oms config setup = (om, false) →
  (transport_connect setup.1 setup.2).2 = false ∧
  om_running om = false ∧ om_worker_joinable om = false.
Proof.
  unfold start_oms, om_start. simpl.
  destruct (match setup.1 with inl w => _ | inr p => _ end) as [t []]; simpl; [done|].
  by intros [= <-].
Qed.

(** The WebSocket connection of the order manager could not be made. *)
Definition oms_unreachable env (config : TraderRuntimeConfig) (credentials : Credentials)
    : Prop :=
  tc_execution_mode config = TraderExecutionMode_kLive ∧
  ∃ h, make_ws_headers credentials (en_moment env) "/trade-api/ws/v2" = Ok h ∧
    (beast_transport_connect (beast_transport_init (en_oms_stream env) (en_ca_paths env))
       (mkWsTransportConfig (kw_endpoint (tc_kalshi config)) (auth_header_map h))).2 = false.

Lemma oms_started env config c setup om :
  oms_setup env config c = Ok (Some setup) → start_oms config setup = (om, true) →
  oms_matches_mode config (Some om).
Proof.
  intros Hsetup Hom.
  pose proof (start_oms_runs _ _ _ Hom) as (? & ? & ? & ? & ? & ? & ? & Hconn).
  unfold oms_setup in Hsetup. unfold oms_matches_mode.
  destruct (tc_execution_mode config); [|simplify_eq|done].
  - destruct (make_ws_headers _ _ _) as [h|]; simplify_eq. split_and!; try done. simpl in Hconn.
    destruct (beast_transport_connect _ _) as [w ok] eqn:Hw. injection Hconn as Ht ->.
    rewrite <-Ht. by apply connect_handshake in Hw as (? & ? & _ & _ & ? & _).
  - split_and!; try done. simpl in Hconn. injection Hconn as Ht. by rewrite <-Ht.
Qed.

Lemma oms_not_started env config c setup om :
  oms_setup env config c = Ok (Some setup) → start_oms config setup = (om, false) →
  oms_unreachable env config c.
Proof.
  intros Hsetup [Hom _]%start_oms_fails. unfold oms_setup in Hsetup. unfold oms_unreachable.
  destruct (tc_execution_mode config); [|simplify_eq|done].
  destruct (make_ws_headers _ _ _) as [h|]; simplify_eq. split; [done|]. exists h.
  split; [done|]. simpl in Hom. by destruct (beast_transport_connect _ _) as [w []].
Qed.

(** The running engine is the one the configuration describes. *)
Definition runs_as_configured env (t : Trader Net) : Prop :=
  load_config env = Some (tr_config t) ∧ config_valid (tr_config t) ∧
  resolve_credentials (en_getenv env) (kw_credentials (tc_kalshi (tr_config t))) =
    Some (ka_signer (tr_adapter t)) ∧
  ka_endpoint (tr_adapter t) = kw_endpoint (tc_kalshi (tr_config t)) ∧
  oms_matches_mode (tr_config t) (tr_order_manager t) ∧
  pipeline_matches (tr_config t) (tr_pipeline t) ∧
  fr_worker (fs_runner (tr_feed t)) = true ∧ fs_pc (tr_feed t) = FeedOuter ∧
  fr_channels (fs_runner (tr_feed t)) = kw_channels (tc_kalshi (tr_config t)).

Lemma start_feed_as_configured env config c om :
  load_config env = Some config →
  resolve_credentials (en_getenv env) (kw_credentials (tc_kalshi config)) = Some c →
  oms_matches_mode config om →
  ∃ t, start_feed env config c om = Runs t ∧ runs_as_configured env t.
Proof.
  intros Hload Hc Hom. destruct (start_feed_runs env config c om)
    as (t & Ht & Hcfg & Hm & Hp & Ha & Hw & _ & Hch & Hpc).
  exists t. split; [done|]. unfold runs_as_configured. rewrite Hcfg, Hm, Ha.
  split_and!; try done. by apply (load_config_valid env).
Qed.

(** C18: How the process starts, on every path.  It exits with code 6 exactly when a
    configuration file is named and does not load, with 3 when a credential is missing,
    with 7 when the order connection of the live mode cannot be made, and terminates on
    an exception only when signing for it throws or the mode cannot be printed; the codes 4 and 5 for the pipeline and
    the feed cannot occur.  Otherwise the engine runs with a valid configuration: in the
    live mode a connected WebSocket order manager, in the paper mode one on the paper
    transport, in the market data mode none; a manager starts empty, with the configured
    risk limits; every shard runs with an empty book store and a strategy handler that
    sees exactly the configured markets; and the feed worker is started on the configured
    channels.  On every exit nothing is left running. *)
Theorem startup_decided env :
  match startup env with
  | Exits code om pipeline =>
    pipeline = None ∧
    match om with None => True | Some om => om_running om = false ∧ om_worker_joinable om = false end ∧
    (code = kExitConfigLoadFailure ∧
      (∃ path, resolve_config_path (en_argv env) (en_getenv env) = Some path ∧
         cl_ok (load_trader_config_from_file (mo_read_file (en_moment env)) path) = false) ∨
    ∃ config, load_config env = Some config ∧
      let credentials :=
        resolve_credentials (en_getenv env) (kw_credentials (tc_kalshi config)) in
      (code = kExitMissingCredentials ∧ credentials = None ∨
       code = kExitOmsStartFailure ∧ ∃ c, credentials = Some c ∧ oms_unreachable env config c))
  | Terminates what =>
    ∃ config, load_config env = Some config ∧
      (build_trader_startup_payload (tc_mode config) = Err what ∨
       ∃ c, resolve_credentials (en_getenv env) (kw_credentials (tc_kalshi config)) = Some c ∧
         tc_execution_mode config = TraderExecutionMode_kLive ∧
         make_ws_headers c (en_moment env) "/trade-api/ws/v2" = Err what)
  | Runs t => runs_as_configured env t
  end.
Proof.
  unfold startup. destruct (load_config env) as [config|] eqn:Hload.
  2:{ split_and!; [done..|]. left. split; [done|]. unfold load_config in Hload.
      destruct (resolve_config_path _ _) as [path|]; [|done]. exists path. split; [done|].
      by destruct (cl_ok _). }
  destruct (build_trader_startup_payload _) as [payload|what] eqn:Hpayload.
  2:{ exists config. auto. }
  destruct (resolve_credentials _ _) as [c|] eqn:Hcreds.
  2:{ split_and!; [done..|]. right. exists config. split; [done|]. by left. }
  destruct (oms_setup env config c) as [[setup|]|what] eqn:Hsetup.
  - destruct (start_oms config setup) as [om []] eqn:Hom.
    + destruct (start_feed_as_configured env config c (Some om)) as (t & -> & Ht); [done..| |done].
      by eapply oms_started.
    + pose proof (start_oms_fails _ _ _ Hom) as [_ [? ?]].
      split_and!; [done..|].
      right. exists config. split; [done|]. right. split; [done|]. exists c. split; [done|].
      by eapply oms_not_started.
  - destruct (start_feed_as_configured env config c None) as (t & -> & Ht); [done..| |done].
    unfold oms_setup in Hsetup. unfold oms_matches_mode.
    destruct (tc_execution_mode config); [by destruct (make_ws_headers _ _ _)|done..].
  - exists config. split; [done|]. right. exists c. split_and!; try done; unfold oms_setup in Hsetup;
      destruct (tc_execution_mode config); try done;
      destruct (make_ws_headers _ _ _); by simplify_eq.
Qed.
End startup_properties.

(** ** Stopping *)
Section shutting_down.
Context `{OpenSsl} `{NlohmannDocument} {Net : Type} `{!Beast Net} `{!BeastPending Net}.
Implicit Types (t : Trader Net).

Lemma push_message_workers (p : LivePipeline TraderHandler) message acquired_at received_at :
  same_workers p (push_message p message acquired_at received_at).1.
Proof.
  unfold push_message, same_workers, drop_message.
  destruct (acquire _ _) as [pool [ref|]]; [|done].
  destruct (frame pool ref); [|done]. by destruct (try_push _ _) as [queue []].
Qed.

Lemma same_workers_trans (p1 p2 p3 : LivePipeline TraderHandler) :
  same_workers p1 p2 → same_workers p2 p3 → same_workers p1 p3.
Proof. unfold same_workers. intros [-> ->] [-> ->]. done. Qed.

(** No worker thread is left, and the order connection is closed. *)
Definition nothing_running t : Prop :=
  fr_worker (fs_runner (tr_feed t)) = false ∧ fr_running (fs_runner (tr_feed t)) = false ∧
  lp_running (tr_pipeline t) = false ∧
  Forall (λ s, sd_worker s = false ∧ sd_running s = false) (lp_shards (tr_pipeline t)) ∧
  match tr_order_manager t with
  | None => True
  | Some om =>
    om_worker_joinable om = false ∧ om_running om = false ∧
    match om_transport om with
    | inl w => bt_connected w = false
    | inr p => pt_connected p = false
    end
  end.

(** A trader in its loop: the feed has been running since startup, the shards and the
    order manager, if there is one, are running. *)
Definition in_loop t : Prop :=
  (∃ labels session sink channels,
     live_run (tr_adapter t) labels (feed_init session sink channels) (tr_feed t)) ∧
  fr_worker (fs_runner (tr_feed t)) = true ∧ fs_stop_pc (tr_feed t) = StopIdle ∧
  lp_running (tr_pipeline t) = true ∧
  match tr_order_manager t with None => True | Some om => om_worker_joinable om = true end.

Lemma om_stop_stopped (om : OrderManager (OmsTransport Net) PositionLedger) :
  om_worker_joinable om = true →
  om_worker_joinable (om_stop om) = false ∧ om_running (om_stop om) = false ∧
  match om_transport (om_stop om) with
  | inl w => bt_connected w = false
  | inr p => pt_connected p = false
  end.
Proof.
  unfold om_stop. intros ->. simpl. split_and!; [done..|].
  destruct (om_transport om); simpl; [apply closed_disconnected|done].
Qed.

(** The loop starts in such a state. *)
Lemma start_feed_in_loop (env : Environment Net) config c om t :
  start_feed env config c om = Runs t →
  match om with None => True | Some om => om_worker_joinable om = true end → in_loop t.
Proof.
  unfold start_feed.
  destruct (fresh_pipeline_start (tc_pipeline config) (handler_factory config))
    as (p & -> & Hrun & _ & _).
  set (session := session_init _). intros [= <-] Hom. split; [|done].
  exists ([] ++ [ByStart]), session, p, (kw_channels (tc_kalshi config)).
  apply (live_snoc _ [] _ _ (feed_init session p (kw_channels (tc_kalshi config))));
    [apply live_nil|exact (live_start _ (feed_init session p (kw_channels (tc_kalshi config))))].
Qed.

Lemma startup_in_loop (env : Environment Net) t : startup env = Runs t → in_loop t.
Proof.
  unfold startup. destruct (load_config env) as [config|]; [|done].
  destruct (build_trader_startup_payload _); [|done].
  destruct (resolve_credentials _ _) as [c|]; [|done].
  destruct (oms_setup env config c) as [[setup|]|]; [| |done].
  - destruct (start_oms config setup) as [om []] eqn:Hom; [|done]. intros Ht.
    eapply start_feed_in_loop; [done|]. apply (start_oms_runs _ _ _ Hom).
  - intros Ht. by eapply start_feed_in_loop.
Qed.

(** The shutdown completes and leaves nothing running.  From every state of the loop,
    whatever the worker of the feed was doing, the sequence of stops can be carried out to
    its end; and however it went, afterwards the feed worker is joined, every shard worker
    is stopped, and the order manager, if there was one, is stopped with its connection
    closed. *)
Theorem shutdown_completes t :
  in_loop t →
  (∃ t', shutdown t t') ∧ (∀ t', shutdown t t' → nothing_running t').
Proof.
  intros ((labels & session & sink & channels & Hrun) & Hw & Hstop & Hp & Hom). split.
  - assert (worker_wf (tr_feed t)) as [Hwf1 Hwf2].
    { apply (feed_run_wf _ _ _ _ (live_run_feed _ _ _ _ Hrun)). by split. }
    destruct (closed_worker_finishes (tr_adapter t) (same_workers (tr_pipeline t)))
      with (s := stop_close (stop_request (tr_feed t)))
      as (n & f & Hf & Hd & Hfw & Hsame); try done.
    { intros p reading message Hs. eapply same_workers_trans; [done|].
      apply push_message_workers. }
    { intros _ _. apply (link_close_open (transport_of (tr_feed t))). }
    exists (stop_order_manager (stop_pipeline
      (t <| tr_feed := stop_join f |> <| tr_order_manager := tr_order_manager t |>))).
    constructor; [|done|done].
    apply (feed_stopped_joined _ _ [] (replicate n ByWorker) (stop_request (tr_feed t)));
      try done; [apply live_nil|by apply not_elem_of_nil|].
    intros Hin%elem_of_replicate. by destruct Hin.
  - intros t' Hs. destruct Hs as [t feed om Hfeed [Hsame1 Hsame2] Hom'].
    assert (fr_worker (fs_runner feed) = false ∧ fr_running (fs_runner feed) = false) as [Hf1 Hf2].
    { destruct Hfeed; [done|congruence]. }
    unfold nothing_running, tr_pipeline. simpl. unfold tr_pipeline in *.
    unfold pipeline_stop. rewrite Hsame1, Hp. simpl. split_and!; [done..| |].
    + apply Forall_fmap, Forall_forall. done.
    + destruct om as [om|], (tr_order_manager t) as [om0|]; simplify_eq/=; [|done].
      apply om_stop_stopped. congruence.
Qed.
End shutting_down.

(** ** A concrete start and stop: paper mode, credentials from the environment *)
Definition demo_trader_file : ConfigFile :=
  mkConfigFile (Some "paper") None (Some (Some ["MKT"])) None
    (Some (mkPipelineFile None None (Some 2) (Some 2) (Some 1) (Some 2) None))
    (Some (mkRuntimeFile None None (Some TraderExecutionMode_kPaper))).

Definition demo_environment : Environment (gmap string string * string * string) :=
  mkEnvironment ["trader"; "--config"; "trader.json"]
    (λ name, if decide (name = "KALSHI_KEY_ID") then Some "key-1"
             else if decide (name = "KALSHI_PRIVATE_KEY_PEM") then Some "-----BEGIN KEY"
             else None)
    (mkMoment 1700000000000 7
       (λ path, if decide (path = "trader.json")
                then Some (demo_bits (encode (config_document demo_trader_file))) else None))
    (∅, "", "") (∅, "", "") (Ok tt).

#[export] Instance recording_pending : BeastPending (gmap string string * string * string) :=
  λ _, true.

Definition runs_in (mode : TraderExecutionMode) {Net} (r : startup_result Net) : bool :=
  match r with
  | Runs t => bool_decide (tc_execution_mode (tr_config t) = mode)
  | _ => false
  end.

Lemma startup_decided_witness :
  ∃ t om, startup demo_environment = Runs t ∧ tr_order_manager t = Some om ∧
    om_running om = true ∧ pipeline_matches (tr_config t) (tr_pipeline t).
Proof.
  assert (runs_in TraderExecutionMode_kPaper (startup demo_environment) = true) as Hr
    by (vm_compute; reflexivity).
  pose proof (startup_decided demo_environment) as Hd.
  destruct (startup demo_environment) as [| |t]; try discriminate Hr.
  apply bool_decide_eq_true in Hr. destruct Hd as (_ & _ & _ & _ & Hom & Hp & _).
  unfold oms_matches_mode in Hom. rewrite Hr in Hom.
  destruct (tr_order_manager t) as [om|] eqn:Ho; [|contradiction].
  exists t, om. split_and!; [reflexivity|exact Ho|apply Hom|exact Hp].
Defined.

Lemma shutdown_completes_witness :
  ∃ t t', startup demo_environment = Runs t ∧ shutdown t t' ∧ nothing_running t'.
Proof.
  assert (runs_in TraderExecutionMode_kPaper (startup demo_environment) = true) as Hr
    by (vm_compute; reflexivity).
  destruct (startup demo_environment) as [| |t] eqn:Ht; try discriminate Hr.
  destruct (shutdown_completes t (startup_in_loop _ _ Ht)) as [[t' Hs] Hall].
  exists t, t'. split_and!; [reflexivity|exact Hs|exact (Hall t' Hs)].
Defined.
