(* ===== verification/Process.v ===== *)
(** * The life of the trader process

    The end of main in src/cpp/apps/trader/main.cpp: the signal handler and its installation
    for SIGINT and SIGTERM, the loop that pumps until a shutdown is requested, and the
    sequence of stops that follows.  Signals arrive at any time, before the handler is
    installed too: a signal without handler takes its default action, which for most signals
    ends the process on the spot ([default_terminates], a parameter: the operating system).
    The handler stays installed once a signal was handled, as with the signal() of the
    systems the program builds on.  The feed worker and the threads behind it (shard workers, order manager,
    network) run between the steps of main.  How these threads share their data is the
    subject of MarketData.v and Engine.v; here a call of [pump_ingest] is one step, since
    what matters is which components run and when the process ends. *)
From S2P Require Import Prelude.
From S2P Require Import Types.
From S2P Require Import PositionLedger.
From S2P Require Import SpscQueue.
From S2P Require Import FramePool.
From S2P Require Import Simdjson.
From S2P Require Import Router.
From S2P Require Import Shard.
From S2P Require Import Pipeline.
From S2P Require Import Nlohmann.
From S2P Require Import OmsAdapter.
From S2P Require Import OrderTransport.
From S2P Require Import OrderManager.
From S2P Require Import PaperTrading.
From S2P Require Import Strategy.
From S2P Require Import Config.
From S2P Require Import WsClient.
From S2P Require Import AuthSigner.
From S2P Require Import WsFeed.
From S2P Require Import FeedProgress.
From S2P Require Import Trader.

(** ** The signal handler *)
Definition SIGINT : Z := 2.
Definition SIGTERM : Z := 15.

Definition shutdown_signal (signal : Z) : bool :=
  bool_decide (signal = SIGINT ∨ signal = SIGTERM).

(** The new value of [g_shutdown_requested]. *)
Definition handle_shutdown_signal (signal : Z) (g_shutdown_requested : bool) : bool :=
  if shutdown_signal signal then true else g_shutdown_requested.

(** ** The process *)
(** Main is about to install the handler for SIGINT or for SIGTERM, at the loop condition,
    about to pump, past the loop, or has returned; or a signal has killed the process. *)
Inductive main_pc :=
  | MainInstallInt | MainInstallTerm | MainTest | MainPump | MainStop
  | MainReturned (code : Z) | MainKilled (signal : Z).

Record Process (Net : Type) := mkProcess {
  ps_trader : Trader Net;
  ps_shutdown_requested : bool;
  ps_pc : main_pc;
  (** the signals [handle_shutdown_signal] is installed for *)
  ps_handled : gset Z;
  (** the signals delivered so far *)
  ps_signals : list Z;
}.
Arguments mkProcess {Net} _ _ _ _ _.
Arguments ps_trader {Net} _.
Arguments ps_shutdown_requested {Net} _.
Arguments ps_pc {Net} _.
Arguments ps_handled {Net} _.
Arguments ps_signals {Net} _.

#[export] Instance Process_settable Net : Settable (Process Net) := λ x,
  mkProcess (ps_trader x) (ps_shutdown_requested x) (ps_pc x) (ps_handled x) (ps_signals x).

Definition returned (pc : main_pc) : bool :=
  match pc with MainReturned _ => true | _ => false end.
Definition killed (pc : main_pc) : bool :=
  match pc with MainKilled _ => true | _ => false end.
Definition ended (pc : main_pc) : bool := returned pc || killed pc.
(** Main has reached its loop. *)
Definition installed (pc : main_pc) : bool :=
  match pc with MainTest | MainPump | MainStop | MainReturned _ => true | _ => false end.

Section process.
Context `{SimdJson} `{OpenSsl} `{NlohmannDocument} {Net : Type} `{!Beast Net} `{!BeastPending Net}.
Context (hash : string → Z).
(** The default action of a signal ends the process. *)
Context (default_terminates : Z → bool).
Implicit Types (t : Trader Net) (p : Process Net).

(** After [startup]; no handler is installed yet. *)
Definition process_init t : Process Net := mkProcess t false MainInstallInt ∅ [].

(** The steps of main. *)
Inductive main_step : Process Net → Process Net → Prop :=
  | main_install_int p :
      ps_pc p = MainInstallInt →
      main_step p (p <| ps_handled ::= λ h, {[SIGINT]} ∪ h |> <| ps_pc := MainInstallTerm |>)
  | main_install_term p :
      ps_pc p = MainInstallTerm →
      main_step p (p <| ps_handled ::= λ h, {[SIGTERM]} ∪ h |> <| ps_pc := MainTest |>)
  | main_again p :
      ps_pc p = MainTest → ps_shutdown_requested p = false →
      main_step p (p <| ps_pc := MainPump |>)
  | main_pump p :
      ps_pc p = MainPump →
      main_step p (p <| ps_trader ::= λ t, (pump hash t).1 |> <| ps_pc := MainTest |>)
  | main_leave p :
      ps_pc p = MainTest → ps_shutdown_requested p = true →
      main_step p (p <| ps_pc := MainStop |>)
  | main_shutdown p t :
      ps_pc p = MainStop → shutdown (ps_trader p) t →
      main_step p (p <| ps_trader := t |> <| ps_pc := MainReturned 0 |>).

(** A signal: its handler runs, or its default action takes place. *)
Definition deliver_signal (signal : Z) p : Process Net :=
  let p := p <| ps_signals ::= λ l, l ++ [signal] |> in
  if decide (signal ∈ ps_handled p)
  then p <| ps_shutdown_requested ::= handle_shutdown_signal signal |>
  else if default_terminates signal then p <| ps_pc := MainKilled signal |> else p.

(** The steps of everything else, until the process ends: a signal, the feed worker, and the
    network and the threads behind the sink, which start and stop no worker. *)
Inductive outer_step : Process Net → Process Net → Prop :=
  | outer_signal p signal :
      ended (ps_pc p) = false → outer_step p (deliver_signal signal p)
  | outer_feed p feed :
      ended (ps_pc p) = false →
      live_step (tr_adapter (ps_trader p)) ByWorker (tr_feed (ps_trader p)) feed →
      outer_step p (p <| ps_trader ::= λ t, t <| tr_feed := feed |> |>)
  | outer_threads p network pipeline om dropped :
      ended (ps_pc p) = false →
      link_network (transport_of (tr_feed (ps_trader p))) network →
      same_workers (tr_pipeline (ps_trader p)) pipeline →
      om_worker_joinable <$> om = om_worker_joinable <$> tr_order_manager (ps_trader p) →
      outer_step p
        (p <| ps_trader ::= λ t, t <| tr_order_manager := om |> <| tr_dropped_count := dropped |>
               <| tr_feed ::= outside network pipeline |> |>).

Definition process_step p p' : Prop := main_step p p' ∨ outer_step p p'.

(** A run with the number of steps main took. *)
Inductive process_run : nat → Process Net → Process Net → Prop :=
  | process_run_nil p : process_run 0 p p
  | process_run_main n p p' p'' : process_run n p p' → main_step p' p'' → process_run (S n) p p''
  | process_run_outer n p p' p'' : process_run n p p' → outer_step p' p'' → process_run n p p''.

(** ** The workers of the pipeline *)
Lemma same_workers_refl (q : LivePipeline TraderHandler) : same_workers q q.
Proof. by split. Qed.

Lemma pump_loop_workers n (q : LivePipeline TraderHandler) c :
  same_workers q (pump_loop hash n q c).1.
Proof.
  revert q c. induction n as [|n IH]; intros q c; simpl; [by apply same_workers_refl|].
  destruct (try_pop _ _) as [queue [ref|]]; [|done].
  destruct (pump_frame hash _ c ref) as [q' c'] eqn:Hf.
  eapply same_workers_trans; [|apply IH].
  unfold pump_frame in Hf. repeat case_match; by simplify_eq/=.
Qed.

Lemma pump_workers t : same_workers (tr_pipeline t) (tr_pipeline (pump hash t).1).
Proof.
  unfold pump, pump_ingest. case_decide; [done|].
  pose proof (pump_loop_workers (Z.to_nat (tc_pump_batch_size (tr_config t))) (tr_pipeline t)
    (mkPumpCounts 0 0 0 0)) as Hw.
  by destruct (pump_loop hash _ _ _) as [q c].
Qed.

(** ** Between startup and return every component keeps running *)
Lemma in_loop_feed t feed :
  live_step (tr_adapter t) ByWorker (tr_feed t) feed → in_loop t → in_loop (t <| tr_feed := feed |>).
Proof.
  intros Hstep ((labels & session & sink & channels & Hrun) & Hw & Hs & Hp & Hom).
  split; [exists (labels ++ [ByWorker]), session, sink, channels; by eapply live_snoc|].
  assert (∃ m reading, feed = worker_step (tr_adapter t) m reading (tr_feed t)) as (m & reading & ->).
  { remember ByWorker as l eqn:Hl. destruct Hstep; try done. by eexists _, _. }
  split_and!; simpl; [by rewrite worker_step_worker|by rewrite worker_step_stop| |done].
  apply (worker_step_sink (tr_adapter t) (λ q : LivePipeline TraderHandler, lp_running q = true));
    [|done].
  intros q r message Hq. etrans; [apply (push_message_workers q message r.1 r.2)|exact Hq].
Qed.

Lemma in_loop_threads t network pipeline om dropped :
  link_network (transport_of (tr_feed t)) network →
  same_workers (tr_pipeline t) pipeline →
  om_worker_joinable <$> om = om_worker_joinable <$> tr_order_manager t → in_loop t →
  in_loop (t <| tr_order_manager := om |> <| tr_dropped_count := dropped |>
             <| tr_feed ::= outside network pipeline |>).
Proof.
  intros Hn [Hr _] Hj ((labels & session & sink & channels & Hrun) & Hw & Hs & Hp & Hom).
  split; [exists (labels ++ [ByOther]), session, sink, channels; eapply live_snoc; [done|];
    by apply live_outside|].
  split_and!; simpl; [done|done|by rewrite <-Hp, <-Hr|].
  destruct om, (tr_order_manager t); simplify_eq/=; congruence.
Qed.

Lemma in_loop_pump t : in_loop t → in_loop (pump hash t).1.
Proof.
  intros Hin. pose proof (pump_workers t) as Hw.
  unfold pump in *. destruct (pump_ingest _ _ _) as [q n]. simpl in *.
  assert (link_network (transport_of (tr_feed t)) (transport_of (tr_feed t))) as Hn.
  { exists (bt_stream (transport_of (tr_feed t))). by destruct (transport_of (tr_feed t)). }
  pose proof (in_loop_threads t (transport_of (tr_feed t)) q
    (tr_order_manager t) (tr_dropped_count t) Hn Hw eq_refl Hin) as Hin'.
  by destruct t as [? ? ? ? [[[]] ? ? ?]].
Qed.

(** ** The invariant of the process *)
Record process_inv p : Prop := {
  pri_trader :
    match ps_pc p with
    | MainReturned code => code = 0 ∧ nothing_running (ps_trader p)
    | MainKilled _ => True
    | _ => in_loop (ps_trader p)
    end;
  pri_left :
    match ps_pc p with
    | MainInstallInt => ps_shutdown_requested p = false
    | MainStop | MainReturned _ => ps_shutdown_requested p = true
    | _ => True
    end;
  pri_handled :
    match ps_pc p with
    | MainInstallInt => ps_handled p = ∅
    | MainInstallTerm => ps_handled p = {[SIGINT]}
    | MainKilled signal =>
      signal ∈ ps_signals p ∧ (signal ∉ ps_handled p) ∧ default_terminates signal = true
    | _ => ps_handled p = {[SIGINT; SIGTERM]}
    end;
  pri_requested :
    killed (ps_pc p) = false →
    ps_shutdown_requested p = existsb shutdown_signal (ps_signals p);
}.

Lemma main_step_inv p p' : main_step p p' → process_inv p → process_inv p'.
Proof.
  intros Hstep [Ht Hl Hh Hr].
  destruct Hstep as [p Hpc|p Hpc|p Hpc Hq|p Hpc|p Hpc Hq|p t Hpc Hs];
    rewrite Hpc in *; split; simpl; try done; try (rewrite Hh; set_solver).
  - by apply in_loop_pump.
  - split; [done|]. by apply (shutdown_completes _ Ht).
Qed.

(** Main is where it was after a step of the others, unless a signal killed the process. *)
Definition stays p p' : Prop :=
  ps_pc p' = ps_pc p ∨ ∃ signal, ps_pc p' = MainKilled signal ∧ signal ∉ ps_handled p.

Section signals.
(** The default action of SIGINT and of SIGTERM ends the process. *)
Context (int_terminates : default_terminates SIGINT = true).
Context (term_terminates : default_terminates SIGTERM = true).

Lemma shutdown_terminates signal :
  shutdown_signal signal = true → default_terminates signal = true.
Proof. intros [-> | ->]%bool_decide_eq_true; done. Qed.

Lemma deliver_signal_inv signal p :
  ended (ps_pc p) = false → process_inv p →
  process_inv (deliver_signal signal p) ∧ stays p (deliver_signal signal p) ∧
  ps_handled (deliver_signal signal p) = ps_handled p.
Proof.
  intros Hn [Ht Hl Hh Hr]. apply orb_false_iff in Hn as [Hnr Hnk]. specialize (Hr Hnk).
  unfold deliver_signal, stays. simpl. case_decide as Hin.
  - split; [|by split; [left|]]. split; simpl; [done| |by destruct (ps_pc p)|].
    + unfold handle_shutdown_signal. destruct (ps_pc p); try done.
      * rewrite Hh in Hin. by apply elem_of_empty in Hin.
      * rewrite Hl. by case_match.
    + intros _. rewrite existsb_app, <-Hr. simpl. unfold handle_shutdown_signal.
      by destruct (shutdown_signal signal), (ps_shutdown_requested p).
  - destruct (default_terminates signal) eqn:Hterm; simpl.
    + split; [|split; [right; by exists signal|done]].
      split; simpl; [done|done| |done]. split_and!; [|done|done].
      apply elem_of_app. right. apply list_elem_of_here.
    + split; [|by split; [left|]]. split; simpl; [done|done|by destruct (ps_pc p)|].
      intros _. rewrite existsb_app, <-Hr. simpl.
      destruct (shutdown_signal signal) eqn:Hs; [|by rewrite !orb_false_r].
      apply shutdown_terminates in Hs. congruence.
Qed.

Lemma outer_step_inv p p' :
  outer_step p p' → process_inv p →
  process_inv p' ∧ stays p p' ∧ ps_handled p' = ps_handled p.
Proof.
  intros Hstep Hi.
  destruct Hstep as [p signal Hn|p feed Hn Hf|p network pipeline om dropped Hn Hnet Hw Hj];
    [by apply deliver_signal_inv|..]; (split; [|by split; [left|]]);
    destruct Hi as [Ht Hl Hh Hr]; split; simpl; try done.
  - destruct (ps_pc p); try (by apply in_loop_feed); done.
  - destruct (ps_pc p); try (by apply in_loop_threads); done.
Qed.

Lemma process_reachable (env : Environment Net) t p :
  startup env = Runs t → rtc process_step (process_init t) p → process_inv p.
Proof.
  intros Hs Hr. assert (process_inv (process_init t)) as Hi.
  { split; [by eapply startup_in_loop|done|done|done]. }
  clear Hs. induction Hr as [|p1 p2 p3 Hstep _ IH]; [done|]. apply IH.
  destruct Hstep as [Hstep|Hstep]; [by eapply main_step_inv|by eapply outer_step_inv].
Qed.

(** The steps left to main once a shutdown has been requested. *)
Definition main_left p : nat :=
  match ps_pc p with
  | MainInstallInt => 4
  | MainInstallTerm | MainPump => 3
  | MainTest => 2
  | MainStop => 1
  | MainReturned _ | MainKilled _ => 0
  end.

Lemma outer_step_requested p p' :
  outer_step p p' → ps_shutdown_requested p = true → ps_shutdown_requested p' = true.
Proof.
  destruct 1; simpl; [|done..]. unfold deliver_signal. intros Hq. repeat case_match; simpl; try done.
  rewrite Hq. unfold handle_shutdown_signal. by case_match.
Qed.

Lemma process_run_left n p p' :
  process_run n p p' → process_inv p → ps_shutdown_requested p = true →
  process_inv p' ∧ ps_shutdown_requested p' = true ∧ (n + main_left p' ≤ main_left p)%nat.
Proof.
  intros Hrun Hi Hq.
  induction Hrun as [p|n p p' p'' _ IH Hs|n p p' p'' _ IH Hs]; [done|..];
    destruct (IH Hi Hq) as (Hi' & Hq' & Hle).
  - split_and!; [by eapply main_step_inv|by destruct Hs|].
    etrans; [|exact Hle]. unfold main_left.
    destruct Hs as [? Hpc|? Hpc|? Hpc|? Hpc|? Hpc|? ? Hpc]; simpl; rewrite Hpc; [lia|lia|congruence|lia..].
  - destruct (outer_step_inv _ _ Hs Hi') as (Hi'' & Hst & _).
    split_and!; [done|by eapply outer_step_requested|]. unfold main_left in *.
    destruct Hst as [-> | (signal & -> & _)]; lia.
Qed.

(** From the loop on only a signal that is not handled can kill the process. *)
Lemma process_run_killed n p p' :
  process_run n p p' → process_inv p → installed (ps_pc p) = true →
  process_inv p' ∧ (installed (ps_pc p') = true ∨
    ∃ signal, ps_pc p' = MainKilled signal ∧ signal ≠ SIGINT ∧ signal ≠ SIGTERM).
Proof.
  intros Hrun Hi Hin.
  induction Hrun as [p|n p p' p'' _ IH Hs|n p p' p'' _ IH Hs]; [by split; [|left]|..];
    destruct (IH Hi Hin) as (Hi' & Hcase).
  - split; [by eapply main_step_inv|]. left. clear -Hs Hcase.
    destruct Hs as [? Hpc|? Hpc|? Hpc|? Hpc|? Hpc|? ? Hpc]; simpl; rewrite ?Hpc in *;
      try done; destruct Hcase as [?|(? & ? & _)]; done.
  - destruct (outer_step_inv _ _ Hs Hi') as (Hi'' & Hst & _). split; [done|].
    destruct Hst as [-> | (signal & Hk & Hnot)]; [done|]. right. exists signal.
    split; [done|]. destruct Hcase as [Hin'|(s' & Hpc & _)].
    + pose proof (pri_handled _ Hi') as Hh.
      destruct (ps_pc p'); try discriminate Hin'; rewrite Hh in Hnot; set_solver.
    + assert (ended (ps_pc p') = false) as Hn by by destruct Hs. by rewrite Hpc in Hn.
Qed.

(** Main is never stuck. *)
Lemma main_progress p : process_inv p → ended (ps_pc p) = false → ∃ p', main_step p p'.
Proof.
  intros [Ht _ _ _] Hn. destruct (ps_pc p) eqn:Hpc; try done.
  - eexists. by apply main_install_int.
  - eexists. by apply main_install_term.
  - destruct (ps_shutdown_requested p) eqn:Hq; eexists; [by apply main_leave|by apply main_again].
  - eexists. by apply main_pump.
  - destruct (shutdown_completes _ Ht) as [[t Hs] _]. eexists. by eapply main_shutdown.
Qed.

End signals.
End process.

(** ** A concrete run: started in paper mode, interrupted *)
#[local] Existing Instance demo_reader.

(** The signals of POSIX whose default action is to ignore them, to stop or to continue
    the process; all others end it. *)
Definition posix_terminates (signal : Z) : bool :=
  bool_decide (signal ∉ [17; 18; 19; 20; 21; 22; 23; 28]).

Abbreviation demo_process_step := (process_step (λ _, 0) posix_terminates).

